(* ===== verification/_CoqProject ===== *)
-Q . S2P
Prelude.v
Bytes.v
Graph.v
Kahn.v
Topological.v
GraphDelta.v
EnumTable.v
Errors.v
StepTypes.v
Geometry.v
Command.v
Sequence.v
SequenceOps.v
Rounding.v
Json.v
JsonInstance.v
DocumentReader.v
DocumentWriter.v
Interpreter.v
DocumentShapes.v
DocumentSteps.v
DocumentTheorems.v
Identity.v
IdFactory.v
Traversal.v
SpaceGraph.v
TargetRegistry.v
Player.v
PlayerInv.v
PlayerJump.v
PlayerSteps.v
PlayerPump.v
PlayerRun.v
PlayerTheorems.v
Drive.v
UiTree.v
Locator.v
LocatorText.v
LocatorTheorems.v
Query.v
QueryTheorems.v
TreeStore.v
TreeCheck.v
TreeGeneration.v
TreeDelta.v
TreeStoreTheorems.v
Png.v
PngTheorems.v
Event.v
EventBus.v
EventQueue.v
EventBusTheorems.v
EventDemand.v
Context.v
ActionTypes.v
Action.v
ActionProtocol.v
ActionRuns.v
ActionDemo.v
ActionTheorems.v
ActionTotal.v
Scene.v
ScenePicture.v
SceneTheorems.v
Tiles.v
Gesture.v
Routing.v
Sessions.v
Schedule.v
Timer.v
