(* ===== verification/Prelude.v ===== *)
(** Grab: a verification development of its kernel.

    Grab automates a desktop: a caller loads a document of commands, a player runs it
    against a session, locators find widgets in trees that accessibility sources feed,
    and events, captures and receipts come back.  The development models the parts
    that decide what happens and in which order, and leaves out the drivers, windows,
    sockets and files through which it happens.  Names of files below are under [src/];
    [kernel/] is [src/src/kernel/], [include/] is [src/include/].

    * How the parts interact

    A document ([Sequence]) is read from JSON ([DocumentReader], [Interpreter]), built
    over the adjacency graph ([Graph], [Topological]), edited ([SequenceOps]) and written
    back ([DocumentWriter]).  A [Player] runs it step by step through a [CommandRunner],
    a type class for whatever executes a command, and [Drive] is the loop that gives the
    player real time.  A command's target is a locator ([Locator], [LocatorText]) that
    the query engine ([Query]) evaluates over a tree snapshot ([UiTree]) by graph
    traversals ([Traversal]).  Snapshots come out of the tree store ([TreeStore]), which
    turns updates of a source into generations and events ([GraphDelta] compares graphs
    in the same way).  Events reach their subscribers through the event bus ([Event],
    [EventBus]).  An action on one widget is a transaction ([Action]): it resolves its
    target by the query engine, waits until it can be acted on, and commits through a
    route of the runtime, again a type class ([Runtime] of [ActionTypes]).  Coordinates
    of different surfaces are related by the space graph ([SpaceGraph]), durable targets
    are kept in a registry ([TargetRegistry]), identities are minted by [IdFactory], and
    captured images are stored by the PNG codec ([Png]).

    * What models what

    - Shared: this file (ordered keys, adjacency vectors, list lemmas, tactics), [Bytes]
      (octets and big-endian fields), [EnumTable] ([include/grab/enum_table.hpp]),
      [Errors] ([include/grab/result.hpp], [trace.hpp]), [Rounding] (rounding to a binary
      format), [Identity].
    - Graphs: [Graph] ([kernel/graph/adjacency_graph.hpp]: [insert_node], [insert_edge],
      the erasing operations and lookups, on two sorted maps), [Kahn] and [Topological]
      ([topological_order.hpp]), [GraphDelta] ([graph_delta.hpp]), [Traversal]
      ([graph_traversal.hpp]).
    - Documents: [StepTypes] ([include/grab/sequence_types.hpp]), [Geometry] (points,
      overlay shapes, drag options), [Command] ([command.hpp], [command_descriptor.hpp]),
      [Sequence] ([kernel/sequence/sequence.cpp]: [build], lookups, [ancestors_of]),
      [SequenceOps] ([sequence_ops.cpp]: [statistics], [planned], [splice], [validate]),
      [Json] and [JsonInstance] (the JSON library's interface and one instance of it),
      [DocumentReader], [DocumentWriter] and [Interpreter] ([interpreter.cpp]: [parse],
      [to_json]), with the lemmas in [DocumentShapes], [DocumentSteps] and the theorems in
      [DocumentTheorems].
    - Runs: [Player] ([kernel/sequence/player.cpp]: [play], [pump], [complete], [goto_step],
      [interrupt] and the rest, one definition each over the record of the class's data
      members, with a history of the runner's calls), its invariant and proofs in
      [PlayerInv], [PlayerJump], [PlayerSteps], [PlayerPump], [PlayerRun], the theorems in
      [PlayerTheorems]; [Drive] ([drive.cpp]).
    - Trees and queries: [UiTree] ([include/grab/ui.hpp], [role.hpp], [relation.hpp]),
      [Locator], [LocatorText] and [LocatorTheorems] ([kernel/query/locator.cpp]), [Query]
      and [QueryTheorems] ([evaluator.cpp]).
    - The tree store: [TreeStore] ([kernel/graph/tree_store.cpp]: validation, snapshots
      and deltas to generations, derived events, gaps, retired runtimes, publication by
      interleaved threads), proofs in [TreeCheck], [TreeGeneration], [TreeDelta] and
      [TreeStoreTheorems].
    - Events: [Event] ([include/grab/event.hpp], [event_descriptor.hpp], [origin.hpp]),
      [EventBus] ([kernel/events/event_bus.cpp], [include/grab/watch.hpp]: subscriptions,
      their rings, replay, demand, and the steps of interleaved threads), proofs in
      [EventQueue], [EventBusTheorems] and [EventDemand].
    - Actions: [Context] ([kernel/lifecycle/context.cpp]), [ActionTypes]
      ([include/grab/interaction.hpp], [src/src/spi/route.hpp], [runtime.hpp]), [Action]
      ([kernel/action/wait_engine.cpp] and [transaction.cpp], as computations of a state
      and error monad), the protocol and proofs in [ActionProtocol] and [ActionRuns], a
      small runtime in [ActionDemo], the theorems in [ActionTheorems] and [ActionTotal].
    - Others: [SpaceGraph] ([kernel/presentation/space_graph.cpp]), [TargetRegistry]
      ([kernel/graph/target_registry.cpp]), [IdFactory] ([kernel/identity/]), [Png] and
      [PngTheorems] ([src/src/codec/png.cpp]).
    - [Scene] is [kernel/presentation/overlay_scene.cpp]: a [Scene] is the state of
      [OverlayScene::Impl], [add_locked] … [snapshot_locked] the locked blocks of the
      calls (returning or throwing, with the scene they leave), [take_step] that of
      [drain_publications]; [scene_step] interleaves calls, the publisher and changes of
      the sink.  [ScenePicture] has the invariant of the tables and the effect of each
      call, [SceneTheorems] the hand-over.
    - [Timer] is [kernel/scheduling/timer_thread.cpp]: a [TimerState] is what the mutex
      guards, [arm_locked], [cancel_locked], [drain_locked] and [collect_due_locked] are
      the locked blocks, [worker_step] the loop of [run], and [timer_step] interleaves
      callers, the worker and the clock over descriptors ([EventFd], [TimerFd]) of which
      only the documented behaviour is assumed.
    - [Tiles] is [kernel/capture/] without its capture gate ([tile_differ.cpp],
      [damage_hint_auditor.cpp]), [Gesture] [kernel/input/gesture_classifier.cpp],
      [Routing] [include/grab/capability.hpp] and [kernel/routing/] ([registry.cpp],
      [resolver.cpp], [prober.cpp], [doctor.cpp]), [Sessions] [src/src/session/selection.cpp]
      and [state_machine.cpp], [Schedule] [src/src/config/schedule.cpp].

    * What the theorems show

    - Of a run: steps start only when what they depend on has ended, each is entered and
      exited at most once and in protocol order, an interrupt releases what is held in
      reverse order, the pump's loop ends within its bound, and a driven run never
      stalls and leaves nothing open.
    - Of documents: [build] accepts exactly the acyclic documents with unique labels and
      known dependencies; a splice lands in series; what loads is in range and round
      trips through its text; the two holes of the round trip are exhibited.
    - Of queries: [resolve_all] answers with exactly the nodes a plan's denotation holds
      of, in the order of the scope's listing; the combinators denote what they say; locators round trip through their text.
    - Of the tree store: an update is accepted exactly when it is consistent, the events
      of an update are exactly what changed (facets and provenance aside, which the store
      does not compare), and they are published in order whatever
      threads do; a retired runtime stays out.
    - Of events: a subscription's ring is a bounded queue; in a queue with room nothing
      that must be kept is lost without a gap marker in its place (without room it is, and
      only the lag is told); demand is counted exactly, and where its
      announcement can go wrong.
    - Of actions: the calls to a runtime follow the commit protocol and the receipt tells
      the truth about them; an action that is not forced asks a route only right after
      it saw its target enabled; every transaction ends.
    - Of the codec: it decodes what it encodes, its parser accepts exactly the files of
      the format, and no input makes it read outside its buffers.
    - Of the graphs: the adjacency graph implements a finite map of edges, the order
      exists exactly without cycles, the difference is the reference difference, the
      shortest route is found, identities increase, the registry never faults.
    - Of the overlay's scene: a reader of its deltas can rebuild it at any time, each
      call does to the picture of live shapes what it says, ids never repeat.
    - Of the timer thread: a deadline is told once, not before its time and not after it
      was cancelled, and no interleaving loses a wake-up unless [poll] fails, after which
      deadlines are accepted and never told ([poll_failure_loses]).
    - Of input and capture: the tiles reported are exactly those that changed, hints are
      used only while trustworthy, and gestures tell the presses that were made, in order
      and none twice.
    - Of routing: a resolution is exactly the usable providers, best first, and stays
      for its generation; the doctor's report is true; a session goes to the first of
      the best providers; a watch's captures keep their grid.

    * Bounds and fuel

    Machine integers keep their width where the code's behaviour depends on it:
    identities, counters and sequence numbers wrap as the code's do (a hypothesis says
    so where a property needs that a 64-bit counter has not wrapped), JSON integers are
    tested against the ranges of their fields, and sizes of the codec are checked as the
    code checks them.  Durations and time points are unbounded integers, except the
    milliseconds of [Gesture], whose differences are tested to fit 64 bits.  Loops that are
    not structural take fuel: the pump's is [pump_limit], twice the number of steps and
    two ([pump_limit_is_enough]); the searches' is the number of nodes ([Traversal]);
    Kahn's the number of nodes ([Topological]); the chunk loop of the codec the number of
    bytes; a wait's the number of nanoseconds of its budget ([transactions_end]).  In
    every case a theorem or lemma shows that it does not run out.

    * What is not modelled

    - Input, output and processes: the display and device drivers, the command line and
      gRPC front ends, client transports, sessions and their provisioning, virtual
      displays, notification, configuration and storage files, logging.
    - Threads as such: the reactor and the state manager's worker;
      where threads meet in a modelled component, its locked parts are the steps of an
      interleaving.
    - Floating-point rendering: rasterization, animation and overlay drawing.
    - Failed allocations and exceptions thrown by callbacks.
    - The concrete runner of a sequence ([kernel/sequence/execute.hpp], [runner.hpp]) and
      the drivers' routes: the player and the transaction are proved for every
      implementation of their interfaces. *)

From stdpp Require Export sorting relations.
From stdpp Require Export base numbers strings list fin_maps gmap.

Open Scope Z_scope.

(** * Ordered keys

    Every key type the program stores in a [std::map] or orders with a
    defaulted [operator<=>] is a wrapper around one unsigned integer. *)

Class OrdKey (K : Type) `{EqDecision K, Countable K} := {
  okey : K → N;
  okey_inj : Inj (=) (=) okey
}.
#[export] Existing Instance okey_inj.

Definition key_lt {K} `{OrdKey K} (a b : K) : Prop := (okey a < okey b)%N.

Definition key_le {K} `{OrdKey K} (a b : K) : Prop := (okey a <= okey b)%N.

#[export] Instance key_lt_dec {K} `{OrdKey K} (a b : K) : Decision (key_lt a b).
Proof. unfold key_lt. apply _. Defined.

#[export] Instance key_le_dec {K} `{OrdKey K} (a b : K) : Decision (key_le a b).
Proof. unfold key_le. apply _. Defined.

(** The keys of a [std::map], in iteration order. *)
Definition sorted_keys {K V} `{OrdKey K} (m : gmap K V) : list K :=
  merge_sort key_le (map_to_list m).*1.

#[export] Instance N_ordkey : OrdKey N := {| okey := id; okey_inj := _ |}.

(** ** Sorted keys *)

Section sorted_keys.
Context {K V : Type} `{OrdKey K}.

#[export] Instance key_le_total : Total (key_le (K:=K)).
Proof. intros a b. unfold key_le. lia. Qed.

#[export] Instance key_le_trans : Transitive (key_le (K:=K)).
Proof. intros a b c. unfold key_le. lia. Qed.

Lemma sorted_keys_perm (m : gmap K V) : sorted_keys m ≡ₚ (map_to_list m).*1.
Proof. unfold sorted_keys. apply merge_sort_Permutation. Qed.

Lemma elem_of_sorted_keys (m : gmap K V) k : k ∈ sorted_keys m ↔ is_Some (m !! k).
Proof.
  rewrite sorted_keys_perm, list_elem_of_fmap. split.
  - intros ([k' v] & -> & Hin%elem_of_map_to_list). eauto.
  - intros [v Hv]. exists (k, v). split; [done|]. by apply elem_of_map_to_list.
Qed.

Lemma sorted_keys_NoDup (m : gmap K V) : NoDup (sorted_keys m).
Proof. rewrite sorted_keys_perm. apply NoDup_fst_map_to_list. Qed.

Lemma length_sorted_keys (m : gmap K V) : length (sorted_keys m) = size m.
Proof. rewrite sorted_keys_perm, length_fmap. apply length_map_to_list. Qed.

Lemma sorted_keys_le (m : gmap K V) : StronglySorted key_le (sorted_keys m).
Proof. apply (StronglySorted_merge_sort key_le). Qed.

Lemma sorted_keys_sorted (m : gmap K V) : StronglySorted key_lt (sorted_keys m).
Proof.
  pose proof (sorted_keys_le m) as Hs. pose proof (sorted_keys_NoDup m) as Hnd.
  induction Hs as [|k l Hs IH Hk]; [constructor|].
  apply NoDup_cons in Hnd as [Hnk Hnd]. constructor; [auto|].
  rewrite Forall_forall in *. intros x Hx. specialize (Hk x Hx). unfold key_le, key_lt in *.
  assert (okey k ≠ okey x); [|lia]. by intros ->%(inj okey).
Qed.

End sorted_keys.

(** ** Lists *)

Lemma not_NoDup_split {A} `{EqDecision A} (l : list A) :
  ¬ NoDup l → ∃ x l1 l2 l3, l = l1 ++ x :: l2 ++ x :: l3.
Proof.
  induction l as [|a l IH]; intros Hn; [destruct Hn; constructor|].
  destruct (decide (a ∈ l)) as [(l2 & l3 & ->)%list_elem_of_split|Ha].
  - by exists a, [], l2, l3.
  - destruct IH as (x & l1 & l2 & l3 & ->).
    + intros Hnd. apply Hn. by apply NoDup_cons.
    + by exists x, (a :: l1), l2, l3.
Qed.

Lemma list_filter_ext {A} (Q R : A → Prop)
    `{!∀ x, Decision (Q x), !∀ x, Decision (R x)} (l : list A) :
  (∀ x, x ∈ l → Q x ↔ R x) → filter Q l = filter R l.
Proof.
  induction l as [|x l IH]; intros HQR; [done|].
  rewrite !filter_cons, IH by (intros; apply HQR; by right).
  specialize (HQR x (list_elem_of_here x l)).
  destruct (decide (Q x)), (decide (R x)); tauto.
Qed.

(** Folds that keep an invariant, and folds that also leave something behind at
    every element. *)
Lemma foldl_inv {A B} (f : A → B → A) (P : A → Prop) (l : list B) a :
  (∀ a b, b ∈ l → P a → P (f a b)) → P a → P (foldl f a l).
Proof.
  revert a. induction l as [|b l IH]; intros a Hf Ha; [done|].
  apply IH; [|apply Hf; [by left|done]]. intros a' b' Hb'. apply Hf. by right.
Qed.

Lemma foldl_done {A B} (f : A → B → A) (P : A → Prop) (Q : B → A → Prop) (l : list B) a :
  (∀ a b, b ∈ l → P a → P (f a b) ∧ Q b (f a b)) →
  (∀ a b c, b ∈ l → P a → Q c a → Q c (f a b)) →
  P a → P (foldl f a l) ∧ ∀ b, b ∈ l → Q b (foldl f a l).
Proof.
  revert a. induction l as [|b l IH]; intros a Hf Hk Ha; [by split; [|intros b []%elem_of_nil]|].
  destruct (Hf a b (list_elem_of_here _ _) Ha) as [Hp Hq]. cbn.
  destruct (IH (f a b)) as [HP HQ]; [intros; apply Hf; [by right|done]| |done|].
  { intros a' b' c Hb'. apply Hk. by right. }
  split; [done|]. intros c [->|Hc]%elem_of_cons; [|by apply HQ].
  assert (∀ a', P a' → Q b a' → ∀ l', l' ⊆ l → P (foldl f a' l') ∧ Q b (foldl f a' l')) as Hkeep.
  { intros a' HP' HQ' l'. revert a' HP' HQ'. induction l' as [|x l' IHl]; intros a' HP' HQ' Hsub; [done|].
    cbn. assert (x ∈ l) by (apply Hsub; by left).
    apply IHl; [by apply Hf; [right|]|by apply Hk; [right|..]|].
    intros y Hy. apply Hsub. by right. }
  by apply Hkeep.
Qed.

(** ** Lists that differ at one position *)

Definition agree_off {A} (i : nat) (l l' : list A) : Prop :=
  length l' = length l ∧ ∀ j, j ≠ i → l' !! j = l !! j.

Section agree_off.
Context {A : Type}.
Implicit Types (l : list A).

Lemma agree_off_refl i l : agree_off i l l.
Proof. done. Qed.

Lemma agree_off_insert i l l' x : agree_off i l l' → agree_off i l (<[i := x]> l').
Proof.
  intros [Hl H]. split; [by rewrite length_insert|]. intros j Hj.
  rewrite list_lookup_insert_ne by done. by apply H.
Qed.

Lemma agree_off_alter i l l' f : agree_off i l l' → agree_off i l (alter f i l').
Proof.
  intros [Hl H]. split; [by rewrite length_alter|]. intros j Hj.
  rewrite list_lookup_alter_ne by done. by apply H.
Qed.

End agree_off.

(** Narrowing a filter by one entry of a list without repetitions. *)
Lemma length_filter_drop {A B} (f : A → B) (Q R : A → Prop)
    `{!∀ x, Decision (Q x), !∀ x, Decision (R x)} (l : list A) e :
  NoDup (f <$> l) → e ∈ l → Q e → (∀ x, R x ↔ Q x ∧ f x ≠ f e) →
  length (filter Q l) = S (length (filter R l)).
Proof.
  intros Hnd He HQ HR. induction l as [|x l IH]; [by apply not_elem_of_nil in He|].
  rewrite fmap_cons, NoDup_cons in Hnd. destruct Hnd as [Hx Hnd].
  apply elem_of_cons in He as [<-|He].
  - rewrite filter_cons_True, filter_cons_False by (rewrite ?HR; naive_solver). cbn. f_equal.
    f_equal. apply list_filter_ext. intros y Hy. rewrite HR.
    split; [|tauto]. intros ?. split; [done|]. intros E. apply Hx. rewrite <- E.
    by apply list_elem_of_fmap_2.
  - assert (f x ≠ f e) by (intros E; apply Hx; rewrite E; by apply list_elem_of_fmap_2).
    rewrite !filter_cons. destruct (decide (Q x)), (decide (R x)); cbn; naive_solver.
Qed.

(** ** Relations *)

Lemma tc_iff {A} (R S : relation A) :
  (∀ x y, R x y ↔ S x y) → ∀ x y, tc R x y ↔ tc S x y.
Proof.
  intros HRS x y. split; (induction 1 as [x y H|x y z H _ IH];
    [apply tc_once|eapply tc_l; [|exact IH]]; by apply HRS).
Qed.

(** A finite non-empty set closed under predecessors contains a cycle. *)
Section descent.
Context {A : Type} `{EqDecision A, Countable A} (R : relation A).

Fixpoint chain (l : list A) : Prop :=
  match l with
  | a :: ((b :: _) as rest) => R a b ∧ chain rest
  | _ => True
  end.

Lemma chain_app l1 l2 : chain (l1 ++ l2) → chain l2.
Proof. induction l1 as [|a [|b l1] IH]; [done|destruct l2; [done|intros [_ ?]; done]|].
  intros [_ ?]. auto. Qed.

Lemma chain_tc a l b l' : chain (a :: l ++ b :: l') → tc R a b.
Proof.
  revert a. induction l as [|c l IH]; intros a; cbn.
  - intros [? _]. by apply tc_once.
  - intros [HR Hc]. eapply tc_l; [done|]. by apply IH.
Qed.

Lemma descent_chain (U : gset A) k :
  U ≠ ∅ → (∀ n, n ∈ U → ∃ p, p ∈ U ∧ R p n) →
  ∃ l, length l = S k ∧ chain l ∧ Forall (λ x, x ∈ U) l.
Proof.
  intros [u Hu]%set_choose_L Hp. induction k as [|k (l & Hl & Hc & HF)].
  - exists [u]. split_and!; [done..|]. by apply Forall_singleton.
  - destruct l as [|a l]; [done|]. inversion_clear HF as [|?? Ha Hrest].
    destruct (Hp a Ha) as (p & HpU & HR). exists (p :: a :: l).
    split_and!; [cbn in *; lia|done|]. by repeat constructor.
Qed.

Lemma descent_cycle (U : gset A) :
  U ≠ ∅ → (∀ n, n ∈ U → ∃ p, p ∈ U ∧ R p n) → ∃ x, tc R x x.
Proof.
  intros Hne Hp. destruct (descent_chain U (size U) Hne Hp) as (l & Hl & Hc & HF).
  assert (¬ NoDup l) as (x & l1 & l2 & l3 & ->)%not_NoDup_split.
  { intros Hnd. assert (list_to_set l ⊆@{gset A} U) as Hsub.
    { intros x Hx%elem_of_list_to_set. rewrite Forall_forall in HF. auto. }
    apply subseteq_size in Hsub. rewrite size_list_to_set in Hsub by done. lia. }
  exists x. apply chain_app in Hc. by eapply chain_tc.
Qed.

End descent.

Lemma NoDup_length_le {A} (l k : list A) : NoDup l → l ⊆ k → (length l <= length k)%nat.
Proof. intros Hnd Hs. by apply submseteq_length, NoDup_submseteq. Qed.

Lemma StronglySorted_lookup {A} (R : relation A) (l : list A) i j a b :
  StronglySorted R l → l !! i = Some a → l !! j = Some b → (i < j)%nat → R a b.
Proof.
  intros Hs. revert i j. induction Hs as [|x l Hs IH Hx]; intros [|i] [|j] Hi Hj Hij; try done; try lia.
  - injection Hi as <-. rewrite Forall_forall in Hx. apply Hx. by eapply list_elem_of_lookup_2.
  - apply (IH i j); [done|done|lia].
Qed.

Lemma StronglySorted_filter {A} (R : relation A) (P : A → Prop) `{!∀ x, Decision (P x)} (l : list A) :
  StronglySorted R l → StronglySorted R (filter P l).
Proof.
  induction 1 as [|x l Hs IH Hx]; [constructor|]. rewrite filter_cons. case_decide; [|done].
  constructor; [done|]. rewrite Forall_forall in *. intros y [_ Hy]%list_elem_of_filter. by apply Hx.
Qed.
