(* ===== verification/Bytes.v ===== *)
(** Octets and big-endian fields, shared by the identity factory and the PNG codec. *)

From S2P Require Import Prelude.

Local Open Scope N_scope.

Definition byteMask : N := 255.

(** The loop of [write_timestamp] for a field of [n] octets. *)
Fixpoint field_bytes (n : nat) (value : N) : list N :=
  match n with
  | O => []
  | S n' => N.land (N.shiftr value (8 * N.of_nat n')) byteMask :: field_bytes n' value
  end.

Definition be_value (l : list N) : N := foldl (λ acc b, 256 * acc + b) 0 l.

Definition octet (b : N) : Prop := b < 256.

(** ** Fields come back *)

Lemma field_byte n value : N.land (N.shiftr value (8 * N.of_nat n)) byteMask =
  (value / 256 ^ N.of_nat n) mod 256.
Proof.
  unfold byteMask. change 255 with (N.ones 8). rewrite N.land_ones, N.shiftr_div_pow2.
  by rewrite N.pow_mul_r.
Qed.

Lemma length_field_bytes n value : length (field_bytes n value) = n.
Proof. induction n; cbn; congruence. Qed.

Lemma field_bytes_octets n value : Forall octet (field_bytes n value).
Proof.
  induction n as [|n IH]; constructor; [|done]. unfold octet. rewrite field_byte.
  by apply N.mod_lt.
Qed.

Lemma be_value_cons b l : be_value (b :: l) = b * 256 ^ N.of_nat (length l) + be_value l.
Proof.
  unfold be_value. cbn [foldl]. rewrite N.mul_0_r, N.add_0_l.
  assert (∀ acc, foldl (λ acc b, 256 * acc + b) acc l =
    acc * 256 ^ N.of_nat (length l) + foldl (λ acc b, 256 * acc + b) 0 l) as H; [|apply H].
  induction l as [|x l IH]; intros acc; cbn [foldl length]; [rewrite N.pow_0_r; lia|].
  rewrite (IH (256 * acc + x)), (IH (256 * 0 + x)), Nat2N.inj_succ, N.pow_succ_r'. ring.
Qed.

Lemma be_value_app l1 l2 :
  be_value (l1 ++ l2) = be_value l1 * 256 ^ N.of_nat (length l2) + be_value l2.
Proof.
  induction l1 as [|b l1 IH]; cbn [app]; [by rewrite (eq_refl : be_value [] = 0), N.mul_0_l|]. rewrite !be_value_cons, IH, length_app.
  rewrite Nat2N.inj_add, N.pow_add_r. ring.
Qed.

Lemma be_field_bytes n value : be_value (field_bytes n value) = value mod 256 ^ N.of_nat n.
Proof.
  induction n as [|n IH]; [by rewrite N.pow_0_r, N.mod_1_r|].
  cbn [field_bytes]. rewrite be_value_cons, length_field_bytes, IH, field_byte.
  rewrite Nat2N.inj_succ, N.pow_succ_r', (N.mul_comm 256), N.Div0.mod_mul_r. lia.
Qed.

Lemma be_value_bound l : Forall octet l → be_value l < 256 ^ N.of_nat (length l).
Proof.
  induction 1 as [|b l Hb _ IH]; [done|]. rewrite be_value_cons. cbn [length].
  rewrite Nat2N.inj_succ, N.pow_succ_r'. unfold octet in Hb. nia.
Qed.

(** ** Bit fields *)

Lemma below_cases (n : nat) (f : N → bool) :
  forallb (λ i, f (N.of_nat i)) (seq 0 n) = true → ∀ x, x < N.of_nat n → f x = true.
Proof.
  intros H x Hx. rewrite forallb_forall in H. specialize (H (N.to_nat x)).
  rewrite N2Nat.id in H. apply H, in_seq. lia.
Qed.

Lemma land_mask x k : N.land x (N.ones k) = x mod 2 ^ k.
Proof. apply N.land_ones. Qed.

Lemma lor_shift8 v b : octet b → N.lor (N.shiftl v 8) b = 256 * v + b.
Proof.
  unfold octet. intros Hb. assert (N.land (N.shiftl v 8) b = 0) as H0.
  { apply N.bits_inj. intros i. rewrite N.land_spec, N.bits_0.
    destruct (N.ltb_spec i 8); [by rewrite N.shiftl_spec_low|].
    destruct (decide (b = 0)) as [->|]; [by rewrite N.bits_0, andb_false_r|].
    rewrite (N.bits_above_log2 b), andb_false_r; [done|]. apply N.log2_lt_pow2; [lia|].
    apply N.lt_le_trans with 256; [done|]. change 256 with (2 ^ 8). apply N.pow_le_mono_r; lia. }
  rewrite <- N.lxor_lor, <- N.add_nocarry_lxor, N.shiftl_mul_pow2 by done. lia.
Qed.

(** Reading by shifting in a 32-bit register. *)
Lemma shift_in_be_value l :
  Forall octet l → (length l <= 4)%nat →
  foldl (λ value byte, N.lor (N.shiftl value 8 mod 2 ^ 32) byte) 0 l = be_value l.
Proof.
  induction l as [|b l IH] using rev_ind; [done|]. rewrite Forall_app, Forall_singleton, length_app.
  cbn [length]. intros [Hl Hb] Hlen. unfold be_value. rewrite !foldl_app. cbn [foldl].
  rewrite IH by (done || lia). fold (be_value l).
  pose proof (be_value_bound l Hl) as Hv.
  rewrite N.mod_small; [by apply lor_shift8|]. rewrite N.shiftl_mul_pow2.
  assert (256 ^ N.of_nat (length l) <= 256 ^ 3) by (apply N.pow_le_mono_r; lia).
  change (2 ^ 32) with (256 ^ 3 * 2 ^ 8). nia.
Qed.

(** Octets are the field of their value. *)
Lemma field_bytes_be_value l : Forall octet l → field_bytes (length l) (be_value l) = l.
Proof.
  induction 1 as [|b l Hb Hl IH]; [done|]. cbn [length field_bytes]. rewrite field_byte, be_value_cons.
  pose proof (be_value_bound l Hl) as Hv. f_equal.
  - rewrite N.div_add_l, N.div_small by (try apply N.pow_nonzero; lia).
    rewrite N.add_0_r. apply N.mod_small, Hb.
  - etransitivity; [|exact IH]. revert b Hb; clear; intros b _; revert b. generalize (be_value l) as v, (length l) as n.
    intros v n b. rewrite N.mul_comm.
    assert (∀ k, (k <= n)%nat → field_bytes k (256 ^ N.of_nat n * b + v) = field_bytes k v) as H.
    { induction k as [|k IH]; intros Hk; [done|]. cbn [field_bytes]. rewrite IH by lia. f_equal.
      rewrite !field_byte. replace n with (k + S (n - S k))%nat by lia.
      rewrite Nat2N.inj_add, N.pow_add_r, Nat2N.inj_succ, N.pow_succ_r', <- N.mul_assoc.
      rewrite N.mul_comm, N.div_add_l by (apply N.pow_nonzero; lia).
      rewrite <- N.mul_assoc, N.add_comm, N.mul_comm. by rewrite N.Div0.mod_add. }
    by apply H.
Qed.
