(* ===== verification/Graph.v ===== *)
(** The directed graph of [kernel/graph/adjacency_graph.hpp]: sorted adjacency
    vectors in both directions, kept in two ordered maps.

    [Graph] is the class template's state, one definition per member function;
    [WF] is its representation invariant and [edge_payload] its abstraction: the
    theorems state every mutator as a pointwise update of that view. *)

From S2P Require Import Prelude.

Section graph.
Context {K P : Type} {KEq : EqDecision K} {KCnt : Countable K} {KOrd : OrdKey K}.

(** ** The class template *)

Record OutgoingEdge := MkEdge { target : K; payload : P }.

Abbreviation EdgeList := (list OutgoingEdge).

Record AdjacencyGraph := MkGraph {
  outgoing_ : gmap K EdgeList;
  incoming_ : gmap K EdgeList
}.

Definition empty_graph : AdjacencyGraph := MkGraph ∅ ∅.

(** [std::ranges::lower_bound] projected on [target]: the partition point. *)
Fixpoint lower_bound (edges : EdgeList) (t : K) : nat :=
  match edges with
  | [] => 0
  | e :: rest => if decide (key_lt (target e) t) then S (lower_bound rest t) else 0
  end.

Definition find_edge (edges : EdgeList) (t : K) : option OutgoingEdge :=
  match edges !! lower_bound edges t with
  | None => None
  | Some found => if decide (target found = t) then Some found else None
  end.

Definition insert_sorted (edges : EdgeList) (e : OutgoingEdge) : EdgeList :=
  let at_ := lower_bound edges (target e) in
  take at_ edges ++ e :: drop at_ edges.

Definition erase_edge (edges : EdgeList) (t : K) : EdgeList :=
  let found := lower_bound edges t in
  match edges !! found with
  | Some e => if decide (target e = t) then delete found edges else edges
  | None => edges
  end.

Definition edges_of (lists : gmap K EdgeList) (node : K) : EdgeList :=
  match lists !! node with
  | None => []
  | Some edges => edges
  end.

(** Each mutator returns the C++ function's [bool] with the graph after it. *)

Definition add_node (g : AdjacencyGraph) (node : K) : bool * AdjacencyGraph :=
  match outgoing_ g !! node with
  | Some _ => (false, g)
  | None => (true, MkGraph (<[node := []]> (outgoing_ g)) (<[node := []]> (incoming_ g)))
  end.

Definition add_edge (g : AdjacencyGraph) (source tgt : K) (pl : P)
    : bool * AdjacencyGraph :=
  if decide (source = tgt) then (false, g) else
  match outgoing_ g !! source with
  | None => (false, g)
  | Some from =>
    match outgoing_ g !! tgt with
    | None => (false, g)
    | Some _ =>
      match find_edge from tgt with
      | Some _ => (false, g)
      | None =>
        (true, MkGraph
          (<[source := insert_sorted from (MkEdge tgt pl)]> (outgoing_ g))
          (<[tgt := insert_sorted (default [] (incoming_ g !! tgt)) (MkEdge source pl)]>
             (incoming_ g)))
      end
    end
  end.

Definition remove_edge (g : AdjacencyGraph) (source tgt : K) : bool * AdjacencyGraph :=
  match outgoing_ g !! source with
  | None => (false, g)
  | Some from =>
    match find_edge from tgt with
    | None => (false, g)
    | Some _ =>
      (true, MkGraph
        (<[source := erase_edge from tgt]> (outgoing_ g))
        (match incoming_ g !! tgt with
         | Some into => <[tgt := erase_edge into source]> (incoming_ g)
         | None => incoming_ g
         end))
    end
  end.

(** One pass of the two loops of [remove_node]: drop [node] from the list of
    every edge's other end, where that end is present. *)
Definition erase_in (lists : gmap K EdgeList) (node : K) (edges : EdgeList)
    : gmap K EdgeList :=
  foldl (λ acc e,
           match acc !! target e with
           | Some l => <[target e := erase_edge l node]> acc
           | None => acc
           end) lists edges.

Definition remove_node (g : AdjacencyGraph) (node : K) : bool * AdjacencyGraph :=
  match outgoing_ g !! node with
  | None => (false, g)
  | Some from =>
    let inc1 := erase_in (incoming_ g) node from in
    match inc1 !! node with
    | Some into =>
      (true, MkGraph (delete node (erase_in (outgoing_ g) node into)) (delete node inc1))
    | None => (true, MkGraph (delete node (outgoing_ g)) inc1)
    end
  end.

Definition out_edges (g : AdjacencyGraph) (node : K) : EdgeList :=
  edges_of (outgoing_ g) node.

Definition in_edges (g : AdjacencyGraph) (node : K) : EdgeList :=
  edges_of (incoming_ g) node.

Definition edge_payload (g : AdjacencyGraph) (source tgt : K) : option P :=
  match outgoing_ g !! source with
  | None => None
  | Some from =>
    match find_edge from tgt with
    | None => None
    | Some e => Some (payload e)
    end
  end.

Definition contains_node (g : AdjacencyGraph) (node : K) : bool :=
  bool_decide (is_Some (outgoing_ g !! node)).

Definition contains_edge (g : AdjacencyGraph) (source tgt : K) : bool :=
  match outgoing_ g !! source with
  | None => false
  | Some from => bool_decide (is_Some (find_edge from tgt))
  end.

Definition nodes (g : AdjacencyGraph) : list K := sorted_keys (outgoing_ g).

Definition node_count (g : AdjacencyGraph) : nat := size (outgoing_ g).

Definition edge_count (g : AdjacencyGraph) : nat :=
  sum_list_with (λ n, length (out_edges g n)) (nodes g).

Definition empty_ (g : AdjacencyGraph) : bool := bool_decide (outgoing_ g = ∅).

Definition clear (g : AdjacencyGraph) : AdjacencyGraph := MkGraph ∅ ∅.

(** ** Representation invariant *)

Definition sorted_edges (l : EdgeList) : Prop := StronglySorted key_lt (target <$> l).

Record WF (g : AdjacencyGraph) : Prop := {
  wf_dom : ∀ n, is_Some (outgoing_ g !! n) ↔ is_Some (incoming_ g !! n);
  wf_out : ∀ n, sorted_edges (out_edges g n);
  wf_in : ∀ n, sorted_edges (in_edges g n);
  wf_mirror : ∀ s t p, MkEdge t p ∈ out_edges g s ↔ MkEdge s p ∈ in_edges g t;
  wf_loop : ∀ s p, MkEdge s p ∉ out_edges g s
}.

(** [s -> t] is an edge of the graph, whatever it carries. *)
Definition arc (g : AdjacencyGraph) (s t : K) : Prop := ∃ p, MkEdge t p ∈ out_edges g s.

(** ** Abstract specification: a set of nodes and a map of payloads *)

Inductive GraphOp :=
  | OpAddNode (n : K)
  | OpAddEdge (s t : K) (p : P)
  | OpRemoveEdge (s t : K)
  | OpRemoveNode (n : K)
  | OpClear.

Definition graph_step (op : GraphOp) (g : AdjacencyGraph) : bool * AdjacencyGraph :=
  match op with
  | OpAddNode n => add_node g n
  | OpAddEdge s t p => add_edge g s t p
  | OpRemoveEdge s t => remove_edge g s t
  | OpRemoveNode n => remove_node g n
  | OpClear => (true, clear g)
  end.

Record GraphSpec := MkSpec { spec_nodes : gset K; spec_edges : gmap (K * K) P }.

Definition spec_step (op : GraphOp) (v : GraphSpec) : bool * GraphSpec :=
  let '(MkSpec ns es) := v in
  match op with
  | OpAddNode n => (bool_decide (n ∉ ns), MkSpec ({[n]} ∪ ns) es)
  | OpAddEdge s t p =>
      if decide (s ≠ t ∧ s ∈ ns ∧ t ∈ ns ∧ es !! (s, t) = None)
      then (true, MkSpec ns (<[(s, t) := p]> es)) else (false, v)
  | OpRemoveEdge s t => (bool_decide (is_Some (es !! (s, t))), MkSpec ns (delete (s, t) es))
  | OpRemoveNode n =>
      (bool_decide (n ∈ ns),
       MkSpec (ns ∖ {[n]}) (filter (λ x, x.1.1 ≠ n ∧ x.1.2 ≠ n) es))
  | OpClear => (true, MkSpec ∅ ∅)
  end.

Record represents (g : AdjacencyGraph) (v : GraphSpec) : Prop := {
  rep_wf : WF g;
  rep_nodes : ∀ n, is_Some (outgoing_ g !! n) ↔ n ∈ spec_nodes v;
  rep_edges : ∀ s t, edge_payload g s t = spec_edges v !! (s, t)
}.

(** The graph and the specification after the same operations, with the values
    the operations returned. *)
Fixpoint graph_run (ops : list GraphOp) (g : AdjacencyGraph) : list bool * AdjacencyGraph :=
  match ops with
  | [] => ([], g)
  | op :: rest =>
    let '(b, g1) := graph_step op g in
    let '(bs, g2) := graph_run rest g1 in (b :: bs, g2)
  end.

Fixpoint spec_run (ops : list GraphOp) (v : GraphSpec) : list bool * GraphSpec :=
  match ops with
  | [] => ([], v)
  | op :: rest =>
    let '(b, v1) := spec_step op v in
    let '(bs, v2) := spec_run rest v1 in (b :: bs, v2)
  end.

End graph.
Arguments GraphOp : clear implicits.
Arguments GraphSpec K P {KEq KCnt}.
Arguments OutgoingEdge : clear implicits.
Arguments MkEdge {K P} _ _.
Arguments AdjacencyGraph K P {KEq KCnt}.

#[export] Instance OutgoingEdge_eq_dec {K P} `{EqDecision K, EqDecision P} :
  EqDecision (OutgoingEdge K P).
Proof. solve_decision. Defined.

(** ** Adjacency vectors *)

Section edge_lists.
Context {K P : Type} {KEq : EqDecision K} {KCnt : Countable K} {KOrd : OrdKey K}.
Implicit Types (l : list (OutgoingEdge K P)) (e : OutgoingEdge K P) (k t : K).

Lemma sorted_edges_cons e l :
  sorted_edges (e :: l) ↔ sorted_edges l ∧ ∀ x, x ∈ l → key_lt (target e) (target x).
Proof.
  unfold sorted_edges. rewrite fmap_cons. split.
  - intros [? HF]%StronglySorted_inv. split; [done|].
    intros x Hx. rewrite Forall_forall in HF. apply HF, list_elem_of_fmap_2, Hx.
  - intros [? HF]. constructor; [done|]. rewrite Forall_fmap, Forall_forall. done.
Qed.

Lemma insert_sorted_cons x l e :
  insert_sorted (x :: l) e =
    if decide (key_lt (target x) (target e)) then x :: insert_sorted l e
    else e :: x :: l.
Proof. unfold insert_sorted. cbn. by case_decide. Qed.

Lemma find_edge_cons x l t :
  find_edge (x :: l) t =
    if decide (key_lt (target x) t) then find_edge l t
    else if decide (target x = t) then Some x else None.
Proof. unfold find_edge. cbn. by case_decide. Qed.

Lemma erase_edge_cons x l t :
  erase_edge (x :: l) t =
    if decide (key_lt (target x) t) then x :: erase_edge l t
    else if decide (target x = t) then l else x :: l.
Proof.
  unfold erase_edge. cbn. case_decide; cbn; [|by case_decide].
  destruct (l !! lower_bound l t); [by case_decide | done].
Qed.

Lemma key_lt_irrefl k : ¬ key_lt k k.
Proof. unfold key_lt. lia. Qed.

Lemma key_lt_trans k1 k2 k3 : key_lt k1 k2 → key_lt k2 k3 → key_lt k1 k3.
Proof. unfold key_lt. lia. Qed.

Lemma not_key_lt k1 k2 : ¬ key_lt k1 k2 → k1 = k2 ∨ key_lt k2 k1.
Proof.
  unfold key_lt. intros ?. destruct (decide (okey k1 = okey k2)) as [E|]; [|lia].
  left. by apply (inj okey).
Qed.

Lemma elem_of_insert_sorted x l e : x ∈ insert_sorted l e ↔ x = e ∨ x ∈ l.
Proof.
  unfold insert_sorted. rewrite elem_of_app, elem_of_cons.
  assert (x ∈ l ↔ x ∈ take (lower_bound l (target e)) l ++ drop (lower_bound l (target e)) l)
    as -> by by rewrite take_drop.
  rewrite elem_of_app. tauto.
Qed.

Lemma insert_sorted_sorted l e :
  sorted_edges l → (∀ x, x ∈ l → target x ≠ target e) → sorted_edges (insert_sorted l e).
Proof.
  induction l as [|x l IH]; intros Hs Hn.
  - unfold insert_sorted. cbn. apply sorted_edges_cons. split; [done|].
    intros ? []%not_elem_of_nil.
  - apply sorted_edges_cons in Hs as [Hs Hx]. rewrite insert_sorted_cons.
    case_decide as Hlt; rewrite ?sorted_edges_cons.
    + split; [apply IH; [done|]; intros; apply Hn; by right|].
      intros y [->|?]%elem_of_insert_sorted; auto.
    + destruct (not_key_lt _ _ Hlt) as [E|Hlt']; [exfalso; apply (Hn x); [left|done]|].
      split; [done|]. intros y [->|?]%elem_of_cons; [done|]. eauto using key_lt_trans.
Qed.

Lemma find_edge_Some l t e :
  sorted_edges l → find_edge l t = Some e ↔ e ∈ l ∧ target e = t.
Proof.
  induction l as [|x l IH]; intros Hs.
  - cbn. split; [done|]. intros [[]%not_elem_of_nil _].
  - apply sorted_edges_cons in Hs as [Hs Hx]. rewrite find_edge_cons.
    case_decide as Hlt; [|case_decide as Heq].
    + rewrite IH by done. rewrite elem_of_cons. split; [tauto|]. intros [[->|?] <-]; [|done].
      by apply key_lt_irrefl in Hlt.
    + rewrite elem_of_cons. split; [intros [= <-]; eauto|]. intros [[->|Hin] <-]; [done|].
      destruct (key_lt_irrefl (target x)). rewrite Heq at 2. by apply Hx.
    + rewrite elem_of_cons. split; [done|]. intros [[->|Hin] <-]; [done|].
      by apply Hx in Hin.
Qed.

Lemma find_edge_None l t :
  sorted_edges l → find_edge l t = None ↔ ∀ e, e ∈ l → target e ≠ t.
Proof.
  intros Hs. rewrite eq_None_not_Some. split.
  - intros Hn e ??. apply Hn. exists e. by apply find_edge_Some.
  - intros Hn [e He%find_edge_Some]; [|done]. naive_solver.
Qed.

Lemma elem_of_erase_edge l t x :
  sorted_edges l → x ∈ erase_edge l t ↔ x ∈ l ∧ target x ≠ t.
Proof.
  induction l as [|y l IH]; intros Hs.
  - cbn. set_solver.
  - apply sorted_edges_cons in Hs as [Hs Hy]. rewrite erase_edge_cons.
    case_decide as Hlt; [|case_decide as Heq].
    + rewrite !elem_of_cons, IH by done. split; [|tauto].
      intros [->|[??]]; [|tauto]. split; [tauto|]. intros <-. by apply key_lt_irrefl in Hlt.
    + rewrite elem_of_cons. split; [|naive_solver].
      intros Hin. split; [by right|]. intros <-. apply Hy in Hin. rewrite Heq in Hin.
      by apply key_lt_irrefl in Hin.
    + rewrite elem_of_cons. split; [|tauto]. intros Hin. split; [done|]. intros <-.
      destruct Hin as [->|Hin]; [done|]. by apply Hy in Hin.
Qed.

Lemma erase_edge_sorted l t : sorted_edges l → sorted_edges (erase_edge l t).
Proof.
  induction l as [|y l IH]; intros Hs; [done|].
  rewrite erase_edge_cons. pose proof Hs as [Hs' Hy]%sorted_edges_cons.
  repeat case_decide; [|done..]. apply sorted_edges_cons. split; [auto|].
  intros x [? _]%elem_of_erase_edge; auto.
Qed.

Lemma erase_edge_id l t : (∀ x, x ∈ l → target x ≠ t) → erase_edge l t = l.
Proof.
  intros Hn. unfold erase_edge. destruct (l !! lower_bound l t) as [e|] eqn:E; [|done].
  case_decide; [|done]. exfalso. eapply Hn; [by eapply list_elem_of_lookup_2|done].
Qed.

(** Two strictly sorted vectors with the same entries are the same vector. *)
Lemma sorted_edges_ext l1 l2 :
  sorted_edges l1 → sorted_edges l2 → (∀ x, x ∈ l1 ↔ x ∈ l2) → l1 = l2.
Proof.
  revert l2. induction l1 as [|x l1 IH]; intros [|y l2] H1 H2 Heq; [done|set_solver..|].
  apply sorted_edges_cons in H1 as [H1 Hx], H2 as [H2 Hy].
  assert (x = y) as ->.
  { pose proof (proj1 (Heq x)) as A. pose proof (proj2 (Heq y)) as B.
    rewrite !elem_of_cons in A, B. destruct A as [->|A], B as [B|B]; auto.
    apply Hx in B. apply Hy in A. destruct (key_lt_irrefl (target x)).
    by eapply key_lt_trans. }
  f_equal. apply IH; [done..|]. intros z. specialize (Heq z). rewrite !elem_of_cons in Heq.
  split; intros Hz; [assert (z ≠ y)|assert (z ≠ y)]; try tauto; intros ->;
    first [by apply Hx, key_lt_irrefl in Hz | by apply Hy, key_lt_irrefl in Hz].
Qed.

End edge_lists.

(** ** Observers after an update of the two maps *)

Section graph_facts.
Context {K P : Type} {KEq : EqDecision K} {KCnt : Countable K} {KOrd : OrdKey K}.
Implicit Types (g : AdjacencyGraph K P) (l : list (OutgoingEdge K P)).
Implicit Types (n s t a b : K) (p q : P).

Lemma sorted_edges_NoDup l : sorted_edges l → NoDup (target <$> l).
Proof.
  induction l as [|x l IH]; intros Hs; [by apply NoDup_nil_2|].
  apply sorted_edges_cons in Hs as [Hs Hx]. rewrite fmap_cons. apply NoDup_cons. split; [|auto].
  intros (y & E & Hy)%list_elem_of_fmap. apply Hx in Hy. rewrite E in Hy.
  by apply key_lt_irrefl in Hy.
Qed.

Lemma sorted_edges_functional l t p q :
  sorted_edges l → MkEdge t p ∈ l → MkEdge t q ∈ l → p = q.
Proof.
  intros Hs Hp Hq.
  assert (Some (MkEdge t p) = Some (MkEdge t q)) as [= ->]; [|done].
  rewrite <- (proj2 (find_edge_Some l t _ Hs) (conj Hp eq_refl)).
  by apply find_edge_Some.
Qed.

Lemma edges_of_insert (m : gmap K (list (OutgoingEdge K P))) k l n :
  edges_of (<[k := l]> m) n = if decide (k = n) then l else edges_of m n.
Proof. unfold edges_of. rewrite lookup_insert. by case_decide. Qed.

Lemma edges_of_delete (m : gmap K (list (OutgoingEdge K P))) k n :
  edges_of (delete k m) n = if decide (k = n) then [] else edges_of m n.
Proof. unfold edges_of. rewrite lookup_delete. by case_decide. Qed.

Lemma edges_of_Some (m : gmap K (list (OutgoingEdge K P))) n l :
  m !! n = Some l → edges_of m n = l.
Proof. unfold edges_of. by intros ->. Qed.

Lemma contains_node_true g n : contains_node g n = true ↔ is_Some (outgoing_ g !! n).
Proof. apply bool_decide_eq_true. Qed.

Lemma out_edge_is_node g n x : x ∈ out_edges g n → is_Some (outgoing_ g !! n).
Proof.
  unfold out_edges, edges_of. destruct (outgoing_ g !! n); [eauto|]. by intros ?%not_elem_of_nil.
Qed.

Lemma in_edge_is_node g n x : WF g → x ∈ in_edges g n → is_Some (outgoing_ g !! n).
Proof.
  intros Hwf. rewrite (wf_dom g Hwf). unfold in_edges, edges_of.
  destruct (incoming_ g !! n); [eauto|]. by intros ?%not_elem_of_nil.
Qed.

Lemma wf_target_is_node g s t p :
  WF g → MkEdge t p ∈ out_edges g s → is_Some (outgoing_ g !! t).
Proof. intros Hwf Hin%(wf_mirror g Hwf). by eapply in_edge_is_node. Qed.

Lemma edge_payload_Some g s t p :
  WF g → edge_payload g s t = Some p ↔ MkEdge t p ∈ out_edges g s.
Proof.
  intros Hwf. pose proof (wf_out g Hwf s) as Hs. unfold edge_payload, out_edges, edges_of in *.
  destruct (outgoing_ g !! s) as [l|]; [|split; [done|by intros ?%not_elem_of_nil]].
  destruct (find_edge l t) as [e|] eqn:E.
  - apply find_edge_Some in E as [Hin <-]; [|done]. destruct e as [t' q]; cbn in *.
    split; [by intros [= <-]|]. intros Hin'. f_equal. by eapply sorted_edges_functional.
  - split; [done|]. intros Hin. rewrite find_edge_None in E by done. by apply E in Hin.
Qed.

Lemma edge_payload_None g s t :
  WF g → edge_payload g s t = None ↔ ¬ arc g s t.
Proof.
  intros Hwf. rewrite eq_None_not_Some. unfold arc, is_Some.
  by setoid_rewrite edge_payload_Some.
Qed.

Lemma contains_edge_spec g s t :
  contains_edge g s t = bool_decide (is_Some (edge_payload g s t)).
Proof.
  unfold contains_edge, edge_payload. destruct (outgoing_ g !! s) as [l|]; [|done].
  apply bool_decide_ext. by destruct (find_edge l t); split; intros []; eauto.
Qed.

Lemma find_edge_payload g s t l :
  outgoing_ g !! s = Some l → find_edge l t = None ↔ edge_payload g s t = None.
Proof. unfold edge_payload. intros ->. by destruct (find_edge l t). Qed.

(** ** Well-formedness is established and preserved *)

Lemma empty_graph_WF : WF (empty_graph (K:=K) (P:=P)).
Proof.
  unfold empty_graph.
  split; unfold out_edges, in_edges, edges_of; cbn; intros; rewrite ?lookup_empty; try done.
  - unfold sorted_edges. cbn. constructor.
  - unfold sorted_edges. cbn. constructor.
  - by rewrite !elem_of_nil.
  - apply not_elem_of_nil.
Qed.

Lemma add_node_WF g n : WF g → WF (add_node g n).2.
Proof.
  intros Hwf. unfold add_node. destruct (outgoing_ g !! n) eqn:En; [done|].
  assert (incoming_ g !! n = None) as Ein.
  { apply eq_None_not_Some. rewrite <- (wf_dom g Hwf), En. by intros []. }
  cbn. set (g' := MkGraph _ _).
  assert (∀ m, out_edges g' m = out_edges g m) as Ho.
  { intros m. unfold out_edges, g'. cbn. rewrite edges_of_insert. case_decide; [subst|done].
    unfold edges_of. by rewrite En. }
  assert (∀ m, in_edges g' m = in_edges g m) as Hi.
  { intros m. unfold in_edges, g'. cbn. rewrite edges_of_insert. case_decide; [subst|done].
    unfold edges_of. by rewrite Ein. }
  destruct Hwf as [Hd Hso Hsi Hm Hl].
  split; intros; rewrite ?Ho, ?Hi; auto.
  unfold g'. cbn. rewrite !lookup_insert_is_Some, Hd. done.
Qed.

Lemma add_edge_inv g s t p g' :
  add_edge g s t p = (true, g') →
  s ≠ t ∧ is_Some (outgoing_ g !! s) ∧ is_Some (outgoing_ g !! t) ∧
  edge_payload g s t = None ∧
  g' = MkGraph
         (<[s := insert_sorted (out_edges g s) (MkEdge t p)]> (outgoing_ g))
         (<[t := insert_sorted (in_edges g t) (MkEdge s p)]> (incoming_ g)).
Proof.
  unfold add_edge. case_decide as Hst; [done|].
  destruct (outgoing_ g !! s) as [l|] eqn:Es; [|done].
  destruct (outgoing_ g !! t) eqn:Et; [|done].
  destruct (find_edge l t) eqn:Ef; [done|]. intros [= <-].
  repeat split; eauto.
  - by eapply find_edge_payload.
  - unfold out_edges, in_edges, edges_of. rewrite Es. by destruct (incoming_ g !! t).
Qed.

Lemma add_edge_false g s t p g' : add_edge g s t p = (false, g') → g' = g.
Proof. unfold add_edge. repeat case_match; naive_solver. Qed.

Lemma add_edge_WF g s t p : WF g → WF (add_edge g s t p).2.
Proof.
  intros Hwf. destruct (add_edge g s t p) as [[] g'] eqn:E; cbn; last first.
  { by apply add_edge_false in E as ->. }
  apply add_edge_inv in E as (Hst & Hs & Ht & Hnone & ->).
  rewrite edge_payload_None in Hnone by done.
  pose proof (proj1 (wf_dom g Hwf s) Hs) as His. pose proof (proj1 (wf_dom g Hwf t) Ht) as Hit.
  assert (∀ x, x ∈ out_edges g s → target x ≠ t) as Ho.
  { intros [u q] Hin E. cbn in E. subst. apply Hnone. by exists q. }
  assert (∀ x, x ∈ in_edges g t → target x ≠ s) as Hi.
  { intros [u q] Hin E. cbn in E. subst. apply Hnone. exists q. by apply (wf_mirror g Hwf). }
  split; unfold out_edges, in_edges; cbn; intros; rewrite ?edges_of_insert.
  - rewrite !lookup_insert_is_Some, (wf_dom g Hwf).
    destruct (decide (s = n)), (decide (t = n)); naive_solver.
  - case_decide; [|apply (wf_out g Hwf)]. apply insert_sorted_sorted; [apply (wf_out g Hwf)|done].
  - case_decide; [|apply (wf_in g Hwf)]. apply insert_sorted_sorted; [apply (wf_in g Hwf)|done].
  - pose proof (wf_mirror g Hwf s0 t0 p0) as Hm. unfold out_edges, in_edges in Hm.
    repeat case_decide; subst; rewrite ?elem_of_insert_sorted; unfold out_edges, in_edges;
      rewrite Hm; naive_solver.
  - case_decide; subst; [rewrite elem_of_insert_sorted; intros [[= -> ->]|]; [done|]|];
      by eapply (wf_loop g Hwf).
Qed.

Lemma remove_edge_inv g s t g' :
  WF g → remove_edge g s t = (true, g') →
  g' = MkGraph (<[s := erase_edge (out_edges g s) t]> (outgoing_ g))
               (<[t := erase_edge (in_edges g t) s]> (incoming_ g)) ∧
  is_Some (edge_payload g s t).
Proof.
  intros Hwf. unfold remove_edge. destruct (outgoing_ g !! s) as [l|] eqn:Es; [|done].
  destruct (find_edge l t) as [e|] eqn:Ef; [|done]. intros [= <-].
  pose proof (wf_out g Hwf s) as Hs. unfold out_edges in *.
  rewrite (edges_of_Some _ _ _ Es) in *.
  pose proof Ef as [Hin <-]%find_edge_Some; [|done]. destruct e as [t q]; cbn.
  assert (is_Some (incoming_ g !! t)) as [li Eli].
  { rewrite <- (wf_dom g Hwf). eapply wf_target_is_node; [done|].
    unfold out_edges. by rewrite (edges_of_Some _ _ _ Es). }
  unfold in_edges. rewrite Eli, (edges_of_Some _ _ _ Eli). split; [done|].
  exists q. apply edge_payload_Some; [done|]. unfold out_edges.
  by rewrite (edges_of_Some _ _ _ Es).
Qed.

Lemma remove_edge_false g s t g' :
  remove_edge g s t = (false, g') → g' = g ∧ edge_payload g s t = None.
Proof. unfold remove_edge, edge_payload. repeat case_match; naive_solver. Qed.

Lemma remove_edge_WF g s t : WF g → WF (remove_edge g s t).2.
Proof.
  intros Hwf. destruct (remove_edge g s t) as [[] g'] eqn:E; cbn; last first.
  { by apply remove_edge_false in E as [-> _]. }
  apply remove_edge_inv in E as [-> [q Hq]]; [|done].
  apply edge_payload_Some in Hq; [|done].
  pose proof (out_edge_is_node _ _ _ Hq) as Hs.
  pose proof (wf_target_is_node _ _ _ _ Hwf Hq) as Ht.
  pose proof (proj1 (wf_dom g Hwf s) Hs) as His. pose proof (proj1 (wf_dom g Hwf t) Ht) as Hit.
  split; unfold out_edges, in_edges; cbn; intros; rewrite ?edges_of_insert.
  - rewrite !lookup_insert_is_Some, (wf_dom g Hwf).
    destruct (decide (s = n)), (decide (t = n)); naive_solver.
  - case_decide; [apply erase_edge_sorted|]; apply (wf_out g Hwf).
  - case_decide; [apply erase_edge_sorted|]; apply (wf_in g Hwf).
  - pose proof (wf_mirror g Hwf s0 t0 p) as Hm. unfold out_edges, in_edges in Hm.
    repeat case_decide; subst; rewrite ?elem_of_erase_edge by first
      [apply (wf_out g Hwf) | apply (wf_in g Hwf)]; unfold out_edges, in_edges;
      rewrite Hm; naive_solver.
  - case_decide; subst; [rewrite elem_of_erase_edge by apply (wf_out g Hwf); intros [? _]|];
      by eapply (wf_loop g Hwf).
Qed.

End graph_facts.

(** ** Building a graph: nodes and arcs after an insertion *)

Section building.
Context {K P : Type} {KEq : EqDecision K} {KCnt : Countable K} {KOrd : OrdKey K}.
Implicit Types (g : AdjacencyGraph K P).

Lemma add_node_nodes g n k :
  is_Some (outgoing_ (add_node g n).2 !! k) ↔ k = n ∨ is_Some (outgoing_ g !! k).
Proof.
  unfold add_node. destruct (outgoing_ g !! n) eqn:En; cbn.
  - split; [tauto|]. intros [->|]; [|done]. by rewrite En.
  - rewrite lookup_insert_is_Some'. naive_solver.
Qed.

Lemma add_node_arc g n a b : arc (add_node g n).2 a b ↔ arc g a b.
Proof.
  unfold add_node. destruct (outgoing_ g !! n) eqn:En; [done|].
  unfold arc, out_edges. cbn. rewrite edges_of_insert. case_decide; [subst|done].
  unfold edges_of. by rewrite En.
Qed.

(** [add_edge] answers [true] exactly for a new edge between two distinct nodes. *)
Lemma add_edge_true g s t p :
  WF g → (add_edge g s t p).1 = true ↔
  s ≠ t ∧ is_Some (outgoing_ g !! s) ∧ is_Some (outgoing_ g !! t) ∧ ¬ arc g s t.
Proof.
  intros Hwf. rewrite <- (edge_payload_None g s t Hwf). split.
  - destruct (add_edge g s t p) as [b g'] eqn:E. cbn. intros ->.
    apply add_edge_inv in E. tauto.
  - intros (Hst & [l Hl] & [l' Hl'] & Hn). unfold add_edge.
    rewrite decide_False, Hl, Hl' by done.
    rewrite (proj2 (find_edge_payload g s t l Hl)) by done. done.
Qed.

Lemma add_edge_nodes g s t p k :
  is_Some (outgoing_ (add_edge g s t p).2 !! k) ↔ is_Some (outgoing_ g !! k).
Proof.
  destruct (add_edge g s t p) as [[] g'] eqn:E; cbn; last by apply add_edge_false in E as ->.
  apply add_edge_inv in E as (_ & Hs & _ & _ & ->). cbn.
  rewrite lookup_insert_is_Some'. naive_solver.
Qed.

Lemma add_edge_arc g s t p a b :
  (add_edge g s t p).1 = true →
  arc (add_edge g s t p).2 a b ↔ arc g a b ∨ (a = s ∧ b = t).
Proof.
  destruct (add_edge g s t p) as [[] g'] eqn:E; [|done]. intros _. cbn.
  apply add_edge_inv in E as (_ & _ & _ & _ & ->).
  unfold arc, out_edges. cbn. setoid_rewrite edges_of_insert. case_decide; subst.
  - setoid_rewrite elem_of_insert_sorted. unfold out_edges. naive_solver.
  - naive_solver.
Qed.

End building.

(** ** Removing a node *)

Section remove_node.
Context {K P : Type} {KEq : EqDecision K} {KCnt : Countable K} {KOrd : OrdKey K}.
Implicit Types (g : AdjacencyGraph K P) (l : list (OutgoingEdge K P)).
Implicit Types (n s t a b : K) (p q : P).

Lemma erase_in_other (m : gmap K (list (OutgoingEdge K P))) n l k :
  k ∉ target <$> l → erase_in m n l !! k = m !! k.
Proof.
  revert m. induction l as [|x l IH]; intros m Hk; [done|].
  rewrite fmap_cons, not_elem_of_cons in Hk. destruct Hk as [Hne Hk].
  unfold erase_in in *. cbn. rewrite IH by done. destruct (m !! target x); [|done]. by rewrite lookup_insert_ne.
Qed.

Lemma erase_in_lookup (m : gmap K (list (OutgoingEdge K P))) n l k :
  NoDup (target <$> l) →
  erase_in m n l !! k =
    if decide (k ∈ target <$> l) then (λ x, erase_edge x n) <$> m !! k else m !! k.
Proof.
  revert m. induction l as [|x l IH]; intros m Hnd.
  { rewrite decide_False; [done|apply not_elem_of_nil]. }
  rewrite fmap_cons, NoDup_cons in Hnd. destruct Hnd as [Hx Hnd].
  destruct (decide (k = target x)) as [->|Hne].
  - rewrite decide_True by (rewrite fmap_cons; by left).
    change (erase_in m n (x :: l)) with (erase_in (match m !! target x with
      | Some lx => <[target x := erase_edge lx n]> m | None => m end) n l).
    rewrite erase_in_other by done. destruct (m !! target x) as [lx|] eqn:E; cbn.
    + by rewrite lookup_insert_eq.
    + by rewrite E.
  - unfold erase_in in *. cbn. rewrite IH by done.
    assert (∀ lx, <[target x := lx]> m !! k = m !! k) as Hk
      by (intros; by rewrite lookup_insert_ne).
    rewrite (decide_ext (k ∈ target x :: (target <$> l)) (k ∈ target <$> l)) by set_solver.
    destruct (m !! target x); rewrite ?Hk; done.
Qed.

(** In a well-formed graph both loops of [remove_node] amount to dropping the
    node from every adjacency vector. *)
Lemma erase_in_edges (m : gmap K (list (OutgoingEdge K P))) n l k :
  NoDup (target <$> l) → sorted_edges (edges_of m k) →
  (∀ x, x ∈ edges_of m k → target x = n → k ∈ target <$> l) →
  edges_of (erase_in m n l) k = erase_edge (edges_of m k) n.
Proof.
  intros Hnd Hs Hk. unfold edges_of in *. rewrite erase_in_lookup by done.
  case_decide as Hin; destruct (m !! k) as [lk|]; cbn; try done.
  symmetry. apply erase_edge_id. intros x Hx E. apply Hin. by eapply Hk.
Qed.

Lemma remove_node_inv g n g' :
  WF g → remove_node g n = (true, g') →
  is_Some (outgoing_ g !! n) ∧
  (∀ a, is_Some (outgoing_ g' !! a) ↔ a ≠ n ∧ is_Some (outgoing_ g !! a)) ∧
  (∀ a, is_Some (incoming_ g' !! a) ↔ a ≠ n ∧ is_Some (incoming_ g !! a)) ∧
  (∀ a, out_edges g' a = if decide (a = n) then [] else erase_edge (out_edges g a) n) ∧
  (∀ a, in_edges g' a = if decide (a = n) then [] else erase_edge (in_edges g a) n).
Proof.
  intros Hwf. unfold remove_node. destruct (outgoing_ g !! n) as [l|] eqn:En; [|done].
  pose proof (wf_out g Hwf n) as Hsl. unfold out_edges in Hsl. rewrite (edges_of_Some _ _ _ En) in Hsl.
  assert (is_Some (incoming_ g !! n)) as [li Ein] by (rewrite <- (wf_dom g Hwf); eauto).
  pose proof (wf_in g Hwf n) as Hsi. unfold in_edges in Hsi. rewrite (edges_of_Some _ _ _ Ein) in Hsi.
  assert (n ∉ target <$> l) as Hnl.
  { intros ([k q] & E & Hin)%list_elem_of_fmap. cbn in E. subst k. apply (wf_loop g Hwf n q).
    unfold out_edges. by rewrite (edges_of_Some _ _ _ En). }
  rewrite erase_in_other, Ein by done. intros [= <-].
  split; [eauto|]. split_and!; intros a; cbn.
  - rewrite lookup_delete_is_Some, erase_in_lookup by by apply sorted_edges_NoDup.
    case_decide; rewrite ?fmap_is_Some; naive_solver.
  - rewrite lookup_delete_is_Some, erase_in_lookup by by apply sorted_edges_NoDup.
    case_decide; rewrite ?fmap_is_Some; naive_solver.
  - unfold out_edges. cbn. rewrite edges_of_delete. repeat case_decide; try congruence; try done.
    apply erase_in_edges; [by apply sorted_edges_NoDup|apply (wf_out g Hwf)|].
    intros [? q] Hx E. cbn in E. subst. apply (wf_mirror g Hwf) in Hx.
    unfold in_edges in Hx. rewrite (edges_of_Some _ _ _ Ein) in Hx.
    by apply (list_elem_of_fmap_2 target) in Hx.
  - unfold in_edges. cbn. rewrite edges_of_delete. repeat case_decide; try congruence; try done.
    apply erase_in_edges; [by apply sorted_edges_NoDup|apply (wf_in g Hwf)|].
    intros [? q] Hx E. cbn in E. subst. apply (wf_mirror g Hwf) in Hx.
    unfold out_edges in Hx. rewrite (edges_of_Some _ _ _ En) in Hx.
    by apply (list_elem_of_fmap_2 target) in Hx.
Qed.

Lemma remove_node_false g n g' :
  remove_node g n = (false, g') → g' = g ∧ outgoing_ g !! n = None.
Proof. unfold remove_node. repeat case_match; naive_solver. Qed.

Lemma remove_node_WF g n : WF g → WF (remove_node g n).2.
Proof.
  intros Hwf. destruct (remove_node g n) as [[] g'] eqn:E; cbn; last first.
  { by apply remove_node_false in E as [-> _]. }
  apply remove_node_inv in E as (_ & Hod & Hid & Ho & Hi); [|done].
  pose proof Hwf as [Hd Hso Hsi Hm Hl].
  split; intros; rewrite ?Ho, ?Hi.
  - rewrite Hod, Hid, Hd. done.
  - case_decide; [constructor|by apply erase_edge_sorted].
  - case_decide; [constructor|by apply erase_edge_sorted].
  - repeat case_decide; subst; rewrite ?elem_of_nil, ?elem_of_erase_edge by done; cbn;
      rewrite ?Hm; naive_solver.
  - case_decide; [apply not_elem_of_nil|]. rewrite elem_of_erase_edge by done. naive_solver.
Qed.

Lemma clear_WF g : WF (clear g).
Proof. apply empty_graph_WF. Qed.

End remove_node.

#[export] Hint Resolve empty_graph_WF add_node_WF add_edge_WF remove_edge_WF
  remove_node_WF clear_WF : graph.

(** ** The class implements the specification *)

Section refinement.
Context {K P : Type} {KEq : EqDecision K} {KCnt : Countable K} {KOrd : OrdKey K}.
Implicit Types (g : AdjacencyGraph K P) (v : GraphSpec K P).
Implicit Types (n s t a b : K) (p q : P).

Lemma rep_payload g v s t p :
  represents g v → MkEdge t p ∈ out_edges g s ↔ spec_edges v !! (s, t) = Some p.
Proof. intros [Hwf _ He]. by rewrite <- edge_payload_Some, He. Qed.

Lemma represents_intro g v :
  WF g → (∀ n, is_Some (outgoing_ g !! n) ↔ n ∈ spec_nodes v) →
  (∀ s t p, MkEdge t p ∈ out_edges g s ↔ spec_edges v !! (s, t) = Some p) →
  represents g v.
Proof.
  intros Hwf Hn He. split; [done..|]. intros s t. apply option_eq. intros p.
  by rewrite edge_payload_Some.
Qed.

Lemma represents_empty : represents (empty_graph (K:=K) (P:=P)) (MkSpec ∅ ∅).
Proof.
  apply represents_intro; [apply empty_graph_WF|..].
  - intros n. cbn. rewrite lookup_empty. split; [by intros []|set_solver].
  - intros s t p. unfold out_edges, edges_of. cbn. rewrite !lookup_empty, elem_of_nil. done.
Qed.

Lemma rep_add_node g v n :
  represents g v →
  (graph_step (OpAddNode n) g).1 = (spec_step (OpAddNode n) v).1 ∧
  represents (graph_step (OpAddNode n) g).2 (spec_step (OpAddNode n) v).2.
Proof.
  intros Hr. pose proof Hr as [Hwf Hn _]. pose proof (add_node_WF g n Hwf) as Hwf'.
  destruct v as [ns es]. cbn in *. revert Hwf'. unfold add_node.
  destruct (outgoing_ g !! n) as [l|] eqn:E; cbn; intros Hwf'.
  - assert (n ∈ ns) by (apply Hn; eauto). rewrite bool_decide_false by tauto. split; [done|].
    replace ({[n]} ∪ ns) with ns by set_solver. done.
  - rewrite bool_decide_true by (rewrite <- Hn, E; by intros []). split; [done|].
    apply represents_intro; [done|..]; cbn.
    + intros a. rewrite lookup_insert_is_Some, Hn. destruct (decide (n = a)); set_solver.
    + intros s t p. rewrite <- (rep_payload g (MkSpec ns es)) by done. unfold out_edges. cbn.
      rewrite edges_of_insert. case_decide; [subst|done]. unfold edges_of. by rewrite E.
Qed.

Lemma rep_add_edge g v s t p :
  represents g v →
  (graph_step (OpAddEdge s t p) g).1 = (spec_step (OpAddEdge s t p) v).1 ∧
  represents (graph_step (OpAddEdge s t p) g).2 (spec_step (OpAddEdge s t p) v).2.
Proof.
  intros Hr. pose proof Hr as [Hwf Hn He]. pose proof (add_edge_WF g s t p Hwf) as Hwf'.
  destruct v as [ns es]. cbn in *.
  destruct (add_edge g s t p) as [[] g'] eqn:E; cbn in *.
  - apply add_edge_inv in E as (Hst & Hs & Ht & Hnone & ->).
    rewrite decide_True by (rewrite <- !Hn, <- He; done). split; [done|].
    apply represents_intro; [done|..]; cbn.
    + intros a. rewrite lookup_insert_is_Some, Hn. rewrite Hn in Hs. destruct (decide (s = a)); set_solver.
    + intros a b q. pose proof (rep_payload g _ a b q Hr) as Hp. cbn in Hp.
      unfold out_edges in *. cbn. rewrite edges_of_insert, lookup_insert.
      case_decide as Ha; [subst a; rewrite elem_of_insert_sorted|].
      * case_decide as Hab; [simplify_eq|rewrite Hp; naive_solver].
        rewrite Hp, <- He, Hnone. naive_solver.
      * rewrite decide_False by congruence. done.
  - pose proof E as ->%add_edge_false. rewrite decide_False; [done|].
    intros (Hst & Hs & Ht & Hnone). rewrite <- Hn in Hs, Ht. revert E. unfold add_edge.
    rewrite decide_False by done. destruct Hs as [l Hl], Ht as [l' ->]. rewrite Hl.
    rewrite <- He in Hnone. by rewrite (proj2 (find_edge_payload g s t l Hl) Hnone).
Qed.

Lemma rep_remove_edge g v s t :
  represents g v →
  (graph_step (OpRemoveEdge s t) g).1 = (spec_step (OpRemoveEdge s t) v).1 ∧
  represents (graph_step (OpRemoveEdge s t) g).2 (spec_step (OpRemoveEdge s t) v).2.
Proof.
  intros Hr. pose proof Hr as [Hwf Hn He]. pose proof (remove_edge_WF g s t Hwf) as Hwf'.
  destruct v as [ns es]. cbn in *.
  destruct (remove_edge g s t) as [[] g'] eqn:E; cbn in *.
  - apply remove_edge_inv in E as [-> Hsome]; [|done].
    rewrite <- He, bool_decide_true by done. split; [done|].
    apply represents_intro; [done|..]; cbn.
    + intros a. rewrite lookup_insert_is_Some, Hn.
      assert (s ∈ ns); [|destruct (decide (s = a)); set_solver]. apply Hn. destruct Hsome as [q Hq%edge_payload_Some]; [|done].
      by eapply out_edge_is_node.
    + intros a b q. pose proof (rep_payload g _ a b q Hr) as Hp. cbn in Hp.
      unfold out_edges in *. cbn. rewrite edges_of_insert, lookup_delete.
      case_decide as Ha; [subst a; rewrite elem_of_erase_edge by apply (wf_out g Hwf)|].
      * case_decide as Hab; cbn; [naive_solver|]. unfold out_edges. rewrite Hp. naive_solver.
      * rewrite decide_False by congruence. done.
  - apply remove_edge_false in E as [-> Hnone]. rewrite He in Hnone.
    rewrite Hnone, bool_decide_false by by intros []. split; [done|].
    by rewrite delete_id.
Qed.

Lemma rep_remove_node g v n :
  represents g v →
  (graph_step (OpRemoveNode n) g).1 = (spec_step (OpRemoveNode n) v).1 ∧
  represents (graph_step (OpRemoveNode n) g).2 (spec_step (OpRemoveNode n) v).2.
Proof.
  intros Hr. pose proof Hr as [Hwf Hn He]. pose proof (remove_node_WF g n Hwf) as Hwf'.
  destruct v as [ns es]. cbn in *.
  destruct (remove_node g n) as [[] g'] eqn:E; cbn in *.
  - apply remove_node_inv in E as (Hsome & Hd & _ & Ho & _); [|done].
    rewrite bool_decide_true by by apply Hn. split; [done|].
    apply represents_intro; [done|..]; cbn.
    + intros a. rewrite Hd, Hn. set_solver.
    + intros a b q. rewrite map_lookup_filter_Some, <- (rep_payload g _ a b q Hr), Ho. cbn.
      case_decide as Ha; [rewrite elem_of_nil; naive_solver|].
      rewrite elem_of_erase_edge by apply (wf_out g Hwf). cbn. naive_solver.
  - apply remove_node_false in E as [-> Hnone].
    assert (n ∉ ns) as Hni by (rewrite <- Hn, Hnone; by intros []).
    rewrite bool_decide_false by done. split; [done|].
    apply represents_intro; [done|..]; cbn.
    + intros a. rewrite Hn. set_solver.
    + intros a b q. rewrite map_lookup_filter_Some, <- (rep_payload g _ a b q Hr). cbn.
      split; [|tauto]. intros Hin. split; [done|]. split; intros ->; apply Hni, Hn.
      * by eapply out_edge_is_node.
      * by eapply wf_target_is_node.
Qed.

Lemma rep_step op g v :
  represents g v →
  (graph_step op g).1 = (spec_step op v).1 ∧
  represents (graph_step op g).2 (spec_step op v).2.
Proof.
  intros Hr. destruct op; eauto using rep_add_node, rep_add_edge, rep_remove_edge, rep_remove_node.
  destruct v. cbn. split; [done|]. apply represents_empty.
Qed.

Lemma rep_run ops g v :
  represents g v →
  (graph_run ops g).1 = (spec_run ops v).1 ∧
  represents (graph_run ops g).2 (spec_run ops v).2.
Proof.
  revert g v. induction ops as [|op ops IH]; intros g v Hr; cbn; [done|].
  destruct (rep_step op g v Hr) as [Hb Hr1].
  destruct (graph_step op g) as [b g1], (spec_step op v) as [b' v1]. cbn in *. subst b'.
  destruct (IH g1 v1 Hr1) as [Hbs Hr2].
  destruct (graph_run ops g1), (spec_run ops v1). cbn in *. subst. done.
Qed.

Lemma graph_run_WF ops : WF (graph_run (K:=K) (P:=P) ops empty_graph).2.
Proof. eapply rep_wf, rep_run, represents_empty. Qed.

(** C36: the adjacency graph refines a set of nodes with a map from endpoint
    pairs to payloads.  Whatever sequence of [add_node], [add_edge],
    [remove_edge], [remove_node] and [clear] calls is made on an empty graph,
    every call returns what the specification says, and afterwards
    [contains_node] and [edge_payload] read off the specification's state, both
    directions of the adjacency lists mirror each other, every list is strictly
    ascending and no node has an edge to itself. *)
Theorem graph_refines_spec (ops : list (GraphOp K P)) :
  (graph_run ops empty_graph).1 = (spec_run ops (MkSpec ∅ ∅)).1 ∧
  represents (graph_run ops empty_graph).2 (spec_run ops (MkSpec ∅ ∅)).2.
Proof. apply rep_run, represents_empty. Qed.

End refinement.

(** A small graph with integer keys, for the worked examples. *)
Definition demo_graph (ops : list (GraphOp N N)) : AdjacencyGraph N N :=
  (graph_run ops empty_graph).2.

Definition demo_nodes : list (GraphOp N N) := OpAddNode <$> [3; 1; 4; 2]%N.
