(* ===== verification/Kahn.v ===== *)
(** The bookkeeping behind every removal of nodes in dependency order: counts of the
    arcs into a node that are not done yet, and the order in which the counts reach
    zero.  [Topological] and the tree store's check run loops that keep it. *)

From S2P Require Import Prelude.

Section kahn.
Context {K : Type} {KEq : EqDecision K} {KCnt : Countable K}.
Context (ids : gset K) (preds : K → list K).
Implicit Types (done : gset (K * K)) (order : list K).

Definition precedes : relation K := λ p n, p ∈ preds n.

Definition pending done (n : K) : nat := length (filter (λ p, (p, n) ∉ done) (preds n)).

(** [order] holds the nodes with nothing pending; [done] holds arcs out of them. *)
Record kahn_state done order : Prop := {
  ks_order : ∀ n, n ∈ order ↔ n ∈ ids ∧ pending done n = 0%nat;
  ks_nodup : NoDup order;
  ks_done : ∀ a b, (a, b) ∈ done → a ∈ order;
  ks_before : ∀ i n p, order !! i = Some n → precedes p n → p ∈ take i order
}.

Lemma pending_nothing n : pending ∅ n = length (preds n).
Proof.
  unfold pending. induction (preds n) as [|p l IH]; [done|].
  rewrite filter_cons_True by set_solver. cbn. by rewrite IH.
Qed.

Lemma kahn_start order :
  NoDup order → (∀ n, n ∈ order ↔ n ∈ ids ∧ preds n = []) → kahn_state ∅ order.
Proof.
  intros Hnd Ho.
  assert (∀ n, n ∈ order ↔ n ∈ ids ∧ pending ∅ n = 0%nat) as Ho'.
  { intros n. rewrite Ho, pending_nothing. destruct (preds n); naive_solver. }
  split; [done|done|set_solver|]. intros i n p Hi%list_elem_of_lookup_2 Hp.
  apply Ho in Hi as [_ Hz]. unfold precedes in Hp. rewrite Hz in Hp. by apply not_elem_of_nil in Hp.
Qed.

Lemma pending_retire done p t n :
  NoDup (preds t) → precedes p t → (p, t) ∉ done →
  pending done n =
    if decide (n = t) then S (pending ({[(p, t)]} ∪ done) n)
    else pending ({[(p, t)]} ∪ done) n.
Proof.
  intros Hnd Hp Hf. unfold pending. case_decide as Hn.
  - subst n. apply (length_filter_drop id _ _ _ p); [by rewrite list_fmap_id|done|done|].
    intros x. cbn. set_solver.
  - f_equal. apply list_filter_ext. set_solver.
Qed.

(** One arc out of a node of [order] is done: its end enters [order] when that was
    the last arc into it. *)
Lemma kahn_retire done order p t :
  kahn_state done order → NoDup (preds t) → precedes p t → t ∈ ids → p ∈ order →
  (p, t) ∉ done →
  t ∉ order ∧
  kahn_state ({[(p, t)]} ∪ done)
    (order ++ if decide (pending ({[(p, t)]} ∪ done) t = 0%nat) then [t] else []).
Proof.
  intros [Ho Hnd Hd Hb] Hpt Harc Ht Hp Hfresh.
  pose proof (pending_retire done p t) as Hpe. set (fewer := pending ({[(p, t)]} ∪ done) t).
  assert (t ∉ order) as Hto.
  { rewrite Ho, (Hpe t), decide_True by done. intros [_ ?]. done. }
  split; [done|].
  assert (∀ n, n ∈ order ++ (if decide (fewer = 0%nat) then [t] else []) ↔
    n ∈ ids ∧ pending ({[(p, t)]} ∪ done) n = 0%nat) as Ho'.
  { intros n. rewrite elem_of_app, Ho, (Hpe n) by done. fold fewer.
    destruct (decide (n = t)) as [->|Hn]; fold fewer; case_decide; rewrite ?elem_of_nil,
      ?list_elem_of_singleton; naive_solver lia. }
  split; [apply Ho'| | |].
  - apply NoDup_app. split; [done|]. case_decide.
    + split; [|apply NoDup_singleton]. intros x ? ->%list_elem_of_singleton. done.
    + split; [|by apply NoDup_nil_2]. intros x ? ?%elem_of_nil. done.
  - intros a b. rewrite elem_of_union, elem_of_singleton, elem_of_app.
    intros [[= -> ->]|?]; eauto.
  - intros i n r Hi Hr. destruct (decide (i < length order)%nat) as [Hl|Hl].
    + rewrite lookup_app_l in Hi by done. rewrite take_app_le by lia. eauto.
    + pose proof Hi as [_ Hz]%list_elem_of_lookup_2%Ho'. rewrite take_app_ge by lia.
      apply elem_of_app. left. apply nil_length_inv in Hz.
      destruct (decide ((r, n) ∈ {[(p, t)]} ∪ done)) as [[[= -> ->]%elem_of_singleton|]%elem_of_union|Hno];
        [done|by eapply Hd|].
      exfalso. apply (not_elem_of_nil r). rewrite <- Hz. by apply list_elem_of_filter.
Qed.

Lemma kahn_bounded done order : kahn_state done order → (length order <= size ids)%nat.
Proof.
  intros [Ho Hnd _ _]. change (size ids) with (length (elements ids)). apply NoDup_length_le; [done|].
  intros n Hn. by apply elem_of_elements, Ho.
Qed.

Lemma before_tc (R : relation K) order a b :
  NoDup order → (∀ i n p, order !! i = Some n → R p n → p ∈ take i order) →
  tc R a b → ∀ j, order !! j = Some b → ∃ i, (i < j)%nat ∧ order !! i = Some a.
Proof.
  intros Hnd Hb. assert (∀ p n j, R p n → order !! j = Some n → ∃ i, (i < j)%nat ∧ order !! i = Some p)
    as Hstep.
  { intros p n j HR Hj. pose proof (Hb j n p Hj HR) as [i Hi]%list_elem_of_lookup.
    rewrite lookup_take in Hi. case_decide; [|done]. by exists i. }
  induction 1 as [a b HR|a b c HR _ IH]; intros j Hj; [by eapply Hstep|].
  destruct (IH j Hj) as (i & Hi & Hb'). destruct (Hstep a b i HR Hb') as (k & Hk & Ha).
  exists k. split; [lia|done].
Qed.

(** When every arc out of [order] is done, a node missing from it is on or behind a
    cycle, and with no node missing there is none. *)
Lemma kahn_stuck done order :
  kahn_state done order → (∀ a b, (a, b) ∈ done ↔ precedes a b ∧ a ∈ order) →
  (∀ a b, precedes a b → a ∈ ids ∧ b ∈ ids) →
  length order ≠ size ids → ∃ x, tc precedes x x.
Proof.
  intros Hs Hdone Hends Hne. pose proof Hs as [Ho Hnd Hd Hb].
  pose proof (kahn_bounded _ _ Hs) as Hle.
  apply (descent_cycle precedes (ids ∖ list_to_set order)).
  - intros He. assert (ids ⊆ list_to_set order) as Hsub%subseteq_size by set_solver.
    rewrite size_list_to_set in Hsub by done. lia.
  - intros n [Hn Hno]%elem_of_difference. rewrite elem_of_list_to_set, Ho in Hno.
    assert (∃ p, p ∈ filter (λ p, (p, n) ∉ done) (preds n)) as (p & [Hp Hpn]%list_elem_of_filter).
    { destruct (filter (λ p, (p, n) ∉ done) (preds n)) as [|p l] eqn:E; [|exists p; by left].
      exfalso. apply Hno. split; [done|]. unfold pending. by rewrite E. }
    exists p. split; [|done]. apply elem_of_difference. split; [by apply (Hends p n)|].
    rewrite elem_of_list_to_set. intros Hin. apply Hp, Hdone. done.
Qed.

Lemma kahn_complete done order :
  kahn_state done order → (∀ a b, precedes a b → a ∈ ids ∧ b ∈ ids) →
  length order = size ids → ∀ x, ¬ tc precedes x x.
Proof.
  intros [Ho Hnd Hd Hb] Hends Hl x Hx.
  assert (list_to_set order = ids) as Heq.
  { apply set_eq. apply (set_subseteq_size_equiv (list_to_set order) ids).
    - intros n [? _]%elem_of_list_to_set%Ho. done.
    - rewrite size_list_to_set by done. lia. }
  assert (x ∈ ids) as Hxi
    by (inversion Hx as [? ? HR|? ? ? HR _]; subst; by apply Hends in HR as [? _]).
  rewrite <- Heq in Hxi. apply elem_of_list_to_set, list_elem_of_lookup in Hxi as [j Hj].
  destruct (before_tc _ order x x Hnd Hb Hx j Hj) as (i & Hi & Hi').
  pose proof (NoDup_lookup order i j x Hnd Hi' Hj). lia.
Qed.

End kahn.
