(* ===== verification/Topological.v ===== *)
(** Kahn's algorithm of [kernel/graph/topological_order.hpp] and its
    correctness: a linearisation when the graph has no cycle, [None] otherwise. *)

From S2P Require Import Prelude Graph Kahn.

Section topological.
Context {K P : Type} {KEq : EqDecision K} {KCnt : Countable K} {KOrd : OrdKey K}.
Implicit Types (g : AdjacencyGraph K P) (order : list K) (remaining : gmap K nat).

(** ** The algorithm *)

(** [remaining[node] = in_edges( node ).size()] for every node. *)
Definition in_degrees (g : AdjacencyGraph K P) : gmap K nat :=
  foldl (λ m n, <[n := length (in_edges g n)]> m) ∅ (nodes g).

(** The nodes nothing points at, in ascending order. *)
Definition seed (g : AdjacencyGraph K P) (remaining : gmap K nat) : list K :=
  filter (λ n, remaining !! n = Some 0%nat) (nodes g).

(** The body of the inner loop: one out-edge of the node at the cursor. *)
Definition relax (st : gmap K nat * list K) (e : OutgoingEdge K P)
    : gmap K nat * list K :=
  let '(remaining, order) := st in
  match remaining !! target e with
  | None | Some 0%nat => (remaining, order)
  | Some (S fewer) =>
    (<[target e := fewer]> remaining,
     if decide (fewer = 0%nat) then order ++ [target e] else order)
  end.

(** The cursor walks [order] while [order] grows behind it; [None] is a run that
    used up its fuel. *)
Fixpoint kahn (fuel : nat) (g : AdjacencyGraph K P) (cursor : nat)
    (remaining : gmap K nat) (order : list K) : option (list K) :=
  match order !! cursor with
  | None => Some order
  | Some node =>
    match fuel with
    | O => None
    | S fuel' =>
      let '(remaining', order') := foldl relax (remaining, order) (out_edges g node) in
      kahn fuel' g (S cursor) remaining' order'
    end
  end.

(** Each node enters [order] once, so [node_count] iterations are enough
    ([kahn_total]). *)
Definition topological_order (g : AdjacencyGraph K P) : option (list K) :=
  let remaining := in_degrees g in
  match kahn (node_count g) g 0 remaining (seed g remaining) with
  | Some order => if decide (length order = node_count g) then Some order else None
  | None => None
  end.

(** ** The loop invariant

    [done] holds the edges relaxed so far: the out-edges of the first [cursor]
    nodes of [order] (plus some of the next node's). *)

Definition predecessors (g : AdjacencyGraph K P) (n : K) : list K := target <$> in_edges g n.

Record kahn_inv g (done : gset (K * K)) remaining order : Prop := {
  ki_count : ∀ n, is_Some (outgoing_ g !! n) →
    remaining !! n = Some (pending (predecessors g) done n);
  ki_state : kahn_state (dom (outgoing_ g)) (predecessors g) done order
}.

(** ** Facts about the counts *)

Lemma foldl_insert_lookup {A B} `{Countable A} (f : A → B) (l : list A) (m : gmap A B) k :
  foldl (λ m n, <[n := f n]> m) m l !! k = if decide (k ∈ l) then Some (f k) else m !! k.
Proof.
  revert m. induction l as [|a l IH]; intros m; cbn.
  - rewrite decide_False; [done|apply not_elem_of_nil].
  - rewrite IH, lookup_insert. repeat case_decide; set_solver.
Qed.

Lemma precedes_arc g a b : WF g → precedes (predecessors g) a b ↔ arc g a b.
Proof.
  intros Hwf. unfold precedes, predecessors, arc. rewrite list_elem_of_fmap. split.
  - intros ([a' p] & -> & Hin). exists p. by apply (wf_mirror g Hwf).
  - intros [p Hp]. exists (MkEdge a p). split; [done|]. by apply (wf_mirror g Hwf).
Qed.

Lemma predecessors_NoDup g n : WF g → NoDup (predecessors g n).
Proof. intros Hwf. apply sorted_edges_NoDup, (wf_in g Hwf). Qed.

Lemma in_degrees_lookup g n :
  in_degrees g !! n =
    if decide (is_Some (outgoing_ g !! n)) then Some (length (in_edges g n)) else None.
Proof.
  unfold in_degrees. rewrite foldl_insert_lookup, lookup_empty.
  apply decide_ext. apply elem_of_sorted_keys.
Qed.

Lemma kahn_inv_init g :
  WF g → kahn_inv g ∅ (in_degrees g) (seed g (in_degrees g)).
Proof.
  intros Hwf. split.
  - intros n Hn. rewrite in_degrees_lookup, decide_True, pending_nothing by done.
    unfold predecessors. by rewrite length_fmap.
  - apply kahn_start; [apply NoDup_filter, sorted_keys_NoDup|].
    intros n. unfold seed, nodes, predecessors.
    rewrite list_elem_of_filter, elem_of_sorted_keys, in_degrees_lookup, elem_of_dom.
    case_decide; destruct (in_edges g n); naive_solver.
Qed.

(** One edge: the loop body retires exactly the arc it looks at, and appends its
    end to [order] exactly when that was the last arc into it. *)
Lemma relax_inv g done remaining order p t q :
  WF g → kahn_inv g done remaining order →
  MkEdge t q ∈ out_edges g p → p ∈ order → (p, t) ∉ done →
  ∃ remaining' tail,
    relax (remaining, order) (MkEdge t q) = (remaining', order ++ tail) ∧
    kahn_inv g ({[(p, t)]} ∪ done) remaining' (order ++ tail).
Proof.
  intros Hwf [Hc Hs] Hin Hp Hfresh.
  pose proof (wf_target_is_node g p t q Hwf Hin) as Ht.
  assert (precedes (predecessors g) p t) as Harc by (apply precedes_arc; [done|by exists q]).
  pose proof (λ n, pending_retire (predecessors g) done p t n (predecessors_NoDup g t Hwf) Harc Hfresh)
    as Hpe.
  set (fewer := pending (predecessors g) ({[(p, t)]} ∪ done) t).
  exists (<[t := fewer]> remaining), (if decide (fewer = 0%nat) then [t] else []). split.
  { cbn. rewrite (Hc t Ht), (Hpe t), decide_True by done. fold fewer.
    case_decide; [done|]. by rewrite app_nil_r. }
  split.
  - intros n Hn. rewrite lookup_insert. destruct (decide (t = n)) as [->|E]; [done|].
    rewrite (Hc n Hn), (Hpe n), decide_False by done. done.
  - apply kahn_retire; try done; [by apply predecessors_NoDup|by apply elem_of_dom].
Qed.

(** The inner loop over the out-edges of [p]. *)
Lemma relax_all g p es done remaining order :
  WF g → kahn_inv g done remaining order → p ∈ order →
  (∀ e, e ∈ es → e ∈ out_edges g p) → NoDup (target <$> es) →
  (∀ t, t ∈ target <$> es → (p, t) ∉ done) →
  ∃ remaining' tail done',
    foldl relax (remaining, order) es = (remaining', order ++ tail) ∧
    kahn_inv g done' remaining' (order ++ tail) ∧
    (∀ a b, (a, b) ∈ done' ↔ (a, b) ∈ done ∨ a = p ∧ b ∈ target <$> es).
Proof.
  intros Hwf. revert done remaining order.
  induction es as [|[t q] es IH]; intros done remaining order Hinv Hp Hin Hnd Hfresh.
  { exists remaining, [], done. rewrite app_nil_r. cbn. split_and!; [done..|].
    intros. rewrite elem_of_nil. tauto. }
  rewrite fmap_cons in *. apply NoDup_cons in Hnd as [Ht Hnd].
  destruct (relax_inv g done remaining order p t q) as (rem1 & tail1 & Hrel & Hinv1);
    [done..|apply Hin; by left|done|apply Hfresh; by left|].
  destruct (IH ({[(p, t)]} ∪ done) rem1 (order ++ tail1)) as (rem2 & tail2 & done2 & Hfold & Hinv2 & Hdone2);
    [done|apply elem_of_app; by left|intros; apply Hin; by right|done| |].
  { intros u Hu. assert (u ≠ t) by (intros ->; done).
    specialize (Hfresh u). set_solver. }
  exists rem2, (tail1 ++ tail2), done2. rewrite app_assoc. cbn [foldl]. rewrite Hrel.
  split_and!; [done..|]. intros a b. rewrite Hdone2. cbn. set_solver.
Qed.

(** The outer loop runs to the end of [order] within its fuel. *)
Lemma kahn_total g fuel cursor done remaining order :
  WF g → kahn_inv g done remaining order →
  (∀ a b, (a, b) ∈ done ↔ arc g a b ∧ a ∈ take cursor order) →
  (cursor ≤ length order)%nat → (node_count g ≤ fuel + cursor)%nat →
  ∃ order' remaining' done',
    kahn fuel g cursor remaining order = Some order' ∧
    kahn_inv g done' remaining' order' ∧
    (∀ a b, (a, b) ∈ done' ↔ arc g a b ∧ a ∈ order').
Proof.
  intros Hwf. revert cursor done remaining order.
  induction fuel as [|fuel IH]; intros cursor done remaining order Hinv Hdone Hcur Hfuel.
  all: cbn; destruct (order !! cursor) as [p|] eqn:Ep.
  2,4: exists order, remaining, done; split_and!; [done..|];
    apply lookup_ge_None in Ep; rewrite take_ge in Hdone by done; apply Hdone.
  { apply lookup_lt_Some in Ep.
    pose proof (kahn_bounded _ _ _ _ (ki_state _ _ _ _ Hinv)) as Hb.
    rewrite size_dom in Hb. unfold node_count in Hfuel. lia. }
  pose proof (list_elem_of_lookup_2 _ _ _ Ep) as Hp.
  destruct (relax_all g p (out_edges g p) done remaining order)
    as (rem1 & tail & done1 & Hfold & Hinv1 & Hdone1); [done..|apply sorted_edges_NoDup, (wf_out g Hwf)| |].
  { intros t Ht [_ Hpt]%Hdone. apply list_elem_of_lookup in Hpt as [i Hi].
    pose proof Hi as Hlt%lookup_lt_Some. rewrite lookup_take in Hi.
    case_decide; [|done]. pose proof (NoDup_lookup order i cursor p (ks_nodup _ _ _ _ (ki_state _ _ _ _ Hinv)) Hi Ep). lia. }
  rewrite Hfold. apply (IH (S cursor) done1); [done| |rewrite length_app;
    apply lookup_lt_Some in Ep; lia|lia].
  intros a b. rewrite Hdone1, Hdone.
  rewrite take_app_le by (apply lookup_lt_Some in Ep; lia).
  rewrite (take_S_r _ _ _ Ep), elem_of_app, list_elem_of_singleton.
  assert (b ∈ target <$> out_edges g p ↔ arc g p b) as ->; [|naive_solver].
  rewrite list_elem_of_fmap. unfold arc. split; [intros ([] & -> & ?)|intros [q ?]]; eauto.
  by exists (MkEdge b q).
Qed.

Lemma kahn_final g :
  WF g → ∃ order remaining done,
    kahn (node_count g) g 0 (in_degrees g) (seed g (in_degrees g)) = Some order ∧
    kahn_inv g done remaining order ∧
    (∀ a b, (a, b) ∈ done ↔ arc g a b ∧ a ∈ order).
Proof.
  intros Hwf. apply (kahn_total g _ 0 ∅); [done|by apply kahn_inv_init| |lia|lia].
  intros a b. cbn. rewrite elem_of_nil. set_solver.
Qed.

Lemma topological_order_Some g order :
  WF g → topological_order g = Some order →
  order ≡ₚ nodes g ∧
  (∀ i n p, order !! i = Some n → arc g p n → p ∈ take i order).
Proof.
  intros Hwf. unfold topological_order.
  destruct (kahn_final g Hwf) as (o & rem & dn & -> & Hinv & _).
  case_decide as Hlen; [|done]. intros [= <-]. destruct Hinv as [_ [Ho Hnd _ Hb]]. split.
  - apply submseteq_length_Permutation.
    + apply NoDup_submseteq; [done|]. intros n Hn. apply elem_of_sorted_keys, elem_of_dom. by apply Ho.
    + unfold nodes. rewrite length_sorted_keys. unfold node_count in Hlen. lia.
  - intros i n p Hi Harc%precedes_arc; [|done]. by eapply Hb.
Qed.

Lemma topological_order_None g :
  WF g → topological_order g = None → ∃ x, tc (arc g) x x.
Proof.
  intros Hwf. unfold topological_order.
  destruct (kahn_final g Hwf) as (o & rem & dn & -> & [_ Hs] & Hdone).
  case_decide as Hlen; [done|]. intros _.
  destruct (kahn_stuck _ _ dn o Hs) as [x Hx].
  - intros a b. by rewrite precedes_arc, Hdone.
  - intros a b [p Hp]%precedes_arc; [|done]. rewrite !elem_of_dom.
    split; [by eapply out_edge_is_node|by eapply wf_target_is_node].
  - rewrite size_dom. done.
  - exists x. revert Hx. apply tc_iff. intros a b. symmetry. by apply precedes_arc.
Qed.

(** A path goes strictly forward in a linearisation. *)
Lemma topological_order_forward g order a b i j :
  WF g → topological_order g = Some order → tc (arc g) a b →
  order !! i = Some a → order !! j = Some b → (i < j)%nat.
Proof.
  intros Hwf Ho Htc Hi Hj. apply topological_order_Some in Ho as [Hp Hb]; [|done].
  assert (NoDup order) as Hnd by (rewrite Hp; apply sorted_keys_NoDup).
  destruct (before_tc (arc g) order a b Hnd Hb Htc j Hj) as (k & Hkj & Hk).
  by rewrite (NoDup_lookup order i k a Hnd Hi Hk).
Qed.

Lemma topological_order_no_cycle g order :
  WF g → topological_order g = Some order → ∀ x, ¬ tc (arc g) x x.
Proof.
  intros Hwf Ho x Htc. pose proof Ho as [Hp _]%topological_order_Some; [|done].
  assert (x ∈ order) as [i Hi]%list_elem_of_lookup.
  { rewrite Hp. apply elem_of_sorted_keys.
    inversion Htc as [? ? [q Hq]|? ? ? [q Hq] _]; subst; by eapply out_edge_is_node. }
  pose proof (topological_order_forward g order x x i i Hwf Ho Htc Hi Hi). lia.
Qed.

End topological.

Section theorems.
Context {K P : Type} {KEq : EqDecision K} {KCnt : Countable K} {KOrd : OrdKey K}.

(** What [topological_order] returns is a linearisation: a permutation of the
    nodes in which whatever reaches [b] along edges stands before [b]. *)
Theorem topological_order_linearises (g : AdjacencyGraph K P) order :
  WF g → topological_order g = Some order →
  order ≡ₚ nodes g ∧
  ∀ a b i j, tc (arc g) a b → order !! i = Some a → order !! j = Some b → (i < j)%nat.
Proof.
  intros Hwf Ho. split; [by apply topological_order_Some|].
  intros. by eapply topological_order_forward.
Qed.

End theorems.

Definition demo_dag : AdjacencyGraph N N :=
  demo_graph (demo_nodes ++ [OpAddEdge 4 1 0; OpAddEdge 1 3 0; OpAddEdge 4 2 0])%N.

Lemma topological_order_linearises_witness :
  [4; 1; 2; 3]%N ≡ₚ nodes demo_dag.
Proof.
  apply (topological_order_linearises demo_dag [4; 1; 2; 3]%N (graph_run_WF _)).
  vm_compute. reflexivity.
Defined.

Section acyclic.
Context {K P : Type} {KEq : EqDecision K} {KCnt : Countable K} {KOrd : OrdKey K}.

(** [topological_order] answers for exactly the acyclic graphs: the nullopt
    means a cycle and nothing else, in particular never a loop that was cut
    short. *)
Theorem topological_order_iff_acyclic (g : AdjacencyGraph K P) :
  WF g → is_Some (topological_order g) ↔ ∀ x, ¬ tc (arc g) x x.
Proof.
  intros Hwf. split.
  - intros [order Ho]. by eapply topological_order_no_cycle.
  - intros Hac. destruct (topological_order g) eqn:E; [eauto|].
    apply topological_order_None in E as [x Hx]; [|done]. by apply Hac in Hx.
Qed.

End acyclic.

Lemma topological_order_iff_acyclic_witness : ¬ tc (arc demo_dag) 1%N 1%N.
Proof.
  refine (proj1 (topological_order_iff_acyclic demo_dag (graph_run_WF _)) _ 1%N).
  exists [4; 1; 2; 3]%N. vm_compute. reflexivity.
Defined.
