(* ===== verification/GraphDelta.v ===== *)
(** What changed between two snapshots of a graph
    ([kernel/graph/graph_delta.hpp]): the two-level merge of sorted ranges, and
    its equality with a reference definition that asks each side about each
    node and edge. *)

From S2P Require Import Prelude Graph.

Section delta.
Context {K P : Type} {KEq : EqDecision K} {KCnt : Countable K} {KOrd : OrdKey K}.
Context (payload_equal : P → P → bool).

Record GraphDelta := MkDelta {
  added_nodes : list K;
  removed_nodes : list K;
  added_edges : list (K * K);
  removed_edges : list (K * K);
  changed_edges : list (K * K)
}.

Definition empty_delta : GraphDelta := MkDelta [] [] [] [] [].

Definition push_added_node (d : GraphDelta) (n : K) : GraphDelta :=
  MkDelta (added_nodes d ++ [n]) (removed_nodes d) (added_edges d) (removed_edges d)
    (changed_edges d).

Definition push_removed_node (d : GraphDelta) (n : K) : GraphDelta :=
  MkDelta (added_nodes d) (removed_nodes d ++ [n]) (added_edges d) (removed_edges d)
    (changed_edges d).

Definition push_added (d : GraphDelta) (x : K * K) : GraphDelta :=
  MkDelta (added_nodes d) (removed_nodes d) (added_edges d ++ [x]) (removed_edges d)
    (changed_edges d).

Definition push_removed (d : GraphDelta) (x : K * K) : GraphDelta :=
  MkDelta (added_nodes d) (removed_nodes d) (added_edges d) (removed_edges d ++ [x])
    (changed_edges d).

Definition push_changed (d : GraphDelta) (x : K * K) : GraphDelta :=
  MkDelta (added_nodes d) (removed_nodes d) (added_edges d) (removed_edges d)
    (changed_edges d ++ [x]).

(** Merge one node's two adjacency lists, both ascending by target. *)
Fixpoint merge_edge_lists (source : K) (before : list (OutgoingEdge K P))
    : list (OutgoingEdge K P) → GraphDelta → GraphDelta :=
  fix go (after : list (OutgoingEdge K P)) (delta : GraphDelta) : GraphDelta :=
    match before, after with
    | l :: before', r :: after' =>
      if decide (key_lt (target l) (target r)) then
        merge_edge_lists source before' after (push_removed delta (source, target l))
      else if decide (key_lt (target r) (target l)) then
        go after' (push_added delta (source, target r))
      else
        merge_edge_lists source before' after'
          (if payload_equal (payload l) (payload r) then delta
           else push_changed delta (source, target r))
    | l :: before', [] =>
      merge_edge_lists source before' [] (push_removed delta (source, target l))
    | [], r :: after' => go after' (push_added delta (source, target r))
    | [], [] => delta
    end.

Definition only_before (before : AdjacencyGraph K P) (delta : GraphDelta) (node : K)
    : GraphDelta :=
  merge_edge_lists node (out_edges before node) [] (push_removed_node delta node).

Definition only_after (after : AdjacencyGraph K P) (delta : GraphDelta) (node : K)
    : GraphDelta :=
  merge_edge_lists node [] (out_edges after node) (push_added_node delta node).

(** The walk over both node ranges. *)
Fixpoint merge_nodes (before after : AdjacencyGraph K P) (left_ : list K)
    : list K → GraphDelta → GraphDelta :=
  fix go (right_ : list K) (delta : GraphDelta) : GraphDelta :=
    match left_, right_ with
    | l :: left', r :: right' =>
      if decide (key_lt l r) then
        merge_nodes before after left' right_ (only_before before delta l)
      else if decide (key_lt r l) then go right' (only_after after delta r)
      else
        merge_nodes before after left' right'
          (merge_edge_lists l (out_edges before l) (out_edges after r) delta)
    | l :: left', [] => merge_nodes before after left' [] (only_before before delta l)
    | [], r :: right' => go right' (only_after after delta r)
    | [], [] => delta
    end.

Definition graph_difference (before after : AdjacencyGraph K P) : GraphDelta :=
  merge_nodes before after (nodes before) (nodes after) empty_delta.

(** ** Reference definition: ask each side *)

Definition differs (p q : option P) : bool :=
  match p, q with Some p, Some q => negb (payload_equal p q) | _, _ => false end.

Definition missing_edges (from_ to_ : AdjacencyGraph K P) (s : K) : list (K * K) :=
  (λ t, (s, t)) <$>
    filter (λ t, edge_payload to_ s t = None) (target <$> out_edges from_ s).

Definition altered_edges (before after : AdjacencyGraph K P) (s : K) : list (K * K) :=
  (λ t, (s, t)) <$>
    filter (λ t, differs (edge_payload before s t) (edge_payload after s t) = true)
      (target <$> out_edges before s).

Definition delta_reference (before after : AdjacencyGraph K P) : GraphDelta :=
  MkDelta
    (filter (λ n, outgoing_ before !! n = None) (nodes after))
    (filter (λ n, outgoing_ after !! n = None) (nodes before))
    (nodes after ≫= missing_edges after before)
    (nodes before ≫= missing_edges before after)
    (nodes before ≫= altered_edges before after).

Definition delta_app (d e : GraphDelta) : GraphDelta :=
  MkDelta (added_nodes d ++ added_nodes e) (removed_nodes d ++ removed_nodes e)
    (added_edges d ++ added_edges e) (removed_edges d ++ removed_edges e)
    (changed_edges d ++ changed_edges e).

(** ** The edge merge *)

Implicit Types (b a : list (OutgoingEdge K P)) (d e : GraphDelta).

Definition edges_delta (s : K) b a : GraphDelta :=
  MkDelta [] []
    ((λ t, (s, t)) <$> filter (λ t, find_edge b t = None) (target <$> a))
    ((λ t, (s, t)) <$> filter (λ t, find_edge a t = None) (target <$> b))
    ((λ t, (s, t)) <$> filter (λ t, differs (payload <$> find_edge b t)
                                            (payload <$> find_edge a t) = true)
                              (target <$> b)).

Lemma delta_app_assoc d e f : delta_app d (delta_app e f) = delta_app (delta_app d e) f.
Proof. unfold delta_app. cbn. by rewrite !app_assoc. Qed.

Lemma merge_edge_lists_nil_l s a d :
  merge_edge_lists s [] a d =
    match a with
    | [] => d
    | r :: a' => merge_edge_lists s [] a' (push_added d (s, target r))
    end.
Proof. by destruct a. Qed.

Lemma merge_edge_lists_cons s l b a d :
  merge_edge_lists s (l :: b) a d =
    match a with
    | [] => merge_edge_lists s b [] (push_removed d (s, target l))
    | r :: a' =>
      if decide (key_lt (target l) (target r)) then
        merge_edge_lists s b a (push_removed d (s, target l))
      else if decide (key_lt (target r) (target l)) then
        merge_edge_lists s (l :: b) a' (push_added d (s, target r))
      else
        merge_edge_lists s b a'
          (if payload_equal (payload l) (payload r) then d
           else push_changed d (s, target r))
    end.
Proof. by destruct a. Qed.

Lemma find_edge_below b t x :
  sorted_edges (x :: b) → t ∈ target <$> b → find_edge (x :: b) t = find_edge b t.
Proof.
  intros [_ Hx]%sorted_edges_cons (y & -> & Hy)%list_elem_of_fmap.
  rewrite find_edge_cons, decide_True; auto.
Qed.

Lemma find_edge_above b t :
  (∀ x, x ∈ b → key_lt t (target x)) → find_edge b t = None.
Proof.
  destruct b as [|x b]; [done|]. intros Hb. specialize (Hb x (list_elem_of_here x b)).
  rewrite find_edge_cons, decide_False, decide_False; [done|..].
  - intros E. rewrite E in Hb. by apply key_lt_irrefl in Hb.
  - intros Hlt. by apply (key_lt_irrefl t), (key_lt_trans _ (target x)).
Qed.

Lemma find_edge_skip b t x : key_lt (target x) t → find_edge (x :: b) t = find_edge b t.
Proof. intros. by rewrite find_edge_cons, decide_True. Qed.

Lemma find_edge_head b x : find_edge (x :: b) (target x) = Some x.
Proof. rewrite find_edge_cons, decide_False by apply key_lt_irrefl. by rewrite decide_True. Qed.

(** What one comparison of the merge contributes. *)
Lemma edges_delta_removed s l b a :
  sorted_edges (l :: b) → (∀ x, x ∈ a → key_lt (target l) (target x)) →
  edges_delta s (l :: b) a =
    delta_app (MkDelta [] [] [] [(s, target l)] []) (edges_delta s b a).
Proof.
  intros Hl Ha. unfold edges_delta, delta_app. cbn [fmap list_fmap app added_nodes
    removed_nodes added_edges removed_edges changed_edges].
  f_equal.
  - f_equal. apply list_filter_ext. intros t (x & -> & Hx)%list_elem_of_fmap.
    rewrite find_edge_skip; auto.
  - rewrite filter_cons_True by by apply find_edge_above. done.
  - rewrite filter_cons_False.
    + f_equal. apply list_filter_ext. intros t Ht. by rewrite find_edge_below.
    + rewrite (find_edge_above a (target l)) by done. cbn. by destruct (_ <$> _).
Qed.

Lemma edges_delta_added s r b a :
  sorted_edges (r :: a) → (∀ x, x ∈ b → key_lt (target r) (target x)) →
  edges_delta s b (r :: a) =
    delta_app (MkDelta [] [] [(s, target r)] [] []) (edges_delta s b a).
Proof.
  intros Hr Hb. unfold edges_delta, delta_app. cbn [fmap list_fmap app added_nodes
    removed_nodes added_edges removed_edges changed_edges].
  f_equal.
  - rewrite filter_cons_True by by apply find_edge_above. done.
  - f_equal. apply list_filter_ext. intros t (x & -> & Hx)%list_elem_of_fmap.
    rewrite find_edge_skip; auto.
  - f_equal. apply list_filter_ext. intros t (x & -> & Hx)%list_elem_of_fmap.
    rewrite (find_edge_skip a); auto.
Qed.

Lemma edges_delta_both s l r b a :
  sorted_edges (l :: b) → sorted_edges (r :: a) → target l = target r →
  edges_delta s (l :: b) (r :: a) =
    delta_app (if payload_equal (payload l) (payload r) then empty_delta
               else MkDelta [] [] [] [] [(s, target r)]) (edges_delta s b a).
Proof.
  intros Hl Hr E. pose proof Hl as [_ Hlx]%sorted_edges_cons.
  pose proof Hr as [_ Hrx]%sorted_edges_cons.
  assert (∀ t, t ∈ target <$> a → find_edge (l :: b) t = find_edge b t) as Ha.
  { intros t (x & -> & Hx)%list_elem_of_fmap. apply find_edge_skip. rewrite E. auto. }
  assert (∀ t, t ∈ target <$> b → find_edge (r :: a) t = find_edge a t) as Hb.
  { intros t (x & -> & Hx)%list_elem_of_fmap. apply find_edge_skip. rewrite <- E. auto. }
  pose proof (find_edge_head b l) as Hfl. pose proof (find_edge_head a r) as Hfr.
  assert ((λ t, (s, t)) <$> filter (λ t, differs (payload <$> find_edge (l :: b) t)
            (payload <$> find_edge (r :: a) t) = true) (target <$> b) =
          (λ t, (s, t)) <$> filter (λ t, differs (payload <$> find_edge b t)
            (payload <$> find_edge a t) = true) (target <$> b)) as Hch.
  { f_equal. apply list_filter_ext. intros t Ht. rewrite Hb, find_edge_below by done. done. }
  assert (differs (payload <$> find_edge (l :: b) (target l))
            (payload <$> find_edge (r :: a) (target l)) =
          negb (payload_equal (payload l) (payload r))) as Hd.
  { rewrite Hfl, E, Hfr. done. }
  unfold edges_delta. rewrite !fmap_cons.
  rewrite (filter_cons_False (λ t, find_edge (l :: b) t = None)) by by rewrite <- E, Hfl.
  rewrite (filter_cons_False (λ t, find_edge (r :: a) t = None)) by by rewrite E, Hfr.
  rewrite (list_filter_ext (λ t, find_edge (l :: b) t = None) (λ t, find_edge b t = None))
    by by intros t Ht; rewrite Ha.
  rewrite (list_filter_ext (λ t, find_edge (r :: a) t = None) (λ t, find_edge a t = None))
    by by intros t Ht; rewrite Hb.
  destruct (payload_equal (payload l) (payload r)).
  - rewrite filter_cons_False by by rewrite Hd. by rewrite Hch.
  - rewrite filter_cons_True by by rewrite Hd. rewrite fmap_cons, Hch, E. done.
Qed.

Lemma edges_delta_nil s : edges_delta s [] [] = empty_delta.
Proof. done. Qed.

(** The merge appends exactly the reference delta of the two vectors. *)
Lemma merge_edge_lists_spec s b a d :
  sorted_edges b → sorted_edges a →
  merge_edge_lists s b a d = delta_app d (edges_delta s b a).
Proof.
  revert a d. induction b as [|l b IHb]; intros a; induction a as [|r a IHa];
    intros d Hb Ha.
  - rewrite merge_edge_lists_nil_l. unfold delta_app. cbn. rewrite !app_nil_r. by destruct d.
  - rewrite merge_edge_lists_nil_l, IHa by (done || by apply sorted_edges_cons in Ha as []).
    rewrite edges_delta_added, delta_app_assoc by (done || by intros ? []%not_elem_of_nil).
    f_equal. destruct d. unfold delta_app. cbn. by rewrite !app_nil_r.
  - rewrite merge_edge_lists_cons, IHb by (done || by apply sorted_edges_cons in Hb as []).
    rewrite edges_delta_removed, delta_app_assoc by (done || by intros ? []%not_elem_of_nil).
    f_equal. destruct d. unfold delta_app. cbn. by rewrite !app_nil_r.
  - rewrite merge_edge_lists_cons.
    pose proof Hb as [Hb' Hlx]%sorted_edges_cons. pose proof Ha as [Ha' Hrx]%sorted_edges_cons.
    destruct (decide (key_lt (target l) (target r))) as [Hlt|Hnlt];
      [|destruct (decide (key_lt (target r) (target l))) as [Hgt|Hngt]].
    + rewrite IHb by done. rewrite edges_delta_removed, delta_app_assoc; [| done |].
      * f_equal. destruct d. unfold delta_app. cbn. by rewrite !app_nil_r.
      * intros x [->|Hx]%elem_of_cons; [done|]. eauto using key_lt_trans.
    + rewrite IHa by done. rewrite edges_delta_added, delta_app_assoc; [| done |].
      * f_equal. destruct d. unfold delta_app. cbn. by rewrite !app_nil_r.
      * intros x [->|Hx]%elem_of_cons; [done|]. eauto using key_lt_trans.
    + assert (target l = target r) as E by (apply not_key_lt in Hnlt as []; done).
      rewrite IHb, edges_delta_both, delta_app_assoc by done. f_equal.
      destruct d. unfold delta_app. destruct (payload_equal _ _); cbn; by rewrite ?app_nil_r.
Qed.

(** ** The node merge *)

Implicit Types (g : AdjacencyGraph K P).

Lemma edge_payload_find g s t :
  edge_payload g s t = payload <$> find_edge (out_edges g s) t.
Proof.
  unfold edge_payload, out_edges, edges_of. destruct (outgoing_ g !! s); [|done].
  by destruct (find_edge _ t).
Qed.

Lemma out_edges_absent g n : outgoing_ g !! n = None → out_edges g n = [].
Proof. unfold out_edges, edges_of. by intros ->. Qed.

Lemma edges_delta_graph before after s :
  edges_delta s (out_edges before s) (out_edges after s) =
    MkDelta [] [] (missing_edges after before s) (missing_edges before after s)
      (altered_edges before after s).
Proof.
  unfold edges_delta, missing_edges, altered_edges. f_equal; f_equal; apply list_filter_ext;
    intros t _; rewrite !edge_payload_find; [by destruct (find_edge _ t)..|done].
Qed.

Definition nodes_delta (before after : AdjacencyGraph K P) (left_ right_ : list K)
    : GraphDelta :=
  MkDelta
    (filter (λ n, outgoing_ before !! n = None) right_)
    (filter (λ n, outgoing_ after !! n = None) left_)
    (right_ ≫= missing_edges after before)
    (left_ ≫= missing_edges before after)
    (left_ ≫= altered_edges before after).

(** The part of the two node ranges the walk has still to see. *)
Record split_ranges (before after : AdjacencyGraph K P) (left_ right_ : list K) : Prop := {
  sr_left : StronglySorted key_lt left_;
  sr_right : StronglySorted key_lt right_;
  sr_left_node : ∀ n, n ∈ left_ → is_Some (outgoing_ before !! n);
  sr_right_node : ∀ n, n ∈ right_ → is_Some (outgoing_ after !! n);
  sr_left_both : ∀ n, n ∈ left_ → is_Some (outgoing_ after !! n) → n ∈ right_;
  sr_right_both : ∀ n, n ∈ right_ → is_Some (outgoing_ before !! n) → n ∈ left_
}.

Lemma StronglySorted_head_lt (k : K) l x :
  StronglySorted key_lt (k :: l) → x ∈ l → key_lt k x.
Proof. intros [_ HF]%StronglySorted_inv Hx. rewrite Forall_forall in HF. auto. Qed.

Lemma StronglySorted_head_fresh (k : K) l : StronglySorted key_lt (k :: l) → k ∉ l.
Proof. intros Hs Hk. eapply key_lt_irrefl, StronglySorted_head_lt; eauto. Qed.

Lemma StronglySorted_tail (k : K) l : StronglySorted key_lt (k :: l) → StronglySorted key_lt l.
Proof. by intros [? _]%StronglySorted_inv. Qed.

(** A node only one side has is not in the other range. *)
Lemma split_drop_left before after l ls rs :
  split_ranges before after (l :: ls) rs → l ∉ rs →
  outgoing_ after !! l = None ∧ split_ranges before after ls rs.
Proof.
  intros [Hl Hr Hln Hrn Hlb Hrb] Hlr. split.
  - apply eq_None_not_Some. intros Hs. apply Hlr, Hlb; [by left|done].
  - pose proof (StronglySorted_head_fresh _ _ Hl). split; eauto using StronglySorted_tail.
    + intros n Hn. apply Hln. by right.
    + intros n Hn. apply Hlb. by right.
    + intros n Hn Hs. apply Hrb in Hs as [->|]%elem_of_cons; done.
Qed.

Lemma split_drop_right before after r ls rs :
  split_ranges before after ls (r :: rs) → r ∉ ls →
  outgoing_ before !! r = None ∧ split_ranges before after ls rs.
Proof.
  intros [Hl Hr Hln Hrn Hlb Hrb] Hlr. split.
  - apply eq_None_not_Some. intros Hs. apply Hlr, Hrb; [by left|done].
  - pose proof (StronglySorted_head_fresh _ _ Hr). split; eauto using StronglySorted_tail.
    + intros n Hn. apply Hrn. by right.
    + intros n Hn Hs. apply Hlb in Hs as [->|]%elem_of_cons; done.
    + intros n Hn. apply Hrb. by right.
Qed.

Lemma split_drop_both before after n ls rs :
  split_ranges before after (n :: ls) (n :: rs) → split_ranges before after ls rs.
Proof.
  intros [Hl Hr Hln Hrn Hlb Hrb].
  pose proof (StronglySorted_head_fresh _ _ Hl). pose proof (StronglySorted_head_fresh _ _ Hr).
  split; eauto using StronglySorted_tail.
  - intros m Hm. apply Hln. by right.
  - intros m Hm. apply Hrn. by right.
  - intros m Hm Hs. apply Hlb in Hs as [->|]%elem_of_cons; [done..|by right].
  - intros m Hm Hs. apply Hrb in Hs as [->|]%elem_of_cons; [done..|by right].
Qed.

Lemma only_before_spec before after l d :
  WF before → outgoing_ after !! l = None →
  only_before before d l =
    delta_app d (MkDelta [] [l] [] (missing_edges before after l)
      (altered_edges before after l)) ∧
  missing_edges after before l = [].
Proof.
  intros Hwf Hnone. pose proof (edges_delta_graph before after l) as Hg.
  assert (missing_edges after before l = []) as Hm.
  { unfold missing_edges. by rewrite out_edges_absent. }
  split; [|done]. unfold only_before.
  rewrite merge_edge_lists_spec by (apply (wf_out before Hwf) || constructor).
  rewrite <- (out_edges_absent after l Hnone), Hg, Hm. destruct d.
  unfold delta_app, push_removed_node. cbn. by rewrite !app_nil_r.
Qed.

Lemma only_after_spec before after r d :
  WF after → outgoing_ before !! r = None →
  only_after after d r =
    delta_app d (MkDelta [r] [] (missing_edges after before r) [] []) ∧
  missing_edges before after r = [] ∧ altered_edges before after r = [].
Proof.
  intros Hwf Hnone. pose proof (edges_delta_graph before after r) as Hg.
  assert (missing_edges before after r = []) as Hm.
  { unfold missing_edges. by rewrite out_edges_absent. }
  assert (altered_edges before after r = []) as Ha.
  { unfold altered_edges. by rewrite out_edges_absent. }
  split; [|done]. unfold only_after.
  rewrite merge_edge_lists_spec by (apply (wf_out after Hwf) || constructor).
  rewrite <- (out_edges_absent before r Hnone), Hg, Hm, Ha. destruct d.
  unfold delta_app, push_added_node. cbn. by rewrite !app_nil_r.
Qed.

Lemma delta_app_nil d : delta_app d empty_delta = d.
Proof. destruct d. unfold delta_app. cbn. by rewrite !app_nil_r. Qed.

Lemma merge_nodes_spec before after ls rs d :
  WF before → WF after → split_ranges before after ls rs →
  merge_nodes before after ls rs d = delta_app d (nodes_delta before after ls rs).
Proof.
  intros Hb Ha. revert rs d. induction ls as [|l ls IHl]; intros rs;
    induction rs as [|r rs IHr]; intros d Hsr.
  - by rewrite delta_app_nil.
  - destruct (split_drop_right _ _ _ _ _ Hsr (not_elem_of_nil _)) as [Hn Hsr'].
    destruct (only_after_spec before after r d Ha Hn) as (Hspec & _).
    change (merge_nodes before after [] (r :: rs) d)
      with (merge_nodes before after [] rs (only_after after d r)).
    rewrite IHr, Hspec, <- delta_app_assoc by done. f_equal.
    unfold delta_app, nodes_delta. rewrite filter_cons_True by done. done.
  - destruct (split_drop_left _ _ _ _ _ Hsr (not_elem_of_nil _)) as [Hn Hsr'].
    destruct (only_before_spec before after l d Hb Hn) as (Hspec & _).
    change (merge_nodes before after (l :: ls) [] d)
      with (merge_nodes before after ls [] (only_before before d l)).
    rewrite IHl, Hspec, <- delta_app_assoc by done. f_equal.
    unfold delta_app, nodes_delta. rewrite filter_cons_True by done. done.
  - cbn [merge_nodes]. destruct (decide (key_lt l r)) as [Hlt|Hnlt];
      [|destruct (decide (key_lt r l)) as [Hgt|Hngt]].
    + assert (l ∉ r :: rs) as Hfresh.
      { intros [->|Hin]%elem_of_cons; [by apply key_lt_irrefl in Hlt|].
        pose proof (StronglySorted_head_lt _ _ _ (sr_right _ _ _ _ Hsr) Hin).
        by apply (key_lt_irrefl l), (key_lt_trans _ r). }
      destruct (split_drop_left _ _ _ _ _ Hsr Hfresh) as [Hn Hsr'].
      destruct (only_before_spec before after l d Hb Hn) as (Hspec & _).
      rewrite IHl, Hspec, <- delta_app_assoc by done. f_equal.
      unfold delta_app, nodes_delta. rewrite (filter_cons_True _ l) by done. done.
    + assert (r ∉ l :: ls) as Hfresh.
      { intros [->|Hin]%elem_of_cons; [by apply key_lt_irrefl in Hgt|].
        pose proof (StronglySorted_head_lt _ _ _ (sr_left _ _ _ _ Hsr) Hin).
        by apply (key_lt_irrefl r), (key_lt_trans _ l). }
      destruct (split_drop_right _ _ _ _ _ Hsr Hfresh) as [Hn Hsr'].
      destruct (only_after_spec before after r d Ha Hn) as (Hspec & Hm & Hc).
      change ((fix go (right_ : list K) (delta : GraphDelta) {struct right_} : GraphDelta := _)
        rs (only_after after d r)) with (merge_nodes before after (l :: ls) rs (only_after after d r)).
      rewrite IHr, Hspec, <- delta_app_assoc by done. f_equal.
      unfold delta_app, nodes_delta. rewrite (filter_cons_True _ r) by done. done.
    + assert (l = r) as <- by (apply not_key_lt in Hnlt as []; done).
      pose proof (sr_left_node _ _ _ _ Hsr l (list_elem_of_here _ _)) as Hlb.
      pose proof (sr_right_node _ _ _ _ Hsr l (list_elem_of_here _ _)) as Hla.
      rewrite IHl, merge_edge_lists_spec, edges_delta_graph, <- delta_app_assoc
        by (apply (wf_out before Hb) || apply (wf_out after Ha) || by eapply split_drop_both).
      f_equal. unfold delta_app, nodes_delta.
      rewrite !(filter_cons_False _ l) by (rewrite eq_None_not_Some; tauto). done.
Qed.

Lemma split_ranges_nodes before after :
  split_ranges before after (nodes before) (nodes after).
Proof.
  split; try apply sorted_keys_sorted; intros n; unfold nodes; rewrite ?elem_of_sorted_keys; done.
Qed.

Lemma elem_of_missing from_ to_ s x :
  WF from_ → WF to_ → x ∈ missing_edges from_ to_ s ↔
  x.1 = s ∧ arc from_ s x.2 ∧ ¬ arc to_ s x.2.
Proof.
  intros Hf Ht. unfold missing_edges. rewrite list_elem_of_fmap. setoid_rewrite list_elem_of_filter.
  setoid_rewrite edge_payload_None; [|done]. setoid_rewrite list_elem_of_fmap. unfold arc. split.
  - intros (t & -> & Hn & [t' q] & -> & Hin). cbn. split_and!; eauto.
  - destruct x as [s' t]. cbn. intros (-> & [q Hq] & Hn). exists t. split_and!; [done..|].
    by exists (MkEdge t q).
Qed.

Lemma arc_node g s t : arc g s t → s ∈ nodes g.
Proof. intros [q Hq]. apply elem_of_sorted_keys. by eapply out_edge_is_node. Qed.

End delta.
Arguments GraphDelta : clear implicits.

Section theorems.
Context {K P : Type} {KEq : EqDecision K} {KCnt : Countable K} {KOrd : OrdKey K}.
Context (payload_equal : P → P → bool).

(** The merge of sorted ranges is the reference difference: each of the five
    lists of [graph_difference] is, in order, what one gets by asking the other
    snapshot about every node and every edge. *)
Theorem graph_difference_is_reference (before after : AdjacencyGraph K P) :
  WF before → WF after →
  graph_difference payload_equal before after = delta_reference payload_equal before after.
Proof.
  intros Hb Ha. unfold graph_difference.
  rewrite merge_nodes_spec by (done || apply split_ranges_nodes). done.
Qed.

(** No change is dropped and none is made up: a node or an edge is reported
    as added, removed or changed exactly when the two snapshots say so. *)
Lemma graph_difference_exact (before after : AdjacencyGraph K P) :
  WF before → WF after →
  let d := graph_difference payload_equal before after in
  (∀ n, n ∈ added_nodes d ↔ n ∈ nodes after ∧ n ∉ nodes before) ∧
  (∀ n, n ∈ removed_nodes d ↔ n ∈ nodes before ∧ n ∉ nodes after) ∧
  (∀ s t, (s, t) ∈ added_edges d ↔ arc after s t ∧ ¬ arc before s t) ∧
  (∀ s t, (s, t) ∈ removed_edges d ↔ arc before s t ∧ ¬ arc after s t) ∧
  (∀ s t, (s, t) ∈ changed_edges d ↔
     ∃ p q, edge_payload before s t = Some p ∧ edge_payload after s t = Some q ∧
            payload_equal p q = false).
Proof.
  intros Hb Ha d. subst d. unfold graph_difference.
  rewrite merge_nodes_spec by (done || apply split_ranges_nodes). cbn. unfold nodes.
  split_and!.
  - intros n. rewrite list_elem_of_filter, !elem_of_sorted_keys, eq_None_not_Some. tauto.
  - intros n. rewrite list_elem_of_filter, !elem_of_sorted_keys, eq_None_not_Some. tauto.
  - intros s t. rewrite list_elem_of_bind. setoid_rewrite elem_of_missing; [|done..]. cbn.
    split; [naive_solver|]. intros [Harc ?]. exists s. split; [done|by eapply arc_node].
  - intros s t. rewrite list_elem_of_bind. setoid_rewrite elem_of_missing; [|done..]. cbn.
    split; [naive_solver|]. intros [Harc ?]. exists s. split; [done|by eapply arc_node].
  - intros s t. rewrite list_elem_of_bind. unfold altered_edges. setoid_rewrite list_elem_of_fmap.
    setoid_rewrite list_elem_of_filter. split.
    + intros (s' & (t' & [= -> ->] & Hd & _) & _). revert Hd.
      destruct (edge_payload before _ _), (edge_payload after _ _); cbn; try done.
      intros ?%negb_true_iff. eauto.
    + intros (p & q & Hp & Hq & Hne). exists s. split.
      * exists t. rewrite Hp, Hq. cbn. rewrite Hne. split_and!; [done..|].
        apply edge_payload_Some in Hp; [|done]. by apply (list_elem_of_fmap_2 target) in Hp.
      * apply (arc_node before s t). exists p. by apply edge_payload_Some.
Qed.

Lemma graph_difference_NoDup (before after : AdjacencyGraph K P) :
  WF before → WF after →
  let d := graph_difference payload_equal before after in
  NoDup (added_nodes d) ∧ NoDup (removed_nodes d) ∧ NoDup (added_edges d) ∧
  NoDup (removed_edges d) ∧ NoDup (changed_edges d).
Proof.
  intros Hb Ha d. subst d. unfold graph_difference.
  rewrite merge_nodes_spec by (done || apply split_ranges_nodes). cbn.
  assert (∀ (g : AdjacencyGraph K P) (Q : K → K → Prop) `{!∀ s t, Decision (Q s t)}, WF g →
    NoDup (nodes g ≫= λ s, (λ t, (s, t)) <$> filter (Q s) (target <$> out_edges g s))) as H.
  { intros g Q HQ Hg. apply NoDup_bind.
    - intros s1 s2 x _ _ (? & -> & _)%list_elem_of_fmap (? & [= ->] & _)%list_elem_of_fmap. done.
    - intros s _. apply NoDup_fmap_2_strong; [by intros ????[= ->]|].
      apply NoDup_filter, sorted_edges_NoDup, (wf_out g Hg).
    - apply sorted_keys_NoDup. }
  split_and!; [apply NoDup_filter, sorted_keys_NoDup..| | |].
  - by apply (H after (λ s t, edge_payload before s t = None)).
  - by apply (H before (λ s t, edge_payload after s t = None)).
  - by apply (H before (λ s t,
      differs payload_equal (edge_payload before s t) (edge_payload after s t) = true)).
Qed.

End theorems.

Definition demo_before : AdjacencyGraph N N :=
  demo_graph (demo_nodes ++ [OpAddEdge 4 1 0; OpAddEdge 1 3 0; OpAddEdge 4 2 0])%N.

Definition demo_after : AdjacencyGraph N N :=
  demo_graph (demo_nodes ++
    [OpRemoveNode 2; OpAddNode 9; OpAddEdge 4 1 5; OpAddEdge 9 3 0])%N.

Lemma graph_difference_is_reference_witness :
  graph_difference N.eqb demo_before demo_after =
    MkDelta [9%N] [2%N] [(9, 3)%N] [(1, 3)%N; (4, 2)%N] [(4, 1)%N].
Proof.
  rewrite (graph_difference_is_reference N.eqb demo_before demo_after
    (graph_run_WF _) (graph_run_WF _)). vm_compute. reflexivity.
Defined.
