(* ===== verification/EnumTable.v ===== *)
(** The name tables of [include/grab/enum_table.hpp]: a value-to-text table with
    its two linear lookups, and when they invert each other. *)

From S2P Require Import Prelude.

Section enum_table.
Context {E : Type} {EEq : EqDecision E}.

Abbreviation EnumTable := (list (E * string)).

Fixpoint text_of (entries : EnumTable) (value : E) (fallback : string) : string :=
  match entries with
  | [] => fallback
  | (v, text) :: rest => if decide (v = value) then text else text_of rest value fallback
  end.

Fixpoint value_of (entries : EnumTable) (text : string) : option E :=
  match entries with
  | [] => None
  | (v, t) :: rest => if decide (t = text) then Some v else value_of rest text
  end.

Definition enum_table_has_count (table : EnumTable) (count : nat) : bool :=
  bool_decide (length table = count).

Implicit Types (tb : EnumTable).

Lemma text_of_elem tb v fb : v ∈ tb.*1 → (v, text_of tb v fb) ∈ tb.
Proof.
  induction tb as [|[v' t] tb IH]; [by intros ?%elem_of_nil|].
  rewrite fmap_cons. cbn. case_decide as E1; [subst; by left|].
  intros [->|]%elem_of_cons; [done|]. right. auto.
Qed.

Lemma value_of_elem tb v t : NoDup tb.*2 → (v, t) ∈ tb → value_of tb t = Some v.
Proof.
  induction tb as [|[v' t'] tb IH]; intros Hnd Hin; [by apply elem_of_nil in Hin|].
  rewrite fmap_cons, NoDup_cons in Hnd. destruct Hnd as [Hn Hnd]. cbn.
  apply elem_of_cons in Hin as [[= -> ->]|Hin]; [by rewrite decide_True|].
  rewrite decide_False; [auto|]. intros ->. apply Hn.
  by apply (list_elem_of_fmap_2 snd) in Hin.
Qed.

Lemma value_of_Some tb t v : value_of tb t = Some v → (v, t) ∈ tb.
Proof.
  induction tb as [|[v' t'] tb IH]; [done|]. cbn. case_decide as Et.
  - intros [= ->]. subst. by left.
  - intros ?. right. auto.
Qed.

Lemma text_of_unique tb v t fb : NoDup tb.*1 → (v, t) ∈ tb → text_of tb v fb = t.
Proof.
  induction tb as [|[v' t'] tb IH]; intros Hnd Hin; [by apply elem_of_nil in Hin|].
  rewrite fmap_cons, NoDup_cons in Hnd. destruct Hnd as [Hn Hnd]. cbn.
  apply elem_of_cons in Hin as [[= -> ->]|Hin]; [by rewrite decide_True|].
  rewrite decide_False; [auto|]. intros ->. apply Hn.
  by apply (list_elem_of_fmap_2 fst) in Hin.
Qed.

(** In a table without repeated values or texts the two lookups are inverse. *)
Lemma enum_table_roundtrip tb v t fb :
  NoDup tb.*1 → NoDup tb.*2 → v ∈ tb.*1 →
  value_of tb t = Some v ↔ text_of tb v fb = t.
Proof.
  intros Hv Ht Hin. split.
  - intros Hvo%value_of_Some. by apply text_of_unique.
  - intros <-. apply value_of_elem; [done|]. by apply text_of_elem.
Qed.

End enum_table.
