(* ===== verification/Errors.v ===== *)
(** Errors and their descriptor table ([include/grab/result.hpp]) with the small
    enumerations of [include/grab/trace.hpp] it uses.

    [Result] is the C++ [std::expected<T, Error>]; the descriptor lookups are the
    linear searches of the header, with its fallbacks. *)

From S2P Require Import Prelude EnumTable.

Local Open Scope string_scope.

(** How a failed command may be tried again. *)
Module RetryClass.

Inductive RetryClass : Type :=
  | Never | ResolveOnly | Idempotent | Compensated.

End RetryClass.
Abbreviation RetryClass := RetryClass.RetryClass.

#[export] Instance RetryClass_eq_dec : EqDecision RetryClass.
Proof. solve_decision. Defined.

(** What a caller does with an error by default. *)
Module ErrorDisposition.

Inductive ErrorDisposition : Type :=
  | RetrySame | FallbackNext | Fatal.

End ErrorDisposition.
Abbreviation ErrorDisposition := ErrorDisposition.ErrorDisposition.

#[export] Instance ErrorDisposition_eq_dec : EqDecision ErrorDisposition.
Proof. solve_decision. Defined.

(** How far an action got. *)
Module CommitStatus.

Inductive CommitStatus : Type :=
  | FailedBeforeCommit | PossiblyCommitted | Committed | Verified.

End CommitStatus.
Abbreviation CommitStatus := CommitStatus.CommitStatus.

#[export] Instance CommitStatus_eq_dec : EqDecision CommitStatus.
Proof. solve_decision. Defined.

(** What exiting a step released. *)
Module NeutralizationOutcome.

Inductive NeutralizationOutcome : Type :=
  | NotAttempted | NothingHeld | Released | Failed.

End NeutralizationOutcome.
Abbreviation NeutralizationOutcome := NeutralizationOutcome.NeutralizationOutcome.

#[export] Instance NeutralizationOutcome_eq_dec : EqDecision NeutralizationOutcome.
Proof. solve_decision. Defined.

(** Error categories. *)
Module ErrorCategory.

Inductive ErrorCategory : Type :=
  | Environment | Permission | Target | Protocol | Usage | InternalFault | Action | Stream.

End ErrorCategory.
Abbreviation ErrorCategory := ErrorCategory.ErrorCategory.

#[export] Instance ErrorCategory_eq_dec : EqDecision ErrorCategory.
Proof. solve_decision. Defined.

(** Error codes. *)
Module ErrorCode.

Inductive ErrorCode : Type :=
  | EnvironmentChanged | DisplayUnavailable | DeviceInaccessible | TopologyChanged
  | PermissionNeeded | PermissionDenied | LeaseClosed | LeaseRevoked | OwnershipRequired
  | WindowNotFound | StaleWindow | GeometryUntrusted | StaleNode | StaleShape
  | TreeResynced | RuntimeRestarted | TargetDetached | NoMatch | AmbiguousMatch
  | PropertyAbsent | PropertyUnsupported | PropertyUncached | PropertyBackendFailed
  | CapabilityUnavailable | ProviderFailed | ProtocolError | InvalidArgument
  | IllegalFromCallback | UnsupportedCharacter | SessionClosed | SessionExists
  | SessionNotFound | SessionDead | DeadlineExceeded | Cancelled | InternalFault
  | NotActionable | Occluded | RouteUnavailable | PossiblyCommitted | VerificationFailed
  | NeutralizationFailed | QueueGap | ResyncRequired | SubscriptionGone | Overflowed.

End ErrorCode.
Abbreviation ErrorCode := ErrorCode.ErrorCode.

#[export] Instance ErrorCode_eq_dec : EqDecision ErrorCode.
Proof. solve_decision. Defined.

(** The numeric value of a code: the high byte encodes the category. *)
Definition error_code_value (c : ErrorCode) : Z :=
  match c with
  | ErrorCode.EnvironmentChanged => 0x0100
  | ErrorCode.DisplayUnavailable => 0x0101
  | ErrorCode.DeviceInaccessible => 0x0102
  | ErrorCode.TopologyChanged => 0x0103
  | ErrorCode.PermissionNeeded => 0x0200
  | ErrorCode.PermissionDenied => 0x0201
  | ErrorCode.LeaseClosed => 0x0202
  | ErrorCode.LeaseRevoked => 0x0203
  | ErrorCode.OwnershipRequired => 0x0204
  | ErrorCode.WindowNotFound => 0x0300
  | ErrorCode.StaleWindow => 0x0301
  | ErrorCode.GeometryUntrusted => 0x0302
  | ErrorCode.StaleNode => 0x0303
  | ErrorCode.StaleShape => 0x030D
  | ErrorCode.TreeResynced => 0x0304
  | ErrorCode.RuntimeRestarted => 0x0305
  | ErrorCode.TargetDetached => 0x0306
  | ErrorCode.NoMatch => 0x0307
  | ErrorCode.AmbiguousMatch => 0x0308
  | ErrorCode.PropertyAbsent => 0x0309
  | ErrorCode.PropertyUnsupported => 0x030A
  | ErrorCode.PropertyUncached => 0x030B
  | ErrorCode.PropertyBackendFailed => 0x030C
  | ErrorCode.CapabilityUnavailable => 0x0400
  | ErrorCode.ProviderFailed => 0x0401
  | ErrorCode.ProtocolError => 0x0402
  | ErrorCode.InvalidArgument => 0x0500
  | ErrorCode.IllegalFromCallback => 0x0501
  | ErrorCode.UnsupportedCharacter => 0x0502
  | ErrorCode.SessionClosed => 0x0503
  | ErrorCode.SessionExists => 0x0504
  | ErrorCode.SessionNotFound => 0x0505
  | ErrorCode.SessionDead => 0x0506
  | ErrorCode.DeadlineExceeded => 0x0507
  | ErrorCode.Cancelled => 0x0508
  | ErrorCode.InternalFault => 0x0600
  | ErrorCode.NotActionable => 0x0700
  | ErrorCode.Occluded => 0x0701
  | ErrorCode.RouteUnavailable => 0x0702
  | ErrorCode.PossiblyCommitted => 0x0703
  | ErrorCode.VerificationFailed => 0x0704
  | ErrorCode.NeutralizationFailed => 0x0705
  | ErrorCode.QueueGap => 0x0800
  | ErrorCode.ResyncRequired => 0x0801
  | ErrorCode.SubscriptionGone => 0x0802
  | ErrorCode.Overflowed => 0x0803
  end.

Record ErrorDescriptor := MkErrorDescriptor {
  ed_code : ErrorCode;
  ed_name : string;
  ed_category : ErrorCategory;
  ed_default_disposition : ErrorDisposition;
  ed_retry : RetryClass
}.

Definition errorDescriptors : list ErrorDescriptor := [
  MkErrorDescriptor ErrorCode.EnvironmentChanged "environment_changed"
    ErrorCategory.Environment ErrorDisposition.RetrySame RetryClass.ResolveOnly;
  MkErrorDescriptor ErrorCode.DisplayUnavailable "display_unavailable"
    ErrorCategory.Environment ErrorDisposition.Fatal RetryClass.Never;
  MkErrorDescriptor ErrorCode.DeviceInaccessible "device_inaccessible"
    ErrorCategory.Environment ErrorDisposition.Fatal RetryClass.Never;
  MkErrorDescriptor ErrorCode.TopologyChanged "topology_changed"
    ErrorCategory.Environment ErrorDisposition.RetrySame RetryClass.ResolveOnly;
  MkErrorDescriptor ErrorCode.PermissionNeeded "permission_needed"
    ErrorCategory.Permission ErrorDisposition.Fatal RetryClass.Never;
  MkErrorDescriptor ErrorCode.PermissionDenied "permission_denied"
    ErrorCategory.Permission ErrorDisposition.Fatal RetryClass.Never;
  MkErrorDescriptor ErrorCode.LeaseClosed "lease_closed"
    ErrorCategory.Permission ErrorDisposition.Fatal RetryClass.Never;
  MkErrorDescriptor ErrorCode.LeaseRevoked "lease_revoked"
    ErrorCategory.Permission ErrorDisposition.Fatal RetryClass.Never;
  MkErrorDescriptor ErrorCode.OwnershipRequired "ownership_required"
    ErrorCategory.Permission ErrorDisposition.Fatal RetryClass.Never;
  MkErrorDescriptor ErrorCode.WindowNotFound "window_not_found"
    ErrorCategory.Target ErrorDisposition.Fatal RetryClass.Never;
  MkErrorDescriptor ErrorCode.StaleWindow "stale_window"
    ErrorCategory.Target ErrorDisposition.Fatal RetryClass.Never;
  MkErrorDescriptor ErrorCode.GeometryUntrusted "geometry_untrusted"
    ErrorCategory.Target ErrorDisposition.Fatal RetryClass.Never;
  MkErrorDescriptor ErrorCode.StaleNode "stale_node"
    ErrorCategory.Target ErrorDisposition.RetrySame RetryClass.ResolveOnly;
  MkErrorDescriptor ErrorCode.StaleShape "stale_shape"
    ErrorCategory.Target ErrorDisposition.RetrySame RetryClass.ResolveOnly;
  MkErrorDescriptor ErrorCode.TreeResynced "tree_resynced"
    ErrorCategory.Target ErrorDisposition.RetrySame RetryClass.ResolveOnly;
  MkErrorDescriptor ErrorCode.RuntimeRestarted "runtime_restarted"
    ErrorCategory.Target ErrorDisposition.RetrySame RetryClass.ResolveOnly;
  MkErrorDescriptor ErrorCode.TargetDetached "target_detached"
    ErrorCategory.Target ErrorDisposition.RetrySame RetryClass.ResolveOnly;
  MkErrorDescriptor ErrorCode.NoMatch "no_match"
    ErrorCategory.Target ErrorDisposition.Fatal RetryClass.Never;
  MkErrorDescriptor ErrorCode.AmbiguousMatch "ambiguous_match"
    ErrorCategory.Target ErrorDisposition.Fatal RetryClass.Never;
  MkErrorDescriptor ErrorCode.PropertyAbsent "property_absent"
    ErrorCategory.Target ErrorDisposition.Fatal RetryClass.Never;
  MkErrorDescriptor ErrorCode.PropertyUnsupported "property_unsupported"
    ErrorCategory.Target ErrorDisposition.Fatal RetryClass.Never;
  MkErrorDescriptor ErrorCode.PropertyUncached "property_uncached"
    ErrorCategory.Target ErrorDisposition.Fatal RetryClass.Never;
  MkErrorDescriptor ErrorCode.PropertyBackendFailed "property_backend_failed"
    ErrorCategory.Target ErrorDisposition.FallbackNext RetryClass.Never;
  MkErrorDescriptor ErrorCode.CapabilityUnavailable "capability_unavailable"
    ErrorCategory.Protocol ErrorDisposition.FallbackNext RetryClass.Never;
  MkErrorDescriptor ErrorCode.ProviderFailed "provider_failed"
    ErrorCategory.Protocol ErrorDisposition.FallbackNext RetryClass.Never;
  MkErrorDescriptor ErrorCode.ProtocolError "protocol_error"
    ErrorCategory.Protocol ErrorDisposition.Fatal RetryClass.Never;
  MkErrorDescriptor ErrorCode.InvalidArgument "invalid_argument"
    ErrorCategory.Usage ErrorDisposition.Fatal RetryClass.Never;
  MkErrorDescriptor ErrorCode.IllegalFromCallback "illegal_from_callback"
    ErrorCategory.Usage ErrorDisposition.Fatal RetryClass.Never;
  MkErrorDescriptor ErrorCode.UnsupportedCharacter "unsupported_character"
    ErrorCategory.Usage ErrorDisposition.Fatal RetryClass.Never;
  MkErrorDescriptor ErrorCode.SessionClosed "session_closed"
    ErrorCategory.Usage ErrorDisposition.Fatal RetryClass.Never;
  MkErrorDescriptor ErrorCode.SessionExists "session_exists"
    ErrorCategory.Usage ErrorDisposition.Fatal RetryClass.Never;
  MkErrorDescriptor ErrorCode.SessionNotFound "session_not_found"
    ErrorCategory.Usage ErrorDisposition.Fatal RetryClass.Never;
  MkErrorDescriptor ErrorCode.SessionDead "session_dead"
    ErrorCategory.Usage ErrorDisposition.Fatal RetryClass.Never;
  MkErrorDescriptor ErrorCode.DeadlineExceeded "deadline_exceeded"
    ErrorCategory.Usage ErrorDisposition.Fatal RetryClass.Never;
  MkErrorDescriptor ErrorCode.Cancelled "cancelled"
    ErrorCategory.Usage ErrorDisposition.Fatal RetryClass.Never;
  MkErrorDescriptor ErrorCode.InternalFault "internal_fault"
    ErrorCategory.InternalFault ErrorDisposition.Fatal RetryClass.Never;
  MkErrorDescriptor ErrorCode.NotActionable "not_actionable"
    ErrorCategory.Action ErrorDisposition.FallbackNext RetryClass.Never;
  MkErrorDescriptor ErrorCode.Occluded "occluded"
    ErrorCategory.Action ErrorDisposition.FallbackNext RetryClass.Never;
  MkErrorDescriptor ErrorCode.RouteUnavailable "route_unavailable"
    ErrorCategory.Action ErrorDisposition.Fatal RetryClass.Never;
  MkErrorDescriptor ErrorCode.PossiblyCommitted "possibly_committed"
    ErrorCategory.Action ErrorDisposition.Fatal RetryClass.Never;
  MkErrorDescriptor ErrorCode.VerificationFailed "verification_failed"
    ErrorCategory.Action ErrorDisposition.Fatal RetryClass.Never;
  MkErrorDescriptor ErrorCode.NeutralizationFailed "neutralization_failed"
    ErrorCategory.Action ErrorDisposition.Fatal RetryClass.Never;
  MkErrorDescriptor ErrorCode.QueueGap "queue_gap"
    ErrorCategory.Stream ErrorDisposition.Fatal RetryClass.Never;
  MkErrorDescriptor ErrorCode.ResyncRequired "resync_required"
    ErrorCategory.Stream ErrorDisposition.Fatal RetryClass.Never;
  MkErrorDescriptor ErrorCode.SubscriptionGone "subscription_gone"
    ErrorCategory.Stream ErrorDisposition.Fatal RetryClass.Never;
  MkErrorDescriptor ErrorCode.Overflowed "overflowed"
    ErrorCategory.Stream ErrorDisposition.Fatal RetryClass.Never
].

(** The four lookups share their loop: the first descriptor of the code. *)
Definition find_error_descriptor (code : ErrorCode) : option ErrorDescriptor :=
  list_find (λ d, ed_code d = code) errorDescriptors ≫= λ p, Some p.2.

Definition category_of (code : ErrorCode) : ErrorCategory :=
  from_option ed_category ErrorCategory.InternalFault (find_error_descriptor code).

Definition name_of (code : ErrorCode) : string :=
  from_option ed_name "internal_fault" (find_error_descriptor code).

Definition default_disposition_of (code : ErrorCode) : ErrorDisposition :=
  from_option ed_default_disposition ErrorDisposition.Fatal (find_error_descriptor code).

Definition retry_class_of (code : ErrorCode) : RetryClass :=
  from_option ed_retry RetryClass.Never (find_error_descriptor code).

(** [error_descriptors_are_unique], the header's compile-time check. *)
Definition error_descriptors_are_unique : bool :=
  forallb (λ d,
    negb (bool_decide (ed_name d = "")) &&
    bool_decide (length (filter (λ c, ed_code c = ed_code d) errorDescriptors) = 1%nat) &&
    bool_decide (length (filter (λ c, ed_name c = ed_name d) errorDescriptors) = 1%nat))
    errorDescriptors.

Record ProviderAttempt := MkAttempt { pa_provider : string; pa_reason : string }.

Record DiagnosticEntry := MkDiagnostic { de_at : Z; de_message : string }.

Record Error := MkError {
  err_code : ErrorCode;
  err_message : string;
  err_capability : string;
  err_target : string;
  err_attempts : list ProviderAttempt;
  err_disposition : ErrorDisposition;
  err_diagnostics : list DiagnosticEntry
}.

(** [std::expected<T, Error>]. *)
Inductive Result (T : Type) : Type :=
  | Ok (value : T)
  | Err (error : Error).
Arguments Ok {T} value.
Arguments Err {T} error.

Definition fail_with (code : ErrorCode) (message : string) : Error :=
  MkError code message "" "" [] ErrorDisposition.Fatal [].

Definition fail {T} (code : ErrorCode) (message : string) : Result T :=
  Err (fail_with code message).

Definition is_ok {T} (r : Result T) : bool :=
  match r with Ok _ => true | Err _ => false end.

#[export] Instance result_ret : MRet Result := λ _ x, Ok x.

#[export] Instance result_bind : MBind Result := λ _ _ f r,
  match r with Ok x => f x | Err e => Err e end.

Lemma bind_Ok {A B} (m : Result A) (k : A → Result B) y :
  (x ← m; k x) = Ok y → ∃ x, m = Ok x ∧ k x = Ok y.
Proof. destruct m as [x|e]; [by exists x|done]. Qed.

(** Splits a successful computation into its successful steps.  [refused] is for a
    component's own way of failing. *)
Ltac refused H := fail.

Ltac ok_inv :=
  repeat match goal with
  | H : Ok _ = Ok _ |- _ => injection H as H; try subst
  | H : Err _ = Ok _ |- _ => discriminate H
  | H : fail _ _ = Ok _ |- _ => discriminate H
  | H : _ = Ok _ |- _ => refused H
  | H : mbind _ _ = Ok _ |- _ =>
    apply bind_Ok in H; let x := fresh "x" in let Hx := fresh "Hx" in destruct H as (x & Hx & H)
  | H : (if ?b then _ else _) = Ok _ |- _ => destruct b eqn:?
  | H : match ?m with _ => _ end = Ok _ |- _ => destruct m eqn:?
  end.

(** The names of [RetryClass]. *)
Definition retry_class_name : list (RetryClass * string) := [
  (RetryClass.Never, "never");
  (RetryClass.ResolveOnly, "resolve_only");
  (RetryClass.Idempotent, "idempotent");
  (RetryClass.Compensated, "compensated")
].

(** The names of [ErrorDisposition]. *)
Definition error_disposition_name : list (ErrorDisposition * string) := [
  (ErrorDisposition.RetrySame, "retry_same");
  (ErrorDisposition.FallbackNext, "fallback_next");
  (ErrorDisposition.Fatal, "fatal")
].

(** The names of [CommitStatus]. *)
Definition commit_status_name : list (CommitStatus * string) := [
  (CommitStatus.FailedBeforeCommit, "failed_before_commit");
  (CommitStatus.PossiblyCommitted, "possibly_committed");
  (CommitStatus.Committed, "committed");
  (CommitStatus.Verified, "verified")
].

(** The underlying value of a category: its position in the enumeration. *)
Definition error_category_value (c : ErrorCategory) : Z :=
  match c with
  | ErrorCategory.Environment => 0
  | ErrorCategory.Permission => 1
  | ErrorCategory.Target => 2
  | ErrorCategory.Protocol => 3
  | ErrorCategory.Usage => 4
  | ErrorCategory.InternalFault => 5
  | ErrorCategory.Action => 6
  | ErrorCategory.Stream => 7
  end.

(** ** The table is complete and consistent *)

Lemma error_descriptor_found c :
  find_error_descriptor c =
    Some (MkErrorDescriptor c (name_of c) (category_of c) (default_disposition_of c)
            (retry_class_of c)).
Proof. by destruct c. Qed.

Lemma error_names_NoDup : NoDup (ed_name <$> errorDescriptors).
Proof. apply (bool_decide_unpack _). vm_compute. done. Qed.

Lemma error_code_values_NoDup : NoDup ((error_code_value ∘ ed_code) <$> errorDescriptors).
Proof. apply (bool_decide_unpack _). vm_compute. done. Qed.

Lemma NoDup_fmap_inj_on {A B} (f : A → B) (l : list A) x y :
  NoDup (f <$> l) → x ∈ l → y ∈ l → f x = f y → x = y.
Proof.
  intros Hnd [i Hi]%list_elem_of_lookup [j Hj]%list_elem_of_lookup E.
  assert (i = j) as ->; [|congruence].
  apply (NoDup_lookup (f <$> l) i j (f x)); [done|..]; rewrite list_lookup_fmap.
  - by rewrite Hi.
  - by rewrite Hj, E.
Qed.

Lemma error_descriptor_in c :
  MkErrorDescriptor c (name_of c) (category_of c) (default_disposition_of c)
    (retry_class_of c) ∈ errorDescriptors.
Proof.
  pose proof (error_descriptor_found c) as Hf. unfold find_error_descriptor in Hf.
  destruct (list_find _ errorDescriptors) as [[i d]|] eqn:E; [|done].
  cbn in Hf. injection Hf as ->. apply list_find_Some in E as [Hi _].
  by eapply list_elem_of_lookup_2.
Qed.

(** the numeric error codes are stable identities: the high byte of a code's
    value is its category, no two codes share a value or a name, and every code
    has a descriptor of its own, so that the fallbacks of the lookups are never
    taken. *)
Theorem error_codes_consistent :
  error_descriptors_are_unique = true ∧
  (∀ c, Z.shiftr (error_code_value c) 8 = error_category_value (category_of c) + 1) ∧
  (∀ c1 c2, error_code_value c1 = error_code_value c2 → c1 = c2) ∧
  (∀ c1 c2, name_of c1 = name_of c2 → c1 = c2) ∧
  (∀ c, ∃ d, find_error_descriptor c = Some d ∧ ed_code d = c).
Proof.
  split_and!.
  - by vm_compute.
  - by intros [].
  - intros c1 c2 E.
    pose proof (NoDup_fmap_inj_on _ _ _ _ error_code_values_NoDup
      (error_descriptor_in c1) (error_descriptor_in c2) E) as Heq. congruence.
  - intros c1 c2 E.
    pose proof (NoDup_fmap_inj_on _ _ _ _ error_names_NoDup
      (error_descriptor_in c1) (error_descriptor_in c2) E) as Heq. congruence.
  - intros c. eexists. split; [apply error_descriptor_found|done].
Qed.
