(* ===== verification/StepTypes.v ===== *)
(** The vocabulary of command sequences ([include/grab/sequence_types.hpp]): the
    packed step identity, the states of a run and of a step, and the pacing of a
    document.

    Durations are integers counting nanoseconds, unless a name says
    milliseconds; [steady_clock] time points count nanoseconds since its epoch. *)

From S2P Require Import Prelude EnumTable.

Local Open Scope string_scope.

(** ** Enumerations and their names *)

(** What one command reports back to the pump. *)
Module Status.

Inductive Status : Type :=
  | Running | Success | Failure | Count.

End Status.
Abbreviation Status := Status.Status.

#[export] Instance Status_eq_dec : EqDecision Status.
Proof. solve_decision. Defined.

(** The state of a run. *)
Module PlayState.

Inductive PlayState : Type :=
  | Idle | Playing | Paused | Interrupted | Done | Count.

End PlayState.
Abbreviation PlayState := PlayState.PlayState.

#[export] Instance PlayState_eq_dec : EqDecision PlayState.
Proof. solve_decision. Defined.

(** The state of one step. *)
Module StepStatus.

Inductive StepStatus : Type :=
  | Pending | Ready | Running | Succeeded | Failed | Skipped | Count.

End StepStatus.
Abbreviation StepStatus := StepStatus.StepStatus.

#[export] Instance StepStatus_eq_dec : EqDecision StepStatus.
Proof. solve_decision. Defined.

(** Where a step's duration comes from. *)
Module TimingClass.

Inductive TimingClass : Type :=
  | Instant | Timed | Opaque | Count.

End TimingClass.
Abbreviation TimingClass := TimingClass.TimingClass.

#[export] Instance TimingClass_eq_dec : EqDecision TimingClass.
Proof. solve_decision. Defined.

(** The sole authority on inter-step pacing. *)
Module PacingMode.

Inductive PacingMode : Type :=
  | Strict | Grace | Precise | Count.

End PacingMode.
Abbreviation PacingMode := PacingMode.PacingMode.

#[export] Instance PacingMode_eq_dec : EqDecision PacingMode.
Proof. solve_decision. Defined.

(** The names of [Status]. *)
Definition statusNames : list (Status * string) := [
  (Status.Running, "running");
  (Status.Success, "success");
  (Status.Failure, "failure")
].

Definition status_name (value : Status) : string := text_of statusNames value "".

Definition status_from_name (text : string) : option Status := value_of statusNames text.

(** The names of [PlayState]. *)
Definition playStateNames : list (PlayState * string) := [
  (PlayState.Idle, "idle");
  (PlayState.Playing, "playing");
  (PlayState.Paused, "paused");
  (PlayState.Interrupted, "interrupted");
  (PlayState.Done, "done")
].

Definition play_state_name (value : PlayState) : string := text_of playStateNames value "".

Definition play_state_from_name (text : string) : option PlayState := value_of playStateNames text.

(** The names of [StepStatus]. *)
Definition stepStatusNames : list (StepStatus * string) := [
  (StepStatus.Pending, "pending");
  (StepStatus.Ready, "ready");
  (StepStatus.Running, "running");
  (StepStatus.Succeeded, "succeeded");
  (StepStatus.Failed, "failed");
  (StepStatus.Skipped, "skipped")
].

Definition step_status_name (value : StepStatus) : string := text_of stepStatusNames value "".

Definition step_status_from_name (text : string) : option StepStatus := value_of stepStatusNames text.

(** The names of [TimingClass]. *)
Definition timingClassNames : list (TimingClass * string) := [
  (TimingClass.Instant, "instant");
  (TimingClass.Timed, "timed");
  (TimingClass.Opaque, "opaque")
].

Definition timing_class_name (value : TimingClass) : string := text_of timingClassNames value "".

Definition timing_class_from_name (text : string) : option TimingClass := value_of timingClassNames text.

(** The names of [PacingMode]. *)
Definition pacingModeNames : list (PacingMode * string) := [
  (PacingMode.Strict, "strict");
  (PacingMode.Grace, "grace");
  (PacingMode.Precise, "precise")
].

Definition pacing_mode_name (value : PacingMode) : string := text_of pacingModeNames value "".

Definition pacing_mode_from_name (text : string) : option PacingMode := value_of pacingModeNames text.

Close Scope string_scope.

(** ** Step identity *)

Definition maxSteps : nat := Z.to_nat 65536.

(** A [uint16_t]: what [static_cast<Half>] keeps of an integer. *)
Definition half (n : N) : N := (n mod 65536)%N.

(** Index and generation packed into one 32-bit word. *)
Record StepId := StepId_from_bits { bits : N }.

#[export] Instance StepId_eq_dec : EqDecision StepId.
Proof. solve_decision. Defined.

#[export] Program Instance StepId_countable : Countable StepId :=
  inj_countable' bits StepId_from_bits _.
Next Obligation. by intros []. Qed.

#[export] Program Instance StepId_ordkey : OrdKey StepId := {| okey := bits |}.
Next Obligation. intros [x] [y]. cbn. congruence. Qed.

Definition laneShift : N := 16.
Definition indexMask : N := 65535.
Definition firstGeneration : N := 1.

(** [StepId( Half index, Half generation )], whose bits live in a [uint32_t]. *)
Definition mkStepId (index generation : N) : StepId :=
  StepId_from_bits
    (N.lor (N.shiftl generation laneShift mod 4294967296) index)%N.

Definition from_bits (b : N) : StepId := StepId_from_bits b.

Definition nil_id : StepId := StepId_from_bits 0.

Definition index_bits (id : StepId) : N := half (N.land (bits id) indexMask).

Definition generation (id : StepId) : N := half (N.shiftr (bits id) laneShift).

Definition is_nil (id : StepId) : bool := bool_decide (bits id = 0%N).

(** [static_cast<std::size_t>( id.index() )], the subscript every per-step vector
    is read at. *)
Definition index (id : StepId) : nat := N.to_nat (index_bits id).

(** ** Pacing and timing *)

Record PacingOptions := MkPacing {
  mode : PacingMode;
  grace : Z (* milliseconds *)
}.

Definition default_pacing : PacingOptions := MkPacing PacingMode.Strict 0.

Record StepTiming := MkTiming {
  declared_ : option Z;
  call_duration_ : Z;
  server_observed : option Z (* milliseconds *)
}.

(** [duration_cast<nanoseconds>] of a duration in milliseconds. *)
Definition ms_to_ns (ms : Z) : Z := ms * 1000000.

(** ** Packing and unpacking *)

Lemma mkStepId_bits i g :
  (i < 65536)%N → (g < 65536)%N → bits (mkStepId i g) = (g * 65536 + i)%N.
Proof.
  intros Hi Hg. unfold mkStepId, laneShift. cbn.
  rewrite N.shiftl_mul_pow2. change (2 ^ 16)%N with 65536%N.
  rewrite N.mod_small by lia.
  rewrite <- N.lxor_lor, <- N.add_nocarry_lxor; [done|..];
    apply N.bits_inj; intros k; rewrite N.land_spec, N.bits_0.
  all: change 65536%N with (2 ^ 16)%N; destruct (N.ltb_spec k 16).
  all: try (rewrite N.mul_pow2_bits_low by done; done).
  all: destruct (N.eq_dec i 0%N) as [->|]; [by rewrite N.bits_0, andb_false_r|].
  all: rewrite (N.bits_above_log2 i k), andb_false_r; [done|].
  all: apply N.log2_lt_pow2; [lia|]; eapply N.lt_le_trans; [exact Hi|].
  all: change 65536%N with (2 ^ 16)%N; by apply N.pow_le_mono_r.
Qed.

Lemma mkStepId_index_bits i g :
  (i < 65536)%N → (g < 65536)%N → index_bits (mkStepId i g) = i.
Proof.
  intros Hi Hg. unfold index_bits, half, indexMask. rewrite mkStepId_bits by done.
  change 65535%N with (N.ones 16). rewrite N.land_ones.
  change (2 ^ 16)%N with 65536%N. rewrite N.Div0.mod_mod. symmetry.
  apply (N.mod_unique _ _ g); lia.
Qed.

Lemma mkStepId_generation i g :
  (i < 65536)%N → (g < 65536)%N → generation (mkStepId i g) = g.
Proof.
  intros Hi Hg. unfold generation, half, laneShift. rewrite mkStepId_bits by done.
  rewrite N.shiftr_div_pow2. change (2 ^ 16)%N with 65536%N.
  rewrite <- (N.div_unique (g * 65536 + i) 65536 g i) by lia. by rewrite N.mod_small.
Qed.

(** The identity [Sequence::build] gives the step at position [i]. *)
Definition positional (i : nat) : StepId :=
  mkStepId (half (N.of_nat i)) firstGeneration.

Lemma positional_index i : (i < maxSteps)%nat → index (positional i) = i.
Proof.
  intros Hi. unfold maxSteps in Hi. unfold index, positional, half, firstGeneration.
  rewrite N.mod_small, mkStepId_index_bits by lia. lia.
Qed.

Lemma positional_not_nil i : is_nil (positional i) = false.
Proof.
  unfold is_nil, positional, firstGeneration. apply bool_decide_eq_false_2.
  rewrite mkStepId_bits; [lia| |lia]. unfold half. by apply N.mod_lt.
Qed.

Lemma positional_bits i : (i < maxSteps)%nat → bits (positional i) = (65536 + N.of_nat i)%N.
Proof.
  intros Hi. unfold maxSteps in Hi. unfold positional, half, firstGeneration.
  rewrite N.mod_small, mkStepId_bits by lia. lia.
Qed.

Lemma positional_lt i j :
  (i < maxSteps)%nat → (j < maxSteps)%nat → key_lt (positional i) (positional j) ↔ (i < j)%nat.
Proof. intros Hi Hj. unfold key_lt.
  change (bits (positional i) < bits (positional j) ↔ (i < j)%nat)%N.
  rewrite !positional_bits by done. lia. Qed.

Lemma positional_inj i j :
  (i < maxSteps)%nat → (j < maxSteps)%nat → positional i = positional j → i = j.
Proof. intros Hi Hj E%(f_equal index). by rewrite !positional_index in E. Qed.

(** ** The name tables round-trip *)

Ltac solve_roundtrip :=
  match goal with
  | |- value_of ?tb ?t = Some ?v ↔ text_of ?tb ?v ?fb = ?t =>
    apply (enum_table_roundtrip tb v t fb);
    [apply (bool_decide_unpack _); by vm_compute..|];
    apply (bool_decide_unpack _); by vm_compute
  end.

(** packing loses nothing and order is document order: the two halves of a
    step identity come back, an identity made from a live generation is never
    nil, and identities of one generation compare as their positions do. *)
Theorem step_id_packs (i g j : N) :
  (i < 65536)%N → (j < 65536)%N → (0 < g < 65536)%N →
  index_bits (mkStepId i g) = i ∧ generation (mkStepId i g) = g ∧
  is_nil (mkStepId i g) = false ∧ from_bits (bits (mkStepId i g)) = mkStepId i g ∧
  (key_lt (mkStepId i g) (mkStepId j g) ↔ (i < j)%N).
Proof.
  intros Hi Hj Hg. split_and!.
  - apply mkStepId_index_bits; lia.
  - apply mkStepId_generation; lia.
  - apply bool_decide_eq_false_2. rewrite mkStepId_bits; lia.
  - done.
  - unfold key_lt. change (bits (mkStepId i g) < bits (mkStepId j g) ↔ (i < j))%N.
    rewrite !mkStepId_bits by lia. lia.
Qed.

Lemma step_id_packs_witness :
  (65535 < 65536)%N ∧ index_bits (mkStepId 65535 1) = 65535%N.
Proof. split; [lia|]. by apply (step_id_packs 65535 1 0). Defined.

(** Every enumerator with a name is recovered from it and every text names at
    most one enumerator, for the five sequence enumerations; [Count] has no
    name. *)
Theorem sequence_names_roundtrip :
  (∀ v t, v ≠ Status.Count → status_from_name t = Some v ↔ status_name v = t) ∧
  (∀ v t, v ≠ PlayState.Count → play_state_from_name t = Some v ↔ play_state_name v = t) ∧
  (∀ v t, v ≠ StepStatus.Count → step_status_from_name t = Some v ↔ step_status_name v = t) ∧
  (∀ v t, v ≠ TimingClass.Count → timing_class_from_name t = Some v ↔ timing_class_name v = t) ∧
  (∀ v t, v ≠ PacingMode.Count → pacing_mode_from_name t = Some v ↔ pacing_mode_name v = t) ∧
  status_name Status.Count = ""%string ∧ play_state_name PlayState.Count = ""%string ∧
  step_status_name StepStatus.Count = ""%string ∧
  timing_class_name TimingClass.Count = ""%string ∧
  pacing_mode_name PacingMode.Count = ""%string.
Proof.
  unfold status_from_name, status_name, play_state_from_name, play_state_name,
    step_status_from_name, step_status_name, timing_class_from_name, timing_class_name,
    pacing_mode_from_name, pacing_mode_name.
  split_and!; [intros v t Hv; destruct v; try done; solve_roundtrip..|done|done|done|done|done].
Qed.
