(* ===== verification/Geometry.v ===== *)
(** Plain data shared by the sequence commands: points and spaces
    ([include/grab/geometry/point.hpp], [include/grab/space.hpp]), drag options
    ([include/grab/drag.hpp]) and the overlay's shape description
    ([include/grab/overlay.hpp]).

    [double] and [float] are the IEEE formats of the standard library's
    [SpecFloat]; nothing below computes with them. *)

From Stdlib Require Import Floats.SpecFloat.
From S2P Require Import Prelude.

Abbreviation double := spec_float.
Abbreviation float := spec_float.

#[export] Instance spec_float_eq_dec : EqDecision spec_float.
Proof. solve_decision. Defined.

(** ** Points, spaces and transforms *)

(** Coordinates are 32-bit signed integers. *)
Record Point := MkPoint { px : Z; py : Z }.

#[export] Instance Point_eq_dec : EqDecision Point.
Proof. solve_decision. Defined.

Record PointF := MkPointF { fx : double; fy : double }.

#[export] Instance PointF_eq_dec : EqDecision PointF.
Proof. solve_decision. Defined.

Record Curve := MkCurve { control : list PointF }.

#[export] Instance Curve_eq_dec : EqDecision Curve.
Proof. solve_decision. Defined.

Record CoordinateSpaceId := MkSpace { space_value : N }.

#[export] Instance CoordinateSpaceId_eq_dec : EqDecision CoordinateSpaceId.
Proof. solve_decision. Defined.

#[export] Program Instance CoordinateSpaceId_countable : Countable CoordinateSpaceId :=
  inj_countable' space_value MkSpace _.
Next Obligation. by intros []. Qed.

#[export] Program Instance CoordinateSpaceId_ordkey : OrdKey CoordinateSpaceId :=
  {| okey := space_value |}.
Next Obligation. intros [x] [y]. cbn. congruence. Qed.

Record SpacePoint := MkSpacePoint { sp_x : double; sp_y : double; sp_space : CoordinateSpaceId }.

#[export] Instance SpacePoint_eq_dec : EqDecision SpacePoint.
Proof. solve_decision. Defined.

Record SpaceRect := MkSpaceRect {
  sr_x : double; sr_y : double; sr_w : double; sr_h : double; sr_space : CoordinateSpaceId
}.

#[export] Instance SpaceRect_eq_dec : EqDecision SpaceRect.
Proof. solve_decision. Defined.

(** ** Drag options *)

(** [DragOptions::Path]. *)
Module DragPath.

Inductive DragPath : Type :=
  | Linear | Cubic.

End DragPath.
Abbreviation DragPath := DragPath.DragPath.

#[export] Instance DragPath_eq_dec : EqDecision DragPath.
Proof. solve_decision. Defined.

Record DragOptions := MkDragOptions {
  interpolation_steps : Z;
  step_dwell : Z (* milliseconds *);
  drag_path : DragPath
}.

#[export] Instance DragOptions_eq_dec : EqDecision DragOptions.
Proof. solve_decision. Defined.

Definition minimumInterpolationSteps : Z := 1.
Definition maximumInterpolationSteps : Z := 65535.

Definition default_drag_options : DragOptions := MkDragOptions 16 8 DragPath.Linear.

(** ** Pointer buttons *)

(** Wheel directions are buttons, as X11 delivers them. *)
Module PointerButton.

Inductive PointerButton : Type :=
  | Primary | Middle | Secondary | WheelUp | WheelDown | WheelLeft | WheelRight.

End PointerButton.
Abbreviation PointerButton := PointerButton.PointerButton.

#[export] Instance PointerButton_eq_dec : EqDecision PointerButton.
Proof. solve_decision. Defined.

Definition button_code (b : PointerButton) : N :=
  match b with
  | PointerButton.Primary => 1
  | PointerButton.Middle => 2
  | PointerButton.Secondary => 3
  | PointerButton.WheelUp => 4
  | PointerButton.WheelDown => 5
  | PointerButton.WheelLeft => 6
  | PointerButton.WheelRight => 7
  end.

Definition primaryButton : N := button_code PointerButton.Primary.

(** ** Overlay shapes *)

Record Color := MkColor { col_r : N; col_g : N; col_b : N; col_a : N }.

Record StrokeStyle := MkStroke { stroke_color : Color; width_px : float }.

Record FillStyle := MkFill { fill_color : Color }.

(** Durations in milliseconds. *)
Inductive LifetimePolicy :=
  | Persistent
  | Ttl (duration : Z)
  | Fade (duration : Z).

(** Easing curves. *)
Module Easing.

Inductive Easing : Type :=
  | Linear | InQuad | OutQuad | InOutQuad | InCubic | OutCubic | InOutCubic.

End Easing.
Abbreviation Easing := Easing.Easing.

#[export] Instance Easing_eq_dec : EqDecision Easing.
Proof. solve_decision. Defined.

(** Axes. *)
Module Axis.

Inductive Axis : Type :=
  | X | Y.

End Axis.
Abbreviation Axis := Axis.Axis.

#[export] Instance Axis_eq_dec : EqDecision Axis.
Proof. solve_decision. Defined.

(** Edges a reveal starts from. *)
Module Edge.

Inductive Edge : Type :=
  | Min | Max.

End Edge.
Abbreviation Edge := Edge.Edge.

#[export] Instance Edge_eq_dec : EqDecision Edge.
Proof. solve_decision. Defined.

(** Stacking bands. *)
Module Band.

Inductive Band : Type :=
  | Annotation | Trail.

End Band.
Abbreviation Band := Band.Band.

#[export] Instance Band_eq_dec : EqDecision Band.
Proof. solve_decision. Defined.

Record Channel := MkChannel { easing : Easing; channel_duration : Z }.

Record ScaleChannel := MkScale { scale_channel : Channel; scale_from : double; scale_to : double }.

Record OpacityChannel := MkOpacity {
  opacity_channel : Channel; opacity_from : double; opacity_to : double
}.

Record TranslateChannel := MkTranslate {
  translate_channel : Channel; translate_dx : double; translate_dy : double
}.

Record RevealChannel := MkReveal {
  reveal_channel : Channel; reveal_axis : Axis; from_edge : Edge;
  reveal_from : double; reveal_to : double
}.

Record AnimationSpec := MkAnimation {
  anim_scale : option ScaleChannel;
  anim_opacity : option OpacityChannel;
  anim_translate : option TranslateChannel;
  anim_reveal : option RevealChannel
}.

Inductive PathCommand :=
  | MoveTo (point : SpacePoint)
  | LineTo (point : SpacePoint)
  | BezierTo (control_points : list SpacePoint)
  | ClosePath.

Inductive Geometry :=
  | Path (commands : list PathCommand) (closed : bool)
  | Rect (bounds : SpaceRect)
  | Ellipse (center : SpacePoint) (radius_x radius_y : double)
  | Polygon (points : list SpacePoint).

Record Shape := MkShape {
  geometry : Geometry;
  stroke : option StrokeStyle;
  fill : option FillStyle;
  lifetime : LifetimePolicy;
  band : Band;
  z_order : Z;
  animation : option AnimationSpec
}.
