(* ===== verification/Command.v ===== *)
(** Commands: the descriptor table every surface agrees on
    ([include/grab/command_descriptor.hpp]) and the closed variant a sequence
    step carries, with the step itself ([include/grab/command.hpp]). *)

From S2P Require Import Prelude EnumTable Errors StepTypes Geometry.

Local Open Scope string_scope.

(** ** Descriptors *)

(** Every command the program names. *)
Module CommandKind.

Inductive CommandKind : Type :=
  | Doctor | Daemon | Type_ | Click | Drag | DragCurve | Capture | Windows | Focus | Place
  | Batch | Compare | Watch | Key | Session | OverlayTrail | OverlayShape | OverlayFeedback
  | OverlaySketch | Move | Warp | Follow | Press | Release | Scroll | ClickAt | KeyDown
  | KeyUp | Wait | Play | OverlayAdd | OverlayUpdate | OverlayRemove | OverlayClear
  | OverlayGrab | OverlayRelease | OverlayAttach | OverlayDetach | Count.

End CommandKind.
Abbreviation CommandKind := CommandKind.CommandKind.

#[export] Instance CommandKind_eq_dec : EqDecision CommandKind.
Proof. solve_decision. Defined.

(** Whether a command changes the desktop. *)
Module Mutability.

Inductive Mutability : Type :=
  | ReadOnly | Mutating | Count.

End Mutability.
Abbreviation Mutability := Mutability.Mutability.

#[export] Instance Mutability_eq_dec : EqDecision Mutability.
Proof. solve_decision. Defined.

Record CommandDescriptor := MkDescriptor {
  cd_name : string;
  cd_kind : CommandKind;
  cd_retry : RetryClass;
  cd_mutability : Mutability;
  cd_idempotent : bool;
  cd_consent_gated : bool;
  cd_timing : TimingClass;
  cd_blocking : bool
}.

Definition commandDescriptors : list CommandDescriptor := [
  MkDescriptor "system.doctor" CommandKind.Doctor RetryClass.Idempotent
    Mutability.ReadOnly true false TimingClass.Opaque true;
  MkDescriptor "service.daemon" CommandKind.Daemon RetryClass.Never
    Mutability.Mutating false false TimingClass.Opaque false;
  MkDescriptor "input.type" CommandKind.Type_ RetryClass.Never
    Mutability.Mutating false true TimingClass.Instant false;
  MkDescriptor "input.click" CommandKind.Click RetryClass.Never
    Mutability.Mutating false true TimingClass.Instant false;
  MkDescriptor "input.drag" CommandKind.Drag RetryClass.Never
    Mutability.Mutating false true TimingClass.Timed false;
  MkDescriptor "input.drag_curve" CommandKind.DragCurve RetryClass.Never
    Mutability.Mutating false true TimingClass.Timed false;
  MkDescriptor "screen.capture" CommandKind.Capture RetryClass.Idempotent
    Mutability.ReadOnly true true TimingClass.Opaque true;
  MkDescriptor "screen.windows" CommandKind.Windows RetryClass.Idempotent
    Mutability.ReadOnly true true TimingClass.Opaque true;
  MkDescriptor "window.focus" CommandKind.Focus RetryClass.Idempotent
    Mutability.Mutating true true TimingClass.Opaque false;
  MkDescriptor "window.place" CommandKind.Place RetryClass.Idempotent
    Mutability.Mutating true true TimingClass.Opaque false;
  MkDescriptor "screen.batch" CommandKind.Batch RetryClass.Idempotent
    Mutability.ReadOnly true true TimingClass.Opaque true;
  MkDescriptor "image.compare" CommandKind.Compare RetryClass.Idempotent
    Mutability.ReadOnly true false TimingClass.Opaque true;
  MkDescriptor "screen.watch" CommandKind.Watch RetryClass.Idempotent
    Mutability.ReadOnly true true TimingClass.Opaque false;
  MkDescriptor "input.key" CommandKind.Key RetryClass.Never
    Mutability.Mutating false true TimingClass.Instant false;
  MkDescriptor "session.open" CommandKind.Session RetryClass.Never
    Mutability.Mutating false true TimingClass.Opaque false;
  MkDescriptor "overlay.trail" CommandKind.OverlayTrail RetryClass.ResolveOnly
    Mutability.Mutating false false TimingClass.Instant false;
  MkDescriptor "overlay.shape" CommandKind.OverlayShape RetryClass.ResolveOnly
    Mutability.Mutating false false TimingClass.Instant false;
  MkDescriptor "overlay.feedback" CommandKind.OverlayFeedback RetryClass.ResolveOnly
    Mutability.Mutating false false TimingClass.Instant false;
  MkDescriptor "overlay.sketch" CommandKind.OverlaySketch RetryClass.ResolveOnly
    Mutability.Mutating false false TimingClass.Instant false;
  MkDescriptor "input.move" CommandKind.Move RetryClass.Never
    Mutability.Mutating false true TimingClass.Timed false;
  MkDescriptor "input.warp" CommandKind.Warp RetryClass.Never
    Mutability.Mutating false true TimingClass.Instant false;
  MkDescriptor "input.follow" CommandKind.Follow RetryClass.Never
    Mutability.Mutating false true TimingClass.Timed false;
  MkDescriptor "input.press" CommandKind.Press RetryClass.Never
    Mutability.Mutating false true TimingClass.Instant false;
  MkDescriptor "input.release" CommandKind.Release RetryClass.Never
    Mutability.Mutating false true TimingClass.Instant false;
  MkDescriptor "input.scroll" CommandKind.Scroll RetryClass.Never
    Mutability.Mutating false true TimingClass.Instant false;
  MkDescriptor "input.click_at" CommandKind.ClickAt RetryClass.Never
    Mutability.Mutating false true TimingClass.Instant false;
  MkDescriptor "input.key_down" CommandKind.KeyDown RetryClass.Never
    Mutability.Mutating false true TimingClass.Instant false;
  MkDescriptor "input.key_up" CommandKind.KeyUp RetryClass.Never
    Mutability.Mutating false true TimingClass.Instant false;
  MkDescriptor "time.wait" CommandKind.Wait RetryClass.Idempotent
    Mutability.ReadOnly true false TimingClass.Timed false;
  MkDescriptor "system.play" CommandKind.Play RetryClass.Never
    Mutability.Mutating false true TimingClass.Opaque false;
  MkDescriptor "overlay.add" CommandKind.OverlayAdd RetryClass.Never
    Mutability.Mutating false false TimingClass.Instant false;
  MkDescriptor "overlay.update" CommandKind.OverlayUpdate RetryClass.Never
    Mutability.Mutating false false TimingClass.Instant false;
  MkDescriptor "overlay.remove" CommandKind.OverlayRemove RetryClass.Idempotent
    Mutability.Mutating true false TimingClass.Instant false;
  MkDescriptor "overlay.clear" CommandKind.OverlayClear RetryClass.Idempotent
    Mutability.Mutating true false TimingClass.Instant false;
  MkDescriptor "overlay.grab" CommandKind.OverlayGrab RetryClass.Never
    Mutability.Mutating false false TimingClass.Instant false;
  MkDescriptor "overlay.release" CommandKind.OverlayRelease RetryClass.Idempotent
    Mutability.Mutating true false TimingClass.Instant false;
  MkDescriptor "overlay.attach" CommandKind.OverlayAttach RetryClass.Never
    Mutability.Mutating false false TimingClass.Instant false;
  MkDescriptor "overlay.detach" CommandKind.OverlayDetach RetryClass.Idempotent
    Mutability.Mutating true false TimingClass.Instant false
].

Definition list_commands : list CommandDescriptor := commandDescriptors.

(** The linear searches over the table, by kind and by name. *)
Definition find_descriptor (kind : CommandKind) : option CommandDescriptor :=
  list_find (λ d, cd_kind d = kind) commandDescriptors ≫= λ p, Some p.2.

Definition find_descriptor_named (name : string) : option CommandDescriptor :=
  list_find (λ d, cd_name d = name) commandDescriptors ≫= λ p, Some p.2.

Definition command_name (kind : CommandKind) : string :=
  from_option cd_name "" (find_descriptor kind).

Definition command_kind (name : string) : option CommandKind :=
  find_descriptor_named name ≫= λ d, Some (cd_kind d).

Definition timing_class_of (kind : CommandKind) : TimingClass :=
  from_option cd_timing TimingClass.Opaque (find_descriptor kind).

Definition is_blocking_command (kind : CommandKind) : bool :=
  from_option cd_blocking false (find_descriptor kind).

(** The header's compile-time checks. *)
Definition command_names_are_unique : bool :=
  forallb (λ d, bool_decide
    (length (filter (λ c, cd_name c = cd_name d) commandDescriptors) = 1%nat))
    commandDescriptors.

Definition command_names_round_trip : bool :=
  forallb (λ d,
    match command_kind (cd_name d) with
    | Some kind =>
      bool_decide (kind = cd_kind d) &&
      bool_decide (command_name (cd_kind d) = cd_name d)
    | None => false
    end) commandDescriptors.

(** The names of [Mutability]. *)
Definition mutabilityNames : list (Mutability * string) := [
  (Mutability.ReadOnly, "read_only");
  (Mutability.Mutating, "mutating")
].

Definition mutability_name (value : Mutability) : string := text_of mutabilityNames value "".

(** ** The sequence commands

    One constructor per alternative of the variant. Durations of [WaitCommand]
    are nanoseconds; buttons are 8-bit, scroll notches 32-bit signed. *)

Inductive Command :=
  | TypeCommand (text : string)
  | KeyCommand (key : string)
  | KeyDownCommand (key : string)
  | KeyUpCommand (key : string)
  | ClickCommand (button : N)
  | ClickAtCommand (at_ : Point) (button : N)
  | PressCommand (button : N)
  | ReleaseCommand (button : N)
  | ScrollCommand (dx : Z) (dy : Z)
  | WarpCommand (to_ : Point)
  | MoveCommand (from_ : option Point) (to_ : Point) (options : DragOptions)
  | FollowCommand (path : Curve) (options : DragOptions)
  | DragCommand (from_ : Point) (to_ : Point) (button : N) (options : DragOptions)
  | CaptureCommand (output : string) (locator : string)
  | WaitCommand (duration : Z)
  | OverlayAddCommand (handle : string) (shape : Shape)
  | OverlayUpdateCommand (handle : string) (shape : Shape)
  | OverlayRemoveCommand (handle : string)
  | OverlayClearCommand
  | OverlayGrabCommand
  | OverlayReleaseCommand
  | OverlayAttachCommand (handle : string) (offset : option Point)
  | OverlayDetachCommand (handle : string).

Definition kind_of (command : Command) : CommandKind :=
  match command with
  | TypeCommand _ => CommandKind.Type_
  | KeyCommand _ => CommandKind.Key
  | KeyDownCommand _ => CommandKind.KeyDown
  | KeyUpCommand _ => CommandKind.KeyUp
  | ClickCommand _ => CommandKind.Click
  | ClickAtCommand _ _ => CommandKind.ClickAt
  | PressCommand _ => CommandKind.Press
  | ReleaseCommand _ => CommandKind.Release
  | ScrollCommand _ _ => CommandKind.Scroll
  | WarpCommand _ => CommandKind.Warp
  | MoveCommand _ _ _ => CommandKind.Move
  | FollowCommand _ _ => CommandKind.Follow
  | DragCommand _ _ _ _ => CommandKind.Drag
  | CaptureCommand _ _ => CommandKind.Capture
  | WaitCommand _ => CommandKind.Wait
  | OverlayAddCommand _ _ => CommandKind.OverlayAdd
  | OverlayUpdateCommand _ _ => CommandKind.OverlayUpdate
  | OverlayRemoveCommand _ => CommandKind.OverlayRemove
  | OverlayClearCommand => CommandKind.OverlayClear
  | OverlayGrabCommand => CommandKind.OverlayGrab
  | OverlayReleaseCommand => CommandKind.OverlayRelease
  | OverlayAttachCommand _ _ => CommandKind.OverlayAttach
  | OverlayDetachCommand _ => CommandKind.OverlayDetach
  end.

Definition is_sequence_command (kind : CommandKind) : bool :=
  match kind with
  | CommandKind.Type_ | CommandKind.Key | CommandKind.KeyDown | CommandKind.KeyUp
  | CommandKind.Click | CommandKind.ClickAt | CommandKind.Press | CommandKind.Release
  | CommandKind.Scroll | CommandKind.Warp | CommandKind.Move | CommandKind.Follow
  | CommandKind.Drag | CommandKind.Capture | CommandKind.Wait | CommandKind.OverlayAdd
  | CommandKind.OverlayUpdate | CommandKind.OverlayRemove | CommandKind.OverlayClear
  | CommandKind.OverlayGrab | CommandKind.OverlayRelease | CommandKind.OverlayAttach
  | CommandKind.OverlayDetach => true
  | CommandKind.Doctor | CommandKind.Daemon | CommandKind.DragCurve
  | CommandKind.Windows | CommandKind.Focus | CommandKind.Place | CommandKind.Batch
  | CommandKind.Compare | CommandKind.Watch | CommandKind.Session
  | CommandKind.OverlayTrail | CommandKind.OverlayShape | CommandKind.OverlayFeedback
  | CommandKind.OverlaySketch | CommandKind.Play | CommandKind.Count => false
  end.

(** What a step does when its command fails. *)
Module ErrorPolicy.

Inductive ErrorPolicy : Type :=
  | Abort | Continue | Goto | Count.

End ErrorPolicy.
Abbreviation ErrorPolicy := ErrorPolicy.ErrorPolicy.

#[export] Instance ErrorPolicy_eq_dec : EqDecision ErrorPolicy.
Proof. solve_decision. Defined.

(** The names of [ErrorPolicy]. *)
Definition errorPolicyNames : list (ErrorPolicy * string) := [
  (ErrorPolicy.Abort, "abort");
  (ErrorPolicy.Continue, "continue");
  (ErrorPolicy.Goto, "goto")
].

Definition error_policy_name (value : ErrorPolicy) : string := text_of errorPolicyNames value "".

Definition error_policy_from_name (text : string) : option ErrorPolicy :=
  value_of errorPolicyNames text.

(** One node of the document. *)
Record Step := MkStep {
  id : StepId;
  label : string;
  command : Command;
  after : list StepId;
  on_error : ErrorPolicy;
  on_error_target : string;
  extra_grace : Z (* milliseconds *)
}.

(** A step with its [id], or its [after], assigned. *)
Definition with_id (i : StepId) (s : Step) : Step :=
  MkStep i (label s) (command s) (after s) (on_error s) (on_error_target s) (extra_grace s).

Definition with_after (l : list StepId) (s : Step) : Step :=
  MkStep (id s) (label s) (command s) l (on_error s) (on_error_target s) (extra_grace s).

(** ** The table is complete *)

Lemma descriptor_found kind :
  kind ≠ CommandKind.Count → ∃ d, find_descriptor kind = Some d ∧ cd_kind d = kind.
Proof. destruct kind; try done; intros _; by eexists. Qed.

Lemma command_names_NoDup : NoDup (cd_name <$> commandDescriptors).
Proof. apply (bool_decide_unpack _). vm_compute. done. Qed.

Lemma command_kind_Some name kind :
  command_kind name = Some kind → command_name kind = name ∧ kind ≠ CommandKind.Count.
Proof.
  unfold command_kind, find_descriptor_named.
  destruct (list_find _ _) as [[i d]|] eqn:E; [|done]. cbn. intros [= <-].
  apply list_find_Some in E as (Hi & <- & _).
  apply list_elem_of_lookup_2, list_elem_of_In in Hi. clear i.
  unfold commandDescriptors in Hi. cbn [In] in Hi.
  repeat (destruct Hi as [<-|Hi]; [by split|]). done.
Qed.

Lemma command_kind_name kind :
  kind ≠ CommandKind.Count → command_kind (command_name kind) = Some kind.
Proof. by destruct kind. Qed.

(** the 38 command kinds and their verbs are in bijection: every kind below
    [Count] is found again from its name, a verb names at most one kind, two
    kinds never share a verb, and [Count] has none. *)
Theorem command_names_bijective :
  command_names_are_unique = true ∧ command_names_round_trip = true ∧
  (∀ kind, kind ≠ CommandKind.Count → command_kind (command_name kind) = Some kind) ∧
  (∀ name kind, command_kind name = Some kind →
    command_name kind = name ∧ kind ≠ CommandKind.Count) ∧
  command_name CommandKind.Count = "" ∧ length list_commands = 38%nat.
Proof.
  split_and!; [by vm_compute|by vm_compute|apply command_kind_name| |done|done].
  apply command_kind_Some.
Qed.

(** the classification of the commands is coherent: exactly the kinds with a
    payload struct are sequence commands; a kind is idempotent iff its retry
    class says so; no sequence step that drives the seat (consent-gated and
    mutating) is ever retryable; and among the sequence commands the blocking ones are
    exactly those of opaque duration. *)
Theorem sequence_commands_classified :
  (∀ kind, is_sequence_command kind = true ↔ ∃ c, kind_of c = kind) ∧
  Forall (λ d, cd_retry d = RetryClass.Idempotent ↔ cd_idempotent d = true) commandDescriptors ∧
  Forall (λ d, is_sequence_command (cd_kind d) = true → cd_consent_gated d = true →
    cd_mutability d = Mutability.Mutating → cd_retry d = RetryClass.Never) commandDescriptors ∧
  (∀ c, is_blocking_command (kind_of c) = true ↔
        timing_class_of (kind_of c) = TimingClass.Opaque).
Proof.
  split_and!.
  - intros kind. split; [|by intros [[] <-]].
    set (p0 := MkPoint 0 0).
    set (sh := MkShape (Polygon []) None None Persistent Band.Annotation 0 None).
    destruct kind; try done; intros _;
      first [exists (TypeCommand ""); reflexivity
      | exists (KeyCommand ""); reflexivity
      | exists (KeyDownCommand ""); reflexivity
      | exists (KeyUpCommand ""); reflexivity
      | exists (ClickCommand 1); reflexivity
      | exists (ClickAtCommand p0 1); reflexivity
      | exists (PressCommand 1); reflexivity
      | exists (ReleaseCommand 1); reflexivity
      | exists (ScrollCommand 0 0); reflexivity
      | exists (WarpCommand p0); reflexivity
      | exists (MoveCommand None p0 default_drag_options); reflexivity
      | exists (FollowCommand (MkCurve []) default_drag_options); reflexivity
      | exists (DragCommand p0 p0 1 default_drag_options); reflexivity
      | exists (CaptureCommand "" ""); reflexivity
      | exists (WaitCommand 0); reflexivity
      | exists (OverlayAddCommand "" sh); reflexivity
      | exists (OverlayUpdateCommand "" sh); reflexivity
      | exists (OverlayRemoveCommand ""); reflexivity
      | exists (OverlayClearCommand); reflexivity
      | exists (OverlayGrabCommand); reflexivity
      | exists (OverlayReleaseCommand); reflexivity
      | exists (OverlayAttachCommand "" None); reflexivity
      | exists (OverlayDetachCommand ""); reflexivity].
  - unfold commandDescriptors. repeat (apply Forall_cons; split; [cbn; split; intros; congruence|]).
    constructor.
  - unfold commandDescriptors. repeat (apply Forall_cons; split; [cbn; intros; congruence|]).
    constructor.
  - by intros [].
Qed.
