(* ===== verification/Sequence.v ===== *)
(** The immutable document of [kernel/sequence/sequence.hpp] and [.cpp]: a list of
    steps indexed four ways (by position, as a dependency graph, in one
    topological order and by label), and the ancestor relation [goto] is defined
    over.

    [WFSeq] is what [build] establishes and everything downstream relies on. *)

From stdpp Require Import pretty.
From S2P Require Import Prelude Graph Topological Errors StepTypes Command.

(** ** The document *)

(** [DependencyEdge]: an edge carries nothing. *)
Record DependencyEdge := MkDependencyEdge {}.

Definition DependencyGraph : Type := AdjacencyGraph StepId DependencyEdge.

Record Sequence := MkSequence {
  steps_ : list Step;
  graph_ : DependencyGraph;
  order_ : list StepId;
  labels_ : gmap string StepId;
  pacing_ : PacingOptions;
  name_ : string
}.

Definition empty_sequence : Sequence :=
  MkSequence [] empty_graph [] ∅ default_pacing "".

Definition steps (s : Sequence) : list Step := steps_ s.
Definition order (s : Sequence) : list StepId := order_ s.
Definition graph (s : Sequence) : DependencyGraph := graph_ s.
Definition pacing (s : Sequence) : PacingOptions := pacing_ s.
Definition name (s : Sequence) : string := name_ s.

(** [std::to_string] of an unsigned integer. *)
Definition to_string (n : N) : string := pretty n.

(** How an error message names a step: by label, or by position. *)
Definition step_name (step : Step) : string :=
  if decide (label step = "")%string
  then ("at index " +:+ to_string (index_bits (id step)))%string
  else ("'" +:+ label step +:+ "'")%string.

(** [fill_graph]: every node, then every edge; rejections are discarded. *)
Definition fill_graph (steps : list Step) (g : DependencyGraph) : DependencyGraph :=
  let nodes := foldl (λ g step, (add_node g (id step)).2) (clear g) steps in
  foldl (λ g step,
           foldl (λ g predecessor,
                    (add_edge g predecessor (id step) MkDependencyEdge).2)
                 g (after step))
        nodes steps.

(** The label map of [reindex]: [emplace] keeps the first of two equal labels. *)
Definition fill_labels (steps : list Step) : gmap string StepId :=
  foldl (λ m step,
           if decide (label step = "")%string then m
           else match m !! label step with
                | Some _ => m
                | None => <[label step := id step]> m
                end) ∅ steps.

(** [Sequence( const Sequence& )]: the graph and the labels are rebuilt from the
    steps; [order_], [pacing_] and [name_] are copied. *)
Definition copy (other : Sequence) : Sequence :=
  MkSequence (steps_ other) (fill_graph (steps_ other) empty_graph) (order_ other)
    (fill_labels (steps_ other)) (pacing_ other) (name_ other).

(** ** [Sequence::build] *)

(** Identity is positional. *)
Definition stamp (steps : list Step) : list Step :=
  imap (λ i step, with_id (positional i) step) steps.

Fixpoint index_labels (steps : list Step) (labels : gmap string StepId)
    : Result (gmap string StepId) :=
  match steps with
  | [] => Ok labels
  | step :: rest =>
    if decide (label step = "")%string then index_labels rest labels
    else match labels !! label step with
         | Some _ =>
           fail ErrorCode.InvalidArgument
             ("duplicate step label '" +:+ label step +:+ "'")%string
         | None => index_labels rest (<[label step := id step]> labels)
         end
  end.

Fixpoint link_step (step : Step) (predecessors : list StepId) (g : DependencyGraph)
    : Result DependencyGraph :=
  match predecessors with
  | [] => Ok g
  | predecessor :: rest =>
    if negb (contains_node g predecessor) then
      fail ErrorCode.InvalidArgument
        ("step " +:+ step_name step +:+ " depends on step index " +:+
         to_string (index_bits predecessor) +:+ ", which does not exist")%string
    else if decide (predecessor = id step) then
      fail ErrorCode.InvalidArgument
        ("step " +:+ step_name step +:+ " depends on itself")%string
    else match add_edge g predecessor (id step) MkDependencyEdge with
         | (false, _) =>
           fail ErrorCode.InvalidArgument
             ("step " +:+ step_name step +:+ " lists step index " +:+
              to_string (index_bits predecessor) +:+ " as a dependency twice")%string
         | (true, g') => link_step step rest g'
         end
  end.

Fixpoint link_steps (steps : list Step) (g : DependencyGraph) : Result DependencyGraph :=
  match steps with
  | [] => Ok g
  | step :: rest =>
    match link_step step (after step) g with
    | Err e => Err e
    | Ok g' => link_steps rest g'
    end
  end.

Definition build (steps : list Step) (pacing : PacingOptions) (name : string)
    : Result Sequence :=
  if decide (maxSteps < length steps)%nat then
    fail ErrorCode.InvalidArgument
      ("sequence has " +:+ to_string (N.of_nat (length steps)) +:+
       " steps; the maximum is " +:+ to_string (N.of_nat maxSteps))%string
  else
    let steps := stamp steps in
    match index_labels steps ∅ with
    | Err e => Err e
    | Ok labels =>
      let nodes := foldl (λ g step, (add_node g (id step)).2) empty_graph steps in
      match link_steps steps nodes with
      | Err e => Err e
      | Ok g =>
        match topological_order g with
        | None => fail ErrorCode.InvalidArgument "sequence has a dependency cycle"
        | Some order => Ok (MkSequence steps g order labels pacing name)
        end
      end
    end.

(** ** Queries *)

Definition find (s : Sequence) (k : StepId) : option Step :=
  if is_nil k then None else
  match steps_ s !! index k with
  | None => None
  | Some step => if decide (id step = k) then Some step else None
  end.

Definition resolve_label (s : Sequence) (text : string) : option StepId :=
  labels_ s !! text.

(** The body of [ancestors_of]'s inner loop over one in-edge. *)
Definition visit (st : list bool * list StepId * list StepId)
    (e : OutgoingEdge StepId DependencyEdge) : list bool * list StepId * list StepId :=
  let '(seen, found, pending) := st in
  match seen !! index (target e) with
  | Some false =>
    (<[index (target e) := true]> seen, found ++ [target e], pending ++ [target e])
  | _ => st
  end.

(** The cursor walks [pending] while it grows; [None] is a run out of fuel. *)
Fixpoint ancestor_walk (fuel : nat) (g : DependencyGraph) (cursor : nat)
    (st : list bool * list StepId * list StepId) : option (list StepId) :=
  let '(seen, found, pending) := st in
  match pending !! cursor with
  | None => Some found
  | Some node =>
    match fuel with
    | O => None
    | S fuel' => ancestor_walk fuel' g (S cursor) (foldl visit st (in_edges g node))
    end
  end.

(** Every step is pushed at most once after the start, so one iteration more than
    there are steps is enough ([ancestor_walk_total]). *)
Definition ancestors_of (s : Sequence) (k : StepId) : list StepId :=
  if contains_node (graph_ s) k then
    match ancestor_walk (S (length (steps_ s))) (graph_ s) 0
            (replicate (length (steps_ s)) false, [], [k]) with
    | Some found => merge_sort key_le found
    | None => []
    end
  else [].

(** ** What a built document satisfies *)

(** Step [j] is a direct predecessor of step [i], by position. *)
Definition depends (l : list Step) (j i : nat) : Prop :=
  ∃ st, l !! i = Some st ∧ positional j ∈ after st ∧ (j < length l)%nat.

#[export] Instance depends_dec l j i : Decision (depends l j i).
Proof.
  unfold depends. destruct (l !! i) as [st|].
  - destruct (decide (positional j ∈ after st ∧ (j < length l)%nat)) as [H|H].
    + left. exists st. tauto.
    + right. intros (st' & E & H'). injection E as <-. tauto.
  - right. by intros (st & ? & _).
Defined.

Record WFSeq (s : Sequence) : Prop := {
  wfs_size : (length (steps_ s) <= maxSteps)%nat;
  wfs_id : ∀ i st, steps_ s !! i = Some st → id st = positional i;
  wfs_after : ∀ i st p, steps_ s !! i = Some st → p ∈ after st →
    ∃ j, (j < length (steps_ s))%nat ∧ p = positional j ∧ j ≠ i;
  wfs_after_NoDup : ∀ i st, steps_ s !! i = Some st → NoDup (after st);
  wfs_graph : WF (graph_ s);
  wfs_nodes : ∀ k, is_Some (outgoing_ (graph_ s) !! k) ↔
    ∃ i, (i < length (steps_ s))%nat ∧ k = positional i;
  wfs_arc : ∀ a b, arc (graph_ s) a b ↔
    ∃ i st, steps_ s !! i = Some st ∧ b = positional i ∧ a ∈ after st;
  wfs_order : topological_order (graph_ s) = Some (order_ s);
  wfs_labels : ∀ t k, labels_ s !! t = Some k ↔
    t ≠ ""%string ∧ ∃ i st, steps_ s !! i = Some st ∧ label st = t ∧ k = positional i;
  wfs_refill : fill_graph (steps_ s) empty_graph = graph_ s;
  wfs_relabel : fill_labels (steps_ s) = labels_ s
}.

(** What the author of a document must respect for [build] to accept it. *)
Record acceptable (l : list Step) : Prop := {
  acc_size : (length l <= maxSteps)%nat;
  acc_labels : ∀ i j si sj, l !! i = Some si → l !! j = Some sj →
    label si = label sj → label si ≠ ""%string → i = j;
  acc_after : ∀ i st p, l !! i = Some st → p ∈ after st →
    ∃ j, (j < length l)%nat ∧ p = positional j ∧ j ≠ i;
  acc_NoDup : ∀ i st, l !! i = Some st → NoDup (after st);
  acc_acyclic : ∀ i, ¬ tc (depends l) i i
}.

(** ** Stamping and labels *)

Lemma length_stamp l : length (stamp l) = length l.
Proof. apply length_imap. Qed.

Lemma stamp_lookup l i st :
  stamp l !! i = Some st ↔ ∃ s0, l !! i = Some s0 ∧ st = with_id (positional i) s0.
Proof.
  unfold stamp. rewrite list_lookup_imap. destruct (l !! i); cbn; naive_solver.
Qed.

Lemma elem_of_stamp l st :
  st ∈ stamp l ↔ ∃ i s0, l !! i = Some s0 ∧ st = with_id (positional i) s0.
Proof. rewrite list_elem_of_lookup. by setoid_rewrite stamp_lookup. Qed.

(** What a successful pass of [index_labels] did. *)
Lemma index_labels_Ok l m m' :
  index_labels l m = Ok m' →
  (∀ t k, m' !! t = Some k ↔ m !! t = Some k ∨
     t ≠ ""%string ∧ ∃ st, st ∈ l ∧ label st = t ∧ k = id st) ∧
  m' = foldl (λ m step, if decide (label step = "")%string then m
                else match m !! label step with
                     | Some _ => m | None => <[label step := id step]> m end) m l.
Proof.
  revert m. induction l as [|st l IH]; intros m; cbn.
  - intros [= <-]. split; [|done]. intros t k. split; [by left|].
    intros [?|(_ & st & []%elem_of_nil & _)]; done.
  - case_decide as Hl.
    + intros Hi%IH. destruct Hi as [Hm Hf]. split; [|done]. intros t k. rewrite Hm.
      setoid_rewrite elem_of_cons. naive_solver.
    + destruct (m !! label st) eqn:Em; [done|]. intros Hi%IH. destruct Hi as [Hm Hf].
      split; [|done]. intros t k. rewrite Hm, lookup_insert_Some. setoid_rewrite elem_of_cons.
      split; [naive_solver|]. intros [?|(? & st' & [->|Hin] & <- & ->)]; [|naive_solver..].
      destruct (decide (label st = t)); naive_solver.
Qed.

(** It succeeds exactly when no label is there already or occurs twice. *)
Lemma index_labels_is_ok l m :
  is_ok (index_labels l m) = true ↔
  (∀ i st, l !! i = Some st → label st ≠ ""%string → m !! label st = None) ∧
  (∀ i j si sj, l !! i = Some si → l !! j = Some sj → label si = label sj →
     label si ≠ ""%string → i = j).
Proof.
  revert m. induction l as [|st l IH]; intros m; cbn; [naive_solver|].
  case_decide as Hl; [|destruct (m !! label st) as [k|] eqn:Em].
  - rewrite IH. split; intros [H1 H2]; split.
    + intros [|i] s Hs; [naive_solver|]. by eapply H1.
    + intros [|i] [|j] si sj Hi Hj E Hn; cbn in *; simplify_eq; try congruence.
      f_equal. by eapply H2.
    + intros i. apply (H1 (S i)).
    + intros i j si sj Hi Hj E Hn. by injection (H2 (S i) (S j) si sj Hi Hj E Hn).
  - split; [done|]. intros [H1 _]. specialize (H1 0%nat st eq_refl Hl). congruence.
  - rewrite IH. split; intros [H1 H2]; split.
    + intros [|i] s Hs; [naive_solver|]. intros Hn. specialize (H1 i s Hs Hn).
      by apply lookup_insert_None in H1 as [].
    + assert (∀ j sj, l !! j = Some sj → label st = label sj → False) as Hno.
      { intros j sj Hj E. specialize (H1 j sj Hj). rewrite <- E, lookup_insert_eq in H1. naive_solver. }
      intros [|i] [|j] si sj Hi Hj E Hn; cbn in *; simplify_eq; [done| | |].
      * by destruct (Hno j sj).
      * by destruct (Hno i si).
      * f_equal. by eapply H2.
    + intros i s Hs Hn. rewrite lookup_insert_None. split; [by apply (H1 (S i))|].
      intros E. by specialize (H2 0%nat (S i) st s eq_refl Hs E Hl).
    + intros i j si sj Hi Hj E Hn. by injection (H2 (S i) (S j) si sj Hi Hj E Hn).
Qed.

(** ** The graph *)

Lemma add_steps_spec (l : list Step) (g : DependencyGraph) :
  WF g →
  let g' := foldl (λ g step, (add_node g (id step)).2) g l in
  WF g' ∧ (∀ a b, arc g' a b ↔ arc g a b) ∧
  (∀ k, is_Some (outgoing_ g' !! k) ↔ is_Some (outgoing_ g !! k) ∨ ∃ st, st ∈ l ∧ k = id st).
Proof.
  revert g. induction l as [|st l IH]; intros g Hwf; cbn.
  - split_and!; [done..|]. intros k. split; [by left|].
    intros [?|(st & []%elem_of_nil & _)]; done.
  - destruct (IH _ (add_node_WF g (id st) Hwf)) as (Hwf' & Harc & Hn).
    split_and!; [done| |].
    + intros a b. by rewrite Harc, add_node_arc.
    + intros k. rewrite Hn, add_node_nodes. setoid_rewrite elem_of_cons. naive_solver.
Qed.

(** [add_edge] for every predecessor, as [fill_graph] and [link_step] do it. *)
Definition link_all (k : StepId) (g : DependencyGraph) (l : list StepId) : DependencyGraph :=
  foldl (λ g predecessor, (add_edge g predecessor k MkDependencyEdge).2) g l.

Definition linkable (k : StepId) (g : DependencyGraph) (l : list StepId) : Prop :=
  NoDup l ∧ ∀ p, p ∈ l → is_Some (outgoing_ g !! p) ∧ p ≠ k ∧ ¬ arc g p k.

Lemma linkable_cons k g p l :
  WF g → is_Some (outgoing_ g !! k) →
  linkable k g (p :: l) ↔
  (add_edge g p k MkDependencyEdge).1 = true ∧
  linkable k (add_edge g p k MkDependencyEdge).2 l.
Proof.
  intros Hwf Hk. unfold linkable. rewrite NoDup_cons, add_edge_true by done.
  split.
  - intros [[Hp Hnd] Hall]. destruct (Hall p (list_elem_of_here _ _)) as (Hnode & Hne & Harc).
    split; [done|]. split; [done|]. intros q Hq. rewrite add_edge_nodes, add_edge_arc.
    + destruct (Hall q) as (? & ? & ?); [by right|]. split_and!; [done..|].
      intros [?|[-> _]]; done.
    + by apply add_edge_true.
  - intros [(Hne & Hnode & _ & Harc) [Hnd Hall]].
    assert ((add_edge g p k MkDependencyEdge).1 = true) as Htrue by by apply add_edge_true.
    setoid_rewrite add_edge_nodes in Hall.
    split; [split; [|done]|].
    + intros Hp. destruct (Hall p Hp) as (_ & _ & Hn). apply Hn. rewrite add_edge_arc; tauto.
    + intros q [->|Hq]%elem_of_cons; [done|]. destruct (Hall q Hq) as (? & ? & Hn).
      rewrite add_edge_arc in Hn; tauto.
Qed.

Lemma link_all_spec k g l :
  WF g → is_Some (outgoing_ g !! k) → linkable k g l →
  WF (link_all k g l) ∧
  (∀ n, is_Some (outgoing_ (link_all k g l) !! n) ↔ is_Some (outgoing_ g !! n)) ∧
  (∀ a b, arc (link_all k g l) a b ↔ arc g a b ∨ (b = k ∧ a ∈ l)).
Proof.
  revert g. induction l as [|p l IH]; intros g Hwf Hk Hl; cbn.
  - split_and!; [done..|]. intros a b. rewrite elem_of_nil. tauto.
  - apply linkable_cons in Hl as [Ht Hl]; [|done..].
    destruct (IH (add_edge g p k MkDependencyEdge).2) as (H1 & H2 & H3);
      [by apply add_edge_WF|by rewrite add_edge_nodes|done|].
    split_and!; [done| |].
    + intros n. by rewrite H2, add_edge_nodes.
    + intros a b. rewrite H3, add_edge_arc by done. rewrite elem_of_cons. naive_solver.
Qed.

Lemma link_step_Ok step l g :
  WF g → is_Some (outgoing_ g !! id step) →
  match link_step step l g with
  | Ok g' => linkable (id step) g l ∧ g' = link_all (id step) g l
  | Err _ => ¬ linkable (id step) g l
  end.
Proof.
  revert g. induction l as [|p l IH]; intros g Hwf Hk; cbn.
  - split; [|done]. split; [constructor|by intros p Hp%elem_of_nil].
  - destruct (contains_node g p) eqn:Hc; cbn.
    2:{ intros [_ Hl]. destruct (Hl p (list_elem_of_here _ _)) as [Hs _].
        by apply contains_node_true in Hs; congruence. }
    case_decide as Heq.
    { intros [_ Hl]. by destruct (Hl p (list_elem_of_here _ _)) as (_ & ? & _). }
    pose proof (linkable_cons (id step) g p l Hwf Hk) as Hcons.
    pose proof (add_edge_WF g p (id step) MkDependencyEdge Hwf) as Hwf'.
    pose proof (proj2 (add_edge_nodes g p (id step) MkDependencyEdge (id step)) Hk) as Hk'.
    destruct (add_edge g p (id step) MkDependencyEdge) as [[] g'] eqn:E;
      cbn in Hwf', Hk', Hcons; cbv beta iota zeta; [|unfold fail; rewrite Hcons; naive_solver].
    specialize (IH g' Hwf' Hk'). destruct (link_step step l g'); rewrite Hcons; [|naive_solver].
    destruct IH as [? ->]. split; [done|].
    unfold link_all. cbn [foldl]. done.
Qed.

(** The steps that remain to be linked have pairwise distinct identities. *)
Definition links_ok (g : DependencyGraph) (l : list Step) : Prop :=
  ∀ st, st ∈ l → NoDup (after st) ∧ ∀ p, p ∈ after st → is_Some (outgoing_ g !! p) ∧ p ≠ id st.

Lemma link_steps_Ok l g :
  WF g → (∀ st, st ∈ l → is_Some (outgoing_ g !! id st)) → NoDup (id <$> l) →
  (∀ st p, st ∈ l → ¬ arc g p (id st)) →
  match link_steps l g with
  | Ok g' =>
    links_ok g l ∧
    g' = foldl (λ g step, link_all (id step) g (after step)) g l ∧ WF g' ∧
    (∀ n, is_Some (outgoing_ g' !! n) ↔ is_Some (outgoing_ g !! n)) ∧
    (∀ a b, arc g' a b ↔ arc g a b ∨ ∃ st, st ∈ l ∧ b = id st ∧ a ∈ after st)
  | Err _ => ¬ links_ok g l
  end.
Proof.
  revert g. induction l as [|st l IH]; intros g Hwf Hn Hnd Harc; cbn.
  - split_and!; [by intros st Hst%elem_of_nil|done..|]. intros a b.
    split; [by left|]. intros [?|(st & []%elem_of_nil & _)]; done.
  - rewrite fmap_cons, NoDup_cons in Hnd. destruct Hnd as [Hst Hnd].
    pose proof (Hn st (list_elem_of_here _ _)) as Hk.
    pose proof (link_step_Ok st (after st) g Hwf Hk) as Hstep.
    assert (linkable (id st) g (after st) ↔
      NoDup (after st) ∧ ∀ p, p ∈ after st → is_Some (outgoing_ g !! p) ∧ p ≠ id st) as Hlink.
    { unfold linkable. specialize (λ p, Harc st p (list_elem_of_here _ _)). naive_solver. }
    destruct (link_step st (after st) g) as [g1|e]; last first.
    { intros Hl. apply Hstep, Hlink, Hl. by left. }
    destruct Hstep as [Hl ->].
    destruct (link_all_spec (id st) g (after st) Hwf Hk Hl) as (Hwf1 & Hn1 & Harc1).
    assert (∀ st' p, st' ∈ l → ¬ arc (link_all (id st) g (after st)) p (id st')) as Harc2.
    { intros st' p Hin. rewrite Harc1. intros [Ha|[E _]].
      - eapply Harc; [by right|done].
      - apply Hst. rewrite <- E. by apply list_elem_of_fmap_2. }
    assert (∀ st', st' ∈ l → is_Some (outgoing_ (link_all (id st) g (after st)) !! id st'))
      as Hn2 by (intros st' Hin; rewrite Hn1; apply Hn; by right).
    specialize (IH _ Hwf1 Hn2 Hnd Harc2).
    assert (links_ok (link_all (id st) g (after st)) l ↔ links_ok g l) as Hiff.
    { unfold links_ok. by setoid_rewrite Hn1. }
    assert (links_ok g (st :: l) ↔ linkable (id st) g (after st) ∧ links_ok g l) as Hcons.
    { rewrite Hlink. unfold links_ok. setoid_rewrite elem_of_cons. naive_solver. }
    destruct (link_steps l _) as [g'|e]; rewrite Hcons, <- Hiff; [|tauto].
    destruct IH as (? & -> & ? & Hn3 & Harc3). split_and!; [done..| |].
    + intros n. by rewrite Hn3, Hn1.
    + intros a b. rewrite Harc3, Harc1. setoid_rewrite elem_of_cons. naive_solver.
Qed.

(** ** Positions and arcs *)

Lemma depends_lt l j i : depends l j i → (j < length l)%nat ∧ (i < length l)%nat.
Proof. intros (st & Hi & _ & Hj). split; [done|]. by eapply lookup_lt_Some. Qed.

Lemma tc_depends_lt l j i : tc (depends l) j i → (j < length l)%nat ∧ (i < length l)%nat.
Proof.
  induction 1 as [j i Hd|j k i Hd _ IH]; [by apply depends_lt|].
  apply depends_lt in Hd. tauto.
Qed.

Lemma depends_stamp l j i : depends (stamp l) j i ↔ depends l j i.
Proof.
  unfold depends. setoid_rewrite stamp_lookup. rewrite length_stamp. split.
  - intros (st & (s0 & ? & ->) & Ha & ?). eauto.
  - intros (st & ? & ? & ?). eexists. split_and!; [eauto|done..].
Qed.

Section positions.
Context (l : list Step) (g : DependencyGraph).
Hypothesis (Hsize : (length l <= maxSteps)%nat).
Hypothesis (Hafter : ∀ i st p, l !! i = Some st → p ∈ after st →
  ∃ j, (j < length l)%nat ∧ p = positional j ∧ j ≠ i).
Hypothesis (Harc : ∀ a b, arc g a b ↔ ∃ i st, l !! i = Some st ∧ b = positional i ∧ a ∈ after st).

Lemma arc_positions a b :
  arc g a b ↔ ∃ j i, a = positional j ∧ b = positional i ∧ depends l j i.
Proof using Hafter Harc.
  rewrite Harc. split.
  - intros (i & st & Hi & -> & Ha). destruct (Hafter i st a Hi Ha) as (j & Hj & -> & _).
    exists j, i. split_and!; [done..|]. by exists st.
  - intros (j & i & -> & -> & st & Hi & Ha & _). by exists i, st.
Qed.

Lemma tc_arc_positions a b :
  tc (arc g) a b ↔ ∃ j i, a = positional j ∧ b = positional i ∧ tc (depends l) j i.
Proof using Hsize Hafter Harc.
  split.
  - induction 1 as [a b Hab|a c b Hac _ IH].
    + apply arc_positions in Hab as (j & i & -> & -> & Hd). exists j, i.
      split_and!; [done..|]. by apply tc_once.
    + destruct IH as (k & i & -> & -> & Hki).
      apply arc_positions in Hac as (j & k' & -> & E & Hd). exists j, i.
      split_and!; [done..|]. pose proof (tc_depends_lt _ _ _ Hki). pose proof (depends_lt _ _ _ Hd).
      assert (k = k') as ->; [|by eapply tc_l]. apply positional_inj; [lia..|done].
  - intros (j & i & -> & -> & Hd). induction Hd as [j i Hd|j k i Hd _ IH].
    + apply tc_once, arc_positions. eauto.
    + eapply tc_l; [|exact IH]. apply arc_positions. eauto.
Qed.

Lemma acyclic_positions : (∀ x, ¬ tc (arc g) x x) ↔ (∀ i, ¬ tc (depends l) i i).
Proof using Hsize Hafter Harc.
  split.
  - intros H i Hi. apply (H (positional i)), tc_arc_positions. eauto.
  - intros H x (j & i & -> & E & Hd)%tc_arc_positions.
    pose proof (tc_depends_lt _ _ _ Hd). apply positional_inj in E as ->; [|lia..]. by apply H in Hd.
Qed.

End positions.

(** ** [build] *)

Section build.
Context (l : list Step) (pc : PacingOptions) (nm : string).
Hypothesis (Hsize : (length l <= maxSteps)%nat).

Lemma stamp_ids : id <$> stamp l = positional <$> seq 0 (length l).
Proof using Type.
  unfold stamp. rewrite fmap_imap. apply list_eq. intros i.
  rewrite list_lookup_imap, list_lookup_fmap. destruct (l !! i) eqn:E; cbn.
  - rewrite lookup_seq_lt by by eapply lookup_lt_Some. done.
  - rewrite lookup_seq_ge; [done|]. by apply lookup_ge_None.
Qed.

Lemma stamp_ids_NoDup : NoDup (id <$> stamp l).
Proof using Hsize.
  rewrite stamp_ids. apply NoDup_fmap_2_strong; [|apply NoDup_seq].
  intros i j Hi%elem_of_seq Hj%elem_of_seq. apply positional_inj; lia.
Qed.

Definition bare_graph : DependencyGraph :=
  foldl (λ g step, (add_node g (id step)).2) empty_graph (stamp l).

Lemma bare_graph_spec :
  WF bare_graph ∧ (∀ a b, ¬ arc bare_graph a b) ∧
  (∀ k, is_Some (outgoing_ bare_graph !! k) ↔ ∃ i, (i < length l)%nat ∧ k = positional i).
Proof using Type.
  destruct (add_steps_spec (stamp l) empty_graph empty_graph_WF) as (Hwf & Harc & Hn).
  split_and!; [done| |].
  - intros a b Hab%Harc. destruct Hab as [p Hp]. by apply not_elem_of_nil in Hp.
  - intros k. unfold bare_graph. rewrite Hn. cbn. rewrite lookup_empty. split.
    + intros [[]%is_Some_None|(st & Hst & ->)]. apply elem_of_stamp in Hst as (i & s0 & Hi & ->).
      exists i. split; [by eapply lookup_lt_Some|done].
    + intros (i & Hi & ->). right. destruct (lookup_lt_is_Some_2 l i Hi) as [s0 Hs].
      exists (with_id (positional i) s0). split; [|done]. apply elem_of_stamp. eauto.
Qed.

Lemma links_ok_iff :
  links_ok bare_graph (stamp l) ↔
  (∀ i st p, l !! i = Some st → p ∈ after st → ∃ j, (j < length l)%nat ∧ p = positional j ∧ j ≠ i) ∧
  (∀ i st, l !! i = Some st → NoDup (after st)).
Proof using Hsize.
  destruct bare_graph_spec as (_ & _ & Hn). unfold links_ok. setoid_rewrite elem_of_stamp. split.
  - intros H. split.
    + intros i st p Hi Hp. destruct (H (with_id (positional i) st)) as [_ Ha]; [eauto|].
      destruct (Ha p Hp) as [(j & Hj & ->)%Hn Hne]. exists j. split_and!; [done..|]. by intros ->.
    + intros i st Hi. destruct (H (with_id (positional i) st)) as [? _]; eauto.
  - intros [Ha Hnd] _ (i & st & Hi & ->). split; [exact (Hnd i st Hi)|]. intros p Hp.
    destruct (Ha i st p Hi Hp) as (j & Hj & -> & Hne). split; [apply Hn; eauto|].
    cbn. intros E. apply Hne. apply positional_inj in E; [done|lia|].
    apply lookup_lt_Some in Hi. lia.
Qed.

Lemma link_stamped :
  match link_steps (stamp l) bare_graph with
  | Ok g =>
    links_ok bare_graph (stamp l) ∧ WF g ∧
    g = fill_graph (stamp l) empty_graph ∧
    (∀ k, is_Some (outgoing_ g !! k) ↔ ∃ i, (i < length l)%nat ∧ k = positional i) ∧
    (∀ a b, arc g a b ↔ ∃ i st, stamp l !! i = Some st ∧ b = positional i ∧ a ∈ after st)
  | Err _ => ¬ links_ok bare_graph (stamp l)
  end.
Proof using Hsize.
  destruct bare_graph_spec as (Hwf & Harc & Hn).
  pose proof (link_steps_Ok (stamp l) bare_graph Hwf) as Hl.
  destruct (link_steps (stamp l) bare_graph); last first.
  { apply Hl; [|apply stamp_ids_NoDup|intros; apply Harc].
    intros st (i & s0 & Hi & ->)%elem_of_stamp. apply Hn. exists i.
    split; [by eapply lookup_lt_Some|done]. }
  destruct Hl as (? & Hf & ? & Hn' & Harc'); [|apply stamp_ids_NoDup|intros; apply Harc|].
  { intros st (i & s0 & Hi & ->)%elem_of_stamp. apply Hn. exists i.
    split; [by eapply lookup_lt_Some|done]. }
  split_and!; [done..| |].
  - intros k. by rewrite Hn', Hn.
  - intros a b. rewrite Harc'. split.
    + intros [[]%Harc|(st & Hst & -> & Ha)]. apply elem_of_stamp in Hst as (i & s0 & Hi & ->).
      exists i, (with_id (positional i) s0). rewrite stamp_lookup. eauto.
    + intros (i & st & Hi & -> & Ha). right. apply stamp_lookup in Hi as (s0 & Hi & ->).
      eexists. rewrite elem_of_stamp. split_and!; [eauto|done..].
Qed.

End build.

Lemma stamp_labels l m :
  index_labels (stamp l) ∅ = Ok m →
  (∀ t k, m !! t = Some k ↔
    t ≠ ""%string ∧ ∃ i st, stamp l !! i = Some st ∧ label st = t ∧ k = positional i) ∧
  m = fill_labels (stamp l).
Proof.
  intros [Hm Hf]%index_labels_Ok. split; [|done]. intros t k. rewrite Hm, lookup_empty.
  split.
  - intros [?|(Ht & st & Hst & Hl & ->)]; [done|]. split; [done|].
    apply elem_of_stamp in Hst as (i & s0 & Hi & ->). exists i, (with_id (positional i) s0).
    rewrite stamp_lookup. eauto.
  - intros (Ht & i & st & Hi & Hl & ->). right. split; [done|].
    apply stamp_lookup in Hi as (s0 & Hi & ->). exists (with_id (positional i) s0).
    rewrite elem_of_stamp. eauto 10.
Qed.

Lemma build_Ok l pc nm s :
  build l pc nm = Ok s →
  WFSeq s ∧ steps_ s = stamp l ∧ pacing_ s = pc ∧ name_ s = nm.
Proof.
  unfold build. case_decide as Hs; [done|]. apply Nat.nlt_ge in Hs.
  destruct (index_labels (stamp l) ∅) as [m|] eqn:El; [|done].
  fold (bare_graph l). pose proof (link_stamped l Hs) as Hlink.
  destruct (link_steps (stamp l) (bare_graph l)) as [g|]; [|done].
  destruct (topological_order g) as [o|] eqn:Eo; [|done]. intros [= <-].
  split; [|done]. destruct Hlink as (Hok%links_ok_iff & Hwf & -> & Hn & Harc); [|done].
  destruct Hok as [Ha Hnd]. apply stamp_labels in El as [Hlab ->].
  split; cbn; rewrite ?length_stamp; try done.
  - intros i st (s0 & _ & ->)%stamp_lookup. done.
  - intros i st p (s0 & Hi & ->)%stamp_lookup Hp. exact (Ha i s0 p Hi Hp).
  - intros i st (s0 & Hi & ->)%stamp_lookup. exact (Hnd i s0 Hi).
Qed.

Lemma build_accepts l pc nm : is_ok (build l pc nm) = true ↔ acceptable l.
Proof.
  unfold build. case_decide as Hs.
  { split; [done|]. intros [Hsz _ _ _ _]. lia. }
  apply Nat.nlt_ge in Hs. fold (bare_graph l).
  pose proof (index_labels_is_ok (stamp l) ∅) as Hlab.
  assert ((∀ i j si sj, stamp l !! i = Some si → stamp l !! j = Some sj → label si = label sj →
             label si ≠ ""%string → i = j) ↔
          (∀ i j si sj, l !! i = Some si → l !! j = Some sj → label si = label sj →
             label si ≠ ""%string → i = j)) as Hst.
  { split.
    - intros H i j si sj Hi Hj E Hn.
      apply (H i j (with_id (positional i) si) (with_id (positional j) sj));
        rewrite ?stamp_lookup; eauto.
    - intros H i j si sj (s0 & ? & ->)%stamp_lookup (s1 & ? & ->)%stamp_lookup E Hn.
      by apply (H i j s0 s1). }
  rewrite Hst in Hlab. destruct (index_labels (stamp l) ∅); last first.
  { split; [done|]. intros [_ Hl _ _ _]. apply Hlab. split; [|done].
    intros. apply lookup_empty. }
  destruct (proj1 Hlab eq_refl) as [_ Hl]. clear Hlab Hst.
  pose proof (link_stamped l Hs) as Hlink.
  destruct (link_steps (stamp l) (bare_graph l)) as [g|];
    rewrite (links_ok_iff l Hs) in Hlink; last first.
  { split; [done|]. intros [_ _ Ha Hnd _]. exfalso. by apply Hlink. }
  destruct Hlink as ([Ha Hnd] & Hwf & _ & _ & Harc).
  assert ((∀ x, ¬ tc (arc g) x x) ↔ (∀ i, ¬ tc (depends l) i i)) as Hac.
  { apply acyclic_positions; [done..|]. intros a b. rewrite Harc. split.
    - intros (i & st & (s0 & Hi & ->)%stamp_lookup & -> & Hin). eauto.
    - intros (i & st & Hi & -> & Hin). exists i, (with_id (positional i) st).
      rewrite stamp_lookup. eauto. }
  destruct (topological_order g) as [o|] eqn:Eo; split; try done.
  - intros _. split; try done. apply Hac. by apply (topological_order_no_cycle g o).
  - intros [_ _ _ _ Hcyc]. apply topological_order_None in Eo as [x Hx]; [|done].
    by apply (proj2 Hac Hcyc) in Hx.
Qed.

(** ** Lookups in a built document *)

Lemma find_Some s k st :
  WFSeq s → find s k = Some st ↔ ∃ i, steps_ s !! i = Some st ∧ k = positional i.
Proof.
  intros Hs. unfold find. split.
  - destruct (is_nil k); [done|]. destruct (steps_ s !! index k) as [st'|] eqn:E; [|done].
    case_decide as Hk; [|done]. intros [= ->]. exists (index k). split; [done|].
    by rewrite <- (wfs_id s Hs _ _ E), Hk.
  - intros (i & Hi & ->). rewrite positional_not_nil.
    pose proof (lookup_lt_Some _ _ _ Hi). pose proof (wfs_size s Hs).
    rewrite positional_index, Hi by lia. by rewrite decide_True by by eapply wfs_id.
Qed.

Lemma find_positional s i st :
  WFSeq s → steps_ s !! i = Some st → find s (positional i) = Some st.
Proof. intros Hs Hi. apply find_Some; eauto. Qed.

Lemma copy_id s : WFSeq s → copy s = s.
Proof.
  intros Hs. unfold copy. rewrite (wfs_refill s Hs), (wfs_relabel s Hs). by destruct s.
Qed.

(** A position below the step count is the index of its identity. *)
Lemma wfs_index s i : WFSeq s → (i < length (steps_ s))%nat → index (positional i) = i.
Proof. intros Hs Hi. apply positional_index. pose proof (wfs_size s Hs). lia. Qed.

Lemma wfs_arc_positions s a b : WFSeq s →
  arc (graph_ s) a b ↔ ∃ j i, a = positional j ∧ b = positional i ∧ depends (steps_ s) j i.
Proof.
  intros Hs. apply arc_positions; [by apply wfs_after|by apply wfs_arc].
Qed.

Lemma wfs_tc_arc s a b : WFSeq s →
  tc (arc (graph_ s)) a b ↔
  ∃ j i, a = positional j ∧ b = positional i ∧ tc (depends (steps_ s)) j i.
Proof.
  intros Hs. apply tc_arc_positions; [by apply wfs_size|by apply wfs_after|by apply wfs_arc].
Qed.

Lemma wfs_acyclic s i : WFSeq s → ¬ tc (depends (steps_ s)) i i.
Proof.
  intros Hs Hi. apply (topological_order_no_cycle (graph_ s) (order_ s)
    (wfs_graph s Hs) (wfs_order s Hs) (positional i)).
  apply wfs_tc_arc; eauto.
Qed.

(** ** Ancestors *)

Section ancestors.
Context (s : Sequence) (Hs : WFSeq s) (k : StepId).
Implicit Types (seen : list bool) (found pending : list StepId).

Record walk_inv (st : list bool * list StepId * list StepId) : Prop := {
  wi_pending : st.2 = k :: st.1.2;
  wi_length : length st.1.1 = length (steps_ s);
  wi_seen : ∀ i, (i < length (steps_ s))%nat →
    st.1.1 !! i = Some true ↔ positional i ∈ st.1.2;
  wi_NoDup : NoDup st.1.2;
  wi_sound : ∀ a, a ∈ st.1.2 → tc (arc (graph_ s)) a k
}.

Lemma arc_source_position a b :
  arc (graph_ s) a b → ∃ j, (j < length (steps_ s))%nat ∧ a = positional j.
Proof using Hs.
  intros (j & i & -> & -> & Hd)%wfs_arc_positions; [|done].
  apply depends_lt in Hd as [? _]. eauto.
Qed.

Lemma visit_inv st e node :
  walk_inv st → (node = k ∨ node ∈ st.1.2) → arc (graph_ s) (target e) node →
  walk_inv (visit st e) ∧ target e ∈ (visit st e).1.2 ∧ (∃ l, (visit st e).1.2 = st.1.2 ++ l).
Proof using Hs.
  intros [Hp Hlen Hseen Hnd Hsound] Hnode Harc. destruct st as [[seen found] pending]. cbn in *.
  destruct (arc_source_position _ _ Harc) as (j & Hj & Ej). rewrite Ej in *.
  rewrite (wfs_index s j Hs Hj).
  destruct (lookup_lt_is_Some_2 seen j) as [[] Hb]; [lia|..]; rewrite Hb; cbn.
  - split; [by constructor|]. split; [by apply Hseen|]. exists []. by rewrite app_nil_r.
  - assert (positional j ∉ found) as Hnew.
    { rewrite <- Hseen, Hb by done. congruence. }
    split; [|split; [apply elem_of_app; right; by left|by exists [positional j]]].
    split; cbn.
    + by rewrite Hp.
    + by rewrite length_insert.
    + intros i Hi. rewrite list_lookup_insert, elem_of_app, <- Hseen, list_elem_of_singleton by done.
      destruct (decide (j = i)) as [->|Hne].
      * rewrite decide_True by (split; [done|lia]). tauto.
      * rewrite decide_False by tauto. split; [tauto|]. intros [?|E]; [done|].
        pose proof (wfs_size s Hs). apply positional_inj in E; [congruence|lia..].
    + apply NoDup_app. split_and!; [done| |apply NoDup_singleton].
      intros x Hx ->%list_elem_of_singleton. done.
    + intros a [Ha| ->%list_elem_of_singleton]%elem_of_app; [by apply Hsound|].
      destruct Hnode as [->|Hin]; [by apply tc_once|]. eapply tc_l; [done|by apply Hsound].
Qed.

Lemma visit_all_inv es st node :
  walk_inv st → (node = k ∨ node ∈ st.1.2) →
  (∀ e, e ∈ es → arc (graph_ s) (target e) node) →
  walk_inv (foldl visit st es) ∧ (∀ e, e ∈ es → target e ∈ (foldl visit st es).1.2) ∧
  (∃ l, (foldl visit st es).1.2 = st.1.2 ++ l).
Proof using Hs.
  revert st. induction es as [|e es IH]; intros st Hinv Hnode Harc; cbn.
  - split_and!; [done|by intros e He%elem_of_nil|]. exists []. by rewrite app_nil_r.
  - destruct (visit_inv st e node Hinv Hnode (Harc e (list_elem_of_here _ _)))
      as (Hinv' & Hin & l & Hl).
    destruct (IH (visit st e)) as (H1 & H2 & l' & Hl'); [done| | |].
    + rewrite Hl, elem_of_app. tauto.
    + intros e' He'. apply Harc. by right.
    + split_and!; [done| |].
      * intros e' [->|He']%elem_of_cons; [|by apply H2]. rewrite Hl'. apply elem_of_app. by left.
      * exists (l ++ l'). by rewrite Hl', Hl, app_assoc.
Qed.

(** [found] never outgrows the steps. *)
Lemma walk_bounded st : walk_inv st → (length st.1.2 <= length (steps_ s))%nat.
Proof using Hs.
  intros [_ _ _ Hnd Hsound].
  replace (length (steps_ s)) with (length (positional <$> seq 0 (length (steps_ s))))
    by by rewrite length_fmap, length_seq.
  apply NoDup_length_le; [done|]. intros a Ha%Hsound.
  inversion Ha as [? ? Harc|? ? ? Harc _]; subst;
    destruct (arc_source_position _ _ Harc) as (j & Hj & ->);
    apply list_elem_of_fmap_2, elem_of_seq; lia.
Qed.

Lemma ancestor_walk_total fuel cursor st :
  walk_inv st → (cursor <= length st.2)%nat →
  (length (steps_ s) < cursor + fuel)%nat →
  (∀ i x a, (i < cursor)%nat → st.2 !! i = Some x → arc (graph_ s) a x → a ∈ st.1.2) →
  ∃ found, ancestor_walk fuel (graph_ s) cursor st = Some found ∧ NoDup found ∧
    (∀ a, a ∈ found → tc (arc (graph_ s)) a k) ∧
    (∀ x a, x = k ∨ x ∈ found → arc (graph_ s) a x → a ∈ found).
Proof using Hs.
  revert cursor st. induction fuel as [|fuel IH]; intros cursor st Hinv Hc Hf Hclosed;
    pose proof Hinv as [Hp _ _ Hnd Hsound]; pose proof (walk_bounded st Hinv) as Hb;
    destruct st as [[seen found] pending]; cbn in Hp, Hb, Hc, Hclosed, Hnd, Hsound |- *; subst pending.
  all: destruct ((k :: found) !! cursor) as [node|] eqn:E; last first.
  1,3: exists found; split_and!; [done..|]; intros x a Hx Harc;
    assert (x ∈ k :: found) as [i Hi]%list_elem_of_lookup by (rewrite elem_of_cons; tauto);
    apply (Hclosed i x a); [|done..]; apply lookup_ge_None in E;
    apply lookup_lt_Some in Hi; lia.
  - apply lookup_lt_Some in E. cbn in E. lia.
  - assert (node = k ∨ node ∈ found) as Hnode.
    { apply elem_of_cons. by eapply list_elem_of_lookup_2. }
    assert (∀ e, e ∈ in_edges (graph_ s) node → arc (graph_ s) (target e) node) as Harc.
    { intros [a q] He. exists q. by apply (wf_mirror _ (wfs_graph s Hs)). }
    destruct (visit_all_inv (in_edges (graph_ s) node) (seen, found, k :: found) node
      Hinv Hnode Harc) as (Hinv' & Hall & l & Hl).
    apply IH; [done| |lia|].
    * rewrite (wi_pending _ Hinv'), Hl. apply lookup_lt_Some in E. cbn in *.
      rewrite length_app. lia.
    * rewrite (wi_pending _ Hinv'), Hl. intros i x a Hi Hx Ha. cbn in *.
      rewrite app_comm_cons in Hx. rewrite lookup_app_l in Hx
        by (apply lookup_lt_Some in E; cbn in *; lia).
      destruct (decide (i = cursor)) as [->|Hne].
      + assert (node = x) as <- by congruence. destruct Ha as [q Hq].
         apply (wf_mirror _ (wfs_graph s Hs)) in Hq. specialize (Hall _ Hq). cbn in Hall.
         by rewrite <- Hl.
      + apply elem_of_app. left. apply (Hclosed i x a); [lia|done..].
Qed.

Lemma walk_inv_init : walk_inv (replicate (length (steps_ s)) false, [], [k]).
Proof using Type.
  split; cbn; [done|by rewrite length_replicate| |constructor|by intros a ?%elem_of_nil].
  intros i Hi. rewrite lookup_replicate_2, elem_of_nil by done. split; [congruence|done].
Qed.

Lemma ancestors_of_spec :
  NoDup (ancestors_of s k) ∧ StronglySorted key_le (ancestors_of s k) ∧
  ∀ a, a ∈ ancestors_of s k ↔ tc (arc (graph_ s)) a k.
Proof using Hs.
  unfold ancestors_of. destruct (contains_node (graph_ s) k) eqn:Hk.
  - destruct (ancestor_walk_total (S (length (steps_ s))) 0 _ walk_inv_init)
      as (found & -> & Hnd & Hsound & Hclosed); cbn; [lia|lia|intros; lia|].
    split_and!; [by rewrite merge_sort_Permutation|apply (StronglySorted_merge_sort key_le)|].
    intros a. rewrite merge_sort_Permutation. split; [apply Hsound|].
    intros Htc. remember k as b eqn:Eb in Htc.
    assert (b = k ∨ b ∈ found) as Hb by tauto. clear Eb.
    induction Htc as [a b Hab|a c b Hac _ IH]; [by eapply Hclosed|].
    apply (Hclosed c a); [|done]. right. by apply IH.
  - split_and!; [constructor|constructor|]. intros a. split; [by intros ?%elem_of_nil|].
    intros (j & i & -> & -> & Hd)%wfs_tc_arc; [|done]. exfalso.
    assert (contains_node (graph_ s) (positional i) = true); [|congruence].
    apply contains_node_true, wfs_nodes; [done|]. exists i.
    apply tc_depends_lt in Hd as [_ ?]. done.
Qed.

End ancestors.

Lemma elem_of_ancestors s i j : WFSeq s → (i < length (steps_ s))%nat →
  (j < length (steps_ s))%nat →
  positional j ∈ ancestors_of s (positional i) ↔ tc (depends (steps_ s)) j i.
Proof.
  intros Hs Hi Hj. destruct (ancestors_of_spec s Hs (positional i)) as (_ & _ & ->).
  rewrite wfs_tc_arc by done. pose proof (wfs_size s Hs). split; [|eauto].
  intros (j' & i' & E1 & E2 & Hd). pose proof (tc_depends_lt _ _ _ Hd).
  apply positional_inj in E1 as ->; [|lia..]. apply positional_inj in E2 as ->; [|lia..]. done.
Qed.

(** The order of a built document, by position. *)
Lemma order_perm s : WFSeq s → order_ s ≡ₚ positional <$> seq 0 (length (steps_ s)).
Proof.
  intros Hs. pose proof (topological_order_Some _ _ (wfs_graph s Hs) (wfs_order s Hs)) as [Hp _].
  rewrite Hp. apply NoDup_Permutation.
  - apply sorted_keys_NoDup.
  - pose proof (wfs_size s Hs). apply NoDup_fmap_2_strong; [|apply NoDup_seq].
    intros i j Hi%elem_of_seq Hj%elem_of_seq. apply positional_inj; lia.
  - intros x. unfold nodes. rewrite elem_of_sorted_keys, (wfs_nodes s Hs), list_elem_of_fmap.
    setoid_rewrite elem_of_seq. split.
    + intros (i & Hi & ->). exists i. split; [done|lia].
    + intros (i & -> & Hi). exists i. split; [lia|done].
Qed.

Lemma order_forward s i j a b :
  WFSeq s → depends (steps_ s) a b →
  order_ s !! i = Some (positional a) → order_ s !! j = Some (positional b) → (i < j)%nat.
Proof.
  intros Hs Hd Hi Hj.
  apply (topological_order_forward (graph_ s) (order_ s) (positional a) (positional b));
    [by apply wfs_graph|by apply wfs_order| |done..].
  apply wfs_tc_arc; [done|]. exists a, b. split_and!; [done..|]. by apply tc_once.
Qed.

(** A document used to exhibit the theorems' hypotheses: a click, a labelled wait
    after it, and a key after both. *)
Definition demo_steps : list Step := [
  MkStep nil_id "" (ClickCommand 1) [] ErrorPolicy.Abort "" 0;
  MkStep nil_id "pause" (WaitCommand 5000000000) [positional 0] ErrorPolicy.Abort "" 40;
  MkStep nil_id "send" (KeyCommand "Return") [positional 1; positional 0]
    ErrorPolicy.Goto "pause" 0
].

(** ** Theorems *)

(** C6: [build] accepts exactly the well-formed documents: at most [maxSteps]
    steps, non-empty labels pairwise distinct, every dependency an existing other
    step listed once, and no dependency cycle.  Anything else is rejected. *)
Theorem build_accepts_exactly (l : list Step) pc nm :
  is_ok (build l pc nm) = true ↔ acceptable l.
Proof. apply build_accepts. Qed.

(** C7: what [build] returns is a coherent document: steps are the input with
    positional identities and nothing else changed; the graph is well formed, its
    nodes are exactly the steps and it has an edge from one to another exactly when
    the second lists the first among its dependencies; [find] answers exactly the
    positional identities; a label resolves to the step that carries it; [order]
    enumerates the steps once each with every dependency before its dependent;
    and a copy, which rebuilds the graph and the labels from the steps, equals
    the original. *)
Theorem build_establishes (l : list Step) pc nm (s : Sequence) :
  build l pc nm = Ok s →
  steps s = imap (λ i st, with_id (positional i) st) l ∧ pacing s = pc ∧ name s = nm ∧
  WF (graph s) ∧
  (∀ k, contains_node (graph s) k = true ↔ ∃ i, (i < length l)%nat ∧ k = positional i) ∧
  (∀ a b, arc (graph s) a b ↔
    ∃ i j st, l !! j = Some st ∧ (i < length l)%nat ∧ positional i ∈ after st ∧
              a = positional i ∧ b = positional j) ∧
  (∀ k st, find s k = Some st ↔ ∃ i, steps s !! i = Some st ∧ k = positional i) ∧
  (∀ t k, resolve_label s t = Some k ↔
    t ≠ ""%string ∧ ∃ i st, steps s !! i = Some st ∧ label st = t ∧ k = positional i) ∧
  order s ≡ₚ positional <$> seq 0 (length l) ∧
  (∀ a b i j, depends l a b → order s !! i = Some (positional a) →
    order s !! j = Some (positional b) → (i < j)%nat) ∧
  copy s = s.
Proof.
  intros (Hs & Hst & Hp & Hn)%build_Ok.
  split_and!; [done..|by apply wfs_graph| | | | | | |by apply copy_id].
  - intros k. unfold contains_node. rewrite bool_decide_eq_true, (wfs_nodes s Hs), Hst.
    by rewrite length_stamp.
  - intros a b. unfold graph. rewrite (wfs_arc_positions s) by done.
    setoid_rewrite Hst. setoid_rewrite depends_stamp. unfold depends. naive_solver.
  - intros. by apply find_Some.
  - intros. by apply wfs_labels.
  - rewrite <- (length_stamp l), <- Hst. by apply order_perm.
  - intros a b i j Hd. rewrite <- depends_stamp, <- Hst in Hd. by apply order_forward.
Qed.

Lemma build_establishes_witness :
  match build demo_steps default_pacing "demo" with
  | Ok s => copy s = s
  | Err _ => False
  end.
Proof.
  destruct (build demo_steps default_pacing "demo") as [s|e] eqn:E.
  - apply (build_establishes demo_steps default_pacing "demo" s E).
  - revert E. vm_compute. intros E. discriminate E.
Defined.

(** [ancestors_of] is exact: the ascending, duplicate-free list of the steps
    from which the given step can be reached along dependencies, and never the
    step itself.  In particular the breadth-first walk is never cut short by its
    fuel. *)
Theorem ancestors_of_exact (l : list Step) pc nm (s : Sequence) i :
  build l pc nm = Ok s → (i < length l)%nat →
  NoDup (ancestors_of s (positional i)) ∧
  StronglySorted key_le (ancestors_of s (positional i)) ∧
  positional i ∉ ancestors_of s (positional i) ∧
  ∀ a, a ∈ ancestors_of s (positional i) ↔
    ∃ j, (j < length l)%nat ∧ a = positional j ∧ tc (depends l) j i.
Proof.
  intros (Hs & Hst & _)%build_Ok Hi.
  assert (length (steps_ s) = length l) as Hlen by by rewrite Hst, length_stamp.
  assert (∀ j k, tc (depends (steps_ s)) j k ↔ tc (depends l) j k) as Hd.
  { apply tc_iff. intros j k. by rewrite Hst, depends_stamp. }
  destruct (ancestors_of_spec s Hs (positional i)) as (Hnd & Hsort & Hin).
  split_and!; [done..| |].
  - rewrite (elem_of_ancestors s i i) by (done || lia). by apply wfs_acyclic.
  - intros a. rewrite Hin. split.
    + intros (j & i' & -> & E & Htc)%wfs_tc_arc; [|done]. pose proof (wfs_size s Hs).
      pose proof (tc_depends_lt _ _ _ Htc). apply positional_inj in E as <-; [|lia..].
      exists j. rewrite <- Hd. split_and!; [lia|done..].
    + intros (j & Hj & -> & Htc). apply wfs_tc_arc; [done|]. exists j, i. by rewrite Hd.
Qed.

Lemma ancestors_of_exact_witness :
  match build demo_steps default_pacing "demo" with
  | Ok s => positional 2 ∉ ancestors_of s (positional 2)
  | Err _ => False
  end.
Proof.
  destruct (build demo_steps default_pacing "demo") as [s|e] eqn:E.
  - apply (ancestors_of_exact demo_steps default_pacing "demo" s 2 E). cbn. lia.
  - revert E. vm_compute. intros E. discriminate E.
Defined.
