(* ===== verification/SequenceOps.v ===== *)
(** Operations over whole documents ([kernel/sequence/sequence_ops.hpp] and
    [.cpp]): statistics, the planned duration, splicing one document into another,
    and changing the pacing. *)

From S2P Require Import Prelude Graph Topological Errors StepTypes Geometry Command Sequence.

(** ** Per-step figures *)

Definition declared_duration (step : Step) : option Z :=
  match command step with
  | WaitCommand duration => Some duration
  | _ => None
  end.

(** This file's own copy of the pump's [grace_before]. *)
Definition plan_grace_before (step : Step) (pacing : PacingOptions) : Z :=
  match after step with
  | [] => 0
  | _ =>
    match mode pacing with
    | PacingMode.Strict => 0
    | PacingMode.Grace => ms_to_ns (grace pacing)
    | PacingMode.Precise => ms_to_ns (grace pacing + extra_grace step)
    | PacingMode.Count => 0
    end
  end.

Definition drag_options_of (step : Step) : option DragOptions :=
  match command step with
  | MoveCommand _ _ options => Some options
  | FollowCommand _ options => Some options
  | DragCommand _ _ _ options => Some options
  | _ => None
  end.

Definition derivable_duration (step : Step) : option Z :=
  match drag_options_of step with
  | None => None
  | Some options => Some (ms_to_ns (step_dwell options * interpolation_steps options))
  end.

Definition created_handle (step : Step) : option string :=
  match command step with
  | OverlayAddCommand handle _ => if decide (handle = "")%string then None else Some handle
  | _ => None
  end.

Definition shifted (k : StepId) (offset : nat) : StepId :=
  mkStepId (half (N.of_nat (offset + index k))) firstGeneration.

(** The steps nothing depends on, as they will be numbered after a splice. *)
Definition sinks_of (program : Sequence) (offset : nat) : list StepId :=
  merge_sort key_le
    ((λ step, shifted (id step) offset) <$>
     filter (λ step, length (out_edges (graph program) (id step)) = 0%nat) (steps program)).

(** ** Walking a document in its order

    [planned] and the depth of [statistics] share their loop: in [order()], a
    step's figure is its own over the greatest of its predecessors'. *)

Section longest.
Context (weight : Step → Z).

Definition latest (finish : list Z) (predecessors : list StepId) : Z :=
  foldl (λ ready predecessor,
           match finish !! index predecessor with
           | Some f => Z.max ready f
           | None => ready
           end) 0 predecessors.

Definition longest_step (program : Sequence) (st : list Z * Z) (k : StepId) : list Z * Z :=
  let '(finish, total) := st in
  match find program k with
  | None => (finish, total)
  | Some step =>
    let done := latest finish (after step) + weight step in
    (<[index k := done]> finish, Z.max total done)
  end.

Definition longest (program : Sequence) : list Z * Z :=
  foldl (longest_step program) (replicate (length (steps program)) 0, 0) (order program).

End longest.

Definition planned_with (program : Sequence) (pacing : PacingOptions) : Z :=
  (longest (λ step, plan_grace_before step pacing + default 0 (declared_duration step))
     program).2.

Definition planned (program : Sequence) : Z := planned_with program (pacing program).

Definition unestimated_steps (program : Sequence) : nat :=
  length (filter (λ step, declared_duration step = None) (steps program)).

(** ** Statistics *)

Record DocumentStats := MkStats {
  ds_steps : nat;
  ds_edges : nat;
  ds_labels : nat;
  ds_handles : nat;
  ds_max_fan_out : nat;
  ds_max_fan_in : nat;
  ds_depth : nat;
  ds_declared_durations : nat;
  ds_undeclared_durations : nat;
  ds_derivable_durations : nat;
  ds_declared_total : Z;
  ds_derivable_total : Z
}.

(** The running figures of the loop over the steps, with the handles seen. *)
Record StatsLoop := MkLoop {
  sl_labels : nat;
  sl_handles : gset string;
  sl_max_fan_out : nat;
  sl_max_fan_in : nat;
  sl_declared : nat;
  sl_undeclared : nat;
  sl_derivable : nat;
  sl_declared_total : Z;
  sl_derivable_total : Z
}.

Definition count_step (program : Sequence) (l : StatsLoop) (step : Step) : StatsLoop :=
  MkLoop
    (if decide (label step = "")%string then sl_labels l else S (sl_labels l))
    (match created_handle step with
     | Some handle => {[handle]} ∪ sl_handles l
     | None => sl_handles l
     end)
    (Nat.max (sl_max_fan_out l) (length (out_edges (graph program) (id step))))
    (Nat.max (sl_max_fan_in l) (length (in_edges (graph program) (id step))))
    (match declared_duration step with Some _ => S (sl_declared l) | None => sl_declared l end)
    (match declared_duration step with Some _ => sl_undeclared l | None => S (sl_undeclared l) end)
    (match derivable_duration step with Some _ => S (sl_derivable l) | None => sl_derivable l end)
    (sl_declared_total l + default 0 (declared_duration step))
    (sl_derivable_total l + default 0 (derivable_duration step)).

Definition statistics (program : Sequence) : DocumentStats :=
  let l := foldl (count_step program) (MkLoop 0 ∅ 0 0 0 0 0 0 0) (steps program) in
  MkStats (length (steps program)) (edge_count (graph program)) (sl_labels l)
    (size (sl_handles l)) (sl_max_fan_out l) (sl_max_fan_in l)
    (Z.to_nat (longest (λ _, 1) program).2)
    (sl_declared l) (sl_undeclared l) (sl_derivable l)
    (sl_declared_total l) (sl_derivable_total l).

(** ** Splicing *)

(** [step.after] with the first [at_] replaced by the sinks, where it is listed. *)
Fixpoint rewire (at_ : StepId) (sinks : list StepId) (l : list StepId) : list StepId :=
  match l with
  | [] => []
  | x :: rest => if decide (x = at_) then sinks ++ rest else x :: rewire at_ sinks rest
  end.

(** One step of the inserted document, renumbered. *)
Definition graft (at_ : StepId) (offset : nat) (step : Step) : Step :=
  with_after (match after step with
              | [] => [at_]
              | l => (λ predecessor, shifted predecessor offset) <$> l
              end)
    (with_id (shifted (id step) offset) step).

Definition merged_steps (host : Sequence) (at_ : StepId) (insert : Sequence) : list Step :=
  match steps insert with
  | [] => steps host
  | _ =>
    let offset := length (steps host) in
    let sinks := sinks_of insert offset in
    ((λ step, with_after (rewire at_ sinks (after step)) step) <$> steps host) ++
    (graft at_ offset <$> steps insert)
  end.

Definition splice (host : Sequence) (at_ : StepId) (insert : Sequence) : Result Sequence :=
  match find host at_ with
  | None =>
    fail ErrorCode.InvalidArgument
      ("cannot splice at step index " +:+ to_string (index_bits at_) +:+
       ": the host sequence has no such step")%string
  | Some _ =>
    let offset := length (steps host) in
    if decide (maxSteps < offset + length (steps insert))%nat then
      fail ErrorCode.InvalidArgument
        ("splicing " +:+ to_string (N.of_nat (length (steps insert))) +:+
         " steps into a sequence of " +:+ to_string (N.of_nat offset) +:+
         " would exceed the maximum of " +:+ to_string (N.of_nat maxSteps))%string
    else
      match list_find (λ step, label step ≠ ""%string ∧
                               is_Some (resolve_label host (label step))) (steps insert) with
      | Some (_, step) =>
        fail ErrorCode.InvalidArgument
          ("spliced step label '" +:+ label step +:+
           "' already exists in the host sequence")%string
      | None => build (merged_steps host at_ insert) (pacing host) (name host)
      end
  end.

(** ** Validation and pacing *)

(** Pass-through by decision. *)
Definition validate (program : Sequence) : Result unit := Ok tt.

Definition with_pacing (program : Sequence) (pacing : PacingOptions) : Result Sequence :=
  if decide (mode (Sequence.pacing program) = mode pacing ∧
             grace (Sequence.pacing program) = grace pacing)
  then Ok (copy program)
  else build (steps program) pacing (name program).

(** ** The longest walk *)

Lemma latest_ext f g l :
  (∀ k, k ∈ l → f !! index k = g !! index k) → latest f l = latest g l.
Proof.
  unfold latest. generalize 0. induction l as [|k l IH]; intros b Hk; cbn; [done|].
  rewrite <- (Hk k) by by left. apply IH. intros k' Hk'. apply Hk. by right.
Qed.

Lemma latest_bounds f l :
  0 <= latest f l ∧ (∀ k v, k ∈ l → f !! index k = Some v → v <= latest f l) ∧
  (latest f l = 0 ∨ ∃ k v, k ∈ l ∧ f !! index k = Some v ∧ latest f l = v).
Proof.
  unfold latest.
  assert (∀ b, let m := foldl (λ ready k, match f !! index k with
      | Some v => Z.max ready v | None => ready end) b l in
    b <= m ∧ (∀ k v, k ∈ l → f !! index k = Some v → v <= m) ∧
    (m = b ∨ ∃ k v, k ∈ l ∧ f !! index k = Some v ∧ m = v)) as H; [|apply H].
  induction l as [|k l IH]; intros b; cbn.
  - split_and!; [lia|by intros k v ?%elem_of_nil|by left].
  - specialize (IH (match f !! index k with Some v => Z.max b v | None => b end)).
    destruct IH as (H1 & H2 & H3). setoid_rewrite elem_of_cons.
    destruct (f !! index k) as [v|] eqn:E.
    + split_and!; [lia| |].
      * intros k' v' [->|Hk]; [|by apply H2]. rewrite E. intros [= <-]. lia.
      * destruct H3 as [->|(k' & v' & ? & ? & ?)]; [|right; eauto 10].
        destruct (Z.max_spec b v) as [[? ->]|[? ->]]; [right; eauto 10|by left].
    + split_and!; [done| |destruct H3 as [?|(k' & v' & ? & ? & ?)]; [by left|right; eauto 10]].
      intros k' v' [->|Hk]; [by rewrite E|by apply H2].
Qed.

Lemma foldr_max_nonneg (l : list Z) : 0 <= foldr Z.max 0 l.
Proof. induction l; cbn; lia. Qed.

Lemma foldr_max_insert (l : list Z) i v :
  l !! i = Some 0 → foldr Z.max 0 (<[i := v]> l) = Z.max (foldr Z.max 0 l) v.
Proof.
  revert i. induction l as [|x l IH]; intros [|i]; try done; cbn.
  - intros [= ->]. pose proof (foldr_max_nonneg l). lia.
  - intros Hi. rewrite IH by done. lia.
Qed.

Lemma foldr_max_attained (l : list Z) :
  foldr Z.max 0 l = 0 ∨ ∃ i, l !! i = Some (foldr Z.max 0 l).
Proof.
  induction l as [|x l IH]; cbn; [by left|].
  destruct (Z.max_spec x (foldr Z.max 0 l)) as [[_ ->]|[_ ->]].
  - destruct IH as [->|[i Hi]]; [by left|right; by exists (S i)].
  - right. by exists 0%nat.
Qed.

Lemma foldr_max_le (l : list Z) i v : l !! i = Some v → v <= foldr Z.max 0 l.
Proof.
  revert i. induction l as [|x l IH]; intros [|i]; try done; cbn; [intros [= ->]; lia|].
  intros Hi%IH. lia.
Qed.

Section longest_spec.
Context (weight : Step → Z) (s : Sequence) (Hs : WFSeq s).

Record longest_inv (pre : list StepId) (finish : list Z) (total : Z) : Prop := {
  li_length : length finish = length (steps_ s);
  li_done : ∀ i st, steps_ s !! i = Some st → positional i ∈ pre →
    finish !! i = Some (latest finish (after st) + weight st);
  li_todo : ∀ i, (i < length (steps_ s))%nat → positional i ∉ pre → finish !! i = Some 0;
  li_total : total = foldr Z.max 0 finish
}.

Lemma longest_step_inv pre suf k finish total :
  order_ s = pre ++ k :: suf → longest_inv pre finish total →
  longest_inv (pre ++ [k]) (longest_step weight s (finish, total) k).1
    (longest_step weight s (finish, total) k).2.
Proof using Hs.
  intros Ho [Hlen Hdone Htodo Htot].
  assert (NoDup (order_ s)) as Hnd.
  { rewrite (order_perm s Hs). pose proof (wfs_size s Hs).
    apply NoDup_fmap_2_strong; [|apply NoDup_seq].
    intros i j Hi%elem_of_seq Hj%elem_of_seq. apply positional_inj; lia. }
  assert (order_ s !! length pre = Some k) as Hk by (rewrite Ho; by apply list_lookup_middle).
  assert (k ∈ order_ s) as Hin by by eapply list_elem_of_lookup_2.
  rewrite (order_perm s Hs), list_elem_of_fmap in Hin. destruct Hin as (i & -> & Hi%elem_of_seq).
  destruct (lookup_lt_is_Some_2 (steps_ s) i) as [st Hst]; [lia|].
  assert (∀ j, (j < length (steps_ s))%nat → index (positional j) = j) as Hix
    by (intros; by apply (wfs_index s)).
  unfold longest_step. rewrite (find_positional s i st Hs Hst), Hix by lia. cbn [fst snd].
  set (v := latest finish (after st) + weight st).
  assert (positional i ∉ pre) as Hnew.
  { rewrite Ho in Hnd. apply NoDup_app in Hnd as (_ & Hd & _). intros Hp. apply (Hd _ Hp). by left. }
  assert (∀ j stj, steps_ s !! j = Some stj → positional j ∈ pre ++ [positional i] →
    latest (<[i := v]> finish) (after stj) = latest finish (after stj)) as Hkeep.
  { intros j stj Hj Hjp. apply latest_ext. intros p Hp.
    destruct (wfs_after s Hs j stj p Hj Hp) as (q & Hq & -> & Hqj). rewrite Hix by done.
    rewrite list_lookup_insert_ne; [done|]. intros <-.
    apply elem_of_app in Hjp as [Hjp|E%list_elem_of_singleton].
    - apply list_elem_of_lookup in Hjp as [a Ha]. pose proof (lookup_lt_Some _ _ _ Ha).
      assert (order_ s !! a = Some (positional j)) as Ha' by (rewrite Ho; by apply lookup_app_l_Some).
      assert (depends (steps_ s) i j) as Hd by (exists stj; done).
      pose proof (order_forward s _ _ i j Hs Hd Hk Ha'). lia.
    - pose proof (wfs_size s Hs). pose proof (lookup_lt_Some _ _ _ Hj).
      apply Hqj. apply positional_inj in E; lia. }
  split.
  - by rewrite length_insert.
  - intros j stj Hj Hjp. rewrite (Hkeep j stj Hj Hjp). destruct (decide (j = i)) as [->|Hne].
    + rewrite list_lookup_insert_eq by lia. unfold v. congruence.
    + rewrite list_lookup_insert_ne by done. apply Hdone; [done|].
      apply elem_of_app in Hjp as [?|E%list_elem_of_singleton]; [done|exfalso; apply Hne].
      pose proof (wfs_size s Hs). pose proof (lookup_lt_Some _ _ _ Hj).
      apply positional_inj in E; lia.
  - intros j Hj Hjp. rewrite elem_of_app, list_elem_of_singleton in Hjp.
    rewrite list_lookup_insert_ne by naive_solver. apply Htodo; [done|tauto].
  - rewrite foldr_max_insert; [by rewrite Htot|]. apply Htodo; [lia|done].
Qed.

Lemma longest_spec :
  longest_inv (order_ s) (longest weight s).1 (longest weight s).2.
Proof using Hs.
  assert (∀ suf pre finish total, order_ s = pre ++ suf → longest_inv pre finish total →
    longest_inv (order_ s) (foldl (longest_step weight s) (finish, total) suf).1
      (foldl (longest_step weight s) (finish, total) suf).2) as H.
  { induction suf as [|k suf IH]; intros pre finish total Ho Hinv; cbn [foldl fst snd].
    - by rewrite Ho, app_nil_r.
    - pose proof (longest_step_inv pre suf k finish total Ho Hinv) as Hinv'.
      destruct (longest_step weight s (finish, total) k) as [f' t'].
      apply (IH (pre ++ [k])); [|done]. by rewrite <- app_assoc. }
  apply (H _ []); [done|]. split.
  - by rewrite length_replicate.
  - by intros i st _ ?%elem_of_nil.
  - intros i Hi _. by apply lookup_replicate_2.
  - induction (length (steps s)); cbn; lia.
Qed.

(** Chains of dependencies, last step first, and their weight. *)
Inductive dep_path : list nat → Prop :=
  | dep_one i : (i < length (steps_ s))%nat → dep_path [i]
  | dep_cons i j rest :
      depends (steps_ s) j i → dep_path (j :: rest) → dep_path (i :: j :: rest).

Definition path_weight (path : list nat) : Z :=
  foldr (λ i acc, from_option weight 0 (steps_ s !! i) + acc) 0 path.

Lemma finish_at i st :
  steps_ s !! i = Some st →
  (longest weight s).1 !! i = Some (latest (longest weight s).1 (after st) + weight st).
Proof using Hs.
  intros Hst. apply (li_done _ _ _ longest_spec); [done|].
  rewrite (order_perm s Hs). apply list_elem_of_fmap_2, elem_of_seq.
  apply lookup_lt_Some in Hst. lia.
Qed.

Lemma path_le_finish i rest :
  dep_path (i :: rest) → ∃ v, (longest weight s).1 !! i = Some v ∧ path_weight (i :: rest) <= v.
Proof using Hs.
  revert i. induction rest as [|j rest IH]; intros i Hp.
  - inversion Hp as [? Hi|]; subst. destruct (lookup_lt_is_Some_2 _ _ Hi) as [st Hst].
    eexists. split; [by apply finish_at|]. cbn. rewrite Hst. cbn.
    pose proof (latest_bounds (longest weight s).1 (after st)). lia.
  - inversion Hp as [|? ? ? Hd Hp']; subst. destruct (IH j Hp') as (v & Hv & Hle).
    pose proof Hd as (st & Hst & Hin & Hj).
    eexists. split; [by apply finish_at|].
    change (path_weight (i :: j :: rest)) with
      (from_option weight 0 (steps_ s !! i) + path_weight (j :: rest)).
    rewrite Hst. cbn [from_option].
    destruct (latest_bounds (longest weight s).1 (after st)) as (_ & Hmax & _).
    specialize (Hmax (positional j) v Hin). rewrite (wfs_index s) in Hmax by done.
    specialize (Hmax Hv). lia.
Qed.

Lemma finish_is_path i v :
  (longest weight s).1 !! i = Some v → ∃ rest, dep_path (i :: rest) ∧ path_weight (i :: rest) = v.
Proof using Hs.
  assert (∀ a i v, order_ s !! a = Some (positional i) → (i < length (steps_ s))%nat →
    (longest weight s).1 !! i = Some v →
    ∃ rest, dep_path (i :: rest) ∧ path_weight (i :: rest) = v) as H.
  { intros a. induction (lt_wf a) as [a _ IH]. intros i0 v0 Ha Hi Hv.
    destruct (lookup_lt_is_Some_2 _ _ Hi) as [st Hst]. rewrite (finish_at i0 st Hst) in Hv.
    injection Hv as <-.
    destruct (latest_bounds (longest weight s).1 (after st)) as (_ & _ & [E|(k & w & Hk & Hw & E)]).
    - exists []. split; [by constructor|]. cbn. rewrite Hst, E. cbn. lia.
    - destruct (wfs_after s Hs i0 st k Hst Hk) as (j & Hj & -> & _).
      rewrite (wfs_index s) in Hw by done.
      assert (depends (steps_ s) j i0) as Hd by by exists st.
      assert (positional j ∈ order_ s) as [b Hb]%list_elem_of_lookup.
      { rewrite (order_perm s Hs). apply list_elem_of_fmap_2, elem_of_seq. lia. }
      pose proof (order_forward s b a j i0 Hs Hd Hb Ha) as Hlt.
      destruct (IH b Hlt j w Hb Hj Hw) as (rest & Hp & Hsum). exists (j :: rest).
      split; [by constructor|].
      change (path_weight (i0 :: j :: rest)) with
        (from_option weight 0 (steps_ s !! i0) + path_weight (j :: rest)).
      rewrite Hst, E, Hsum. cbn. lia. }
  intros Hv. assert (i < length (steps_ s))%nat as Hi.
  { rewrite <- (li_length _ _ _ longest_spec). by eapply lookup_lt_Some. }
  assert (positional i ∈ order_ s) as [a Ha]%list_elem_of_lookup.
  { rewrite (order_perm s Hs). apply list_elem_of_fmap_2, elem_of_seq. lia. }
  by eapply H.
Qed.

Lemma longest_is_critical :
  (∀ path, dep_path path → path_weight path <= (longest weight s).2) ∧
  ((longest weight s).2 = 0 ∨
   ∃ path, dep_path path ∧ path_weight path = (longest weight s).2).
Proof using Hs.
  rewrite (li_total _ _ _ longest_spec). split.
  - intros [|i rest] Hp; [inversion Hp|]. destruct (path_le_finish i rest Hp) as (v & Hv & Hle).
    pose proof (foldr_max_le _ _ _ Hv). lia.
  - destruct (foldr_max_attained (longest weight s).1) as [?|[i Hi]]; [by left|right].
    destruct (finish_is_path _ _ Hi) as (rest & Hp & E). eauto.
Qed.

End longest_spec.

(** ** Rebuilding *)

Lemma wfs_stamp s : WFSeq s → stamp (steps_ s) = steps_ s.
Proof.
  intros Hs. apply list_eq. intros i. apply option_eq. intros st. rewrite stamp_lookup. split.
  - intros (s0 & Hi & ->). rewrite Hi. f_equal.
    rewrite <- (wfs_id s Hs i s0 Hi). by destruct s0.
  - intros Hi. exists st. split; [done|]. rewrite <- (wfs_id s Hs i st Hi). by destruct st.
Qed.

Lemma wfs_acceptable s : WFSeq s → acceptable (steps_ s).
Proof.
  intros Hs. split; [by apply wfs_size| |by apply wfs_after|by apply wfs_after_NoDup|].
  - intros i j si sj Hi Hj E Hn.
    assert (∀ m sm, steps_ s !! m = Some sm → label sm = label si →
      labels_ s !! label si = Some (positional m)) as H.
    { intros m sm Hm Em. apply (wfs_labels s Hs). split; [done|]. eauto. }
    pose proof (H i si Hi eq_refl). pose proof (H j sj Hj (eq_sym E)).
    pose proof (wfs_size s Hs). pose proof (lookup_lt_Some _ _ _ Hi).
    pose proof (lookup_lt_Some _ _ _ Hj). apply positional_inj; [lia..|congruence].
  - intros i. by apply wfs_acyclic.
Qed.

Lemma rebuild s pc nm :
  WFSeq s → build (steps_ s) pc nm = Ok (MkSequence (steps_ s) (graph_ s) (order_ s) (labels_ s) pc nm).
Proof.
  intros Hs. assert (is_ok (build (steps_ s) pc nm) = true) as Hok.
  { by apply build_accepts, wfs_acceptable. }
  destruct (build (steps_ s) pc nm) as [s'|] eqn:E; [|done].
  apply build_Ok in E as (Hs' & Hst & Hp & Hn). rewrite (wfs_stamp s Hs) in Hst.
  assert (graph_ s' = graph_ s) as Hg.
  { by rewrite <- (wfs_refill s' Hs'), Hst, (wfs_refill s Hs). }
  assert (order_ s' = order_ s) as Ho.
  { pose proof (wfs_order s' Hs') as E1. pose proof (wfs_order s Hs) as E2. congruence. }
  assert (labels_ s' = labels_ s) as Hl.
  { by rewrite <- (wfs_relabel s' Hs'), Hst, (wfs_relabel s Hs). }
  destruct s'. cbn in *. by subst.
Qed.

(** ** Statistics *)

Lemma count_steps_spec program l st :
  let r := foldl (count_step program) st l in
  (sl_declared r + sl_undeclared r = sl_declared st + sl_undeclared st + length l)%nat ∧
  (sl_undeclared r = sl_undeclared st +
    length (filter (λ step, declared_duration step = None) l))%nat ∧
  (sl_derivable r + sl_undeclared st <= sl_derivable st + sl_undeclared r)%nat.
Proof.
  revert st. induction l as [|x l IH]; intros st; [cbn; split_and!; lia|].
  cbn [foldl length]. specialize (IH (count_step program st x)). cbn zeta in IH.
  destruct IH as (H1 & H2 & H3).
  set (r := foldl _ _ l) in *. clearbody r. cbn in H1, H2, H3. cbn zeta.
  assert (declared_duration x ≠ None → derivable_duration x = None) as Hex.
  { unfold declared_duration, derivable_duration, drag_options_of. by destruct (command x). }
  rewrite filter_cons. destruct (declared_duration x) as [d|] eqn:E.
  - rewrite decide_False by done. rewrite Hex in H3 by done. split_and!; lia.
  - rewrite decide_True by done. cbn [length]. destruct (derivable_duration x); split_and!; lia.
Qed.

(** ** Ranks *)

Lemma rank_acyclic (Rel : relation nat) (f : nat → nat) :
  (∀ j i, Rel j i → (f j < f i)%nat) → ∀ i, ¬ tc Rel i i.
Proof.
  intros Hf i Hi. assert (∀ a b, tc Rel a b → (f a < f b)%nat) as H.
  { induction 1 as [a b Hab|a b c Hab _ IH]; [by apply Hf|]. apply Hf in Hab. lia. }
  specialize (H i i Hi). lia.
Qed.

(** A document's order ranks its steps below their dependents. *)
Lemma order_rank s : WFSeq s → ∃ f : nat → nat,
  (∀ i, (i < length (steps_ s))%nat → (f i < length (steps_ s))%nat) ∧
  (∀ j i, depends (steps_ s) j i → (f j < f i)%nat).
Proof.
  intros Hs. exists (λ i, from_option fst 0%nat (list_find (λ k, k = positional i) (order_ s))).
  assert (∀ i, (i < length (steps_ s))%nat → ∃ a, order_ s !! a = Some (positional i) ∧
    from_option fst 0%nat (list_find (λ k, k = positional i) (order_ s)) = a) as Hfind.
  { intros i Hi. assert (positional i ∈ order_ s) as Hin.
    { rewrite (order_perm s Hs). apply list_elem_of_fmap_2, elem_of_seq. lia. }
    destruct (list_find_elem_of (λ k, k = positional i) _ _ Hin eq_refl) as [[a k] E].
    rewrite E. cbn. apply list_find_Some in E as (Ha & -> & _). eauto. }
  split.
  - intros i Hi. destruct (Hfind i Hi) as (a & Ha & ->).
    apply lookup_lt_Some in Ha. rewrite (order_perm s Hs), length_fmap, length_seq in Ha. done.
  - intros j i Hd. pose proof (depends_lt _ _ _ Hd) as [Hj Hi].
    destruct (Hfind j Hj) as (a & Ha & ->), (Hfind i Hi) as (b & Hb & ->).
    by eapply (order_forward s a b j i).
Qed.

(** ** Splicing *)

Lemma shifted_positional i offset :
  (i < maxSteps)%nat → shifted (positional i) offset = positional (offset + i).
Proof. intros Hi. unfold shifted. by rewrite positional_index. Qed.

Lemma elem_of_rewire a sinks l x :
  NoDup l → x ∈ rewire a sinks l ↔ (a ∈ l ∧ x ∈ sinks) ∨ (x ∈ l ∧ x ≠ a).
Proof.
  induction l as [|y l IH]; intros Hnd; cbn; [set_solver|].
  apply NoDup_cons in Hnd as [Hy Hnd]. case_decide as E; rewrite ?elem_of_app, ?elem_of_cons.
  - subst. naive_solver.
  - rewrite IH by done. naive_solver.
Qed.

Lemma rewire_NoDup a sinks l :
  NoDup l → NoDup sinks → (∀ x, x ∈ sinks → x ∉ l) → NoDup (rewire a sinks l).
Proof.
  intros Hnd Hs Hd. induction l as [|y l IH]; cbn; [constructor|].
  pose proof Hnd as [Hy Hnd']%NoDup_cons.
  assert (∀ x, x ∈ sinks → x ∉ l) as Hd' by (intros x Hx Hin; apply (Hd x Hx); by right).
  case_decide.
  - apply NoDup_app. split_and!; done.
  - apply NoDup_cons. split; [|by apply IH]. rewrite elem_of_rewire by done.
    intros [[_ Hin]|[? _]]; [|done]. apply (Hd y Hin). by left.
Qed.

Section splice.
Context (host insert : Sequence) (a : nat) (sta : Step).
Context (HH : WFSeq host) (HI : WFSeq insert).
Context (Ha : steps_ host !! a = Some sta).

Let nh := length (steps_ host).
Let ni := length (steps_ insert).
Context (Hsize : (nh + ni <= maxSteps)%nat) (Hne : (0 < ni)%nat).

Definition is_sink (x : nat) : Prop :=
  (x < ni)%nat ∧ ∀ y, ¬ depends (steps_ insert) x y.

Definition is_root (x : nat) : Prop :=
  (x < ni)%nat ∧ ∀ y, ¬ depends (steps_ insert) y x.

Lemma elem_of_sinks k :
  k ∈ sinks_of insert nh ↔ ∃ x, is_sink x ∧ k = positional (nh + x).
Proof using HH HI Ha Hsize Hne.
  pose proof (wfs_size insert HI) as Hmax. unfold sinks_of.
  rewrite merge_sort_Permutation, list_elem_of_fmap.
  setoid_rewrite list_elem_of_filter. setoid_rewrite list_elem_of_lookup. split.
  - intros (st & -> & Hout & x & Hx). pose proof (lookup_lt_Some _ _ _ Hx).
    rewrite (wfs_id insert HI x st Hx) in *. exists x.
    rewrite shifted_positional by (unfold steps in *; lia). split; [|done].
    split; [done|]. intros y Hd.
    assert (arc (graph_ insert) (positional x) (positional y)) as [q Hq].
    { apply wfs_arc_positions; [done|]. eauto. }
    apply nil_length_inv in Hout. unfold graph in Hout. rewrite Hout in Hq. by apply elem_of_nil in Hq.
  - intros (x & [Hx Hs] & ->). destruct (lookup_lt_is_Some_2 (steps_ insert) x Hx) as [st Hst].
    exists st. rewrite (wfs_id insert HI x st Hst), shifted_positional by lia.
    split_and!; [done| |eauto].
    destruct (out_edges (graph insert) (positional x)) as [|[t q] es] eqn:E; [done|].
    assert (arc (graph_ insert) (positional x) t) as Harc.
    { exists q. unfold graph in E. rewrite E. by left. }
    apply wfs_arc_positions in Harc as (j & i & Ej & -> & Hd); [|done].
    pose proof (depends_lt _ _ _ Hd). apply positional_inj in Ej as <-; [|lia..].
    by apply Hs in Hd.
Qed.

Lemma sinks_NoDup : NoDup (sinks_of insert nh).
Proof using HH HI Ha Hsize Hne.
  unfold sinks_of. rewrite merge_sort_Permutation.
  apply NoDup_fmap_2_strong.
  - intros x y [_ [i Hi]%list_elem_of_lookup]%list_elem_of_filter
      [_ [j Hj]%list_elem_of_lookup]%list_elem_of_filter E.
    pose proof (lookup_lt_Some _ _ _ Hi). pose proof (lookup_lt_Some _ _ _ Hj).
    pose proof (wfs_size insert HI). unfold steps in *.
    rewrite (wfs_id insert HI i x Hi), (wfs_id insert HI j y Hj), !shifted_positional in E by lia.
    apply positional_inj in E; [|lia..]. assert (i = j) as -> by lia. congruence.
  - apply NoDup_filter. apply NoDup_alt. intros i j st Hi Hj. unfold steps in *.
    pose proof (wfs_id insert HI i st Hi) as E. rewrite (wfs_id insert HI j st Hj) in E.
    pose proof (wfs_size insert HI).
    pose proof (lookup_lt_Some _ _ _ Hi). pose proof (lookup_lt_Some _ _ _ Hj).
    apply positional_inj in E; lia.
Qed.

Definition merged : list Step := merged_steps host (positional a) insert.

Lemma merged_eq : merged =
  ((λ step, with_after (rewire (positional a) (sinks_of insert nh) (after step)) step) <$>
    steps_ host) ++ (graft (positional a) nh <$> steps_ insert).
Proof using HH HI Ha Hsize Hne.
  unfold merged, merged_steps, steps. subst ni nh. by destruct (steps_ insert); cbn in *; [lia|].
Qed.

Lemma length_merged : length merged = (nh + ni)%nat.
Proof using HH HI Ha Hsize Hne. by rewrite merged_eq, length_app, !length_fmap. Qed.

Lemma merged_host i st : steps_ host !! i = Some st →
  merged !! i = Some (with_after (rewire (positional a) (sinks_of insert nh) (after st)) st).
Proof using HH HI Ha Hsize Hne.
  intros Hi. rewrite merged_eq, lookup_app_l, list_lookup_fmap, Hi; [done|].
  rewrite length_fmap. by eapply lookup_lt_Some.
Qed.

Lemma merged_insert x st : steps_ insert !! x = Some st →
  merged !! (nh + x)%nat = Some (graft (positional a) nh st).
Proof using HH HI Ha Hsize Hne.
  intros Hx. rewrite merged_eq, lookup_app_r; rewrite length_fmap; [|subst nh; lia].
  replace (nh + x - length (steps_ host))%nat with x by (subst nh; lia).
  by rewrite list_lookup_fmap, Hx.
Qed.

Lemma merged_lookup i st : merged !! i = Some st →
  (∃ st0, steps_ host !! i = Some st0 ∧
    st = with_after (rewire (positional a) (sinks_of insert nh) (after st0)) st0) ∨
  (∃ x st0, i = (nh + x)%nat ∧ steps_ insert !! x = Some st0 ∧ st = graft (positional a) nh st0).
Proof using HH HI Ha Hsize Hne.
  intros Hi. pose proof (lookup_lt_Some _ _ _ Hi) as Hlt. rewrite length_merged in Hlt.
  destruct (decide (i < nh)%nat) as [Hih|Hih].
  - left. destruct (lookup_lt_is_Some_2 (steps_ host) i Hih) as [st0 Hst0].
    rewrite (merged_host i st0 Hst0) in Hi. exists st0. split; [done|congruence].
  - right. destruct (lookup_lt_is_Some_2 (steps_ insert) (i - nh)) as [st0 Hst0]; [subst ni; lia|].
    exists (i - nh)%nat, st0. pose proof (merged_insert _ _ Hst0) as Hm.
    replace (nh + (i - nh))%nat with i in Hm by lia. split_and!; [lia|done|congruence].
Qed.

(** The dependencies of the merged document, by position. *)
Lemma merged_after_host i st k : steps_ host !! i = Some st →
  k ∈ rewire (positional a) (sinks_of insert nh) (after st) ↔
  (depends (steps_ host) a i ∧ ∃ x, is_sink x ∧ k = positional (nh + x)) ∨
  (∃ j, j ≠ a ∧ depends (steps_ host) j i ∧ k = positional j).
Proof using HH HI Ha Hsize Hne.
  intros Hi. rewrite elem_of_rewire by exact (wfs_after_NoDup host HH i st Hi).
  rewrite elem_of_sinks. pose proof (lookup_lt_Some _ _ _ Ha). pose proof (wfs_size host HH).
  assert (∀ j, (j < nh)%nat → positional j ∈ after st ↔ depends (steps_ host) j i) as Hdep.
  { intros j Hj. split; [by exists st|]. intros (st' & Hst' & Hin & _). congruence. }
  rewrite Hdep by done. split.
  - intros [?|[Hin Hk]]; [by left|right].
    destruct (wfs_after host HH i st k Hi Hin) as (j & Hj & -> & _). exists j.
    split_and!; [by intros ->|by apply Hdep|done].
  - intros [?|(j & Hj & Hd & ->)]; [by left|right]. pose proof (depends_lt _ _ _ Hd) as [Hjl _].
    split; [by apply Hdep|]. intros E. apply Hj. apply positional_inj in E; [done|lia..].
Qed.

Lemma graft_after x st k : steps_ insert !! x = Some st →
  k ∈ after (graft (positional a) nh st) ↔
  (is_root x ∧ k = positional a) ∨
  (∃ y, depends (steps_ insert) y x ∧ k = positional (nh + y)).
Proof using HH HI Ha Hsize Hne.
  intros Hx. pose proof (lookup_lt_Some _ _ _ Hx). pose proof (wfs_size insert HI).
  assert (∀ y, depends (steps_ insert) y x ↔ positional y ∈ after st ∧ (y < ni)%nat) as Hdep.
  { intros y. split; [intros (st' & Hst' & Hin & ?)|intros []; by exists st].
    assert (st' = st) as -> by congruence. done. }
  unfold graft. cbn [after with_after]. destruct (after st) as [|b l] eqn:E.
  - rewrite list_elem_of_singleton. split.
    + intros ->. left. split; [|done]. split; [done|]. intros y Hd%Hdep.
      by destruct Hd as [?%elem_of_nil _].
    + intros [[_ ?]|(y & Hd%Hdep & _)]; [done|]. by destruct Hd as [?%elem_of_nil _].
  - rewrite list_elem_of_fmap. split.
    + intros (k0 & -> & Hk0). right.
      destruct (wfs_after insert HI x st k0 Hx) as (y & Hy & -> & _); [by rewrite E|].
      exists y. rewrite Hdep, shifted_positional by lia. done.
    + intros [[[_ Hroot] _]|(y & Hd & ->)].
      * destruct (wfs_after insert HI x st b Hx) as (y & Hy & -> & _); [rewrite E; by left|].
        destruct (Hroot y). apply Hdep. split; [by left|done].
      * apply Hdep in Hd as [Hin Hy]. exists (positional y). split; [|done].
        by rewrite shifted_positional by lia.
Qed.

Lemma merged_depends j i :
  depends merged j i ↔
  (∃ x, i ≠ j ∧ (i < nh)%nat ∧ depends (steps_ host) a i ∧ is_sink x ∧ j = (nh + x)%nat) ∨
  (j ≠ a ∧ depends (steps_ host) j i) ∨
  (∃ x, i = (nh + x)%nat ∧ is_root x ∧ j = a) ∨
  (∃ x y, i = (nh + x)%nat ∧ j = (nh + y)%nat ∧ depends (steps_ insert) y x).
Proof using HH HI Ha Hsize Hne.
  pose proof (lookup_lt_Some _ _ _ Ha) as Hal. unfold depends at 1. rewrite length_merged. split.
  - intros (st & Hi & Hin & Hj).
    apply merged_lookup in Hi as [(st0 & Hi & ->)|(x & st0 & -> & Hx & ->)].
    + apply (merged_after_host i st0 _ Hi) in Hin as [[Hd (x & Hx & E)]|(j' & Hne' & Hd & E)].
      * destruct Hx as [Hxl Hx]. apply positional_inj in E as ->; [|lia..].
        left. pose proof (lookup_lt_Some _ _ _ Hi). exists x. split_and!; try done. subst nh. lia.
      * right. left. pose proof (depends_lt _ _ _ Hd). pose proof (wfs_size host HH).
        apply positional_inj in E as ->; [done|lia..].
    + pose proof (lookup_lt_Some _ _ _ Hx).
      apply (graft_after x st0 _ Hx) in Hin as [[Hr E]|(y & Hd & E)].
      * apply positional_inj in E as ->; [|subst nh; lia..]. right. right. left. eauto.
      * pose proof (depends_lt _ _ _ Hd). apply positional_inj in E as ->; [|subst ni; lia..].
        right. right. right. eauto.
  - intros [(x & _ & Hi & Hd & Hs & ->)|[[Hne' Hd]|[(x & -> & Hr & ->)|(x & y & -> & -> & Hd)]]].
    + destruct (lookup_lt_is_Some_2 (steps_ host) i Hi) as [st Hst]. eexists.
      split; [by apply merged_host|]. split; [|destruct Hs; lia].
      apply (merged_after_host i st _ Hst). left. eauto.
    + pose proof (depends_lt _ _ _ Hd) as [Hj Hi].
      destruct (lookup_lt_is_Some_2 (steps_ host) i Hi) as [st Hst]. eexists.
      split; [by apply merged_host|]. split; [|subst nh; lia].
      apply (merged_after_host i st _ Hst). right. eauto.
    + pose proof Hr as [Hx _]. destruct (lookup_lt_is_Some_2 (steps_ insert) x Hx) as [st Hst].
      eexists. split; [by apply merged_insert|]. split; [|subst nh; lia].
      apply (graft_after x st _ Hst). by left.
    + pose proof (depends_lt _ _ _ Hd) as [Hy Hx].
      destruct (lookup_lt_is_Some_2 (steps_ insert) x Hx) as [st Hst].
      eexists. split; [by apply merged_insert|]. split; [|subst ni; lia].
      apply (graft_after x st _ Hst). right. eauto.
Qed.

Lemma merged_acyclic i : ¬ tc (depends merged) i i.
Proof using HH HI Ha Hsize Hne.
  destruct (order_rank host HH) as (f & _ & Hf), (order_rank insert HI) as (g & Hg & Hgd).
  pose proof (lookup_lt_Some _ _ _ Ha) as Hal.
  apply (rank_acyclic _ (λ i, if decide (i < nh)%nat then f i * (ni + 1)
                              else f a * (ni + 1) + 1 + g (i - nh))%nat).
  clear i. intros j i Hd.
  apply merged_depends in Hd
    as [(x & _ & Hi & Hd & [Hx _] & ->)|[[_ Hd]|[(x & -> & [Hx _] & ->)|(x & y & -> & -> & Hd)]]].
  - rewrite decide_False by lia. rewrite decide_True by done.
    replace (nh + x - nh)%nat with x by lia. apply Hf in Hd. specialize (Hg x Hx).
    fold ni in Hg. nia.
  - pose proof (depends_lt _ _ _ Hd) as [Hj Hi]. rewrite !decide_True by done.
    apply Hf in Hd. nia.
  - rewrite decide_True by done. rewrite decide_False by lia. lia.
  - pose proof (depends_lt _ _ _ Hd). rewrite !decide_False by lia. apply Hgd in Hd.
    replace (nh + x - nh)%nat with x by lia. replace (nh + y - nh)%nat with y by lia. lia.
Qed.

Lemma merged_acceptable :
  (∀ st st', st ∈ steps_ insert → st' ∈ steps_ host → label st ≠ ""%string →
    label st' ≠ label st) →
  acceptable merged.
Proof using HH HI Ha Hsize Hne.
  intros Hlab. pose proof (lookup_lt_Some _ _ _ Ha) as Hal.
  pose proof (wfs_acceptable host HH) as AH. pose proof (wfs_acceptable insert HI) as AI.
  split.
  - rewrite length_merged. lia.
  - intros i j si sj Hi Hj E Hn.
    apply merged_lookup in Hi as [(si0 & Hi & ->)|(x & si0 & -> & Hi & ->)];
      apply merged_lookup in Hj as [(sj0 & Hj & ->)|(y & sj0 & -> & Hj & ->)]; cbn in E, Hn.
    + by eapply (acc_labels _ AH).
    + exfalso. apply (Hlab sj0 si0); [by eapply list_elem_of_lookup_2..|congruence|done].
    + exfalso. apply (Hlab si0 sj0); [by eapply list_elem_of_lookup_2..|done|congruence].
    + f_equal. by eapply (acc_labels _ AI).
  - intros i st k Hi Hk. rewrite length_merged.
    apply merged_lookup in Hi as [(st0 & Hi & ->)|(x & st0 & -> & Hx & ->)].
    + apply (merged_after_host i st0 _ Hi) in Hk as [[Hd (x & [Hx _] & ->)]|(j & Hne' & Hd & ->)].
      * exists (nh + x)%nat. apply lookup_lt_Some in Hi. split_and!; [lia|done|subst nh; lia].
      * pose proof (depends_lt _ _ _ Hd) as [Hj _]. exists j. split_and!; [subst nh; lia|done|].
        intros ->. eapply wfs_acyclic; [exact HH|]. by apply tc_once.
    + pose proof (lookup_lt_Some _ _ _ Hx).
      apply (graft_after x st0 _ Hx) in Hk as [[Hr ->]|(y & Hd & ->)].
      * exists a. split_and!; [subst nh; lia|done|subst nh; lia].
      * pose proof (depends_lt _ _ _ Hd) as [Hy _]. exists (nh + y)%nat.
        split_and!; [subst ni; lia|done|]. intros E. assert (y = x) as -> by lia.
        eapply wfs_acyclic; [exact HI|]. by apply tc_once.
  - intros i st Hi. apply merged_lookup in Hi as [(st0 & Hi & ->)|(x & st0 & -> & Hx & ->)].
    + cbn. apply rewire_NoDup; [exact (wfs_after_NoDup host HH i st0 Hi)|apply sinks_NoDup|].
      intros k (x & [Hx _] & ->)%elem_of_sinks Hin.
      destruct (wfs_after host HH i st0 _ Hi Hin) as (j & Hj & E & _).
      apply positional_inj in E; subst nh; lia.
    + unfold graft. cbn [after with_after]. destruct (after st0) as [|b l] eqn:E.
      { apply NoDup_singleton. }
      apply NoDup_fmap_2_strong; [|rewrite <- E; exact (wfs_after_NoDup insert HI x st0 Hx)].
      intros k1 k2 H1 H2 Hk. pose proof (wfs_size insert HI).
      destruct (wfs_after insert HI x st0 k1 Hx) as (y1 & Hy1 & -> & _); [by rewrite E|].
      destruct (wfs_after insert HI x st0 k2 Hx) as (y2 & Hy2 & -> & _); [by rewrite E|].
      rewrite !shifted_positional in Hk by lia. apply positional_inj in Hk; [|subst ni; lia..].
      f_equal. lia.
  - intros i. apply merged_acyclic.
Qed.

(** Every injected step lies between the anchor and what waited on it. *)
Lemma merged_after_anchor x : (x < ni)%nat → tc (depends merged) a (nh + x)%nat.
Proof using HH HI Ha Hsize Hne.
  destruct (order_rank insert HI) as (g & _ & Hgd).
  remember (g x) as m eqn:Em. revert x Em. induction (lt_wf m) as [m _ IH]. intros x -> Hx.
  destruct (lookup_lt_is_Some_2 (steps_ insert) x Hx) as [st Hst].
  destruct (after st) as [|k l] eqn:E.
  - apply tc_once, merged_depends. right. right. left. exists x. split_and!; [done| |done].
    split; [done|]. intros y (st' & Hst' & Hin & _). assert (st' = st) as -> by congruence.
    rewrite E in Hin. by apply elem_of_nil in Hin.
  - destruct (wfs_after insert HI x st k Hst) as (y & Hy & -> & _); [rewrite E; by left|].
    assert (depends (steps_ insert) y x) as Hd by (exists st; rewrite E; split_and!; [done|by left|done]).
    eapply tc_r; [by apply (IH (g y) (Hgd _ _ Hd) y)|].
    apply merged_depends. right. right. right. eauto.
Qed.

Lemma merged_before_dependent x b : (x < ni)%nat → depends (steps_ host) a b →
  tc (depends merged) (nh + x)%nat b.
Proof using HH HI Ha Hsize Hne.
  intros Hx Hb. destruct (order_rank insert HI) as (g & Hg & Hgd).
  pose proof (depends_lt _ _ _ Hb) as [_ Hbl].
  remember (ni - g x)%nat as m eqn:Em. revert x Hx Em.
  induction (lt_wf m) as [m _ IH]. intros x Hx ->.
  destruct (decide (Exists (λ y, depends (steps_ insert) x y) (seq 0 ni))) as [Hex|Hnex].
  - apply Exists_exists in Hex as (y & _ & Hd). pose proof (depends_lt _ _ _ Hd) as [_ Hy].
    eapply tc_l; [|apply (IH (ni - g y)%nat); [|done|done]].
    + apply merged_depends. right. right. right. eauto.
    + apply Hgd in Hd. specialize (Hg y Hy). fold ni in Hg. lia.
  - apply tc_once, merged_depends. left. exists x. split_and!; [subst nh; lia|done|done| |done].
    split; [done|]. intros y Hd. apply Hnex, Exists_exists. exists y. split; [|done].
    apply elem_of_seq. apply depends_lt in Hd. subst ni. lia.
Qed.

End splice.

(** ** What [splice] answers *)

Lemma resolve_None s text : WFSeq s → text ≠ ""%string →
  resolve_label s text = None ↔ ∀ st, st ∈ steps_ s → label st ≠ text.
Proof.
  intros Hs Ht. unfold resolve_label. rewrite eq_None_not_Some. split.
  - intros Hn st [i Hi]%list_elem_of_lookup E. apply Hn. exists (positional i).
    apply (wfs_labels s Hs). split; [done|]. eauto.
  - intros H [k (_ & i & st & Hi & E & _)%(wfs_labels s Hs)].
    apply (H st); [by eapply list_elem_of_lookup_2|done].
Qed.

Definition labels_free (host insert : Sequence) : Prop :=
  ∀ st, st ∈ steps insert → label st ≠ ""%string → resolve_label host (label st) = None.

Lemma splice_cases host at_ insert : WFSeq host → WFSeq insert →
  (is_Some (find host at_) ∧ (length (steps host) + length (steps insert) <= maxSteps)%nat ∧
    labels_free host insert ∧
    ∃ s, splice host at_ insert = Ok s ∧
      build (merged_steps host at_ insert) (pacing host) (name host) = Ok s) ∨
  (¬ (is_Some (find host at_) ∧ (length (steps host) + length (steps insert) <= maxSteps)%nat ∧
      labels_free host insert) ∧ is_ok (splice host at_ insert) = false).
Proof.
  intros HH HI. unfold splice.
  destruct (find host at_) as [sta|] eqn:Hf; [|right; split; [by intros ([] & _)|done]].
  case_decide as Hsz; [right; split; [|done]; intros (_ & ? & _); unfold steps in *; lia|].
  destruct (list_find _ (steps insert)) as [[x st]|] eqn:El.
  - right. split; [|done]. intros (_ & _ & Hfree). apply list_find_Some in El as (Hx & [Hn [k Hk]] & _).
    rewrite (Hfree st) in Hk; [done|by eapply list_elem_of_lookup_2|done].
  - left. assert (labels_free host insert) as Hfree.
    { intros st Hst Hn. apply list_find_None in El. rewrite Forall_forall in El.
      specialize (El st Hst). destruct (resolve_label host (label st)); [|done].
      exfalso. apply El. split; [done|eauto]. }
    apply Nat.nlt_ge in Hsz. split_and!; [eauto|done|done|].
    assert (is_ok (build (merged_steps host at_ insert) (pacing host) (name host)) = true) as Hok.
    { apply build_accepts. apply find_Some in Hf as (a & Ha & ->); [|done].
      destruct (decide (steps insert = [])) as [E|E].
      - unfold merged_steps. rewrite E. by apply wfs_acceptable.
      - apply (merged_acceptable host insert a sta HH HI Ha); [done| |].
        + unfold steps in *. destruct (steps_ insert); [done|cbn; lia].
        + intros st st' Hst Hst' Hn. specialize (Hfree st Hst Hn).
          by apply (resolve_None host (label st) HH Hn). }
    destruct (build _ _ _) as [s|]; [|done]. by exists s.
Qed.

(** A one-step document, injected by the worked examples below. *)
Definition demo_tab : Step := MkStep nil_id "" (KeyCommand "Tab") [] ErrorPolicy.Abort "" 0.

(** ** Theorems *)

(** [planned] is the critical path.  Over declared durations plus grace it
    bounds the weight of every chain of dependencies from above, and some chain
    attains it (or it is zero). *)
Theorem planned_is_critical_path (l : list Step) pc nm s pacing' :
  build l pc nm = Ok s →
  let w := λ step, plan_grace_before step pacing' + default 0 (declared_duration step) in
  (∀ path, dep_path s path → path_weight w s path <= planned_with s pacing') ∧
  (planned_with s pacing' = 0 ∨
   ∃ path, dep_path s path ∧ path_weight w s path = planned_with s pacing').
Proof. intros [Hs _]%build_Ok w. by apply (longest_is_critical w s Hs). Qed.

Lemma planned_is_critical_path_witness :
  match build demo_steps default_pacing "demo" with
  | Ok s => planned_with s default_pacing = 0 ∨
      ∃ path, dep_path s path ∧
        path_weight (λ step, plan_grace_before step default_pacing +
          default 0 (declared_duration step)) s path = planned_with s default_pacing
  | Err _ => False
  end.
Proof.
  destruct (build demo_steps default_pacing "demo") as [s|e] eqn:E.
  - destruct (planned_is_critical_path demo_steps default_pacing "demo" s default_pacing E)
      as [_ H]. exact H.
  - revert E. vm_compute. intros E. discriminate E.
Defined.

(** changing the pacing never fails on a built document and changes nothing
    else: steps with their identities, graph, order, labels and name all stay. *)
Theorem with_pacing_keeps_identities (l : list Step) pc nm s pacing' :
  build l pc nm = Ok s →
  ∃ s', with_pacing s pacing' = Ok s' ∧ pacing s' = pacing' ∧ steps s' = steps s ∧
    graph s' = graph s ∧ order s' = order s ∧ labels_ s' = labels_ s ∧ name s' = name s.
Proof.
  intros [Hs _]%build_Ok. unfold with_pacing. case_decide as E.
  - exists (copy s). rewrite copy_id by done. split_and!; try done.
    unfold pacing in E |- *. destruct (pacing_ s), pacing'. cbn in E. destruct E. by subst.
  - exists (MkSequence (steps_ s) (graph_ s) (order_ s) (labels_ s) pacing' (name_ s)).
    split_and!; [by apply rebuild|done..].
Qed.

Lemma with_pacing_keeps_identities_witness :
  match build demo_steps default_pacing "demo" with
  | Ok s => ∃ s', with_pacing s (MkPacing PacingMode.Grace 250) = Ok s' ∧ order s' = order s
  | Err _ => False
  end.
Proof.
  destruct (build demo_steps default_pacing "demo") as [s|e] eqn:E.
  - destruct (with_pacing_keeps_identities demo_steps default_pacing "demo" s
      (MkPacing PacingMode.Grace 250) E) as (s' & H1 & _ & _ & _ & H2 & _).
    exists s'. split; [exact H1|exact H2].
  - revert E. vm_compute. intros E. discriminate E.
Defined.

(** the statistics add up: every step is declared or undeclared, the undeclared
    ones are those [unestimated_steps] counts, the derivable ones are among them,
    and the depth is the length of the longest chain of dependencies. *)
Theorem statistics_partition (l : list Step) pc nm s :
  build l pc nm = Ok s →
  let d := statistics s in
  (ds_declared_durations d + ds_undeclared_durations d = ds_steps d)%nat ∧
  ds_undeclared_durations d = unestimated_steps s ∧
  (ds_derivable_durations d <= ds_undeclared_durations d)%nat ∧
  (∀ path, dep_path s path → (length path <= ds_depth d)%nat) ∧
  (ds_depth d = 0%nat ∨ ∃ path, dep_path s path ∧ length path = ds_depth d).
Proof.
  intros [Hs _]%build_Ok d.
  destruct (count_steps_spec s (steps s) (MkLoop 0 ∅ 0 0 0 0 0 0 0)) as (H1 & H2 & H3).
  cbn in H1, H2, H3. destruct (longest_is_critical (λ _, 1) s Hs) as [H4 H5].
  assert (∀ path, dep_path s path → path_weight (λ _, 1) s path = Z.of_nat (length path)) as Hw.
  { intros path Hp. induction Hp as [i Hi|i j rest Hd Hp IH].
    - cbn. by destruct (lookup_lt_is_Some_2 _ _ Hi) as [st ->].
    - change (path_weight (λ _, 1) s (i :: j :: rest)) with
        (from_option (λ _, 1) 0 (steps_ s !! i) + path_weight (λ _, 1) s (j :: rest)).
      rewrite IH. destruct Hd as (st & -> & _). cbn [from_option length]. lia. }
  unfold d, statistics. cbn [ds_declared_durations ds_undeclared_durations ds_steps
    ds_derivable_durations ds_depth]. split_and!; [lia|exact H2|lia| |].
  - intros path Hp. specialize (H4 path Hp). rewrite (Hw path Hp) in H4. lia.
  - destruct H5 as [->|(path & Hp & E)]; [by left|right]. exists path. split; [done|].
    rewrite <- E, (Hw path Hp). lia.
Qed.

Lemma statistics_partition_witness :
  match build demo_steps default_pacing "demo" with
  | Ok s => ds_undeclared_durations (statistics s) = unestimated_steps s
  | Err _ => False
  end.
Proof.
  destruct (build demo_steps default_pacing "demo") as [s|e] eqn:E.
  - destruct (statistics_partition demo_steps default_pacing "demo" s E) as (_ & H & _). exact H.
  - revert E. vm_compute. intros E. discriminate E.
Defined.

(** A splice is refused only for the reasons it names: an anchor the host does
    not have, too many steps together, or a label the host already uses.  In every
    other case the merged document builds: the rewiring never repeats a
    dependency, names a missing step or closes a cycle. *)
Theorem splice_accepts_exactly (lh li : list Step) pch pci nmh nmi host insert at_ :
  build lh pch nmh = Ok host → build li pci nmi = Ok insert →
  is_ok (splice host at_ insert) = true ↔
  is_Some (find host at_) ∧ (length lh + length li <= maxSteps)%nat ∧
  labels_free host insert.
Proof.
  intros (HH & EH & _)%build_Ok (HI & EI & _)%build_Ok.
  rewrite <- (length_stamp lh), <- (length_stamp li), <- EH, <- EI.
  destruct (splice_cases host at_ insert HH HI) as [(? & ? & ? & s & -> & _)|[? ->]]; [done|].
  split; [done|tauto].
Qed.

Lemma splice_accepts_exactly_witness :
  match build demo_steps default_pacing "demo",
        build [demo_tab] default_pacing "x" with
  | Ok host, Ok insert => is_ok (splice host (positional 7) insert) = false
  | _, _ => False
  end.
Proof.
  destruct (build demo_steps default_pacing "demo") as [s|e] eqn:E;
    [|revert E; vm_compute; intros E; discriminate E].
  destruct (build [demo_tab] default_pacing "x") as [s2|e] eqn:E2;
    [|revert E2; vm_compute; intros E2; discriminate E2].
  destruct (is_ok (splice s (positional 7) s2)) eqn:H; [|reflexivity].
  apply (splice_accepts_exactly _ _ _ _ _ _ _ _ (positional 7) E E2) in H as [Hf _].
  apply build_Ok in E as (_ & Hst & _). revert Hf. unfold find. rewrite Hst.
  vm_compute. intros [x Hx]. discriminate Hx.
Defined.

(** C8: a splice lands in series.  The host's steps keep their identities and
    everything but their dependencies, the injected ones follow in order and keep
    everything but theirs and their identities, pacing and name are the host's.  The
    dependencies are exactly: the host's, except those on the anchor; the injected
    document's, moved; each injected step without predecessors on the anchor; and each
    step that waited on the anchor on every injected step nothing waits on.  So every
    injected step lies after the anchor, whether or not anything waited on it, and
    before every step that did, which no longer depends on the anchor directly. *)
Theorem splice_lands_in_series (lh li : list Step) pch pci nmh nmi host insert a sta s :
  build lh pch nmh = Ok host → build li pci nmi = Ok insert → li ≠ [] →
  steps host !! a = Some sta → splice host (positional a) insert = Ok s →
  pacing s = pacing host ∧ name s = name host ∧
  length (steps s) = (length lh + length li)%nat ∧
  (∀ i st, steps host !! i = Some st → ∃ st', find s (positional i) = Some st' ∧
    st' = with_after (after st') st ∧ (positional a ∉ after st → st' = st)) ∧
  (∀ x st, steps insert !! x = Some st → ∃ st', find s (positional (length lh + x)) = Some st' ∧
    st' = with_after (after st') (with_id (positional (length lh + x)) st)) ∧
  (∀ j i, depends (steps s) j i ↔
    (j ≠ a ∧ depends lh j i) ∨
    (∃ y x, j = (length lh + y)%nat ∧ i = (length lh + x)%nat ∧ depends li y x) ∨
    (∃ x, j = a ∧ i = (length lh + x)%nat ∧ (x < length li)%nat ∧ ∀ y, ¬ depends li y x) ∨
    (∃ x, depends lh a i ∧ j = (length lh + x)%nat ∧ (x < length li)%nat ∧ ∀ y, ¬ depends li x y)) ∧
  (∀ x, (x < length li)%nat → tc (depends (steps s)) a (length lh + x)%nat) ∧
  (∀ x b, (x < length li)%nat → depends lh a b →
    tc (depends (steps s)) (length lh + x)%nat b ∧ ¬ depends (steps s) a b).
Proof.
  intros (HH & EH & _)%build_Ok (HI & EI & _)%build_Ok Hli Ha Hs.
  destruct (splice_cases host (positional a) insert HH HI) as
    [(_ & Hsz & _ & s0 & E & Hb)|[_ E]]; [|by rewrite Hs in E].
  assert (s0 = s) as -> by congruence. apply build_Ok in Hb as (Hws & Est & Hp & Hn).
  assert (length (steps_ host) = length lh) as Lh by by rewrite EH, length_stamp.
  assert (length (steps_ insert) = length li) as Li by by rewrite EI, length_stamp.
  unfold steps in *.
  assert (0 < length (steps_ insert))%nat as Hne by (rewrite Li; destruct li; [done|cbn; lia]).
  pose proof (length_merged host insert a sta HH HI Ha Hsz Hne) as Hlm. fold (merged host insert a) in Est.
  assert (∀ i st, merged host insert a !! i = Some st → find s (positional i) =
    Some (with_id (positional i) st)) as Hfind.
  { intros i st Hi. apply find_positional; [done|]. rewrite Est. apply stamp_lookup. eauto. }
  assert (∀ j i, depends (steps_ s) j i ↔ depends (merged host insert a) j i) as Hdep
    by (intros; by rewrite Est, depends_stamp).
  assert (∀ j i, tc (depends (steps_ s)) j i ↔ tc (depends (merged host insert a)) j i) as Htc
    by by apply tc_iff.
  assert (∀ j i, depends (steps_ host) j i ↔ depends lh j i) as HdH
    by (intros; by rewrite EH, depends_stamp).
  assert (∀ j i, depends (steps_ insert) j i ↔ depends li j i) as HdI
    by (intros; by rewrite EI, depends_stamp).
  rewrite <-Lh, <-Li.
  split_and!; [done|done|by rewrite Est, length_stamp, Hlm| | | | |].
  - intros i st Hi. eexists. split; [apply Hfind; by apply (merged_host host insert a sta HH HI Ha)|].
    pose proof (wfs_id host HH i st Hi) as Eid. destruct st as [k lb cmd aft oe oet eg].
    simpl in Eid. subst k. split; [done|]. unfold with_after, with_id. cbn. intros Hni. f_equal.
    clear -Hni. induction aft as [|y l' IH]; cbn; [done|].
    rewrite elem_of_cons in Hni. rewrite decide_False by naive_solver. f_equal. apply IH. tauto.
  - intros x st Hx. eexists.
    split; [apply Hfind; by apply (merged_insert host insert a sta HH HI Ha)|done].
  - intros j i. rewrite Hdep, (merged_depends host insert a sta HH HI Ha Hsz Hne).
    unfold is_sink, is_root. setoid_rewrite HdH. setoid_rewrite HdI. split.
    + intros [(x & _ & _ & ? & [??] & ->)|[?|[(x & -> & [??] & ->)|(x & y & -> & -> & ?)]]]; eauto 10.
    + intros [?|[(y & x & -> & -> & ?)|[(x & -> & -> & ? & ?)|(x & Hd & -> & ? & ?)]]]; eauto 10.
      left. exists x. pose proof (depends_lt _ _ _ Hd) as [? ?]. split_and!; try done; lia.
  - intros x Hx. apply Htc. by apply (merged_after_anchor host insert a sta).
  - intros x b Hx Hd. rewrite <-HdH in Hd. split.
    + apply Htc. by apply (merged_before_dependent host insert a sta).
    + rewrite Hdep, (merged_depends host insert a sta HH HI Ha Hsz Hne). intros Hab.
      pose proof (depends_lt _ _ _ Hd) as [Hal Hbl].
      destruct Hab as [(y & _ & _ & _ & _ & E')|[[? _]|[(y & E' & _)|(y & z & E' & E'' & _)]]];
        [lia|done|lia|lia].
Qed.

Lemma splice_lands_in_series_witness :
  match build demo_steps default_pacing "demo",
        build [demo_tab] default_pacing "x" with
  | Ok host, Ok insert =>
    match splice host (positional 0) insert with
    | Ok s => tc (depends (steps s)) 3%nat 1%nat
    | Err _ => False
    end
  | _, _ => False
  end.
Proof.
  destruct (build demo_steps default_pacing "demo") as [s|e] eqn:E;
    [|revert E; vm_compute; intros E; discriminate E].
  destruct (build [demo_tab] default_pacing "x") as [s2|e] eqn:E2;
    [|revert E2; vm_compute; intros E2; discriminate E2].
  destruct (splice s (positional 0) s2) as [s3|e3] eqn:E3.
  - assert (∃ sta, steps s !! 0%nat = Some sta) as [sta Hsta].
    { apply build_Ok in E as (_ & E & _). unfold steps. rewrite E. by eexists. }
    destruct (splice_lands_in_series _ _ _ _ _ _ s s2 0 sta s3 E E2 ltac:(done) Hsta E3)
      as (_ & _ & _ & _ & _ & _ & _ & H).
    refine (proj1 (H 0%nat 1%nat _ _)).
    + cbn. lia.
    + apply (bool_decide_unpack _). by vm_compute.
  - assert (match build demo_steps default_pacing "demo", build [demo_tab] default_pacing "x" with
      | Ok s, Ok s2 => is_ok (splice s (positional 0) s2) = true | _, _ => False end) as H
      by (vm_compute; reflexivity).
    rewrite E, E2, E3 in H. discriminate H.
Defined.
