(* ===== verification/Rounding.v ===== *)
(** Rounding to a binary floating-point format, as the standard library's
    [SpecFloat] specifies it: what rounding returns is in the format, a number of
    the format is returned as it is, and widening then narrowing is the identity. *)

From Stdlib Require Import Floats.SpecFloat.
From S2P Require Import Prelude.

(** ** Digits and shifts *)

Lemma digits_bounds (p : positive) :
  2 ^ (Z.pos (digits2_pos p) - 1) ≤ Z.pos p < 2 ^ Z.pos (digits2_pos p).
Proof.
  induction p as [p IH|p IH|]; cbn [digits2_pos]; [| |done];
    rewrite Pos2Z.inj_succ, Z.pow_succ_r by lia;
    replace (Z.succ (Z.pos (digits2_pos p)) - 1) with (Z.succ (Z.pos (digits2_pos p) - 1)) by lia;
    rewrite Z.pow_succ_r by lia; lia.
Qed.

Lemma digits_unique (p : positive) d :
  0 < d → 2 ^ (d - 1) ≤ Z.pos p < 2 ^ d → Z.pos (digits2_pos p) = d.
Proof.
  intros Hd Hp. pose proof (digits_bounds p) as Hb.
  destruct (Z.lt_trichotomy (Z.pos (digits2_pos p)) d) as [Hlt|[->|Hlt]]; [|done|].
  - pose proof (Z.pow_le_mono_r 2 (Z.pos (digits2_pos p)) (d - 1)). lia.
  - pose proof (Z.pow_le_mono_r 2 d (Z.pos (digits2_pos p) - 1)). lia.
Qed.

Lemma digits_le (p : positive) d : 0 ≤ d → Z.pos p < 2 ^ d → Z.pos (digits2_pos p) ≤ d.
Proof.
  intros Hd Hp. pose proof (digits_bounds p) as Hb.
  destruct (Z.le_gt_cases (Z.pos (digits2_pos p)) d) as [|Hlt]; [done|].
  pose proof (Z.pow_le_mono_r 2 d (Z.pos (digits2_pos p) - 1)). lia.
Qed.

Lemma shl_value (m d : positive) : Z.pos (Pos.iter xO m d) = Z.pos m * 2 ^ Z.pos d.
Proof.
  rewrite Pos2Nat.inj_iter, <- (positive_nat_Z d). generalize (Pos.to_nat d) as n. intros n.
  induction n as [|n IH]; [cbn; lia|]. cbn [nat_rect].
  rewrite Pos2Z.inj_xO, IH, Nat2Z.inj_succ, Z.pow_succ_r by lia. lia.
Qed.

Lemma mul_digits (p m : positive) k :
  0 ≤ k → Z.pos p = Z.pos m * 2 ^ k → Z.pos (digits2_pos p) = Z.pos (digits2_pos m) + k.
Proof.
  intros Hk Hp. apply digits_unique; [lia|]. rewrite Hp. pose proof (digits_bounds m) as Hb.
  replace (Z.pos (digits2_pos m) + k - 1) with (Z.pos (digits2_pos m) - 1 + k) by lia.
  rewrite !Z.pow_add_r by lia. pose proof (Z.pow_pos_nonneg 2 k). nia.
Qed.

Lemma shl_digits (m d : positive) :
  Z.pos (digits2_pos (Pos.iter xO m d)) = Z.pos (digits2_pos m) + Z.pos d.
Proof. apply mul_digits; [lia|]. apply shl_value. Qed.

(** A shift to the right divides. *)
Lemma shr_1_value r : 0 ≤ shr_m r → shr_m (shr_1 r) = shr_m r / 2.
Proof.
  destruct r as [m r s]; cbn. intros Hm. destruct m as [|p|p]; [done| |lia].
  destruct p as [p|p|]; cbn; [|  |done].
  - rewrite Pos2Z.inj_xI. rewrite Z.add_comm, Z.mul_comm, Z.div_add by lia. done.
  - rewrite Pos2Z.inj_xO. rewrite Z.mul_comm, Z.div_mul by lia. done.
Qed.

(** An even number loses nothing in a shift. *)
Lemma shr_1_exact m : 0 ≤ m → shr_1 (Build_shr_record (2 * m) false false) =
  Build_shr_record m false false.
Proof. intros Hm. destruct m; [done|done|lia]. Qed.

Lemma iter_pos_nat {A} (f : A → A) (n : positive) (x : A) :
  SpecFloat.iter_pos f n x = Nat.iter (Pos.to_nat n) f x.
Proof.
  revert x. induction n as [n IH|n IH|]; intros x; cbn [SpecFloat.iter_pos]; [| |done].
  - rewrite !IH, Pos2Nat.inj_xI, <- Nat.iter_add, <- Nat.iter_succ_r. f_equal. lia.
  - rewrite !IH, Pos2Nat.inj_xO, <- Nat.iter_add. f_equal. lia.
Qed.

Lemma shr_value m r s n : 0 ≤ m →
  shr_m (Nat.iter n shr_1 (Build_shr_record m r s)) = m / 2 ^ Z.of_nat n.
Proof.
  intros Hm. induction n as [|n IH]; [cbn; by rewrite Z.div_1_r|].
  rewrite Nat.iter_succ, shr_1_value, IH.
  - rewrite Z.div_div by lia. rewrite Nat2Z.inj_succ, Z.pow_succ_r by lia. f_equal. lia.
  - rewrite IH. apply Z.div_pos; lia.
Qed.

Lemma shr_exact m n : 0 ≤ m →
  Nat.iter n shr_1 (Build_shr_record (m * 2 ^ Z.of_nat n) false false) =
  Build_shr_record m false false.
Proof.
  intros Hm. revert m Hm. induction n as [|n IH]; intros m Hm.
  - cbn. by rewrite Z.mul_1_r.
  - rewrite Nat2Z.inj_succ, Z.pow_succ_r by lia.
    replace (m * (2 * 2 ^ Z.of_nat n)) with (2 * m * 2 ^ Z.of_nat n) by lia.
    rewrite Nat.iter_succ, IH by lia. by apply shr_1_exact.
Qed.

(** ** One format *)

Section format.
Context (prec emax : Z) (Hprec : 1 < prec).

Abbreviation fexp := (SpecFloat.fexp prec emax).
Abbreviation emin := (SpecFloat.emin prec emax).

Lemma shr_fexp_value m e r :
  0 ≤ m → shr_fexp prec emax m e loc_Exact = r →
  let n := Z.max 0 (fexp (Zdigits2 m + e) - e) in
  r.2 = e + n ∧ shr_m r.1 = m / 2 ^ n ∧ ∃ k, r.1 = Nat.iter k shr_1 (Build_shr_record m false false) ∧
  Z.of_nat k = n.
Proof.
  intros Hm <-. unfold shr_fexp. cbn [shr_record_of_loc]. unfold SpecFloat.shr.
  destruct (fexp (Zdigits2 m + e) - e) as [|p|p] eqn:Hn; cbn [fst snd].
  - split; [lia|]. cbn. rewrite Z.div_1_r. split; [done|]. by exists 0%nat.
  - rewrite iter_pos_nat, shr_value, positive_nat_Z by done.
    split; [lia|]. split; [done|]. exists (Pos.to_nat p). split; [done|]. lia.
  - split; [lia|]. cbn. rewrite Z.div_1_r. split; [done|]. by exists 0%nat.
Qed.

Lemma bounded_spec m e :
  bounded prec emax m e = true ↔ fexp (Z.pos (digits2_pos m) + e) = e ∧ e ≤ emax - prec.
Proof.
  unfold bounded, canonical_mantissa. rewrite andb_true_iff, Z.eqb_eq, Z.leb_le. done.
Qed.

(** A number of the format, written with trailing zeros, is returned. *)
Lemma round_aux_exact s m (p : positive) e (k : nat) :
  bounded prec emax m e = true → Z.pos p = Z.pos m * 2 ^ Z.of_nat k →
  binary_round_aux prec emax s (Z.pos p) (e - Z.of_nat k) loc_Exact = S754_finite s m e.
Proof.
  intros [Hc He]%bounded_spec Hp. unfold binary_round_aux.
  assert (Zdigits2 (Z.pos p) + (e - Z.of_nat k) = Z.pos (digits2_pos m) + e) as Hd.
  { cbn [Zdigits2]. rewrite (mul_digits p m (Z.of_nat k)) by (lia || done). lia. }
  destruct (shr_fexp prec emax (Z.pos p) (e - Z.of_nat k) loc_Exact) as [r e1] eqn:Hr.
  apply shr_fexp_value in Hr as (He1 & _ & j & Hr & Hj); [|done]. rewrite Hd, Hc in He1, Hj.
  cbn [fst snd] in *. assert (j = k) as -> by lia.
  rewrite Hp, shr_exact in Hr by lia. subst r. cbn [shr_m loc_of_shr_record round_nearest_even].
  assert (e1 = e) as -> by lia.
  destruct (shr_fexp prec emax (Z.pos m) e loc_Exact) as [r2 e2] eqn:Hr2.
  apply shr_fexp_value in Hr2 as (He2 & Hm2 & _); [|done]. cbn [fst snd Zdigits2] in *.
  rewrite Hc in He2, Hm2. replace (Z.max 0 (e - e)) with 0 in He2, Hm2 by lia.
  rewrite Hm2, Z.div_1_r. assert (e2 = e) as -> by lia. by rewrite (proj2 (Z.leb_le _ _) He).
Qed.

Lemma round_exact s m e k p :
  bounded prec emax m e = true → Z.pos p = Z.pos m * 2 ^ Z.of_nat k →
  binary_round prec emax s p (e - Z.of_nat k) = S754_finite s m e.
Proof.
  intros Hb Hp. unfold binary_round, shl_align.
  assert (Z.pos (digits2_pos p) + (e - Z.of_nat k) = Z.pos (digits2_pos m) + e) as ->.
  { rewrite (mul_digits p m (Z.of_nat k)) by (lia || done). lia. }
  pose proof Hb as [Hc _]%bounded_spec. rewrite Hc.
  destruct (e - (e - Z.of_nat k)) eqn:Hz; [..|lia]; by apply (round_aux_exact s m).
Qed.

(** A number too coarse for the format gains trailing zeros. *)
Lemma round_align s m e d :
  e - fexp (Z.pos (digits2_pos m) + e) = Z.pos d → e - Z.pos d ≤ emax - prec →
  binary_round prec emax s m e = S754_finite s (Pos.iter xO m d) (e - Z.pos d).
Proof.
  intros Hd He. unfold binary_round, shl_align.
  replace (fexp (Z.pos (digits2_pos m) + e) - e) with (Z.neg d) by lia.
  assert (fexp (Z.pos (digits2_pos m) + e) = e - Z.pos d) as -> by lia.
  pose proof (round_aux_exact s (Pos.iter xO m d) (Pos.iter xO m d) (e - Z.pos d) 0) as H.
  rewrite Z.sub_0_r in H. apply H; [|lia]. apply bounded_spec. split; [|done].
  rewrite shl_digits. replace (Z.pos (digits2_pos m) + Z.pos d + (e - Z.pos d))
    with (Z.pos (digits2_pos m) + e) by lia. lia.
Qed.

(** Rounding the quotient: it or its successor. *)
Lemma round_nearest_cases m l :
  round_nearest_even m l = m ∨ round_nearest_even m l = m + 1.
Proof. unfold round_nearest_even. destruct l as [|[]]; try destruct (Z.even m); auto. Qed.

(** The first shift brings any mantissa below [2 ^ prec], and to at least half of
    that unless the exponent is the least one. *)
Lemma shift_bounds (p : positive) e :
  let E := fexp (Z.pos (digits2_pos p) + e) in
  e ≤ E → let m := Z.pos p / 2 ^ (E - e) in
  0 ≤ m < 2 ^ prec ∧ (2 ^ (prec - 1) ≤ m ∨ E = emin).
Proof.
  intros E HE m. pose proof (digits_bounds p) as [Hlo Hhi].
  pose proof (Z.pow_pos_nonneg 2 (E - e)) as Hpow.
  assert (Z.pos (digits2_pos p) - (E - e) ≤ prec) as Hd by (unfold E, SpecFloat.fexp; lia).
  split; [split|].
  - apply Z.div_pos; lia.
  - apply Z.div_lt_upper_bound; [lia|]. rewrite <- Z.pow_add_r by lia.
    pose proof (Z.pow_le_mono_r 2 (Z.pos (digits2_pos p)) (E - e + prec)). lia.
  - destruct (Z.eq_dec E emin) as [|Hne]; [by right|]. left.
    apply Z.div_le_lower_bound; [lia|]. rewrite <- Z.pow_add_r by lia.
    assert (E - e + (prec - 1) = Z.pos (digits2_pos p) - 1) as ->; [|done].
    unfold E, SpecFloat.fexp in *. lia.
Qed.

(** So the rounded mantissa fits, or is [2 ^ prec] and is shifted once more. *)
Lemma renormalised m E :
  0 ≤ m ≤ 2 ^ prec → (2 ^ (prec - 1) ≤ m ∨ E = emin) → emin ≤ E →
  ∀ r e, shr_fexp prec emax m E loc_Exact = (r, e) →
  E ≤ e ≤ E + 1 ∧ match shr_m r with
       | Z0 => True
       | Z.pos q => fexp (Z.pos (digits2_pos q) + e) = e
       | Z.neg _ => False
       end.
Proof.
  intros Hm Hlow HE r e Hr. apply shr_fexp_value in Hr as (He & Hv & _); [|lia].
  cbn [fst snd] in *. rewrite Hv. clear Hv.
  destruct m as [|q|q]; [..|lia].
  { cbn [Zdigits2] in *. rewrite Z.div_0_l by (apply Z.pow_nonzero; lia).
    unfold SpecFloat.fexp, SpecFloat.emin in *. split; [lia|done]. }
  cbn [Zdigits2] in *. destruct (Z.eq_dec (Z.pos q) (2 ^ prec)) as [Hq|Hq].
  - assert (Z.pos (digits2_pos q) = prec + 1) as Hd.
    { apply digits_unique; [lia|]. rewrite Hq, Z.add_simpl_r, Z.pow_add_r by lia. lia. }
    rewrite Hd in *. assert (fexp (prec + 1 + E) = E + 1) as HE1.
    { unfold SpecFloat.fexp. unfold SpecFloat.emin in *. lia. }
    rewrite HE1 in *. replace (Z.max 0 (E + 1 - E)) with 1 in * by lia.
    split; [lia|]. rewrite Hq. replace prec with (Z.succ (prec - 1)) by lia.
    rewrite Z.pow_succ_r, Z.pow_1_r, Z.mul_comm, Z.div_mul by lia.
    destruct (2 ^ (prec - 1)) as [|q'|q'] eqn:Hq'; [done| |].
    + assert (Z.pos (digits2_pos q') = prec) as ->; [|].
      { apply digits_unique; [lia|]. rewrite <- Hq'. split; [lia|].
        apply Z.pow_lt_mono_r; lia. }
      subst e. rewrite <- HE1 at 2. f_equal; lia.
    + pose proof (Z.pow_pos_nonneg 2 (prec - 1)). lia.
  - assert (Z.pos (digits2_pos q) ≤ prec) as Hd by (apply digits_le; lia).
    assert (fexp (Z.pos (digits2_pos q) + E) = E) as HE1.
    { destruct Hlow as [Hlow| ->].
      - assert (Z.pos (digits2_pos q) = prec) as ->; [apply digits_unique; lia|].
        unfold SpecFloat.fexp. lia.
      - unfold SpecFloat.fexp. lia. }
    rewrite HE1 in *. replace (Z.max 0 (E - E)) with 0 in * by lia.
    rewrite Z.div_1_r. split; [lia|]. subst e. by rewrite Z.add_0_r.
Qed.

(** What rounding returns: the sign it was given, and a number of the format whose
    exponent is at most one above the one the mantissa calls for. *)
Lemma round_aux_shape s (p : positive) e :
  let E := fexp (Z.pos (digits2_pos p) + e) in
  e ≤ E →
  match binary_round_aux prec emax s (Z.pos p) e loc_Exact with
  | S754_zero s' => s' = s
  | S754_infinity s' => s' = s ∧ emax - prec < E + 1
  | S754_nan => False
  | S754_finite s' m' e' => s' = s ∧ bounded prec emax m' e' = true
  end.
Proof.
  intros E HE. unfold binary_round_aux.
  destruct (shr_fexp prec emax (Z.pos p) e loc_Exact) as [r1 e1] eqn:H1.
  apply shr_fexp_value in H1 as (He1 & Hm1 & _); [|done]. cbn [fst snd Zdigits2] in He1, Hm1.
  fold E in He1, Hm1. replace (Z.max 0 (E - e)) with (E - e) in * by lia.
  assert (e1 = E) as -> by lia. destruct (shift_bounds p e HE) as [Hb Hlow].
  fold E in Hb, Hlow. rewrite <- Hm1 in Hb, Hlow.
  set (m := round_nearest_even (shr_m r1) (loc_of_shr_record r1)).
  assert (0 ≤ m ≤ 2 ^ prec ∧ (2 ^ (prec - 1) ≤ m ∨ E = emin)) as [Hm Hlow'].
  { destruct (round_nearest_cases (shr_m r1) (loc_of_shr_record r1)) as [Hc|Hc];
      fold m in Hc; rewrite Hc; destruct Hlow; lia. }
  destruct (shr_fexp prec emax m E loc_Exact) as [r2 e2] eqn:H2.
  apply renormalised in H2 as [He2 Hr2]; [|done|done|unfold E, SpecFloat.fexp; lia].
  destruct (shr_m r2) as [|q|q]; [done| |done].
  destruct (Z.leb_spec e2 (emax - prec)) as [Hle|Hgt]; split; [done|by apply bounded_spec|done|lia].
Qed.

Lemma round_shape s (p : positive) e :
  match binary_round prec emax s p e with
  | S754_zero s' => s' = s
  | S754_infinity s' => s' = s ∧ emax - prec < fexp (Z.pos (digits2_pos p) + e) + 1
  | S754_nan => False
  | S754_finite s' m' e' => s' = s ∧ bounded prec emax m' e' = true
  end.
Proof.
  unfold binary_round, shl_align.
  destruct (fexp (Z.pos (digits2_pos p) + e) - e) as [|d|d] eqn:Hd.
  - apply round_aux_shape. lia.
  - apply round_aux_shape. lia.
  - pose proof (round_aux_shape s (Pos.iter xO p d) (fexp (Z.pos (digits2_pos p) + e))) as H.
    cbv zeta in H. rewrite shl_digits in H.
    replace (Z.pos (digits2_pos p) + Z.pos d + fexp (Z.pos (digits2_pos p) + e))
      with (Z.pos (digits2_pos p) + e) in H by lia. apply H. lia.
Qed.

End format.
