(* ===== verification/Json.v ===== *)
(** JSON values as the document loader sees them ([nlohmann::ordered_json]): the
    tree, the accessors the loader and the writer use, the conversions between
    integers, [double] and [float], and the interface of the text layer, which is
    a library and stays a parameter.

    An integer is its mathematical value: the library's two integer kinds differ
    only in range, and the loader's one test of the kind is a test of range. *)

From Stdlib Require Import Floats.SpecFloat.
From S2P Require Import Prelude Errors Geometry Rounding.

Local Open Scope string_scope.

(** ** Values *)

Inductive Json :=
  | JNull
  | JBool (b : bool)
  | JInteger (z : Z)
  | JFloat (x : double)
  | JString (s : string)
  | JArray (l : list Json)
  | JObject (l : list (string * Json)).

Section json_ind.
Variable P : Json → Prop.
Hypothesis Pnull : P JNull.
Hypothesis Pbool : ∀ b, P (JBool b).
Hypothesis Pint : ∀ z, P (JInteger z).
Hypothesis Pfloat : ∀ x, P (JFloat x).
Hypothesis Pstring : ∀ s, P (JString s).
Hypothesis Parray : ∀ l, Forall P l → P (JArray l).
Hypothesis Pobject : ∀ l, Forall (λ m, P m.2) l → P (JObject l).

Fixpoint json_ind' (j : Json) : P j :=
  match j with
  | JNull => Pnull
  | JBool b => Pbool b
  | JInteger z => Pint z
  | JFloat x => Pfloat x
  | JString s => Pstring s
  | JArray l =>
    Parray l ((fix go l : Forall P l :=
      match l with [] => Forall_nil_2 _ | j :: l => Forall_cons_2 _ _ _ (json_ind' j) (go l) end) l)
  | JObject l =>
    Pobject l ((fix go l : Forall (λ m, P m.2) l :=
      match l with
      | [] => Forall_nil_2 _
      | m :: l => Forall_cons_2 _ _ _ (json_ind' m.2) (go l)
      end) l)
  end.
End json_ind.

(** ** Objects

    The members in order; [contains] and [at] find the first with the key, and
    [node[key] = value] replaces it or appends. *)

Abbreviation Members := (list (string * Json)).

Fixpoint member (key : string) (l : Members) : option Json :=
  match l with
  | [] => None
  | (k, v) :: rest => if decide (k = key) then Some v else member key rest
  end.

Fixpoint put (key : string) (value : Json) (l : Members) : Members :=
  match l with
  | [] => [(key, value)]
  | (k, v) :: rest => if decide (k = key) then (k, value) :: rest else (k, v) :: put key value rest
  end.

Definition json_at (key : string) (j : Json) : option Json :=
  match j with JObject l => member key l | _ => None end.

Definition contains (key : string) (j : Json) : bool := bool_decide (is_Some (json_at key j)).

Definition is_object (j : Json) : bool := match j with JObject _ => true | _ => false end.

Lemma member_put_eq key v l : member key (put key v l) = Some v.
Proof.
  induction l as [|[k w] l IH]; cbn; [by rewrite decide_True|].
  destruct (decide (k = key)) as [->|Hne]; cbn; [by rewrite decide_True|by rewrite decide_False].
Qed.

Lemma member_put_ne key key' v l : key ≠ key' → member key (put key' v l) = member key l.
Proof.
  intros Hne. induction l as [|[k w] l IH]; cbn; [by rewrite decide_False|].
  destruct (decide (k = key')) as [->|Hk]; cbn; [by rewrite !decide_False|].
  by destruct (decide (k = key)).
Qed.

(** ** Arrays

    The loaders' loop over an array, handing each element and its position to a
    reader and stopping at the first failure. *)

Fixpoint each {A} (read : nat → Json → Result A) (i : nat) (l : list Json) : Result (list A) :=
  match l with
  | [] => Ok []
  | j :: rest => x ← read i j; r ← each read (S i) rest; Ok (x :: r)
  end.

Lemma each_written {A} (read : nat → Json → Result A) (write : A → Json) l i :
  (∀ i x, x ∈ l → read i (write x) = Ok x) → each read i (write <$> l) = Ok l.
Proof.
  revert i. induction l as [|x l IH]; intros i Hr; [done|]. cbn.
  rewrite Hr by (by left). cbn. rewrite IH; [done|]. intros; apply Hr. by right.
Qed.

Lemma each_Ok {A} (read : nat → Json → Result A) (P : A → Prop) l i r :
  (∀ i j x, read i j = Ok x → P x) → each read i l = Ok r →
  Forall P r ∧ length r = length l.
Proof.
  intros Hp. revert i r. induction l as [|j l IH]; intros i r; cbn.
  { intros [= <-]. by split. }
  destruct (read i j) as [x|] eqn:Hx; cbn; [|done].
  destruct (each read (S i) l) as [r'|] eqn:Hr; cbn; [|done]. intros [= <-].
  destruct (IH _ _ Hr) as [Hf Hl]. cbn. split; [constructor; eauto|lia].
Qed.

(** ** Numbers

    [get<double>()] of an integer, and the two conversions between [double] and
    [float]: round to nearest, ties to even. *)

Definition double_of_integer (z : Z) : double := binary_normalize 53 1024 z 0 false.

(** [get<double>()]. *)
Definition number_of (value : Json) : option double :=
  match value with
  | JInteger z => Some (double_of_integer z)
  | JFloat x => Some x
  | _ => None
  end.

Definition signed (s : bool) (m : positive) : Z := if s then Z.neg m else Z.pos m.

Definition float_of_double (x : double) : float :=
  match x with
  | S754_finite s m e => binary_normalize 24 128 (signed s m) e s
  | x => x
  end.

Definition double_of_float (x : float) : double :=
  match x with
  | S754_finite s m e => binary_normalize 53 1024 (signed s m) e s
  | x => x
  end.

Definition is_finite (x : double) : bool :=
  match x with S754_zero _ | S754_finite _ _ _ => true | _ => false end.

(** [x < 0.0]. *)
Definition is_negative (x : double) : bool := SFltb x (S754_zero false).

(** A [float] is a number of its format. *)
Definition is_float (x : float) : Prop := valid_binary 24 128 x = true.

Lemma normalize_signed prec emax s m e :
  binary_normalize prec emax (signed s m) e s = binary_round prec emax s m e.
Proof. by destruct s. Qed.

Lemma float_of_double_valid x : is_float (float_of_double x).
Proof.
  destruct x as [s|s| |s m e]; try done. unfold is_float, float_of_double. rewrite normalize_signed.
  pose proof (round_shape 24 128 ltac:(lia) s m e) as H.
  destruct (binary_round 24 128 s m e); [done|done|done|by destruct H].
Qed.

(** Every [float] has its [double]: the mantissa gains zeros. *)
Lemma double_of_float_shape s m e :
  bounded 24 128 m e = true →
  ∃ d, double_of_float (S754_finite s m e) = S754_finite s (Pos.iter xO m d) (e - Z.pos d).
Proof.
  intros [Hc He]%bounded_spec. unfold double_of_float. rewrite normalize_signed.
  unfold SpecFloat.fexp, SpecFloat.emin in Hc.
  destruct (e - SpecFloat.fexp 53 1024 (Z.pos (digits2_pos m) + e)) as [|d|d] eqn:Hd;
    unfold SpecFloat.fexp, SpecFloat.emin in Hd; [lia| |lia].
  exists d. apply round_align; unfold SpecFloat.fexp, SpecFloat.emin; lia.
Qed.

Lemma float_of_double_of_float x : is_float x → float_of_double (double_of_float x) = x.
Proof.
  destruct x as [s|s| |s m e]; try done. unfold is_float. cbn [valid_binary]. intros Hb.
  destruct (double_of_float_shape s m e Hb) as [d ->]. unfold float_of_double.
  rewrite normalize_signed, <- (positive_nat_Z d).
  apply (round_exact 24 128); [done|]. by rewrite shl_value, positive_nat_Z.
Qed.

Lemma double_of_float_finite x : is_float x → is_finite (double_of_float x) = is_finite x.
Proof.
  destruct x as [s|s| |s m e]; try done. unfold is_float. cbn [valid_binary]. intros Hb.
  by destruct (double_of_float_shape s m e Hb) as [d ->].
Qed.

(** Narrowing keeps the sign. *)
Lemma narrowed_not_negative x :
  is_negative x = false → is_negative (double_of_float (float_of_double x)) = false.
Proof.
  destruct x as [s|s| |s m e]; try done. destruct s; [done|]. intros _.
  pose proof (float_of_double_valid (S754_finite false m e)) as Hv. revert Hv.
  unfold float_of_double. rewrite normalize_signed.
  pose proof (round_shape 24 128 ltac:(lia) false m e) as H.
  destruct (binary_round 24 128 false m e) as [s|s| |s m' e']; [by subst|by destruct H as [-> _]|done|].
  intros Hv. destruct H as [-> Hb]. by destruct (double_of_float_shape false m' e' Hb) as [d ->].
Qed.

Lemma double_of_integer_finite z : - 2 ^ 63 ≤ z < 2 ^ 64 → is_finite (double_of_integer z) = true.
Proof.
  intros Hz. unfold double_of_integer. destruct z as [|p|p]; [done|..]; cbn [binary_normalize].
  - pose proof (round_shape 53 1024 ltac:(lia) false p 0) as H.
    pose proof (digits_le p 64 ltac:(lia) ltac:(lia)) as Hd.
    unfold SpecFloat.fexp, SpecFloat.emin in H.
    destruct (binary_round 53 1024 false p 0); [done|lia|done|done].
  - pose proof (round_shape 53 1024 ltac:(lia) true p 0) as H.
    pose proof (digits_le p 64 ltac:(lia) ltac:(lia)) as Hd.
    unfold SpecFloat.fexp, SpecFloat.emin in H.
    destruct (binary_round 53 1024 true p 0); [done|lia|done|done].
Qed.

Definition zero : double := S754_zero false.
Definition one : double := double_of_integer 1.

(** ** The text layer

    What a JSON value can hold: integers of 64 bits and objects whose keys differ;
    [p] says which numbers. *)

Fixpoint json_all (p : double → bool) (j : Json) : bool :=
  match j with
  | JInteger z => bool_decide (- 2 ^ 63 ≤ z < 2 ^ 64)
  | JFloat x => p x
  | JArray l => forallb (json_all p) l
  | JObject l => bool_decide (NoDup l.*1) && forallb (λ m, json_all p m.2) l
  | _ => true
  end.

Definition well_keyed : Json → bool := json_all (λ _, true).
Definition storable : Json → bool := json_all is_finite.

(** The value [dump] writes: JSON has no spelling for a number that is not
    finite. *)
Fixpoint dumped (j : Json) : Json :=
  match j with
  | JFloat x => if is_finite x then JFloat x else JNull
  | JArray l => JArray (dumped <$> l)
  | JObject l => JObject ((λ m, (m.1, dumped m.2)) <$> l)
  | j => j
  end.

(** [json_parse] is [Json::parse], which throws [parse_error] on text that is not
    JSON and [out_of_range] on a number no [double] holds; [json_dump] is [dump],
    which throws on a string that is not UTF-8.  The laws are the library's
    documented behaviour: what is dumped parses back, and what is parsed is a
    value the library can hold, of finite numbers. *)
Inductive Parsed :=
  | ParsedValue (j : Json)
  | ParseError (what : string) (byte : nat)
  | OutOfRange (what : string).

Class JsonText := {
  json_parse : string → Parsed;
  json_dump : Z → Json → option string;
  parse_dump indent j t :
    well_keyed j = true → json_dump indent j = Some t → json_parse t = ParsedValue (dumped j);
  parse_storable t j : json_parse t = ParsedValue j → storable j = true
}.

Lemma dumped_storable j : storable j = true → dumped j = j.
Proof.
  unfold storable. induction j as [| | |x| |l IH|l IH] using json_ind'; cbn; try done; intros Hf.
  - by rewrite Hf.
  - f_equal. induction IH as [|j l Hj IH IHl]; [done|]. cbn in *.
    apply andb_true_iff in Hf as [H1 H2]. by rewrite Hj, IHl.
  - f_equal. apply andb_true_iff in Hf as [_ Hf].
    induction IH as [|[k j] l Hj IH IHl]; [done|]. cbn in *.
    apply andb_true_iff in Hf as [H1 H2]. by rewrite Hj, IHl.
Qed.

Lemma json_all_impl (p q : double → bool) j :
  (∀ x, p x = true → q x = true) → json_all p j = true → json_all q j = true.
Proof.
  intros Hpq. induction j as [| | |x| |l IH|l IH] using json_ind'; cbn; try done; [auto|..].
  - induction IH as [|j l Hj IH IHl]; [done|]. cbn. rewrite !andb_true_iff. naive_solver.
  - rewrite !andb_true_iff. intros [Hk Hl]. split; [done|]. clear Hk.
    induction IH as [|m l Hj IH IHl]; [done|]. cbn in *. rewrite !andb_true_iff in *. naive_solver.
Qed.

Lemma storable_well_keyed j : storable j = true → well_keyed j = true.
Proof. by apply json_all_impl. Qed.

Lemma member_all p l key j :
  json_all p (JObject l) = true → member key l = Some j → json_all p j = true.
Proof.
  cbn. intros [_ Hl]%andb_true_iff. revert Hl. induction l as [|[k v] l IH]; cbn; [done|].
  intros [Hv Hl]%andb_true_iff. destruct (decide (k = key)); [by intros [= <-]|auto].
Qed.

Lemma json_at_all p key j v : json_all p j = true → json_at key j = Some v → json_all p v = true.
Proof. destruct j; try done. apply member_all. Qed.

Lemma put_keys key v l k : k ∈ (put key v l).*1 ↔ k = key ∨ k ∈ l.*1.
Proof.
  induction l as [|[k' w] l IH]; cbn; [set_solver|].
  destruct (decide (k' = key)) as [->|Hne]; cbn; set_solver.
Qed.

Lemma put_all p key v l :
  json_all p (JObject l) = true → json_all p v = true → json_all p (JObject (put key v l)) = true.
Proof.
  cbn. rewrite !andb_true_iff, !bool_decide_eq_true. intros [Hnd Hl] Hv.
  induction l as [|[k w] l IH]; cbn in *.
  { split; [apply NoDup_singleton|by rewrite Hv]. }
  apply NoDup_cons in Hnd as [Hk Hnd]. apply andb_true_iff in Hl as [Hw Hl].
  destruct (IH Hnd Hl) as [IH1 IH2]. destruct (decide (k = key)) as [->|Hne]; cbn.
  - split; [by constructor|]. by rewrite Hv, Hl.
  - split; [|by rewrite Hw, IH2]. constructor; [|done].
    change (k ∉ (put key v l).*1). rewrite put_keys. tauto.
Qed.

Lemma array_all p {A} (write : A → Json) l :
  Forall (λ x, json_all p (write x) = true) l → json_all p (JArray (write <$> l)) = true.
Proof. induction 1 as [|x l Hx Hl IH]; [done|]. cbn in *. by rewrite Hx, IH. Qed.
