(* ===== verification/JsonInstance.v ===== *)
(** One text layer that obeys the laws of [JsonText]: a value is printed as the
    binary numeral of its code.  Only the witnesses use it. *)

From Stdlib Require Import Ascii Floats.SpecFloat.
From S2P Require Import Prelude Geometry Json.

Local Open Scope string_scope.

(** ** Values as numbers *)

#[export] Program Instance spec_float_countable : Countable spec_float :=
  inj_countable'
    (λ x, match x with
          | S754_zero s => inl (inl s)
          | S754_infinity s => inl (inr s)
          | S754_nan => inr (inl tt)
          | S754_finite s m e => inr (inr (s, m, e))
          end : (bool + bool) + (unit + bool * positive * Z))
    (λ c, match c with
          | inl (inl s) => S754_zero s
          | inl (inr s) => S754_infinity s
          | inr (inl _) => S754_nan
          | inr (inr (s, m, e)) => S754_finite s m e
          end) _.
Next Obligation. by intros []. Qed.

Abbreviation Leaf := ((unit + bool) + (Z + double) + string)%type.

Fixpoint to_tree (j : Json) : gen_tree Leaf :=
  match j with
  | JNull => GenLeaf (inl (inl (inl tt)))
  | JBool b => GenLeaf (inl (inl (inr b)))
  | JInteger z => GenLeaf (inl (inr (inl z)))
  | JFloat x => GenLeaf (inl (inr (inr x)))
  | JString s => GenLeaf (inr s)
  | JArray l => GenNode 0 (to_tree <$> l)
  | JObject l => GenNode 1 ((λ m, GenNode 2 [GenLeaf (inr m.1); to_tree m.2]) <$> l)
  end.

Fixpoint of_tree (t : gen_tree Leaf) : Json :=
  match t with
  | GenLeaf (inl (inl (inl _))) => JNull
  | GenLeaf (inl (inl (inr b))) => JBool b
  | GenLeaf (inl (inr (inl z))) => JInteger z
  | GenLeaf (inl (inr (inr x))) => JFloat x
  | GenLeaf (inr s) => JString s
  | GenNode O l => JArray (of_tree <$> l)
  | GenNode _ l =>
    JObject ((λ t, match t with
                   | GenNode _ [GenLeaf (inr k); v] => (k, of_tree v)
                   | _ => ("", JNull)
                   end) <$> l)
  end.

Lemma of_to_tree j : of_tree (to_tree j) = j.
Proof.
  induction j as [| | | | |l IH|l IH] using json_ind'; cbn; try done; f_equal;
    (induction IH as [|x l Hx Hl IHl]; [done|]); cbn in *; [by rewrite Hx, IHl|].
  destruct x as [k v]; cbn in *. by rewrite Hx, IHl.
Qed.

(** ** Numbers as text *)

Fixpoint numeral (p : positive) : string :=
  match p with
  | xH => ""
  | xO p => String "0"%char (numeral p)
  | xI p => String "1"%char (numeral p)
  end.

Fixpoint of_numeral (s : string) : positive :=
  match s with
  | EmptyString => xH
  | String c s => if decide (c = "0"%char) then xO (of_numeral s) else xI (of_numeral s)
  end.

Lemma of_numeral_numeral p : of_numeral (numeral p) = p.
Proof. induction p as [p IH|p IH|]; cbn; by rewrite ?IH. Qed.

Definition numeral_dump (j : Json) : string := numeral (encode (to_tree (dumped j))).

Definition numeral_parse (text : string) : Parsed :=
  match decode (of_numeral text) with
  | Some t => if storable (of_tree t) then ParsedValue (of_tree t) else ParseError "not a value" 1
  | None => ParseError "not a numeral" 1
  end.

Lemma dumped_keys l : ((λ m : string * Json, (m.1, dumped m.2)) <$> l).*1 = l.*1.
Proof. induction l as [|m l IH]; [done|]. cbn in *. by rewrite IH. Qed.

Lemma well_keyed_dumped j : well_keyed j = true → storable (dumped j) = true.
Proof.
  unfold well_keyed, storable.
  induction j as [| | |x| |l IH|l IH] using json_ind'; cbn; try done; intros Hw.
  - destruct (is_finite x) eqn:Hx; cbn; by rewrite ?Hx.
  - induction IH as [|j l Hj IH IHl]; [done|]. cbn in *. rewrite andb_true_iff in *. naive_solver.
  - rewrite andb_true_iff in *. destruct Hw as [Hk Hw]. split.
    + change (bool_decide (NoDup ((λ m : string * Json, (m.1, dumped m.2)) <$> l).*1) = true).
      by rewrite dumped_keys.
    + clear Hk. induction IH as [|j l Hj IH IHl]; [done|]. cbn in *.
      rewrite andb_true_iff in *. naive_solver.
Qed.

Program Definition numeral_text : JsonText := {|
  json_parse := numeral_parse;
  json_dump := λ _ j, Some (numeral_dump j)
|}.
Next Obligation.
  intros _ j t Hw [= <-]. unfold numeral_parse, numeral_dump.
  rewrite of_numeral_numeral, decode_encode, of_to_tree. by rewrite well_keyed_dumped.
Qed.
Next Obligation.
  intros t j. unfold numeral_parse. destruct (decode _) as [tr|]; [|done].
  destruct (storable (of_tree tr)) eqn:Hs; [|done]. by intros [= <-].
Qed.
