(* ===== verification/DocumentReader.v ===== *)
(** Reading a document: the field readers, the shape grammar and the payloads of
    [kernel/sequence/interpreter.cpp], over the JSON tree.

    A reader returns what the code returns, messages included.  Log records and
    timers are left out. *)

From Stdlib Require Import Ascii Floats.SpecFloat.
From stdpp Require Import pretty.
From S2P Require Import Prelude EnumTable Errors StepTypes Geometry Command Sequence Json.

Local Open Scope string_scope.

(** ** Limits *)

Definition maximumDurationMs : Z := 86400000.
Definition maximumDurationNs : Z := 86400000000000.
Definition coordinateMinimum : Z := - 2 ^ 31.
Definition coordinateMaximum : Z := 2 ^ 31 - 1.
Definition minimumButtonCode : Z := 1.
Definition maximumButtonCode : Z := 255.
Definition defaultZIndex : Z := 0.

(** ** Names *)

Definition buttonNames : list (string * N * bool) := [
  ("left", button_code PointerButton.Primary, true);
  ("primary", button_code PointerButton.Primary, false);
  ("middle", button_code PointerButton.Middle, true);
  ("right", button_code PointerButton.Secondary, true);
  ("secondary", button_code PointerButton.Secondary, false);
  ("wheel_up", button_code PointerButton.WheelUp, true);
  ("wheel_down", button_code PointerButton.WheelDown, true);
  ("wheel_left", button_code PointerButton.WheelLeft, true);
  ("wheel_right", button_code PointerButton.WheelRight, true)].

Definition pathNames : list (DragPath * string) :=
  [(DragPath.Linear, "linear"); (DragPath.Cubic, "cubic")].

Definition bandNames : list (Band * string) :=
  [(Band.Annotation, "annotation"); (Band.Trail, "trail")].

Definition easingNames : list (Easing * string) :=
  [(Easing.Linear, "linear"); (Easing.InQuad, "in_quad"); (Easing.OutQuad, "out_quad");
   (Easing.InOutQuad, "in_out_quad"); (Easing.InCubic, "in_cubic");
   (Easing.OutCubic, "out_cubic"); (Easing.InOutCubic, "in_out_cubic")].

Definition axisNames : list (Axis * string) := [(Axis.X, "x"); (Axis.Y, "y")].

Definition edgeNames : list (Edge * string) := [(Edge.Min, "min"); (Edge.Max, "max")].

Definition bandForms : string := "expected annotation or trail".
Definition easingForms : string :=
  "expected linear, in_quad, out_quad, in_out_quad, in_cubic, out_cubic or in_out_cubic".
Definition axisForms : string := "expected x or y".
Definition edgeForms : string := "expected min or max".
Definition colorForms : string := "expected '#rrggbb' or '#rrggbbaa'".

(** ** Pointers and errors *)

Definition child_pointer (base token : string) : string := base +:+ "/" +:+ token.

Definition element_pointer (base : string) (index : nat) : string :=
  child_pointer base (to_string (N.of_nat index)).

Definition step_pointer (index : nat) : string :=
  element_pointer (child_pointer "" "steps") index.

Definition step_subject (label : string) (index : nat) : string :=
  if decide (label = "") then "step at index " +:+ to_string (N.of_nat index)
  else "step '" +:+ label +:+ "'".

Record Scope := MkScope { origin : string; pointer : string; subject : string }.

Definition reject {T} (scope : Scope) (ptr reason : string) : Result T :=
  fail ErrorCode.InvalidArgument
    (origin scope +:+ ptr +:+ ": " +:+
     (if decide (subject scope = "") then "" else subject scope +:+ ": ") +:+ reason).

Definition nested (scope : Scope) (ptr : string) : Scope :=
  MkScope (origin scope) ptr (subject scope).

(** A text between double quotes, as the messages quote JSON. *)
Definition quoted (text : string) : string :=
  let quote := String (ascii_of_N 34) "" in quote +:+ text +:+ quote.

(** ** Field readers *)

Definition require_string (scope : Scope) (node : Json) (field : string) : Result string :=
  let ptr := child_pointer (pointer scope) field in
  match json_at field node with
  | None => reject scope ptr "missing required field"
  | Some (JString text) => Ok text
  | Some _ => reject scope ptr "must be a string"
  end.

Definition bounded_integer (scope : Scope) (ptr : string) (value : Json) (low high : Z)
    : Result Z :=
  let out_of_range :=
    reject scope ptr ("must be an integer between " +:+ pretty low +:+ " and " +:+ pretty high) in
  match value with
  | JInteger raw =>
    if decide (2 ^ 63 - 1 < raw) then out_of_range
    else if decide (raw < low ∨ high < raw) then out_of_range
    else Ok raw
  | _ => reject scope ptr "must be an integer"
  end.

Definition optional_integer (scope : Scope) (node : Json) (field : string)
    (fallback low high : Z) : Result Z :=
  match json_at field node with
  | None => Ok fallback
  | Some value => bounded_integer scope (child_pointer (pointer scope) field) value low high
  end.

Definition require_integer (scope : Scope) (node : Json) (field : string) (low high : Z)
    : Result Z :=
  let ptr := child_pointer (pointer scope) field in
  match json_at field node with
  | None => reject scope ptr "missing required field"
  | Some value => bounded_integer scope ptr value low high
  end.

Definition read_point (scope : Scope) (ptr : string) (value : Json) : Result Point :=
  match value with
  | JArray [x; y] =>
    x ← bounded_integer scope (element_pointer ptr 0) x coordinateMinimum coordinateMaximum;
    y ← bounded_integer scope (element_pointer ptr 1) y coordinateMinimum coordinateMaximum;
    Ok (MkPoint x y)
  | _ => reject scope ptr "must be a two-element [x, y] array"
  end.

Definition require_point (scope : Scope) (node : Json) (field : string) : Result Point :=
  let ptr := child_pointer (pointer scope) field in
  match json_at field node with
  | None => reject scope ptr "missing required field"
  | Some value => read_point scope ptr value
  end.

Definition optional_point (scope : Scope) (node : Json) (field : string)
    : Result (option Point) :=
  match json_at field node with
  | None => Ok None
  | Some value =>
    point ← read_point scope (child_pointer (pointer scope) field) value; Ok (Some point)
  end.

Definition find_button (text : string) : option N :=
  list_find (λ e, e.1.1 = text) buttonNames ≫= λ p, Some p.2.1.2.

Definition require_button (scope : Scope) (node : Json) : Result N :=
  let ptr := child_pointer (pointer scope) "button" in
  match json_at "button" node with
  | None => Ok primaryButton
  | Some (JString text) =>
    match find_button text with
    | None =>
      reject scope ptr
        ("unknown button '" +:+ text +:+
         "'; expected left, middle, right, a wheel direction, or a code in 1..255")
    | Some code => Ok code
    end
  | Some value =>
    code ← bounded_integer scope ptr value minimumButtonCode maximumButtonCode;
    Ok (Z.to_N code)
  end.

Definition require_options (scope : Scope) (node : Json) : Result DragOptions :=
  let ptr := child_pointer (pointer scope) "options" in
  match json_at "options" node with
  | None => Ok default_drag_options
  | Some value =>
    if negb (is_object value) then reject scope ptr "must be an object"
    else
      let inner := nested scope ptr in
      steps ← optional_integer inner value "steps" (interpolation_steps default_drag_options)
                minimumInterpolationSteps maximumInterpolationSteps;
      dwell ← optional_integer inner value "step_dwell_ms" (step_dwell default_drag_options)
                0 maximumDurationMs;
      path ← (if contains "path" value then
                text ← require_string inner value "path";
                match value_of pathNames text with
                | None =>
                  reject inner (child_pointer ptr "path")
                    ("unknown path '" +:+ text +:+ "'; expected linear or cubic")
                | Some path => Ok path
                end
              else Ok (drag_path default_drag_options));
      Ok (MkDragOptions steps dwell path)
  end.

Definition read_number (scope : Scope) (ptr : string) (value : Json) : Result double :=
  match number_of value with
  | Some x => Ok x
  | None => reject scope ptr "must be a number"
  end.

Definition read_control (scope : Scope) (ptr : string) (value : Json) : Result PointF :=
  match value with
  | JArray [x; y] =>
    x ← read_number scope (element_pointer ptr 0) x;
    y ← read_number scope (element_pointer ptr 1) y;
    Ok (MkPointF x y)
  | _ => reject scope ptr "must be a two-element [x, y] array"
  end.

Definition require_curve (scope : Scope) (node : Json) : Result Curve :=
  let ptr := child_pointer (pointer scope) "curve" in
  match json_at "curve" node with
  | None => reject scope ptr "missing required field"
  | Some (JArray ((_ :: _ :: _) as l)) =>
    points ← each (λ i, read_control scope (element_pointer ptr i)) 0 l; Ok (MkCurve points)
  | Some _ => reject scope ptr "must be an array of at least two [x, y] control points"
  end.

Definition optional_enum {E} `{EqDecision E} (scope : Scope) (node : Json) (field : string)
    (table : list (E * string)) (fallback : E) (what forms : string) : Result E :=
  let ptr := child_pointer (pointer scope) field in
  match json_at field node with
  | None => Ok fallback
  | Some (JString text) =>
    match value_of table text with
    | None => reject scope ptr ("unknown " +:+ what +:+ " '" +:+ text +:+ "'; " +:+ forms)
    | Some value => Ok value
    end
  | Some _ => reject scope ptr ("must be a " +:+ what +:+ " name; " +:+ forms)
  end.

(** ** Colours *)

Definition hex_digit (text : ascii) : option N :=
  let n := N_of_ascii text in
  if (48 <=? n)%N && (n <=? 57)%N then Some (n - 48)%N
  else if (97 <=? n)%N && (n <=? 102)%N then Some (n - 97 + 10)%N
  else if (65 <=? n)%N && (n <=? 70)%N then Some (n - 65 + 10)%N
  else None.

Definition hex_byte (high low : ascii) : option N :=
  match hex_digit high, hex_digit low with
  | Some high, Some low => Some (high * 16 + low)%N
  | _, _ => None
  end.

Definition color_from_text (text : string) : option Color :=
  match String.list_ascii_of_string text with
  | ["#"%char; r1; r0; g1; g0; b1; b0] =>
    match hex_byte r1 r0, hex_byte g1 g0, hex_byte b1 b0 with
    | Some r, Some g, Some b => Some (MkColor r g b 255)
    | _, _, _ => None
    end
  | ["#"%char; r1; r0; g1; g0; b1; b0; a1; a0] =>
    match hex_byte r1 r0, hex_byte g1 g0, hex_byte b1 b0, hex_byte a1 a0 with
    | Some r, Some g, Some b, Some a => Some (MkColor r g b a)
    | _, _, _, _ => None
    end
  | _ => None
  end.

Definition require_color (scope : Scope) (node : Json) (field : string) : Result Color :=
  let ptr := child_pointer (pointer scope) field in
  match json_at field node with
  | None => reject scope ptr ("missing required field; " +:+ colorForms)
  | Some (JString text) =>
    match color_from_text text with
    | None => reject scope ptr ("invalid color '" +:+ text +:+ "'; " +:+ colorForms)
    | Some color => Ok color
    end
  | Some _ => reject scope ptr ("must be a color string; " +:+ colorForms)
  end.

(** ** Numbers and points of shapes *)

Definition require_number (scope : Scope) (node : Json) (field : string) : Result double :=
  let ptr := child_pointer (pointer scope) field in
  match json_at field node with
  | None => reject scope ptr "missing required field"
  | Some value => read_number scope ptr value
  end.

Definition optional_number (scope : Scope) (node : Json) (field : string) (fallback : double)
    : Result double :=
  match json_at field node with
  | None => Ok fallback
  | Some value => read_number scope (child_pointer (pointer scope) field) value
  end.

Definition require_extent (scope : Scope) (node : Json) (field : string) : Result double :=
  value ← require_number scope node field;
  if is_negative value
  then reject scope (child_pointer (pointer scope) field) "must not be negative"
  else Ok value.

(** A shape's points lie in the overlay's own space, which is never spelled. *)
Definition default_space : CoordinateSpaceId := MkSpace 0.

Definition read_space_point (scope : Scope) (ptr : string) (value : Json) : Result SpacePoint :=
  match value with
  | JArray [x; y] =>
    x ← read_number scope (element_pointer ptr 0) x;
    y ← read_number scope (element_pointer ptr 1) y;
    Ok (MkSpacePoint x y default_space)
  | _ => reject scope ptr "must be a two-element [x, y] array"
  end.

Definition require_space_point (scope : Scope) (node : Json) (field : string)
    : Result SpacePoint :=
  let ptr := child_pointer (pointer scope) field in
  match json_at field node with
  | None => reject scope ptr "missing required field"
  | Some value => read_space_point scope ptr value
  end.

(** ** Geometry *)

Definition geometryKeys : list string := ["rect"; "ellipse"; "polygon"; "path"].

Definition read_rect (scope : Scope) (ptr : string) (value : Json) : Result Geometry :=
  if negb (is_object value) then reject scope ptr "rect must be an object with x, y, w and h"
  else
    let inner := nested scope ptr in
    x ← require_number inner value "x";
    y ← require_number inner value "y";
    w ← require_extent inner value "w";
    h ← require_extent inner value "h";
    Ok (Rect (MkSpaceRect x y w h default_space)).

Definition read_ellipse (scope : Scope) (ptr : string) (value : Json) : Result Geometry :=
  if negb (is_object value) then
    reject scope ptr "ellipse must be an object with a center and a radius"
  else
    let inner := nested scope ptr in
    center ← require_space_point inner value "center";
    let has_radius := contains "radius" value in
    let has_x := contains "radius_x" value in
    let has_y := contains "radius_y" value in
    if has_radius then
      if has_x || has_y then
        reject inner ptr
          "ellipse takes 'radius', or both 'radius_x' and 'radius_y', never both spellings"
      else
        radius ← require_extent inner value "radius"; Ok (Ellipse center radius radius)
    else if has_x && has_y then
      x ← require_extent inner value "radius_x";
      y ← require_extent inner value "radius_y";
      Ok (Ellipse center x y)
    else
      reject inner ptr "ellipse needs 'radius', or both 'radius_x' and 'radius_y'".

Definition read_polygon (scope : Scope) (ptr : string) (value : Json) : Result Geometry :=
  match value with
  | JArray ((_ :: _ :: _ :: _) as l) =>
    points ← each (λ i, read_space_point scope (element_pointer ptr i)) 0 l; Ok (Polygon points)
  | _ => reject scope ptr "polygon must be an array of at least three [x, y] points"
  end.

Definition count_true (l : list bool) : nat := length (filter (λ b, b = true) l).

Definition read_path_command (scope : Scope) (ptr : string) (value : Json)
    : Result PathCommand :=
  match value with
  | JString text =>
    if decide (text = "close") then Ok ClosePath
    else
      reject scope ptr
        ("unknown path command '" +:+ text +:+ "'; " +:+ quoted "close" +:+
         " is the only bare-string command")
  | JObject _ =>
    let has_move := contains "move" value in
    let has_line := contains "line" value in
    let has_bezier := contains "bezier" value in
    if decide (count_true [has_move; has_line; has_bezier] = 1%nat) then
      let inner := nested scope ptr in
      if has_move then point ← require_space_point inner value "move"; Ok (MoveTo point)
      else if has_line then point ← require_space_point inner value "line"; Ok (LineTo point)
      else
        let control_ptr := child_pointer ptr "bezier" in
        match json_at "bezier" value with
        | Some (JArray ((_ :: _) as l)) =>
          points ← each (λ i, read_space_point scope (element_pointer control_ptr i)) 0 l;
          Ok (BezierTo points)
        | _ =>
          reject scope control_ptr
            "bezier must be an array of at least one [x, y] control point"
        end
    else reject scope ptr "must carry exactly one of 'move', 'line' and 'bezier'"
  | _ =>
    reject scope ptr
      ("must be " +:+ quoted "close" +:+
       " or a single-key object naming move, line or bezier")
  end.

Definition read_path_commands (scope : Scope) (ptr : string) (value : Json)
    : Result (list PathCommand) :=
  match value with
  | JArray l => each (λ i, read_path_command scope (element_pointer ptr i)) 0 l
  | _ => reject scope ptr "must be an array of path commands"
  end.

Definition read_path (scope : Scope) (ptr : string) (value : Json) : Result Geometry :=
  match value with
  | JArray _ => path ← read_path_commands scope ptr value; Ok (Path path false)
  | JObject _ =>
    let inner := nested scope ptr in
    match json_at "commands" value with
    | None => reject inner (child_pointer ptr "commands") "missing required field"
    | Some commands =>
      path ← read_path_commands inner (child_pointer ptr "commands") commands;
      match json_at "closed" value with
      | None => Ok (Path path false)
      | Some (JBool closed) => Ok (Path path closed)
      | Some _ => reject inner (child_pointer ptr "closed") "must be a boolean"
      end
    end
  | _ =>
    reject scope ptr
      "path must be an array of commands, or an object carrying 'commands' and 'closed'"
  end.

Definition read_geometry (scope : Scope) (ptr : string) (shape : Json) : Result Geometry :=
  let found := filter (λ key, contains key shape = true) geometryKeys in
  if decide (length found = 1%nat) then
    match json_at "rect" shape with
    | Some value => read_rect scope (child_pointer ptr "rect") value
    | None =>
      match json_at "ellipse" shape with
      | Some value => read_ellipse scope (child_pointer ptr "ellipse") value
      | None =>
        match json_at "polygon" shape with
        | Some value => read_polygon scope (child_pointer ptr "polygon") value
        | None => read_path scope (child_pointer ptr "path") (default JNull (json_at "path" shape))
        end
      end
    end
  else
    reject scope ptr
      ("shape needs exactly one geometry key of rect, ellipse, polygon or path; found " +:+
       match found with [] => "none" | _ => String.concat ", " found end).

(** ** Styling *)

(** A [StrokeStyle]'s [width_px] is [1.0F]. *)
Definition default_width : float := binary_normalize 24 128 1 0 false.

Definition read_stroke (scope : Scope) (ptr : string) (value : Json) : Result StrokeStyle :=
  if negb (is_object value) then
    reject scope ptr "stroke must be an object with a color and an optional width"
  else
    let inner := nested scope ptr in
    color ← require_color inner value "color";
    width ← optional_number inner value "width" (double_of_float default_width);
    if is_negative width then
      reject inner (child_pointer ptr "width") "must not be negative"
    else Ok (MkStroke color (float_of_double width)).

Definition read_fill (scope : Scope) (ptr : string) (value : Json) : Result FillStyle :=
  if negb (is_object value) then reject scope ptr "fill must be an object with a color"
  else
    color ← require_color (nested scope ptr) value "color"; Ok (MkFill color).

Definition lifetimeForms : string :=
  "expected " +:+ quoted "persistent" +:+ ", { " +:+ quoted "ttl_ms" +:+ ": N } or { " +:+
  quoted "fade_ms" +:+ ": N }".

Definition read_lifetime (scope : Scope) (ptr : string) (value : Json) : Result LifetimePolicy :=
  match value with
  | JString text =>
    if decide (text = "persistent") then Ok Persistent
    else reject scope ptr ("unknown lifetime '" +:+ text +:+ "'; " +:+ lifetimeForms)
  | JObject _ =>
    match json_at "ttl_ms" value, json_at "fade_ms" value with
    | Some ms, None =>
      ms ← bounded_integer scope (child_pointer ptr "ttl_ms") ms 0 maximumDurationMs; Ok (Ttl ms)
    | None, Some ms =>
      ms ← bounded_integer scope (child_pointer ptr "fade_ms") ms 0 maximumDurationMs; Ok (Fade ms)
    | _, _ =>
      reject scope ptr ("needs exactly one of 'ttl_ms' and 'fade_ms'; " +:+ lifetimeForms)
    end
  | _ => reject scope ptr ("must be a lifetime; " +:+ lifetimeForms)
  end.

(** ** Animations *)

Definition read_channel (scope : Scope) (node : Json) : Result Channel :=
  easing ← optional_enum scope node "easing" easingNames Easing.Linear "easing" easingForms;
  duration ← require_integer scope node "duration_ms" 0 maximumDurationMs;
  Ok (MkChannel easing duration).

(** The part the four channels share: absent, not an object, or read. *)
Definition optional_channel {A} (scope : Scope) (ptr : string) (value : Json) (field : string)
    (read : Scope → Json → Channel → Result A) : Result (option A) :=
  match json_at field value with
  | None => Ok None
  | Some node =>
    let channel_ptr := child_pointer ptr field in
    if negb (is_object node) then reject scope channel_ptr "must be an object"
    else
      let inner := nested scope channel_ptr in
      base ← read_channel inner node;
      channel ← read inner node base;
      Ok (Some channel)
  end.

Definition read_scale (inner : Scope) (node : Json) (base : Channel) : Result ScaleChannel :=
  from ← optional_number inner node "from" one;
  to ← optional_number inner node "to" one;
  Ok (MkScale base from to).

Definition read_opacity (inner : Scope) (node : Json) (base : Channel) : Result OpacityChannel :=
  from ← optional_number inner node "from" one;
  to ← optional_number inner node "to" one;
  Ok (MkOpacity base from to).

Definition read_translate (inner : Scope) (node : Json) (base : Channel)
    : Result TranslateChannel :=
  dx ← optional_number inner node "dx" zero;
  dy ← optional_number inner node "dy" zero;
  Ok (MkTranslate base dx dy).

Definition read_reveal (inner : Scope) (node : Json) (base : Channel) : Result RevealChannel :=
  axis ← optional_enum inner node "axis" axisNames Axis.X "axis" axisForms;
  edge ← optional_enum inner node "from_edge" edgeNames Edge.Min "edge" edgeForms;
  from ← optional_number inner node "from" zero;
  to ← optional_number inner node "to" one;
  Ok (MkReveal base axis edge from to).

Definition read_animation (scope : Scope) (ptr : string) (value : Json) : Result AnimationSpec :=
  if negb (is_object value) then
    reject scope ptr
      "animation must be an object of scale, opacity, translate and reveal channels"
  else
    scale ← optional_channel scope ptr value "scale" read_scale;
    opacity ← optional_channel scope ptr value "opacity" read_opacity;
    translate ← optional_channel scope ptr value "translate" read_translate;
    reveal ← optional_channel scope ptr value "reveal" read_reveal;
    Ok (MkAnimation scale opacity translate reveal).

(** ** Shapes *)

(** An optional member of a shape, read by its own reader. *)
Definition optional_member {A} (inner : Scope) (ptr : string) (value : Json) (field : string)
    (read : Scope → string → Json → Result A) : Result (option A) :=
  match json_at field value with
  | None => Ok None
  | Some node => a ← read inner (child_pointer ptr field) node; Ok (Some a)
  end.

Definition read_shape (scope : Scope) (ptr : string) (value : Json) : Result Shape :=
  if negb (is_object value) then reject scope ptr "shape must be an object"
  else
    let inner := nested scope ptr in
    geometry ← read_geometry inner ptr value;
    stroke ← optional_member inner ptr value "stroke" read_stroke;
    fill ← optional_member inner ptr value "fill" read_fill;
    lifetime ← optional_member inner ptr value "lifetime" read_lifetime;
    band ← optional_enum inner value "band" bandNames Band.Annotation "band" bandForms;
    z ← optional_integer inner value "z" defaultZIndex coordinateMinimum coordinateMaximum;
    animation ← optional_member inner ptr value "animation" read_animation;
    Ok (MkShape geometry stroke fill (default Persistent lifetime) band z animation).

Definition require_shape (scope : Scope) (node : Json) : Result Shape :=
  let ptr := child_pointer (pointer scope) "shape" in
  match json_at "shape" node with
  | None => reject scope ptr "missing required field"
  | Some value => read_shape scope ptr value
  end.

Definition require_handle (scope : Scope) (node : Json) : Result string :=
  text ← require_string scope node "handle";
  if decide (text = "") then
    reject scope (child_pointer (pointer scope) "handle") "must not be empty"
  else Ok text.

Definition optional_handle (scope : Scope) (node : Json) : Result string :=
  if contains "handle" node then require_handle scope node else Ok "".

(** ** Payloads *)

Definition parse_capture (scope : Scope) (node : Json) : Result Command :=
  let has_out := contains "out" node in
  let has_locator := contains "locator" node in
  if eqb has_out has_locator then
    reject scope (pointer scope) "screen.capture needs exactly one of 'out' and 'locator'"
  else if has_out then
    output ← require_string scope node "out"; Ok (CaptureCommand output "")
  else
    locator ← require_string scope node "locator"; Ok (CaptureCommand "" locator).

Definition parse_wait (scope : Scope) (node : Json) : Result Command :=
  match json_at "ms" node, json_at "ns" node with
  | Some ms, None =>
    value ← bounded_integer scope (child_pointer (pointer scope) "ms") ms 0 maximumDurationMs;
    Ok (WaitCommand (ms_to_ns value))
  | None, Some ns =>
    value ← bounded_integer scope (child_pointer (pointer scope) "ns") ns 0 maximumDurationNs;
    Ok (WaitCommand value)
  | _, _ => reject scope (pointer scope) "time.wait needs exactly one of 'ms' and 'ns'"
  end.

Definition parse_payload (scope : Scope) (node : Json) (kind : CommandKind) : Result Command :=
  match kind with
  | CommandKind.Type_ => text ← require_string scope node "text"; Ok (TypeCommand text)
  | CommandKind.Key => text ← require_string scope node "key"; Ok (KeyCommand text)
  | CommandKind.KeyDown => text ← require_string scope node "key"; Ok (KeyDownCommand text)
  | CommandKind.KeyUp => text ← require_string scope node "key"; Ok (KeyUpCommand text)
  | CommandKind.Click => button ← require_button scope node; Ok (ClickCommand button)
  | CommandKind.ClickAt =>
    at_ ← require_point scope node "at";
    button ← require_button scope node;
    Ok (ClickAtCommand at_ button)
  | CommandKind.Press => button ← require_button scope node; Ok (PressCommand button)
  | CommandKind.Release => button ← require_button scope node; Ok (ReleaseCommand button)
  | CommandKind.Scroll =>
    dx ← optional_integer scope node "dx" 0 coordinateMinimum coordinateMaximum;
    dy ← optional_integer scope node "dy" 0 coordinateMinimum coordinateMaximum;
    Ok (ScrollCommand dx dy)
  | CommandKind.Warp => to_ ← require_point scope node "to"; Ok (WarpCommand to_)
  | CommandKind.Move =>
    from_ ← optional_point scope node "from";
    to_ ← require_point scope node "to";
    options ← require_options scope node;
    Ok (MoveCommand from_ to_ options)
  | CommandKind.Follow =>
    curve ← require_curve scope node;
    options ← require_options scope node;
    Ok (FollowCommand curve options)
  | CommandKind.Drag =>
    from_ ← require_point scope node "from";
    to_ ← require_point scope node "to";
    button ← require_button scope node;
    options ← require_options scope node;
    Ok (DragCommand from_ to_ button options)
  | CommandKind.Capture => parse_capture scope node
  | CommandKind.Wait => parse_wait scope node
  | CommandKind.OverlayAdd =>
    handle ← optional_handle scope node;
    shape ← require_shape scope node;
    Ok (OverlayAddCommand handle shape)
  | CommandKind.OverlayUpdate =>
    handle ← require_handle scope node;
    shape ← require_shape scope node;
    Ok (OverlayUpdateCommand handle shape)
  | CommandKind.OverlayRemove =>
    handle ← require_handle scope node; Ok (OverlayRemoveCommand handle)
  | CommandKind.OverlayClear => Ok OverlayClearCommand
  | CommandKind.OverlayGrab => Ok OverlayGrabCommand
  | CommandKind.OverlayRelease => Ok OverlayReleaseCommand
  | CommandKind.OverlayAttach =>
    handle ← require_handle scope node;
    offset ← optional_point scope node "offset";
    Ok (OverlayAttachCommand handle offset)
  | CommandKind.OverlayDetach =>
    handle ← require_handle scope node; Ok (OverlayDetachCommand handle)
  | _ => fail ErrorCode.InternalFault "no sequence payload parser for this command kind"
  end.
