(* ===== verification/DocumentWriter.v ===== *)
(** Writing a document: the payload, shape and dependency writers of
    [kernel/sequence/interpreter.cpp].  A node under construction is its members;
    [node[key] = value] is [put]. *)

From Stdlib Require Import Ascii Floats.SpecFloat.
From S2P Require Import Prelude EnumTable Errors StepTypes Geometry Command Sequence Json.
From S2P Require Import DocumentReader.

Local Open Scope string_scope.

(** ** Plain fields *)

Definition is_default_options (options : DragOptions) : bool :=
  bool_decide (interpolation_steps options = interpolation_steps default_drag_options) &&
  bool_decide (step_dwell options = step_dwell default_drag_options) &&
  bool_decide (drag_path options = drag_path default_drag_options).

Definition path_name (value : DragPath) : string := text_of pathNames value "linear".

Definition point_json (point : Point) : Json := JArray [JInteger (px point); JInteger (py point)].

Definition write_point (field : string) (point : Point) (node : Members) : Members :=
  put field (point_json point) node.

Definition button_json (code : N) : Json :=
  match list_find (λ e, e.2 = true ∧ e.1.2 = code) buttonNames with
  | Some (_, entry) => JString entry.1.1
  | None => JInteger (Z.of_N code)
  end.

Definition write_button (code : N) (node : Members) : Members :=
  put "button" (button_json code) node.

Definition options_json (options : DragOptions) : Json :=
  JObject (put "path" (JString (path_name (drag_path options)))
    (put "step_dwell_ms" (JInteger (step_dwell options))
       (put "steps" (JInteger (interpolation_steps options)) []))).

Definition write_options (options : DragOptions) (node : Members) : Members :=
  if is_default_options options then node else put "options" (options_json options) node.

(** ** Shapes *)

(** The [string[]] of [color_text] is in range: a channel is a [uint8_t]. *)
Definition hex_char (n : N) : ascii :=
  match String.get (N.to_nat n) "0123456789abcdef" with Some c => c | None => "0"%char end.

Definition hex_text (value : N) (rest : string) : string :=
  String (hex_char (N.shiftr value 4)) (String (hex_char (N.land value 15)) rest).

Definition color_text (color : Color) : string :=
  String "#" (hex_text (col_r color) (hex_text (col_g color) (hex_text (col_b color)
    (if decide (col_a color = 255%N) then "" else hex_text (col_a color) "")))).

Definition space_point_json (point : SpacePoint) : Json :=
  JArray [JFloat (sp_x point); JFloat (sp_y point)].

(** [enum_text]; the fallback is the table's first name. *)
Definition enum_text {E} `{EqDecision E} (table : list (E * string)) (value : E) : string :=
  text_of table value (from_option snd "" (head table)).

Definition path_command_json (command : PathCommand) : Json :=
  match command with
  | MoveTo point => JObject (put "move" (space_point_json point) [])
  | LineTo point => JObject (put "line" (space_point_json point) [])
  | BezierTo points => JObject (put "bezier" (JArray (space_point_json <$> points)) [])
  | ClosePath => JString "close"
  end.

Definition rect_json (bounds : SpaceRect) : Json :=
  JObject (put "h" (JFloat (sr_h bounds)) (put "w" (JFloat (sr_w bounds))
    (put "y" (JFloat (sr_y bounds)) (put "x" (JFloat (sr_x bounds)) [])))).

Definition ellipse_json (center : SpacePoint) (radius_x radius_y : double) : Json :=
  let written := put "center" (space_point_json center) [] in
  JObject
    (if SFeqb radius_x radius_y then put "radius" (JFloat radius_x) written
     else put "radius_y" (JFloat radius_y) (put "radius_x" (JFloat radius_x) written)).

Definition path_json (commands : list PathCommand) (closed : bool) : Json :=
  let commands := JArray (path_command_json <$> commands) in
  if closed then JObject (put "closed" (JBool closed) (put "commands" commands []))
  else commands.

Definition write_geometry (geometry : Geometry) (node : Members) : Members :=
  match geometry with
  | Rect bounds => put "rect" (rect_json bounds) node
  | Ellipse center radius_x radius_y => put "ellipse" (ellipse_json center radius_x radius_y) node
  | Polygon points => put "polygon" (JArray (space_point_json <$> points)) node
  | Path commands closed => put "path" (path_json commands closed) node
  end.

Definition write_channel (base : Channel) : Members :=
  put "duration_ms" (JInteger (channel_duration base))
    (put "easing" (JString (enum_text easingNames (easing base))) []).

Definition scale_json (c : ScaleChannel) : Json :=
  JObject (put "to" (JFloat (scale_to c)) (put "from" (JFloat (scale_from c))
    (write_channel (scale_channel c)))).

Definition opacity_json (c : OpacityChannel) : Json :=
  JObject (put "to" (JFloat (opacity_to c)) (put "from" (JFloat (opacity_from c))
    (write_channel (opacity_channel c)))).

Definition translate_json (c : TranslateChannel) : Json :=
  JObject (put "dy" (JFloat (translate_dy c)) (put "dx" (JFloat (translate_dx c))
    (write_channel (translate_channel c)))).

Definition reveal_json (c : RevealChannel) : Json :=
  JObject (put "to" (JFloat (reveal_to c)) (put "from" (JFloat (reveal_from c))
    (put "from_edge" (JString (enum_text edgeNames (from_edge c)))
      (put "axis" (JString (enum_text axisNames (reveal_axis c)))
        (write_channel (reveal_channel c)))))).

(** [if( value.has_value() ) node[field] = ...]. *)
Definition put_optional {A} (field : string) (write : A → Json) (value : option A)
    (node : Members) : Members :=
  match value with
  | Some a => put field (write a) node
  | None => node
  end.

Definition animation_json (a : AnimationSpec) : Json :=
  JObject (put_optional "reveal" reveal_json (anim_reveal a)
    (put_optional "translate" translate_json (anim_translate a)
      (put_optional "opacity" opacity_json (anim_opacity a)
        (put_optional "scale" scale_json (anim_scale a) [])))).

Definition stroke_json (s : StrokeStyle) : Json :=
  JObject (put "width" (JFloat (double_of_float (width_px s)))
    (put "color" (JString (color_text (stroke_color s))) [])).

Definition fill_json (f : FillStyle) : Json :=
  JObject (put "color" (JString (color_text (fill_color f))) []).

Definition lifetime_json (l : LifetimePolicy) : option Json :=
  match l with
  | Ttl ms => Some (JObject (put "ttl_ms" (JInteger ms) []))
  | Fade ms => Some (JObject (put "fade_ms" (JInteger ms) []))
  | Persistent => None
  end.

Definition shape_json (shape : Shape) : Json :=
  let written := write_geometry (geometry shape) [] in
  let written := put_optional "stroke" stroke_json (stroke shape) written in
  let written := put_optional "fill" fill_json (fill shape) written in
  let written := put_optional "lifetime" (λ j, j) (lifetime_json (lifetime shape)) written in
  let written := if decide (band shape = Band.Annotation) then written
                 else put "band" (JString (enum_text bandNames (band shape))) written in
  let written := if decide (z_order shape = defaultZIndex) then written
                 else put "z" (JInteger (z_order shape)) written in
  JObject (put_optional "animation" animation_json (animation shape) written).

Definition write_shape (shape : Shape) (node : Members) : Members :=
  put "shape" (shape_json shape) node.

Definition write_handle (handle op : string) (node : Members) : Result Members :=
  if decide (handle = "") then
    fail ErrorCode.InvalidArgument
      ("a " +:+ op +:+ " step carries no handle, which the grammar cannot spell")
  else Ok (put "handle" (JString handle) node).

(** ** Payloads *)

Definition control_json (point : PointF) : Json := JArray [JFloat (fx point); JFloat (fy point)].

(** [duration_cast<milliseconds>] rounds towards zero. *)
Definition write_wait (duration : Z) (node : Members) : Members :=
  let whole := Z.quot duration 1000000 in
  if decide (ms_to_ns whole = duration) then put "ms" (JInteger whole) node
  else put "ns" (JInteger duration) node.

Definition write_payload (command : Command) (node : Members) : Result Members :=
  match command with
  | TypeCommand text => Ok (put "text" (JString text) node)
  | KeyCommand key | KeyDownCommand key | KeyUpCommand key => Ok (put "key" (JString key) node)
  | ClickCommand button | PressCommand button | ReleaseCommand button =>
    Ok (write_button button node)
  | ClickAtCommand at_ button => Ok (write_button button (write_point "at" at_ node))
  | ScrollCommand dx dy => Ok (put "dy" (JInteger dy) (put "dx" (JInteger dx) node))
  | WarpCommand to_ => Ok (write_point "to" to_ node)
  | MoveCommand from_ to_ options =>
    Ok (write_options options (write_point "to" to_ (put_optional "from" point_json from_ node)))
  | FollowCommand path options =>
    Ok (write_options options (put "curve" (JArray (control_json <$> control path)) node))
  | DragCommand from_ to_ button options =>
    Ok (write_options options
          (write_button button (write_point "to" to_ (write_point "from" from_ node))))
  | CaptureCommand output locator =>
    if eqb (bool_decide (output = "")) (bool_decide (locator = "")) then
      fail ErrorCode.InvalidArgument
        "a screen.capture step carries neither or both of output and locator, which the grammar cannot spell"
    else if decide (output = "") then Ok (put "locator" (JString locator) node)
    else Ok (put "out" (JString output) node)
  | WaitCommand duration => Ok (write_wait duration node)
  | OverlayAddCommand handle shape =>
    Ok (write_shape shape
          (if decide (handle = "") then node else put "handle" (JString handle) node))
  | OverlayUpdateCommand handle shape =>
    node ← write_handle handle "overlay.update" node; Ok (write_shape shape node)
  | OverlayRemoveCommand handle => write_handle handle "overlay.remove" node
  | OverlayClearCommand | OverlayGrabCommand | OverlayReleaseCommand => Ok node
  | OverlayAttachCommand handle offset =>
    node ← write_handle handle "overlay.attach" node;
    Ok (put_optional "offset" point_json offset node)
  | OverlayDetachCommand handle => write_handle handle "overlay.detach" node
  end.

(** ** Dependencies *)

Definition is_implicit (index : nat) (step : Step) : bool :=
  match index with
  | O => bool_decide (after step = [])
  | S previous => bool_decide (after step = [positional previous])
  end.

Definition after_entry (steps : list Step) (predecessor : StepId) : Result Json :=
  match steps !! StepTypes.index predecessor with
  | Some step =>
    if decide (id step = predecessor) then
      Ok (if decide (label step = "") then JInteger (Z.of_N (index_bits predecessor))
          else JString (label step))
    else fail ErrorCode.InvalidArgument "a step depends on an id the sequence does not contain"
  | None =>
    fail ErrorCode.InvalidArgument "a step depends on an id the sequence does not contain"
  end.

Fixpoint after_entries (steps : list Step) (l : list StepId) : Result (list Json) :=
  match l with
  | [] => Ok []
  | predecessor :: rest =>
    entry ← after_entry steps predecessor;
    entries ← after_entries steps rest;
    Ok (entry :: entries)
  end.

Definition write_after (steps : list Step) (index : nat) (step : Step) (node : Members)
    : Result Members :=
  if is_implicit index step then Ok node
  else entries ← after_entries steps (after step); Ok (put "after" (JArray entries) node).

(** ** Steps and the document *)

Definition write_error_policy (step : Step) (node : Members) : Members :=
  if decide (on_error step = ErrorPolicy.Goto) then
    put "on_error" (JString ("goto:" +:+ on_error_target step)) node
  else if decide (on_error step = ErrorPolicy.Abort) then node
  else put "on_error" (JString (error_policy_name (on_error step))) node.

Definition write_extra_grace (step : Step) (node : Members) : Members :=
  if decide (extra_grace step = 0) then node
  else put "extra_grace_ms" (JInteger (extra_grace step)) node.

Definition step_head (step : Step) : Members :=
  put "op" (JString (command_name (kind_of (command step))))
    (if decide (label step = "") then [] else put "id" (JString (label step)) []).

Definition step_json (steps : list Step) (index : nat) (step : Step) : Result Json :=
  node ← write_payload (command step) (step_head step);
  node ← write_after steps index step node;
  Ok (JObject (write_extra_grace step (write_error_policy step node))).

Fixpoint step_nodes (steps : list Step) (index : nat) (l : list Step) : Result (list Json) :=
  match l with
  | [] => Ok []
  | step :: rest =>
    node ← step_json steps index step;
    nodes ← step_nodes steps (S index) rest;
    Ok (node :: nodes)
  end.

Definition pacing_json (pacing : PacingOptions) : Json :=
  JObject (put "grace_ms" (JInteger (grace pacing))
    (put "mode" (JString (pacing_mode_name (mode pacing))) [])).

Definition write_pacing (pacing : PacingOptions) (node : Members) : Members :=
  if decide (mode pacing ≠ PacingMode.Strict ∨ grace pacing ≠ 0)
  then put "pacing" (pacing_json pacing) node else node.

(** The tree [to_json] dumps. *)
Definition document_json (sequence : Sequence) : Result Json :=
  let document := put "schema_version" (JInteger 1) [] in
  let document := if decide (name sequence = "") then document
                  else put "sequence" (JString (name sequence)) document in
  let document := write_pacing (pacing sequence) document in
  array ← step_nodes (steps sequence) 0 (steps sequence);
  Ok (JObject (put "steps" (JArray array) document)).

Section text.
Context `{JsonText}.

(** [None] is the exception [dump] throws on a string that is not UTF-8. *)
Definition to_json (sequence : Sequence) : option (Result string) :=
  match document_json sequence with
  | Err e => Some (Err e)
  | Ok document => Ok <$> json_dump 2 document
  end.

End text.
