(* ===== verification/Interpreter.v ===== *)
(** The document loader of [kernel/sequence/interpreter.cpp]: labels,
    dependencies, overlay handles, error policies and pacing, the two passes over
    the steps, and what a loaded document satisfies.

    [parse] and [to_json] are the two entry points; [load] only reads a file and
    is left out. *)

From S2P Require Import Prelude EnumTable Errors StepTypes Geometry Command Sequence Json.
From S2P Require Import DocumentReader DocumentWriter.

Local Open Scope string_scope.

(** ** Dependencies *)

Abbreviation LabelMap := (gmap string nat).

(** One entry of [after]: the position it names. *)
Definition after_target (scope : Scope) (ptr : string) (entry : Json) (labels : LabelMap)
    (step_count : nat) : Result nat :=
  match entry with
  | JString label =>
    match labels !! label with
    | None =>
      reject scope ptr ("depends on '" +:+ label +:+ "', but no step carries that label")
    | Some target => Ok target
    end
  | JInteger _ =>
    match bounded_integer scope ptr entry 0 (Z.of_nat step_count - 1) with
    | Err _ =>
      reject scope ptr
        ("depends on a step index outside the document, which holds " +:+
         to_string (N.of_nat step_count) +:+ " steps")
    | Ok position => Ok (Z.to_nat position)
    end
  | _ => reject scope ptr "each 'after' entry must be a step label or a document index"
  end.

Fixpoint parse_entries (scope : Scope) (ptr : string) (index : nat) (labels : LabelMap)
    (step_count : nat) (slot : nat) (entries : list Json) (after : list StepId)
    : Result (list StepId) :=
  match entries with
  | [] => Ok after
  | entry :: rest =>
    let entry_ptr := element_pointer ptr slot in
    target ← after_target scope entry_ptr entry labels step_count;
    if decide (target = index) then reject scope entry_ptr "depends on itself"
    else if decide (positional target ∈ after) then
      reject scope entry_ptr
        ("lists step index " +:+ to_string (N.of_nat target) +:+ " as a dependency twice")
    else
      parse_entries scope ptr index labels step_count (S slot) rest (after ++ [positional target])
  end.

Definition parse_after (scope : Scope) (node : Json) (index : nat) (labels : LabelMap)
    (step_count : nat) : Result (list StepId) :=
  let ptr := child_pointer (pointer scope) "after" in
  match json_at "after" node with
  | None => Ok (match index with O => [] | S previous => [positional previous] end)
  | Some (JArray entries) => parse_entries scope ptr index labels step_count 0 entries []
  | Some _ => reject scope ptr "'after' must be an array"
  end.

(** ** Overlay handles *)

(** The handle a command uses, and whether it retires it. *)
Definition handle_used (command : Command) : option (string * bool) :=
  match command with
  | OverlayUpdateCommand handle _ => Some (handle, false)
  | OverlayRemoveCommand handle => Some (handle, true)
  | OverlayAttachCommand handle _ => Some (handle, false)
  | OverlayDetachCommand handle => Some (handle, false)
  | _ => None
  end.

Definition track_handles (scope : Scope) (command : Command) (live : gset string)
    : Result (gset string) :=
  let ptr := child_pointer (pointer scope) "handle" in
  match command with
  | OverlayAddCommand handle _ =>
    if decide (handle = "") then Ok live
    else if decide (handle ∈ live) then
      reject scope ptr
        ("reuses handle '" +:+ handle +:+
         "' while it is still live; remove it before adding it again")
    else Ok ({[handle]} ∪ live)
  | _ =>
    match handle_used command with
    | None => Ok live
    | Some (used, retires) =>
      if decide (used ∈ live) then Ok (if retires : bool then live ∖ {[used]} else live)
      else
        reject scope ptr
          ("uses handle '" +:+ used +:+ "' before any overlay.add creates it")
    end
  end.

(** ** Error policies and pacing *)

(** [text->starts_with( "goto:" )], and what follows it. *)
Definition goto_target (text : string) : option string :=
  if String.prefix "goto:" text then Some (String.substring 5 (String.length text - 5) text)
  else None.

Definition parse_error_policy (scope : Scope) (node : Json) (labels : LabelMap)
    : Result (ErrorPolicy * string) :=
  let ptr := child_pointer (pointer scope) "on_error" in
  if negb (contains "on_error" node) then Ok (ErrorPolicy.Abort, "")
  else
    text ← require_string scope node "on_error";
    match goto_target text with
    | Some target =>
      if decide (target = "") then reject scope ptr "'goto:' needs a target step label"
      else match labels !! target with
           | None =>
             reject scope ptr ("jumps to '" +:+ target +:+ "', but no step carries that label")
           | Some _ => Ok (ErrorPolicy.Goto, target)
           end
    | None =>
      let unknown :=
        reject scope ptr
          ("unknown error policy '" +:+ text +:+ "'; expected abort, continue or goto:<label>") in
      match error_policy_from_name text with
      | None => unknown
      | Some policy =>
        if decide (policy = ErrorPolicy.Goto) then unknown else Ok (policy, "")
      end
    end.

Definition parse_pacing (scope : Scope) (document : Json) : Result PacingOptions :=
  let ptr := child_pointer (pointer scope) "pacing" in
  match json_at "pacing" document with
  | None => Ok default_pacing
  | Some value =>
    if negb (is_object value) then reject scope ptr "must be an object"
    else
      let inner := nested scope ptr in
      mode ← (if contains "mode" value then
                text ← require_string inner value "mode";
                match pacing_mode_from_name text with
                | None =>
                  reject inner (child_pointer ptr "mode")
                    ("unknown pacing mode '" +:+ text +:+
                     "'; expected strict, grace or precise")
                | Some mode => Ok mode
                end
              else Ok PacingMode.Strict);
      grace ← optional_integer inner value "grace_ms" 0 0 maximumDurationMs;
      Ok (MkPacing mode grace)
  end.

(** ** The document *)

(** The first pass: the labels by position, and where each is. *)
Fixpoint collect_labels (scope : Scope) (index : nat) (nodes : list Json) (labels : LabelMap)
    : Result (LabelMap * list string) :=
  match nodes with
  | [] => Ok (labels, [])
  | node :: rest =>
    let ptr := step_pointer index in
    if negb (is_object node) then reject scope ptr "must be an object"
    else
      let id_ptr := child_pointer ptr "id" in
      match json_at "id" node with
      | None =>
        r ← collect_labels scope (S index) rest labels; Ok (r.1, "" :: r.2)
      | Some (JString label) =>
        if decide (label = "") then reject scope id_ptr "must not be empty"
        else match labels !! label with
             | Some _ => reject scope id_ptr ("duplicate step label '" +:+ label +:+ "'")
             | None =>
               r ← collect_labels scope (S index) rest (<[label := index]> labels);
               Ok (r.1, label :: r.2)
             end
      | Some _ => reject scope id_ptr "must be a string"
      end
  end.

Definition parse_kind (scope : Scope) (node : Json) : Result CommandKind :=
  op ← require_string scope node "op";
  let op_ptr := child_pointer (pointer scope) "op" in
  match command_kind op with
  | None => reject scope op_ptr ("unknown op '" +:+ op +:+ "'")
  | Some kind =>
    if is_sequence_command kind then Ok kind
    else reject scope op_ptr ("op '" +:+ op +:+ "' is not available as a sequence step")
  end.

(** One iteration of the second pass. *)
Definition parse_step (origin : string) (labels : LabelMap) (step_count index : nat)
    (label : string) (node : Json) (live : gset string) : Result (Step * gset string) :=
  let scope := MkScope origin (step_pointer index) (step_subject label index) in
  kind ← parse_kind scope node;
  command ← parse_payload scope node kind;
  live ← track_handles scope command live;
  after ← parse_after scope node index labels step_count;
  policy ← parse_error_policy scope node labels;
  extra ← optional_integer scope node "extra_grace_ms" 0 0 maximumDurationMs;
  Ok (MkStep nil_id label command after policy.1 policy.2 extra, live).

Fixpoint parse_steps (origin : string) (labels : LabelMap) (step_count index : nat)
    (nodes : list (string * Json)) (live : gset string) : Result (list Step) :=
  match nodes with
  | [] => Ok []
  | (label, node) :: rest =>
    r ← parse_step origin labels step_count index label node live;
    steps ← parse_steps origin labels step_count (S index) rest r.2;
    Ok (r.1 :: steps)
  end.

(** What [parse_document] does before it hands the steps to [build]. *)
Definition read_document (origin : string) (document : Json)
    : Result (list Step * PacingOptions * string) :=
  let scope := MkScope origin "" "" in
  if negb (is_object document) then reject scope "/" "the document must be a JSON object"
  else
    _ ← (match json_at "schema_version" document with
         | None => Ok 1
         | Some version =>
           match bounded_integer scope (child_pointer "" "schema_version") version 1 1 with
           | Err _ =>
             reject scope (child_pointer "" "schema_version")
               "unsupported schema version; this build reads version 1"
           | Ok version => Ok version
           end
         end);
    name ← (if contains "sequence" document then require_string scope document "sequence"
            else Ok "");
    pacing ← parse_pacing scope document;
    let steps_ptr := child_pointer "" "steps" in
    match json_at "steps" document with
    | None => reject scope steps_ptr "missing required field"
    | Some (JArray nodes) =>
      if decide (maxSteps < length nodes)%nat then
        reject scope steps_ptr
          ("holds " +:+ to_string (N.of_nat (length nodes)) +:+ " steps; the maximum is " +:+
           to_string (N.of_nat maxSteps))
      else
        r ← collect_labels scope 0 nodes ∅;
        steps ← parse_steps origin r.1 (length nodes) 0 (zip r.2 nodes) ∅;
        Ok (steps, pacing, name)
    | Some _ => reject scope steps_ptr "must be an array"
    end.

Definition parse_tree (origin : string) (document : Json) : Result Sequence :=
  r ← read_document origin document;
  match build r.1.1 r.1.2 r.2 with
  | Err error =>
    reject (MkScope origin "" "") (child_pointer "" "steps") (err_message error)
  | Ok built => Ok built
  end.

Section text.
Context `{JsonText}.

(** [None] is an exception that leaves the function: only [parse_error] is
    caught. *)
Definition parse_document (text origin : string) : option (Result Sequence) :=
  match json_parse text with
  | ParsedValue document => Some (parse_tree origin document)
  | ParseError what _ => Some (reject (MkScope origin "" "") "/" what)
  | OutOfRange _ => None
  end.

Definition parse (text : string) : option (Result Sequence) := parse_document text "".

End text.
