(* ===== verification/DocumentShapes.v ===== *)
(** What the loader accepts, field by field: the ranges and shapes of the values a
    document can spell.  For every reader, a value it returns satisfies the
    predicate ([read_..._ok]), a value satisfying it is read back from what the
    writer wrote ([..._read_back]), and what is written is a value JSON can hold
    ([..._all]). *)

From Stdlib Require Import Ascii Floats.SpecFloat.
From S2P Require Import Prelude EnumTable Errors StepTypes Geometry Command Sequence Json.
From S2P Require Import DocumentReader DocumentWriter.

Local Open Scope string_scope.
Local Open Scope Z_scope.

(** ** The predicates *)

Definition in_range (low high z : Z) : Prop := low ≤ z ≤ high.
Definition coordinate_ok (z : Z) : Prop := in_range coordinateMinimum coordinateMaximum z.
Definition duration_ok (ms : Z) : Prop := in_range 0 maximumDurationMs ms.
Definition number_ok (x : double) : Prop := is_finite x = true.
Definition extent_ok (x : double) : Prop := number_ok x ∧ is_negative x = false.

Definition point_ok (p : Point) : Prop := coordinate_ok (px p) ∧ coordinate_ok (py p).

Definition button_ok (code : N) : Prop := (1 <= code <= 255)%N.

Definition options_ok (o : DragOptions) : Prop :=
  in_range minimumInterpolationSteps maximumInterpolationSteps (interpolation_steps o) ∧
  duration_ok (step_dwell o).

Definition control_ok (p : PointF) : Prop := number_ok (fx p) ∧ number_ok (fy p).

Definition curve_ok (c : Curve) : Prop :=
  (2 <= length (control c))%nat ∧ Forall control_ok (control c).

Definition color_ok (c : Color) : Prop :=
  (col_r c < 256 ∧ col_g c < 256 ∧ col_b c < 256 ∧ col_a c < 256)%N.

Definition space_point_ok (p : SpacePoint) : Prop :=
  number_ok (sp_x p) ∧ number_ok (sp_y p) ∧ sp_space p = default_space.

Definition path_command_ok (c : PathCommand) : Prop :=
  match c with
  | MoveTo p | LineTo p => space_point_ok p
  | BezierTo l => (1 <= length l)%nat ∧ Forall space_point_ok l
  | ClosePath => True
  end.

Definition geometry_ok (g : Geometry) : Prop :=
  match g with
  | Path commands _ => Forall path_command_ok commands
  | Rect b =>
    number_ok (sr_x b) ∧ number_ok (sr_y b) ∧ extent_ok (sr_w b) ∧ extent_ok (sr_h b) ∧
    sr_space b = default_space
  | Ellipse center rx ry => space_point_ok center ∧ extent_ok rx ∧ extent_ok ry
  | Polygon points => (3 <= length points)%nat ∧ Forall space_point_ok points
  end.

Definition stroke_ok (s : StrokeStyle) : Prop :=
  color_ok (stroke_color s) ∧ is_float (width_px s) ∧
  is_negative (double_of_float (width_px s)) = false.

Definition fill_ok (f : FillStyle) : Prop := color_ok (fill_color f).

Definition lifetime_ok (l : LifetimePolicy) : Prop :=
  match l with Persistent => True | Ttl ms | Fade ms => duration_ok ms end.

Definition channel_ok (c : Channel) : Prop := duration_ok (channel_duration c).

Definition scale_ok (c : ScaleChannel) : Prop :=
  channel_ok (scale_channel c) ∧ number_ok (scale_from c) ∧ number_ok (scale_to c).
Definition opacity_ok (c : OpacityChannel) : Prop :=
  channel_ok (opacity_channel c) ∧ number_ok (opacity_from c) ∧ number_ok (opacity_to c).
Definition translate_ok (c : TranslateChannel) : Prop :=
  channel_ok (translate_channel c) ∧ number_ok (translate_dx c) ∧ number_ok (translate_dy c).
Definition reveal_ok (c : RevealChannel) : Prop :=
  channel_ok (reveal_channel c) ∧ number_ok (reveal_from c) ∧ number_ok (reveal_to c).

Definition optional_ok {A} (P : A → Prop) (o : option A) : Prop :=
  match o with Some a => P a | None => True end.

Definition animation_ok (a : AnimationSpec) : Prop :=
  optional_ok scale_ok (anim_scale a) ∧ optional_ok opacity_ok (anim_opacity a) ∧
  optional_ok translate_ok (anim_translate a) ∧ optional_ok reveal_ok (anim_reveal a).

Definition shape_ok (s : Shape) : Prop :=
  geometry_ok (geometry s) ∧ optional_ok stroke_ok (stroke s) ∧ optional_ok fill_ok (fill s) ∧
  lifetime_ok (lifetime s) ∧ coordinate_ok (z_order s) ∧ optional_ok animation_ok (animation s).

(** What a writer can spell so that it reads back the same: an ellipse whose radii
    compare equal has equal radii (the two zeros compare equal), and a stroke has
    a finite width. *)
Definition geometry_spelled (g : Geometry) : Prop :=
  match g with
  | Ellipse _ rx ry => SFeqb rx ry = true → rx = ry
  | _ => True
  end.

Definition width_finite (s : Shape) : Prop :=
  optional_ok (λ st, is_finite (width_px st) = true) (stroke s).

(** ** Inverting readers *)

Ltac refused H ::= lazymatch type of H with reject _ _ _ = Ok _ => discriminate H end.

(** ** Fields: soundness *)

Lemma bounded_integer_ok sc ptr v low high z :
  bounded_integer sc ptr v low high = Ok z → in_range low high z.
Proof. unfold bounded_integer, in_range. intros H. ok_inv. lia. Qed.

Lemma bounded_integer_read_back sc ptr low high z :
  in_range low high z → high ≤ 2 ^ 63 - 1 → bounded_integer sc ptr (JInteger z) low high = Ok z.
Proof.
  unfold bounded_integer, in_range. intros Hz Hh.
  rewrite decide_False by lia. by rewrite decide_False by lia.
Qed.

Lemma optional_integer_ok sc node field fb low high z :
  in_range low high fb → optional_integer sc node field fb low high = Ok z → in_range low high z.
Proof.
  unfold optional_integer. intros Hfb H. ok_inv; [|done]. by eapply bounded_integer_ok.
Qed.

Lemma require_integer_ok sc node field low high z :
  require_integer sc node field low high = Ok z → in_range low high z.
Proof. unfold require_integer. intros H. ok_inv. by eapply bounded_integer_ok. Qed.

Lemma read_point_ok sc ptr v p : read_point sc ptr v = Ok p → point_ok p.
Proof.
  unfold read_point. intros H. ok_inv. split; by eapply bounded_integer_ok.
Qed.

Lemma require_point_ok sc node field p : require_point sc node field = Ok p → point_ok p.
Proof. unfold require_point. intros H. ok_inv. by eapply read_point_ok. Qed.

Lemma optional_point_ok sc node field o : optional_point sc node field = Ok o → optional_ok point_ok o.
Proof. unfold optional_point. intros H. ok_inv; [|done]. by eapply read_point_ok. Qed.

Lemma find_button_ok text code : find_button text = Some code → button_ok code.
Proof.
  unfold find_button. destruct (list_find _ _) as [[i e]|] eqn:He; [|done].
  intros [= <-]. apply list_find_Some in He as (Hi & _). apply list_elem_of_lookup_2 in Hi.
  assert (Forall (λ e, button_ok e.1.2) buttonNames) as Hall; [|by rewrite Forall_forall in Hall; apply Hall].
  unfold button_ok. repeat constructor; cbn; lia.
Qed.

Lemma require_button_ok sc node code : require_button sc node = Ok code → button_ok code.
Proof.
  unfold require_button. intros H. ok_inv; unfold button_ok;
    try (match goal with Hb : bounded_integer _ _ _ _ _ = _ |- _ =>
      apply bounded_integer_ok in Hb; unfold in_range, minimumButtonCode, maximumButtonCode in Hb
      end; lia); [by eapply find_button_ok|done].
Qed.

Lemma require_options_ok sc node o : require_options sc node = Ok o → options_ok o.
Proof.
  unfold require_options. intros H. ok_inv; (split; cbn;
    [first [by apply optional_integer_ok in Hx; unfold in_range; cbn; try lia|done]
    |first [by apply optional_integer_ok in Hx0; unfold in_range; cbn; try lia|done]]).
Qed.

(** ** Numbers and shapes: soundness

    A number read is finite because the tree holds no other. *)

Lemma read_number_ok sc ptr v x : storable v = true → read_number sc ptr v = Ok x → number_ok x.
Proof.
  unfold read_number, number_of, number_ok. intros Hv H.
  destruct v; try done; ok_inv; [|done]. simplify_eq/=.
  apply double_of_integer_finite. by apply bool_decide_eq_true in Hv.
Qed.

Lemma require_number_ok sc node field x :
  storable node = true → require_number sc node field = Ok x → number_ok x.
Proof.
  unfold require_number. intros Hn H. ok_inv. eapply read_number_ok; [|done].
  by eapply json_at_all.
Qed.

Lemma optional_number_ok sc node field fb x :
  storable node = true → number_ok fb → optional_number sc node field fb = Ok x → number_ok x.
Proof.
  unfold optional_number. intros Hn Hfb H. ok_inv; [|done]. eapply read_number_ok; [|done].
  by eapply json_at_all.
Qed.

Lemma require_extent_ok sc node field x :
  storable node = true → require_extent sc node field = Ok x → extent_ok x.
Proof.
  unfold require_extent. intros Hn H. ok_inv. split; [|done]. by eapply require_number_ok.
Qed.

Lemma storable_array l : storable (JArray l) = true ↔ Forall (λ j, storable j = true) l.
Proof. unfold storable. cbn. rewrite forallb_forall, Forall_forall. setoid_rewrite list_elem_of_In. done. Qed.

Lemma read_control_ok sc ptr v p : storable v = true → read_control sc ptr v = Ok p → control_ok p.
Proof.
  unfold read_control. intros Hv H. ok_inv.
  apply storable_array in Hv as [Hv1 [Hv2 _]%Forall_cons]%Forall_cons.
  split; (eapply read_number_ok; [|done]; done).
Qed.

Lemma read_space_point_ok sc ptr v p :
  storable v = true → read_space_point sc ptr v = Ok p → space_point_ok p.
Proof.
  unfold read_space_point. intros Hv H. ok_inv.
  apply storable_array in Hv as [Hv1 [Hv2 _]%Forall_cons]%Forall_cons.
  split_and!; [eapply read_number_ok; [|done]; done..|done].
Qed.

Lemma require_space_point_ok sc node field p :
  storable node = true → require_space_point sc node field = Ok p → space_point_ok p.
Proof.
  unfold require_space_point. intros Hn H. ok_inv. eapply read_space_point_ok; [|done].
  by eapply json_at_all.
Qed.

(** Reading every element of an array that JSON can hold. *)
Lemma each_storable_ok {A} (read : nat → Json → Result A) (P : A → Prop) l i r :
  (∀ i j x, storable j = true → read i j = Ok x → P x) →
  storable (JArray l) = true → each read i l = Ok r → Forall P r ∧ length r = length l.
Proof.
  intros Hp Hl%storable_array. revert i r. induction Hl as [|j l Hj Hl IH]; intros i r H; cbn in H.
  { ok_inv. by split. }
  ok_inv. destruct (IH _ _ Hx0) as [Hf Hlen]. cbn. split; [constructor; eauto|lia].
Qed.

Lemma require_curve_ok sc node c :
  storable node = true → require_curve sc node = Ok c → curve_ok c.
Proof.
  unfold require_curve. intros Hn H. ok_inv.
  match goal with Hj : json_at _ _ = Some _ |- _ => eapply json_at_all in Hj; [|done] end.
  eapply (each_storable_ok _ control_ok) in Hx as [Hf Hl]; [|intros; by eapply read_control_ok|done].
  split; [|done]. cbn in *. rewrite Hl. lia.
Qed.

Lemma hex_digit_bound c n : hex_digit c = Some n → (n < 16)%N.
Proof.
  unfold hex_digit. intros H.
  repeat match type of H with (if ?b then _ else _) = _ => destruct b eqn:?; [injection H as <-|] end;
    [..|done]; match goal with Hb : _ && _ = true |- _ => apply andb_true_iff in Hb as [? ?%N.leb_le] end;
    cbn in *; lia.
Qed.

Lemma hex_byte_bound h l n : hex_byte h l = Some n → (n < 256)%N.
Proof.
  unfold hex_byte. destruct (hex_digit h) as [a|] eqn:Ha; [|done].
  destruct (hex_digit l) as [b|] eqn:Hb; [|done]. intros [= <-].
  apply hex_digit_bound in Ha, Hb. lia.
Qed.

Lemma color_from_text_ok text c : color_from_text text = Some c → color_ok c.
Proof.
  unfold color_from_text. intros H.
  repeat match type of H with match ?x with _ => _ end = _ => destruct x eqn:?; try discriminate H end;
    injection H as <-; repeat match goal with Hb : hex_byte _ _ = Some _ |- _ =>
      apply hex_byte_bound in Hb end; unfold color_ok; cbn; split_and!; first [assumption | lia].
Qed.

Lemma require_color_ok sc node field c : require_color sc node field = Ok c → color_ok c.
Proof. unfold require_color. intros H. ok_inv. by eapply color_from_text_ok. Qed.

Lemma read_rect_ok sc ptr v g : storable v = true → read_rect sc ptr v = Ok g → geometry_ok g.
Proof.
  unfold read_rect. intros Hv H. ok_inv. cbn.
  split_and!; [by eapply require_number_ok..|by eapply require_extent_ok|by eapply require_extent_ok|done].
Qed.

Lemma read_ellipse_ok sc ptr v g : storable v = true → read_ellipse sc ptr v = Ok g → geometry_ok g.
Proof.
  unfold read_ellipse. intros Hv H. ok_inv; cbn;
    (split_and!; [by eapply require_space_point_ok|by eapply require_extent_ok..]).
Qed.

Lemma read_polygon_ok sc ptr v g : storable v = true → read_polygon sc ptr v = Ok g → geometry_ok g.
Proof.
  unfold read_polygon. intros Hv H. ok_inv.
  eapply (each_storable_ok _ space_point_ok) in Hx as [Hf Hl];
    [|intros; by eapply read_space_point_ok|done].
  split; [|done]. cbn in *. rewrite Hl. lia.
Qed.

Lemma read_path_command_ok sc ptr v c :
  storable v = true → read_path_command sc ptr v = Ok c → path_command_ok c.
Proof.
  unfold read_path_command. intros Hv H. ok_inv; cbn; try done; try by eapply require_space_point_ok.
  match goal with Hj : json_at _ _ = Some _ |- _ => eapply json_at_all in Hj; [|done] end.
  eapply (each_storable_ok _ space_point_ok) in Hx as [Hf Hlen];
    [|intros; by eapply read_space_point_ok|done].
  split; [|done]. cbn in *. rewrite Hlen. lia.
Qed.

Lemma read_path_commands_ok sc ptr v l :
  storable v = true → read_path_commands sc ptr v = Ok l → Forall path_command_ok l.
Proof.
  unfold read_path_commands. intros Hv H. ok_inv.
  eapply (each_storable_ok _ path_command_ok) in H as [Hf _];
    [done|intros; by eapply read_path_command_ok|done].
Qed.

Lemma read_path_ok sc ptr v g : storable v = true → read_path sc ptr v = Ok g → geometry_ok g.
Proof.
  unfold read_path. intros Hv H. ok_inv; cbn; (eapply read_path_commands_ok; [|done]);
    first [by eapply json_at_all | done].
Qed.

Lemma read_geometry_ok sc ptr v g :
  storable v = true → read_geometry sc ptr v = Ok g → geometry_ok g.
Proof.
  unfold read_geometry. intros Hv H. ok_inv.
  - eapply read_rect_ok; [|done]. by eapply json_at_all.
  - eapply read_ellipse_ok; [|done]. by eapply json_at_all.
  - eapply read_polygon_ok; [|done]. by eapply json_at_all.
  - eapply read_path_ok; [|done]. destruct (json_at "path" v) eqn:Hp; [|done].
    by eapply json_at_all.
Qed.

Lemma read_stroke_ok sc ptr v s : storable v = true → read_stroke sc ptr v = Ok s → stroke_ok s.
Proof.
  unfold read_stroke. intros Hv H. ok_inv. split_and!; cbn.
  - by eapply require_color_ok.
  - apply float_of_double_valid.
  - by apply narrowed_not_negative.
Qed.

Lemma read_fill_ok sc ptr v f : storable v = true → read_fill sc ptr v = Ok f → fill_ok f.
Proof. unfold read_fill. intros Hv H. ok_inv. by eapply require_color_ok. Qed.

Lemma read_lifetime_ok sc ptr v l : storable v = true → read_lifetime sc ptr v = Ok l → lifetime_ok l.
Proof. unfold read_lifetime. intros Hv H. ok_inv; try done; by eapply bounded_integer_ok. Qed.

Lemma read_channel_ok sc node c : read_channel sc node = Ok c → channel_ok c.
Proof. unfold read_channel. intros H. ok_inv. by eapply require_integer_ok. Qed.

Lemma optional_channel_ok {A} (P : A → Prop) sc ptr v field read o :
  (∀ inner node base a, storable node = true → channel_ok base →
     read inner node base = Ok a → P a) →
  storable v = true → optional_channel sc ptr v field read = Ok o → optional_ok P o.
Proof.
  unfold optional_channel. intros Hread Hv H. ok_inv; [|done]. cbn.
  eapply Hread; [by eapply json_at_all|by eapply read_channel_ok|done].
Qed.

Lemma read_animation_ok sc ptr v a :
  storable v = true → read_animation sc ptr v = Ok a → animation_ok a.
Proof.
  unfold read_animation. intros Hv H. ok_inv. split_and!; cbn;
    (eapply optional_channel_ok; [|done|done]); intros inner node base c Hnode Hbase Hr;
    unfold read_scale, read_opacity, read_translate, read_reveal in Hr; ok_inv;
    (split_and!; [done|eapply optional_number_ok; [| |done]; done..]).
Qed.

Lemma optional_member_ok {A} (P : A → Prop) inner ptr v field read (o : option A) :
  (∀ sc ptr node a, storable node = true → read sc ptr node = Ok a → P a) →
  storable v = true → optional_member inner ptr v field read = Ok o → optional_ok P o.
Proof.
  unfold optional_member. intros Hread Hv H. ok_inv; [|done]. eapply Hread; [|done].
  by eapply json_at_all.
Qed.

Lemma read_shape_ok sc ptr v s : storable v = true → read_shape sc ptr v = Ok s → shape_ok s.
Proof.
  unfold read_shape. intros Hv H. ok_inv. unfold shape_ok. cbn [geometry stroke fill lifetime z_order animation].
  split_and!.
  - by eapply read_geometry_ok.
  - eapply optional_member_ok; [apply read_stroke_ok|done|done].
  - eapply optional_member_ok; [apply read_fill_ok|done|done].
  - match goal with Hl : optional_member _ _ _ "lifetime" _ = Ok ?o |- _ =>
      eapply (optional_member_ok lifetime_ok) in Hl; [destruct o; done|apply read_lifetime_ok|done] end.
  - eapply optional_integer_ok; [|done]. done.
  - eapply optional_member_ok; [apply read_animation_ok|done|done].
Qed.

Lemma require_shape_ok sc node s :
  storable node = true → require_shape sc node = Ok s → shape_ok s.
Proof.
  unfold require_shape. intros Hn H. ok_inv. eapply read_shape_ok; [|done]. by eapply json_at_all.
Qed.

Lemma require_handle_ok sc node h : require_handle sc node = Ok h → h ≠ "".
Proof. unfold require_handle. intros H. ok_inv. done. Qed.

(** ** Reading back what was written *)

(** Looks a concrete key up in a node built by [put]. *)
Ltac members :=
  unfold contains; cbn [json_at];
  repeat first [rewrite member_put_eq | rewrite member_put_ne by done].

(** Runs a reader over its successful steps, and nothing else. *)
Ltac ret := cbn [mbind result_bind].

Lemma point_read_back sc ptr p : point_ok p → read_point sc ptr (point_json p) = Ok p.
Proof.
  intros [Hx Hy]. unfold read_point, point_json.
  rewrite !bounded_integer_read_back by done. by destruct p.
Qed.

Lemma require_point_read_back sc node field p :
  point_ok p → json_at field node = Some (point_json p) → require_point sc node field = Ok p.
Proof. intros Hp Hn. unfold require_point. rewrite Hn. by apply point_read_back. Qed.

Lemma optional_point_read_back sc node field o :
  optional_ok point_ok o → json_at field node = point_json <$> o →
  optional_point sc node field = Ok o.
Proof.
  intros Ho Hn. unfold optional_point. rewrite Hn. destruct o as [p|]; [|done]. cbn [fmap option_fmap option_map].
  by rewrite point_read_back.
Qed.

Lemma button_text_read_back :
  Forall (λ e, e.2 = true → find_button e.1.1 = Some e.1.2) buttonNames.
Proof. by apply (bool_decide_unpack _); vm_compute. Qed.

Lemma require_button_read_back sc node code :
  button_ok code → json_at "button" node = Some (button_json code) →
  require_button sc node = Ok code.
Proof.
  unfold button_ok. intros Hc Hn. unfold require_button. rewrite Hn. unfold button_json.
  destruct (list_find _ _) as [[i e]|] eqn:He.
  - apply list_find_Some in He as (Hi & [Ht <-] & _). apply list_elem_of_lookup_2 in Hi.
    pose proof button_text_read_back as Hall. rewrite Forall_forall in Hall. by rewrite Hall.
  - rewrite bounded_integer_read_back; [cbn; f_equal; lia| |done].
    unfold in_range, minimumButtonCode, maximumButtonCode. lia.
Qed.

Lemma path_name_read_back v : value_of pathNames (path_name v) = Some v.
Proof. by destruct v. Qed.

Lemma require_options_read_back sc node o :
  options_ok o →
  json_at "options" node = (if is_default_options o then None else Some (options_json o)) →
  require_options sc node = Ok o.
Proof.
  intros [Hs Hd] Hn. unfold require_options. rewrite Hn.
  destruct (is_default_options o) eqn:Hdef.
  - unfold is_default_options in Hdef. rewrite !andb_true_iff, !bool_decide_eq_true in Hdef.
    destruct Hdef as [[H1 H2] H3]. destruct o; cbn in *. by subst.
  - unfold options_json. cbn [is_object negb]. unfold optional_integer, require_string. members.
    rewrite !bounded_integer_read_back by done. ret. rewrite path_name_read_back. by destruct o.
Qed.

Lemma control_read_back sc ptr p : read_control sc ptr (control_json p) = Ok p.
Proof. by destruct p. Qed.

Lemma space_point_read_back sc ptr p :
  space_point_ok p → read_space_point sc ptr (space_point_json p) = Ok p.
Proof. intros (_ & _ & Hs). destruct p as [x y s]; cbn in *. by subst. Qed.

Lemma require_space_point_read_back sc node field p :
  space_point_ok p → json_at field node = Some (space_point_json p) →
  require_space_point sc node field = Ok p.
Proof. intros Hp Hn. unfold require_space_point. rewrite Hn. by apply space_point_read_back. Qed.

Lemma require_curve_read_back sc node c :
  curve_ok c → json_at "curve" node = Some (JArray (control_json <$> control c)) →
  require_curve sc node = Ok c.
Proof.
  intros [Hl _] Hn. unfold require_curve. rewrite Hn.
  pose proof (each_written (λ i, read_control sc (element_pointer (child_pointer (pointer sc) "curve") i))
    control_json (control c) 0 ltac:(intros; apply control_read_back)) as He.
  destruct c as [[|p [|q l]]]; cbn in *; [lia|lia|]. by rewrite He.
Qed.

(** The name tables, both ways. *)
Lemma easing_read_back v : value_of easingNames (enum_text easingNames v) = Some v.
Proof. by destruct v. Qed.
Lemma axis_read_back v : value_of axisNames (enum_text axisNames v) = Some v.
Proof. by destruct v. Qed.
Lemma edge_read_back v : value_of edgeNames (enum_text edgeNames v) = Some v.
Proof. by destruct v. Qed.
Lemma band_read_back v : value_of bandNames (enum_text bandNames v) = Some v.
Proof. by destruct v. Qed.

Lemma optional_enum_read_back {E} `{EqDecision E} sc node field (table : list (E * string)) fb what
    forms v :
  value_of table (enum_text table v) = Some v →
  json_at field node = Some (JString (enum_text table v)) →
  optional_enum sc node field table fb what forms = Ok v.
Proof. intros Hv Hn. unfold optional_enum. by rewrite Hn, Hv. Qed.

(** *** Colours *)

Lemma hex_read_back n :
  (n < 256)%N → hex_byte (hex_char (N.shiftr n 4)) (hex_char (N.land n 15)) = Some n.
Proof.
  intros Hn.
  assert (Forall (λ n, hex_byte (hex_char (N.shiftr n 4)) (hex_char (N.land n 15)) = Some n)
            (N.of_nat <$> seq 0 256)) as Hall by (apply (bool_decide_unpack _); by vm_compute).
  rewrite Forall_forall in Hall. apply Hall. apply list_elem_of_fmap. exists (N.to_nat n).
  split; [lia|]. apply elem_of_seq. lia.
Qed.

Lemma color_read_back c : color_ok c → color_from_text (color_text c) = Some c.
Proof.
  intros (Hr & Hg & Hb & Ha). unfold color_from_text, color_text, hex_text.
  destruct (decide (col_a c = 255%N)) as [Ha'|_];
    cbn [String.list_ascii_of_string]; rewrite !hex_read_back by done; destruct c; cbn in *; by subst.
Qed.

Lemma require_color_read_back sc node field c :
  color_ok c → json_at field node = Some (JString (color_text c)) →
  require_color sc node field = Ok c.
Proof. intros Hc Hn. unfold require_color. by rewrite Hn, color_read_back. Qed.

(** *** Geometry *)

Lemma require_number_read_back sc node field x :
  json_at field node = Some (JFloat x) → require_number sc node field = Ok x.
Proof. intros Hn. unfold require_number. by rewrite Hn. Qed.

Lemma optional_number_read_back sc node field fb x :
  json_at field node = Some (JFloat x) → optional_number sc node field fb = Ok x.
Proof. intros Hn. unfold optional_number. by rewrite Hn. Qed.

Lemma require_extent_read_back sc node field x :
  extent_ok x → json_at field node = Some (JFloat x) → require_extent sc node field = Ok x.
Proof.
  intros [_ Hx] Hn. unfold require_extent. rewrite (require_number_read_back _ _ _ _ Hn). ret.
  by rewrite Hx.
Qed.

Lemma rect_read_back sc ptr b : geometry_ok (Rect b) → read_rect sc ptr (rect_json b) = Ok (Rect b).
Proof.
  intros (Hx & Hy & Hw & Hh & Hs). unfold read_rect, rect_json. cbn [is_object negb].
  rewrite (require_number_read_back _ _ "x" (sr_x b)) by (by members). ret.
  rewrite (require_number_read_back _ _ "y" (sr_y b)) by (by members). ret.
  rewrite (require_extent_read_back _ _ "w" (sr_w b)) by (done || by members). ret.
  rewrite (require_extent_read_back _ _ "h" (sr_h b)) by (done || by members). ret.
  destruct b; cbn in *. by subst.
Qed.

Lemma contains_Some key j v : json_at key j = Some v → contains key j = true.
Proof. intros H. unfold contains. rewrite H. by apply bool_decide_eq_true. Qed.

Lemma contains_None key j : json_at key j = None → contains key j = false.
Proof. intros H. unfold contains. rewrite H. apply bool_decide_eq_false. by intros []. Qed.

(** Decides [contains] at a concrete key of a built node. *)
Ltac present :=
  repeat match goal with
  | |- context [contains ?key ?j] =>
    first [rewrite (contains_None key j) by (by members)
          |erewrite (contains_Some key j) by (by members)]
  end; cbn [orb andb negb eqb count_true].

Lemma ellipse_read_back sc ptr c rx ry :
  geometry_ok (Ellipse c rx ry) → geometry_spelled (Ellipse c rx ry) →
  read_ellipse sc ptr (ellipse_json c rx ry) = Ok (Ellipse c rx ry).
Proof.
  intros (Hc & Hrx & Hry) Hsp. unfold read_ellipse, ellipse_json. cbn [is_object negb].
  destruct (SFeqb rx ry) eqn:Heq; cbv zeta;
    (rewrite (require_space_point_read_back _ _ "center" c) by (done || by members)); ret; present.
  - rewrite (require_extent_read_back _ _ "radius" rx) by (done || by members). ret.
    by rewrite (Hsp Heq).
  - rewrite (require_extent_read_back _ _ "radius_x" rx) by (done || by members). ret.
    by rewrite (require_extent_read_back _ _ "radius_y" ry) by (done || by members).
Qed.

Lemma points_read_back sc (ptr : nat → string) l i :
  Forall space_point_ok l →
  each (λ i, read_space_point sc (ptr i)) i (space_point_json <$> l) = Ok l.
Proof.
  intros Hl. apply each_written. intros j x Hx. apply space_point_read_back.
  rewrite Forall_forall in Hl. auto.
Qed.

Lemma polygon_read_back sc ptr l :
  geometry_ok (Polygon l) →
  read_polygon sc ptr (JArray (space_point_json <$> l)) = Ok (Polygon l).
Proof.
  intros [Hlen Hl]. unfold read_polygon.
  pose proof (points_read_back sc (element_pointer ptr) l 0 Hl) as He.
  destruct l as [|p [|q [|r l]]]; cbn in Hlen; [lia..|]. cbn [fmap list_fmap] in He |- *.
  by rewrite He.
Qed.

Lemma path_command_read_back sc ptr c :
  path_command_ok c → read_path_command sc ptr (path_command_json c) = Ok c.
Proof.
  intros Hc. destruct c as [p|p|l|]; [| | |done]; unfold read_path_command, path_command_json;
    cbn [put]; present; cbn in Hc.
  - rewrite decide_True by done. by rewrite (require_space_point_read_back _ _ _ p).
  - rewrite decide_True by done. by rewrite (require_space_point_read_back _ _ _ p).
  - rewrite decide_True by done. destruct Hc as [Hlen Hl]. members.
    pose proof (points_read_back sc (element_pointer (child_pointer ptr "bezier")) l 0 Hl) as He.
    destruct l as [|p l]; cbn in Hlen; [lia|]. cbn [json_at member].
    rewrite decide_True by done. cbn [fmap list_fmap] in He |- *. by rewrite He.
Qed.

Lemma path_read_back sc ptr l b :
  geometry_ok (Path l b) → read_path sc ptr (path_json l b) = Ok (Path l b).
Proof.
  intros Hl. cbn in Hl. rewrite Forall_forall in Hl.
  assert (∀ sc ptr, read_path_commands sc ptr (JArray (path_command_json <$> l)) = Ok l) as Hr.
  { intros. apply each_written. intros. apply path_command_read_back. auto. }
  unfold read_path, path_json. destruct b; cbv zeta; [|by rewrite Hr].
  cbn [put]. rewrite decide_False by done. cbn [json_at member].
  rewrite (decide_True _ _ (eq_refl "commands")), Hr. ret. by rewrite decide_False, decide_True by done.
Qed.

Lemma geometry_read_back sc ptr node g :
  geometry_ok g → geometry_spelled g →
  (∀ key, key ∈ geometryKeys → json_at key node = member key (write_geometry g [])) →
  read_geometry sc ptr node = Ok g.
Proof.
  intros Hg Hsp Hn. unfold read_geometry.
  assert (∀ key, key ∈ geometryKeys →
    contains key node = bool_decide (is_Some (member key (write_geometry g [])))) as Hc.
  { intros key Hk. unfold contains. by rewrite Hn. }
  assert (filter (λ key, contains key node = true) geometryKeys =
    filter (λ key, bool_decide (is_Some (member key (write_geometry g []))) = true) geometryKeys) as ->.
  { apply list_filter_ext. intros key Hk. by rewrite Hc. }
  rewrite !Hn by (unfold geometryKeys; set_solver). destruct g as [l b|b|c rx ry|l].
  - cbn [write_geometry]. rewrite decide_True by done. cbn. by apply path_read_back.
  - cbn [write_geometry]. rewrite decide_True by done. cbn. by apply rect_read_back.
  - cbn [write_geometry]. rewrite decide_True by done. cbn. by apply ellipse_read_back.
  - cbn [write_geometry]. rewrite decide_True by done. cbn. by apply polygon_read_back.
Qed.

(** *** Styling and animation *)

Lemma stroke_read_back sc ptr s : stroke_ok s → read_stroke sc ptr (stroke_json s) = Ok s.
Proof.
  intros (Hc & Hf & Hn). unfold read_stroke, stroke_json. cbn [is_object negb].
  rewrite (require_color_read_back _ _ "color" (stroke_color s)) by (done || by members). ret.
  rewrite (optional_number_read_back _ _ "width" _ (double_of_float (width_px s))) by (by members).
  ret. rewrite Hn, float_of_double_of_float by done. by destruct s.
Qed.

Lemma fill_read_back sc ptr f : fill_ok f → read_fill sc ptr (fill_json f) = Ok f.
Proof.
  intros Hc. unfold read_fill, fill_json. cbn [is_object negb].
  rewrite (require_color_read_back _ _ "color" (fill_color f)) by (done || by members).
  by destruct f.
Qed.

Lemma lifetime_read_back sc ptr l j :
  lifetime_ok l → lifetime_json l = Some j → read_lifetime sc ptr j = Ok l.
Proof.
  intros Hl Hj. destruct l as [|ms|ms]; [done|..]; injection Hj as <-; unfold read_lifetime;
    cbn [put json_at member].
  - rewrite decide_True, decide_False by done. by rewrite bounded_integer_read_back.
  - rewrite decide_False, decide_True by done. by rewrite bounded_integer_read_back.
Qed.

Lemma channel_read_back sc node c :
  channel_ok c → json_at "easing" node = Some (JString (enum_text easingNames (easing c))) →
  json_at "duration_ms" node = Some (JInteger (channel_duration c)) →
  read_channel sc node = Ok c.
Proof.
  intros Hc He Hd. unfold read_channel, require_integer.
  rewrite (optional_enum_read_back _ _ _ _ _ _ _ (easing c)) by (done || apply easing_read_back).
  ret. rewrite Hd, bounded_integer_read_back by done. by destruct c.
Qed.

Lemma scale_read_back inner c :
  read_scale inner (scale_json c) (scale_channel c) = Ok c.
Proof.
  unfold read_scale, scale_json.
  rewrite (optional_number_read_back _ _ "from" _ (scale_from c)) by (by members). ret.
  rewrite (optional_number_read_back _ _ "to" _ (scale_to c)) by (by members). by destruct c.
Qed.

Lemma opacity_read_back inner c :
  read_opacity inner (opacity_json c) (opacity_channel c) = Ok c.
Proof.
  unfold read_opacity, opacity_json.
  rewrite (optional_number_read_back _ _ "from" _ (opacity_from c)) by (by members). ret.
  rewrite (optional_number_read_back _ _ "to" _ (opacity_to c)) by (by members). by destruct c.
Qed.

Lemma translate_read_back inner c :
  read_translate inner (translate_json c) (translate_channel c) = Ok c.
Proof.
  unfold read_translate, translate_json.
  rewrite (optional_number_read_back _ _ "dx" _ (translate_dx c)) by (by members). ret.
  rewrite (optional_number_read_back _ _ "dy" _ (translate_dy c)) by (by members). by destruct c.
Qed.

Lemma reveal_read_back inner c :
  read_reveal inner (reveal_json c) (reveal_channel c) = Ok c.
Proof.
  unfold read_reveal, reveal_json.
  rewrite (optional_enum_read_back _ _ "axis" _ _ _ _ (reveal_axis c))
    by (apply axis_read_back || by members). ret.
  rewrite (optional_enum_read_back _ _ "from_edge" _ _ _ _ (from_edge c))
    by (apply edge_read_back || by members). ret.
  rewrite (optional_number_read_back _ _ "from" _ (reveal_from c)) by (by members). ret.
  rewrite (optional_number_read_back _ _ "to" _ (reveal_to c)) by (by members). by destruct c.
Qed.

(** A channel is read back when its own fields are and its node carries the base. *)
Lemma optional_channel_read_back {A} sc ptr v field read (write : A → Members) base (o : option A) :
  (∀ inner a, read inner (JObject (write a)) (base a) = Ok a) →
  (∀ a, json_at "easing" (JObject (write a)) = Some (JString (enum_text easingNames (easing (base a))))) →
  (∀ a, json_at "duration_ms" (JObject (write a)) = Some (JInteger (channel_duration (base a)))) →
  optional_ok (λ a, channel_ok (base a)) o →
  json_at field v = (λ a, JObject (write a)) <$> o →
  optional_channel sc ptr v field read = Ok o.
Proof.
  intros Hread He Hd Ho Hv. unfold optional_channel. rewrite Hv. destruct o as [a|]; [|done].
  cbn [fmap option_fmap option_map is_object negb].
  rewrite (channel_read_back _ _ (base a)) by done. ret. by rewrite Hread.
Qed.

Lemma member_put_optional_eq {A} key (write : A → Json) o l :
  member key (put_optional key write o l) =
    match o with Some a => Some (write a) | None => member key l end.
Proof. destruct o; [|done]. apply member_put_eq. Qed.

Lemma member_put_optional_ne {A} key key' (write : A → Json) o l :
  key ≠ key' → member key (put_optional key' write o l) = member key l.
Proof. intros Hne. destruct o; [|done]. by apply member_put_ne. Qed.

(** A conditional [put] at another key. *)
Lemma member_if_ne key key' (P : Prop) `{Decision P} v (l : Members) :
  key ≠ key' →
  member key (if decide P then l else put key' v l) = member key l.
Proof. intros Hne. destruct (decide P); [done|]. by apply member_put_ne. Qed.

Ltac members ::=
  unfold contains; cbn [json_at];
  repeat first [rewrite member_put_optional_eq | rewrite member_put_optional_ne by done
               |rewrite member_put_eq | rewrite member_put_ne by done
               |rewrite member_if_ne by done].

Lemma fmap_as_match {A B} (f : A → B) (o : option A) :
  match o with Some a => Some (f a) | None => None end = f <$> o.
Proof. by destruct o. Qed.

Lemma optional_ok_impl {A} (P Q : A → Prop) o :
  (∀ a, P a → Q a) → optional_ok P o → optional_ok Q o.
Proof. destruct o; cbn; auto. Qed.

(** One channel of an animation: its node is what its writer wrote. *)
Ltac channel_back field base lemma_ :=
  erewrite (optional_channel_read_back _ _ _ field _ _ base);
    [ret|apply lemma_|by intros; members|by intros; members
    |eapply optional_ok_impl; [|eassumption]; by intros ? []|members; apply fmap_as_match].

Lemma animation_read_back sc ptr a :
  animation_ok a → read_animation sc ptr (animation_json a) = Ok a.
Proof.
  intros (Hs & Ho & Ht & Hr). unfold read_animation, animation_json. cbn [is_object negb].
  channel_back "scale" scale_channel scale_read_back.
  channel_back "opacity" opacity_channel opacity_read_back.
  channel_back "translate" translate_channel translate_read_back.
  channel_back "reveal" reveal_channel reveal_read_back.
  by destruct a.
Qed.

Lemma optional_member_read_back {A} inner ptr v field read (write : A → Json) (o : option A) :
  (∀ ptr a, o = Some a → read inner ptr (write a) = Ok a) →
  json_at field v = write <$> o → optional_member inner ptr v field read = Ok o.
Proof.
  intros Hread Hv. unfold optional_member. rewrite Hv. destruct o as [a|]; [|done].
  cbn [fmap option_fmap option_map]. by rewrite Hread.
Qed.

Lemma member_write_geometry_ne key g l :
  key ∉ geometryKeys → member key (write_geometry g l) = member key l.
Proof.
  intros Hk. unfold geometryKeys in Hk.
  destruct g; cbn [write_geometry]; apply member_put_ne; set_solver.
Qed.

Ltac members ::=
  unfold contains; cbn [json_at];
  repeat first [rewrite member_put_optional_eq | rewrite member_put_optional_ne by done
               |rewrite member_put_eq | rewrite member_put_ne by done
               |rewrite member_if_ne by done
               |rewrite member_write_geometry_ne by (unfold geometryKeys; set_solver)].

Lemma lifetime_member_read_back inner ptr node l :
  lifetime_ok l → json_at "lifetime" node = lifetime_json l →
  ∃ o, optional_member inner ptr node "lifetime" read_lifetime = Ok o ∧ default Persistent o = l.
Proof.
  intros Hl Hn. unfold optional_member. rewrite Hn.
  destruct (lifetime_json l) as [j|] eqn:Hj.
  - exists (Some l). by rewrite (lifetime_read_back _ _ l j).
  - exists None. by destruct l.
Qed.

(** A member written only when it differs from the default. *)
Lemma band_member_read_back inner node b :
  json_at "band" node =
    (if decide (b = Band.Annotation) then None else Some (JString (enum_text bandNames b))) →
  optional_enum inner node "band" bandNames Band.Annotation "band" bandForms = Ok b.
Proof.
  intros Hn. destruct (decide (b = Band.Annotation)) as [->|Hb].
  - unfold optional_enum. by rewrite Hn.
  - by apply optional_enum_read_back; [apply band_read_back|].
Qed.

Lemma optional_integer_read_back inner node field fb low high z :
  in_range low high z → high ≤ 2 ^ 63 - 1 →
  json_at field node = (if decide (z = fb) then None else Some (JInteger z)) →
  optional_integer inner node field fb low high = Ok z.
Proof.
  intros Hz Hh Hn. unfold optional_integer. rewrite Hn. destruct (decide (z = fb)) as [->|]; [done|].
  by rewrite bounded_integer_read_back.
Qed.

Lemma shape_read_back sc ptr s :
  shape_ok s → geometry_spelled (geometry s) → read_shape sc ptr (shape_json s) = Ok s.
Proof.
  intros (Hg & Hst & Hf & Hl & Hz & Ha) Hsp. unfold read_shape, shape_json. cbv zeta.
  cbn [is_object negb].
  rewrite (geometry_read_back _ _ _ (geometry s)); [ret|done|done|].
  2: { intros key Hk. unfold geometryKeys in Hk.
       repeat (apply elem_of_cons in Hk as [->|Hk]; [by members|]). by apply elem_of_nil in Hk. }
  rewrite (optional_member_read_back _ _ _ "stroke" _ stroke_json (stroke s)); [ret| |].
  2: { intros p a Heq. rewrite Heq in Hst. by apply stroke_read_back. }
  2: { members. apply fmap_as_match. }
  rewrite (optional_member_read_back _ _ _ "fill" _ fill_json (fill s)); [ret| |].
  2: { intros p a Heq. rewrite Heq in Hf. by apply fill_read_back. }
  2: { members. apply fmap_as_match. }
  edestruct (lifetime_member_read_back (nested sc ptr) ptr) as (o & -> & Ho); [exact Hl| |].
  { members. by destruct (lifetime_json (lifetime s)). }
  ret. rewrite (band_member_read_back _ _ (band s)); [ret|].
  2: { members. destruct (decide _); by members. }
  rewrite (optional_integer_read_back _ _ "z" _ _ _ (z_order s)); [ret|done|done|].
  2: { members. destruct (decide _); by members. }
  rewrite (optional_member_read_back _ _ _ "animation" _ animation_json (animation s)); [ret| |].
  - rewrite Ho. by destruct s.
  - intros p a Heq. rewrite Heq in Ha. by apply animation_read_back.
  - members. apply fmap_as_match.
Qed.

Lemma require_shape_read_back sc node s :
  shape_ok s → geometry_spelled (geometry s) → json_at "shape" node = Some (shape_json s) →
  require_shape sc node = Ok s.
Proof. intros Hs Hsp Hn. unfold require_shape. rewrite Hn. by apply shape_read_back. Qed.

Lemma require_string_read_back sc node field text :
  json_at field node = Some (JString text) → require_string sc node field = Ok text.
Proof. intros Hn. unfold require_string. by rewrite Hn. Qed.

Lemma require_handle_read_back sc node h :
  h ≠ "" → json_at "handle" node = Some (JString h) → require_handle sc node = Ok h.
Proof.
  intros Hh Hn. unfold require_handle. rewrite (require_string_read_back _ _ _ _ Hn). ret.
  by rewrite decide_False.
Qed.

(** ** What is written is JSON *)

Section written.
Context (p : double → bool) (Hp : ∀ x, is_finite x = true → p x = true).

Lemma integer_all z : - 2 ^ 63 ≤ z < 2 ^ 64 → json_all p (JInteger z) = true.
Proof. intros Hz. by apply bool_decide_eq_true. Qed.

Lemma coordinate_all z : coordinate_ok z → json_all p (JInteger z) = true.
Proof.
  intros Hz. apply integer_all. unfold coordinate_ok, in_range, coordinateMinimum, coordinateMaximum in Hz.
  lia.
Qed.

Lemma duration_all z : duration_ok z → json_all p (JInteger z) = true.
Proof.
  intros Hz. apply integer_all. unfold duration_ok, in_range, maximumDurationMs in Hz. lia.
Qed.

Lemma put_optional_all {A} key (write : A → Json) o l :
  json_all p (JObject l) = true → optional_ok (λ a, json_all p (write a) = true) o →
  json_all p (JObject (put_optional key write o l)) = true.
Proof. intros Hl Ho. destruct o as [a|]; [by apply put_all|done]. Qed.

Lemma number_all x : number_ok x → json_all p (JFloat x) = true.
Proof. apply Hp. Qed.

(** Walks a node built by [put]; what is left are the values. *)
Ltac walk := repeat first [done | apply put_all | apply put_optional_all
  | by apply number_all | by apply duration_all | by apply coordinate_all].

Lemma point_all pt : point_ok pt → json_all p (point_json pt) = true.
Proof.
  intros [Hx Hy]. unfold point_json.
  pose proof (coordinate_all _ Hx) as H1. pose proof (coordinate_all _ Hy) as H2.
  cbn [json_all forallb] in *. by rewrite H1, H2.
Qed.

Lemma button_all code : button_ok code → json_all p (button_json code) = true.
Proof.
  intros Hc. unfold button_json. destruct (list_find _ _) as [[i e]|]; [done|].
  apply integer_all. unfold button_ok in Hc. lia.
Qed.

Lemma options_all o : options_ok o → json_all p (options_json o) = true.
Proof.
  intros [Hs Hd]. unfold options_json. walk. apply integer_all.
  unfold in_range, minimumInterpolationSteps, maximumInterpolationSteps in Hs. lia.
Qed.

Lemma pair_all x y : number_ok x → number_ok y → json_all p (JArray [JFloat x; JFloat y]) = true.
Proof. intros Hx Hy. cbn. by rewrite (Hp x Hx), (Hp y Hy). Qed.

Lemma control_all c : control_ok c → json_all p (control_json c) = true.
Proof. intros [Hx Hy]. by apply pair_all. Qed.

Lemma space_point_all c : space_point_ok c → json_all p (space_point_json c) = true.
Proof. intros (Hx & Hy & _). by apply pair_all. Qed.

Lemma points_all l : Forall space_point_ok l → json_all p (JArray (space_point_json <$> l)) = true.
Proof. intros Hl. apply array_all. eapply Forall_impl; [done|]. apply space_point_all. Qed.

Lemma path_command_all c : path_command_ok c → json_all p (path_command_json c) = true.
Proof.
  intros Hc. destruct c as [pt|pt|l|]; cbn [path_command_ok path_command_json] in *; walk;
    [by apply space_point_all..|by apply points_all; destruct Hc].
Qed.

Lemma path_all l b : Forall path_command_ok l → json_all p (path_json l b) = true.
Proof.
  intros Hl. assert (json_all p (JArray (path_command_json <$> l)) = true) as Ha.
  { apply array_all. eapply Forall_impl; [done|]. apply path_command_all. }
  unfold path_json. destruct b; cbv zeta; [|done]. walk.
Qed.

Lemma write_geometry_all g l :
  geometry_ok g → json_all p (JObject l) = true → json_all p (JObject (write_geometry g l)) = true.
Proof.
  intros Hg Hl. destruct g as [cs b|b|c rx ry|pts]; cbn [geometry_ok write_geometry] in *;
    apply put_all; try done.
  - by apply path_all.
  - destruct Hg as (Hx & Hy & [Hw _] & [Hh _] & _). unfold rect_json. walk.
  - destruct Hg as (Hc & [Hx _] & [Hy _]). unfold ellipse_json. cbv zeta.
    destruct (SFeqb rx ry); walk; by apply space_point_all.
  - by apply points_all; destruct Hg.
Qed.

Lemma channel_all c : channel_ok c → json_all p (JObject (write_channel c)) = true.
Proof. intros Hc. unfold write_channel. walk. Qed.

Lemma animation_all a : animation_ok a → json_all p (animation_json a) = true.
Proof.
  intros (Hs & Ho & Ht & Hr). unfold animation_json.
  walk; (eapply optional_ok_impl; [|eassumption]); intros c (Hc & Hx & Hy);
    unfold scale_json, opacity_json, translate_json, reveal_json; walk; by apply channel_all.
Qed.

Lemma stroke_all s :
  stroke_ok s → p (double_of_float (width_px s)) = true → json_all p (stroke_json s) = true.
Proof. intros Hs Hw. unfold stroke_json. walk. Qed.

Lemma lifetime_all l :
  lifetime_ok l → optional_ok (λ j, json_all p j = true) (lifetime_json l).
Proof. intros Hl. destruct l; cbn [lifetime_json optional_ok]; walk. Qed.

Lemma shape_all s :
  shape_ok s → optional_ok (λ st, p (double_of_float (width_px st)) = true) (stroke s) →
  json_all p (shape_json s) = true.
Proof.
  intros (Hg & Hst & Hf & Hl & Hz & Ha) Hw. unfold shape_json. cbv zeta.
  apply put_optional_all; [|eapply optional_ok_impl; [|done]; apply animation_all].
  assert (∀ (P : Prop) `{Decision P} k v l, json_all p (JObject l) = true → json_all p v = true →
    json_all p (JObject (if decide P then l else put k v l)) = true) as Hif.
  { intros P ? k v l Hb Hv. destruct (decide P); [done|]. by apply put_all. }
  apply Hif; [|by apply coordinate_all]. apply Hif; [|done].
  apply put_optional_all; [|by apply lifetime_all].
  apply put_optional_all; [|destruct (fill s); [unfold fill_json; walk|done]].
  apply put_optional_all; [by apply write_geometry_all|].
  destruct (stroke s); [by apply stroke_all|done].
Qed.

End written.
