(* ===== verification/DocumentSteps.v ===== *)
(** What the loader accepts, step by step: the commands and the steps a document
    can spell, that the loader returns no others, and that what the writer wrote
    for one is read back as it was. *)

From S2P Require Import Prelude EnumTable Errors StepTypes Geometry Command Sequence Json.
From S2P Require Import DocumentReader DocumentWriter Interpreter DocumentShapes.

Local Open Scope string_scope.
Local Open Scope Z_scope.

(** ** Commands *)

Definition command_ok (c : Command) : Prop :=
  match c with
  | TypeCommand _ | KeyCommand _ | KeyDownCommand _ | KeyUpCommand _
  | OverlayClearCommand | OverlayGrabCommand | OverlayReleaseCommand => True
  | ClickCommand button | PressCommand button | ReleaseCommand button => button_ok button
  | ClickAtCommand at_ button => point_ok at_ ∧ button_ok button
  | ScrollCommand dx dy => coordinate_ok dx ∧ coordinate_ok dy
  | WarpCommand to_ => point_ok to_
  | MoveCommand from_ to_ options => optional_ok point_ok from_ ∧ point_ok to_ ∧ options_ok options
  | FollowCommand path options => curve_ok path ∧ options_ok options
  | DragCommand from_ to_ button options =>
    point_ok from_ ∧ point_ok to_ ∧ button_ok button ∧ options_ok options
  | CaptureCommand output locator => output = "" ∨ locator = ""
  | WaitCommand duration => in_range 0 maximumDurationNs duration
  | OverlayAddCommand _ shape => shape_ok shape
  | OverlayUpdateCommand handle shape => handle ≠ "" ∧ shape_ok shape
  | OverlayRemoveCommand handle | OverlayDetachCommand handle => handle ≠ ""
  | OverlayAttachCommand handle offset => handle ≠ "" ∧ optional_ok point_ok offset
  end.

Definition shape_of (c : Command) : option Shape :=
  match c with
  | OverlayAddCommand _ shape | OverlayUpdateCommand _ shape => Some shape
  | _ => None
  end.

(** What the writer can spell: a capture names its output or its locator, and see
    [geometry_spelled]. *)
Definition command_spelled (c : Command) : Prop :=
  c ≠ CaptureCommand "" "" ∧ optional_ok (λ s, geometry_spelled (geometry s)) (shape_of c).

Definition command_finite (c : Command) : Prop := optional_ok width_finite (shape_of c).

Lemma parse_wait_ok sc node c : parse_wait sc node = Ok c → command_ok c.
Proof.
  unfold parse_wait. intros H. ok_inv; apply bounded_integer_ok in Hx; [|done].
  unfold command_ok, in_range, ms_to_ns, maximumDurationMs, maximumDurationNs in *. lia.
Qed.

Lemma parse_capture_ok sc node c : parse_capture sc node = Ok c → command_ok c.
Proof. unfold parse_capture. intros H. ok_inv; cbn; auto. Qed.

#[local] Hint Resolve require_point_ok optional_point_ok require_button_ok require_options_ok
  require_curve_ok require_shape_ok require_handle_ok : loader.

Lemma parse_payload_ok sc node kind c :
  storable node = true → parse_payload sc node kind = Ok c → command_ok c ∧ kind_of c = kind.
Proof.
  intros Hn H. destruct kind; cbn [parse_payload] in H; ok_inv;
    try (split; [cbn [command_ok]; split_and?; eauto with loader; fail|done]).
  - split; [by eapply parse_capture_ok|]. unfold parse_capture in H. by ok_inv.
  - split; [cbn [command_ok]; split; (eapply optional_integer_ok; [|done]; done)|done].
  - split; [by eapply parse_wait_ok|]. unfold parse_wait in H. by ok_inv.
Qed.

(** ** Reading a payload back *)

Lemma member_write_options_ne key o l :
  key ≠ "options" → member key (write_options o l) = member key l.
Proof.
  intros Hne. unfold write_options. destruct (is_default_options o); [done|]. by apply member_put_ne.
Qed.

Lemma member_write_options_eq o l :
  member "options" l = None →
  member "options" (write_options o l) =
    if is_default_options o then None else Some (options_json o).
Proof.
  intros Hl. unfold write_options. destruct (is_default_options o); [done|]. apply member_put_eq.
Qed.

Lemma written_integer_read_back sc node field fb low high z :
  in_range low high z → high ≤ 2 ^ 63 - 1 → json_at field node = Some (JInteger z) →
  optional_integer sc node field fb low high = Ok z.
Proof. intros Hz Hh Hn. unfold optional_integer. rewrite Hn. by apply bounded_integer_read_back. Qed.

(** The members a step's node carries besides its payload. *)
Definition step_keys : list string := ["id"; "op"; "after"; "on_error"; "extra_grace_ms"].

Section payload.
Context (sc : Scope) (node : Json) (head payload : Members).
Context (Hhead : ∀ key, key ∉ step_keys → member key head = None).
Context (Hnode : ∀ key, key ∉ step_keys → json_at key node = member key payload).

(** A payload member of the finished node, and what the writer put there. *)
Ltac at_payload :=
  rewrite Hnode by (unfold step_keys; set_solver);
  repeat first [rewrite member_write_options_ne by done
               |rewrite member_write_options_eq by at_payload_base
               |rewrite member_put_optional_eq | rewrite member_put_optional_ne by done
               |rewrite member_put_eq | rewrite member_put_ne by done
               |rewrite member_if_ne by done
               |rewrite Hhead by (unfold step_keys; set_solver)]; try done
with at_payload_base :=
  repeat first [rewrite member_put_optional_ne by done | rewrite member_put_ne by done
               |rewrite Hhead by (unfold step_keys; set_solver)]; done.

Lemma wait_read_back d :
  in_range 0 maximumDurationNs d → payload = write_wait d head →
  parse_wait sc node = Ok (WaitCommand d).
Proof using Hhead Hnode.
  intros Hd Hp. unfold parse_wait.
  assert (json_at "ms" node = member "ms" payload) as -> by (apply Hnode; unfold step_keys; set_solver).
  assert (json_at "ns" node = member "ns" payload) as -> by (apply Hnode; unfold step_keys; set_solver).
  subst payload. unfold write_wait. cbv zeta.
  unfold in_range, maximumDurationNs, ms_to_ns in *.
  destruct (decide _) as [Hms|Hns].
  - rewrite member_put_eq, member_put_ne, Hhead by (done || unfold step_keys; set_solver).
    rewrite bounded_integer_read_back; [ret; unfold ms_to_ns; by rewrite Hms| |done].
    unfold in_range, maximumDurationMs. lia.
  - rewrite member_put_eq, member_put_ne, Hhead by (done || unfold step_keys; set_solver).
    rewrite bounded_integer_read_back; [done|done|done].
Qed.

Lemma capture_read_back o l :
  o = "" ∨ l = "" → CaptureCommand o l ≠ CaptureCommand "" "" →
  write_payload (CaptureCommand o l) head = Ok payload →
  parse_capture sc node = Ok (CaptureCommand o l).
Proof using Hhead Hnode.
  intros Hok Hne Hw. unfold parse_capture, contains, require_string.
  assert (json_at "out" node = member "out" payload) as -> by (apply Hnode; unfold step_keys; set_solver).
  assert (json_at "locator" node = member "locator" payload) as ->
    by (apply Hnode; unfold step_keys; set_solver).
  cbn [write_payload] in Hw. destruct (eqb _ _) eqn:Heq; [done|].
  destruct (decide (o = "")) as [->|Ho]; injection Hw as <-;
    rewrite member_put_eq, member_put_ne, Hhead by (done || unfold step_keys; set_solver).
  - done.
  - destruct Hok as [? | ->]; done.
Qed.

Lemma payload_read_back c :
  command_ok c → command_spelled c → write_payload c head = Ok payload →
  parse_payload sc node (kind_of c) = Ok c.
Proof using Hhead Hnode.
  intros Hok [Hcap Hsp] Hw.
  destruct c; cbn [kind_of parse_payload]; cbn [command_ok shape_of optional_ok] in Hok, Hsp;
    try (by eapply capture_read_back); try (injection Hw as Hw; by apply wait_read_back);
    cbn [write_payload] in Hw; unfold write_handle in Hw; ok_inv; try done; destruct_and?;
    unfold write_shape, write_button, write_point in *; try subst payload.
  all: repeat first
    [ erewrite require_string_read_back; [|at_payload]
    | erewrite require_point_read_back; [| |at_payload]; [|done]
    | erewrite optional_point_read_back; [| |at_payload; by rewrite ?fmap_as_match]; [|done]
    | erewrite require_button_read_back; [| |at_payload]; [|done]
    | erewrite require_options_read_back; [| |at_payload]; [|done]
    | erewrite require_curve_read_back; [| |at_payload]; [|done]
    | erewrite require_shape_read_back; [| | |at_payload]; [|done..]
    | erewrite require_handle_read_back; [| |at_payload]; [|done]
    | erewrite written_integer_read_back; [| | |at_payload]; [|done..]
    | progress ret ]; try done.
  unfold optional_handle. destruct (decide (handle = "")) as [->|Hh].
  - by rewrite contains_None by at_payload.
  - erewrite contains_Some by at_payload.
    by erewrite require_handle_read_back; [| |at_payload].
Qed.

End payload.

(** ** Writing a payload *)

Lemma member_write_wait_ne key d l :
  key ≠ "ms" → key ≠ "ns" → member key (write_wait d l) = member key l.
Proof. intros H1 H2. unfold write_wait. cbv zeta. destruct (decide _); by apply member_put_ne. Qed.

(** The writer leaves the members of [step_keys] alone. *)
Lemma write_payload_frame c head l key :
  key ∈ step_keys → write_payload c head = Ok l → member key l = member key head.
Proof.
  intros Hkey Hw. assert (key ≠ "options" ∧ key ≠ "ms" ∧ key ≠ "ns") as (Ho & Hm & Hn)
    by (unfold step_keys in Hkey; set_solver).
  assert (∀ k v l, k ∉ step_keys → member key (put k v l) = member key l) as Hput.
  { intros k v l' Hk. apply member_put_ne. by intros ->. }
  destruct c; cbn [write_payload] in Hw; unfold write_handle in Hw; ok_inv; try done;
    unfold write_shape, write_button, write_point;
    rewrite ?member_write_options_ne, ?member_write_wait_ne by done;
    repeat match goal with
    | |- member _ (put_optional _ _ ?o _) = _ => destruct o; cbn [put_optional]
    | |- member _ (put _ _ _) = _ => rewrite Hput by (unfold step_keys; set_solver)
    | |- member _ (if decide ?P then _ else _) = _ => destruct (decide P)
    end; done.
Qed.

Lemma write_payload_total c head :
  command_ok c → command_spelled c → is_Some (match write_payload c head with
                                              | Ok l => Some l | Err _ => None end).
Proof.
  intros Hok [Hcap _].
  destruct c; cbn [command_ok write_payload] in *; unfold write_handle; destruct_and?;
    repeat first [rewrite decide_False by done | progress ret]; try by eexists.
  destruct (decide (output = "")) as [->|Ho], (decide (locator = "")) as [->|Hl];
    repeat case_bool_decide; cbn; try done; try by eexists. by destruct Hok.
Qed.

Section payload_all.
Context (p : double → bool) (Hp : ∀ x, is_finite x = true → p x = true).

Lemma write_options_all o l :
  json_all p (JObject l) = true → options_ok o → json_all p (JObject (write_options o l)) = true.
Proof.
  intros Hl Ho. unfold write_options. destruct (is_default_options o); [done|].
  apply put_all; [done|]. by apply options_all.
Qed.

Lemma write_wait_all d l :
  in_range 0 maximumDurationNs d → json_all p (JObject l) = true →
  json_all p (JObject (write_wait d l)) = true.
Proof.
  unfold in_range, maximumDurationNs. intros Hd Hl. unfold write_wait. cbv zeta.
  destruct (decide _); (apply put_all; [done|]); apply integer_all; [|lia].
  pose proof (Z.quot_pos d 1000000). pose proof (Z.quot_le_upper_bound d 1000000 86400000). lia.
Qed.

Lemma curve_all c : curve_ok c → json_all p (JArray (control_json <$> control c)) = true.
Proof.
  intros [_ Hc]. apply array_all. eapply Forall_impl; [done|]. by apply control_all.
Qed.

Lemma write_payload_all c head l :
  command_ok c →
  optional_ok (λ s, optional_ok (λ st, p (double_of_float (width_px st)) = true) (stroke s))
    (shape_of c) →
  json_all p (JObject head) = true → write_payload c head = Ok l → json_all p (JObject l) = true.
Proof.
  intros Hok Hw Hhead Hl.
  destruct c; cbn [command_ok shape_of optional_ok write_payload] in *; unfold write_handle in Hl;
    ok_inv; destruct_and?; unfold write_shape, write_button, write_point;
    repeat first [done | by apply write_wait_all | by apply shape_all | apply put_all
      | by apply point_all | by apply button_all | by apply coordinate_all | by apply curve_all
      | apply write_options_all
      | apply put_optional_all; [|by eapply optional_ok_impl; [apply point_all|]]
      | match goal with |- context [if decide ?P then _ else _] => destruct (decide P) end].
Qed.
End payload_all.
