(* ===== verification/DocumentTheorems.v ===== *)
(** Loading and writing whole documents: what a loaded document satisfies, that a
    written one loads as it was, and the two loaded documents that cannot be
    written back. *)

From Stdlib Require Import Floats.SpecFloat.
From S2P Require Import Prelude EnumTable Errors StepTypes Geometry Command Sequence SequenceOps.
From S2P Require Import Json DocumentReader DocumentWriter Interpreter DocumentShapes.
From S2P Require Import DocumentSteps JsonInstance.

Local Open Scope string_scope.
Local Open Scope Z_scope.
Local Open Scope list_scope.

(** ** Handles, without the messages *)

Definition track (command : Command) (live : gset string) : option (gset string) :=
  match command with
  | OverlayAddCommand handle _ =>
    if decide (handle = "") then Some live
    else if decide (handle ∈ live) then None else Some ({[handle]} ∪ live)
  | _ =>
    match handle_used command with
    | None => Some live
    | Some (used, retires) =>
      if decide (used ∈ live) then Some (if retires : bool then live ∖ {[used]} else live)
      else None
    end
  end.

Fixpoint track_all (commands : list Command) (live : gset string) : option (gset string) :=
  match commands with
  | [] => Some live
  | c :: rest => live ← track c live; track_all rest live
  end.

Lemma track_handles_track sc c live live' :
  track_handles sc c live = Ok live' ↔ track c live = Some live'.
Proof.
  destruct c; cbn; repeat case_decide; (split; [intros ?|intros ?]); try done; congruence.
Qed.

(** Step [i] uses a handle: some earlier step added it, and no step in between
    removed it. *)
Definition handle_live (commands : list Command) (i : nat) (handle : string) : Prop :=
  ∃ j shape, (j < i)%nat ∧ commands !! j = Some (OverlayAddCommand handle shape) ∧
    ∀ k, (j < k < i)%nat → commands !! k ≠ Some (OverlayRemoveCommand handle).

Lemma track_live c live live' h :
  track c live = Some live' → h ∈ live' →
  (∃ shape, c = OverlayAddCommand h shape) ∨ (h ∈ live ∧ c ≠ OverlayRemoveCommand h).
Proof.
  intros Ht Hh. destruct c; cbn in Ht; repeat case_decide; simplify_eq; try set_solver; auto.
Qed.

Lemma track_all_live pre c post live :
  is_Some (track_all (pre ++ c :: post) live) →
  ∀ h b, handle_used c = Some (h, b) →
  (h ∈ live ∧ ∀ k, pre !! k ≠ Some (OverlayRemoveCommand h)) ∨
  ∃ j shape, pre !! j = Some (OverlayAddCommand h shape) ∧
    ∀ k, (j < k)%nat → pre !! k ≠ Some (OverlayRemoveCommand h).
Proof.
  revert live. induction pre as [|c0 pre IH]; intros live Hs h b Hu; cbn in Hs.
  - left. split; [|done]. destruct (track c live) as [live'|] eqn:Ht; [|by destruct Hs].
    destruct c; cbn in Ht, Hu; simplify_eq; case_decide; done.
  - destruct (track c0 live) as [live'|] eqn:Ht; cbn in Hs; [|by destruct Hs].
    destruct (IH live' Hs h b Hu) as [[Hin Hno]|(j & sh & Hj & Hno)].
    + destruct (track_live c0 live live' h Ht Hin) as [[sh ->]|[Hlive Hne]].
      * right. exists 0%nat, sh. split; [done|]. intros [|k] Hk; [lia|]. apply Hno.
      * left. split; [done|]. intros [|k]; [cbn; congruence|apply Hno].
    + right. exists (S j), sh. split; [done|]. intros [|k] Hk; [lia|]. apply Hno. lia.
Qed.

(** ** Labels *)

Lemma collect_labels_Ok sc i nodes m m' ls :
  collect_labels sc i nodes m = Ok (m', ls) →
  length ls = length nodes ∧
  (∀ t j, m' !! t = Some j ↔ m !! t = Some j ∨ (t ≠ "" ∧ ∃ k, ls !! k = Some t ∧ j = (i + k)%nat)) ∧
  (∀ k t, ls !! k = Some t → t ≠ "" → m !! t = None) ∧
  (∀ k k' t, ls !! k = Some t → ls !! k' = Some t → t ≠ "" → k = k').
Proof.
  revert i m m' ls. induction nodes as [|node nodes IH]; intros i m m' ls H; cbn in H.
  { ok_inv. split; [done|]. split; [|done]. intros t j. split; [by left|]. by intros [|(_ & k & [=] & _)]. }
  ok_inv.
  - destruct x as [m1 ls1]. destruct (IH _ _ _ _ Hx) as (Hl & Hm & Hf & Hd). cbn.
    match goal with Hmn : m !! s = None |- _ => rename Hmn into Hnew end.
    split; [by rewrite Hl|]. split; [|split].
    + intros t j. rewrite Hm. rewrite lookup_insert_Some. split.
      * intros [[[<- <-]|[Hne Ht]]|(Hne & k & Hk & ->)]; [|by left|].
        -- right. split; [done|]. exists 0%nat. split; [done|lia].
        -- right. split; [done|]. exists (S k). split; [done|lia].
      * intros [Ht|(Hne & [|k] & Hk & ->)].
        -- left. right. split; [|done]. intros ->. congruence.
        -- left. left. cbn in Hk. split; [congruence|lia].
        -- right. split; [done|]. exists k. split; [done|lia].
    + intros [|k] t Hk Hne; cbn in Hk; [by simplify_eq|].
      specialize (Hf k t Hk Hne). by apply lookup_insert_None in Hf as [? _].
    + assert (∀ k t, ls1 !! k = Some t → t ≠ "" → t ≠ s) as Hns.
      { intros k t Hk Hne ->. specialize (Hf k s Hk Hne). by rewrite lookup_insert_eq in Hf. }
      intros [|k] [|k'] t Hk Hk' Hne; cbn in Hk, Hk'; [done| | |f_equal; eauto]; simplify_eq;
        by edestruct Hns.
  - destruct x as [m1 ls1]. destruct (IH _ _ _ _ Hx) as (Hl & Hm & Hf & Hd). cbn.
    split; [by rewrite Hl|]. split; [|split].
    + intros t j. rewrite Hm. split; (intros [Ht|(Hne & k & Hk & ->)]; [by left|right]).
      * split; [done|]. exists (S k). split; [done|lia].
      * split; [done|]. destruct k as [|k]; cbn in Hk; [by simplify_eq|]. exists k. split; [done|lia].
    + intros [|k] t Hk Hne; cbn in Hk; [by simplify_eq|eauto].
    + intros [|k] [|k'] t Hk Hk' Hne; cbn in Hk, Hk'; [done| | |f_equal; eauto]; by simplify_eq.
Qed.

(** ** Steps: what the loader returns *)

Definition policy_ok (labelled : string → Prop) (st : Step) : Prop :=
  match on_error st with
  | ErrorPolicy.Abort | ErrorPolicy.Continue => on_error_target st = ""
  | ErrorPolicy.Goto => on_error_target st ≠ "" ∧ labelled (on_error_target st)
  | ErrorPolicy.Count => False
  end.

Definition step_ok (labelled : string → Prop) (st : Step) : Prop :=
  command_ok (command st) ∧ policy_ok labelled st ∧ duration_ok (extra_grace st).

Definition after_ok (n i : nat) (l : list StepId) : Prop :=
  (∀ k, k ∈ l → ∃ j, (j < n)%nat ∧ k = positional j ∧ j ≠ i) ∧ NoDup l.

Lemma after_target_ok sc ptr entry (labels : LabelMap) n target :
  (∀ t j, labels !! t = Some j → (j < n)%nat) →
  after_target sc ptr entry labels n = Ok target → (target < n)%nat.
Proof.
  intros Hl H. unfold after_target in H. destruct entry; try done; ok_inv.
  - match goal with Hb : bounded_integer _ _ _ _ _ = Ok _ |- _ =>
      apply bounded_integer_ok in Hb; unfold in_range in Hb end. lia.
  - by eapply Hl.
Qed.

Lemma parse_entries_ok sc ptr i (labels : LabelMap) n slot entries l l' :
  (∀ t j, labels !! t = Some j → (j < n)%nat) →
  after_ok n i l → parse_entries sc ptr i labels n slot entries l = Ok l' → after_ok n i l'.
Proof.
  intros Hl. revert slot l. induction entries as [|entry rest IH]; intros slot l Hok H; cbn in H.
  { by ok_inv. }
  ok_inv. apply IH in H; [done|]. destruct Hok as [Hin Hnd]. split.
  - intros k [Hk| ->%list_elem_of_singleton]%elem_of_app; [auto|]. exists x.
    split; [by eapply after_target_ok|done].
  - apply NoDup_app. split; [done|]. split; [|apply NoDup_singleton].
    intros k Hk ->%list_elem_of_singleton. done.
Qed.

Lemma parse_after_ok sc node i (labels : LabelMap) n l :
  (∀ t j, labels !! t = Some j → (j < n)%nat) → (i < n)%nat →
  parse_after sc node i labels n = Ok l → after_ok n i l.
Proof.
  intros Hl Hi H. unfold parse_after in H. ok_inv.
  - eapply parse_entries_ok; [done| |done]. split; [|constructor]. by intros k Hk%elem_of_nil.
  - destruct i as [|i]; [split; [by intros k Hk%elem_of_nil|constructor]|].
    split; [|apply NoDup_singleton]. intros k ->%list_elem_of_singleton. exists i.
    split; [lia|]. split; [done|lia].
Qed.

Lemma parse_error_policy_ok sc node (labels : LabelMap) policy target :
  parse_error_policy sc node labels = Ok (policy, target) →
  match policy with
  | ErrorPolicy.Abort | ErrorPolicy.Continue => target = ""
  | ErrorPolicy.Goto => target ≠ "" ∧ is_Some (labels !! target)
  | ErrorPolicy.Count => False
  end.
Proof.
  unfold parse_error_policy. intros H. ok_inv; [done|split; eauto|].
  match goal with Hp : error_policy_from_name _ = Some _ |- _ =>
    unfold error_policy_from_name in Hp; apply value_of_Some in Hp; rename Hp into Hin end.
  destruct policy; [done|done|done|].
  unfold errorPolicyNames in Hin. rewrite !elem_of_cons, elem_of_nil in Hin.
  by destruct Hin as [?|[?|[?|?]]].
Qed.

Lemma parse_step_Ok o (labels : LabelMap) n i lab node live st live' :
  (∀ t j, labels !! t = Some j → (j < n)%nat) → (i < n)%nat → storable node = true →
  parse_step o labels n i lab node live = Ok (st, live') →
  label st = lab ∧ track (command st) live = Some live' ∧
  step_ok (λ t, is_Some (labels !! t)) st ∧ after_ok n i (after st).
Proof.
  intros Hl Hi Hn H. unfold parse_step in H. ok_inv. cbn. split_and!; [done| | |].
  - by eapply track_handles_track.
  - split_and!; cbn.
    + by eapply parse_payload_ok.
    + match goal with Hp : parse_error_policy _ _ _ = Ok ?r |- _ => destruct r as [policy target] end.
      by eapply parse_error_policy_ok.
    + eapply optional_integer_ok; [|done]. done.
  - by eapply parse_after_ok.
Qed.

Lemma parse_steps_Ok o (labels : LabelMap) n i nodes live l :
  (∀ t j, labels !! t = Some j → (j < n)%nat) → (i + length nodes <= n)%nat →
  Forall (λ x, storable x.2 = true) nodes →
  parse_steps o labels n i nodes live = Ok l →
  label <$> l = nodes.*1 ∧ is_Some (track_all (command <$> l) live) ∧
  Forall (step_ok (λ t, is_Some (labels !! t))) l ∧
  ∀ k st, l !! k = Some st → after_ok n (i + k) (after st).
Proof.
  intros Hl. revert i live l. induction nodes as [|[lab node] nodes IH]; intros i live l Hi Hn H; cbn in H.
  { ok_inv. cbn. split_and!; [done|by eexists|constructor|done]. }
  ok_inv. cbn in Hi. apply Forall_cons in Hn as [Hn1 Hn]. destruct x as [st live'].
  assert (i < n ∧ S i + length nodes <= n)%nat as [Hi1 Hi2] by lia.
  destruct (parse_step_Ok _ _ _ _ _ _ _ _ _ Hl Hi1 Hn1 Hx) as (Hlab & Ht & Hst & Ha).
  destruct (IH _ _ _ Hi2 Hn Hx0) as (Hls & Htr & Hf & Has). cbn. split_and!.
  - by rewrite Hlab, Hls.
  - by rewrite Ht.
  - by constructor.
  - intros [|k] st' Hk; cbn in Hk; [simplify_eq; by rewrite Nat.add_0_r|].
    rewrite <- Nat.add_succ_comm. eauto.
Qed.

(** ** Documents: what the loader returns *)

Definition pacing_ok (pc : PacingOptions) : Prop :=
  mode pc ≠ PacingMode.Count ∧ duration_ok (grace pc).

Definition labelled_in (l : list Step) (t : string) : Prop :=
  t ≠ "" ∧ ∃ k st, l !! k = Some st ∧ label st = t.

(** The steps the loader hands to [build]. *)
Record Readable (l : list Step) (pc : PacingOptions) : Prop := {
  rd_size : (length l <= maxSteps)%nat;
  rd_pacing : pacing_ok pc;
  rd_labels : ∀ i j si sj, l !! i = Some si → l !! j = Some sj →
    label si = label sj → label si ≠ "" → i = j;
  rd_steps : Forall (step_ok (labelled_in l)) l;
  rd_after : ∀ i st, l !! i = Some st → after_ok (length l) i (after st);
  rd_handles : is_Some (track_all (command <$> l) ∅)
}.

Lemma pacing_mode_named t m : pacing_mode_from_name t = Some m → m ≠ PacingMode.Count.
Proof.
  unfold pacing_mode_from_name. intros Hm%value_of_Some ->.
  unfold pacingModeNames in Hm. rewrite !elem_of_cons, elem_of_nil in Hm.
  by destruct Hm as [?|[?|[?|?]]].
Qed.

Lemma parse_pacing_ok sc doc pc : parse_pacing sc doc = Ok pc → pacing_ok pc.
Proof.
  unfold parse_pacing. intros H. ok_inv; [| |done]; (split; cbn; [|eapply optional_integer_ok; [|done]; done]).
  - by eapply pacing_mode_named.
  - done.
Qed.

Lemma read_nodes_Ok o sc nodes labels ls l pc :
  storable (JArray nodes) = true → (length nodes <= maxSteps)%nat → pacing_ok pc →
  collect_labels sc 0 nodes ∅ = Ok (labels, ls) →
  parse_steps o labels (length nodes) 0 (zip ls nodes) ∅ = Ok l → Readable l pc.
Proof.
  intros Hn Hsize Hpc Hcol Hsteps. apply storable_array in Hn.
  destruct (collect_labels_Ok _ _ _ _ _ _ Hcol) as (Hlen & Hmap & _ & Hdist).
  assert (∀ t k, labels !! t = Some k ↔ t ≠ "" ∧ ls !! k = Some t) as Hlab.
  { intros t k. rewrite Hmap, lookup_empty. split.
    - intros [?|(? & k' & ? & ->)]; [done|by split].
    - intros [? ?]. right. eauto. }
  apply parse_steps_Ok in Hsteps as (Hls & Htr & Hf & Ha).
  - rewrite fst_zip in Hls by lia.
    assert (length l = length nodes) as Hll by (rewrite <- Hlen, <- Hls; by rewrite length_fmap).
    assert (∀ k st, l !! k = Some st → ls !! k = Some (label st)) as Hlk.
    { intros k st Hk. by rewrite <- Hls, list_lookup_fmap, Hk. }
    split; [lia|done| | | |done].
    + intros i j si sj Hi Hj Heq Hne. apply (Hdist i j (label si)); [by apply Hlk| |done].
      rewrite Heq. by apply Hlk.
    + eapply Forall_impl; [done|]. intros st (Hc & Hp & He). split_and!; [done| |done].
      unfold policy_ok in *. destruct (on_error st); try done. destruct Hp as [Hne [k Hk]].
      split; [done|]. split; [done|]. apply Hlab in Hk as [_ Hk].
      rewrite <- Hls, list_lookup_fmap in Hk. destruct (l !! k) as [st'|] eqn:Hst; [|done].
      exists k, st'. split; [done|]. cbn in Hk. congruence.
    + intros i st Hi. rewrite Hll. by apply (Ha i).
  - intros t k [_ Hk%lookup_lt_Some]%Hlab. lia.
  - rewrite length_zip. lia.
  - rewrite Forall_forall in Hn. apply Forall_forall. intros [lab node] Hin. apply Hn.
    by apply elem_of_zip_r in Hin.
Qed.

Lemma read_document_Ok o doc l pc nm :
  storable doc = true → read_document o doc = Ok (l, pc, nm) → Readable l pc.
Proof.
  intros Hd H. unfold read_document in H. ok_inv; cbn in *;
    match goal with Hc : collect_labels _ _ _ _ = Ok ?r |- _ => destruct r as [labels ls] end;
    (eapply read_nodes_Ok; [| | |eassumption|eassumption];
      [by eapply json_at_all|lia|by eapply parse_pacing_ok]).
Qed.

Lemma readable_acceptable l pc :
  Readable l pc → acceptable l ↔ ∀ i, ¬ tc (depends l) i i.
Proof.
  intros [Hs _ Hl _ Ha _]. split; [by intros []|]. intros Hc. split; [done|done| | |done].
  - intros i st p Hi Hp. by apply (Ha i st Hi).
  - intros i st Hi. by apply (Ha i st Hi).
Qed.

(** A loaded document. *)
Record Loadable (s : Sequence) : Prop := {
  ld_built : WFSeq s;
  ld_pacing : pacing_ok (pacing s);
  ld_steps : Forall (step_ok (λ t, is_Some (resolve_label s t))) (steps s);
  ld_handles : is_Some (track_all (command <$> steps s) ∅)
}.

Lemma stamp_commands l : command <$> stamp l = command <$> l.
Proof.
  apply list_eq. intros i. rewrite !list_lookup_fmap. unfold stamp. rewrite list_lookup_imap.
  by destruct (l !! i).
Qed.

Lemma readable_loadable l pc nm s :
  Readable l pc → build l pc nm = Ok s → Loadable s.
Proof.
  intros Hr (Hwf & Hst & Hpc & _)%build_Ok. unfold pacing, steps in *. split; [done| | |].
  - unfold pacing. rewrite Hpc. apply (rd_pacing l pc Hr).
  - unfold steps. rewrite Hst, Forall_forall. intros st Hin%elem_of_stamp.
    destruct Hin as (i & st0 & Hi & ->). pose proof (rd_steps l pc Hr) as Hf.
    rewrite Forall_lookup in Hf. destruct (Hf i st0 Hi) as (Hc & Hp & He). split_and!; [done| |done].
    unfold policy_ok in *. cbn. destruct (on_error st0); try done. destruct Hp as [Hne (_ & k & st & Hk & Hlab)].
    split; [done|]. exists (positional k). apply (wfs_labels s Hwf). split; [done|].
    exists k, (with_id (positional k) st). rewrite Hst. rewrite stamp_lookup. eauto.
  - unfold steps. rewrite Hst, stamp_commands. apply (rd_handles l pc Hr).
Qed.

(** ** Writing and loading again *)

(** A step as the loader makes it, before [build] stamps it. *)
Definition unstamped (st : Step) : Step := with_id nil_id st.

Lemma stamp_unstamped l : stamp (unstamped <$> l) = stamp l.
Proof.
  apply list_eq. intros i. unfold stamp. rewrite !list_lookup_imap, list_lookup_fmap.
  by destruct (l !! i).
Qed.

Lemma build_unstamped l pc nm : build (unstamped <$> l) pc nm = build l pc nm.
Proof. unfold build. by rewrite length_fmap, stamp_unstamped. Qed.

Definition spelled (s : Sequence) : Prop := Forall (λ st, command_spelled (command st)) (steps s).
Definition widths_finite (s : Sequence) : Prop := Forall (λ st, command_finite (command st)) (steps s).

Lemma substring_all t : String.substring 0 (String.length t) t = t.
Proof. induction t as [|c t IH]; [done|]. cbn. by rewrite IH. Qed.

Lemma goto_target_goto t : goto_target ("goto:" +:+ t) = Some t.
Proof.
  unfold goto_target.
  assert (String.prefix "goto:" ("goto:" +:+ t) = true) as -> by by destruct t.
  assert (String.length ("goto:" +:+ t) - 5 = String.length t)%nat as -> by (change (String.length t - 0 = String.length t)%nat; apply Nat.sub_0_r).
  change (String.substring 5 (String.length t) ("goto:" +:+ t))
    with (String.substring 0 (String.length t) t).
  by rewrite substring_all.
Qed.

(** *** One step's node *)

Lemma member_error_policy_ne key st l :
  key ≠ "on_error" → member key (write_error_policy st l) = member key l.
Proof.
  intros Hne. unfold write_error_policy. repeat case_decide; [by apply member_put_ne|done|].
  by apply member_put_ne.
Qed.

Lemma member_extra_grace_ne key st l :
  key ≠ "extra_grace_ms" → member key (write_extra_grace st l) = member key l.
Proof. intros Hne. unfold write_extra_grace. case_decide; [done|]. by apply member_put_ne. Qed.

Lemma member_write_after_ne sts i st l l1 key :
  key ≠ "after" → write_after sts i st l = Ok l1 → member key l1 = member key l.
Proof. intros Hne H. unfold write_after in H. ok_inv; [done|]. by apply member_put_ne. Qed.

Lemma step_head_none st key : key ∉ step_keys → member key (step_head st) = None.
Proof.
  unfold step_keys, step_head. intros Hk. rewrite member_put_ne by set_solver.
  case_decide; [done|]. by rewrite member_put_ne by set_solver.
Qed.

(** *** Dependencies *)

Section dependencies.
Context (s : Sequence) (Hs : Loadable s) (labels : LabelMap).
Context (Hlabels : ∀ t j, labels !! t = Some j ↔
  t ≠ "" ∧ ∃ st, steps s !! j = Some st ∧ label st = t).
Let n : nat := length (steps s).

Lemma small_index j : (j < n)%nat → index (positional j) = j.
Proof. intros Hj. apply positional_index. pose proof (wfs_size s (ld_built s Hs)). unfold n, steps in *. lia. Qed.

Lemma small_inj j k : (j < n)%nat → (k < n)%nat → positional j = positional k → j = k.
Proof. intros Hj Hk Heq. rewrite <- (small_index j Hj), <- (small_index k Hk). by f_equal. Qed.

Lemma after_entry_read_back sc ptr j :
  (j < n)%nat →
  ∃ e, after_entry (steps s) (positional j) = Ok e ∧ after_target sc ptr e labels n = Ok j.
Proof.
  intros Hj. unfold after_entry. rewrite small_index by done.
  destruct (lookup_lt_is_Some_2 (steps s) j Hj) as [st' Hst']. rewrite Hst'.
  rewrite decide_True by exact (wfs_id s (ld_built s Hs) j st' Hst'). eexists. split; [done|].
  case_decide as Hl.
  - assert (index_bits (positional j) = N.of_nat j) as ->.
    { pose proof (small_index j Hj) as Hx. unfold index in Hx. lia. }
    unfold after_target. rewrite nat_N_Z, bounded_integer_read_back.
    + f_equal. lia.
    + unfold in_range. lia.
    + pose proof (wfs_size s (ld_built s Hs)). unfold n, steps, maxSteps in *. lia.
  - cbn. by rewrite (proj2 (Hlabels (label st') j)) by eauto.
Qed.

Lemma after_entries_read_back i sc ptr l slot acc :
  after_ok n i (acc ++ l) →
  ∃ es, after_entries (steps s) l = Ok es ∧
        parse_entries sc ptr i labels n slot es acc = Ok (acc ++ l).
Proof.
  revert slot acc. induction l as [|k l IH]; intros slot acc Hok.
  { exists []. cbn. by rewrite app_nil_r. }
  destruct (IH (S slot) (acc ++ [k])) as (es & Hes & Hp); [by rewrite <- app_assoc|].
  destruct Hok as [Hin Hnd]. destruct (Hin k) as (j & Hj & -> & Hji); [set_solver|].
  destruct (after_entry_read_back sc (element_pointer ptr slot) j Hj) as (e & He & Ht).
  exists (e :: es). cbn [after_entries parse_entries]. rewrite He. ret. rewrite Hes. ret.
  split; [done|]. cbv zeta. rewrite Ht. ret. rewrite decide_False by done.
  rewrite decide_False.
  - rewrite Hp. by rewrite <- app_assoc.
  - apply NoDup_app in Hnd as (_ & Hnd & _). intros Hacc. apply (Hnd _ Hacc). by left.
Qed.

End dependencies.

Section step.
Context (s : Sequence) (Hs : Loadable s) (labels : LabelMap).
Context (Hlabels : ∀ t j, labels !! t = Some j ↔
  t ≠ "" ∧ ∃ st, steps s !! j = Some st ∧ label st = t).
Context (i : nat) (st : Step) (Hi : steps s !! i = Some st).
Context (payload l1 : Members).
Context (Hpayload : write_payload (command st) (step_head st) = Ok payload).
Context (Hafter : write_after (steps s) i st payload = Ok l1).

Let node : Json := JObject (write_extra_grace st (write_error_policy st l1)).
Let n : nat := length (steps s).

Lemma node_payload key : key ∉ step_keys → json_at key node = member key payload.
Proof.
  unfold step_keys. intros Hk. cbn [json_at node].
  rewrite member_extra_grace_ne, member_error_policy_ne by set_solver.
  eapply member_write_after_ne; [set_solver|done].
Qed.

Lemma node_id :
  json_at "id" node = if decide (label st = "") then None else Some (JString (label st)).
Proof.
  cbn [json_at node]. rewrite member_extra_grace_ne, member_error_policy_ne by done.
  rewrite (member_write_after_ne _ _ _ _ _ "id" ltac:(done) Hafter).
  rewrite (write_payload_frame _ _ _ "id" ltac:(unfold step_keys; set_solver) Hpayload).
  unfold step_head. rewrite member_put_ne by done. case_decide; [done|]. apply member_put_eq.
Qed.

Lemma node_op : json_at "op" node = Some (JString (command_name (kind_of (command st)))).
Proof.
  cbn [json_at node]. rewrite member_extra_grace_ne, member_error_policy_ne by done.
  rewrite (member_write_after_ne _ _ _ _ _ "op" ltac:(done) Hafter).
  rewrite (write_payload_frame _ _ _ "op" ltac:(unfold step_keys; set_solver) Hpayload).
  apply member_put_eq.
Qed.

(** The members of [step_keys] the payload left alone. *)
Lemma payload_none key : key ∈ step_keys → key ≠ "id" → key ≠ "op" → member key payload = None.
Proof.
  intros Hk Hid Hop. rewrite (write_payload_frame _ _ _ key Hk Hpayload). unfold step_head.
  rewrite member_put_ne by done. case_decide; [done|]. by rewrite member_put_ne.
Qed.

Lemma node_after : json_at "after" node = member "after" l1.
Proof. cbn [json_at node]. by rewrite member_extra_grace_ne, member_error_policy_ne by done. Qed.

Lemma extra_read_back sc :
  duration_ok (extra_grace st) →
  optional_integer sc node "extra_grace_ms" 0 0 maximumDurationMs = Ok (extra_grace st).
Proof.
  intros He. apply optional_integer_read_back; [done|done|]. cbn [json_at node].
  unfold write_extra_grace. case_decide; [|apply member_put_eq].
  rewrite member_error_policy_ne by done.
  rewrite (member_write_after_ne _ _ _ _ _ "extra_grace_ms" ltac:(done) Hafter).
  apply payload_none; [unfold step_keys; set_solver|done|done].
Qed.

Lemma policy_read_back sc :
  policy_ok (λ t, is_Some (resolve_label s t)) st →
  parse_error_policy sc node labels = Ok (on_error st, on_error_target st).
Proof.
  intros Hp. unfold parse_error_policy. unfold policy_ok in Hp.
  assert (json_at "on_error" node = member "on_error" (write_error_policy st l1)) as Hat
    by (cbn [json_at node]; by rewrite member_extra_grace_ne).
  unfold write_error_policy in Hat.
  destruct (on_error st) eqn:Hon.
  - rewrite decide_False, decide_True in Hat by done.
    rewrite (member_write_after_ne _ _ _ _ _ "on_error" ltac:(done) Hafter) in Hat.
    rewrite payload_none in Hat by (done || unfold step_keys; set_solver).
    rewrite contains_None by done. by rewrite Hp.
  - rewrite decide_False, decide_False, member_put_eq in Hat by done.
    erewrite contains_Some by done. cbn [negb].
    rewrite (require_string_read_back _ _ _ _ Hat). ret. by rewrite Hp.
  - rewrite decide_True, member_put_eq in Hat by done.
    erewrite contains_Some by done. cbn [negb].
    rewrite (require_string_read_back _ _ _ _ Hat). ret. rewrite goto_target_goto.
    destruct Hp as [Hne [k Hk]]. rewrite decide_False by done.
    apply (wfs_labels s (ld_built s Hs)) in Hk as (_ & j & st' & Hj & Hl & _).
    by rewrite (proj2 (Hlabels (on_error_target st) j)) by eauto.
  - done.
Qed.

Lemma after_read_back sc :
  parse_after sc node i labels n = Ok (after st).
Proof.
  unfold parse_after. rewrite node_after. pose proof Hafter as Hw. revert Hw. unfold write_after.
  pose proof (wfs_after s (ld_built s Hs) i st) as Ha.
  pose proof (wfs_after_NoDup s (ld_built s Hs) i st Hi) as Hnd.
  destruct (is_implicit i st) eqn:Him.
  - intros [= <-]. rewrite payload_none by (done || unfold step_keys; set_solver).
    revert Him. unfold is_implicit. by destruct i; intros ->%bool_decide_eq_true.
  - destruct (after_entries_read_back s Hs labels Hlabels i sc (child_pointer (pointer sc) "after")
      (after st) 0 [])
      as (es & Hes & Hp).
    { split; [|done]. intros k Hk. by apply (Ha k Hi). }
    rewrite Hes. ret. intros [= <-]. rewrite member_put_eq. exact Hp.
Qed.

(** A step's node is read as the step it was written for. *)
Lemma step_read_back o live live' :
  step_ok (λ t, is_Some (resolve_label s t)) st → command_spelled (command st) →
  track (command st) live = Some live' →
  parse_step o labels n i (label st) node live = Ok (unstamped st, live').
Proof.
  intros (Hc & Hp & He) Hsp Ht. unfold parse_step, parse_kind.
  rewrite (require_string_read_back _ _ _ _ node_op). ret.
  rewrite command_kind_name by (by destruct (command st)).
  assert (is_sequence_command (kind_of (command st)) = true) as -> by (by destruct (command st)). ret.
  rewrite (payload_read_back _ _ (step_head st) payload (step_head_none st) node_payload) by done. ret.
  rewrite (proj2 (track_handles_track _ _ _ _) Ht). ret.
  rewrite after_read_back. ret. rewrite (policy_read_back _ Hp). ret.
  rewrite (extra_read_back _ He). ret. by destruct st.
Qed.
End step.

(** *** All the steps *)

Section steps.
Context (s : Sequence) (Hs : Loadable s) (Hsp : spelled s).

Lemma label_positions t j :
  (index <$> labels_ s) !! t = Some j ↔ t ≠ "" ∧ ∃ st, steps s !! j = Some st ∧ label st = t.
Proof.
  rewrite lookup_fmap, fmap_Some. split.
  - intros (k & (Hne & i & st & Hi & Hl & ->)%(wfs_labels s (ld_built s Hs)) & ->). split; [done|].
    exists st. split; [|done]. rewrite (wfs_index s i (ld_built s Hs)) by (by eapply lookup_lt_Some).
    done.
  - intros (Hne & st & Hj & Hl). exists (positional j). split.
    + apply (wfs_labels s (ld_built s Hs)). eauto 10.
    + symmetry. apply (wfs_index s j (ld_built s Hs)). by eapply lookup_lt_Some.
Qed.

(** [l] is the tail of the document that starts at [i]. *)
Definition tail_at (i : nat) (l : list Step) : Prop :=
  ∀ k st, l !! k = Some st → steps s !! (i + k)%nat = Some st.

Lemma tail_at_cons i st l : tail_at i (st :: l) → steps s !! i = Some st ∧ tail_at (S i) l.
Proof.
  intros Ht. split; [specialize (Ht 0%nat st eq_refl); by rewrite Nat.add_0_r in Ht|].
  intros k st' Hk. rewrite Nat.add_succ_comm. by apply (Ht (S k)).
Qed.

Lemma step_json_Ok i st node :
  step_json (steps s) i st = Ok node →
  ∃ payload l1, write_payload (command st) (step_head st) = Ok payload ∧
    write_after (steps s) i st payload = Ok l1 ∧
    node = JObject (write_extra_grace st (write_error_policy st l1)).
Proof. unfold step_json. intros H. ok_inv. eauto. Qed.

Lemma step_facts i st :
  steps s !! i = Some st →
  step_ok (λ t, is_Some (resolve_label s t)) st ∧ command_spelled (command st).
Proof.
  intros Hi. pose proof (ld_steps s Hs) as Hf. unfold spelled in Hsp.
  rewrite Forall_lookup in Hf. rewrite Forall_lookup in Hsp. split; [by eapply Hf|by eapply Hsp].
Qed.

Lemma step_json_total i st : steps s !! i = Some st → ∃ node, step_json (steps s) i st = Ok node.
Proof.
  intros Hi. destruct (step_facts i st Hi) as [(Hc & _ & _) Hcs].
  destruct (write_payload_total (command st) (step_head st) Hc Hcs) as [payload Hp].
  destruct (write_payload (command st) (step_head st)) as [payload'|] eqn:Hw; [|done].
  unfold step_json. rewrite Hw. ret. unfold write_after. destruct (is_implicit i st); [by eexists|].
  destruct (after_entries_read_back s Hs _ label_positions i (MkScope "" "" "") "" (after st) 0 [])
    as (es & Hes & _).
  { split; [|by apply (wfs_after_NoDup s (ld_built s Hs) i st)].
    intros k Hk. by apply (wfs_after s (ld_built s Hs) i st). }
  rewrite Hes. by eexists.
Qed.

Lemma step_nodes_total i l : tail_at i l → ∃ nodes, step_nodes (steps s) i l = Ok nodes.
Proof.
  revert i. induction l as [|st l IH]; intros i Ht; [by eexists|].
  apply tail_at_cons in Ht as [Hi Ht]. destruct (step_json_total i st Hi) as [node Hn].
  destruct (IH (S i) Ht) as [nodes Hns]. cbn [step_nodes]. rewrite Hn. ret. rewrite Hns. by eexists.
Qed.

Lemma step_nodes_length i l nodes : step_nodes (steps s) i l = Ok nodes → length nodes = length l.
Proof.
  revert i nodes. induction l as [|st l IH]; intros i nodes H; cbn in H; ok_inv; [done|].
  cbn. f_equal. by eapply IH.
Qed.

(** The first pass finds the labels... *)
Lemma collect_read_back sc i l nodes m :
  tail_at i l → step_nodes (steps s) i l = Ok nodes →
  (∀ st, st ∈ l → label st ≠ "" → m !! label st = None) →
  ∃ m', collect_labels sc i nodes m = Ok (m', label <$> l).
Proof.
  revert i nodes m. induction l as [|st l IH]; intros i nodes m Ht Hn Hm; cbn [step_nodes] in Hn.
  { ok_inv. by eexists. }
  apply tail_at_cons in Ht as [Hi Ht]. ok_inv.
  destruct (step_json_Ok i st x Hx) as (payload & l1 & Hp & Ha & ->).
  pose proof (node_id s Hs _ label_positions i st Hi payload l1 Hp Ha) as Hid. cbn [collect_labels is_object negb].
  rewrite Hid. destruct (decide (label st = "")) as [Hl|Hl].
  - destruct (IH (S i) x0 m Ht Hx0) as [m' Hm'].
    { intros st' Hst'. apply Hm. by right. }
    rewrite Hm'. exists m'. cbn. by rewrite Hl.
  - rewrite Hm by (done || by left).
    destruct (IH (S i) x0 (<[label st := i]> m) Ht Hx0) as [m' Hm'].
    { intros st' Hst' Hl'. rewrite lookup_insert_None. split; [apply Hm; [by right|done]|].
      intros Heq. apply list_elem_of_lookup in Hst' as [k Hk]. specialize (Ht k st' Hk).
      pose proof (proj2 (label_positions (label st) i)) as H1.
      pose proof (proj2 (label_positions (label st) (S i + k))) as H2.
      rewrite H1 in H2 by eauto. specialize (H2 ltac:(eauto)). injection H2. lia. }
    rewrite Hm', decide_False by done. by exists m'.
Qed.

(** ... and the second the steps. *)
Lemma steps_read_back o (labels : LabelMap) i l nodes live :
  (∀ t j, labels !! t = Some j ↔ t ≠ "" ∧ ∃ st, steps s !! j = Some st ∧ label st = t) →
  tail_at i l → step_nodes (steps s) i l = Ok nodes → is_Some (track_all (command <$> l) live) →
  parse_steps o labels (length (steps s)) i (zip (label <$> l) nodes) live = Ok (unstamped <$> l).
Proof.
  intros Hlab. revert i nodes live. induction l as [|st l IH]; intros i nodes live Ht Hn Htr;
    cbn [step_nodes] in Hn; [by ok_inv|].
  apply tail_at_cons in Ht as [Hi Ht]. ok_inv. cbn in Htr.
  destruct (track (command st) live) as [live'|] eqn:Htrack; [|by destruct Htr].
  destruct (step_json_Ok i st x Hx) as (payload & l1 & Hp & Ha & ->).
  destruct (step_facts i st Hi) as [Hok Hcs].
  match goal with |- parse_steps _ _ _ _ (zip _ (?node :: _)) _ = _ =>
    change (zip (label <$> st :: l) (node :: x0)) with ((label st, node) :: zip (label <$> l) x0) end.
  cbn [parse_steps].
  rewrite (step_read_back s Hs labels Hlab i st Hi payload l1 Hp Ha o live live' Hok Hcs Htrack). ret. cbn [fst snd].
  by rewrite (IH (S i) x0 live' Ht Hx0 Htr).
Qed.
End steps.

(** *** The document *)

Lemma pacing_read_back sc doc pc :
  pacing_ok pc →
  json_at "pacing" doc = (if decide (mode pc ≠ PacingMode.Strict ∨ grace pc ≠ 0)
                          then Some (pacing_json pc) else None) →
  parse_pacing sc doc = Ok pc.
Proof.
  intros [Hm Hg] Hd. unfold parse_pacing. rewrite Hd. destruct (decide _) as [_|Hdef].
  - unfold pacing_json. cbn [is_object negb]. erewrite contains_Some by (by members).
    erewrite require_string_read_back by (by members). ret.
    assert (pacing_mode_from_name (pacing_mode_name (mode pc)) = Some (mode pc)) as ->
      by (by destruct (mode pc)). ret.
    erewrite written_integer_read_back; [|exact Hg|done|by members]. ret. by destruct pc.
  - destruct pc as [m g]; cbn in *. unfold default_pacing.
    assert (m = PacingMode.Strict) as -> by (destruct (decide (m = PacingMode.Strict)); tauto).
    assert (g = 0) as -> by lia. done.
Qed.

Lemma read_document_read_back o s nodes doc :
  Loadable s → spelled s → step_nodes (steps s) 0 (steps s) = Ok nodes →
  is_object doc = true → json_at "schema_version" doc = Some (JInteger 1) →
  json_at "sequence" doc = (if decide (name s = "") then None else Some (JString (name s))) →
  json_at "pacing" doc = (if decide (mode (pacing s) ≠ PacingMode.Strict ∨ grace (pacing s) ≠ 0)
                          then Some (pacing_json (pacing s)) else None) →
  json_at "steps" doc = Some (JArray nodes) →
  read_document o doc = Ok (unstamped <$> steps s, pacing s, name s).
Proof.
  intros Hs Hsp Hn Hobj Hv Hname Hpacing Hsteps.
  assert (tail_at s 0 (steps s)) as Ht by (intros k st Hk; done).
  pose proof (step_nodes_length _ _ _ _ Hn) as Hlen.
  destruct (collect_read_back s Hs (MkScope o "" "") 0 (steps s) nodes ∅ Ht Hn) as [labels Hcol];
    [by intros; apply lookup_empty|].
  destruct (collect_labels_Ok _ _ _ _ _ _ Hcol) as (_ & Hmap & _ & _).
  assert (∀ t j, labels !! t = Some j ↔ t ≠ "" ∧ ∃ st, steps s !! j = Some st ∧ label st = t) as Hlab.
  { intros t j. rewrite Hmap, lookup_empty. setoid_rewrite list_lookup_fmap.
    setoid_rewrite fmap_Some. split.
    - intros [?|(Hne & k & (st & Hk & ->) & ->)]; [done|]. eauto.
    - intros (Hne & st & Hj & <-). right. eauto 10. }
  unfold read_document. rewrite Hobj, Hv, Hsteps. cbv zeta. cbn [negb].
  rewrite bounded_integer_read_back by done. ret.
  assert ((if contains "sequence" doc then require_string (MkScope o "" "") doc "sequence" else Ok "")
    = Ok (name s)) as ->.
  { destruct (decide (name s = "")) as [Hempty|_]; [by rewrite contains_None, Hempty|].
    erewrite contains_Some by done.
    by erewrite require_string_read_back. }
  ret. rewrite (pacing_read_back _ _ (pacing s) (ld_pacing s Hs) Hpacing). ret.
  rewrite decide_False by (rewrite Hlen; apply Nat.nlt_ge, (wfs_size s (ld_built s Hs))).
  rewrite Hcol. ret. cbn [fst snd]. rewrite Hlen.
  by rewrite (steps_read_back s Hs Hsp o labels 0 (steps s) nodes ∅ Hlab Ht Hn (ld_handles s Hs)).
Qed.

Lemma build_again s : Loadable s → build (unstamped <$> steps s) (pacing s) (name s) = Ok s.
Proof.
  intros Hs. rewrite build_unstamped. unfold steps, pacing, name.
  rewrite (rebuild s _ _ (ld_built s Hs)). by destruct s.
Qed.

Lemma member_write_pacing_ne key pc l :
  key ≠ "pacing" → member key (write_pacing pc l) = member key l.
Proof. intros Hne. unfold write_pacing. case_decide; [by apply member_put_ne|done]. Qed.

Lemma document_read_back o s :
  Loadable s → spelled s → ∃ doc, document_json s = Ok doc ∧ parse_tree o doc = Ok s.
Proof.
  intros Hs Hsp. assert (tail_at s 0 (steps s)) as Ht by (intros k st Hk; done).
  destruct (step_nodes_total s Hs Hsp 0 (steps s) Ht) as [nodes Hn].
  unfold document_json. rewrite Hn. ret. eexists. split; [reflexivity|].
  unfold parse_tree. erewrite (read_document_read_back o s nodes); try done.
  - ret. cbn [fst snd]. by rewrite build_again.
  - cbn [json_at]. rewrite member_put_ne, member_write_pacing_ne by done. case_decide; members; done.
  - cbn [json_at]. rewrite member_put_ne, member_write_pacing_ne by done. case_decide; members; done.
  - cbn [json_at]. rewrite member_put_ne by done. unfold write_pacing.
    case_decide; [apply member_put_eq|]. case_decide; by members.
  - cbn [json_at]. by rewrite member_put_eq.
Qed.

(** What is written is JSON, whose numbers are finite where the widths are. *)
Section document_all.
Context (p : double → bool) (Hp : ∀ x, is_finite x = true → p x = true).

Lemma after_entries_all sts l es : after_entries sts l = Ok es → json_all p (JArray es) = true.
Proof.
  revert es. induction l as [|k l IH]; intros es H; cbn in H; ok_inv; [done|].
  cbn. apply andb_true_iff. split; [|by apply IH]. unfold after_entry in Hx. ok_inv.
  match goal with |- context [if decide (label ?s = _) then _ else _] =>
    destruct (decide (label s = "")) end; [|done].
  apply integer_all. unfold index_bits, half. subst.
  match goal with |- context [(?a `mod` 65536)%N] => 
    pose proof (N.mod_lt a 65536 ltac:(done)); generalize dependent (a mod 65536)%N end.
  intros m Hm. lia.
Qed.

Lemma step_json_all sts i st node :
  command_ok (command st) → duration_ok (extra_grace st) →
  optional_ok (λ s, optional_ok (λ st, p (double_of_float (width_px st)) = true) (stroke s))
    (shape_of (command st)) →
  step_json sts i st = Ok node → json_all p node = true.
Proof.
  intros Hc He Hw H. unfold step_json in H. ok_inv.
  assert (json_all p (JObject (step_head st)) = true) as Hh.
  { unfold step_head. case_decide; [|apply put_all; [by apply put_all|done]]. by apply put_all. }
  pose proof (write_payload_all p Hp _ _ _ Hc Hw Hh Hx) as Hpay.
  assert (json_all p (JObject x0) = true) as Hafter.
  { unfold write_after in Hx0. ok_inv; [done|]. apply put_all; [done|]. by eapply after_entries_all. }
  unfold write_extra_grace, write_error_policy.
  assert (json_all p (JInteger (extra_grace st)) = true) by (by apply duration_all).
  repeat case_decide; repeat first [done | apply put_all].
Qed.

Lemma step_nodes_all sts i l nodes :
  Forall (λ st, command_ok (command st) ∧ duration_ok (extra_grace st) ∧
    optional_ok (λ s, optional_ok (λ st, p (double_of_float (width_px st)) = true) (stroke s))
      (shape_of (command st))) l →
  step_nodes sts i l = Ok nodes → json_all p (JArray nodes) = true.
Proof.
  intros Hl. revert i nodes. induction Hl as [|st l (Hc & He & Hw) Hl IH]; intros i nodes H;
    cbn in H; ok_inv; [done|].
  cbn. rewrite (step_json_all _ _ _ _ Hc He Hw Hx). by apply (IH _ _ Hx0).
Qed.

Lemma document_all s doc :
  Loadable s →
  Forall (λ st, optional_ok (λ s, optional_ok (λ st, p (double_of_float (width_px st)) = true)
    (stroke s)) (shape_of (command st))) (steps s) →
  document_json s = Ok doc → json_all p doc = true.
Proof.
  intros Hs Hw H. unfold document_json in H. ok_inv.
  assert (json_all p (JArray x) = true) as Hx'.
  { eapply step_nodes_all; [|done]. pose proof (ld_steps s Hs) as Hl.
    rewrite Forall_forall in Hl, Hw |- *. intros st Hin. destruct (Hl st Hin) as (? & _ & ?).
    split_and!; [done|done|by apply Hw]. }
  apply put_all; [|done]. unfold write_pacing.
  assert (json_all p (JObject (if decide (name s = "") then put "schema_version" (JInteger 1) []
    else put "sequence" (JString (name s)) (put "schema_version" (JInteger 1) []))) = true) as Hb
    by (destruct (decide (name s = "")); repeat apply put_all; done).
  destruct (decide (mode _ ≠ _ ∨ _)); [|done]. apply put_all; [done|]. unfold pacing_json.
  apply put_all; [by apply put_all|]. apply duration_all. by apply (ld_pacing s Hs).
Qed.
End document_all.

(** ** Loading *)

Section text.
Context `{JsonText}.

Lemma parse_Ok text s :
  parse text = Some (Ok s) →
  ∃ doc l pc nm, storable doc = true ∧ read_document "" doc = Ok (l, pc, nm) ∧
    build l pc nm = Ok s.
Proof.
  unfold parse, parse_document. destruct (json_parse text) as [doc| |] eqn:Hdoc; [|done..].
  intros Heq. apply (inj Some) in Heq. unfold parse_tree in Heq. ok_inv.
  destruct x as [[l pc] nm]. exists doc, l, pc, nm. split; [by eapply parse_storable|].
  split; [done|]. cbn [fst snd] in *. done.
Qed.

Lemma parse_loadable text s : parse text = Some (Ok s) → Loadable s.
Proof.
  intros (doc & l & pc & nm & Hd & Hr & Hb)%parse_Ok.
  eapply readable_loadable; [|done]. by eapply read_document_Ok.
Qed.

Lemma written_width_finite s st :
  Loadable s → widths_finite s → st ∈ steps s →
  optional_ok (λ sh, optional_ok (λ stroke, is_finite (double_of_float (width_px stroke)) = true)
    (stroke sh)) (shape_of (command st)).
Proof.
  intros Hs Hw Hst. pose proof (ld_steps s Hs) as Hl. unfold widths_finite in Hw.
  rewrite Forall_forall in Hl. rewrite Forall_forall in Hw.
  destruct (Hl st Hst) as (Hc & _ & _). specialize (Hw st Hst).
  unfold command_finite, width_finite in Hw.
  assert (optional_ok shape_ok (shape_of (command st))) as Hsh
    by (destruct (command st); cbn in *; naive_solver).
  destruct (shape_of (command st)) as [sh|]; [|done]. cbn in *.
  destruct Hsh as (_ & Hstroke & _). destruct (stroke sh) as [k|]; [|done]. cbn in *.
  destruct Hstroke as (_ & Hf & _). by rewrite double_of_float_finite.
Qed.

(** C10: Whatever text is loaded, every value in the document lies in the range the
    format gives it (coordinates, durations, buttons, interpolation steps, control
    points, colours, extents, finite numbers), error policies jump to existing
    labels only, the document is well formed, and every overlay handle a step uses
    was added by an earlier step and not removed in between. *)
Theorem loaded_documents_are_in_range (text : string) (s : Sequence) :
  parse text = Some (Ok s) →
  WFSeq s ∧ pacing_ok (pacing s) ∧
  Forall (step_ok (λ t, is_Some (resolve_label s t))) (steps s) ∧
  ∀ i st h retires, steps s !! i = Some st → handle_used (command st) = Some (h, retires) →
    handle_live (command <$> steps s) i h.
Proof.
  intros Hs%parse_loadable. split_and!; [apply Hs|apply Hs|apply Hs|].
  intros i st h b Hi Hu. pose proof (ld_handles s Hs) as Ht.
  assert (command <$> steps s =
    (take i (command <$> steps s) ++ command st :: drop (S i) (command <$> steps s))) as Hsplit.
  { symmetry. apply take_drop_middle. by rewrite list_lookup_fmap, Hi. }
  rewrite Hsplit in Ht. destruct (track_all_live _ _ _ _ Ht h b Hu) as [[[]%not_elem_of_empty _]|Hlive].
  destruct Hlive as (j & sh & Hj & Hno).
  assert (j < i)%nat as Hji by (apply lookup_lt_Some in Hj; rewrite length_take in Hj; lia).
  exists j, sh. split; [done|]. rewrite lookup_take_lt in Hj by done. split; [done|].
  intros k Hk. specialize (Hno k ltac:(lia)). by rewrite lookup_take_lt in Hno by lia.
Qed.

(** C9: Loading, writing and loading again gives the same document, identities,
    graph, order and labels included, whatever text layer obeys its laws: unless
    the document holds a capture without a target, an ellipse whose radii are the
    two zeros, or a stroke too wide for a [float], writing it does not fail and the
    text written loads as the document it was written for. *)
Theorem loaded_documents_round_trip (text : string) (s : Sequence) r :
  parse text = Some (Ok s) → spelled s → widths_finite s → to_json s = Some r →
  ∃ text', r = Ok text' ∧ parse text' = Some (Ok s).
Proof.
  intros Hs%parse_loadable Hsp Hw Hr.
  destruct (document_read_back "" s Hs Hsp) as (doc & Hdoc & Hback).
  unfold to_json in Hr. rewrite Hdoc in Hr. apply fmap_Some in Hr as (text' & Hd & ->).
  exists text'. split; [done|].
  assert (storable doc = true) as Hst.
  { apply (document_all is_finite (λ x Hx, Hx) s); [done| |done].
    apply Forall_forall. intros st Hin. by apply written_width_finite with s. }
  unfold parse, parse_document.
  rewrite (parse_dump _ _ _ (storable_well_keyed _ Hst) Hd), dumped_storable by done. by f_equal.
Qed.
End text.

(** Of steps the loader made, [build] refuses the cyclic ones, as such. *)
Lemma readable_build_fails l pc nm :
  Readable l pc → is_ok (build l pc nm) = false →
  build l pc nm = fail ErrorCode.InvalidArgument "sequence has a dependency cycle".
Proof.
  intros [Hs _ Hl _ Ha _]. unfold build. rewrite decide_False by lia. fold (bare_graph l).
  assert (is_ok (index_labels (stamp l) ∅) = true) as Hlab.
  { apply index_labels_is_ok. split; [intros; apply lookup_empty|].
    intros i j si sj (s0 & Hi & ->)%stamp_lookup (s1 & Hj & ->)%stamp_lookup.
    exact (Hl i j s0 s1 Hi Hj). }
  destruct (index_labels (stamp l) ∅) as [m|]; [|done].
  pose proof (link_stamped l Hs) as Hlink.
  destruct (link_steps (stamp l) (bare_graph l)) as [g|].
  - by destruct (Topological.topological_order g).
  - exfalso. apply Hlink, links_ok_iff; [done|]. split.
    + intros i st p Hi Hp. by apply (Ha i st Hi).
    + intros i st Hi. by apply (Ha i st Hi).
Qed.

(** C11: Everything [build] can refuse has been refused before with a pointer to its
    place, except a cycle: once the steps of a tree have been read, the document
    loads exactly when no step depends on itself through others, and otherwise the
    error is the cycle's. *)
Theorem only_cycles_are_left_to_build (o : string) (doc : Json) l pc nm :
  storable doc = true → read_document o doc = Ok (l, pc, nm) →
  ((∃ s, parse_tree o doc = Ok s) ↔ ∀ i, ¬ tc (depends l) i i) ∧
  ((∃ i, tc (depends l) i i) →
   parse_tree o doc = reject (MkScope o "" "") "/steps" "sequence has a dependency cycle").
Proof.
  intros Hd Hr. pose proof (read_document_Ok _ _ _ _ _ Hd Hr) as Hread.
  pose proof (readable_acceptable l pc Hread) as Hacc.
  pose proof (build_accepts l pc nm) as Hbuild.
  pose proof (readable_build_fails l pc nm Hread) as Hfail.
  unfold parse_tree. rewrite Hr. ret. cbn [fst snd]. split.
  - rewrite <- Hacc, <- Hbuild. destruct (build l pc nm) as [s|e]; cbn; [naive_solver|].
    split; [by intros [? [=]]|done].
  - intros [i Hi]. rewrite Hfail; [done|].
    destruct (build l pc nm) eqn:Hb; [|done]. exfalso. destruct Hbuild as [Hbuild _].
    by apply (proj1 Hacc (Hbuild eq_refl) i).
Qed.

(** ** Two documents that do not come back *)

Definition demo_document (step : Members) : Json :=
  JObject [("steps", JArray [JObject step])].

(** A capture whose output is the empty string. *)
Definition empty_capture : Json :=
  demo_document [("op", JString "screen.capture"); ("out", JString "")].

(** A stroke of width [2 ^ 200], which no [float] holds. *)
Definition wide_stroke : Json :=
  demo_document [("op", JString "overlay.add");
    ("shape", JObject [("polygon", JArray (JArray <$> [[JInteger 0; JInteger 0];
                                            [JInteger 1; JInteger 0]; [JInteger 0; JInteger 1]]));
                       ("stroke", JObject [("color", JString "#ff0000");
                                           ("width", JFloat (S754_finite false 4503599627370496 148))])])].

(** The loader's round trip has two holes.  A capture whose [out] is the empty
    string loads and cannot be written; a stroke whose width is a [double] above
    the [float] range loads with an infinite width, and what is written for it is
    [null], which does not load. *)
Theorem round_trip_holes :
  (∃ s, storable empty_capture = true ∧ parse_tree "" empty_capture = Ok s ∧
        is_ok (document_json s) = false) ∧
  (∃ s doc, storable wide_stroke = true ∧ parse_tree "" wide_stroke = Ok s ∧
        document_json s = Ok doc ∧ is_ok (parse_tree "" (dumped doc)) = false).
Proof.
  split.
  - eexists. split; [by vm_compute|]. split; [vm_compute; reflexivity|]. by vm_compute.
  - eexists _, _. split; [by vm_compute|]. split; [vm_compute; reflexivity|].
    split; [vm_compute; reflexivity|]. by vm_compute.
Qed.

(** ** Witnesses *)

(** Four steps: a label, an explicit dependency, a jump and a live handle. *)
Definition demo_steps : Json := JArray [
  JObject [("op", JString "time.wait"); ("id", JString "pause"); ("ms", JInteger 250)];
  JObject [("op", JString "overlay.add"); ("handle", JString "box");
           ("shape", JObject [("path", JArray [JObject [("move", JArray [JInteger 0; JFloat one])];
                                              JString "close"]);
                              ("stroke", JObject [("color", JString "#ff000080");
                                                  ("width", JInteger 3)])])];
  JObject [("op", JString "overlay.remove"); ("handle", JString "box");
           ("on_error", JString "goto:end")];
  JObject [("op", JString "screen.capture"); ("out", JString "a.png"); ("id", JString "end");
           ("after", JArray [JString "pause"; JInteger 2])]].

Definition demo_tree : Json :=
  JObject [("schema_version", JInteger 1); ("sequence", JString "demo"); ("steps", demo_steps)].

Definition demo_text : string := numeral_dump demo_tree.

(** Two steps that wait for each other. *)
Definition knot : Json :=
  JObject [("steps", JArray [
    JObject [("op", JString "time.wait"); ("ms", JInteger 1); ("after", JArray [JInteger 1])];
    JObject [("op", JString "time.wait"); ("ms", JInteger 1)]])].

Lemma parse_numeral doc :
  storable doc = true → @parse numeral_text (numeral_dump doc) = Some (parse_tree "" doc).
Proof.
  intros Hs. unfold parse, parse_document.
  rewrite (@parse_dump numeral_text 2 doc (numeral_dump doc)); [|by apply storable_well_keyed|done].
  by rewrite dumped_storable.
Qed.

Lemma demo_storable : storable demo_tree = true.
Proof. by vm_compute. Qed.

Lemma demo_commands :
  match parse_tree "" demo_tree with
  | Ok s => Forall (λ st, command_spelled (command st) ∧ command_finite (command st)) (steps s)
  | Err _ => False
  end.
Proof.
  vm_compute. repeat constructor; intuition congruence.
Qed.

Lemma loaded_documents_are_in_range_witness :
  match parse_tree "" demo_tree with
  | Ok s => @parse numeral_text demo_text = Some (Ok s) ∧
            command <$> steps s !! 2%nat = Some (OverlayRemoveCommand "box") ∧
            handle_live (command <$> steps s) 2 "box"
  | Err _ => False
  end.
Proof.
  pose proof (parse_numeral demo_tree demo_storable) as Hp. fold demo_text in Hp.
  assert (match parse_tree "" demo_tree with
          | Ok s => command <$> steps s !! 2%nat = Some (OverlayRemoveCommand "box")
          | Err _ => False end) as Hc by (vm_compute; reflexivity).
  destruct (parse_tree "" demo_tree) as [s|]; [|done]. split_and!; [done..|].
  apply fmap_Some in Hc as (st & Hst & Hc).
  apply (loaded_documents_are_in_range (H := numeral_text) demo_text s Hp) with st true; [done|].
  rewrite <- Hc. reflexivity.
Defined.

Lemma loaded_documents_round_trip_witness :
  match parse_tree "" demo_tree with
  | Ok s => ∃ text', @to_json numeral_text s = Some (Ok text') ∧
                     @parse numeral_text text' = Some (Ok s)
  | Err _ => False
  end.
Proof.
  pose proof (parse_numeral demo_tree demo_storable) as Hp. fold demo_text in Hp.
  pose proof demo_commands as Hc.
  destruct (parse_tree "" demo_tree) as [s|]; [|done]. apply Forall_and in Hc as [Hsp Hw].
  destruct (@to_json numeral_text s) as [r|] eqn:Hr.
  - destruct (loaded_documents_round_trip (H := numeral_text) demo_text s r Hp Hsp Hw Hr)
      as (t & -> & Ht). exists t. exact (conj eq_refl Ht).
  - exfalso. revert Hr. unfold to_json. by destruct (document_json s).
Defined.

Lemma only_cycles_are_left_to_build_witness :
  match read_document "" knot with
  | Ok _ => parse_tree "" knot =
            reject (MkScope "" "" "") "/steps" "sequence has a dependency cycle"
  | Err _ => False
  end.
Proof.
  assert (match read_document "" knot with
          | Ok r => after <$> r.1.1 = [[positional 1]; [positional 0]]
          | Err _ => False end) as Hc by (vm_compute; reflexivity).
  destruct (read_document "" knot) as [[[l pc] nm]|] eqn:Hr; [|done]. cbn in Hc.
  apply (only_cycles_are_left_to_build "" knot l pc nm ltac:(by vm_compute) Hr). exists 0%nat.
  destruct l as [|s0 [|s1 [|]]]; try done. injection Hc as H0 H1.
  apply tc_l with 1%nat; [exists s1|apply tc_once; exists s0]; rewrite ?H0, ?H1;
    (split_and!; [done|by apply list_elem_of_singleton|cbn; lia]).
Defined.
