(* ===== verification/Identity.v ===== *)
(** Identities: the UUID value of [include/grab/ids.hpp] and the factory of
    [kernel/identity/id_factory.cpp] that mints them. *)

From S2P Require Import Prelude.

(** Sixteen octets. *)
Record Uuid := MkUuid { bytes : list N }.

#[export] Instance Uuid_eq_dec : EqDecision Uuid.
Proof. solve_decision. Defined.
