(* ===== verification/IdFactory.v ===== *)
(** The identity factory of [kernel/identity/id_factory.cpp], its random half
    ([kernel/identity/random_source.hpp]) and the text of a UUID
    ([include/grab/ids.hpp]).

    A call takes the clock's reading as an argument and the state explicitly; the
    mutex makes the calls a sequence.  [std::terminate] is [None].  The random
    engine is the standard library's and stays a parameter: a state and a draw. *)

From Stdlib Require Import Ascii.
From Stdlib Require Strings.String.
From S2P Require Import Prelude Bytes Identity.

Local Open Scope N_scope.

(** ** Octets, most significant first *)

(** [std::array]'s [operator<]. *)
Fixpoint bytes_lt (l1 l2 : list N) : bool :=
  match l1, l2 with
  | b1 :: l1, b2 :: l2 => (b1 <? b2) || ((b1 =? b2) && bytes_lt l1 l2)
  | [], _ :: _ => true
  | _, [] => false
  end.

Definition uuid_lt (a b : Uuid) : bool := bytes_lt (bytes a) (bytes b).

(** ** The factory *)

Definition timestampMaximum : N := N.shiftl 1 48 - 1.
Definition counterMaximum : N := 0x0FFF.
Definition counterHighMask : N := 0x0F.
Definition versionSevenBits : N := 0x70.
Definition variantClearMask : N := 0x3F.
Definition variantBits : N := 0x80.

Section factory.
Context {Engine : Type} (draw : Engine → N * Engine).

Record IdFactory := MkFactory {
  random_ : Engine;
  lastMilliseconds_ : N;
  counter_ : N;
  hasLast_ : bool;
  nextFrameId_ : N
}.

Definition fresh_factory (engine : Engine) : IdFactory := MkFactory engine 0 0 false 1.

(** [next_bytes]: [left] octets of the drawn [word] are still unused. *)
Fixpoint next_bytes (count left : nat) (word : N) (e : Engine) : list N * Engine :=
  match count with
  | O => ([], e)
  | S count' =>
    match left with
    | O =>
      let '(word, e) := draw e in
      let '(rest, e) := next_bytes count' 7 (N.shiftr word 8) e in
      (N.land word byteMask :: rest, e)
    | S left' =>
      let '(rest, e) := next_bytes count' left' (N.shiftr word 8) e in
      (N.land word byteMask :: rest, e)
    end
  end.

Definition set_last (ms counter : N) (st : IdFactory) : IdFactory :=
  MkFactory (random_ st) ms counter true (nextFrameId_ st).

Definition advance_state (observed : N) (st : IdFactory) : option IdFactory :=
  let current := if decide (timestampMaximum < observed) then timestampMaximum else observed in
  if negb (hasLast_ st) || (lastMilliseconds_ st <? current) then Some (set_last current 0 st)
  else if counter_ st <? counterMaximum then
    Some (set_last (lastMilliseconds_ st) (counter_ st + 1) st)
  else if lastMilliseconds_ st =? timestampMaximum then None
  else Some (set_last (lastMilliseconds_ st + 1) 0 st).

Definition write_timestamp (st : IdFactory) : list N := field_bytes 6 (lastMilliseconds_ st).

Definition write_counter (st : IdFactory) : list N :=
  [N.lor versionSevenBits (N.land (N.shiftr (counter_ st) 8) counterHighMask);
   N.land (counter_ st) byteMask].

Definition write_random (st : IdFactory) : list N * IdFactory :=
  let '(random, e) := next_bytes 8 0 0 (random_ st) in
  (match random with
   | [] => []
   | first :: rest => N.lor (N.land first variantClearMask) variantBits :: rest
   end,
   MkFactory e (lastMilliseconds_ st) (counter_ st) (hasLast_ st) (nextFrameId_ st)).

Definition next_uuid (now : N) (st : IdFactory) : option (Uuid * IdFactory) :=
  match advance_state now st with
  | None => None
  | Some st =>
    let '(random, st') := write_random st in
    Some (MkUuid (write_timestamp st ++ write_counter st ++ random), st')
  end.

Definition next_frame_id (st : IdFactory) : option (N * IdFactory) :=
  if nextFrameId_ st =? 2 ^ 64 - 1 then None
  else Some (nextFrameId_ st,
         MkFactory (random_ st) (lastMilliseconds_ st) (counter_ st) (hasLast_ st)
           (nextFrameId_ st + 1)).

(** What is asked of a factory: a UUID at a clock reading, or a frame id. *)
Inductive IdOp :=
  | MintUuid (now : N)
  | MintFrame.

(** The identities minted by a sequence of calls. *)
Fixpoint mint (ops : list IdOp) (st : IdFactory) : option (list Uuid * list N * IdFactory) :=
  match ops with
  | [] => Some ([], [], st)
  | MintUuid now :: ops =>
    match next_uuid now st with
    | None => None
    | Some (u, st) =>
      match mint ops st with
      | None => None
      | Some (us, fs, st) => Some (u :: us, fs, st)
      end
    end
  | MintFrame :: ops =>
    match next_frame_id st with
    | None => None
    | Some (f, st) =>
      match mint ops st with
      | None => None
      | Some (us, fs, st) => Some (us, f :: fs, st)
      end
    end
  end.

End factory.
Arguments IdFactory : clear implicits.

(** ** The text of a UUID *)

Definition uuid_is_nil (u : Uuid) : bool := bool_decide (bytes u = replicate 16 0).

Definition hexDigits : list ascii :=
  ["0"; "1"; "2"; "3"; "4"; "5"; "6"; "7"; "8"; "9"; "a"; "b"; "c"; "d"; "e"; "f"]%char.

Definition hex_digit (nibble : N) : ascii := default "?"%char (hexDigits !! N.to_nat nibble).

Definition hyphen_before (byteIndex : nat) : bool :=
  bool_decide (byteIndex ∈ [4; 6; 8; 10]%nat).

(** The loop of [to_string] from [byteIndex] on. *)
Fixpoint uuid_chars (byteIndex : nat) (l : list N) : list ascii :=
  match l with
  | [] => []
  | b :: rest =>
    (if hyphen_before byteIndex then ["-"%char] else []) ++
    hex_digit (N.shiftr b 4) :: hex_digit (N.land b 0x0F) :: uuid_chars (S byteIndex) rest
  end.

Definition uuid_to_string (u : Uuid) : string := String.string_of_list_ascii (uuid_chars 0 (bytes u)).

(** ** Identifiers as numbers *)

Lemma be_value_lt l1 l2 : length l1 = length l2 → Forall octet l1 → Forall octet l2 →
  be_value l1 < be_value l2 → bytes_lt l1 l2 = true.
Proof.
  intros Hlen H1. revert l2 Hlen. induction H1 as [|b1 l1 Hb1 H1 IH]; intros [|b2 l2] Hlen H2 Hlt;
    try done.
  apply Forall_cons in H2 as [Hb2 H2]. rewrite !be_value_cons in Hlt. cbn in Hlen |- *.
  injection Hlen as Hlen. rewrite Hlen in Hlt.
  pose proof (be_value_bound l1 H1). pose proof (be_value_bound l2 H2). rewrite Hlen in H.
  destruct (N.ltb_spec b1 b2); [done|]. cbn. destruct (N.eqb_spec b1 b2) as [->|].
  - apply IH; [done..|lia].
  - nia.
Qed.

Lemma bytes_lt_app l1 l2 r1 r2 : length l1 = length l2 → bytes_lt l1 l2 = true →
  bytes_lt (l1 ++ r1) (l2 ++ r2) = true.
Proof.
  revert l2. induction l1 as [|b1 l1 IH]; intros [|b2 l2] Hlen Hlt; try done. cbn in *.
  injection Hlen as Hlen. apply orb_true_iff in Hlt as [->|[-> H]%andb_true_iff]; [done|].
  by rewrite IH, orb_true_r.
Qed.

(** ** Bit fields by cases *)

Lemma version_byte x : x < 16 → N.lor versionSevenBits x = 112 + x.
Proof. intros Hx. apply N.eqb_eq. revert x Hx. by apply (below_cases 16). Qed.

Lemma variant_byte x : x < 64 → N.lor x variantBits = 128 + x.
Proof. intros Hx. apply N.eqb_eq. revert x Hx. by apply (below_cases 64). Qed.

(** ** What a call mints *)

Definition prefix (u : Uuid) : N := be_value (take 8 (bytes u)).

Record v7 (u : Uuid) : Prop := {
  v7_length : length (bytes u) = 16%nat;
  v7_octets : Forall octet (bytes u);
  v7_version : N.shiftr (nth 6 (bytes u) 0) 4 = 7;
  v7_variant : N.shiftr (nth 8 (bytes u) 0) 6 = 2
}.

Section minting.
Context {Engine : Type} (draw : Engine → N * Engine).
Implicit Types (st : IdFactory Engine) (e : Engine) (u : Uuid).

Record in_range st : Prop := {
  ir_ms : lastMilliseconds_ st <= timestampMaximum;
  ir_counter : counter_ st <= counterMaximum
}.

(** The first eight octets a UUID minted in this state has, as a number. *)
Definition stamp_of st : N := lastMilliseconds_ st * 65536 + 28672 + counter_ st.

Lemma advance_state_spec now st st' : in_range st → advance_state now st = Some st' →
  in_range st' ∧ hasLast_ st' = true ∧ nextFrameId_ st' = nextFrameId_ st ∧
  (hasLast_ st = true → stamp_of st < stamp_of st').
Proof.
  intros [Hm Hc]. unfold advance_state. set (cur := if decide _ then _ else _).
  assert (cur <= timestampMaximum) as Hcur by (unfold cur; case_decide; lia). clearbody cur.
  unfold stamp_of, counterMaximum in *.
  destruct (negb (hasLast_ st) || (lastMilliseconds_ st <? cur)) eqn:E1; [intros [= <-]|].
  { split_and!; [split; [done|cbn; unfold counterMaximum; lia]|done..|]. intros Hl. rewrite Hl in E1.
    apply N.ltb_lt in E1. cbn. lia. }
  destruct (N.ltb_spec (counter_ st) 4095); [intros [= <-]|].
  { split_and!; [split; [done|cbn; unfold counterMaximum; lia]|done..|]. cbn. lia. }
  destruct (N.eqb_spec (lastMilliseconds_ st) timestampMaximum); [done|]. intros [= <-].
  split_and!; [split; cbn; unfold counterMaximum; lia|done..|]. cbn. lia.
Qed.

(** Only the very last identity of the 48-bit clock has no successor. *)
Lemma advance_state_None now st : in_range st → advance_state now st = None →
  lastMilliseconds_ st = timestampMaximum ∧ counter_ st = counterMaximum.
Proof.
  intros [Hm Hc]. unfold advance_state. destruct (_ || _); [done|].
  destruct (N.ltb_spec (counter_ st) counterMaximum); [done|].
  destruct (N.eqb_spec (lastMilliseconds_ st) timestampMaximum); [intros _|done]. lia.
Qed.

Lemma next_bytes_octets count left word e :
  length (next_bytes draw count left word e).1 = count ∧
  Forall octet (next_bytes draw count left word e).1.
Proof.
  assert (∀ w, octet (N.land w byteMask)) as Hb.
  { intros w. unfold octet, byteMask. change 255 with (N.ones 8). rewrite land_mask.
    by apply N.mod_lt. }
  revert left word e. induction count as [|count IH]; intros left word e; [by split; [|constructor]|].
  cbn [next_bytes]. destruct left as [|left].
  - destruct (draw e) as [w e']. specialize (IH 7%nat (N.shiftr w 8) e').
    destruct (next_bytes _ _ _ _ _). cbn in *. destruct IH. split; [congruence|by constructor].
  - specialize (IH left (N.shiftr word 8) e).
    destruct (next_bytes _ _ _ _ _). cbn in *. destruct IH. split; [congruence|by constructor].
Qed.

Lemma write_counter_value st : counter_ st <= counterMaximum →
  be_value (write_counter st) = 28672 + counter_ st ∧ Forall octet (write_counter st) ∧
  N.shiftr (nth 0 (write_counter st) 0) 4 = 7.
Proof.
  unfold write_counter, counterMaximum, counterHighMask, byteMask. intros Hc.
  change 0x0F with (N.ones 4). change 255 with (N.ones 8). rewrite !land_mask, N.shiftr_div_pow2.
  change (2 ^ 4) with 16. change (2 ^ 8) with 256.
  rewrite version_byte by (by apply N.mod_lt). cbn [nth].
  rewrite N.shiftr_div_pow2. change (2 ^ 4) with 16.
  assert (counter_ st / 256 mod 16 = counter_ st / 256) as E.
  { apply N.mod_small, N.Div0.div_lt_upper_bound. lia. }
  pose proof (N.div_mod (counter_ st) 256). pose proof (N.mod_lt (counter_ st) 256).
  pose proof (N.mod_lt (counter_ st / 256) 16).
  split_and!.
  - rewrite !be_value_cons. cbn [length]. rewrite (eq_refl : be_value [] = 0).
    change (256 ^ N.of_nat 1) with 256. change (256 ^ N.of_nat 0) with 1. lia.
  - unfold octet. repeat constructor; lia.
  - symmetry. apply (N.div_unique _ _ _ (counter_ st / 256 mod 16)); lia.
Qed.

Lemma write_random_octets st :
  length (write_random draw st).1 = 8%nat ∧ Forall octet (write_random draw st).1 ∧
  N.shiftr (nth 0 (write_random draw st).1 0) 6 = 2.
Proof.
  unfold write_random. destruct (next_bytes_octets 8 0 0 (random_ st)) as [Hl Ho].
  destruct (next_bytes draw 8 0 0 (random_ st)) as [[|b l] e]; [done|]. cbn [fst] in *.
  apply Forall_cons in Ho as [Hb Ho]. unfold variantClearMask. change 0x3F with (N.ones 6).
  rewrite land_mask. change (2 ^ 6) with 64. pose proof (N.mod_lt b 64).
  rewrite variant_byte by lia. split_and!; [done| |].
  - constructor; [unfold octet; lia|done].
  - cbn [nth]. rewrite N.shiftr_div_pow2. change (2 ^ 6) with 64. symmetry.
    apply (N.div_unique _ _ _ (b mod 64)); lia.
Qed.

Lemma next_uuid_spec now st u st' : in_range st → next_uuid draw now st = Some (u, st') →
  in_range st' ∧ hasLast_ st' = true ∧ nextFrameId_ st' = nextFrameId_ st ∧
  (hasLast_ st = true → stamp_of st < stamp_of st') ∧ prefix u = stamp_of st' ∧ v7 u.
Proof.
  intros Hr. unfold next_uuid. destruct (advance_state now st) as [st1|] eqn:Ha; [|done].
  destruct (advance_state_spec now st st1 Hr Ha) as (Hr1 & Hl1 & Hf1 & Hlt).
  destruct (write_random_octets st1) as (Hrl & Hro & Hrv).
  destruct (write_counter_value st1 (ir_counter _ Hr1)) as (Hcv & Hco & Hcn).
  assert (Hst : let st2 := (write_random draw st1).2 in lastMilliseconds_ st2 = lastMilliseconds_ st1 ∧
    counter_ st2 = counter_ st1 ∧ hasLast_ st2 = hasLast_ st1 ∧ nextFrameId_ st2 = nextFrameId_ st1).
  { unfold write_random. by destruct (next_bytes _ _ _ _ _). }
  destruct (write_random draw st1) as [random st2]. cbn [fst snd] in *. intros Hu.
  assert (u = MkUuid (write_timestamp st1 ++ write_counter st1 ++ random) ∧ st' = st2)
    as [-> ->] by (split; congruence).
  destruct Hst as (E1 & E2 & E3 & E4). destruct Hr1 as [Hm Hc].
  pose proof (length_field_bytes 6 (lastMilliseconds_ st1)) as Hft.
  split_and!; [by split; [rewrite E1|rewrite E2]|congruence|congruence| |..].
  - unfold stamp_of in *. rewrite E1, E2. done.
  - unfold prefix. cbn [bytes]. rewrite app_assoc, take_app_length' by
      (rewrite length_app; unfold write_timestamp; rewrite Hft; done).
    rewrite be_value_app. unfold write_timestamp. rewrite Hcv, be_field_bytes.
    unfold stamp_of. rewrite E1, E2. change timestampMaximum with 281474976710655 in Hm.
    change (256 ^ N.of_nat (length (write_counter st1))) with 65536.
    rewrite N.mod_small; [lia|]. change (256 ^ N.of_nat 6) with 281474976710656. lia.
  - split; cbn [bytes].
    + rewrite !length_app, Hrl. unfold write_timestamp. rewrite Hft. done.
    + apply Forall_app. split; [apply field_bytes_octets|]. by apply Forall_app.
    + unfold write_timestamp. rewrite app_nth2; rewrite Hft; [|lia]. by rewrite app_nth1 by (cbn; lia).
    + unfold write_timestamp. rewrite app_nth2; rewrite Hft; [|lia]. rewrite app_nth2 by (cbn; lia).
      done.
Qed.

Lemma prefix_lt u1 u2 : v7 u1 → v7 u2 → prefix u1 < prefix u2 → uuid_lt u1 u2 = true.
Proof.
  intros [L1 O1 _ _] [L2 O2 _ _] Hlt. unfold uuid_lt.
  rewrite <- (take_drop 8 (bytes u1)), <- (take_drop 8 (bytes u2)).
  apply bytes_lt_app; [by rewrite !length_take, L1, L2|].
  apply be_value_lt; [by rewrite !length_take, L1, L2|by apply Forall_take..|done].
Qed.

Lemma mint_spec ops st us fs st' : in_range st → mint draw ops st = Some (us, fs, st') →
  Forall v7 us ∧ StronglySorted (λ a b, uuid_lt a b = true) us ∧
  (hasLast_ st = true → Forall (λ u, stamp_of st < prefix u) us) ∧
  fs = (λ i, nextFrameId_ st + N.of_nat i) <$> seq 0 (length fs).
Proof.
  revert st us fs. induction ops as [|[now|] ops IH]; intros st us fs Hr; cbn [mint].
  - intros [= <- <- _]. split_and!; [constructor|constructor|by constructor|done].
  - destruct (next_uuid draw now st) as [[u st1]|] eqn:Hu; [|done].
    destruct (mint draw ops st1) as [[[us1 fs1] st2]|] eqn:Hm; [|done]. intros [= <- <- <-].
    destruct (next_uuid_spec now st u st1 Hr Hu) as (Hr1 & Hl1 & Hf1 & Hlt & Hp & Hv).
    destruct (IH st1 us1 fs1 Hr1 Hm) as (Hvs & Hss & Hgt & Hfs). specialize (Hgt Hl1).
    split_and!; [by constructor| | |by rewrite Hf1 in Hfs].
    + constructor; [done|]. apply Forall_forall. intros u' Hu'. rewrite Forall_forall in Hvs, Hgt.
      apply prefix_lt; [done|by apply Hvs|]. rewrite Hp. by apply Hgt.
    + intros Hl. specialize (Hlt Hl). constructor; [lia|].
      eapply Forall_impl; [exact Hgt|]. cbn. intros u' ?. lia.
  - unfold next_frame_id. destruct (N.eqb_spec (nextFrameId_ st) (2 ^ 64 - 1)); [done|].
    set (st1 := MkFactory _ _ _ _ _).
    destruct (mint draw ops st1) as [[[us1 fs1] st2]|] eqn:Hm; [|done]. intros [= <- <- <-].
    destruct (IH st1 us1 fs1) as (Hvs & Hss & Hgt & Hfs); [by destruct Hr; split|done|].
    split_and!; [done|done|exact Hgt|]. cbn [length seq]. rewrite fmap_cons, N.add_0_r. f_equal.
    rewrite Hfs at 1. rewrite <- seq_shift, <- list_fmap_compose. apply list_fmap_ext.
    intros i x _. cbn. lia.
Qed.

Lemma fresh_in_range e : in_range (fresh_factory e).
Proof. split; cbn; unfold timestampMaximum, counterMaximum; lia. Qed.

End minting.

(** ** The text *)

Lemma hex_digit_inj x y : x < 16 → y < 16 → hex_digit x = hex_digit y → x = y.
Proof.
  intros Hx Hy. unfold hex_digit.
  destruct (lookup_lt_is_Some_2 hexDigits (N.to_nat x)) as [c Hc]; [cbn; lia|].
  destruct (lookup_lt_is_Some_2 hexDigits (N.to_nat y)) as [d Hd]; [cbn; lia|].
  rewrite Hc, Hd. cbn. intros ->. apply N2Nat.inj.
  apply (NoDup_lookup hexDigits _ _ d); [|done..]. apply (bool_decide_unpack _). by vm_compute.
Qed.

Lemma nibbles b : octet b → N.shiftr b 4 < 16 ∧ N.land b 15 < 16 ∧ b = 16 * N.shiftr b 4 + N.land b 15.
Proof.
  unfold octet. intros Hb. change 15 with (N.ones 4). rewrite land_mask, N.shiftr_div_pow2.
  change (2 ^ 4) with 16. split; [apply N.Div0.div_lt_upper_bound; lia|].
  split; [by apply N.mod_lt|by apply N.div_mod].
Qed.

Lemma uuid_chars_inj i l1 l2 : length l1 = length l2 → Forall octet l1 → Forall octet l2 →
  uuid_chars i l1 = uuid_chars i l2 → l1 = l2.
Proof.
  intros Hlen H1. revert i l2 Hlen.
  induction H1 as [|b1 l1 Hb1 H1 IH]; intros i [|b2 l2] Hlen H2 E; try done.
  apply Forall_cons in H2 as [Hb2 H2]. cbn [uuid_chars] in E. apply app_inv_head in E.
  injection E as E1 E2 E3. destruct (nibbles b1 Hb1) as (? & ? & ->), (nibbles b2 Hb2) as (? & ? & ->).
  apply hex_digit_inj in E1; [|done..]. apply hex_digit_inj in E2; [|done..].
  f_equal; [congruence|]. injection Hlen as Hlen. by eapply IH.
Qed.

Lemma length_of_chars l : String.length (String.string_of_list_ascii l) = length l.
Proof. induction l; cbn; congruence. Qed.

Lemma length_uuid_chars i l :
  length (uuid_chars i l) =
    (2 * length l + length (filter (λ k, hyphen_before k = true) (seq i (length l))))%nat.
Proof.
  revert i. induction l as [|b l IH]; intros i; [done|]. cbn [uuid_chars length seq].
  rewrite filter_cons, length_app. cbn [length]. rewrite IH.
  destruct (hyphen_before i); [rewrite decide_True by done|rewrite decide_False by done]; cbn [length]; lia.
Qed.

(** ** Theorems *)

Section theorems.
Context {Engine : Type} (draw : Engine → N * Engine).

(** C38: the identities of one factory strictly increase.  Whatever the clock reads
    (it may stand still, run backwards or exceed 48 bits) and whatever the random
    engine draws, every UUID minted is a version 7 identifier of sixteen octets and
    is greater, octet by octet, than all those minted before it, and frame ids
    count up from one. *)
Theorem identities_increase (e : Engine) ops us fs st :
  mint draw ops (fresh_factory e) = Some (us, fs, st) →
  Forall v7 us ∧
  (∀ i j a b, us !! i = Some a → us !! j = Some b → (i < j)%nat → uuid_lt a b = true) ∧
  (∀ i f, fs !! i = Some f → f = 1 + N.of_nat i).
Proof.
  intros Hm. destruct (mint_spec draw ops _ us fs st (fresh_in_range e) Hm) as (Hv & Hs & _ & Hf).
  split_and!; [done| |].
  - intros i j a b Hi Hj Hij. exact (StronglySorted_lookup _ us i j a b Hs Hi Hj Hij).
  - intros i f Hi. rewrite Hf, list_lookup_fmap in Hi.
    destruct (seq 0 (length fs) !! i) as [k|] eqn:E; [|done]. apply lookup_seq in E as [-> _].
    cbn in Hi. by injection Hi as <-.
Qed.

(** the text of a UUID identifies it: 36 characters, and two values of sixteen
    octets with the same text are the same. *)
Theorem uuid_text_identifies (a b : Uuid) :
  length (bytes a) = 16%nat → length (bytes b) = 16%nat →
  Forall octet (bytes a) → Forall octet (bytes b) →
  String.length (uuid_to_string a) = 36%nat ∧
  (uuid_to_string a = uuid_to_string b → a = b).
Proof.
  intros La Lb Oa Ob. split.
  - unfold uuid_to_string. rewrite length_of_chars, length_uuid_chars, La. by vm_compute.
  - intros E%(f_equal String.list_ascii_of_string). unfold uuid_to_string in E.
    rewrite !String.list_ascii_of_string_of_list_ascii in E.
    destruct a as [a], b as [b]. cbn in *. f_equal. eapply uuid_chars_inj; [congruence|done..].
Qed.

End theorems.

(** A stand-in for the engine: it counts. *)
Definition demo_draw (e : N) : N * N := (e * 0x9E3779B97F4A7C15 mod 2 ^ 64, e + 1).

(** The clock stands still, then runs backwards. *)
Definition demo_ops : list IdOp := [MintUuid 1700000000000; MintFrame; MintUuid 1700000000000; MintUuid 5].

Lemma identities_increase_witness :
  match mint demo_draw demo_ops (fresh_factory 7) with
  | Some (us, _, _) => match us with [a; b; c] => uuid_lt a c = true | _ => False end
  | None => False
  end.
Proof.
  destruct (mint demo_draw demo_ops (fresh_factory 7)) as [[[us fs] st]|] eqn:E.
  - destruct (identities_increase demo_draw 7 demo_ops us fs st E) as (_ & H & _).
    assert (match mint demo_draw demo_ops (fresh_factory 7) with
      | Some (us, _, _) => Nat.eqb (length us) 3 | None => false end = true) as Hl
      by (vm_compute; reflexivity).
    rewrite E in Hl. destruct us as [|a [|b [|c [|]]]]; try discriminate Hl.
    exact (H 0%nat 2%nat a c eq_refl eq_refl ltac:(lia)).
  - assert (bool_decide (is_Some (mint demo_draw demo_ops (fresh_factory 7))) = true) as H
      by (vm_compute; reflexivity).
    rewrite E in H. discriminate H.
Defined.

Definition demo_uuid : Uuid := MkUuid (N.of_nat <$> seq 0 16).

Lemma uuid_text_identifies_witness :
  uuid_to_string demo_uuid = "00010203-0405-0607-0809-0a0b0c0d0e0f"%string ∧
  String.length (uuid_to_string demo_uuid) = 36%nat.
Proof.
  split; [vm_compute; reflexivity|].
  apply (uuid_text_identifies demo_uuid demo_uuid); try (vm_compute; reflexivity).
  all: apply (bool_decide_unpack _); vm_compute; reflexivity.
Defined.
