(* ===== verification/Traversal.v ===== *)
(** Breadth- and depth-first traversal of [kernel/graph/graph_traversal.hpp].

    A graph is anything with the operations of [TraversableGraph]; the visited
    set is anything with the operations of [VisitedSet] (a [std::set] of keys, or
    the flat array an [IndexedGraph] affords), and a visitor is a state with two
    callbacks.  The laws the two interfaces promise are classes of their own, so
    that the searches are proved once against the promises. *)

From S2P Require Import Prelude Graph Topological.

(** ** Interfaces *)

(** [out_edges] after [edge_target]: the neighbours, in the graph's order. *)
Class TraversableGraph (G K : Type) := {
  trav_contains : G → K → bool;
  trav_neighbours : G → K → list K
}.

(** [with_visited_set]'s pair of lambdas over the set it chose. *)
Class VisitedSet (S K : Type) := {
  seen : S → K → bool;
  mark : S → K → S
}.

Class GraphVisitor (V K : Type) := {
  visit_node : K → V → V;
  visit_edge : K → K → V → V
}.

(** What a search relies on: neighbours are nodes, and the nodes are finitely
    many ([trav_space] lists them, perhaps with others). *)
Class TraversableLaws (G K : Type) `{TraversableGraph G K} (g : G) (space : list K) := {
  trav_in_space : ∀ a, trav_contains g a = true → a ∈ space;
  trav_closed : ∀ a b, trav_contains g a = true → b ∈ trav_neighbours g a →
    trav_contains g b = true
}.

(** Marking adds one key, among the keys [ok] the search can meet; [vis_inv] is
    whatever the representation keeps. *)
Class VisitedLaws (S K : Type) `{VisitedSet S K} (ok : K → Prop) (fresh : S) := {
  vis_inv : S → Prop;
  inv_fresh : vis_inv fresh;
  inv_mark : ∀ s k, ok k → vis_inv s → vis_inv (mark s k);
  seen_fresh : ∀ k, ok k → seen fresh k = false;
  seen_mark : ∀ s k j, vis_inv s → ok k → ok j →
    seen (mark s k) j = true ↔ j = k ∨ seen s j = true
}.

(** ** Instances *)

Section instances.
Context {K P : Type} {KEq : EqDecision K} {KCnt : Countable K} {KOrd : OrdKey K}.

#[export] Instance adjacency_traversable : TraversableGraph (AdjacencyGraph K P) K := {|
  trav_contains := contains_node;
  trav_neighbours := λ g n, target <$> out_edges g n
|}.

#[export] Instance adjacency_laws (g : AdjacencyGraph K P) :
  WF g → TraversableLaws (AdjacencyGraph K P) K g (nodes g).
Proof.
  intros Hwf. split; cbn.
  - intros a Ha%contains_node_true. by apply elem_of_sorted_keys.
  - intros a b _ ([t p] & -> & Hin)%list_elem_of_fmap. apply contains_node_true.
    by eapply wf_target_is_node.
Qed.

(** [std::set<Key>]. *)
#[export] Instance set_visited : VisitedSet (gset K) K := {|
  seen := λ s k, bool_decide (k ∈ s);
  mark := λ s k, {[k]} ∪ s
|}.

#[export] Program Instance set_visited_laws (ok : K → Prop) : VisitedLaws (gset K) K ok ∅ := {|
  vis_inv := λ _, True
|}.
Next Obligation. done. Qed.
Next Obligation. done. Qed.
Next Obligation. intros ok k _. apply bool_decide_eq_false_2. set_solver. Qed.
Next Obligation. intros ok s k j _ _ _. cbn. rewrite !bool_decide_eq_true. set_solver. Qed.

End instances.

(** The flat array of an [IndexedGraph], subscripted by its [node_index]. *)
Definition flat_visited {K} (node_index : K → nat) : VisitedSet (list bool) K := {|
  seen := λ s k, default false (s !! node_index k);
  mark := λ s k, <[node_index k := true]> s
|}.

Section flat.
Context {K : Type} (node_index : K → nat) (index_space_size : nat) (ok : K → Prop).
Context (Hbound : ∀ k, ok k → (node_index k < index_space_size)%nat).
Context (Hinj : ∀ k j, ok k → ok j → node_index k = node_index j → k = j).

Definition flat_visited_laws :
  VisitedLaws (H := flat_visited node_index) (list bool) K ok
    (replicate index_space_size false).
Proof.
  refine {| vis_inv := λ s, length s = index_space_size |}.
  - apply length_replicate.
  - intros s k _. cbn. by rewrite length_insert.
  - intros k Hk. cbn. by rewrite lookup_replicate_2 by auto.
  - intros s k j Hs Hk Hj. cbn. destruct (decide (node_index k = node_index j)) as [E|Hne].
    + rewrite E, list_lookup_insert_eq by (rewrite Hs; auto). split; [left; by apply Hinj|done].
    + rewrite list_lookup_insert_ne by done. naive_solver.
Qed.

End flat.

(** ** The searches *)

Section search.
Context {G K S V : Type}.
Context {TG : TraversableGraph G K} {VS : VisitedSet S K} {GV : GraphVisitor V K}.
Implicit Types (g : G) (s : S) (v : V) (node : K).

(** The body of [breadth_first_search]'s innermost loop. *)
Definition offer_edge (node : K) (st : S * list K * V) (neighbour : K) : S * list K * V :=
  let '(s, next, v) := st in
  let v := visit_edge node neighbour v in
  if seen s neighbour then (s, next, v)
  else (mark s neighbour, next ++ [neighbour], v).

Definition expand (g : G) (st : S * list K * V) (node : K) : S * list K * V :=
  let '(s, next, v) := st in
  foldl (offer_edge node) (s, next, visit_node node v) (trav_neighbours g node).

(** One iteration of the [while] per unit of fuel; [None] is a run out of fuel. *)
Fixpoint bfs_loop (fuel : nat) (g : G) (frontier : list K) (s : S) (v : V) : option V :=
  match frontier with
  | [] => Some v
  | _ =>
    match fuel with
    | O => None
    | Datatypes.S fuel' =>
      let '(s, next, v) := foldl (expand g) (s, [], v) frontier in
      bfs_loop fuel' g next s v
    end
  end.

Definition breadth_first_search (fuel : nat) (fresh : S) (g : G) (start : K) (v : V)
    : option V :=
  if trav_contains g start then bfs_loop fuel g [start] (mark fresh start) v else Some v.

(** The body of [depth_first_search]'s push loop; the head is the stack's top. *)
Definition push_neighbour (s : S) (node : K) (st : list K * V) (neighbour : K)
    : list K * V :=
  let '(pending, v) := st in
  let v := visit_edge node neighbour v in
  if seen s neighbour then (pending, v) else (neighbour :: pending, v).

Fixpoint dfs_loop (fuel : nat) (g : G) (pending : list K) (s : S) (v : V) : option V :=
  match pending with
  | [] => Some v
  | node :: pending =>
    match fuel with
    | O => None
    | Datatypes.S fuel' =>
      if seen s node then dfs_loop fuel' g pending s v
      else
        let s := mark s node in
        let '(pending, v) :=
          foldl (push_neighbour s node) (pending, visit_node node v)
            (rev (trav_neighbours g node)) in
        dfs_loop fuel' g pending s v
    end
  end.

Definition depth_first_search (fuel : nat) (fresh : S) (g : G) (start : K) (v : V)
    : option V :=
  if trav_contains g start then dfs_loop fuel g [start] fresh v else Some v.

(** ** What the visitor is offered *)

Inductive Offer :=
  | VisitNode (n : K)
  | VisitEdge (a b : K).

Definition take_offer (v : V) (o : Offer) : V :=
  match o with
  | VisitNode n => visit_node n v
  | VisitEdge a b => visit_edge a b v
  end.

(** Each node of [order] with its out-edges, in the graph's order or reversed. *)
Definition offers (g : G) (order : list K) : list Offer :=
  order ≫= λ n, VisitNode n :: (VisitEdge n <$> trav_neighbours g n).

Definition reversed_offers (g : G) (order : list K) : list Offer :=
  order ≫= λ n, VisitNode n :: (VisitEdge n <$> rev (trav_neighbours g n)).

(** The relation the searches walk along. *)
Definition edge (g : G) (a b : K) : Prop := b ∈ trav_neighbours g a.

End search.

(** ** First occurrences *)

Section firsts.
Context {K : Type} `{!EqDecision K}.
Implicit Types met l : list K.

(** What [l] holds and [met] does not, each where it occurs first. *)
Fixpoint firsts met l : list K :=
  match l with
  | [] => []
  | k :: l => if decide (k ∈ met) then firsts met l else k :: firsts (k :: met) l
  end.

Lemma firsts_ext met met' l :
  (∀ k, k ∈ l → k ∈ met ↔ k ∈ met') → firsts met l = firsts met' l.
Proof.
  revert met met'. induction l as [|k l IH]; intros met met' H; [done|]. cbn.
  rewrite (decide_ext (k ∈ met) (k ∈ met')) by (apply H; left).
  destruct (decide (k ∈ met')); [|f_equal]; apply IH; intros j Hj; rewrite ?elem_of_cons, H; done || by right.
Qed.

Lemma firsts_app met l1 l2 : firsts met (l1 ++ l2) = firsts met l1 ++ firsts (l1 ++ met) l2.
Proof.
  revert met. induction l1 as [|k l1 IH]; intros met; [done|]. cbn.
  destruct (decide (k ∈ met)); rewrite IH; cbn; [|f_equal]; f_equal; apply firsts_ext; set_solver.
Qed.

Lemma elem_of_firsts met l k : k ∈ firsts met l ↔ k ∈ l ∧ k ∉ met.
Proof.
  revert met. induction l as [|j l IH]; intros met; cbn; [set_solver|].
  case_decide; rewrite ?elem_of_cons, IH; [set_solver|]. rewrite elem_of_cons.
  destruct (decide (k = j)); naive_solver.
Qed.
End firsts.

(** ** Breadth first *)

Section breadth_first.
Context {G K S V : Type} {KEq : EqDecision K}.
Context {TG : TraversableGraph G K} {VS : VisitedSet S K} {GV : GraphVisitor V K}.
Context (g : G) (space : list K) (fresh : S).
Context {TL : TraversableLaws G K g space}.
Context {VL : VisitedLaws S K (λ k, trav_contains g k = true) fresh}.
Context (start : K) (Hstart : trav_contains g start = true).

Local Abbreviation ok k := (trav_contains g k = true).
Local Abbreviation steps_to n k := (nsteps (edge g) n start k).

Lemma reached_ok n k : steps_to n k → ok k.
Proof.
  revert k. induction n as [|n IH]; intros k Hk.
  - by inversion Hk; subst.
  - apply nsteps_inv_r in Hk as (y & Hy%IH & He). by eapply trav_closed.
Qed.

(** Going from one bookkeeping state to the next met the keys [l] and made the
    offers [os]: the unseen among [l] were marked and queued, each once. *)
Definition absorbs (l : list K) (os : list Offer) (st st' : S * list K * V) : Prop :=
  let '(s, next, v) := st in
  let '(s', next', v') := st' in
  ∃ new, next' = next ++ new ∧ NoDup new ∧ (∀ k, k ∈ new ↔ k ∈ l ∧ seen s k = false) ∧
    (∀ k, ok k → seen s' k = true ↔ seen s k = true ∨ k ∈ l) ∧ vis_inv s' ∧
    v' = foldl take_offer v os ∧
    ∀ met, (∀ k, k ∈ l → seen s k = true ↔ k ∈ met) → new = firsts met l.

Lemma absorbs_nil st : vis_inv st.1.1 → absorbs [] [] st st.
Proof.
  destruct st as [[s next] v]. cbn. intros Hs. exists [].
  rewrite app_nil_r. split_and!; [done|constructor| | |done|done|done].
  - intros k. split; [by intros ?%elem_of_nil|by intros [?%elem_of_nil _]].
  - intros k _. split; [by left|by intros [?|?%elem_of_nil]].
Qed.

Lemma absorbs_trans l1 os1 l2 os2 st1 st2 st3 : Forall (λ k, ok k) (l1 ++ l2) →
  absorbs l1 os1 st1 st2 → absorbs l2 os2 st2 st3 → absorbs (l1 ++ l2) (os1 ++ os2) st1 st3.
Proof.
  destruct st1 as [[s1 n1] v1], st2 as [[s2 n2] v2], st3 as [[s3 n3] v3]. cbn.
  intros Hok (new1 & -> & Hn1 & He1 & Hs1 & Hi1 & -> & Hf1) (new2 & -> & Hn2 & He2 & Hs2 & Hi2 & -> & Hf2).
  rewrite Forall_forall in Hok. setoid_rewrite elem_of_app in Hok.
  assert (∀ k, k ∈ l2 → seen s2 k = false ↔ seen s1 k = false ∧ k ∉ l1) as Hs2f.
  { intros k Hk. specialize (Hs1 k (Hok k (or_intror Hk))).
    destruct (seen s2 k), (seen s1 k); naive_solver. }
  exists (new1 ++ new2). split_and!.
  - by rewrite app_assoc.
  - apply NoDup_app. split_and!; [done| |done].
    intros k [? _]%He1 [? [_ ?]%Hs2f]%He2; done.
  - intros k. rewrite !elem_of_app, He1, He2. split.
    + intros [[? ?]|[? [? ?]%Hs2f]]; naive_solver.
    + intros [[?|?] ?]; [by left; split|].
      destruct (decide (k ∈ l1)); [left; by split|right; split; [done|by apply Hs2f]].
  - intros k Hk. rewrite Hs2, Hs1, elem_of_app by done. tauto.
  - done.
  - by rewrite foldl_app.
  - intros met Hm. rewrite firsts_app. setoid_rewrite elem_of_app in Hm. f_equal; [apply Hf1; auto|].
    apply Hf2. intros k Hk. rewrite Hs1, Hm, elem_of_app by auto. tauto.
Qed.

Lemma absorbs_offer node st k : ok k → vis_inv st.1.1 →
  absorbs [k] [VisitEdge node k] st (offer_edge node st k).
Proof.
  destruct st as [[s next] v]. cbn. intros Hk Hs. destruct (seen s k) eqn:E.
  - exists []. rewrite app_nil_r. split_and!; [done|constructor| | |done|done|].
    + intros j. rewrite list_elem_of_singleton. split; [by intros ?%elem_of_nil|].
      intros [-> ?]. congruence.
    + intros j Hj. rewrite list_elem_of_singleton. split; [by left|]. by intros [?| ->].
    + intros met Hm. cbn. rewrite decide_True; [done|]. apply Hm; [left|done].
  - exists [k]. split_and!; [done|apply NoDup_singleton| | |by apply inv_mark|done|].
    + intros j. rewrite !list_elem_of_singleton. split; [by intros ->|by intros [-> _]].
    + intros j Hj. rewrite (seen_mark s k j) by done. rewrite list_elem_of_singleton. tauto.
    + intros met Hm. cbn. rewrite decide_False; [done|]. intros Hin%Hm; [congruence|left].
Qed.

Lemma absorbs_inv l os st st' : absorbs l os st st' → vis_inv st'.1.1.
Proof. destruct st as [[??]?], st' as [[??]?]. cbn. by intros (? & _ & _ & _ & _ & ? & _). Qed.

Lemma bind_singletons {A B} (f : A → B) (l : list A) : (l ≫= λ x, [f x]) = f <$> l.
Proof. induction l; cbn; congruence. Qed.

(** A loop whose every iteration absorbs. *)
Lemma absorbs_foldl {A} (f : S * list K * V → A → S * list K * V)
    (keys : A → list K) (os : A → list Offer) (P : A → Prop) :
  (∀ a, P a → Forall (λ k, ok k) (keys a)) →
  (∀ st a, P a → vis_inv st.1.1 → absorbs (keys a) (os a) st (f st a)) →
  ∀ l st, Forall P l → vis_inv st.1.1 → absorbs (l ≫= keys) (l ≫= os) st (foldl f st l).
Proof.
  intros Hk Hf l. induction l as [|a l IH]; intros st HP Hs; [by apply absorbs_nil|].
  apply Forall_cons in HP as [Ha HP]. cbn.
  pose proof (Hf st a Ha Hs) as H1. eapply absorbs_trans; [|exact H1|].
  - apply Forall_app. split; [by apply Hk|]. apply Forall_bind. eapply Forall_impl; [exact HP|].
    apply Hk.
  - apply IH; [done|]. by eapply absorbs_inv.
Qed.

Lemma absorbs_expand st n : ok n → vis_inv st.1.1 →
  absorbs (trav_neighbours g n) (VisitNode n :: (VisitEdge n <$> trav_neighbours g n)) st
    (expand g st n).
Proof.
  intros Hn Hs. destruct st as [[s next] v]. cbn in Hs. unfold expand.
  assert (Forall (λ k, ok k) (trav_neighbours g n)) as Hok.
  { apply Forall_forall. intros k Hk. by eapply trav_closed. }
  pose proof (absorbs_foldl (offer_edge n) (λ k, [id k]) (λ k, [VisitEdge n k]) (λ k, ok k)
    ltac:(intros; by apply Forall_singleton)
    ltac:(intros; by apply absorbs_offer) (trav_neighbours g n) (s, next, visit_node n v) Hok Hs) as H.
  rewrite bind_singletons, list_fmap_id in H. rewrite bind_singletons in H. exact H.
Qed.

Lemma absorbs_round F st : Forall (λ k, ok k) F → vis_inv st.1.1 →
  absorbs (F ≫= trav_neighbours g) (offers g F) st (foldl (expand g) st F).
Proof.
  apply absorbs_foldl; [|apply absorbs_expand].
  intros a Ha. apply Forall_forall. intros k Hk. by eapply trav_closed.
Qed.

(** ** Levels *)

Definition at_distance (n : nat) (k : K) : Prop :=
  steps_to n k ∧ ∀ m, steps_to m k → (n <= m)%nat.

(** Nothing stands before a node nearer to the start. *)
Definition nearest_first (order : list K) : Prop :=
  ∀ i j a b n, order !! i = Some a → order !! j = Some b → (i <= j)%nat → steps_to n b →
    ∃ m, (m <= n)%nat ∧ steps_to m a.

Record bfs_level (d : nat) (done F : list K) (s : S) : Prop := {
  lv_inv : vis_inv s;
  lv_NoDup : NoDup (done ++ F);
  lv_done : ∀ k, k ∈ done ↔ ∃ m, (m < d)%nat ∧ steps_to m k;
  lv_front : ∀ k, k ∈ F ↔ at_distance d k;
  lv_seen : ∀ k, ok k → seen s k = true ↔ ∃ m, (m <= d)%nat ∧ steps_to m k;
  lv_near : nearest_first (done ++ F);
  lv_listed : firsts [] (start :: (done ≫= trav_neighbours g)) = done ++ F
}.

Lemma level_start : bfs_level 0 [] [start] (mark fresh start).
Proof.
  split.
  - apply inv_mark; [done|apply inv_fresh].
  - apply NoDup_singleton.
  - intros k. split; [by intros ?%elem_of_nil|intros (m & ? & _); lia].
  - intros k. rewrite list_elem_of_singleton. split.
    + intros ->. split; [constructor|lia].
    + intros [Hk _]. by inversion Hk.
  - intros k Hk. rewrite seen_mark by (done || apply inv_fresh). rewrite seen_fresh by done.
    split; [intros [->|?]; [|done]; exists 0%nat; split; [lia|constructor]|].
    intros (m & ? & Hm). assert (m = 0%nat) as -> by lia. left. by inversion Hm.
  - intros i j a b n Hi Hj Hij _. apply list_lookup_singleton_Some in Hi as [_ <-].
    exists 0%nat. split; [lia|constructor].
  - done.
Qed.

Lemma level_next d done F s s' new v v' : bfs_level d done F s →
  absorbs (F ≫= trav_neighbours g) (offers g F) (s, [], v) (s', new, v') →
  bfs_level (Datatypes.S d) (done ++ F) new s'.
Proof.
  intros [Hi Hnd Hd HF Hs Hnear Hls] (new' & E & Hn & He & Hs' & Hi' & _ & Hlist). cbn in E. subst new'.
  assert (∀ k, k ∈ F ≫= trav_neighbours g ↔ ∃ f, at_distance d f ∧ edge g f k) as Hb.
  { intros k. rewrite list_elem_of_bind. unfold edge. setoid_rewrite HF. naive_solver. }
  assert (∀ k, k ∈ new ↔ at_distance (Datatypes.S d) k) as Hnew.
  { intros k. rewrite He, Hb. split.
    - intros [(f & [Hf _] & Hfk) Hk]. assert (steps_to (Datatypes.S d) k) as Hst
        by by eapply nsteps_r.
      split; [done|]. intros m Hm. apply Nat.nlt_ge. intros Hlt.
      assert (seen s k = true); [|congruence]. apply Hs; [by eapply reached_ok|].
      exists m. split; [lia|done].
    - intros [Hst Hmin]. split.
      + apply nsteps_inv_r in Hst as (f & Hf & Hfk). exists f. split; [|done]. split; [done|].
        intros m Hm. apply le_S_n, Hmin. by eapply nsteps_r.
      + destruct (seen s k) eqn:E; [|done]. apply Hs in E as (m & Hm & Hk); [|by eapply reached_ok].
        apply Hmin in Hk. lia. }
  assert (∀ k, k ∈ done ++ F ↔ ∃ m, (m < Datatypes.S d)%nat ∧ steps_to m k) as Hdone.
  { intros k. rewrite elem_of_app, Hd, HF. split.
    - intros [(m & ? & ?)|[? _]]; eexists; (split; [|done]); lia.
    - intros (m & Hm & Hk). destruct (decide (k ∈ done)) as [Hin|Hin]; [by left; apply Hd|].
      assert (∀ m', steps_to m' k → (d <= m')%nat) as Hmin.
      { intros m' Hk'. apply Nat.nlt_ge. intros Hlt. apply Hin, Hd. eauto. }
      right. assert (m = d) as -> by (specialize (Hmin m Hk); lia). done. }
  split; [done| |done|done| | |].
  - apply NoDup_app. split_and!; [done| |done].
    intros k (m & ? & Hm)%Hdone [_ Hmin]%Hnew. apply Hmin in Hm. lia.
  - intros k Hk. rewrite Hs', Hs, Hb by done. split.
    + intros [(m & ? & ?)|(f & [Hf _] & Hfk)]; [exists m; split; [lia|done]|].
      exists (Datatypes.S d). split; [lia|]. by eapply nsteps_r.
    + intros (m & Hm & Hk'). destruct (decide (k ∈ done ++ F)) as [Hin|Hin].
      * left. apply Hdone in Hin as (m' & ? & ?). exists m'. split; [lia|done].
      * assert (∀ m', steps_to m' k → (Datatypes.S d <= m')%nat) as Hmin.
        { intros m' Hk''. apply Nat.nlt_ge. intros Hlt. apply Hin, Hdone. eauto. }
        right. apply Hb, He, Hnew. split; [|done].
        by assert (m = Datatypes.S d) as <- by (specialize (Hmin m Hk'); lia).
  - intros i j a b n Ha Hb' Hij Hst. apply lookup_app_Some in Hb' as [Hb'|[Hlen Hb']].
    + apply (Hnear i j a b n); [|done..]. rewrite lookup_app_l in Ha; [done|].
      apply lookup_lt_Some in Hb'. lia.
    + apply list_elem_of_lookup_2, Hnew in Hb' as [_ Hmin]. specialize (Hmin n Hst).
      apply lookup_app_Some in Ha as [Ha|[_ Ha]].
      * apply list_elem_of_lookup_2, Hdone in Ha as (m & ? & ?). exists m. split; [lia|done].
      * apply list_elem_of_lookup_2, Hnew in Ha as [Ha _]. eauto.
  - rewrite bind_app, app_comm_cons, firsts_app, app_nil_r, Hls. f_equal. symmetry. apply Hlist.
    intros k [f [Hk [Hf _]%HF]]%list_elem_of_bind.
    assert (k ∈ start :: (done ≫= trav_neighbours g) ↔ k ∈ done ++ F) as -> by
      (rewrite <- Hls, elem_of_firsts; set_solver).
    rewrite Hs, Hdone by (eapply trav_closed; [eapply reached_ok, Hf|done]).
    split; intros (m & ? & ?); exists m; (split; [lia|done]).
Qed.

Lemma level_bounded d done F s : bfs_level d done F s →
  (length done + length F <= length space)%nat.
Proof.
  intros Hl. rewrite <- length_app. apply NoDup_length_le; [apply Hl|].
  intros k Hk. assert (∃ n, steps_to n k) as [n Hn].
  { apply elem_of_app in Hk as [Hk|Hk]; [apply (lv_done _ _ _ _ Hl) in Hk as (m & _ & ?); eauto|].
    apply (lv_front _ _ _ _ Hl) in Hk as [? _]. eauto. }
  eapply trav_in_space, reached_ok, Hn.
Qed.

Lemma level_last d done s k : bfs_level d done [] s → k ∈ done ↔ ∃ n, steps_to n k.
Proof.
  intros Hl. rewrite (lv_done _ _ _ _ Hl). split; [intros (m & _ & ?); eauto|].
  intros [n Hn]. revert k Hn. induction n as [n IH] using lt_wf_ind. intros k Hn.
  destruct (decide (k ∈ done)) as [Hin|Hin]; [by apply (lv_done _ _ _ _ Hl)|].
  assert (¬ at_distance d k) as Hfar by (intros ?%(lv_front _ _ _ _ Hl); by eapply not_elem_of_nil).
  destruct n as [|n].
  - inversion Hn; subst. destruct d; [|exists 0%nat; split; [lia|constructor]].
    exfalso. apply Hfar. split; [constructor|lia].
  - apply nsteps_inv_r in Hn as (y & Hy & He).
    destruct (IH n (Nat.lt_succ_diag_r n) y Hy) as (m & Hm & Hym).
    destruct (decide (Datatypes.S m < d)%nat); [exists (Datatypes.S m); split; [done|by eapply nsteps_r]|].
    exfalso. apply Hfar. assert (d = Datatypes.S m) as -> by lia. split; [by eapply nsteps_r|].
    intros m' Hm'. apply Nat.nlt_ge. intros Hlt. apply Hin, (lv_done _ _ _ _ Hl). eauto.
Qed.

Lemma bfs_loop_explores fuel d done F s v : bfs_level d done F s →
  (length space <= fuel + length done)%nat →
  ∃ rest, bfs_loop fuel g F s v = Some (foldl take_offer v (offers g rest)) ∧
    NoDup (done ++ rest) ∧ (∀ k, k ∈ done ++ rest ↔ ∃ n, steps_to n k) ∧
    nearest_first (done ++ rest) ∧
    firsts [] (start :: ((done ++ rest) ≫= trav_neighbours g)) = done ++ rest.
Proof.
  revert d done F s v. induction fuel as [|fuel IH]; intros d done F s v Hl Hfuel;
    pose proof (level_bounded _ _ _ _ Hl) as Hb; destruct F as [|f F]; cbn [bfs_loop].
  2: cbn in Hb; lia.
  1,2: exists []; rewrite app_nil_r; split_and!; [done|..];
    [by pose proof (lv_NoDup _ _ _ _ Hl) as H; rewrite app_nil_r in H
    |intros k; by apply (level_last _ _ _ _ Hl)
    |by pose proof (lv_near _ _ _ _ Hl) as H; rewrite app_nil_r in H
    |by pose proof (lv_listed _ _ _ _ Hl) as H; rewrite app_nil_r in H].
  pose proof (absorbs_round (f :: F) (s, [], v)) as Hr. cbn [fst] in Hr.
  destruct (foldl (expand g) (s, [], v) (f :: F)) as [[s' new] v'].
  assert (absorbs ((f :: F) ≫= trav_neighbours g) (offers g (f :: F)) (s, [], v) (s', new, v')) as Ha.
  { apply Hr; [|apply Hl]. apply Forall_forall. intros k [Hk _]%(lv_front _ _ _ _ Hl).
    by eapply reached_ok. }
  destruct (IH _ _ _ _ v' (level_next _ _ _ _ _ _ _ _ Hl Ha)) as (rest & E & Hnd & Hex & Hn & Hls).
  { rewrite length_app. cbn. lia. }
  exists ((f :: F) ++ rest). rewrite app_assoc. split_and!; [|done..].
  destruct Ha as (_ & _ & _ & _ & _ & _ & -> & _).
  unfold offers in *. by rewrite bind_app, foldl_app, E.
Qed.

End breadth_first.

(** ** Depth first: the recursive reference *)

Section preorder.
Context {G K : Type} {TG : TraversableGraph G K} (g : G).

(** [walk vis l out]: visiting the nodes [l] in turn, recursively and skipping
    what [vis] already holds, newly visits [out] in preorder. *)
Inductive walk : list K → list K → list K → Prop :=
  | walk_nil vis : walk vis [] []
  | walk_skip vis x l out : x ∈ vis → walk vis l out → walk vis (x :: l) out
  | walk_visit vis x l out1 out2 : x ∉ vis →
      walk (vis ++ [x]) (trav_neighbours g x) out1 →
      walk (vis ++ x :: out1) l out2 → walk vis (x :: l) (x :: out1 ++ out2).

Lemma walk_app_inv l1 l2 vis out : walk vis (l1 ++ l2) out →
  ∃ out1 out2, out = out1 ++ out2 ∧ walk vis l1 out1 ∧ walk (vis ++ out1) l2 out2.
Proof.
  revert vis out. induction l1 as [|x l1 IH]; intros vis out Hw; cbn in Hw.
  - exists [], out. rewrite app_nil_r. split_and!; [done|constructor|done].
  - inversion Hw as [|? ? ? ? Hin Hw'|? ? ? o1 o2 Hin Hw1 Hw2]; subst.
    + apply IH in Hw' as (out1 & out2 & -> & ? & ?). exists out1, out2.
      split_and!; [done|by apply walk_skip|done].
    + apply IH in Hw2 as (out1 & out2 & -> & H1 & H2). exists (x :: o1 ++ out1), out2.
      split_and!; [cbn; by rewrite app_assoc|by apply walk_visit|].
      by rewrite <- app_assoc in H2.
Qed.

(** What was already visited when the todo list was made may be left out. *)
Lemma walk_unfilter (skip : K → bool) l p vis out :
  (∀ k, skip k = true → k ∈ vis) →
  walk vis (filter (λ k, skip k = false) l ++ p) out → walk vis (l ++ p) out.
Proof.
  revert vis out. induction l as [|x l IH]; intros vis out Hs Hw; [done|].
  rewrite filter_cons in Hw. cbn. case_decide as Hx.
  - inversion Hw as [|? ? ? ? Hin Hw'|? ? ? o1 o2 Hin Hw1 Hw2]; subst.
    + apply walk_skip; [done|]. by apply IH.
    + apply walk_visit; [done..|]. apply IH; [|done].
      intros k Hk%Hs. apply elem_of_app. by left.
  - apply walk_skip; [|by apply IH]. apply Hs. by destruct (skip x).
Qed.

Lemma walk_sound vis l out : walk vis l out →
  NoDup out ∧ (∀ k, k ∈ out → k ∉ vis) ∧
  (∀ k, k ∈ out → ∃ x, x ∈ l ∧ rtc (edge g) x k) ∧
  (∀ k, k ∈ l → k ∈ vis ++ out) ∧
  (∀ a b, a ∈ out → edge g a b → b ∈ vis ++ out).
Proof.
  induction 1 as [vis|vis x l out Hx Hw (N & D & S & C & E)
    |vis x l out1 out2 Hx Hw1 (N1 & D1 & S1 & C1 & E1) Hw2 (N2 & D2 & S2 & C2 & E2)].
  - split_and!; [constructor|by intros k ?%elem_of_nil..|by intros a b ?%elem_of_nil].
  - setoid_rewrite elem_of_cons. split_and!; [done|done| | |done].
    + intros k (y & ? & ?)%S. eauto.
    + intros k [->|Hk]; [|by apply C]. apply elem_of_app. by left.
  - split_and!.
    + apply NoDup_cons. split; [set_solver|]. apply NoDup_app. set_solver.
    + set_solver.
    + intros k Hk. rewrite elem_of_cons, elem_of_app in Hk.
      destruct Hk as [->|[(y & Hy & ?)%S1|(y & ? & ?)%S2]]; [exists x; split; [left|done]| |].
      * exists x. split; [left|]. by eapply rtc_l.
      * exists y. split; [by right|done].
    + set_solver.
    + intros a b Ha He. rewrite elem_of_cons, elem_of_app in Ha.
      destruct Ha as [->|[Ha|Ha]]; [specialize (C1 b He)|specialize (E1 a b Ha He)
        |specialize (E2 a b Ha He)]; set_solver.
Qed.

Lemma walk_reaches start out : walk [] [start] out →
  NoDup out ∧ ∀ k, k ∈ out ↔ rtc (edge g) start k.
Proof.
  intros (N & _ & S & C & E)%walk_sound. cbn in C, E. split; [done|]. intros k. split.
  - intros (x & ->%list_elem_of_singleton & ?)%S. done.
  - intros Hk. revert k Hk. apply rtc_ind_r; [apply C; by left|].
    intros y z _ He Hy. by eapply E.
Qed.

End preorder.

(** ** Depth first: the explicit stack *)

Section depth_first.
Context {G K S V : Type} {KEq : EqDecision K}.
Context {TG : TraversableGraph G K} {VS : VisitedSet S K} {GV : GraphVisitor V K}.
Context (g : G) (space : list K) (fresh : S).
Context {TL : TraversableLaws G K g space}.
Context {VL : VisitedLaws S K (λ k, trav_contains g k = true) fresh}.

Local Abbreviation ok k := (trav_contains g k = true).

Definition out_degree (k : K) : nat := length (trav_neighbours g k).

(** The pushes still to come: the out-degrees of what is not visited yet. *)
Definition unpushed (vis : list K) : nat :=
  sum_list_with out_degree (filter (λ k, k ∉ vis) space).

Lemma unpushed_visit vis x : x ∈ space → x ∉ vis →
  (unpushed (vis ++ [x]) + out_degree x <= unpushed vis)%nat.
Proof.
  unfold unpushed. intros Hin Hx. clear TL. induction space as [|y l IH]; [by apply elem_of_nil in Hin|].
  assert (∀ l, sum_list_with out_degree (filter (λ k, k ∉ vis ++ [x]) l) <=
    sum_list_with out_degree (filter (λ k, k ∉ vis) l))%nat as Hmono.
  { clear. induction l as [|y l IH]; [done|]. rewrite !filter_cons.
    repeat case_decide; cbn; try lia. set_solver. }
  rewrite !filter_cons. destruct (decide (y = x)) as [->|Hne].
  - rewrite (decide_False (P := x ∉ vis ++ [x])) by set_solver.
    rewrite (decide_True (P := x ∉ vis)) by done. cbn. specialize (Hmono l). lia.
  - assert (x ∈ l) as Hl by set_solver. specialize (IH Hl).
    destruct (decide (y ∈ vis)).
    + rewrite !decide_False by set_solver. done.
    + rewrite !decide_True by set_solver. cbn. lia.
Qed.

Lemma push_all s node l p v :
  foldl (push_neighbour s node) (p, v) (rev l) =
    (filter (λ k, seen s k = false) l ++ p,
     foldl take_offer v (VisitEdge node <$> rev l)).
Proof.
  rewrite <- (rev_involutive l) at 2. generalize (rev l) as r. clear l. intros r.
  revert p v. induction r as [|k r IH]; intros p v; [done|]. cbn.
  rewrite filter_app, filter_cons, filter_nil. destruct (seen s k) eqn:E; rewrite IH.
  - rewrite decide_False by done. by rewrite app_nil_r.
  - rewrite decide_True by done. by rewrite <- app_assoc.
Qed.

Lemma dfs_loop_walks fuel pending s vis v :
  vis_inv s → Forall (λ k, ok k) pending → (∀ k, ok k → seen s k = true ↔ k ∈ vis) →
  (∀ k, k ∈ vis → ok k) →
  (length pending + unpushed vis <= fuel)%nat →
  ∃ out, walk g vis pending out ∧
    dfs_loop fuel g pending s v = Some (foldl take_offer v (reversed_offers g out)).
Proof.
  revert pending s vis v. induction fuel as [|fuel IH]; intros [|x p] s vis v Hi Hp Hs Hv Hf;
    cbn [dfs_loop].
  1,3: exists []; by split; [constructor|].
  { cbn in Hf. lia. }
  apply Forall_cons in Hp as [Hx Hp]. destruct (seen s x) eqn:E.
  - destruct (IH p s vis v) as (out & Hw & Ho); [done..|cbn in Hf; lia|].
    exists out. split; [|done]. apply walk_skip; [by apply Hs|done].
  - rewrite push_all. assert (x ∉ vis) as Hxv by (intros ?%Hs; [congruence|done]).
    assert (∀ k, k ∈ trav_neighbours g x → ok k) as Hn by (intros k ?; by eapply trav_closed).
    assert (∀ k, ok k → seen (mark s x) k = true ↔ k ∈ vis ++ [x]) as Hs'.
    { intros k Hk. rewrite seen_mark, Hs by done. set_solver. }
    pose proof (unpushed_visit vis x (trav_in_space x Hx) Hxv) as Hu.
    destruct (IH (filter (λ k, seen (mark s x) k = false) (trav_neighbours g x) ++ p) (mark s x)
      (vis ++ [x]) (foldl take_offer (visit_node x v)
        (VisitEdge x <$> rev (trav_neighbours g x)))) as (out & Hw & Ho).
    + by apply inv_mark.
    + apply Forall_app. split; [|done]. apply Forall_forall.
      intros k [_ ?]%list_elem_of_filter. by apply Hn.
    + done.
    + intros k [?| ->%list_elem_of_singleton]%elem_of_app; [by apply Hv|done].
    + rewrite length_app. pose proof (length_filter (λ k, seen (mark s x) k = false)
        (trav_neighbours g x)). unfold out_degree in Hu. cbn in Hf. lia.
    + assert (walk g (vis ++ [x]) (trav_neighbours g x ++ p) out) as Hw'.
      { revert Hw. set (l := trav_neighbours g x) in *. clearbody l. intros Hw.
        apply (walk_unfilter g (λ k, bool_decide (k ∈ vis ++ [x])) l p); [by intros ? ?%bool_decide_eq_true|].
        replace (filter _ l) with (filter (λ k, seen (mark s x) k = false) l); [done|].
        apply list_filter_ext. intros k Hk. specialize (Hs' k (Hn k Hk)).
        destruct (seen (mark s x) k), (bool_decide_reflect (k ∈ vis ++ [x])); naive_solver. }
      apply walk_app_inv in Hw' as (out1 & out2 & -> & H1 & H2).
      exists (x :: out1 ++ out2). split; [apply walk_visit; [done..|]|].
      * by rewrite <- app_assoc in H2.
      * rewrite Ho. unfold reversed_offers. cbn. by rewrite foldl_app.
Qed.

End depth_first.

(** ** Theorems *)

Section theorems.
Context {G K S V : Type} {KEq : EqDecision K}.
Context {TG : TraversableGraph G K} {VS : VisitedSet S K} {GV : GraphVisitor V K}.
Implicit Types (g : G) (space : list K) (fresh : S) (start : K) (v : V).

Lemma bfs_lists g space fresh start v fuel :
  TraversableLaws G K g space → VisitedLaws S K (λ k, trav_contains g k = true) fresh →
  (length space <= fuel)%nat →
  ∃ order, breadth_first_search fuel fresh g start v =
      Some (foldl take_offer v (offers g order)) ∧
    NoDup order ∧
    (∀ k, k ∈ order ↔ trav_contains g start = true ∧ ∃ n, nsteps (edge g) n start k) ∧
    nearest_first g start order ∧
    (trav_contains g start = true → firsts [] (start :: (order ≫= trav_neighbours g)) = order).
Proof.
  intros TL VL Hf. unfold breadth_first_search. destruct (trav_contains g start) eqn:Hs.
  - destruct (bfs_loop_explores g space fresh start Hs fuel 0 [] [start] (mark fresh start) v)
      as (order & E & Hnd & Hex & Hn & Hls); [by apply level_start|cbn; lia|].
    exists order. split_and!; [done..| |done|done]. intros k. rewrite Hex. naive_solver.
  - exists []. split_and!; [done|constructor| | |done].
    + intros k. split; [by intros ?%elem_of_nil|by intros [? _]].
    + by intros i j a b n Ha.
Qed.

Lemma bfs_explores g space fresh start v fuel :
  TraversableLaws G K g space → VisitedLaws S K (λ k, trav_contains g k = true) fresh →
  (length space <= fuel)%nat →
  ∃ order, breadth_first_search fuel fresh g start v =
      Some (foldl take_offer v (offers g order)) ∧
    NoDup order ∧
    (∀ k, k ∈ order ↔ trav_contains g start = true ∧ ∃ n, nsteps (edge g) n start k) ∧
    nearest_first g start order.
Proof.
  intros TL VL Hf. destruct (bfs_lists g space fresh start v fuel TL VL Hf) as (order & E & ? & ? & ? & _).
  by exists order.
Qed.

(** C39: breadth-first search is exact.  Given one round per node it terminates,
    having offered its visitor exactly the nodes reachable from the start, each
    once and immediately followed by all its out-edges in the graph's order, and
    no node before one that is nearer to the start. *)
Theorem breadth_first_search_exact g space fresh start v fuel :
  TraversableLaws G K g space → VisitedLaws S K (λ k, trav_contains g k = true) fresh →
  (length space <= fuel)%nat →
  ∃ order, breadth_first_search fuel fresh g start v =
      Some (foldl take_offer v (offers g order)) ∧
    NoDup order ∧
    (∀ k, k ∈ order ↔ trav_contains g start = true ∧ ∃ n, nsteps (edge g) n start k) ∧
    nearest_first g start order.
Proof. apply bfs_explores. Qed.

Lemma dfs_explores g space fresh start v fuel :
  TraversableLaws G K g space → VisitedLaws S K (λ k, trav_contains g k = true) fresh →
  trav_contains g start = true →
  (1 + sum_list_with (out_degree g) space <= fuel)%nat →
  ∃ order, walk g [] [start] order ∧
    depth_first_search fuel fresh g start v =
      Some (foldl take_offer v (reversed_offers g order)) ∧
    NoDup order ∧ ∀ k, k ∈ order ↔ rtc (edge g) start k.
Proof.
  intros TL VL Hs Hf. unfold depth_first_search. rewrite Hs.
  destruct (dfs_loop_walks g space fresh fuel [start] fresh [] v) as (order & Hw & E).
  - apply inv_fresh.
  - by apply Forall_singleton.
  - intros k Hk. rewrite seen_fresh by done. by split; [|intros ?%elem_of_nil].
  - by intros k ?%elem_of_nil.
  - cbn. unfold unpushed. assert (∀ l, sum_list_with (out_degree g) (filter (λ k, k ∉ []) l) <=
      sum_list_with (out_degree g) l)%nat as H; [|specialize (H space); lia].
    induction l as [|y l IH]; [done|]. rewrite filter_cons. case_decide; cbn; lia.
  - exists order. destruct (walk_reaches g start order Hw) as [Hnd Hr]. done.
Qed.

(** Depth-first search with its explicit stack is the recursive preorder.
    With fuel for every push it terminates, having offered the nodes in the order
    of the recursive walk from the start, each once and followed by its out-edges
    in reverse; those are exactly the reachable nodes. *)
Theorem depth_first_search_preorder g space fresh start v fuel :
  TraversableLaws G K g space → VisitedLaws S K (λ k, trav_contains g k = true) fresh →
  trav_contains g start = true →
  (1 + sum_list_with (out_degree g) space <= fuel)%nat →
  ∃ order, walk g [] [start] order ∧
    depth_first_search fuel fresh g start v =
      Some (foldl take_offer v (reversed_offers g order)) ∧
    NoDup order ∧ ∀ k, k ∈ order ↔ rtc (edge g) start k.
Proof. apply dfs_explores. Qed.

End theorems.

(** A visitor that keeps what it is offered. *)
#[export] Instance recording_visitor : GraphVisitor (list (Offer (K:=N))) N := {|
  visit_node := λ n v, v ++ [VisitNode n];
  visit_edge := λ a b v, v ++ [VisitEdge a b]
|}.

Definition demo_bfs : option (list (Offer (K:=N))) :=
  breadth_first_search 4 (∅ : gset N) demo_dag 4%N [].

Definition demo_dfs : option (list (Offer (K:=N))) :=
  depth_first_search 4 (∅ : gset N) demo_dag 4%N [].

Lemma breadth_first_search_exact_witness : is_Some demo_bfs.
Proof.
  destruct (breadth_first_search_exact demo_dag (nodes demo_dag) (∅ : gset N) 4%N
    ([] : list (Offer (K:=N))) 4 (adjacency_laws _ (graph_run_WF _)) (set_visited_laws _))
    as (order & E & _); [vm_compute; lia|].
  unfold demo_bfs. rewrite E. eauto.
Defined.

Lemma depth_first_search_preorder_witness : is_Some demo_dfs.
Proof.
  destruct (depth_first_search_preorder demo_dag (nodes demo_dag) (∅ : gset N) 4%N
    ([] : list (Offer (K:=N))) 4 (adjacency_laws _ (graph_run_WF _)) (set_visited_laws _))
    as (order & _ & E & _); [vm_compute; reflexivity|vm_compute; lia|].
  unfold demo_dfs. rewrite E. eauto.
Defined.

(** The first out-edge is walked first, and the edges are offered in reverse. *)
Example demo_dfs_trace :
  demo_dfs = Some [VisitNode 4; VisitEdge 4 2; VisitEdge 4 1; VisitNode 1; VisitEdge 1 3;
    VisitNode 3; VisitNode 2]%N.
Proof. vm_compute. reflexivity. Qed.
