(* ===== verification/SpaceGraph.v ===== *)
(** Coordinate spaces and the transforms between them
    ([kernel/presentation/space_graph.hpp] and [.cpp], [include/grab/space.hpp]).

    [SpaceGraph] is the class's state; a route is what the breadth-first
    [RouteVisitor] records.  [double] arithmetic is IEEE binary64, rounded to
    nearest even, operation by operation.  [std::map::at] throws on a missing key,
    and so the visitor's state is an option, [None] once it has thrown. *)

From Stdlib Require Import Floats.SpecFloat.
From S2P Require Import Prelude Graph Traversal Errors Geometry.

(** ** Arithmetic *)

Definition fadd (x y : double) : double := SFadd 53 1024 x y.
Definition fmul (x y : double) : double := SFmul 53 1024 x y.

(** [1.0] and [0.0]. *)
Definition fone : double := S754_finite false 4503599627370496 (-52).
Definition fzero : double := S754_zero false.

(** ** Transforms *)

(** How far a transform can be relied on; the order is the enumerators'. *)
Module TransformTrust.

Inductive TransformTrust : Type :=
  | Exact | Calibrated | Heuristic | Untrusted.

End TransformTrust.
Abbreviation TransformTrust := TransformTrust.TransformTrust.

#[export] Instance TransformTrust_eq_dec : EqDecision TransformTrust.
Proof. solve_decision. Defined.

Definition trust_value (t : TransformTrust) : N :=
  match t with
  | TransformTrust.Exact => 0
  | TransformTrust.Calibrated => 1
  | TransformTrust.Heuristic => 2
  | TransformTrust.Untrusted => 3
  end.

Record Affine := MkAffine {
  xx : double; xy : double; tx : double; yx : double; yy : double; ty : double
}.

Definition identity_affine : Affine := MkAffine fone fzero fzero fzero fone fzero.

Record TransformRecord := MkTransform {
  tr_source : CoordinateSpaceId;
  tr_destination : CoordinateSpaceId;
  tr_map : Affine;
  tr_mapping_id : N;
  tr_generation : N;
  tr_trust : TransformTrust
}.

Definition compose (first second : Affine) : Affine :=
  MkAffine
    (fadd (fmul (xx second) (xx first)) (fmul (xy second) (yx first)))
    (fadd (fmul (xx second) (xy first)) (fmul (xy second) (yy first)))
    (fadd (fadd (fmul (xx second) (tx first)) (fmul (xy second) (ty first))) (tx second))
    (fadd (fmul (yx second) (xx first)) (fmul (yy second) (yx first)))
    (fadd (fmul (yx second) (xy first)) (fmul (yy second) (yy first)))
    (fadd (fadd (fmul (yx second) (tx first)) (fmul (yy second) (ty first))) (ty second)).

(** [std::max( first, second )]: the first unless it is smaller. *)
Definition weakest (first second : TransformTrust) : TransformTrust :=
  if decide (trust_value first < trust_value second)%N then second else first.

(** ** The graph of spaces *)

Record SpaceGraph := MkSpaceGraph {
  sg_graph : AdjacencyGraph CoordinateSpaceId TransformRecord;
  generations_ : gmap CoordinateSpaceId N;
  next_space_ : N
}.

Definition empty_space_graph : SpaceGraph := MkSpaceGraph empty_graph ∅ 1.

(** The next value of a [uint32_t] counter. *)
Definition succ32 (n : N) : N := ((n + 1) mod 4294967296)%N.

Definition add_space (sg : SpaceGraph) (generation : N) : CoordinateSpaceId * SpaceGraph :=
  let space := MkSpace (next_space_ sg) in
  (space, MkSpaceGraph (add_node (sg_graph sg) space).2
            (match generations_ sg !! space with
             | Some _ => generations_ sg
             | None => <[space := generation]> (generations_ sg)
             end)
            (succ32 (next_space_ sg))).

Definition add_transform (sg : SpaceGraph) (transform : TransformRecord) : SpaceGraph :=
  MkSpaceGraph
    (add_edge (sg_graph sg) (tr_source transform) (tr_destination transform) transform).2
    (generations_ sg) (next_space_ sg).

(** [None] is the [std::out_of_range] of [at]. *)
Definition bump_generation (sg : SpaceGraph) (space : CoordinateSpaceId) : option SpaceGraph :=
  match generations_ sg !! space with
  | None => None
  | Some generation =>
    Some (MkSpaceGraph (sg_graph sg) (<[space := succ32 generation]> (generations_ sg))
            (next_space_ sg))
  end.

(** ** Routes *)

Record RouteState := MkRoute {
  rt_transform : Affine;
  rt_trust : TransformTrust;
  rt_stale : bool
}.

Definition initial_route : RouteState := MkRoute identity_affine TransformTrust.Exact false.

Definition is_stale (sg : SpaceGraph) (transform : TransformRecord)
    (source destination : CoordinateSpaceId) : option bool :=
  match generations_ sg !! source with
  | None => None
  | Some at_source =>
    if decide (tr_generation transform < at_source)%N then Some true
    else match generations_ sg !! destination with
         | None => None
         | Some at_destination =>
           Some (bool_decide (tr_generation transform < at_destination)%N)
         end
  end.

(** [RouteVisitor]'s map. *)
Abbreviation Routes := (gmap CoordinateSpaceId RouteState).

Definition route_edge (sg : SpaceGraph) (source destination : CoordinateSpaceId)
    (routes : Routes) : option Routes :=
  match routes !! destination with
  | Some _ => Some routes
  | None =>
    match edge_payload (sg_graph sg) source destination with
    | None => Some routes
    | Some transform =>
      match routes !! source with
      | None => None
      | Some prior =>
        (** [prior.stale || is_stale( ... )] does not evaluate its right side on a
            stale prior. *)
        match (if rt_stale prior then Some true
               else is_stale sg transform source destination) with
        | None => None
        | Some stale =>
          Some (<[destination := MkRoute (compose (rt_transform prior) (tr_map transform))
                    (weakest (rt_trust prior) (tr_trust transform)) stale]> routes)
        end
      end
    end
  end.

Definition route_visitor (sg : SpaceGraph) : GraphVisitor (option Routes) CoordinateSpaceId := {|
  visit_node := λ _ routes, routes;
  visit_edge := λ a b routes, routes ≫= route_edge sg a b
|}.

(** The outer option is an exception (or, for the loop, a run out of fuel). *)
Definition find_route (sg : SpaceGraph) (source destination : CoordinateSpaceId)
    : option (Result RouteState) :=
  if negb (contains_node (sg_graph sg) source) || negb (contains_node (sg_graph sg) destination)
  then Some (fail ErrorCode.RouteUnavailable "coordinate space is not in the transform graph")
  else
    routes ← breadth_first_search (GV := route_visitor sg) (node_count (sg_graph sg))
               (∅ : gset CoordinateSpaceId) (sg_graph sg) source
               (Some {[ source := initial_route ]});
    routes ← routes;
    match routes !! destination with
    | None => Some (fail ErrorCode.RouteUnavailable "no coordinate transform route is available")
    | Some route => Some (Ok route)
    end.

(** The two queries share their refusal of a stale route. *)
Definition fresh_route (route : Result RouteState) : Result RouteState :=
  match route with
  | Err e => Err e
  | Ok route =>
    if rt_stale route
    then fail ErrorCode.TopologyChanged "coordinate transform route is stale"
    else Ok route
  end.

Definition resolve_transform (sg : SpaceGraph) (source destination : CoordinateSpaceId)
    : option (Result Affine) :=
  route ← find_route sg source destination;
  Some (route ← fresh_route route; mret (rt_transform route)).

Definition route_trust (sg : SpaceGraph) (source destination : CoordinateSpaceId)
    : option (Result TransformTrust) :=
  route ← find_route sg source destination;
  Some (route ← fresh_route route; mret (rt_trust route)).

Definition map_point (sg : SpaceGraph) (point : SpacePoint) (destination : CoordinateSpaceId)
    : option (Result SpacePoint) :=
  match resolve_transform sg (sp_space point) destination with
  | None => None
  | Some (Err e) => Some (Err e)
  | Some (Ok transform) =>
    Some (Ok (MkSpacePoint
      (fadd (fadd (fmul (xx transform) (sp_x point)) (fmul (xy transform) (sp_y point)))
         (tx transform))
      (fadd (fadd (fmul (yx transform) (sp_x point)) (fmul (yy transform) (sp_y point)))
         (ty transform))
      destination))
  end.

(** ** The invariant: every space has a generation *)

Record SpaceWF (sg : SpaceGraph) : Prop := {
  sw_graph : WF (sg_graph sg);
  sw_gens : ∀ k, is_Some (generations_ sg !! k) ↔ is_Some (outgoing_ (sg_graph sg) !! k)
}.

(** What a client can do to the graph; a thrown [bump_generation] leaves it alone. *)
Inductive SpaceOp :=
  | OpAddSpace (generation : N)
  | OpAddTransform (transform : TransformRecord)
  | OpBump (space : CoordinateSpaceId).

Definition space_step (sg : SpaceGraph) (op : SpaceOp) : SpaceGraph :=
  match op with
  | OpAddSpace generation => (add_space sg generation).2
  | OpAddTransform transform => add_transform sg transform
  | OpBump space => default sg (bump_generation sg space)
  end.

Definition space_run (ops : list SpaceOp) : SpaceGraph := foldl space_step empty_space_graph ops.

Lemma space_step_WF sg op : SpaceWF sg → SpaceWF (space_step sg op).
Proof.
  intros [Hg Hk]. destruct op as [gen|t|sp]; cbn.
  - set (sp := MkSpace (next_space_ sg)).
    split; cbn; [by apply add_node_WF|]. intros k. rewrite add_node_nodes. fold sp.
    destruct (generations_ sg !! sp) eqn:E.
    + rewrite Hk. split; [by right|]. intros [->|?]; [|done]. apply Hk. by rewrite E.
    + rewrite lookup_insert_is_Some', Hk. naive_solver.
  - split; cbn; [by apply add_edge_WF|]. intros k. by rewrite add_edge_nodes, Hk.
  - unfold bump_generation. destruct (generations_ sg !! sp) eqn:E; cbn; [|done].
    split; cbn; [done|]. intros k. rewrite lookup_insert_is_Some', <- Hk. split; [|by right].
    intros [->|?]; [by rewrite E|done].
Qed.

Lemma space_run_WF ops : SpaceWF (space_run ops).
Proof.
  unfold space_run. apply foldl_inv; [intros; by apply space_step_WF|].
  split; cbn; [apply empty_graph_WF|]. intros k. by rewrite !lookup_empty.
Qed.

(** ** Routes as chains of transforms *)

Definition stale_edge (sg : SpaceGraph) (t : TransformRecord) (a b : CoordinateSpaceId) : bool :=
  bool_decide (tr_generation t < default 0 (generations_ sg !! a) ∨
               tr_generation t < default 0 (generations_ sg !! b))%N.

(** [routed n k st]: a chain of [n] transforms leads from [source] to [k]; its maps
    compose to [st]'s, its weakest link is [st]'s trust, and [st] is stale when one
    of its links is. *)
Inductive routed (sg : SpaceGraph) (source : CoordinateSpaceId)
    : nat → CoordinateSpaceId → RouteState → Prop :=
  | routed_start : routed sg source 0 source initial_route
  | routed_step n a b st t :
      routed sg source n a st → edge_payload (sg_graph sg) a b = Some t →
      routed sg source (S n) b
        (MkRoute (compose (rt_transform st) (tr_map t)) (weakest (rt_trust st) (tr_trust t))
           (rt_stale st || stale_edge sg t a b)).

Section routes.
Context (sg : SpaceGraph) (Hsg : SpaceWF sg) (source : CoordinateSpaceId).
Local Abbreviation E := (edge (sg_graph sg)).

Lemma edge_has_payload a b : E a b ↔ is_Some (edge_payload (sg_graph sg) a b).
Proof.
  unfold edge. cbn. rewrite list_elem_of_fmap. split.
  - intros ([t p] & -> & Hin). exists p. apply edge_payload_Some; [apply Hsg|done].
  - intros [p Hp%edge_payload_Some]; [|apply Hsg]. by exists (MkEdge b p).
Qed.

Lemma is_stale_total t a b : edge_payload (sg_graph sg) a b = Some t →
  is_stale sg t a b = Some (stale_edge sg t a b).
Proof.
  intros Hp. apply edge_payload_Some in Hp; [|apply Hsg].
  assert (is_Some (generations_ sg !! a)) as [ga Ha].
  { apply (sw_gens sg Hsg). by eapply out_edge_is_node. }
  assert (is_Some (generations_ sg !! b)) as [gb Hb].
  { apply (sw_gens sg Hsg). eapply wf_target_is_node; [apply Hsg|done]. }
  unfold is_stale, stale_edge. rewrite Ha, Hb. cbn. case_decide.
  - by rewrite bool_decide_eq_true_2 by tauto.
  - f_equal. apply bool_decide_ext. tauto.
Qed.

Lemma routed_reaches n k st : routed sg source n k st → nsteps E n source k.
Proof.
  induction 1 as [|n a b st t _ IH Hp]; [constructor|]. eapply nsteps_r; [done|].
  apply edge_has_payload. eauto.
Qed.

(** What the visitor has recorded once the nodes [pre] are expanded. *)
Record recorded (pre : list CoordinateSpaceId) (r : Routes) : Prop := {
  rc_routes : ∀ k st, r !! k = Some st →
    ∃ n, routed sg source n k st ∧ ∀ m, nsteps E m source k → (n <= m)%nat;
  rc_source : is_Some (r !! source);
  rc_edges : ∀ c k, c ∈ pre → E c k → is_Some (r !! k)
}.

Lemma recorded_start : recorded [] {[ source := initial_route ]}.
Proof.
  split.
  - intros k st [<- <-]%lookup_singleton_Some. exists 0%nat. split; [constructor|lia].
  - rewrite lookup_singleton_eq. eauto.
  - by intros c k ?%elem_of_nil.
Qed.

(** An order in which the nearest come first, and of which [pre] is a prefix. *)
Context (order : list CoordinateSpaceId).
Context (Hex : ∀ k, k ∈ order ↔ ∃ n, nsteps E n source k).
Context (Hnear : nearest_first (sg_graph sg) source order).

Lemma expanded_before pre a suf n k : order = pre ++ a :: suf → nsteps E n source k →
  k ≠ source → (∀ m, nsteps E m source a → (n <= m)%nat) → ∃ c, c ∈ pre ∧ E c k.
Proof.
  intros Ho Hk Hne Hmin. destruct n as [|n]; [by inversion Hk|].
  apply nsteps_inv_r in Hk as (c & Hc & He). exists c. split; [|done].
  assert (c ∈ order) as [j Hj]%list_elem_of_lookup by (apply Hex; eauto).
  destruct (decide (j < length pre)%nat) as [Hlt|Hge].
  - rewrite Ho, lookup_app_l in Hj by done. by eapply list_elem_of_lookup_2.
  - destruct (Hnear (length pre) j a c n) as (m & Hm & Ha); [|done|lia|done|].
    + rewrite Ho. by apply list_lookup_middle.
    + apply Hmin in Ha. lia.
Qed.

Lemma next_is_routed pre a suf r : order = pre ++ a :: suf → recorded pre r → is_Some (r !! a).
Proof.
  intros Ho Hr. assert (∃ n, nsteps E n source a) as [n Hn].
  { apply Hex. rewrite Ho. set_solver. }
  induction n as [n IH] using lt_wf_ind.
  destruct (decide (a = source)) as [->|Hne]; [apply Hr|].
  destruct n as [|n]; [by inversion Hn|]. pose proof Hn as Hn'.
  apply nsteps_inv_r in Hn' as (c & Hc & He).
  assert (c ∈ order) as [j Hj]%list_elem_of_lookup by (apply Hex; eauto).
  destruct (decide (j < length pre)%nat) as [Hlt|Hge].
  - rewrite Ho, lookup_app_l in Hj by done. eapply (rc_edges _ _ Hr); [|done].
    by eapply list_elem_of_lookup_2.
  - destruct (Hnear (length pre) j a c n) as (m & Hm & Ha); [|done|lia|done|].
    + rewrite Ho. by apply list_lookup_middle.
    + apply (IH m); [lia|done].
Qed.

Lemma recorded_edge pre a suf b r : order = pre ++ a :: suf → recorded pre r → E a b →
  ∃ r', route_edge sg a b r = Some r' ∧ recorded pre r' ∧ is_Some (r' !! b) ∧
    (∀ k, is_Some (r !! k) → is_Some (r' !! k)).
Proof.
  intros Ho Hr He. unfold route_edge. destruct (r !! b) as [st|] eqn:Hb.
  { exists r. rewrite Hb. eauto. }
  pose proof He as [t Ht]%edge_has_payload. rewrite Ht.
  destruct (next_is_routed pre a suf r Ho Hr) as [prior Ha]. rewrite Ha.
  rewrite is_stale_total by done.
  set (stale := rt_stale prior || stale_edge sg t a b).
  replace (if rt_stale prior then Some true else Some (stale_edge sg t a b)) with (Some stale)
    by (unfold stale; by destruct (rt_stale prior)).
  eexists. split; [done|].
  assert (∀ k, is_Some (r !! k) → is_Some (<[b := MkRoute (compose (rt_transform prior) (tr_map t))
    (weakest (rt_trust prior) (tr_trust t)) stale]> r !! k)) as Hmono.
  { intros k Hk. apply lookup_insert_is_Some'. by right. }
  split_and!; [|rewrite lookup_insert_eq; eauto|done].
  split; [|apply Hmono, Hr|intros c k Hc Hck; by eapply Hmono, rc_edges].
  intros k st. rewrite lookup_insert_Some. intros [[<- <-]|[_ Hk]]; [|by eapply rc_routes].
  destruct (rc_routes _ _ Hr a prior Ha) as (n & Hn & Hmin). exists (S n). split.
  { by apply (routed_step sg source n a b prior t). }
  intros m Hm. apply Nat.nlt_ge. intros Hlt.
  assert (b ≠ source) as Hne by (intros ->; destruct (rc_source _ _ Hr); congruence).
  destruct (expanded_before pre a suf m b Ho Hm Hne) as (c & Hc & Hcb).
  { intros m' Hm'. apply Hmin in Hm'. lia. }
  destruct (rc_edges _ _ Hr c b Hc Hcb). congruence.
Qed.

Local Abbreviation offer := (take_offer (GV := route_visitor sg)).

Lemma recorded_edges pre a suf l r : order = pre ++ a :: suf → recorded pre r →
  (∀ b, b ∈ l → E a b) →
  ∃ r', foldl offer (Some r) (VisitEdge a <$> l) = Some r' ∧ recorded pre r' ∧
    (∀ b, b ∈ l → is_Some (r' !! b)) ∧ (∀ k, is_Some (r !! k) → is_Some (r' !! k)).
Proof.
  intros Ho. revert r. induction l as [|b l IH]; intros r Hr Hl; cbn.
  { exists r. split_and!; [done..|by intros b ?%elem_of_nil|done]. }
  destruct (recorded_edge pre a suf b r Ho Hr) as (r1 & -> & Hr1 & Hb & Hm); [apply Hl; by left|].
  destruct (IH r1 Hr1) as (r2 & -> & Hr2 & Hb2 & Hm2); [intros; apply Hl; by right|].
  exists r2. split_and!; [done..| |auto]. intros b' [->|?]%elem_of_cons; auto.
Qed.

Lemma recorded_node pre a suf r : order = pre ++ a :: suf → recorded pre r →
  ∃ r', foldl offer (Some r) (offers (sg_graph sg) [a]) = Some r' ∧ recorded (pre ++ [a]) r'.
Proof.
  intros Ho Hr. cbn [offers mbind list_bind]. rewrite app_nil_r. cbn [foldl take_offer].
  destruct (recorded_edges pre a suf (trav_neighbours (sg_graph sg) a) r Ho Hr)
    as (r' & E' & [H1 H2 H3] & Hb & _); [done|].
  exists r'. split; [exact E'|]. split; [done..|].
  intros c k [?| ->%list_elem_of_singleton]%elem_of_app He; [by eapply H3|by apply Hb].
Qed.

Lemma recorded_all suf pre r : order = pre ++ suf → recorded pre r →
  ∃ r', foldl offer (Some r) (offers (sg_graph sg) suf) = Some r' ∧ recorded order r'.
Proof.
  revert pre r. induction suf as [|a suf IH]; intros pre r Ho Hr.
  - exists r. rewrite app_nil_r in Ho. by subst.
  - destruct (recorded_node pre a suf r Ho Hr) as (r1 & E1 & Hr1).
    destruct (IH (pre ++ [a]) r1) as (r2 & E2 & Hr2); [by rewrite <- app_assoc|done|].
    exists r2. split; [|done]. change (a :: suf) with ([a] ++ suf). unfold offers in *.
    by rewrite bind_app, foldl_app, E1.
Qed.

End routes.

Lemma find_route_spec sg source destination : SpaceWF sg →
  contains_node (sg_graph sg) source = true → contains_node (sg_graph sg) destination = true →
  (∃ n route, find_route sg source destination = Some (Ok route) ∧
     routed sg source n destination route ∧
     ∀ m, nsteps (edge (sg_graph sg)) m source destination → (n <= m)%nat) ∨
  (find_route sg source destination =
     Some (fail ErrorCode.RouteUnavailable "no coordinate transform route is available") ∧
   ∀ n, ¬ nsteps (edge (sg_graph sg)) n source destination).
Proof.
  intros Hsg Hs Hd. unfold find_route. rewrite Hs, Hd. cbn [negb orb].
  destruct (bfs_explores (GV := route_visitor sg) (sg_graph sg) (nodes (sg_graph sg))
    (∅ : gset CoordinateSpaceId) source (Some {[source := initial_route]})
    (node_count (sg_graph sg)) (adjacency_laws _ (sw_graph _ Hsg)) (set_visited_laws _))
    as (order & -> & _ & Hex & Hnear).
  { unfold nodes, node_count. by rewrite length_sorted_keys. }
  assert (∀ k, k ∈ order ↔ ∃ n, nsteps (edge (sg_graph sg)) n source k) as Hex'.
  { intros k. rewrite Hex. cbn. rewrite Hs. naive_solver. }
  destruct (recorded_all sg Hsg source order Hex' Hnear order [] _ eq_refl
    (recorded_start sg source)) as (r & -> & Hr).
  cbn [mbind option_bind]. destruct (r !! destination) as [route|] eqn:Hk.
  - left. destruct (rc_routes _ _ _ _ Hr _ _ Hk) as (n & ? & ?). eauto.
  - right. split; [done|]. intros n Hn.
    assert (is_Some (r !! destination)); [|rewrite Hk in *; by eapply is_Some_None].
    destruct n as [|n]; [inversion Hn; subst; apply Hr|].
    apply nsteps_inv_r in Hn as (c & Hc & He). eapply (rc_edges _ _ _ _ Hr c); [|done].
    apply Hex'. eauto.
Qed.

(** ** Theorems *)

(** C40: a coordinate route is a shortest chain of transforms.  Whatever spaces,
    transforms and generation bumps were made, resolving never throws and never
    runs out of rounds; it answers exactly when both spaces exist and some chain
    of transforms joins them, the answer composes the maps along a chain of least
    length, and a chain with a stale link is refused as a topology change. *)
Theorem resolve_transform_is_shortest (ops : list SpaceOp) source destination :
  let sg := space_run ops in
  let joined n := nsteps (edge (sg_graph sg)) n source destination in
  ∃ answer, resolve_transform sg source destination = Some answer ∧
    (if contains_node (sg_graph sg) source && contains_node (sg_graph sg) destination
     then (∃ n st, routed sg source n destination st ∧ (∀ m, joined m → (n <= m)%nat) ∧
             answer = if rt_stale st
                      then fail ErrorCode.TopologyChanged "coordinate transform route is stale"
                      else Ok (rt_transform st)) ∨
          ((∀ n, ¬ joined n) ∧
           answer = fail ErrorCode.RouteUnavailable "no coordinate transform route is available")
     else answer =
       fail ErrorCode.RouteUnavailable "coordinate space is not in the transform graph").
Proof.
  intros sg joined. pose proof (space_run_WF ops : SpaceWF sg) as Hsg. unfold resolve_transform.
  destruct (contains_node (sg_graph sg) source) eqn:Hs; cbn [andb];
    [destruct (contains_node (sg_graph sg) destination) eqn:Hd|].
  2,3: unfold find_route; rewrite ?Hs, ?Hd; cbn; eauto.
  destruct (find_route_spec sg source destination Hsg Hs Hd)
    as [(n & st & -> & Hr & Hmin)|[-> Hno]]; cbn; eexists; (split; [done|]).
  - left. exists n, st. split_and!; [done..|]. by destruct (rt_stale st).
  - by right.
Qed.
