(* ===== verification/TargetRegistry.v ===== *)
(** The registry of durable targets ([kernel/graph/target_registry.hpp] and
    [.cpp]).

    One definition per member function, each returning its [Result] with the
    registry after it; the mutex makes calls a sequence.  Enumerations are their
    underlying [uint8_t], since the code validates them.  A failed allocation is
    not modelled, so the [catch] blocks have no counterpart; neither has the test
    after the [emplace] of [register_surface], whose key the [find] before it did
    not meet. *)

From S2P Require Import Prelude Errors Geometry.

Local Open Scope string_scope.

(** ** Data *)

Record TargetId := MkTargetId { target_value : N }.

#[export] Instance TargetId_eq_dec : EqDecision TargetId.
Proof. solve_decision. Defined.
#[export] Program Instance TargetId_countable : Countable TargetId :=
  inj_countable' target_value MkTargetId _.
Next Obligation. by intros []. Qed.
#[export] Program Instance TargetId_ordkey : OrdKey TargetId := {| okey := target_value |}.
Next Obligation. intros [x] [y]. cbn. congruence. Qed.

Record SurfaceId := MkSurfaceId { surface_value : N }.

#[export] Instance SurfaceId_eq_dec : EqDecision SurfaceId.
Proof. solve_decision. Defined.
#[export] Program Instance SurfaceId_countable : Countable SurfaceId :=
  inj_countable' surface_value MkSurfaceId _.
Next Obligation. by intros []. Qed.

(** [TargetGrade], [AliasConfidence] and [AliasValidity]. *)
Definition gradeApplication : N := 0.
Definition gradeWindow : N := 1.
Definition confidenceCandidate : N := 0.
Definition confidenceExact : N := 1.
Definition validityActive : N := 0.
Definition validityInactive : N := 1.

Record AliasEdge := MkAlias {
  al_authority : string;
  al_native_id : string;
  al_confidence : N;
  al_validity : N
}.

#[export] Instance AliasEdge_eq_dec : EqDecision AliasEdge.
Proof. solve_decision. Defined.

Record TargetObservation := MkObservation {
  ob_grade : N;
  ob_alias : option AliasEdge;
  ob_title : string;
  ob_pid : option N;
  ob_bounds : option SpaceRect
}.

Record SurfaceRecord := MkSurface {
  su_id : SurfaceId;
  su_generation : N;
  su_space : CoordinateSpaceId;
  su_bounds : SpaceRect
}.

Record TargetRecord := MkTarget {
  tg_id : TargetId;
  tg_grade : N;
  tg_aliases : list AliasEdge;
  tg_observations : list TargetObservation;
  tg_surfaces : list SurfaceRecord
}.

(** Authority and native id. *)
Abbreviation AliasKey := (string * string)%type.

Record TargetRegistry := MkRegistry {
  targets_ : gmap TargetId TargetRecord;
  exact_active_aliases_ : gmap AliasKey TargetId;
  surface_owners_ : gmap SurfaceId TargetId;
  next_id_ : N
}.

Definition empty_registry : TargetRegistry := MkRegistry ∅ ∅ ∅ 1.

(** ** Validation *)

Definition valid_grade (g : N) : bool := (g =? gradeApplication)%N || (g =? gradeWindow)%N.

Definition valid_confidence (c : N) : bool :=
  (c =? confidenceCandidate)%N || (c =? confidenceExact)%N.

Definition valid_validity (v : N) : bool := (v =? validityActive)%N || (v =? validityInactive)%N.

Definition validate_alias (alias : AliasEdge) : Result unit :=
  if decide (al_authority alias = "") then
    fail ErrorCode.InvalidArgument "target alias authority must not be empty"
  else if decide (al_native_id alias = "") then
    fail ErrorCode.InvalidArgument "target alias native id must not be empty"
  else if negb (valid_confidence (al_confidence alias)) then
    fail ErrorCode.InvalidArgument "target alias has an invalid confidence"
  else if negb (valid_validity (al_validity alias)) then
    fail ErrorCode.InvalidArgument "target alias has an invalid validity"
  else Ok tt.

Definition validate_observation (observation : TargetObservation) : Result unit :=
  if negb (valid_grade (ob_grade observation)) then
    fail ErrorCode.InvalidArgument "target observation has an invalid grade"
  else match ob_alias observation with
       | None => Ok tt
       | Some alias => validate_alias alias
       end.

Definition is_fusing (alias : AliasEdge) : bool :=
  (al_confidence alias =? confidenceExact)%N && (al_validity alias =? validityActive)%N.

Definition key_of (alias : AliasEdge) : AliasKey := (al_authority alias, al_native_id alias).

(** ** Operations *)

Definition with_aliases (l : list AliasEdge) (r : TargetRecord) : TargetRecord :=
  MkTarget (tg_id r) (tg_grade r) l (tg_observations r) (tg_surfaces r).

Definition with_observation (o : TargetObservation) (r : TargetRecord) : TargetRecord :=
  MkTarget (tg_id r) (tg_grade r) (tg_aliases r) (tg_observations r ++ [o]) (tg_surfaces r).

Definition with_surfaces (l : list SurfaceRecord) (r : TargetRecord) : TargetRecord :=
  MkTarget (tg_id r) (tg_grade r) (tg_aliases r) (tg_observations r) l.

Definition put_target (t : TargetId) (r : TargetRecord) (g : TargetRegistry) : TargetRegistry :=
  MkRegistry (<[t := r]> (targets_ g)) (exact_active_aliases_ g) (surface_owners_ g) (next_id_ g).

(** The target an observation's alias fuses it with, if any. *)
Definition fused_with (g : TargetRegistry) (observation : TargetObservation)
    : option (AliasEdge * TargetId) :=
  match ob_alias observation with
  | Some alias =>
    if is_fusing alias then
      match exact_active_aliases_ g !! key_of alias with
      | Some existing => Some (alias, existing)
      | None => None
      end
    else None
  | None => None
  end.

(** The part of [observe] that follows the search for an existing target. *)
Definition observe_new (g : TargetRegistry) (observation : TargetObservation)
    : Result TargetId * TargetRegistry :=
  if (next_id_ g =? 2 ^ 64 - 1)%N then
    (fail ErrorCode.Overflowed "target registry exhausted its identity space", g)
  else
    let id := MkTargetId (next_id_ g) in
    let record := MkTarget id (ob_grade observation)
                    (match ob_alias observation with Some alias => [alias] | None => [] end)
                    [observation] [] in
    match targets_ g !! id with
    | Some _ =>
      (fail ErrorCode.InternalFault "target registry generated a duplicate identity", g)
    | None =>
      match ob_alias observation with
      | Some alias =>
        if is_fusing alias then
          match exact_active_aliases_ g !! key_of alias with
          | Some _ =>
            (fail ErrorCode.InternalFault "target alias index generated a duplicate key", g)
          | None =>
            (Ok id, MkRegistry (<[id := record]> (targets_ g))
                      (<[key_of alias := id]> (exact_active_aliases_ g))
                      (surface_owners_ g) (next_id_ g + 1))
          end
        else (Ok id, MkRegistry (<[id := record]> (targets_ g)) (exact_active_aliases_ g)
                       (surface_owners_ g) (next_id_ g + 1))
      | None => (Ok id, MkRegistry (<[id := record]> (targets_ g)) (exact_active_aliases_ g)
                          (surface_owners_ g) (next_id_ g + 1))
      end
    end.

Definition observe (observation : TargetObservation) (g : TargetRegistry)
    : Result TargetId * TargetRegistry :=
  match validate_observation observation with
  | Err e => (Err e, g)
  | Ok _ =>
    match fused_with g observation with
    | Some (alias, existing) =>
      match targets_ g !! existing with
      | None => (fail ErrorCode.InternalFault "target alias index is inconsistent", g)
      | Some record =>
        if decide (tg_grade record = ob_grade observation) then
          let record := if decide (alias ∈ tg_aliases record) then record
                        else with_aliases (tg_aliases record ++ [alias]) record in
          (Ok existing, put_target existing (with_observation observation record) g)
        else
          (fail ErrorCode.InvalidArgument
             "exact target alias was observed at a different grade", g)
      end
    | None => observe_new g observation
    end
  end.

Definition attach_alias (target_id : TargetId) (alias : AliasEdge) (g : TargetRegistry)
    : Result unit * TargetRegistry :=
  match validate_alias alias with
  | Err e => (Err e, g)
  | Ok _ =>
    match targets_ g !! target_id with
    | None => (fail ErrorCode.TargetDetached "target is not present in the registry", g)
    | Some record =>
      let taken :=
        is_fusing alias &&
        match exact_active_aliases_ g !! key_of alias with
        | Some existing => bool_decide (existing ≠ target_id)
        | None => false
        end in
      if taken then
        (fail ErrorCode.InvalidArgument "exact alias already identifies another target", g)
      else if decide (alias ∈ tg_aliases record) then (Ok tt, g)
      else
        let g := put_target target_id (with_aliases (tg_aliases record ++ [alias]) record) g in
        (Ok tt,
         if is_fusing alias then
           (** [emplace] leaves an existing entry alone. *)
           match exact_active_aliases_ g !! key_of alias with
           | Some _ => g
           | None => MkRegistry (targets_ g)
                       (<[key_of alias := target_id]> (exact_active_aliases_ g))
                       (surface_owners_ g) (next_id_ g)
           end
         else g)
    end
  end.

Definition deactivate (key : AliasKey) (alias : AliasEdge) : AliasEdge :=
  if decide (key_of alias = key ∧ al_validity alias = validityActive)
  then MkAlias (al_authority alias) (al_native_id alias) (al_confidence alias) validityInactive
  else alias.

Definition invalidate_alias (key : AliasKey) (g : TargetRegistry) : Result unit * TargetRegistry :=
  if decide (key.1 = "" ∨ key.2 = "") then
    (fail ErrorCode.InvalidArgument "target alias key must not be empty", g)
  else
    match exact_active_aliases_ g !! key with
    | None => (fail ErrorCode.TargetDetached "target alias is not active", g)
    | Some target_id =>
      match targets_ g !! target_id with
      | None => (fail ErrorCode.InternalFault "target alias index is inconsistent", g)
      | Some record =>
        (Ok tt, MkRegistry
           (<[target_id := with_aliases (deactivate key <$> tg_aliases record) record]>
              (targets_ g))
           (delete key (exact_active_aliases_ g)) (surface_owners_ g) (next_id_ g))
      end
    end.

(** [std::ranges::find_if] over a target's surfaces. *)
Definition find_surface (s : SurfaceId) (l : list SurfaceRecord) : option nat :=
  fst <$> list_find (λ r, su_id r = s) l.

Definition register_surface (target_id : TargetId) (surface : SurfaceRecord) (g : TargetRegistry)
    : Result unit * TargetRegistry :=
  if (surface_value (su_id surface) =? 0)%N then
    (fail ErrorCode.InvalidArgument "surface id must not be zero", g)
  else
    match targets_ g !! target_id with
    | None => (fail ErrorCode.TargetDetached "target is not present in the registry", g)
    | Some record =>
      let existing := find_surface (su_id surface) (tg_surfaces record) in
      match surface_owners_ g !! su_id surface with
      | Some owner =>
        if decide (owner = target_id) then
          match existing with
          | None => (fail ErrorCode.InternalFault "surface ownership index is inconsistent", g)
          | Some i =>
            (Ok tt, put_target target_id
                      (with_surfaces (<[i := surface]> (tg_surfaces record)) record) g)
          end
        else (fail ErrorCode.InvalidArgument "surface already belongs to another target", g)
      | None =>
        match existing with
        | Some _ =>
          (fail ErrorCode.InternalFault
             "target surface record is missing its ownership index", g)
        | None =>
          (Ok tt, MkRegistry
             (<[target_id := with_surfaces (tg_surfaces record ++ [surface]) record]> (targets_ g))
             (exact_active_aliases_ g)
             (<[su_id surface := target_id]> (surface_owners_ g)) (next_id_ g))
        end
      end
    end.

Definition remove_surface (target_id : TargetId) (surface_id : SurfaceId) (g : TargetRegistry)
    : Result unit * TargetRegistry :=
  if (surface_value surface_id =? 0)%N then
    (fail ErrorCode.InvalidArgument "surface id must not be zero", g)
  else
    match targets_ g !! target_id with
    | None => (fail ErrorCode.TargetDetached "target is not present in the registry", g)
    | Some record =>
      match surface_owners_ g !! surface_id with
      | None => (fail ErrorCode.TargetDetached "surface is not present in the registry", g)
      | Some owner =>
        if decide (owner = target_id) then
          match find_surface surface_id (tg_surfaces record) with
          | None => (fail ErrorCode.InternalFault "surface ownership index is inconsistent", g)
          | Some i =>
            (Ok tt, MkRegistry
               (<[target_id := with_surfaces (delete i (tg_surfaces record)) record]> (targets_ g))
               (exact_active_aliases_ g) (delete surface_id (surface_owners_ g)) (next_id_ g))
          end
        else (fail ErrorCode.InvalidArgument "surface belongs to another target", g)
      end
    end.

Definition target (id : TargetId) (g : TargetRegistry) : Result TargetRecord :=
  match targets_ g !! id with
  | None => fail ErrorCode.TargetDetached "target is not present in the registry"
  | Some record => Ok record
  end.

Definition targets (g : TargetRegistry) : Result (list TargetRecord) :=
  Ok (omap (λ id, targets_ g !! id) (sorted_keys (targets_ g))).

Definition registry_size (g : TargetRegistry) : nat := size (targets_ g).

(** ** Histories *)

Inductive RegistryCall :=
| CallObserve (o : TargetObservation)
| CallAttach (t : TargetId) (a : AliasEdge)
| CallInvalidate (k : AliasKey)
| CallRegister (t : TargetId) (s : SurfaceRecord)
| CallRemove (t : TargetId) (s : SurfaceId).

Definition failure_of {A} (r : Result A) : option ErrorCode :=
  match r with Ok _ => None | Err e => Some (err_code e) end.

(** One call: the code it failed with, and the registry after it. *)
Definition call (c : RegistryCall) (g : TargetRegistry) : option ErrorCode * TargetRegistry :=
  match c with
  | CallObserve o => let '(r, g) := observe o g in (failure_of r, g)
  | CallAttach t a => let '(r, g) := attach_alias t a g in (failure_of r, g)
  | CallInvalidate k => let '(r, g) := invalidate_alias k g in (failure_of r, g)
  | CallRegister t s => let '(r, g) := register_surface t s g in (failure_of r, g)
  | CallRemove t s => let '(r, g) := remove_surface t s g in (failure_of r, g)
  end.

Definition run_calls (cs : list RegistryCall) (g : TargetRegistry) : TargetRegistry :=
  foldl (λ g c, (call c g).2) g cs.

(** ** The invariant *)

(** The one alias value that fuses under a key. *)
Definition exact_active (k : AliasKey) : AliasEdge :=
  MkAlias k.1 k.2 confidenceExact validityActive.

Definition holds_alias (g : TargetRegistry) (k : AliasKey) (t : TargetId) : Prop :=
  ∃ r, targets_ g !! t = Some r ∧ exact_active k ∈ tg_aliases r.

Definition holds_surface (g : TargetRegistry) (s : SurfaceId) (t : TargetId) : Prop :=
  ∃ r, targets_ g !! t = Some r ∧ s ∈ su_id <$> tg_surfaces r.

Record Consistent (g : TargetRegistry) : Prop := {
  cn_ids : ∀ t r, targets_ g !! t = Some r → tg_id r = t ∧ (0 < target_value t < next_id_ g)%N;
  cn_next : (0 < next_id_ g < 2 ^ 64)%N;
  cn_alias : ∀ k t, exact_active_aliases_ g !! k = Some t ↔ holds_alias g k t;
  cn_surface : ∀ s t, surface_owners_ g !! s = Some t ↔ holds_surface g s t;
  cn_once : ∀ t r, targets_ g !! t = Some r → NoDup (su_id <$> tg_surfaces r)
}.

Lemma empty_consistent : Consistent empty_registry.
Proof.
  split; try done.
  - intros k t. split; [done|]. intros (r & Hr & _). done.
  - intros s t. split; [done|]. intros (r & Hr & _). done.
Qed.

(** Every operation that succeeds writes one record and adjusts the indexes at
    the keys that record gained or lost. *)
Lemma update_consistent g t r A S n :
  Consistent g →
  tg_id r = t → (0 < target_value t < n)%N → (next_id_ g ≤ n < 2 ^ 64)%N →
  (∀ k u, A !! k = Some u ↔
     (u = t ∧ exact_active k ∈ tg_aliases r) ∨ (u ≠ t ∧ exact_active_aliases_ g !! k = Some u)) →
  (∀ s u, S !! s = Some u ↔
     (u = t ∧ s ∈ su_id <$> tg_surfaces r) ∨ (u ≠ t ∧ surface_owners_ g !! s = Some u)) →
  NoDup (su_id <$> tg_surfaces r) →
  Consistent (MkRegistry (<[t := r]> (targets_ g)) A S n).
Proof.
  intros [Hids Hnext Hal Hsu Hone] Hid Ht Hn HA HS Hnd. split; cbn.
  - intros u r' [[<- <-]|[Hne Hr]]%lookup_insert_Some; [done|].
    destruct (Hids u r' Hr). split; [done|lia].
  - lia.
  - intros k u. rewrite HA, Hal. unfold holds_alias; cbn. split.
    + intros [[-> Hin]|[Hne (r' & Hr & Hin)]].
      * exists r. by rewrite lookup_insert_eq.
      * exists r'. by rewrite lookup_insert_ne.
    + intros (r' & [[<- <-]|[Hne Hr]]%lookup_insert_Some & Hin); [by left|right; eauto].
  - intros s u. rewrite HS, Hsu. unfold holds_surface; cbn. split.
    + intros [[-> Hin]|[Hne (r' & Hr & Hin)]].
      * exists r. by rewrite lookup_insert_eq.
      * exists r'. by rewrite lookup_insert_ne.
    + intros (r' & [[<- <-]|[Hne Hr]]%lookup_insert_Some & Hin); [by left|right; eauto].
  - intros u r' [[<- <-]|[Hne Hr]]%lookup_insert_Some; eauto.
Qed.

(** The two indexes as they are, seen from one target. *)
Lemma alias_index_split g t r :
  Consistent g → targets_ g !! t = Some r → ∀ k u, exact_active_aliases_ g !! k = Some u ↔
  (u = t ∧ exact_active k ∈ tg_aliases r) ∨ (u ≠ t ∧ exact_active_aliases_ g !! k = Some u).
Proof.
  intros Hg Hr k u. destruct (decide (u = t)) as [->|Hne]; [|naive_solver].
  rewrite (cn_alias g Hg). unfold holds_alias. rewrite Hr. naive_solver.
Qed.

Lemma surface_index_split g t r :
  Consistent g → targets_ g !! t = Some r → ∀ s u, surface_owners_ g !! s = Some u ↔
  (u = t ∧ s ∈ su_id <$> tg_surfaces r) ∨ (u ≠ t ∧ surface_owners_ g !! s = Some u).
Proof.
  intros Hg Hr s u. destruct (decide (u = t)) as [->|Hne]; [|naive_solver].
  rewrite (cn_surface g Hg). unfold holds_surface. rewrite Hr. naive_solver.
Qed.

Lemma is_fusing_exact (a : AliasEdge) : is_fusing a = true ↔ a = exact_active (key_of a).
Proof.
  destruct a as [au na c v]. unfold is_fusing, exact_active, key_of; cbn.
  rewrite andb_true_iff, !N.eqb_eq. split; [by intros [-> ->]|]. by intros [= -> ->].
Qed.

Lemma key_of_exact k : key_of (exact_active k) = k.
Proof. by destruct k. Qed.

Lemma exact_active_inj : Inj (=) (=) exact_active.
Proof. intros [] []. by intros [= -> ->]. Qed.

(** A record that keeps its exact aliases and its surfaces changes nothing else. *)
Lemma put_consistent g t r r' :
  Consistent g → targets_ g !! t = Some r → tg_id r' = t →
  (∀ k, exact_active k ∈ tg_aliases r' ↔ exact_active k ∈ tg_aliases r) →
  su_id <$> tg_surfaces r' = su_id <$> tg_surfaces r →
  Consistent (put_target t r' g).
Proof.
  intros Hg Hr Hid Hal Hsu. destruct (cn_ids g Hg t r Hr) as [_ Ht].
  pose proof (cn_next g Hg). apply update_consistent; [done|done|done|lia| | |].
  - intros k u. rewrite Hal. by apply alias_index_split.
  - intros s u. rewrite Hsu. by apply surface_index_split.
  - rewrite Hsu. exact (cn_once g Hg t r Hr).
Qed.

Definition faultless {A} (x : Result A * TargetRegistry) : Prop :=
  failure_of x.1 ≠ Some ErrorCode.InternalFault ∧ Consistent x.2.

Lemma validate_alias_code a : failure_of (validate_alias a) ≠ Some ErrorCode.InternalFault.
Proof. unfold validate_alias. by repeat case_match. Qed.

Lemma validate_observation_code o :
  failure_of (validate_observation o) ≠ Some ErrorCode.InternalFault.
Proof.
  unfold validate_observation. destruct (negb _); [done|].
  destruct (ob_alias o); [apply validate_alias_code|done].
Qed.

Lemma fused_with_Some g o a t :
  fused_with g o = Some (a, t) ↔
  ob_alias o = Some a ∧ is_fusing a = true ∧ exact_active_aliases_ g !! key_of a = Some t.
Proof.
  unfold fused_with. split.
  - destruct (ob_alias o) as [b|]; [|done]. destruct (is_fusing b) eqn:Hb; [|done].
    destruct (exact_active_aliases_ g !! key_of b) eqn:Hk; [|done]. intros Heq.
    apply (inj Some), pair_eq in Heq as [-> ->]. done.
  - intros (-> & Ha & Hk). by rewrite Ha, Hk.
Qed.

(** The record a new target starts with. *)
Definition first_record (g : TargetRegistry) (o : TargetObservation) : TargetRecord :=
  MkTarget (MkTargetId (next_id_ g)) (ob_grade o)
    (match ob_alias o with Some alias => [alias] | None => [] end) [o] [].

Lemma next_id_fresh g : Consistent g → targets_ g !! MkTargetId (next_id_ g) = None.
Proof.
  intros Hg. destruct (targets_ g !! _) as [r|] eqn:Hr; [|done].
  destruct (cn_ids g Hg _ _ Hr) as [_ Ht]. cbn in Ht. lia.
Qed.

(** Where no alias fuses, a new identity is issued unless they have run out. *)
Lemma observe_new_eq g o :
  Consistent g → fused_with g o = None →
  observe_new g o =
    if (next_id_ g =? 2 ^ 64 - 1)%N then
      (fail ErrorCode.Overflowed "target registry exhausted its identity space", g)
    else
      let id := MkTargetId (next_id_ g) in
      (Ok id, MkRegistry (<[id := first_record g o]> (targets_ g))
                match ob_alias o with
                | Some a => if is_fusing a then <[key_of a := id]> (exact_active_aliases_ g)
                            else exact_active_aliases_ g
                | None => exact_active_aliases_ g
                end (surface_owners_ g) (next_id_ g + 1)).
Proof.
  intros Hg Hf. unfold observe_new. destruct (_ =? _)%N; [done|]. cbv zeta.
  rewrite next_id_fresh by done. unfold fused_with in Hf.
  destruct (ob_alias o) as [a|] eqn:Ho; unfold first_record; rewrite Ho; [|done].
  destruct (is_fusing a) eqn:Hfa; [|done]. by destruct (exact_active_aliases_ g !! key_of a).
Qed.

Lemma observe_new_consistent g o :
  Consistent g → fused_with g o = None → faultless (observe_new g o).
Proof.
  intros Hg Hf. rewrite observe_new_eq by done. destruct (_ =? _)%N eqn:Hlast; [by split|].
  apply N.eqb_neq in Hlast. pose proof (cn_next g Hg) as Hn. split; [done|]. cbv zeta; cbn [snd].
  assert (∀ k u, exact_active_aliases_ g !! k = Some u → u ≠ MkTargetId (next_id_ g)) as Hnot.
  { intros k u (r & Hr & _)%(cn_alias g Hg) ->. by rewrite next_id_fresh in Hr. }
  apply update_consistent; cbn; [done|done|lia|lia| | |by constructor].
  - intros k u. unfold fused_with in Hf. destruct (ob_alias o) as [a|].
    + destruct (is_fusing a) eqn:Hfa.
      * pose proof Hfa as Hex%is_fusing_exact. rewrite list_elem_of_singleton.
        destruct (exact_active_aliases_ g !! key_of a) as [w|] eqn:Hka; [done|].
        destruct (decide (key_of a = k)) as [<-|Hne].
        -- rewrite lookup_insert_eq, Hka. rewrite <- Hex. naive_solver.
        -- rewrite lookup_insert_ne by done. split.
           { intros Hu. right. eauto. }
           intros [[_ Hx]|[_ Hx]]; [|done]. destruct Hne. by rewrite <- Hx, key_of_exact.
      * rewrite list_elem_of_singleton. split; [intros Hu; right; eauto|].
        intros [[_ <-]|[_ Hx]]; [|done]. destruct k. done.
    + rewrite elem_of_nil. split; [intros Hu; right; eauto|]. naive_solver.
  - intros s u. rewrite elem_of_nil. split.
    + intros Hu. right. split; [|done]. intros ->.
      apply (cn_surface g Hg) in Hu as (r & Hr & _). by rewrite next_id_fresh in Hr.
    + naive_solver.
Qed.

Lemma observe_consistent g o : Consistent g → faultless (observe o g).
Proof.
  intros Hg. unfold observe. pose proof (validate_observation_code o) as Hv.
  destruct (validate_observation o) as [|e]; [|by split].
  destruct (fused_with g o) as [[a t]|] eqn:Hf; [|by apply observe_new_consistent].
  apply fused_with_Some in Hf as (_ & Hfa%is_fusing_exact & Ht).
  apply (cn_alias g Hg) in Ht as (r & Hr & Hin). rewrite <- Hfa in Hin. rewrite Hr.
  rewrite (decide_True _ _ Hin). destruct (decide _); [|by split]. split; [done|].
  apply (put_consistent g t r); [done|done| |done|done].
  exact (proj1 (cn_ids g Hg t r Hr)).
Qed.

Lemma attach_alias_consistent g t a : Consistent g → faultless (attach_alias t a g).
Proof.
  intros Hg. unfold attach_alias. pose proof (validate_alias_code a) as Hv.
  destruct (validate_alias a) as [|e]; [|by split].
  destruct (targets_ g !! t) as [r|] eqn:Hr; [|by split].
  destruct (is_fusing a && _) eqn:Htaken; [by split|].
  destruct (decide (a ∈ tg_aliases r)) as [|Hnew]; [by split|]. split; [done|]. cbn [snd].
  destruct (cn_ids g Hg t r Hr) as [Hid Hlt]. pose proof (cn_next g Hg) as Hn.
  destruct (is_fusing a) eqn:Hf.
  - pose proof Hf as Hex%is_fusing_exact. cbn in Htaken.
    assert (exact_active_aliases_ g !! key_of a = None) as Hk.
    { destruct (exact_active_aliases_ g !! key_of a) as [u|] eqn:Hu; [|done].
      apply bool_decide_eq_false, dec_stable in Htaken as ->.
      apply (cn_alias g Hg) in Hu as (r' & Hr' & Hin). rewrite <- Hex in Hin. naive_solver. }
    cbn. rewrite Hk. apply update_consistent; [done|done|done|lia| | |exact (cn_once g Hg t r Hr)].
    + intros k u. cbn. rewrite elem_of_app, list_elem_of_singleton.
      destruct (decide (key_of a = k)) as [<-|Hne].
      * rewrite lookup_insert_eq, Hk, <- Hex. naive_solver.
      * rewrite lookup_insert_ne by done. rewrite (alias_index_split g t r Hg Hr k u).
        assert (exact_active k ≠ a); [|naive_solver]. intros <-. by rewrite key_of_exact in Hne.
    + exact (surface_index_split g t r Hg Hr).
  - apply (put_consistent g t r); [done|done|done| |done]. intros k. cbn.
    rewrite elem_of_app, list_elem_of_singleton.
    assert (exact_active k ≠ a); [|naive_solver]. intros <-. by destruct k.
Qed.

Lemma deactivate_exact key k (l : list AliasEdge) :
  exact_active k ∈ deactivate key <$> l ↔ exact_active k ∈ l ∧ k ≠ key.
Proof.
  rewrite list_elem_of_fmap. unfold deactivate. split.
  - intros (a & Ha & Hin). destruct (decide _) as [[Hk Hv]|Hn]; [by destruct k|]. subst a.
    split; [done|]. intros ->. destruct Hn. by rewrite key_of_exact.
  - intros [Hin Hne]. exists (exact_active k). split; [|done].
    rewrite decide_False; [done|]. rewrite key_of_exact. by intros [? _].
Qed.

Lemma invalidate_alias_consistent g k : Consistent g → faultless (invalidate_alias k g).
Proof.
  intros Hg. unfold invalidate_alias. destruct (decide _); [by split|].
  destruct (exact_active_aliases_ g !! k) as [t|] eqn:Hk; [|by split].
  pose proof Hk as (r & Hr & Hin)%(cn_alias g Hg). rewrite Hr. split; [done|]. cbn [snd].
  destruct (cn_ids g Hg t r Hr) as [Hid Hlt]. pose proof (cn_next g Hg) as Hn.
  apply update_consistent; [done|done|done|lia| | |exact (cn_once g Hg t r Hr)].
  - intros j u. cbn. rewrite deactivate_exact. destruct (decide (k = j)) as [<-|Hne].
    + rewrite lookup_delete_eq, Hk. naive_solver.
    + rewrite lookup_delete_ne by done. rewrite (alias_index_split g t r Hg Hr j u). naive_solver.
  - exact (surface_index_split g t r Hg Hr).
Qed.

Lemma find_surface_Some s l i :
  find_surface s l = Some i → ∃ r, l !! i = Some r ∧ su_id r = s.
Proof.
  unfold find_surface. intros ([j r] & (Hi & Hs & _)%list_find_Some & ->)%fmap_Some. eauto.
Qed.

Lemma find_surface_None s (l : list SurfaceRecord) : find_surface s l = None ↔ s ∉ su_id <$> l.
Proof.
  unfold find_surface. rewrite fmap_None, list_find_None, Forall_forall, list_elem_of_fmap.
  naive_solver.
Qed.

Lemma register_surface_consistent g t s : Consistent g → faultless (register_surface t s g).
Proof.
  intros Hg. unfold register_surface. destruct (_ =? 0)%N; [by split|].
  destruct (targets_ g !! t) as [r|] eqn:Hr; [|by split].
  destruct (cn_ids g Hg t r Hr) as [Hid Hlt]. pose proof (cn_next g Hg) as Hn.
  destruct (surface_owners_ g !! su_id s) as [u|] eqn:Hu.
  - destruct (decide (u = t)) as [->|]; [|by split].
    destruct (find_surface _ _) as [i|] eqn:Hi.
    + split; [done|]. apply find_surface_Some in Hi as (old & Hold & Hs).
      apply (put_consistent g t r); [done..|]. cbn. rewrite list_fmap_insert, <- Hs.
      by rewrite list_insert_id by (by rewrite list_lookup_fmap, Hold).
    + apply find_surface_None in Hi. apply (cn_surface g Hg) in Hu as (r' & Hr' & Hin).
      naive_solver.
  - destruct (find_surface _ _) as [i|] eqn:Hi.
    + apply find_surface_Some in Hi as (old & Hold & Hs).
      assert (surface_owners_ g !! su_id s = Some t); [|congruence].
      apply (cn_surface g Hg). exists r. split; [done|]. rewrite <- Hs.
      apply list_elem_of_fmap. eauto using list_elem_of_lookup_2.
    + split; [done|]. apply find_surface_None in Hi. cbn [snd].
      apply update_consistent; [done|done|done|lia| | |].
      * exact (alias_index_split g t r Hg Hr).
      * intros j u. cbn. rewrite fmap_app, elem_of_app. cbn. rewrite list_elem_of_singleton.
        destruct (decide (su_id s = j)) as [<-|Hne].
        -- rewrite lookup_insert_eq, Hu. naive_solver.
        -- rewrite lookup_insert_ne by done. rewrite (surface_index_split g t r Hg Hr j u).
           naive_solver.
      * cbn. rewrite fmap_app. apply NoDup_app. split; [exact (cn_once g Hg t r Hr)|].
        split; [|apply NoDup_singleton]. cbn. intros x Hx ->%list_elem_of_singleton. done.
Qed.

Lemma delete_once {A} (l : list A) i x :
  l !! i = Some x → NoDup l → NoDup (delete i l) ∧ ∀ y, y ∈ delete i l ↔ y ∈ l ∧ y ≠ x.
Proof.
  intros Hi Hnd. pose proof (delete_Permutation l i x Hi) as Hp. rewrite Hp in Hnd.
  apply NoDup_cons in Hnd as [Hx Hnd]. split; [done|]. intros y.
  assert (y ∈ l ↔ y = x ∨ y ∈ delete i l) as -> by (rewrite <- elem_of_cons; by rewrite <- Hp).
  split; [|naive_solver]. intros Hy. split; [by right|]. by intros ->.
Qed.

Lemma remove_surface_consistent g t s : Consistent g → faultless (remove_surface t s g).
Proof.
  intros Hg. unfold remove_surface. destruct (_ =? 0)%N; [by split|].
  destruct (targets_ g !! t) as [r|] eqn:Hr; [|by split].
  destruct (cn_ids g Hg t r Hr) as [Hid Hlt]. pose proof (cn_next g Hg) as Hn.
  destruct (surface_owners_ g !! s) as [u|] eqn:Hu; [|by split].
  destruct (decide (u = t)) as [->|]; [|by split].
  destruct (find_surface _ _) as [i|] eqn:Hi.
  - split; [done|]. apply find_surface_Some in Hi as (old & Hold & <-). cbn [snd].
    destruct (delete_once (su_id <$> tg_surfaces r) i (su_id old)) as [Hnd Hin].
    { by rewrite list_lookup_fmap, Hold. } { exact (cn_once g Hg t r Hr). }
    assert (su_id <$> delete i (tg_surfaces r) = delete i (su_id <$> tg_surfaces r)) as Hdel.
    { rewrite !delete_take_drop, fmap_app, fmap_take, fmap_drop. done. }
    apply update_consistent; [done|done|done|lia| | |].
    + exact (alias_index_split g t r Hg Hr).
    + intros j u. cbn. rewrite Hdel, Hin. destruct (decide (su_id old = j)) as [<-|Hne].
      * rewrite lookup_delete_eq, Hu. naive_solver.
      * rewrite lookup_delete_ne by done. rewrite (surface_index_split g t r Hg Hr j u).
        naive_solver.
    + cbn. by rewrite Hdel.
  - apply find_surface_None in Hi. apply (cn_surface g Hg) in Hu as (r' & Hr' & Hin). naive_solver.
Qed.

Lemma call_consistent g c :
  Consistent g → (call c g).1 ≠ Some ErrorCode.InternalFault ∧ Consistent (call c g).2.
Proof.
  intros Hg. destruct c as [o|t a|k|t s|t s]; cbn.
  - pose proof (observe_consistent g o Hg) as H. by destruct (observe o g).
  - pose proof (attach_alias_consistent g t a Hg) as H. by destruct (attach_alias t a g).
  - pose proof (invalidate_alias_consistent g k Hg) as H. by destruct (invalidate_alias k g).
  - pose proof (register_surface_consistent g t s Hg) as H. by destruct (register_surface t s g).
  - pose proof (remove_surface_consistent g t s Hg) as H. by destruct (remove_surface t s g).
Qed.

Lemma run_calls_consistent cs g : Consistent g → Consistent (run_calls cs g).
Proof.
  intros Hg. unfold run_calls. apply foldl_inv; [|done]. intros a c _ Ha.
  by apply call_consistent.
Qed.

(** No call takes a target away. *)
Lemma call_keeps_targets g c t : is_Some (targets_ g !! t) → is_Some (targets_ (call c g).2 !! t).
Proof.
  intros Ht. destruct c; cbn;
    unfold observe, observe_new, attach_alias, invalidate_alias, register_surface, remove_surface;
    repeat (case_match; simplify_eq/=; try done); rewrite ?lookup_insert_is_Some'; eauto.
Qed.

(** What an accepted observation does, in a consistent registry. *)
Lemma observe_Ok g o t g' :
  Consistent g → observe o g = (Ok t, g') →
  (is_Some (targets_ g !! t) ↔
     ∃ a, ob_alias o = Some a ∧ is_fusing a = true ∧ holds_alias g (key_of a) t) ∧
  ∃ r, targets_ g' !! t = Some r ∧ last (tg_observations r) = Some o ∧ tg_grade r = ob_grade o.
Proof.
  intros Hg. unfold observe. destruct (validate_observation o); [|done].
  destruct (fused_with g o) as [[a u]|] eqn:Hf.
  - apply fused_with_Some in Hf as (Ho & Ha & Hk).
    destruct (targets_ g !! u) as [r|] eqn:Hr; [|done]. destruct (decide _) as [Hgr|]; [|done].
    intros Heq. apply pair_eq in Heq as [Ht <-]. assert (u = t) as -> by congruence. split.
    + split; [|by eauto]. intros _. exists a. split; [done|]. split; [done|].
      by apply (cn_alias g Hg).
    + eexists. cbn. rewrite lookup_insert_eq. split; [done|]. cbn. rewrite last_snoc.
      split; [done|]. by destruct (decide _).
  - rewrite observe_new_eq by done. destruct (_ =? _)%N; [done|]. cbv zeta. intros Heq.
    apply pair_eq in Heq as [Ht <-]. assert (t = MkTargetId (next_id_ g)) as -> by congruence.
    rewrite next_id_fresh by done. split.
    + split; [by intros []|]. intros (a & Ho & Ha & Hk%(cn_alias g Hg)).
      destruct (fused_with_Some g o a (MkTargetId (next_id_ g))) as [_ Hfw].
      rewrite Hf in Hfw. discriminate (Hfw (conj Ho (conj Ha Hk))).
    + eexists. cbn. by rewrite lookup_insert_eq.
Qed.

Lemma invalidate_alias_Ok g k g' :
  Consistent g → invalidate_alias k g = (Ok tt, g') →
  (∀ t, ¬ holds_alias g' k t) ∧ ∀ t, is_Some (targets_ g !! t) ↔ is_Some (targets_ g' !! t).
Proof.
  intros Hg Heq. pose proof (invalidate_alias_consistent g k Hg) as [_ Hg'].
  rewrite Heq in Hg'. cbn in Hg'. revert Heq. unfold invalidate_alias.
  destruct (decide _); [done|]. destruct (exact_active_aliases_ g !! k) as [u|] eqn:Hu; [|done].
  destruct (targets_ g !! u) as [r|] eqn:Hr; [|done]. intros Heq. apply pair_eq in Heq as [_ <-].
  split.
  - intros t Ht%(cn_alias _ Hg'). cbn in Ht. by rewrite lookup_delete_eq in Ht.
  - intros t. cbn. rewrite lookup_insert_is_Some'. split; [by right|].
    intros [<-|Ht]; [by rewrite Hr|done].
Qed.

(** ** Properties *)

(** C37: Whatever calls are made on a new registry, the registry stays consistent:
    a target's record carries its own id, ids lie below the counter, the alias
    index lists exactly the exact active aliases the records hold, the surface
    index exactly the surfaces they hold, and a record holds a surface once.
    Hence no call fails with one of the [InternalFault]s that guard the indexes,
    and each alias key and each surface has one target at most. *)
Theorem registry_never_faults (cs : list RegistryCall) (c : RegistryCall) :
  let g := run_calls cs empty_registry in
  Consistent g ∧ (call c g).1 ≠ Some ErrorCode.InternalFault ∧
  (∀ k t u, holds_alias g k t → holds_alias g k u → t = u) ∧
  (∀ s t u, holds_surface g s t → holds_surface g s u → t = u).
Proof.
  intros g. assert (Consistent g) as Hg by apply run_calls_consistent, empty_consistent.
  split; [done|]. split; [by apply call_consistent|]. split.
  - intros k t u Ht%(cn_alias g Hg) Hu%(cn_alias g Hg). congruence.
  - intros s t u Ht%(cn_surface g Hg) Hu%(cn_surface g Hg). congruence.
Qed.

(** After any calls, an accepted observation lands on a target that was there
    before exactly when its alias is exact and active and that very target holds
    it; titles, pids, bounds, candidate and inactive aliases never merge targets.
    The observation is the last one its target keeps, under its own grade.  Once
    an alias is invalidated, observing it again makes a target that was not there
    before, and no target ever goes away, so no identity is issued twice. *)
Theorem only_exact_aliases_fuse (cs : list RegistryCall) (o : TargetObservation) t g' :
  let g := run_calls cs empty_registry in
  (observe o g = (Ok t, g') →
     (is_Some (targets_ g !! t) ↔
        ∃ a, ob_alias o = Some a ∧ is_fusing a = true ∧ holds_alias g (key_of a) t) ∧
     ∃ r, targets_ g' !! t = Some r ∧ last (tg_observations r) = Some o ∧
          tg_grade r = ob_grade o) ∧
  (∀ k g1, invalidate_alias k g = (Ok tt, g1) → ob_alias o = Some (exact_active k) →
     observe o g1 = (Ok t, g') → targets_ g !! t = None) ∧
  ∀ cs' u, is_Some (targets_ g !! u) → is_Some (targets_ (run_calls cs' g) !! u).
Proof.
  intros g. assert (Consistent g) as Hg by apply run_calls_consistent, empty_consistent.
  split; [by apply observe_Ok|]. split.
  - intros k g1 Hk Ho Hobs. destruct (invalidate_alias_Ok g k g1 Hg Hk) as [Hno Hsame].
    pose proof (proj2 (invalidate_alias_consistent g k Hg)) as Hg1. rewrite Hk in Hg1.
    destruct (observe_Ok g1 o t g' Hg1 Hobs) as [[Hold _] _].
    destruct (targets_ g !! t) as [r|] eqn:Hr; [|done]. exfalso.
    destruct Hold as (a & Ha & _ & Hh); [by rewrite <- Hsame, Hr|].
    assert (a = exact_active k) as -> by congruence. rewrite key_of_exact in Hh. by destruct (Hno t).
  - intros cs' u Hu. unfold run_calls. apply (foldl_inv _ (λ g, is_Some (targets_ g !! u))); [|done].
    intros a c _ Ha. by apply call_keeps_targets.
Qed.

(** ** Witnesses *)

Definition demo_observation (native : string) (c : N) : TargetObservation :=
  MkObservation gradeWindow (Some (MkAlias "x11" native c validityActive)) "editor" None None.

Definition demo_calls : list RegistryCall :=
  [CallObserve (demo_observation "0x1" confidenceExact);
   CallObserve (demo_observation "0x1" confidenceCandidate);
   CallAttach (MkTargetId 2) (MkAlias "atspi" ":1.7" confidenceExact validityActive)].

(** The exact alias comes back as target 1; a candidate makes target 3. *)
Lemma only_exact_aliases_fuse_witness :
  (observe (demo_observation "0x1" confidenceExact) (run_calls demo_calls empty_registry)).1
    = Ok (MkTargetId 1) ∧
  (observe (demo_observation "0x1" confidenceCandidate) (run_calls demo_calls empty_registry)).1
    = Ok (MkTargetId 3) ∧
  is_Some (targets_ (run_calls demo_calls empty_registry) !! MkTargetId 1).
Proof.
  split; [vm_compute; reflexivity|]. split; [vm_compute; reflexivity|].
  apply (proj2 (proj1 (proj1 (only_exact_aliases_fuse demo_calls
    (demo_observation "0x1" confidenceExact) (MkTargetId 1)
    (observe (demo_observation "0x1" confidenceExact) (run_calls demo_calls empty_registry)).2)
    ltac:(vm_compute; reflexivity)))).
  exists (MkAlias "x11" "0x1" confidenceExact validityActive).
  split; [reflexivity|]. split; [reflexivity|].
  eexists. split; [vm_compute; reflexivity|]. by left.
Defined.
