(* ===== verification/Player.v ===== *)
(** The run half of the document/run split: the pump of
    [kernel/sequence/player.hpp] and [.cpp].

    [CommandRunner] is the abstract class the pump drives commands through, as a
    type class over the runner's own state; every definition threads that state.
    [Player] has the class's data members, with two differences: [scratch_] is a
    local list, and [history_] is a history variable, the calls made to the
    runner so far, that no operation reads.  Log records and the [Dispatch]
    timers are not modelled.

    Time points and durations are [Z] nanoseconds; the loader bounds every
    duration at a day, and sums of 64-bit counts are not wrapped. *)

From S2P Require Import Prelude Graph Errors StepTypes Command Sequence Identity.

(** ** The runner *)

Class CommandRunner (R : Type) := {
  runner_enter : R → Step → Z → Status * R;
  runner_tick : R → Step → Z → Status * R;
  runner_exit : R → Step → Z → NeutralizationOutcome * R;
  runner_join : R → Step → R;
  runner_release_holds : R → Step → NeutralizationOutcome * R;
  runner_last_error : R → Step → ErrorCode;
  runner_next_tick : R → Step → option Z;
  runner_declared_duration : R → Step → option Z
}.

(** The bodies of the virtual functions that have one. *)
Definition default_join {R} (r : R) (step : Step) : R := r.

Definition default_release_holds {R} (r : R) (step : Step) : NeutralizationOutcome * R :=
  (NeutralizationOutcome.NotAttempted, r).

Definition default_last_error {R} (r : R) (step : Step) : ErrorCode := ErrorCode.ProviderFailed.

Definition default_next_tick {R} (r : R) (step : Step) : option Z := None.

(** [time.wait] is the one op that declares a duration. *)
Definition default_declared_duration {R} (r : R) (step : Step) : option Z :=
  match command step with
  | WaitCommand duration => Some duration
  | _ => None
  end.

(** The calls a run makes to its runner, by step. *)
Inductive Call :=
  | CallEnter (k : StepId) (now : Z)
  | CallTick (k : StepId) (now : Z)
  | CallExit (k : StepId) (now : Z)
  | CallJoin (k : StepId)
  | CallReleaseHolds (k : StepId).

(** ** Pure helpers *)

Definition terminal_status (status : StepStatus) : bool :=
  match status with
  | StepStatus.Succeeded | StepStatus.Failed | StepStatus.Skipped => true
  | _ => false
  end.

Definition add_grace (base grace : Z) : Z := base + grace.

Definition grace_before (step : Step) (pacing : PacingOptions) : Z :=
  match after step with
  | [] => 0
  | _ =>
    match mode pacing with
    | PacingMode.Strict => 0
    | PacingMode.Grace => ms_to_ns (grace pacing)
    | PacingMode.Precise => ms_to_ns (grace pacing + extra_grace step)
    | PacingMode.Count => 0
    end
  end.

Definition retry_class_of_step (step : Step) : RetryClass :=
  from_option cd_retry RetryClass.Never (find_descriptor (kind_of (command step))).

Definition may_retry (step : Step) (code : ErrorCode) : bool :=
  if decide (code = ErrorCode.PossiblyCommitted) then false
  else bool_decide (retry_class_of_step step = RetryClass.Idempotent).

Definition maxRetriesPerStep : nat := 1.

(** The fold [neutralize] writes out for the outcome of an [exit]. *)
Definition neutralize_verdict (verdict outcome : NeutralizationOutcome)
    : NeutralizationOutcome :=
  if decide (outcome = NeutralizationOutcome.Failed) then NeutralizationOutcome.Failed
  else if decide (outcome = NeutralizationOutcome.Released ∧
                  verdict ≠ NeutralizationOutcome.Failed)
  then NeutralizationOutcome.Released
  else if decide (verdict = NeutralizationOutcome.NotAttempted)
  then NeutralizationOutcome.NothingHeld
  else verdict.

(** [record_neutralization]. *)
Definition record_verdict (verdict outcome : NeutralizationOutcome)
    : NeutralizationOutcome :=
  match outcome with
  | NeutralizationOutcome.Failed => NeutralizationOutcome.Failed
  | NeutralizationOutcome.Released =>
    if decide (verdict = NeutralizationOutcome.Failed) then verdict
    else NeutralizationOutcome.Released
  | NeutralizationOutcome.NothingHeld =>
    if decide (verdict = NeutralizationOutcome.NotAttempted)
    then NeutralizationOutcome.NothingHeld else verdict
  | NeutralizationOutcome.NotAttempted => verdict
  end.

(** ** Run state *)

Record StepRun := MkRun {
  run_ready_at : Z;
  run_entered_at : Z;
  run_finished_at : Z;
  run_declared : option Z;
  run_call_duration : Z;
  run_retries : nat;
  run_entered : bool;
  run_exited : bool
}.

Definition blank_run : StepRun := MkRun 0 0 0 None 0 0 false false.

Definition run_set_ready_at (v : Z) (r : StepRun) : StepRun :=
  MkRun v (run_entered_at r) (run_finished_at r) (run_declared r) (run_call_duration r)
    (run_retries r) (run_entered r) (run_exited r).

(** [run.call_duration = now - run.entered_at]. *)
Definition run_set_duration (now : Z) (r : StepRun) : StepRun :=
  MkRun (run_ready_at r) (run_entered_at r) (run_finished_at r) (run_declared r)
    (now - run_entered_at r) (run_retries r) (run_entered r) (run_exited r).

Definition run_set_finished_at (v : Z) (r : StepRun) : StepRun :=
  MkRun (run_ready_at r) (run_entered_at r) v (run_declared r) (run_call_duration r)
    (run_retries r) (run_entered r) (run_exited r).

Definition run_set_exited (v : bool) (r : StepRun) : StepRun :=
  MkRun (run_ready_at r) (run_entered_at r) (run_finished_at r) (run_declared r)
    (run_call_duration r) (run_retries r) (run_entered r) v.

(** [run.retries += 1]. *)
Definition run_count_retry (r : StepRun) : StepRun :=
  MkRun (run_ready_at r) (run_entered_at r) (run_finished_at r) (run_declared r)
    (run_call_duration r) (S (run_retries r)) (run_entered r) (run_exited r).

(** [run.exited = false; run.entered_at = now]. *)
Definition run_reopen (now : Z) (r : StepRun) : StepRun :=
  MkRun (run_ready_at r) now (run_finished_at r) (run_declared r) (run_call_duration r)
    (run_retries r) (run_entered r) false.

(** [entered = true; exited = false; entered_at = now; declared = d]. *)
Definition run_enter (now : Z) (d : option Z) (r : StepRun) : StepRun :=
  MkRun (run_ready_at r) now (run_finished_at r) d (run_call_duration r)
    (run_retries r) true false.

Section player.
Context {R : Type} {RC : CommandRunner R}.

Record Player := MkPlayer {
  program_ : Sequence;
  runner_ : R;
  status_ : list StepStatus;
  runs_ : list StepRun;
  frontier_ : list StepId;
  entry_order_ : list StepId;
  successor_offsets_ : list nat;
  successors_ : list StepId;
  state_ : PlayState;
  neutralization_ : NeutralizationOutcome;
  failure_ : option Error;
  last_now_ : Z;
  first_entry_ : Z;
  last_finish_ : Z;
  anything_entered_ : bool;
  run_id_ : Uuid;
  deepest_frontier_ : nat;
  reported_ : bool;
  history_ : list Call
}.

(** One assignment per mutable member. *)

Definition set_runner (v : R) (p : Player) : Player :=
  MkPlayer (program_ p) v (status_ p) (runs_ p) (frontier_ p) (entry_order_ p)
    (successor_offsets_ p) (successors_ p) (state_ p) (neutralization_ p) (failure_ p)
    (last_now_ p) (first_entry_ p) (last_finish_ p) (anything_entered_ p) (run_id_ p)
    (deepest_frontier_ p) (reported_ p) (history_ p).

Definition set_statuses (v : list StepStatus) (p : Player) : Player :=
  MkPlayer (program_ p) (runner_ p) v (runs_ p) (frontier_ p) (entry_order_ p)
    (successor_offsets_ p) (successors_ p) (state_ p) (neutralization_ p) (failure_ p)
    (last_now_ p) (first_entry_ p) (last_finish_ p) (anything_entered_ p) (run_id_ p)
    (deepest_frontier_ p) (reported_ p) (history_ p).

Definition set_runs (v : list StepRun) (p : Player) : Player :=
  MkPlayer (program_ p) (runner_ p) (status_ p) v (frontier_ p) (entry_order_ p)
    (successor_offsets_ p) (successors_ p) (state_ p) (neutralization_ p) (failure_ p)
    (last_now_ p) (first_entry_ p) (last_finish_ p) (anything_entered_ p) (run_id_ p)
    (deepest_frontier_ p) (reported_ p) (history_ p).

Definition set_frontier (v : list StepId) (p : Player) : Player :=
  MkPlayer (program_ p) (runner_ p) (status_ p) (runs_ p) v (entry_order_ p)
    (successor_offsets_ p) (successors_ p) (state_ p) (neutralization_ p) (failure_ p)
    (last_now_ p) (first_entry_ p) (last_finish_ p) (anything_entered_ p) (run_id_ p)
    (deepest_frontier_ p) (reported_ p) (history_ p).

Definition set_entry_order (v : list StepId) (p : Player) : Player :=
  MkPlayer (program_ p) (runner_ p) (status_ p) (runs_ p) (frontier_ p) v
    (successor_offsets_ p) (successors_ p) (state_ p) (neutralization_ p) (failure_ p)
    (last_now_ p) (first_entry_ p) (last_finish_ p) (anything_entered_ p) (run_id_ p)
    (deepest_frontier_ p) (reported_ p) (history_ p).

Definition set_play_state (v : PlayState) (p : Player) : Player :=
  MkPlayer (program_ p) (runner_ p) (status_ p) (runs_ p) (frontier_ p) (entry_order_ p)
    (successor_offsets_ p) (successors_ p) v (neutralization_ p) (failure_ p) (last_now_ p)
    (first_entry_ p) (last_finish_ p) (anything_entered_ p) (run_id_ p)
    (deepest_frontier_ p) (reported_ p) (history_ p).

Definition set_neutralization (v : NeutralizationOutcome) (p : Player) : Player :=
  MkPlayer (program_ p) (runner_ p) (status_ p) (runs_ p) (frontier_ p) (entry_order_ p)
    (successor_offsets_ p) (successors_ p) (state_ p) v (failure_ p) (last_now_ p)
    (first_entry_ p) (last_finish_ p) (anything_entered_ p) (run_id_ p)
    (deepest_frontier_ p) (reported_ p) (history_ p).

Definition set_failure (v : option Error) (p : Player) : Player :=
  MkPlayer (program_ p) (runner_ p) (status_ p) (runs_ p) (frontier_ p) (entry_order_ p)
    (successor_offsets_ p) (successors_ p) (state_ p) (neutralization_ p) v (last_now_ p)
    (first_entry_ p) (last_finish_ p) (anything_entered_ p) (run_id_ p)
    (deepest_frontier_ p) (reported_ p) (history_ p).

Definition set_last_now (v : Z) (p : Player) : Player :=
  MkPlayer (program_ p) (runner_ p) (status_ p) (runs_ p) (frontier_ p) (entry_order_ p)
    (successor_offsets_ p) (successors_ p) (state_ p) (neutralization_ p) (failure_ p) v
    (first_entry_ p) (last_finish_ p) (anything_entered_ p) (run_id_ p)
    (deepest_frontier_ p) (reported_ p) (history_ p).

Definition set_first_entry (v : Z) (p : Player) : Player :=
  MkPlayer (program_ p) (runner_ p) (status_ p) (runs_ p) (frontier_ p) (entry_order_ p)
    (successor_offsets_ p) (successors_ p) (state_ p) (neutralization_ p) (failure_ p)
    (last_now_ p) v (last_finish_ p) (anything_entered_ p) (run_id_ p) (deepest_frontier_ p)
    (reported_ p) (history_ p).

Definition set_last_finish (v : Z) (p : Player) : Player :=
  MkPlayer (program_ p) (runner_ p) (status_ p) (runs_ p) (frontier_ p) (entry_order_ p)
    (successor_offsets_ p) (successors_ p) (state_ p) (neutralization_ p) (failure_ p)
    (last_now_ p) (first_entry_ p) v (anything_entered_ p) (run_id_ p) (deepest_frontier_ p)
    (reported_ p) (history_ p).

Definition set_anything_entered (v : bool) (p : Player) : Player :=
  MkPlayer (program_ p) (runner_ p) (status_ p) (runs_ p) (frontier_ p) (entry_order_ p)
    (successor_offsets_ p) (successors_ p) (state_ p) (neutralization_ p) (failure_ p)
    (last_now_ p) (first_entry_ p) (last_finish_ p) v (run_id_ p) (deepest_frontier_ p)
    (reported_ p) (history_ p).

Definition set_deepest (v : nat) (p : Player) : Player :=
  MkPlayer (program_ p) (runner_ p) (status_ p) (runs_ p) (frontier_ p) (entry_order_ p)
    (successor_offsets_ p) (successors_ p) (state_ p) (neutralization_ p) (failure_ p)
    (last_now_ p) (first_entry_ p) (last_finish_ p) (anything_entered_ p) (run_id_ p) v
    (reported_ p) (history_ p).

Definition set_reported (v : bool) (p : Player) : Player :=
  MkPlayer (program_ p) (runner_ p) (status_ p) (runs_ p) (frontier_ p) (entry_order_ p)
    (successor_offsets_ p) (successors_ p) (state_ p) (neutralization_ p) (failure_ p)
    (last_now_ p) (first_entry_ p) (last_finish_ p) (anything_entered_ p) (run_id_ p)
    (deepest_frontier_ p) v (history_ p).

Definition set_history (v : list Call) (p : Player) : Player :=
  MkPlayer (program_ p) (runner_ p) (status_ p) (runs_ p) (frontier_ p) (entry_order_ p)
    (successor_offsets_ p) (successors_ p) (state_ p) (neutralization_ p) (failure_ p)
    (last_now_ p) (first_entry_ p) (last_finish_ p) (anything_entered_ p) (run_id_ p)
    (deepest_frontier_ p) (reported_ p) v.

(** ** Construction *)

(** The loops that build the CSR successor lists: out-degrees, their prefix sums,
    then one slot per dependency at the predecessor's cursor. *)
Definition count_degrees (l : list Step) : list nat :=
  foldl (λ degrees step,
           foldl (λ degrees predecessor, alter S (index predecessor) degrees)
                 degrees (after step))
        (replicate (length l) 0%nat) l.

Fixpoint prefix_sums (total : nat) (degrees : list nat) : list nat :=
  match degrees with
  | [] => [total]
  | d :: rest => total :: prefix_sums (total + d) rest
  end.

(** [successors_[cursor[index]] = step.id; cursor[index] += 1]. *)
Definition place (step : Step) (st : list nat * list StepId) (predecessor : StepId)
    : list nat * list StepId :=
  let '(cursor, successors) := st in
  match cursor !! index predecessor with
  | None => (cursor, successors)
  | Some slot =>
    (<[index predecessor := S slot]> cursor, <[slot := id step]> successors)
  end.

Definition fill_successors (l : list Step) (offsets : list nat) (total : nat) : list StepId :=
  (foldl (λ st step, foldl (place step) st (after step))
     (take (length l) offsets, replicate total nil_id) l).2.

(** [Player( program, runner )]; the run id is minted by the identity factory. *)
Definition construct (program : Sequence) (runner : R) (run_id : Uuid) : Player :=
  let offsets := prefix_sums 0 (count_degrees (steps program)) in
  let total := default 0%nat (last offsets) in
  MkPlayer program runner
    (replicate (length (steps program)) StepStatus.Pending)
    (replicate (length (steps program)) blank_run)
    [] [] offsets (fill_successors (steps program) offsets total)
    PlayState.Idle NeutralizationOutcome.NotAttempted None 0 0 0 false run_id 0 false [].

(** ** Accessors of the run state *)

Definition index_of (k : StepId) : nat := index k.

(** [runs_[index]], where the code has checked the subscript. *)
Definition run_at (p : Player) (i : nat) : StepRun := default blank_run (runs_ p !! i).

Definition status_is (p : Player) (i : nat) (s : StepStatus) : bool :=
  bool_decide (status_ p !! i = Some s).

Definition is_terminal (p : Player) (k : StepId) : bool :=
  from_option terminal_status false (status_ p !! index_of k).

Definition modify_run (i : nat) (f : StepRun → StepRun) (p : Player) : Player :=
  set_runs (alter f i (runs_ p)) p.

(** [Playing] or [Paused]: the states in which a run can still move. *)
Definition active (p : Player) : bool :=
  match state_ p with
  | PlayState.Playing | PlayState.Paused => true
  | _ => false
  end.

(** ** Calls to the runner, recorded in the history *)

Definition record_call (c : Call) (r : R) (p : Player) : Player :=
  set_history (c :: history_ p) (set_runner r p).

Definition call_enter (p : Player) (step : Step) (now : Z) : Status * Player :=
  let '(status, r) := runner_enter (runner_ p) step now in
  (status, record_call (CallEnter (id step) now) r p).

Definition call_tick (p : Player) (step : Step) (now : Z) : Status * Player :=
  let '(status, r) := runner_tick (runner_ p) step now in
  (status, record_call (CallTick (id step) now) r p).

Definition call_exit (p : Player) (step : Step) (now : Z) : NeutralizationOutcome * Player :=
  let '(outcome, r) := runner_exit (runner_ p) step now in
  (outcome, record_call (CallExit (id step) now) r p).

Definition call_join (p : Player) (step : Step) : Player :=
  record_call (CallJoin (id step)) (runner_join (runner_ p) step) p.

Definition call_release_holds (p : Player) (step : Step) : NeutralizationOutcome * Player :=
  let '(outcome, r) := runner_release_holds (runner_ p) step in
  (outcome, record_call (CallReleaseHolds (id step)) r p).

(** ** Primitive transitions *)

(** The out-of-range guard is [list_insert]'s. *)
Definition set_status (k : StepId) (next : StepStatus) (p : Player) : Player :=
  set_statuses (<[index_of k := next]> (status_ p)) p.

Definition set_state (next : PlayState) (p : Player) : Player :=
  if decide (state_ p = next) then p else set_play_state next p.

Definition admit_to_frontier (k : StepId) (ready_at : Z) (p : Player) : Player :=
  let p := modify_run (index_of k) (run_set_ready_at ready_at) p in
  let p := set_frontier (frontier_ p ++ [k]) p in
  set_deepest (Nat.max (deepest_frontier_ p) (length (frontier_ p))) p.

(** [erase( find( k ) )]. *)
Fixpoint erase_first (k : StepId) (l : list StepId) : list StepId :=
  match l with
  | [] => []
  | x :: rest => if decide (x = k) then rest else x :: erase_first k rest
  end.

Definition drop_from_frontier (k : StepId) (p : Player) : Player :=
  set_frontier (erase_first k (frontier_ p)) p.

Definition neutralize (k : StepId) (now : Z) (p : Player) : NeutralizationOutcome * Player :=
  match runs_ p !! index_of k with
  | None => (NeutralizationOutcome.NotAttempted, p)
  | Some run =>
    if negb (run_entered run) || run_exited run
    then (NeutralizationOutcome.NotAttempted, p)
    else match find (program_ p) k with
         | None => (NeutralizationOutcome.NotAttempted, p)
         | Some step =>
           let p := if is_blocking_command (kind_of (command step))
                    then call_join p step else p in
           let '(outcome, p) := call_exit p step now in
           let p := modify_run (index_of k) (run_set_exited true) p in
           (outcome, set_neutralization (neutralize_verdict (neutralization_ p) outcome) p)
         end
  end.

Definition record_neutralization (outcome : NeutralizationOutcome) (p : Player) : Player :=
  set_neutralization (record_verdict (neutralization_ p) outcome) p.

Definition reap_holds (k : StepId) (p : Player) : NeutralizationOutcome * Player :=
  match find (program_ p) k with
  | None => (NeutralizationOutcome.NotAttempted, p)
  | Some step =>
    let '(outcome, p) := call_release_holds p step in
    (outcome, record_neutralization outcome p)
  end.

(** ** Admission *)

(** The latest completion of the predecessors, [None] while one is not terminal. *)
Fixpoint eligibility (p : Player) (predecessors : list StepId) (eligible : Z) : option Z :=
  match predecessors with
  | [] => Some eligible
  | predecessor :: rest =>
    if is_terminal p predecessor
    then eligibility p rest
           (Z.max eligible (run_finished_at (run_at p (index_of predecessor))))
    else None
  end.

Definition admit_successor (p : Player) (successor : StepId) : Player :=
  if status_is p (index_of successor) StepStatus.Pending then
    match find (program_ p) successor with
    | None => p
    | Some step =>
      match eligibility p (after step) 0 with
      | None => p
      | Some eligible =>
        let ready_at := add_grace eligible (grace_before step (pacing (program_ p))) in
        admit_to_frontier successor ready_at (set_status successor StepStatus.Ready p)
      end
    end
  else p.

(** [successors_[ offsets[i] .. offsets[i+1] )]. *)
Definition successors_of (p : Player) (i : nat) : list StepId :=
  match successor_offsets_ p !! i, successor_offsets_ p !! S i with
  | Some first, Some last => take (last - first) (drop first (successors_ p))
  | _, _ => []
  end.

Definition admit_successors (k : StepId) (p : Player) : Player :=
  foldl admit_successor p (successors_of p (index_of k)).

(** ** Unwinding *)

Definition unwind_entered (now : Z) (p : Player) (k : StepId) : Player :=
  match runs_ p !! index_of k with
  | None => p
  | Some run =>
    if negb (run_entered run) then p
    else if run_exited run then (reap_holds k p).2
    else
      let p := modify_run (index_of k) (run_set_duration now) p in
      let p := (neutralize k now p).2 in
      if from_option terminal_status false (status_ p !! index_of k) then p
      else modify_run (index_of k) (run_set_finished_at now)
             (set_status k StepStatus.Skipped p)
  end.

Definition unwind_ready (now : Z) (p : Player) (k : StepId) : Player :=
  match status_ p !! index_of k with
  | None => p
  | Some status =>
    if terminal_status status then p
    else modify_run (index_of k) (run_set_finished_at now)
           (set_status k StepStatus.Skipped p)
  end.

(** Reverse entry order, then whatever of the frontier never entered. *)
Definition unwind (now : Z) (p : Player) : Player :=
  let p := foldl (unwind_entered now) p (rev (entry_order_ p)) in
  let p := foldl (unwind_ready now) p (frontier_ p) in
  set_frontier [] p.

(** ** [jump_to] *)

(** Exit a step that is entered and not exited, on the way to skipping it. *)
Definition exit_open (now : Z) (k : StepId) (p : Player) : Player :=
  let run := run_at p (index_of k) in
  if run_entered run && negb (run_exited run)
  then (neutralize k now (modify_run (index_of k) (run_set_duration now) p)).2
  else p.

Definition skip_step (now : Z) (k : StepId) (p : Player) : Player :=
  modify_run (index_of k) (run_set_finished_at now) (set_status k StepStatus.Skipped p).

(** The body of the loop over the target's ancestors. *)
Definition skip_ancestor (now : Z) (p : Player) (k : StepId) : Player :=
  match status_ p !! index_of k with
  | None => p
  | Some status =>
    if terminal_status status then p else skip_step now k (exit_open now k p)
  end.

(** The body of the loop over the rest of the frontier. *)
Definition drop_member (target : StepId) (now : Z) (p : Player) (k : StepId) : Player :=
  if decide (k = target) then p else
  match status_ p !! index_of k with
  | None => p
  | Some status =>
    if terminal_status status then p
    else if run_entered (run_at p (index_of k)) && negb (run_exited (run_at p (index_of k)))
    then skip_step now k (exit_open now k p)
    else set_status k StepStatus.Pending p
  end.

(** The frontier member, if any, that the target is behind. *)
Fixpoint behind (s : Sequence) (target : StepId) (members : list StepId) : option StepId :=
  match members with
  | [] => None
  | member :: rest =>
    if decide (member = target) then behind s target rest
    else if decide (target ∈ ancestors_of s member) then Some member
    else behind s target rest
  end.

Definition jump_to (target : StepId) (p : Player) : Result unit * Player :=
  match find (program_ p) target with
  | None =>
    (fail ErrorCode.NoMatch ("no step with index " +:+ to_string (index_bits target))%string, p)
  | Some step =>
    if is_terminal p target then
      (fail ErrorCode.InvalidArgument
         ("goto is forward-only; step " +:+ step_name step +:+ " has already run")%string, p)
    else match behind (program_ p) target (frontier_ p) with
    | Some member =>
      (fail ErrorCode.InvalidArgument
         ("goto is forward-only; step " +:+ step_name step +:+ " is an ancestor of step " +:+
          from_option step_name "in the frontier" (find (program_ p) member))%string, p)
    | None =>
      let now := last_now_ p in
      let p := foldl (skip_ancestor now) p (ancestors_of (program_ p) target) in
      let p := foldl (drop_member target now) p (frontier_ p) in
      let p := set_frontier [] p in
      (Ok tt,
       if status_is p (index_of target) StepStatus.Running
       then admit_to_frontier target (run_ready_at (run_at p (index_of target))) p
       else admit_to_frontier target
              (add_grace now (grace_before step (pacing (program_ p))))
              (set_status target StepStatus.Ready p))
    end
  end.

(** ** Completion *)

Definition succeed (k : StepId) (now : Z) (p : Player) : Player :=
  let step := find (program_ p) k in
  let p := modify_run (index_of k) (λ r, run_set_finished_at now (run_set_duration now r)) p in
  let run := run_at p (index_of k) in
  let p :=
    match step with
    | Some step =>
      if run_entered run && negb (run_exited run)
      then modify_run (index_of k) (run_set_exited true) (call_exit p step now).2
      else p
    | None => p
    end in
  let p := set_status k StepStatus.Succeeded p in
  let p := set_last_finish (Z.max (last_finish_ p) now) p in
  let p := drop_from_frontier k p in
  admit_successors k p.

(** [unwind( now ); set_state( Interrupted )] with the failure recorded. *)
Definition abort_run (error : Error) (now : Z) (p : Player) : Player :=
  set_state PlayState.Interrupted (unwind now (set_failure (Some error) p)).

Definition fail_step (k : StepId) (code : ErrorCode) (now : Z) (p : Player) : Player :=
  let step := find (program_ p) k in
  let p := modify_run (index_of k) (λ r, run_set_finished_at now (run_set_duration now r)) p in
  let p := (neutralize k now p).2 in
  let p := set_status k StepStatus.Failed p in
  let p := set_last_finish (Z.max (last_finish_ p) now) p in
  let p := drop_from_frontier k p in
  match step with
  | None => p
  | Some step =>
    match on_error step with
    | ErrorPolicy.Continue => admit_successors k p
    | ErrorPolicy.Goto =>
      match resolve_label (program_ p) (on_error_target step) with
      | None =>
        abort_run
          (fail_with ErrorCode.NoMatch
             ("step " +:+ step_name step +:+ " recovers to label '" +:+
              on_error_target step +:+ "', which names no step")%string) now p
      | Some target =>
        match jump_to target p with
        | (Ok _, p) => p
        | (Err error, p) => abort_run error now p
        end
      end
    | ErrorPolicy.Abort | ErrorPolicy.Count =>
      abort_run
        (fail_with code ("step " +:+ step_name step +:+ " failed and its policy is abort")%string)
        now p
    end
  end.

Definition on_status (k : StepId) (status : Status) (now : Z) (p : Player) : Player :=
  match status with
  | Status.Running => p
  | Status.Success => succeed k now p
  | _ =>
    match find (program_ p) k with
    | None => fail_step k ErrorCode.InternalFault now p
    | Some step =>
      let code := runner_last_error (runner_ p) step in
      if may_retry step code &&
         bool_decide (run_retries (run_at p (index_of k)) < maxRetriesPerStep)%nat
      then
        let p := modify_run (index_of k) run_count_retry p in
        let p := (neutralize k now p).2 in
        let p := modify_run (index_of k) (run_reopen now) p in
        match call_enter p step now with
        | (Status.Running, p) => p
        | (Status.Success, p) => succeed k now p
        | (_, p) => fail_step k (runner_last_error (runner_ p) step) now p
        end
      else fail_step k code now p
    end
  end.

(** ** Control *)

Definition report_run (p : Player) : Player :=
  if reported_ p then p
  else match state_ p with
       | PlayState.Done | PlayState.Interrupted => set_reported true p
       | _ => p
       end.

Definition admit_root (p : Player) (step : Step) : Player :=
  match after step with
  | [] => admit_to_frontier (id step) (last_now_ p) (set_status (id step) StepStatus.Ready p)
  | _ => p
  end.

Definition play (p : Player) : Result unit * Player :=
  match state_ p with
  | PlayState.Paused => (Ok tt, set_state PlayState.Playing p)
  | PlayState.Playing => (Ok tt, p)
  | PlayState.Idle =>
    (Ok tt, foldl admit_root (set_state PlayState.Playing p) (steps (program_ p)))
  | _ =>
    (fail ErrorCode.InvalidArgument
       "this run has already finished; construct a new player to replay the document", p)
  end.

Definition pause (p : Player) : Result unit * Player :=
  match state_ p with
  | PlayState.Playing => (Ok tt, set_state PlayState.Paused p)
  | _ => (fail ErrorCode.InvalidArgument "nothing is playing, so there is nothing to pause", p)
  end.

Definition interrupt (p : Player) : Result unit * Player :=
  if active p then
    (Ok tt, report_run (set_state PlayState.Interrupted (unwind (last_now_ p) p)))
  else
    (fail ErrorCode.InvalidArgument "nothing is playing, so there is nothing to interrupt", p).

(** The body of [skip]'s first loop. *)
Definition skip_member (now : Z) (p : Player) (k : StepId) : Player :=
  match status_ p !! index_of k with
  | None => p
  | Some _ => skip_step now k (exit_open now k p)
  end.

Definition skip (p : Player) : Result unit * Player :=
  if active p then
    let now := last_now_ p in
    let scratch := frontier_ p in
    let p := set_frontier [] p in
    let p := foldl (skip_member now) p scratch in
    let p := foldl (λ p k, admit_successors k p) p scratch in
    let p := if decide (state_ p = PlayState.Playing ∧ frontier_ p = [])
             then set_state PlayState.Done p else p in
    (Ok tt, report_run p)
  else
    (fail ErrorCode.InvalidArgument "nothing is playing, so there is nothing to skip", p).

Definition goto_step (target : StepId) (p : Player) : Result unit * Player :=
  if active p then jump_to target p
  else
    (fail ErrorCode.InvalidArgument "nothing is playing, so there is nowhere to go from", p).

Definition goto_label (text : string) (p : Player) : Result unit * Player :=
  match resolve_label (program_ p) text with
  | None => (fail ErrorCode.NoMatch ("no step is labelled '" +:+ text +:+ "'")%string, p)
  | Some target => goto_step target p
  end.

(** ** [pump] *)

(** One running step: tick it when it is due.  The first component says whether
    the tick happened, so that the loop checks the run's state after it. *)
Definition tick_member (now : Z) (k : StepId) (st : bool * Player) : bool * (bool * Player) :=
  let '(progressed, p) := st in
  if status_is p (index_of k) StepStatus.Running then
    match find (program_ p) k with
    | None => (false, st)
    | Some step =>
      let waiting :=
        match runner_next_tick (runner_ p) step with
        | Some due => bool_decide (now < due)
        | None => false
        end in
      if waiting then (false, st)
      else
        let '(status, p) := call_tick p step now in
        if decide (status = Status.Running) then (true, (progressed, p))
        else (true, (true, on_status k status now p))
    end
  else (false, st).

Fixpoint tick_loop (now : Z) (scratch : list StepId) (st : bool * Player) : bool * Player :=
  match scratch with
  | [] => st
  | k :: rest =>
    let '(ticked, st) := tick_member now k st in
    if ticked && negb (active st.2) then st else tick_loop now rest st
  end.

(** One ready step: enter it once its ready time has come. *)
Definition enter_member (now : Z) (k : StepId) (st : bool * Player) : bool * (bool * Player) :=
  let '(progressed, p) := st in
  if status_is p (index_of k) StepStatus.Ready &&
     negb (bool_decide (now < run_ready_at (run_at p (index_of k))))
  then
    match find (program_ p) k with
    | None => (false, st)
    | Some step =>
      let p := set_status k StepStatus.Running p in
      let declared := runner_declared_duration (runner_ p) step in
      let p := modify_run (index_of k) (run_enter now declared) p in
      let p := set_entry_order (entry_order_ p ++ [k]) p in
      let p := if anything_entered_ p then p
               else set_first_entry now (set_anything_entered true p) in
      let '(status, p) := call_enter p step now in
      (true, (true, on_status k status now p))
    end
  else (false, st).

Fixpoint enter_loop (now : Z) (scratch : list StepId) (st : bool * Player) : bool * Player :=
  match scratch with
  | [] => st
  | k :: rest =>
    let '(entered, st) := enter_member now k st in
    if entered && negb (bool_decide (state_ st.2 = PlayState.Playing)) then st
    else enter_loop now rest st
  end.

Definition pump_iteration (now : Z) (p : Player) : bool * Player :=
  let '(progressed, p) := tick_loop now (frontier_ p) (false, p) in
  if decide (state_ p = PlayState.Playing)
  then enter_loop now (frontier_ p) (progressed, p)
  else (progressed, p).

Fixpoint pump_loop (limit : nat) (now : Z) (p : Player) : Player :=
  match limit with
  | O => p
  | S limit' =>
    let '(progressed, p) := pump_iteration now p in
    if negb progressed then p
    else if negb (active p) then p
    else pump_loop limit' now p
  end.

Definition pump_limit (p : Player) : nat := 2 * length (status_ p) + 2.

(** [pump] with an explicit bound on its fixpoint loop; the code's is
    [pump_limit]. *)
Definition pump_bounded (limit : nat) (now : Z) (p : Player) : Result unit * Player :=
  let p := set_last_now now p in
  if active p then
    let failed_before := bool_decide (is_Some (failure_ p)) in
    let p := pump_loop limit now p in
    let p := if decide (state_ p = PlayState.Playing ∧ frontier_ p = [])
             then set_state PlayState.Done p else p in
    let p := report_run p in
    (match failure_ p with
     | Some error => if failed_before then Ok tt else Err error
     | None => Ok tt
     end, p)
  else (Ok tt, p).

Definition pump (now : Z) (p : Player) : Result unit * Player :=
  pump_bounded (pump_limit p) now p.

(** ** Queries *)

Definition status_of (p : Player) (k : StepId) : StepStatus :=
  if is_nil k then StepStatus.Pending
  else default StepStatus.Pending (status_ p !! index_of k).

(** One frontier member's wake-up time. *)
Definition deadline_of (p : Player) (k : StepId) : option Z :=
  match status_ p !! index_of k with
  | Some StepStatus.Ready =>
    if decide (state_ p = PlayState.Playing)
    then Some (run_ready_at (run_at p (index_of k))) else None
  | Some StepStatus.Running =>
    match find (program_ p) k with
    | None => None
    | Some step =>
      match runner_next_tick (runner_ p) step with
      | Some due => Some due
      | None => Some (last_now_ p)
      end
    end
  | _ => None
  end.

Definition earlier (best : option Z) (candidate : option Z) : option Z :=
  match candidate, best with
  | Some c, Some b => if decide (c < b) then Some c else Some b
  | Some c, None => Some c
  | None, _ => best
  end.

Definition next_deadline (p : Player) : option Z :=
  if active p then foldl (λ best k, earlier best (deadline_of p k)) None (frontier_ p)
  else None.

Definition ready_at (p : Player) (k : StepId) : option Z :=
  match runs_ p !! index_of k with
  | None => None
  | Some run =>
    if status_is p (index_of k) StepStatus.Pending then None else Some (run_ready_at run)
  end.

Definition entered_at (p : Player) (k : StepId) : option Z :=
  match runs_ p !! index_of k with
  | None => None
  | Some run => if run_entered run then Some (run_entered_at run) else None
  end.

Definition finished_at (p : Player) (k : StepId) : option Z :=
  match runs_ p !! index_of k with
  | None => None
  | Some run => if is_terminal p k then Some (run_finished_at run) else None
  end.

Definition elapsed (p : Player) : Z :=
  if negb (anything_entered_ p) || bool_decide (last_finish_ p < first_entry_ p) then 0
  else last_finish_ p - first_entry_ p.

Definition timing_of (p : Player) (k : StepId) : StepTiming :=
  match runs_ p !! index_of k with
  | None => MkTiming None 0 None
  | Some run => MkTiming (run_declared run) (run_call_duration run) None
  end.

Definition overrun_of (p : Player) (k : StepId) : Z :=
  match runs_ p !! index_of k with
  | None => 0
  | Some run =>
    match run_declared run with
    | None => 0
    | Some declared =>
      if decide (run_call_duration run <= declared) then 0
      else run_call_duration run - declared
    end
  end.

(** ** Runs *)

(** What a caller can ask of a player. *)
Inductive PlayerOp :=
  | OpPlay
  | OpPause
  | OpInterrupt
  | OpSkip
  | OpGotoStep (target : StepId)
  | OpGotoLabel (text : string)
  | OpPump (now : Z).

Definition player_step (op : PlayerOp) (p : Player) : Result unit * Player :=
  match op with
  | OpPlay => play p
  | OpPause => pause p
  | OpInterrupt => interrupt p
  | OpSkip => skip p
  | OpGotoStep target => goto_step target p
  | OpGotoLabel text => goto_label text p
  | OpPump now => pump now p
  end.

Definition player_run (ops : list PlayerOp) (p : Player) : Player :=
  foldl (λ p op, (player_step op p).2) p ops.

End player.

Arguments Player R : clear implicits.
