(* ===== verification/PlayerInv.v ===== *)
(** The invariant of a run: how statuses, run records, the frontier, the entry
    order and the history of runner calls agree, and that every operation of
    [Player] preserves it. *)

From S2P Require Import Prelude Graph Errors StepTypes Command Sequence Identity Player.

(** ** The runner's protocol, read off a history of calls (newest first) *)

(** [k] has been entered and not exited since. *)
Fixpoint opened (h : list Call) (k : StepId) : bool :=
  match h with
  | [] => false
  | CallEnter k' _ :: h => if decide (k = k') then true else opened h k
  | CallExit k' _ :: h => if decide (k = k') then false else opened h k
  | _ :: h => opened h k
  end.

(** What the runner may rely on: a step is entered only when closed, ticked,
    joined and exited only when open, and its holds are reaped only after it was
    entered and exited. *)
Definition call_allowed (h : list Call) (c : Call) : Prop :=
  match c with
  | CallEnter k _ => opened h k = false
  | CallTick k _ | CallExit k _ | CallJoin k => opened h k = true
  | CallReleaseHolds k => opened h k = false ∧ ∃ now, CallEnter k now ∈ h
  end.

Fixpoint protocol (h : list Call) : Prop :=
  match h with
  | [] => True
  | c :: h => call_allowed h c ∧ protocol h
  end.

(** The body of a step is running as far as its record says. *)
Definition run_open (r : StepRun) : bool := run_entered r && negb (run_exited r).

(** A step's record fits its status. *)
Definition step_ok (s : StepStatus) (r : StepRun) : Prop :=
  (run_retries r <= maxRetriesPerStep)%nat ∧
  match s with
  | StepStatus.Pending | StepStatus.Ready => run_entered r = false ∧ run_retries r = 0%nat
  | StepStatus.Running => run_entered r = true ∧ run_exited r = false
  | StepStatus.Succeeded | StepStatus.Failed => run_entered r = true ∧ run_exited r = true
  | StepStatus.Skipped => run_entered r = true → run_exited r = true
  | StepStatus.Count => False
  end.

(** In the frontier: [Ready] or [Running]. *)
Definition live (s : StepStatus) : bool :=
  match s with StepStatus.Ready | StepStatus.Running => true | _ => false end.

Definition steps_of {R} (p : Player R) : list Step := steps_ (program_ p).

Record Core {R} (p : Player R) : Prop := {
  core_prog : WFSeq (program_ p);
  core_status : length (status_ p) = length (steps_of p);
  core_runs : length (runs_ p) = length (steps_of p);
  core_step : ∀ i s r, status_ p !! i = Some s → runs_ p !! i = Some r → step_ok s r;
  core_entry_NoDup : NoDup (entry_order_ p);
  core_entry : ∀ k, k ∈ entry_order_ p ↔
    ∃ i r, k = positional i ∧ runs_ p !! i = Some r ∧ run_entered r = true;
  core_protocol : protocol (history_ p);
  core_opened : ∀ i r, runs_ p !! i = Some r → opened (history_ p) (positional i) = run_open r;
  core_called : ∀ i r, runs_ p !! i = Some r → run_entered r = true →
    ∃ now, CallEnter (positional i) now ∈ history_ p
}.

(** Only a step whose predecessors are all terminal leaves [Pending]. *)
Definition Closed {R} (p : Player R) : Prop :=
  ∀ j i s, status_ p !! i = Some s → s ≠ StepStatus.Pending →
    depends (steps_of p) j i → ∃ s', status_ p !! j = Some s' ∧ terminal_status s' = true.

(** [F] lists the live steps, each once. *)
Definition Front {R} (F : list StepId) (p : Player R) : Prop :=
  NoDup F ∧ ∀ k, k ∈ F ↔ ∃ i s, k = positional i ∧ status_ p !! i = Some s ∧ live s = true.

(** The data members no transition assigns. *)
Definition same_program {R} (p p' : Player R) : Prop :=
  program_ p' = program_ p ∧ successor_offsets_ p' = successor_offsets_ p ∧
  successors_ p' = successors_ p.

(** Terminal steps stay as they are. *)
Definition advances {R} (p p' : Player R) : Prop :=
  ∀ i s, status_ p !! i = Some s → terminal_status s = true → status_ p' !! i = Some s.

Lemma same_program_trans {R} (p q r : Player R) :
  same_program p q → same_program q r → same_program p r.
Proof. unfold same_program. intros (-> & -> & ->) (-> & -> & ->). done. Qed.

Lemma advances_trans {R} (p q r : Player R) : advances p q → advances q r → advances p r.
Proof. unfold advances. eauto. Qed.

(** ** The effect of one step's transition *)

Section core.
Context {R : Type} {RC : CommandRunner R}.
Implicit Types (p : Player R) (i j : nat) (s : StepStatus) (r : StepRun).

Lemma core_lookup p i : Core p → (i < length (steps_of p))%nat →
  ∃ st s r, steps_of p !! i = Some st ∧ status_ p !! i = Some s ∧ runs_ p !! i = Some r ∧
    id st = positional i ∧ index_of (positional i) = i ∧
    find (program_ p) (positional i) = Some st.
Proof.
  intros Hc Hi. pose proof (core_prog p Hc) as Hs.
  destruct (lookup_lt_is_Some_2 (steps_of p) i Hi) as [st Hst].
  destruct (lookup_lt_is_Some_2 (status_ p) i) as [s Hs'].
  { by rewrite (core_status p Hc). }
  destruct (lookup_lt_is_Some_2 (runs_ p) i) as [r Hr].
  { by rewrite (core_runs p Hc). }
  exists st, s, r. split_and!; [done..| | |].
  - by eapply wfs_id.
  - by eapply wfs_index.
  - by apply find_positional.
Qed.

Lemma core_status_lt p i s : Core p → status_ p !! i = Some s → (i < length (steps_of p))%nat.
Proof. intros Hc Hi%lookup_lt_Some. by rewrite (core_status p Hc) in Hi. Qed.

Lemma core_inj p i j : Core p → (i < length (steps_of p))%nat → (j < length (steps_of p))%nat →
  positional i = positional j → i = j.
Proof.
  intros Hc Hi Hj. pose proof (wfs_size _ (core_prog p Hc)). unfold steps_of in *.
  apply positional_inj; lia.
Qed.

(** How one transition of step [i] may extend the history. *)
Record history_step (i : nat) (h h' : list Call) (before after_ : bool) : Prop := {
  hs_protocol : protocol h → opened h (positional i) = before → protocol h';
  hs_opened : opened h (positional i) = before → opened h' (positional i) = after_;
  hs_other : ∀ k, k ≠ positional i → opened h' k = opened h k;
  hs_incl : ∀ c, c ∈ h → c ∈ h'
}.

Lemma history_same i h b : history_step i h h b b.
Proof. by split. Qed.

Lemma history_trans i h h' h'' a b c :
  history_step i h h' a b → history_step i h' h'' b c → history_step i h h'' a c.
Proof.
  intros [P1 O1 Q1 I1] [P2 O2 Q2 I2]. split; [naive_solver..| |naive_solver].
  intros k Hk. by rewrite Q2, Q1.
Qed.

Lemma history_enter i h now : history_step i h (CallEnter (positional i) now :: h) false true.
Proof.
  split; cbn; [tauto| | |by right].
  - intros _. by rewrite decide_True.
  - intros k Hk. by rewrite decide_False.
Qed.

Lemma history_exit i h now : history_step i h (CallExit (positional i) now :: h) true false.
Proof.
  split; cbn; [tauto| | |by right].
  - intros _. by rewrite decide_True.
  - intros k Hk. by rewrite decide_False.
Qed.

Lemma history_tick i h now : history_step i h (CallTick (positional i) now :: h) true true.
Proof. split; cbn; [tauto|done|done|by right]. Qed.

Lemma history_join i h : history_step i h (CallJoin (positional i) :: h) true true.
Proof. split; cbn; [tauto|done|done|by right]. Qed.

(** A transition of step [i] alone preserves the core invariant when the step's
    new status and record fit each other and the history. *)
Lemma core_update p p' i s r s' r' :
  Core p → status_ p !! i = Some s → runs_ p !! i = Some r →
  same_program p p' →
  agree_off i (status_ p) (status_ p') → agree_off i (runs_ p) (runs_ p') →
  status_ p' !! i = Some s' → runs_ p' !! i = Some r' →
  entry_order_ p' = entry_order_ p → run_entered r' = run_entered r →
  step_ok s' r' →
  history_step i (history_ p) (history_ p') (run_open r) (run_open r') →
  Core p'.
Proof.
  intros Hc Hs Hr (Hp & _ & _) [Hls Hos] [Hlr Hor] Hs' Hr' He Hent Hok Hh.
  pose proof (core_status_lt p i s Hc Hs) as Hi.
  unfold steps_of in *. split; unfold steps_of; rewrite ?Hp, ?He.
  - apply Hc.
  - by rewrite Hls, (core_status p Hc).
  - by rewrite Hlr, (core_runs p Hc).
  - intros j sj rj. destruct (decide (j = i)) as [->|Hne].
    + congruence.
    + rewrite Hos, Hor by done. apply (core_step p Hc).
  - apply Hc.
  - intros k. rewrite (core_entry p Hc). split; intros (j & rj & -> & Hj & E);
      (destruct (decide (j = i)) as [->|Hne];
       [exists i; eexists; split_and!; [done|done|congruence]|]); exists j, rj.
    + by rewrite Hor.
    + by rewrite Hor in Hj.
  - apply Hh; [apply Hc|]. by apply (core_opened p Hc).
  - intros j rj Hj. destruct (decide (j = i)) as [->|Hne].
    + rewrite (hs_opened _ _ _ _ _ Hh); [congruence|]. by apply (core_opened p Hc).
    + rewrite Hor in Hj by done. rewrite (hs_other _ _ _ _ _ Hh).
      * by apply (core_opened p Hc).
      * intros E. apply Hne. eapply (core_inj p); [done| |done|done].
        apply lookup_lt_Some in Hj. by rewrite (core_runs p Hc) in Hj.
  - intros j rj Hj E. assert (∃ now, CallEnter (positional j) now ∈ history_ p) as [t Ht].
    { destruct (decide (j = i)) as [->|Hne].
      - apply (core_called p Hc i r); [done|congruence].
      - rewrite Hor in Hj by done. by eapply (core_called p Hc). }
    exists t. by apply (hs_incl _ _ _ _ _ Hh).
Qed.

(** The same for [Closed]: a step leaves [Pending] only over terminal
    predecessors, and a terminal step stays terminal. *)
Lemma closed_update p p' i s s' :
  Closed p → status_ p !! i = Some s → same_program p p' →
  agree_off i (status_ p) (status_ p') → status_ p' !! i = Some s' →
  (terminal_status s = true → terminal_status s' = true) →
  (s' ≠ StepStatus.Pending → s ≠ StepStatus.Pending ∨
    ∀ j, depends (steps_of p) j i →
      ∃ t, status_ p !! j = Some t ∧ terminal_status t = true) →
  Closed p'.
Proof.
  intros Hc Hs (Hp & _ & _) [_ Ho] Hs' Ht Hpend j k t Hk Hne Hd.
  unfold steps_of in Hd. rewrite Hp in Hd. fold (steps_of p) in Hd.
  assert (∃ t, status_ p !! j = Some t ∧ terminal_status t = true) as (tj & Htj & Hterm).
  { destruct (decide (k = i)) as [->|Hki].
    - assert (t = s') as -> by congruence. destruct (Hpend Hne) as [Hsp|Hall]; [|by apply Hall].
      by eapply Hc.
    - rewrite Ho in Hk by done. by eapply Hc. }
  destruct (decide (j = i)) as [->|Hji].
  - exists s'. split; [done|]. apply Ht. congruence.
  - exists tj. by rewrite Ho.
Qed.

(** The frontier after one step's transition. *)
Lemma front_update F F' p p' i s' :
  Core p → Front F p → agree_off i (status_ p) (status_ p') → status_ p' !! i = Some s' →
  (i < length (steps_of p))%nat → NoDup F' →
  (∀ k, k ∈ F' ↔ (k ∈ F ∧ k ≠ positional i) ∨ (k = positional i ∧ live s' = true)) →
  Front F' p'.
Proof.
  intros Hc [_ HF] [_ Ho] Hs' Hi Hnd HF'. split; [done|]. intros k. rewrite HF', HF. split.
  - intros [[(j & s & -> & Hj & Hl) Hne]|[-> Hl]]; [|by exists i, s'].
    exists j, s. rewrite Ho by congruence. done.
  - intros (j & s & -> & Hj & Hl). destruct (decide (j = i)) as [->|Hne].
    + right. split; [done|congruence].
    + left. rewrite Ho in Hj by done. split; [by exists j, s|]. intros E. apply Hne.
      eapply (core_inj p); [done| |done|done]. by eapply core_status_lt.
Qed.

Lemma advances_update p p' i s :
  status_ p !! i = Some s → agree_off i (status_ p) (status_ p') →
  (terminal_status s = true → status_ p' !! i = Some s) → advances p p'.
Proof.
  intros Hs [_ Ho] Ht j t Hj Hterm. destruct (decide (j = i)) as [->|Hne].
  - assert (t = s) as -> by congruence. auto.
  - by rewrite Ho.
Qed.

End core.

#[export] Hint Resolve agree_off_refl agree_off_insert agree_off_alter : player.

(** ** Transitions of one step *)

(** [p'] is [p] after step [i] went from status [s] and record [r] to [s'] and
    [r'], with the calls the history shows and nothing else of the run touched
    but the frontier, the verdict and the clocks. *)
Record touches {R} (i : nat) (p p' : Player R) (s s' : StepStatus) (r r' : StepRun) : Prop := {
  to_before_status : status_ p !! i = Some s;
  to_before_run : runs_ p !! i = Some r;
  to_program : same_program p p';
  to_statuses : agree_off i (status_ p) (status_ p');
  to_runs : agree_off i (runs_ p) (runs_ p');
  to_status : status_ p' !! i = Some s';
  to_run : runs_ p' !! i = Some r';
  to_entry_order : entry_order_ p' = entry_order_ p;
  to_entered : run_entered r' = run_entered r;
  to_history : history_step i (history_ p) (history_ p') (run_open r) (run_open r');
  to_state : state_ p' = state_ p;
  to_failure : failure_ p' = failure_ p;
  to_last_now : last_now_ p' = last_now_ p
}.

Section touches.
Context {R : Type} {RC : CommandRunner R}.
Implicit Types (p : Player R) (i j : nat) (s : StepStatus) (r : StepRun) (F : list StepId).

Lemma touches_refl i p s r :
  status_ p !! i = Some s → runs_ p !! i = Some r → touches i p p s s r r.
Proof. intros. split; try done; apply history_same. Qed.

Lemma touches_trans i p p' p'' s s' s'' r r' r'' :
  touches i p p' s s' r r' → touches i p' p'' s' s'' r' r'' → touches i p p'' s s'' r r''.
Proof.
  intros T1 T2.
  destruct (to_statuses _ _ _ _ _ _ _ T1) as [L1 A1], (to_statuses _ _ _ _ _ _ _ T2) as [L2 A2].
  destruct (to_runs _ _ _ _ _ _ _ T1) as [L3 A3], (to_runs _ _ _ _ _ _ _ T2) as [L4 A4].
  split; try apply T1; try apply T2.
  - eapply same_program_trans; [apply T1|apply T2].
  - split; [congruence|]. intros j Hj. by rewrite A2, A1.
  - split; [congruence|]. intros j Hj. by rewrite A4, A3.
  - by rewrite (to_entry_order _ _ _ _ _ _ _ T2), (to_entry_order _ _ _ _ _ _ _ T1).
  - by rewrite (to_entered _ _ _ _ _ _ _ T2), (to_entered _ _ _ _ _ _ _ T1).
  - eapply history_trans; [apply T1|apply T2].
  - by rewrite (to_state _ _ _ _ _ _ _ T2), (to_state _ _ _ _ _ _ _ T1).
  - by rewrite (to_failure _ _ _ _ _ _ _ T2), (to_failure _ _ _ _ _ _ _ T1).
  - by rewrite (to_last_now _ _ _ _ _ _ _ T2), (to_last_now _ _ _ _ _ _ _ T1).
Qed.

(** The frontier, the verdict, the clocks and the flags are outside [touches]. *)
Lemma touches_frontier i p s r F :
  status_ p !! i = Some s → runs_ p !! i = Some r → touches i p (set_frontier F p) s s r r.
Proof. intros. split; try done; apply history_same. Qed.

Lemma touches_last_finish i p s r t :
  status_ p !! i = Some s → runs_ p !! i = Some r → touches i p (set_last_finish t p) s s r r.
Proof. intros. split; try done; apply history_same. Qed.

Lemma touches_neutralization i p s r v :
  status_ p !! i = Some s → runs_ p !! i = Some r → touches i p (set_neutralization v p) s s r r.
Proof. intros. split; try done; apply history_same. Qed.

Lemma touches_status i k p s s' r :
  index_of k = i → status_ p !! i = Some s → runs_ p !! i = Some r →
  touches i p (set_status k s' p) s s' r r.
Proof.
  intros <- Hs Hr. split; try done; cbn; auto with player.
  apply list_lookup_insert_eq. by eapply lookup_lt_Some.
Qed.

Lemma touches_modify i p s r f :
  status_ p !! i = Some s → runs_ p !! i = Some r →
  run_entered (f r) = run_entered r → run_exited (f r) = run_exited r →
  touches i p (modify_run i f p) s s r (f r).
Proof.
  intros Hs Hr He Hx. split; try done; cbn; auto with player.
  - by rewrite list_lookup_alter_eq, Hr.
  - unfold run_open. rewrite He, Hx. apply history_same.
Qed.

Lemma touches_admit i k p s r t :
  index_of k = i → status_ p !! i = Some s → runs_ p !! i = Some r →
  touches i p (admit_to_frontier k t p) s s r (run_set_ready_at t r).
Proof.
  intros <- Hs Hr. split; try done; cbn; auto with player;
    by rewrite list_lookup_alter_eq, Hr.
Qed.

(** The runner calls: ticking, exiting for good, and re-entering. *)
Lemma touches_tick i p s r st now :
  status_ p !! i = Some s → runs_ p !! i = Some r → id st = positional i → run_open r = true →
  touches i p (call_tick p st now).2 s s r r.
Proof.
  intros Hs Hr Hid Ho. unfold call_tick. destruct (runner_tick _ _ _).
  split; try done. cbn. rewrite Hid, Ho. apply history_tick.
Qed.

Lemma touches_join i p s r st :
  status_ p !! i = Some s → runs_ p !! i = Some r → id st = positional i → run_open r = true →
  touches i p (call_join p st) s s r r.
Proof.
  intros Hs Hr Hid Ho. unfold call_join. split; try done. cbn. rewrite Hid, Ho.
  apply history_join.
Qed.

Lemma touches_exit i p s r st now :
  status_ p !! i = Some s → runs_ p !! i = Some r → id st = positional i → run_open r = true →
  touches i p (modify_run i (run_set_exited true) (call_exit p st now).2) s s r
    (run_set_exited true r).
Proof.
  intros Hs Hr Hid Ho. unfold call_exit. destruct (runner_exit _ _ _).
  split; try done; cbn; auto with player.
  - by rewrite list_lookup_alter_eq, Hr.
  - rewrite Hid, Ho. unfold run_open. cbn. rewrite andb_false_r. apply history_exit.
Qed.

Lemma touches_reenter i p s r st now :
  status_ p !! i = Some s → runs_ p !! i = Some r → id st = positional i →
  run_entered r = true → run_exited r = true →
  touches i p (call_enter (modify_run i (run_reopen now) p) st now).2 s s r (run_reopen now r).
Proof.
  intros Hs Hr Hid He Hx. unfold call_enter. destruct (runner_enter _ _ _).
  split; try done; cbn; auto with player.
  - by rewrite list_lookup_alter_eq, Hr.
  - rewrite Hid. unfold run_open. cbn. rewrite He, Hx. apply history_enter.
Qed.

Lemma touches_neutralize i p s r st now :
  index_of (positional i) = i → find (program_ p) (positional i) = Some st →
  id st = positional i →
  status_ p !! i = Some s → runs_ p !! i = Some r → run_open r = true →
  touches i p (neutralize (positional i) now p).2 s s r (run_set_exited true r) ∧
  frontier_ (neutralize (positional i) now p).2 = frontier_ p.
Proof.
  intros Hk Hf Hid Hs Hr Ho. unfold neutralize. rewrite Hk, Hr, Hf.
  pose proof Ho as Ho'. unfold run_open in Ho'. apply andb_true_iff in Ho' as [He Hx].
  rewrite negb_true_iff in Hx. rewrite He, Hx. cbn [negb orb].
  set (p1 := if is_blocking_command _ then _ else _).
  assert (touches i p p1 s s r r ∧ frontier_ p1 = frontier_ p) as [T1 HF1].
  { unfold p1. destruct (is_blocking_command _); [split; [by apply touches_join|done]|].
    split; [by apply touches_refl|done]. }
  pose proof (touches_exit i p1 s r st now (to_status _ _ _ _ _ _ _ T1)
    (to_run _ _ _ _ _ _ _ T1) Hid Ho) as T2.
  assert (frontier_ (call_exit p1 st now).2 = frontier_ p1) as HF2.
  { unfold call_exit. by destruct (runner_exit _ _ _). }
  destruct (call_exit p1 st now) as [o p2]. cbn [snd] in *. cbn.
  split; [|by rewrite HF2, HF1]. eapply touches_trans; [exact T1|].
  eapply touches_trans; [exact T2|].
  apply touches_neutralization; apply T2.
Qed.

(** [exit_open] closes the step whatever its record says. *)
Lemma touches_exit_open i p s r st now :
  index_of (positional i) = i → find (program_ p) (positional i) = Some st →
  id st = positional i →
  status_ p !! i = Some s → runs_ p !! i = Some r →
  ∃ r', touches i p (exit_open now (positional i) p) s s r r' ∧
    run_open r' = false ∧ run_retries r' = run_retries r ∧
    frontier_ (exit_open now (positional i) p) = frontier_ p.
Proof.
  intros Hk Hf Hid Hs Hr. unfold exit_open, run_at. rewrite Hk, Hr. cbn.
  fold (run_open r). destruct (run_open r) eqn:Ho; [|exists r; eauto using touches_refl].
  set (p1 := modify_run i (run_set_duration now) p).
  assert (touches i p p1 s s r (run_set_duration now r)) as T1 by by apply touches_modify.
  destruct (touches_neutralize i p1 s (run_set_duration now r) st now) as [T2 HF]; try done;
    [apply T1..|].
  eexists. split_and!; [by eapply touches_trans|by unfold run_open; cbn; rewrite andb_false_r|done|].
  by rewrite HF.
Qed.

Lemma touches_skip i p s r st now :
  index_of (positional i) = i → find (program_ p) (positional i) = Some st →
  id st = positional i → step_ok s r →
  status_ p !! i = Some s → runs_ p !! i = Some r →
  ∃ r', touches i p (skip_step now (positional i) (exit_open now (positional i) p))
          s StepStatus.Skipped r r' ∧
    step_ok StepStatus.Skipped r' ∧
    frontier_ (skip_step now (positional i) (exit_open now (positional i) p)) = frontier_ p.
Proof.
  intros Hk Hf Hid [Hret _] Hs Hr.
  destruct (touches_exit_open i p s r st now Hk Hf Hid Hs Hr) as (r' & T & Ho & Hret' & HF).
  unfold skip_step. rewrite Hk. eexists. split_and!.
  - eapply touches_trans; [exact T|]. eapply touches_trans.
    + apply touches_status; [done|apply T..].
    + apply touches_modify; [|apply T|done|done]. cbn. rewrite Hk. apply list_lookup_insert_eq.
      eapply lookup_lt_Some, T.
  - split; [cbn; lia|]. cbn. unfold run_open in Ho. intros E. rewrite E in Ho. cbn in Ho.
    by apply negb_false_iff in Ho.
  - done.
Qed.

(** ** Consequences of a transition *)

Definition Good F p : Prop := Core p ∧ Closed p ∧ Front F p.

Lemma touch_core i p p' s s' r r' :
  Core p → touches i p p' s s' r r' → step_ok s' r' → Core p'.
Proof. intros Hc T Hok. by eapply core_update; try apply T. Qed.

Lemma touch_closed i p p' s s' r r' :
  Closed p → touches i p p' s s' r r' →
  (terminal_status s = true → terminal_status s' = true) →
  (s' ≠ StepStatus.Pending → s ≠ StepStatus.Pending) → Closed p'.
Proof. intros Hc T Ht Hp. eapply closed_update; try apply T; eauto. Qed.

Lemma touch_front i p p' s s' r r' F F' :
  Core p → Front F p → touches i p p' s s' r r' → NoDup F' →
  (∀ k, k ∈ F' ↔ (k ∈ F ∧ k ≠ positional i) ∨ (k = positional i ∧ live s' = true)) →
  Front F' p'.
Proof.
  intros Hc HF T Hnd HF'. eapply front_update; try apply T; try done.
  eapply core_status_lt; [done|apply T].
Qed.

Lemma touch_advances i p p' s s' r r' :
  touches i p p' s s' r r' → (terminal_status s = true → s' = s) → advances p p'.
Proof.
  intros T Ht. eapply advances_update; try apply T. intros E. rewrite (to_status _ _ _ _ _ _ _ T).
  by rewrite (Ht E).
Qed.

Lemma elem_of_erase_first k l x : NoDup l → x ∈ erase_first k l ↔ x ∈ l ∧ x ≠ k.
Proof.
  induction l as [|y l IH]; intros Hnd; cbn; [rewrite elem_of_nil; tauto|].
  apply NoDup_cons in Hnd as [Hy Hnd]. case_decide as E; rewrite ?elem_of_cons.
  - subst. naive_solver.
  - rewrite IH by done. naive_solver.
Qed.

Lemma erase_first_NoDup k l : NoDup l → NoDup (erase_first k l).
Proof.
  induction l as [|y l IH]; intros Hnd; cbn; [done|].
  pose proof Hnd as [Hy Hnd']%NoDup_cons. case_decide; [done|].
  apply NoDup_cons. split; [|by apply IH]. rewrite elem_of_erase_first by done. tauto.
Qed.

(** A transition to a terminal status takes the step out of the frontier. *)
Lemma touch_retire i p p' s s' r r' F :
  Good F p → touches i p p' s s' r r' → terminal_status s' = true → step_ok s' r' →
  s ≠ StepStatus.Pending → (terminal_status s = true → s' = s) →
  Good (erase_first (positional i) F) p' ∧ advances p p'.
Proof.
  intros (Hc & Hcl & HF) T Hterm Hok Hnp Hsame. split; [|by eapply touch_advances].
  split_and!.
  - by eapply touch_core.
  - by eapply touch_closed.
  - eapply touch_front; [done|done|exact T|by apply erase_first_NoDup, HF|].
    intros k. rewrite elem_of_erase_first by apply HF.
    assert (live s' = false) as -> by by destruct s'. naive_solver.
Qed.

End touches.

(** How much a step can still do within one pump: a step not entered yet will
    complete, and may be retried once before that. *)
Definition phi (s : StepStatus) (r : StepRun) : nat :=
  match s with
  | StepStatus.Pending | StepStatus.Ready => 2
  | StepStatus.Running => 2 - run_retries r
  | _ => 0
  end.

Definition phi_at {R} (p : Player R) (i : nat) : nat :=
  match status_ p !! i, runs_ p !! i with
  | Some s, Some r => phi s r
  | _, _ => 0
  end.

(** ** Moves: what every operation of a run guarantees *)

Record moves {R} (p p' : Player R) : Prop := {
  mv_program : same_program p p';
  mv_advances : advances p p';
  mv_last_now : last_now_ p' = last_now_ p;
  mv_state : state_ p' = state_ p;
  mv_failure : failure_ p' = failure_ p;
  mv_phi : ∀ i, (phi_at p' i <= phi_at p i)%nat
}.

Lemma moves_refl {R} (p : Player R) : moves p p.
Proof. split; try done. by intros i s. Qed.

Lemma moves_trans {R} (p q r : Player R) : moves p q → moves q r → moves p r.
Proof.
  intros [? ? ? ? ? H1] [? ? ? ? ? H2].
  split; [by eapply same_program_trans|by eapply advances_trans|congruence..|].
  intros i. specialize (H1 i). specialize (H2 i). lia.
Qed.

#[export] Hint Resolve moves_refl moves_trans : player.

Section moves.
Context {R : Type} {RC : CommandRunner R}.
Implicit Types (p q : Player R) (i j : nat) (s : StepStatus) (r : StepRun) (F : list StepId).

Lemma touch_phi i p p' s s' r r' : touches i p p' s s' r r' → phi_at p' i = phi s' r'.
Proof. intros T. unfold phi_at. by rewrite (to_status _ _ _ _ _ _ _ T), (to_run _ _ _ _ _ _ _ T). Qed.

Lemma touch_phi_before i p p' s s' r r' : touches i p p' s s' r r' → phi_at p i = phi s r.
Proof.
  intros T. unfold phi_at.
  by rewrite (to_before_status _ _ _ _ _ _ _ T), (to_before_run _ _ _ _ _ _ _ T).
Qed.

Lemma touch_phi_other i p p' s s' r r' j :
  touches i p p' s s' r r' → j ≠ i → phi_at p' j = phi_at p j.
Proof.
  intros T Hne. unfold phi_at.
  destruct (to_statuses _ _ _ _ _ _ _ T) as [_ Hs], (to_runs _ _ _ _ _ _ _ T) as [_ Hr].
  by rewrite Hs, Hr.
Qed.

Lemma touch_moves i p p' s s' r r' :
  touches i p p' s s' r r' → (terminal_status s = true → s' = s) →
  (phi s' r' <= phi s r)%nat → moves p p'.
Proof.
  intros T Ht Hphi. pose proof (touch_advances _ _ _ _ _ _ _ T Ht). split; try done; try apply T.
  intros j. destruct (decide (j = i)) as [->|Hne].
  - by rewrite (touch_phi _ _ _ _ _ _ _ T), (touch_phi_before _ _ _ _ _ _ _ T).
  - by rewrite (touch_phi_other _ _ _ _ _ _ _ j T).
Qed.

(** ** Admission *)

Lemma is_terminal_true p j : index_of (positional j) = j →
  is_terminal p (positional j) = true ↔
  ∃ s, status_ p !! j = Some s ∧ terminal_status s = true.
Proof.
  intros Hj. unfold is_terminal. rewrite Hj.
  destruct (status_ p !! j); cbn; naive_solver.
Qed.

Lemma eligibility_Some p l e :
  is_Some (eligibility p l e) ↔ ∀ k, k ∈ l → is_terminal p k = true.
Proof.
  revert e. induction l as [|k l IH]; intros e; cbn.
  - split; [intros _ k []%elem_of_nil|eauto].
  - setoid_rewrite elem_of_cons. destruct (is_terminal p k) eqn:E; [rewrite IH; naive_solver|].
    split; [by intros []|]. intros H. by rewrite (H k (or_introl eq_refl)) in E.
Qed.

Lemma index_of_positional p i : Core p → (i < length (steps_of p))%nat →
  index_of (positional i) = i.
Proof. intros Hc Hi. by destruct (core_lookup p i Hc Hi) as (? & ? & ? & _ & _ & _ & _ & ? & _). Qed.

(** Every predecessor of step [i] is terminal. *)
Definition ready p i : Prop :=
  ∀ j, depends (steps_of p) j i → ∃ s, status_ p !! j = Some s ∧ terminal_status s = true.

Lemma eligibility_ready p i st : Core p → steps_of p !! i = Some st →
  is_Some (eligibility p (after st) 0) ↔ ready p i.
Proof.
  intros Hc Hst. rewrite eligibility_Some. split.
  - intros H j (st' & Hst' & Hin & Hj). assert (st' = st) as -> by congruence.
    apply is_terminal_true; [by eapply index_of_positional|]. by apply H.
  - intros H k Hk. destruct (wfs_after _ (core_prog p Hc) i st k Hst Hk) as (j & Hj & -> & _).
    apply is_terminal_true; [by eapply index_of_positional|]. apply H. by exists st.
Qed.

(** Admitting a pending step whose predecessors are terminal. *)
Lemma admit_good p i t :
  Good (frontier_ p) p → status_ p !! i = Some StepStatus.Pending → ready p i →
  let p' := admit_to_frontier (positional i) t (set_status (positional i) StepStatus.Ready p) in
  Good (frontier_ p') p' ∧ moves p p' ∧ frontier_ p' = frontier_ p ++ [positional i] ∧
  status_ p' = <[i := StepStatus.Ready]> (status_ p) ∧ history_ p' = history_ p ∧
  entry_order_ p' = entry_order_ p.
Proof.
  intros (Hc & Hcl & HF) Hs Hready p'. pose proof (core_status_lt _ _ _ Hc Hs) as Hi.
  destruct (core_lookup p i Hc Hi) as (st & s & r & Hst & Hs' & Hr & Hid & Hk & Hf).
  assert (s = StepStatus.Pending) as -> by congruence.
  assert (touches i p p' StepStatus.Pending StepStatus.Ready r (run_set_ready_at t r)) as T.
  { eapply touches_trans; [by apply (touches_status i (positional i))|].
    apply touches_admit; [done| |done].
    cbn. rewrite Hk. apply list_lookup_insert_eq. by eapply lookup_lt_Some. }
  pose proof (core_step p Hc i _ _ Hs Hr) as [Hret [He Hre]].
  assert (step_ok StepStatus.Ready (run_set_ready_at t r)) as Hok by by split.
  assert (positional i ∉ frontier_ p) as Hnew.
  { intros Hin. apply HF in Hin as (j & sj & E & Hj & Hl).
    apply (core_inj p) in E as <-; [by rewrite Hs in Hj; injection Hj as <-|done..|by eapply core_status_lt]. }
  split; [|split; [by eapply touch_moves; [exact T|..]|]]; cbn; rewrite ?Hk; [|done].
  split_and!; [by eapply touch_core| |].
  - eapply closed_update; [done|exact Hs|apply T..|done|]. intros _. by right.
  - eapply touch_front; [done|done|exact T| |].
    + apply NoDup_app. split_and!; [apply HF| |apply NoDup_singleton].
      by intros x Hx ->%list_elem_of_singleton.
    + intros k. rewrite elem_of_app, list_elem_of_singleton. naive_solver congruence.
Qed.

Lemma admit_successor_good p k :
  Good (frontier_ p) p →
  Good (frontier_ (admit_successor p k)) (admit_successor p k) ∧ moves p (admit_successor p k) ∧
  history_ (admit_successor p k) = history_ p ∧
  entry_order_ (admit_successor p k) = entry_order_ p.
Proof.
  intros HG. unfold admit_successor.
  destruct (status_is p (index_of k) StepStatus.Pending) eqn:Es; [|eauto using moves_refl].
  destruct (find (program_ p) k) as [st|] eqn:Ef; [|eauto using moves_refl].
  destruct (eligibility p (after st) 0) as [e|] eqn:Ee; [|eauto using moves_refl].
  pose proof HG as (Hc & _ & _).
  apply find_Some in Ef as (i & Hi & ->); [|apply Hc].
  apply bool_decide_eq_true in Es. rewrite (index_of_positional p i Hc) in Es
    by by eapply lookup_lt_Some.
  destruct (admit_good p i (add_grace e (grace_before st (pacing (program_ p)))) HG Es)
    as (? & ? & _ & _ & ? & ?); [|done].
  apply (eligibility_ready p i st Hc Hi). eauto.
Qed.

Lemma admit_successors_good p k :
  Good (frontier_ p) p →
  Good (frontier_ (admit_successors k p)) (admit_successors k p) ∧
  moves p (admit_successors k p) ∧ history_ (admit_successors k p) = history_ p ∧
  entry_order_ (admit_successors k p) = entry_order_ p.
Proof.
  intros HG. unfold admit_successors.
  apply (foldl_inv _ (λ q, Good (frontier_ q) q ∧ moves p q ∧ history_ q = history_ p ∧
    entry_order_ q = entry_order_ p)); [|eauto using moves_refl].
  intros q k' _ (HG' & Hm & Hh & He).
  destruct (admit_successor_good q k' HG') as (? & ? & Hh' & He').
  split_and!; [done|by eapply moves_trans|congruence..].
Qed.

End moves.
