(* ===== verification/PlayerJump.v ===== *)
(** The two walks that end steps early: [unwind], which every abort and interrupt
    takes, and [jump_to], which every goto takes. *)

From S2P Require Import Prelude Graph Errors StepTypes Command Sequence Identity Player.
From S2P Require Import PlayerInv.

(** [q] is [p] with some steps ended: statuses stay, become terminal, or satisfy
    [W]. *)
Record winds {R} (W : nat → StepStatus → Prop) (p q : Player R) : Prop := {
  wd_core : Core q;
  wd_moves : moves p q;
  wd_frontier : frontier_ q = frontier_ p;
  wd_entry_order : entry_order_ q = entry_order_ p;
  wd_status : ∀ i s, status_ q !! i = Some s → status_ p !! i = Some s ∨ W i s
}.

Section winds.
Context {R : Type} {RC : CommandRunner R}.
Implicit Types (p q : Player R) (i j : nat) (s : StepStatus) (r : StepRun) (F : list StepId).
Implicit Types (W : nat → StepStatus → Prop).

Lemma winds_refl W p : Core p → winds W p p.
Proof. intros Hc. split; auto using moves_refl. Qed.

Lemma winds_touch W p q q' i s s' r r' :
  winds W p q → touches i q q' s s' r r' → step_ok s' r' → frontier_ q' = frontier_ q →
  (terminal_status s = true → s' = s) → (phi s' r' <= phi s r)%nat →
  (s' = s ∨ W i s') → winds W p q'.
Proof.
  intros [Hc Hm Hf He Hst] T Hok Hf' Hterm Hphi Hw. split.
  - by eapply touch_core.
  - eapply moves_trans; [done|]. by eapply touch_moves.
  - congruence.
  - by rewrite (to_entry_order _ _ _ _ _ _ _ T).
  - intros j t Hj. destruct (decide (j = i)) as [->|Hne].
    + rewrite (to_status _ _ _ _ _ _ _ T) in Hj. injection Hj as <-.
      destruct Hw as [->|?]; [|by right]. apply Hst, T.
    + apply Hst. destruct (to_statuses _ _ _ _ _ _ _ T) as [_ Ho]. by rewrite <- Ho.
Qed.

Lemma winds_steps W p q : winds W p q → steps_of q = steps_of p.
Proof. intros Hw. destruct (wd_moves _ _ _ Hw) as [[Hp _] _ _ _ _]. unfold steps_of. by rewrite Hp. Qed.

(** ** [unwind] *)

(** Only a step that had left [Pending] is ended. *)
Definition ended p (i : nat) (s : StepStatus) : Prop :=
  terminal_status s = true ∧ ∃ s0, status_ p !! i = Some s0 ∧ s0 ≠ StepStatus.Pending.

Definition not_running q i : Prop := status_ q !! i ≠ Some StepStatus.Running.

Lemma history_reap i (h : list Call) now :
  CallEnter (positional i) now ∈ h →
  history_step i h (CallReleaseHolds (positional i) :: h) false false.
Proof.
  intros Hin. split; cbn; [|done|done|by right]. intros Hp Ho. split; [|done]. split; eauto.
Qed.

Lemma touches_reap q i s r st :
  Core q → find (program_ q) (positional i) = Some st → id st = positional i →
  status_ q !! i = Some s → runs_ q !! i = Some r → run_open r = false → run_entered r = true →
  touches i q (reap_holds (positional i) q).2 s s r r ∧
  frontier_ (reap_holds (positional i) q).2 = frontier_ q.
Proof.
  intros Hc Hf Hid Hs Hr Ho He. unfold reap_holds. rewrite Hf.
  unfold call_release_holds. destruct (runner_release_holds _ _) as [o rn]. cbn.
  split; [|done]. split; try done; cbn. rewrite Hid, Ho.
  destruct (core_called q Hc i r Hr He) as [t Ht]. by eapply history_reap.
Qed.

Lemma touches_not_running i p q s s' r r' :
  touches i p q s s' r r' → not_running q i → ∀ j, not_running p j → not_running q j.
Proof.
  intros T Hi j Hj. destruct (decide (j = i)) as [->|Hne]; [done|].
  unfold not_running in *. destruct (to_statuses _ _ _ _ _ _ _ T) as [_ Ho]. by rewrite Ho.
Qed.

Lemma unwind_entered_step now p q k :
  k ∈ entry_order_ p → winds (ended p) p q →
  winds (ended p) p (unwind_entered now q k) ∧
  (∀ i, k = positional i → (i < length (steps_of p))%nat → not_running (unwind_entered now q k) i) ∧
  (∀ i, not_running q i → not_running (unwind_entered now q k) i).
Proof.
  intros Hk Hw. pose proof (wd_core _ _ _ Hw) as Hc.
  rewrite <- (wd_entry_order _ _ _ Hw) in Hk. apply (core_entry q Hc) in Hk as (i & r & -> & Hr & He).
  assert (i < length (steps_of q))%nat as Hi by by (apply lookup_lt_Some in Hr; rewrite (core_runs q Hc) in Hr).
  destruct (core_lookup q i Hc Hi) as (st & s & r' & Hst & Hs & Hr' & Hid & Hix & Hf).
  assert (r' = r) as -> by congruence.
  pose proof (core_step q Hc i s r Hs Hr) as Hok.
  assert (∀ j, positional i = positional j → (j < length (steps_of p))%nat → j = i) as Hinj.
  { intros j E Hj. rewrite <- (winds_steps _ _ _ Hw) in Hj. by eapply (core_inj q). }
  unfold unwind_entered. rewrite Hix, Hr, He. cbn [negb].
  destruct (run_exited r) eqn:Hx.
  - assert (run_open r = false) as Ho by (unfold run_open; by rewrite He, Hx).
    destruct (touches_reap q i s r st Hc Hf Hid Hs Hr Ho He) as [T HF].
    split; [eapply winds_touch; eauto; lia|].
    assert (not_running (reap_holds (positional i) q).2 i) as Hn.
    { unfold not_running. rewrite (to_status _ _ _ _ _ _ _ T).
      intros [= ->]. destruct Hok as [_ [_ ?]]. congruence. }
    split; [intros j E Hj; by rewrite (Hinj j E Hj)|by eapply touches_not_running].
  - assert (s = StepStatus.Running) as -> by (destruct Hok as [_ Hok], s; naive_solver congruence).
    assert (run_open r = true) as Ho by (unfold run_open; by rewrite He, Hx).
    set (q1 := modify_run i (run_set_duration now) q).
    assert (touches i q q1 StepStatus.Running StepStatus.Running r (run_set_duration now r)) as T1
      by by apply touches_modify.
    destruct (touches_neutralize i q1 StepStatus.Running (run_set_duration now r) st now)
      as [T2 HF2]; [done|done|done|apply T1|apply T1|done|].
    rewrite (to_status _ _ _ _ _ _ _ T2). cbn [from_option terminal_status].
    set (q2 := (neutralize _ _ _).2) in *.
    set (r2 := run_set_exited true (run_set_duration now r)) in *.
    assert (touches i q2 (set_status (positional i) StepStatus.Skipped q2) StepStatus.Running
      StepStatus.Skipped r2 r2) as T3 by (apply touches_status; [done|apply T2..]).
    assert (touches i q (modify_run i (run_set_finished_at now)
      (set_status (positional i) StepStatus.Skipped q2)) StepStatus.Running StepStatus.Skipped r
      (run_set_finished_at now r2)) as T.
    { eapply touches_trans; [exact T1|]. eapply touches_trans; [exact T2|].
      eapply touches_trans; [exact T3|]. apply touches_modify; [apply T3..|done|done]. }
    split.
    + eapply winds_touch; [done|exact T| |done|done|cbn; lia|right]; [split; [apply Hok|done]|].
      split; [done|]. exists StepStatus.Running. split; [|done].
      by destruct (wd_status _ _ _ Hw i _ Hs) as [?|[? _]].
    + assert (not_running (modify_run i (run_set_finished_at now)
        (set_status (positional i) StepStatus.Skipped q2)) i) as Hn.
      { unfold not_running. by rewrite (to_status _ _ _ _ _ _ _ T). }
      split; [intros j E Hj; by rewrite (Hinj j E Hj)|by eapply touches_not_running].
Qed.

Lemma winds_lookup W p q i s : Core p → winds W p q → status_ p !! i = Some s →
  ∃ st s' r, steps_of q !! i = Some st ∧ status_ q !! i = Some s' ∧ runs_ q !! i = Some r ∧
    id st = positional i ∧ index_of (positional i) = i ∧
    find (program_ q) (positional i) = Some st.
Proof.
  intros Hc Hw Hi. apply (core_lookup q i); [apply Hw|]. rewrite (winds_steps _ _ _ Hw).
  by eapply core_status_lt.
Qed.

Lemma unwind_ready_step now p q k :
  Core p → k ∈ frontier_ p → Front (frontier_ p) p →
  winds (ended p) p q ∧ (∀ i, not_running q i) →
  (winds (ended p) p (unwind_ready now q k) ∧ ∀ i, not_running (unwind_ready now q k) i) ∧
  is_terminal (unwind_ready now q k) k = true ∧ advances q (unwind_ready now q k).
Proof.
  intros Hcp Hk HF [Hw Hn]. pose proof (wd_core _ _ _ Hw) as Hc.
  apply HF in Hk as (i & s0 & -> & Hs0 & Hl0).
  destruct (winds_lookup _ _ _ _ _ Hcp Hw Hs0) as (st & s & r & Hst & Hs & Hr & Hid & Hix & Hf).
  unfold unwind_ready. rewrite Hix, Hs. destruct (terminal_status s) eqn:Ht.
  { unfold is_terminal. rewrite Hix, Hs. split_and!; [done..|]. by intros ??. }
  assert (s = StepStatus.Ready) as ->.
  { destruct (wd_status _ _ _ Hw i s Hs) as [E|[E _]]; [|congruence].
    rewrite E in Hs0. injection Hs0 as <-. destruct s; try done. by apply Hn in Hs. }
  pose proof (core_step q Hc i _ r Hs Hr) as [Hret [He _]].
  set (q1 := set_status (positional i) StepStatus.Skipped q).
  assert (touches i q q1 StepStatus.Ready StepStatus.Skipped r r) as T1 by by apply touches_status.
  assert (touches i q1 (modify_run i (run_set_finished_at now) q1) StepStatus.Skipped
    StepStatus.Skipped r (run_set_finished_at now r)) as T2 by (apply touches_modify; [apply T1..|done|done]).
  pose proof (touches_trans _ _ _ _ _ _ _ _ _ _ T1 T2) as T.
  split_and!.
  - eapply winds_touch; [done|exact T| |done|done|cbn; lia|right];
    [split; [done|]; cbn; congruence|].
    split; [done|]. by exists s0; split; [|intros ->].
  - intros j Hj. destruct (decide (j = i)) as [->|Hne].
    + by rewrite (to_status _ _ _ _ _ _ _ T) in Hj.
    + destruct (to_statuses _ _ _ _ _ _ _ T) as [_ Ho]. rewrite Ho in Hj by done. by apply Hn in Hj.
  - unfold is_terminal. rewrite Hix. by rewrite (to_status _ _ _ _ _ _ _ T).
  - by eapply touch_advances.
Qed.

Lemma is_terminal_advances q q' k : advances q q' → is_terminal q k = true → is_terminal q' k = true.
Proof.
  unfold is_terminal. intros Ha. destruct (status_ q !! index_of k) as [s|] eqn:E; [|done].
  cbn. intros Ht. by rewrite (Ha _ s E Ht).
Qed.

Lemma core_set_frontier F p : Core p → Core (set_frontier F p).
Proof. intros []. by split. Qed.

Lemma moves_set_frontier F p : moves p (set_frontier F p).
Proof. split; try done. by intros i s Hs _. Qed.

(** Ending only steps that had left [Pending] keeps predecessors terminal. *)
Lemma winds_closed p q : Closed p → winds (ended p) p q → Closed q.
Proof.
  intros Hcl Hw j i s Hs Hne Hd. rewrite (winds_steps _ _ _ Hw) in Hd.
  assert (∃ s0, status_ p !! i = Some s0 ∧ s0 ≠ StepStatus.Pending) as (s0 & Hs0 & Hne0).
  { destruct (wd_status _ _ _ Hw i s Hs) as [E|[_ E]]; eauto. }
  destruct (Hcl j i s0 Hs0 Hne0 Hd) as (s' & Hs' & Ht). exists s'. split; [|done].
  by apply (mv_advances _ _ (wd_moves _ _ _ Hw)).
Qed.

(** Every live step of [q] was live in [p] already, so if [F] was and each of its
    members ended, none is left. *)
Lemma winds_front_nil p q :
  Core p → Front (frontier_ p) p → winds (ended p) p q →
  (∀ k, k ∈ frontier_ p → is_terminal q k = true) → Front [] q.
Proof.
  intros Hc HF Hw Ht. split; [constructor|]. intros k. rewrite elem_of_nil. split; [done|].
  intros (i & s & -> & Hs & Hl). destruct (wd_status _ _ _ Hw i s Hs) as [E|[E _]]; [|by destruct s].
  assert (positional i ∈ frontier_ p) as Hin by (apply HF; eauto). specialize (Ht _ Hin).
  destruct (winds_lookup _ _ _ _ _ Hc Hw E) as (_ & _ & _ & _ & _ & _ & _ & Hix & _).
  unfold is_terminal in Ht. rewrite Hix, Hs in Ht. by destruct s.
Qed.

(** After the first walk nothing runs; after the second nothing is live. *)
Lemma unwind_good p now :
  Good (frontier_ p) p →
  Good [] (unwind now p) ∧ moves p (unwind now p) ∧ frontier_ (unwind now p) = [] ∧
  entry_order_ (unwind now p) = entry_order_ p.
Proof.
  intros (Hc & Hcl & HF). unfold unwind.
  destruct (foldl_done (unwind_entered now) (winds (ended p) p)
    (λ k q, ∀ i, k = positional i → (i < length (steps_of p))%nat → not_running q i)
    (rev (entry_order_ p)) p) as [Hw1 Hn1].
  { intros q k Hk%list_elem_of_In%in_rev%list_elem_of_In Hw.
    destruct (unwind_entered_step now p q k Hk Hw) as (? & ? & _). done. }
  { intros q k c Hk%list_elem_of_In%in_rev%list_elem_of_In Hw Hq i Hi Hlt.
    destruct (unwind_entered_step now p q k Hk Hw) as (_ & _ & Hkeep). auto. }
  { by apply winds_refl. }
  set (q1 := foldl (unwind_entered now) p (rev (entry_order_ p))) in *.
  assert (∀ i, not_running q1 i) as Hnr.
  { intros i Hr. pose proof (wd_core _ _ _ Hw1) as Hc1.
    pose proof (core_status_lt q1 i _ Hc1 Hr) as Hi.
    destruct (core_lookup q1 i Hc1 Hi) as (st & s & r & _ & Hs & Hrn & _).
    pose proof (core_step q1 Hc1 i _ r Hr Hrn) as [_ [He _]].
    apply (Hn1 (positional i)) in Hr; [done| |done|by rewrite <- (winds_steps _ _ _ Hw1)].
    apply list_elem_of_In, in_rev. rewrite rev_involutive. apply list_elem_of_In.
    rewrite <- (wd_entry_order _ _ _ Hw1), (core_entry q1 Hc1). eauto. }
  rewrite (wd_frontier _ _ _ Hw1).
  destruct (foldl_done (unwind_ready now) (λ q, winds (ended p) p q ∧ ∀ i, not_running q i)
    (λ k q, is_terminal q k = true) (frontier_ p) q1) as [[Hw2 _] Ht]; [| |done|].
  { intros q k Hk HP. destruct (unwind_ready_step now p q k) as (? & ? & _); done. }
  { intros q k c Hk HP. destruct (unwind_ready_step now p q k) as (_ & _ & Ha); [done..|].
    by apply is_terminal_advances. }
  set (q2 := foldl (unwind_ready now) q1 (frontier_ p)) in *.
  split; [|split_and!; [|done|exact (wd_entry_order _ _ _ Hw2)]].
  { split_and!; [apply core_set_frontier, Hw2|by apply (winds_closed p q2)
      |exact (winds_front_nil p q2 Hc HF Hw2 Ht)]. }
  eapply moves_trans; [apply Hw2|apply moves_set_frontier].
Qed.

End winds.

(** ** [jump_to] *)

Section jump.
Context {R : Type} {RC : CommandRunner R}.
Implicit Types (p q : Player R) (i j : nat) (s : StepStatus) (r : StepRun) (F : list StepId).

(** Whatever reaches a step that has left [Pending] is terminal. *)
Lemma closed_tc p j i s :
  Closed p → status_ p !! i = Some s → s ≠ StepStatus.Pending → tc (depends (steps_of p)) j i →
  ∃ s', status_ p !! j = Some s' ∧ terminal_status s' = true.
Proof.
  intros Hcl Hs Hne Htc. induction Htc as [j i Hd|j k i Hd _ IH]; [by eapply Hcl|].
  destruct (IH Hs) as (s' & Hs' & Ht). eapply (Hcl j k s'); [done| |done]. by intros ->.
Qed.

(** The second forward-only check of [jump_to] never finds a member. *)
Lemma behind_none p t :
  Good (frontier_ p) p → (t < length (steps_of p))%nat →
  is_terminal p (positional t) = false → behind (program_ p) (positional t) (frontier_ p) = None.
Proof.
  intros (Hc & Hcl & HF) Ht Hnt.
  assert (∀ F, (∀ k, k ∈ F → k ∈ frontier_ p) → behind (program_ p) (positional t) F = None) as Hb;
    [|by apply Hb].
  induction F as [|k F IH]; intros HFsub; cbn; [done|].
  rewrite IH by (intros; apply HFsub; by right). case_decide; [done|].
  rewrite decide_False; [done|]. intros Hin.
  assert (k ∈ frontier_ p) as Hk by (apply HFsub; by left).
  apply HF in Hk as (i & s & -> & Hs & Hl). pose proof (core_status_lt _ _ _ Hc Hs) as Hi.
  apply elem_of_ancestors in Hin; [|apply Hc|done..].
  destruct (closed_tc p t i s Hcl Hs) as (s' & Hs' & Hterm); [by intros ->|done|].
  assert (is_terminal p (positional t) = true); [|congruence].
  apply is_terminal_true; [by apply (index_of_positional p)|eauto].
Qed.

Section target.
Context (p : Player R) (t : nat) (tst : Step).
Context (HG : Good (frontier_ p) p) (Htst : steps_of p !! t = Some tst).
Context (Hnt : is_terminal p (positional t) = false).

Definition jumped (i : nat) (s : StepStatus) : Prop :=
  s = StepStatus.Pending ∨ terminal_status s = true ∧
    (tc (depends (steps_of p)) i t ∨ ∃ s0, status_ p !! i = Some s0 ∧ s0 ≠ StepStatus.Pending).

Definition jumping (q : Player R) : Prop :=
  winds jumped p q ∧ status_ q !! t = status_ p !! t.

Lemma touch_jumping q q' i s s' r r' :
  jumping q → touches i q q' s s' r r' → step_ok s' r' → frontier_ q' = frontier_ q →
  (terminal_status s = true → s' = s) → (phi s' r' <= phi s r)%nat →
  jumped i s' → i ≠ t → jumping q'.
Proof.
  intros [Hw Hst] T Hok Hf Hts Hphi Hj Hne. split; [eapply winds_touch; eauto|].
  destruct (to_statuses _ _ _ _ _ _ _ T) as [_ Ho]. by rewrite Ho.
Qed.

Lemma skip_ancestor_step now q k :
  k ∈ ancestors_of (program_ p) (positional t) → jumping q →
  jumping (skip_ancestor now q k) ∧ is_terminal (skip_ancestor now q k) k = true ∧
  advances q (skip_ancestor now q k).
Proof using HG Htst.
  intros Hk Hjq. pose proof HG as (Hc & _ & _). pose proof (core_prog p Hc) as Hprog.
  destruct (ancestors_of_spec (program_ p) Hprog (positional t)) as (_ & _ & Hanc).
  apply Hanc, wfs_tc_arc in Hk as (i & t' & -> & E & Htc); [|done].
  pose proof (tc_depends_lt _ _ _ Htc) as [Hi Ht'].
  apply (core_inj p) in E as <-; [|done|by eapply lookup_lt_Some|done].
  assert (i ≠ t) as Hne by (intros ->; by eapply wfs_acyclic).
  pose proof Hjq as [Hw _].
  destruct (core_lookup q i (wd_core _ _ _ Hw)) as (st & s & r & _ & Hs & Hr & Hid & Hix & Hf).
  { by rewrite (winds_steps _ _ _ Hw). }
  unfold skip_ancestor. rewrite Hix, Hs. destruct (terminal_status s) eqn:Hterm.
  { unfold is_terminal. rewrite Hix, Hs. split_and!; [done..|]. by intros ??. }
  destruct (touches_skip i q s r st now Hix Hf Hid) as (r' & T & Hok & HF);
    [by eapply core_step; [apply Hw|..]|done..|].
  split_and!.
  - eapply touch_jumping; [done|exact T|done|done|congruence|cbn; lia| |done].
    right. split; [done|by left].
  - unfold is_terminal. by rewrite Hix, (to_status _ _ _ _ _ _ _ T).
  - eapply touch_advances; [exact T|congruence].
Qed.

(** Whatever [k]'s status is, it is not live. *)
Definition at_rest (k : StepId) (q : Player R) : Prop :=
  ∀ i s, k = positional i → status_ q !! i = Some s → live s = false.

Lemma drop_member_step now q k :
  k ∈ frontier_ p → jumping q →
  jumping (drop_member (positional t) now q k) ∧
  (k ≠ positional t → at_rest k (drop_member (positional t) now q k)) ∧
  advances q (drop_member (positional t) now q k) ∧
  (∀ k', at_rest k' q → at_rest k' (drop_member (positional t) now q k)).
Proof using HG Htst Hnt.
  intros Hk Hjq. pose proof HG as (Hc & _ & HFr). unfold drop_member.
  case_decide as Hkt; [subst; split_and!; [done..| |done]; by intros ??|].
  apply HFr in Hk as (i & s0 & -> & Hs0 & Hl0). pose proof (core_status_lt _ _ _ Hc Hs0) as Hi.
  assert (i ≠ t) as Hne by by intros ->.
  pose proof Hjq as [Hw _]. pose proof (wd_core _ _ _ Hw) as Hcq.
  destruct (core_lookup q i Hcq) as (st & s & r & _ & Hs & Hr & Hid & Hix & Hf).
  { by rewrite (winds_steps _ _ _ Hw). }
  assert (∀ j, positional i = positional j → ∀ s', status_ q !! j = Some s' → j = i) as Hinj.
  { intros j E s' Hj. symmetry. eapply (core_inj q); [done| |by eapply core_status_lt|done].
    by rewrite (winds_steps _ _ _ Hw). }
  rewrite Hix, Hs. destruct (terminal_status s) eqn:Hterm.
  { split_and!; [done| |by intros ??|done]. intros _ j s' E Hj.
    rewrite (Hinj j E s' Hj), Hs in Hj. injection Hj as <-. by destruct s. }
  pose proof (core_step q Hcq i s r Hs Hr) as Hok. unfold run_at. rewrite Hr. 
  change (default blank_run (Some r)) with r. fold (run_open r).
  assert (∀ q' s' r', touches i q q' s s' r r' → live s' = false →
    (at_rest (positional i) q') ∧ (∀ k', at_rest k' q → at_rest k' q')) as Hrest.
  { intros q' s' r' T Hl. destruct (to_statuses _ _ _ _ _ _ _ T) as [Hlen Ho].
    assert (∀ j s1, status_ q' !! j = Some s1 → j ≠ i → status_ q !! j = Some s1) as Hoff
      by (intros j s1 Hj ?; by rewrite <- Ho).
    split.
    - intros j s1 E Hj. destruct (decide (j = i)) as [->|Hji].
      + rewrite (to_status _ _ _ _ _ _ _ T) in Hj. congruence.
      + by specialize (Hinj j E s1 (Hoff _ _ Hj Hji)).
    - intros k' Hk' j s1 E Hj. destruct (decide (j = i)) as [->|Hji].
      + rewrite (to_status _ _ _ _ _ _ _ T) in Hj. congruence.
      + eapply Hk'; eauto. }
  destruct (run_open r) eqn:Ho.
  - destruct (touches_skip i q s r st now Hix Hf Hid Hok Hs Hr) as (r' & T & Hok' & HF).
    destruct (Hrest _ _ _ T eq_refl) as [H1 H2]. split_and!; [|done| |done].
    + eapply touch_jumping; [done|exact T|done|done|congruence|cbn; lia| |done].
      right. split; [done|]. right. exists s0. split; [done|]. by intros ->.
    + eapply touch_advances; [exact T|congruence].
  - assert (touches i q (set_status (positional i) StepStatus.Pending q) s StepStatus.Pending r r)
      as T by by apply touches_status.
    destruct (Hrest _ _ _ T eq_refl) as [H1 H2]. split_and!; [|done| |done].
    + assert (s ≠ StepStatus.Running ∧ s ≠ StepStatus.Count) as [Hnr Hnc].
      { unfold run_open in Ho. destruct Hok as [? Hok]. split; intros ->; [|done].
        destruct Hok as [He Hx]. by rewrite He, Hx in Ho. }
      eapply touch_jumping; [done|exact T| |done|congruence| |by left|done].
      * destruct Hok as [? Hok]. split; [done|]. by destruct s.
      * by destruct s.
    + eapply touch_advances; [exact T|congruence].
Qed.

Lemma jumping_refl : jumping p.
Proof using HG. split; [|done]. apply winds_refl, HG. Qed.

(** The run after both walks: the target untouched, its ancestors terminal, no
    other step live. *)
Lemma jump_walks now :
  let q1 := foldl (skip_ancestor now) p (ancestors_of (program_ p) (positional t)) in
  let q2 := foldl (drop_member (positional t) now) q1 (frontier_ q1) in
  jumping q2 ∧
  (∀ k, k ∈ ancestors_of (program_ p) (positional t) → is_terminal q2 k = true) ∧
  (∀ i s, status_ q2 !! i = Some s → live s = true → i = t).
Proof using HG Htst Hnt.
  intros q1. pose proof HG as (Hc & _ & HFr).
  destruct (foldl_done (skip_ancestor now) jumping (λ k q, is_terminal q k = true)
    (ancestors_of (program_ p) (positional t)) p) as [Hj1 Hanc1]; [| |by apply jumping_refl|].
  { intros q k Hk Hq. destruct (skip_ancestor_step now q k Hk Hq) as (? & ? & _). done. }
  { intros q k c Hk Hq. destruct (skip_ancestor_step now q k Hk Hq) as (_ & _ & Ha).
    by apply is_terminal_advances. }
  fold q1 in Hj1, Hanc1.
  assert (frontier_ q1 = frontier_ p) as -> by apply Hj1.
  destruct (foldl_done (drop_member (positional t) now) jumping
    (λ k q, k ≠ positional t → at_rest k q) (frontier_ p) q1) as [Hj2 Hrest]; [| |done|].
  { intros q k Hk Hq. destruct (drop_member_step now q k Hk Hq) as (? & ? & _). done. }
  { intros q k c Hk Hq Hc' Hne. destruct (drop_member_step now q k Hk Hq) as (_ & _ & _ & Hkeep).
    auto. }
  split; [done|]. split.
  - intros k Hk. apply (foldl_inv _ (λ q, jumping q ∧ is_terminal q k = true)); [|auto].
    intros q k' Hk' [Hq Ht]. destruct (drop_member_step now q k' Hk' Hq) as (? & _ & Ha & _).
    split; [done|]. by eapply is_terminal_advances.
  - intros i s Hs Hl. pose proof Hj2 as [Hw _].
    destruct (decide (i = t)) as [|Hne]; [done|exfalso].
    destruct (wd_status _ _ _ Hw i s Hs) as [E|[->|[? _]]]; [|done|by destruct s].
    assert (positional i ∈ frontier_ p) as Hin by (apply HFr; eauto).
    assert (positional i ≠ positional t) as Hne'.
    { intros E'. apply (core_inj p) in E'; [done..|by eapply core_status_lt|by eapply lookup_lt_Some]. }
    specialize (Hrest _ Hin Hne' i s eq_refl Hs). congruence.
Qed.

Lemma find_target : find (program_ p) (positional t) = Some tst.
Proof using HG Htst. apply find_positional; [apply HG|done]. Qed.

Lemma jump_good :
  ∃ p', jump_to (positional t) p = (Ok tt, p') ∧
    Good (frontier_ p') p' ∧ moves p p' ∧ frontier_ p' = [positional t] ∧
    entry_order_ p' = entry_order_ p ∧
    (∀ k, k ∈ ancestors_of (program_ p) (positional t) → is_terminal p' k = true).
Proof using HG Htst Hnt.
  pose proof HG as (Hc & Hcl & HFr).
  assert (t < length (steps_of p))%nat as Ht by by eapply lookup_lt_Some.
  unfold jump_to. rewrite find_target, Hnt, behind_none by done.
  destruct (jump_walks (last_now_ p)) as ([Hw Hst] & Hanc & Hlive).
  set (q2 := foldl (drop_member _ _) _ _) in *. set (q3 := set_frontier [] q2).
  pose proof (wd_core _ _ _ Hw) as Hc2.
  assert (Core q3) as Hc3 by by apply core_set_frontier.
  assert (steps_of q3 = steps_of p) as Hst3 by exact (winds_steps _ _ _ Hw).
  destruct (core_lookup q3 t Hc3) as (tst' & s & r & Htst' & Hs & Hr & Hid & Hix & Hf);
    [by rewrite Hst3|].
  assert (terminal_status s = false) as Hterm.
  { unfold is_terminal in Hnt. rewrite (index_of_positional p t Hc Ht) in Hnt.
    change (status_ q2 !! t = Some s) in Hs. rewrite Hst in Hs. by rewrite Hs in Hnt. }
  pose proof (core_step q3 Hc3 t s r Hs Hr) as Hok.
  assert (∀ j, tc (depends (steps_of p)) j t →
    ∃ s', status_ q3 !! j = Some s' ∧ terminal_status s' = true) as Hpreds.
  { intros j Htc. pose proof (tc_depends_lt _ _ _ Htc) as [Hj _].
    apply is_terminal_true; [by apply (index_of_positional p)|].
    apply Hanc, elem_of_ancestors; [apply Hc|done..]. }
  assert (Closed q3) as Hcl3.
  { intros j i s' Hi Hne Hd. rewrite Hst3 in Hd. change (status_ q2 !! i = Some s') in Hi.
    assert ((∃ s0, status_ p !! i = Some s0 ∧ s0 ≠ StepStatus.Pending) ∨
      tc (depends (steps_of p)) i t) as [(s0 & Hs0 & Hne0)|Htc].
    { destruct (wd_status _ _ _ Hw i s' Hi) as [E|[->|[_ [Htc|E]]]]; eauto. done. }
    - destruct (Hcl j i s0 Hs0 Hne0 Hd) as (s1 & Hs1 & Ht1). exists s1. split; [|done].
      by apply (mv_advances _ _ (wd_moves _ _ _ Hw)).
    - apply Hpreds. eapply tc_l; done. }
  assert (moves p q3) as Hm3 by (eapply moves_trans; [apply Hw|apply moves_set_frontier]).
  (* the target is admitted whichever status it has *)
  set (p' := if status_is q3 _ _ then _ else _). exists p'. split; [done|].
  assert (∃ s' r', touches t q3 p' s s' r r' ∧ step_ok s' r' ∧ live s' = true ∧
    frontier_ p' = [positional t] ∧ (phi s' r' <= phi s r)%nat) as (s' & r' & T & Hok' & Hl & HF' & Hphi).
  { unfold p'. rewrite Hix. destruct (status_is q3 t StepStatus.Running) eqn:Er.
    - apply bool_decide_eq_true in Er. assert (s = StepStatus.Running) as -> by congruence.
      exists StepStatus.Running. eexists. split; [by apply touches_admit|done].
    - apply bool_decide_eq_false in Er.
      set (q4 := set_status (positional t) StepStatus.Ready q3).
      assert (touches t q3 q4 s StepStatus.Ready r r) as T4 by by apply touches_status.
      exists StepStatus.Ready. eexists. split; [|split_and!; try done].
      + eapply touches_trans; [exact T4|]. apply touches_admit; [done|apply T4..].
      + destruct Hok as [? Hok]. split; [done|]. destruct s; try done.
      + destruct Hok as [_ Hok]. destruct s; (done || (cbn; lia)). }
  split_and!.
  - split_and!; [by eapply touch_core| |].
    + eapply closed_update; [done|apply T..| |]; [congruence|].
      intros _. right. intros j Hd. apply Hpreds. apply tc_once. by rewrite <- Hst3.
    + rewrite HF'. split; [apply NoDup_singleton|]. intros k. rewrite list_elem_of_singleton.
      destruct (to_statuses _ _ _ _ _ _ _ T) as [_ Ho]. split.
      * intros ->. exists t, s'. split_and!; [done|apply T|done].
      * intros (i & si & -> & Hi & Hli). destruct (decide (i = t)) as [->|Hit]; [done|].
        rewrite Ho in Hi by done. by rewrite (Hlive i si Hi Hli).
  - eapply moves_trans; [done|]. eapply touch_moves; [exact T|congruence|done].
  - done.
  - rewrite (to_entry_order _ _ _ _ _ _ _ T). exact (wd_entry_order _ _ _ Hw).
  - intros k Hk. eapply is_terminal_advances; [|by apply Hanc].
    eapply advances_trans; [apply (mv_advances q2 q3), moves_set_frontier|].
    eapply touch_advances; [exact T|congruence].
Qed.

End target.
End jump.
