(* ===== verification/PlayerSteps.v ===== *)
(** Every operation of a run preserves the run's invariant: completion, failure
    and its policies, retries, admission, the pump's two loops and the control
    operations. *)

From S2P Require Import Prelude Graph Errors StepTypes Command Sequence Identity Player.
From S2P Require Import PlayerInv PlayerJump.

(** The invariant of a run between two calls of a caller. *)
Definition state_ok {R} (p : Player R) : Prop :=
  match state_ p with
  | PlayState.Idle =>
    failure_ p = None ∧ (∀ i s, status_ p !! i = Some s → s = StepStatus.Pending)
  | PlayState.Playing | PlayState.Paused => failure_ p = None
  | PlayState.Interrupted => frontier_ p = []
  | PlayState.Done => failure_ p = None ∧ frontier_ p = []
  | PlayState.Count => False
  end.

Definition Inv {R} (p : Player R) : Prop := Good (frontier_ p) p ∧ state_ok p.

(** What an operation inside a pump leaves: the run goes on, or was aborted. *)
Record outcome {R} (p p' : Player R) : Prop := {
  oc_good : Good (frontier_ p') p';
  oc_program : same_program p p';
  oc_advances : advances p p';
  oc_last_now : last_now_ p' = last_now_ p;
  oc_phi : ∀ i, (phi_at p' i <= phi_at p i)%nat;
  oc_end : (state_ p' = state_ p ∧ failure_ p' = failure_ p) ∨
    (state_ p' = PlayState.Interrupted ∧ is_Some (failure_ p') ∧ frontier_ p' = [])
}.

Section steps.
Context {R : Type} {RC : CommandRunner R}.
Implicit Types (p q : Player R) (i j : nat) (s : StepStatus) (r : StepRun).

Lemma outcome_moves p p' : Good (frontier_ p') p' → moves p p' → outcome p p'.
Proof. intros HG []. split; try done. by left. Qed.

Lemma outcome_refl p : Good (frontier_ p) p → outcome p p.
Proof. intros HG. by apply outcome_moves, moves_refl. Qed.

Lemma moves_outcome p q q' : moves p q → outcome q q' → outcome p q'.
Proof.
  intros [Hp Ha Hl Hst Hf Hphi] [HG Hp' Ha' Hl' Hphi' He]. split.
  - done.
  - by eapply same_program_trans.
  - by eapply advances_trans.
  - congruence.
  - intros i. specialize (Hphi i). specialize (Hphi' i). lia.
  - destruct He as [[Hs Hf']|?]; [left; split; congruence|by right].
Qed.

Lemma active_state p : active p = true ↔
  state_ p = PlayState.Playing ∨ state_ p = PlayState.Paused.
Proof. unfold active. destruct (state_ p); naive_solver. Qed.

(** An outcome that leaves the run active is a move. *)
Lemma outcome_active p q : outcome p q → active q = true → moves p q.
Proof.
  intros [HG Hp Ha Hl Hphi He] Hact%active_state.
  destruct He as [[Hs Hf]|(Hs & _ & _)]; [by split|]. rewrite Hs in Hact. by destruct Hact.
Qed.

(** ** Completion *)

(** Step [i] runs: what the pump knows when it looks at it. *)
Lemma running_step p i : Core p → status_ p !! i = Some StepStatus.Running →
  ∃ st r, steps_of p !! i = Some st ∧ runs_ p !! i = Some r ∧ id st = positional i ∧
    index_of (positional i) = i ∧ find (program_ p) (positional i) = Some st ∧
    run_entered r = true ∧ run_exited r = false ∧ (run_retries r <= 1)%nat.
Proof.
  intros Hc Hs. pose proof (core_status_lt _ _ _ Hc Hs) as Hi.
  destruct (core_lookup p i Hc Hi) as (st & s & r & Hst & Hs' & Hr & Hid & Hix & Hf).
  pose proof (core_step p Hc i _ r Hs Hr) as [Hret [He Hx]].
  exists st, r. done.
Qed.

(** [status_[i] = s; last_finish_ = ...; drop_from_frontier( i )] for a step whose
    record is closed. *)
Lemma settle_good p q i now s' r' :
  Good (frontier_ p) p → status_ p !! i = Some StepStatus.Running →
  (∃ r, touches i p q StepStatus.Running StepStatus.Running r r') →
  frontier_ q = frontier_ p →
  terminal_status s' = true → step_ok s' r' → index_of (positional i) = i →
  let q' := drop_from_frontier (positional i)
    (set_last_finish now (set_status (positional i) s' q)) in
  Good (frontier_ q') q' ∧ moves p q' ∧ status_ q' !! i = Some s' ∧
  entry_order_ q' = entry_order_ p ∧ history_ q' = history_ q.
Proof.
  intros HG Hs [r T] Hf Ht Hok Hix q'.
  assert (touches i p q' StepStatus.Running s' r r') as T'.
  { eapply touches_trans; [exact T|]. eapply touches_trans.
    - apply touches_status; [done|apply T..].
    - set (q1 := set_status _ _ q).
      assert (status_ q1 !! i = Some s') as Hs1.
      { cbn. rewrite Hix. apply list_lookup_insert_eq. eapply lookup_lt_Some, T. }
      assert (runs_ q1 !! i = Some r') as Hr1 by apply T.
      eapply touches_trans; [by apply touches_last_finish|].
      unfold q', drop_from_frontier. by apply touches_frontier. }
  assert (frontier_ q' = erase_first (positional i) (frontier_ p)) as HF' by (cbn; by rewrite Hf).
  destruct (touch_retire i p q' _ s' r r' (frontier_ p) HG T' Ht Hok) as [HG' _]; [done..|].
  split; [by rewrite HF'|]. split; [|split; [apply T'|split; [apply T'|done]]].
  eapply touch_moves; [exact T'|done|]. destruct s'; cbn; (done || lia).
Qed.

Lemma succeed_good p i now :
  Good (frontier_ p) p → status_ p !! i = Some StepStatus.Running →
  Good (frontier_ (succeed (positional i) now p)) (succeed (positional i) now p) ∧
  moves p (succeed (positional i) now p) ∧
  status_ (succeed (positional i) now p) !! i = Some StepStatus.Succeeded ∧
  entry_order_ (succeed (positional i) now p) = entry_order_ p.
Proof.
  intros HG Hs. pose proof HG as (Hc & _ & _).
  destruct (running_step p i Hc Hs) as (st & r & Hst & Hr & Hid & Hix & Hf & He & Hx & Hret).
  unfold succeed. rewrite Hf, Hix.
  set (f := λ r : StepRun, run_set_finished_at now (run_set_duration now r)).
  set (p1 := modify_run i f p).
  assert (touches i p p1 StepStatus.Running StepStatus.Running r (f r)) as T1 by by apply touches_modify.
  assert (run_at p1 i = f r) as Hrun by (unfold run_at; by rewrite (to_run _ _ _ _ _ _ _ T1)).
  rewrite Hrun. change (run_entered (f r)) with (run_entered r).
  change (run_exited (f r)) with (run_exited r). rewrite He, Hx. cbn [negb andb].
  assert (run_open (f r) = true) as Ho by (unfold run_open; cbn; by rewrite He, Hx).
  set (p2 := modify_run i (run_set_exited true) (call_exit p1 st now).2).
  assert (touches i p1 p2 StepStatus.Running StepStatus.Running (f r) (run_set_exited true (f r)))
    as T2 by (apply touches_exit; [apply T1..|done|done]).
  assert (frontier_ p2 = frontier_ p) as HF2.
  { unfold p2, call_exit. by destruct (runner_exit _ _ _). }
  destruct (settle_good p p2 i (Z.max (last_finish_ (set_status (positional i) StepStatus.Succeeded p2)) now)
    StepStatus.Succeeded (run_set_exited true (f r)) HG Hs) as (HG3 & Hm3 & Hs3 & He3 & _).
  { eexists. by eapply touches_trans. } { done. } { done. } { by split. } { done. }
  destruct (admit_successors_good _ (positional i) HG3) as (HG4 & Hm4 & _ & He4).
  split_and!; [done|by eapply moves_trans| |by rewrite He4].
  apply (mv_advances _ _ Hm4); [exact Hs3|done].
Qed.

(** ** Abort *)

Lemma good_set_state F x p : Good F p → Good F (set_play_state x p).
Proof. intros ([] & ? & ?). split_and!; [by split|done|done]. Qed.

Lemma abort_good p e now :
  Good (frontier_ p) p → state_ p = PlayState.Playing ∨ state_ p = PlayState.Paused →
  outcome p (abort_run e now p) ∧ entry_order_ (abort_run e now p) = entry_order_ p.
Proof.
  intros HG Hst. unfold abort_run.
  assert (Good (frontier_ (set_failure (Some e) p)) (set_failure (Some e) p)) as HG1.
  { destruct HG as ([] & Hcl & HF). split_and!; [by split|done|done]. }
  destruct (unwind_good _ now HG1) as (HG2 & Hm & HF & He).
  set (p2 := unwind now _) in *.
  assert (state_ p2 ≠ PlayState.Interrupted) as Hne.
  { rewrite (mv_state _ _ Hm). cbn. by destruct Hst as [->| ->]. }
  unfold set_state. rewrite decide_False by done. split; [|exact He].
  rewrite <- HF in HG2. destruct Hm as [Hpr Ha Hl _ Hfail Hphi]. split; try done.
  - by apply good_set_state.
  - right. split_and!; [done| |exact HF]. change (is_Some (failure_ p2)). by rewrite Hfail.
Qed.

(** ** Failure *)

Lemma phi_terminal p i s : status_ p !! i = Some s → terminal_status s = true → phi_at p i = 0%nat.
Proof. unfold phi_at. intros -> Ht. destruct (runs_ p !! i); [|done]. by destruct s. Qed.

Lemma resolve_target p text k : Core p → resolve_label (program_ p) text = Some k →
  ∃ t st, steps_of p !! t = Some st ∧ k = positional t.
Proof. intros Hc (_ & t & st & Ht & _ & ->)%(wfs_labels _ (core_prog p Hc)). by exists t, st. Qed.

(** [jump_to] either refuses and changes nothing or jumps. *)
Lemma jump_cases p k :
  Good (frontier_ p) p →
  (∃ e, jump_to k p = (Err e, p)) ∨
  (∃ t p', k = positional t ∧ (t < length (steps_of p))%nat ∧ is_terminal p k = false ∧
    jump_to k p = (Ok tt, p') ∧ Good (frontier_ p') p' ∧ moves p p' ∧ frontier_ p' = [k] ∧
    entry_order_ p' = entry_order_ p ∧
    (∀ a, a ∈ ancestors_of (program_ p) k → is_terminal p' a = true)).
Proof.
  intros HG. pose proof HG as (Hc & _ & _). destruct (find (program_ p) k) as [st|] eqn:Hf.
  - pose proof Hf as (t & Ht & ->)%find_Some; [|apply Hc].
    destruct (is_terminal p (positional t)) eqn:Hterm.
    + left. unfold jump_to. rewrite Hf, Hterm. by eexists.
    + right. destruct (jump_good p t st HG Ht Hterm) as (p' & ? & ? & ? & ? & ? & ?).
      exists t, p'. split_and!; try done. by eapply lookup_lt_Some.
  - left. unfold jump_to. rewrite Hf. by eexists.
Qed.

Lemma fail_good p i code now :
  Good (frontier_ p) p → status_ p !! i = Some StepStatus.Running → active p = true →
  outcome p (fail_step (positional i) code now p) ∧
  entry_order_ (fail_step (positional i) code now p) = entry_order_ p ∧
  status_ (fail_step (positional i) code now p) !! i = Some StepStatus.Failed.
Proof.
  intros HG Hs Hact. pose proof HG as (Hc & _ & _).
  destruct (running_step p i Hc Hs) as (st & r & Hst & Hr & Hid & Hix & Hf & He & Hx & Hret).
  unfold fail_step. rewrite Hf, Hix.
  set (f := λ r : StepRun, run_set_finished_at now (run_set_duration now r)).
  set (p1 := modify_run i f p).
  assert (touches i p p1 StepStatus.Running StepStatus.Running r (f r)) as T1 by by apply touches_modify.
  assert (run_open (f r) = true) as Ho by (unfold run_open; cbn; by rewrite He, Hx).
  destruct (touches_neutralize i p1 StepStatus.Running (f r) st now) as [T2 HF2];
    [done|done|done|apply T1|apply T1|done|].
  set (p2 := (neutralize (positional i) now p1).2) in *.
  destruct (settle_good p p2 i (Z.max (last_finish_ (set_status (positional i) StepStatus.Failed p2)) now)
    StepStatus.Failed (run_set_exited true (f r)) HG Hs) as (HG3 & Hm3 & Hs3 & He3 & _).
  { eexists. by eapply touches_trans. } { by rewrite HF2. } { done. } { by split. } { done. }
  set (p3 := drop_from_frontier _ _) in *. fold p3.
  assert (state_ p3 = PlayState.Playing ∨ state_ p3 = PlayState.Paused) as Hact3.
  { rewrite (mv_state _ _ Hm3). by apply active_state. }
  assert (∀ e, outcome p (abort_run e now p3) ∧ entry_order_ (abort_run e now p3) = entry_order_ p ∧
    status_ (abort_run e now p3) !! i = Some StepStatus.Failed) as Habort.
  { intros e. destruct (abort_good p3 e now HG3 Hact3) as [Ho3 He4].
    split_and!; [by eapply moves_outcome|by rewrite He4|]. by apply (oc_advances _ _ Ho3). }
  destruct (on_error st); [apply Habort| | |apply Habort].
  - destruct (admit_successors_good p3 (positional i) HG3) as (HG4 & Hm4 & _ & He4).
    split_and!; [apply outcome_moves; [done|by eapply moves_trans]|by rewrite He4|].
    by apply (mv_advances _ _ Hm4).
  - destruct (resolve_label (program_ p3) (on_error_target st)) as [k|]; [|apply Habort].
    destruct (jump_cases p3 k HG3) as [[e ->]|(t & p4 & _ & _ & _ & -> & HG4 & Hm4 & _ & He4 & _)];
      [apply Habort|].
    split_and!; [apply outcome_moves; [done|by eapply moves_trans]|by rewrite He4|].
    by apply (mv_advances _ _ Hm4).
Qed.

(** A transition that keeps the status keeps the frontier. *)
Lemma touch_same F p p' i s r r' :
  Good F p → touches i p p' s s r r' → step_ok s r' → s ≠ StepStatus.Pending → Good F p'.
Proof.
  intros (Hc & Hcl & HF) T Hok Hne. split_and!; [by eapply touch_core|by eapply touch_closed|].
  eapply touch_front; [done|done|exact T|apply HF|]. intros k. destruct (decide (k = positional i)) as [->|].
  - rewrite (proj2 HF). split.
    + intros (j & s' & E & Hj & Hl). right. split; [done|].
      apply (core_inj p) in E as <-; [|done|eapply core_status_lt; [done|apply T]
        |by eapply core_status_lt].
      rewrite (to_before_status _ _ _ _ _ _ _ T) in Hj. congruence.
    + intros [[_ ?]|[_ Hl]]; [done|]. exists i, s. split_and!; [done|apply T|done].
  - naive_solver.
Qed.

(** ** [on_status] *)

Lemma on_status_good p i x now :
  Good (frontier_ p) p → status_ p !! i = Some StepStatus.Running → active p = true →
  outcome p (on_status (positional i) x now p) ∧
  entry_order_ (on_status (positional i) x now p) = entry_order_ p ∧
  (x ≠ Status.Running → (phi_at (on_status (positional i) x now p) i < phi_at p i)%nat) ∧
  ((∃ r r', touches i p (on_status (positional i) x now p)
     StepStatus.Running StepStatus.Running r r') ∨
   phi_at (on_status (positional i) x now p) i = 0%nat).
Proof.
  intros HG Hs Hact. pose proof HG as (Hc & _ & _).
  destruct (running_step p i Hc Hs) as (st & r & Hst & Hr & Hid & Hix & Hf & He & Hx & Hret).
  assert (phi_at p i = 2 - run_retries r)%nat as Hphi by (unfold phi_at; by rewrite Hs, Hr).
  assert (∀ code, outcome p (fail_step (positional i) code now p) ∧
    entry_order_ (fail_step (positional i) code now p) = entry_order_ p ∧
    phi_at (fail_step (positional i) code now p) i = 0%nat) as Hfail.
  { intros code. destruct (fail_good p i code now HG Hs Hact) as (? & ? & Hs').
    split_and!; [done..|]. by apply (phi_terminal _ _ _ Hs'). }
  assert (outcome p (succeed (positional i) now p) ∧
    entry_order_ (succeed (positional i) now p) = entry_order_ p ∧
    phi_at (succeed (positional i) now p) i = 0%nat) as Hsucc.
  { destruct (succeed_good p i now HG Hs) as (? & ? & Hs' & ?).
    split_and!; [by apply outcome_moves|done|]. by apply (phi_terminal _ _ _ Hs'). }
  assert (∀ y, y ≠ Status.Running → y ≠ Status.Success →
    on_status (positional i) y now p = on_status (positional i) Status.Failure now p) as Hy
    by by intros [].
  destruct (decide (x = Status.Running)) as [->|Hxr]; [cbn; split_and!; [by apply outcome_refl|done..|]|].
  { left. exists r, r. by apply touches_refl. }
  destruct (decide (x = Status.Success)) as [->|Hxs].
  { destruct Hsucc as (? & ? & E). cbn. rewrite E. split_and!; [done..|lia|by right]. }
  rewrite (Hy x Hxr Hxs). cbn. rewrite Hf, Hix.
  assert (run_at p i = r) as -> by (unfold run_at; by rewrite Hr).
  destruct (may_retry _ _ && _) eqn:Hretry; last first.
  { destruct (Hfail (runner_last_error (runner_ p) st)) as (? & ? & E). rewrite E.
    split_and!; [done..|lia|by right]. }
  apply andb_true_iff in Hretry as [_ Hlt%bool_decide_eq_true]. unfold maxRetriesPerStep in Hlt.
  set (p1 := modify_run i run_count_retry p).
  assert (touches i p p1 StepStatus.Running StepStatus.Running r (run_count_retry r)) as T1
    by by apply touches_modify.
  assert (run_open (run_count_retry r) = true) as Ho by (unfold run_open; cbn; by rewrite He, Hx).
  destruct (touches_neutralize i p1 StepStatus.Running (run_count_retry r) st now) as [T2 HF2];
    [done|done|done|apply T1|apply T1|done|].
  set (p2 := (neutralize (positional i) now p1).2) in *.
  pose proof (touches_reenter i p2 StepStatus.Running _ st now (to_status _ _ _ _ _ _ _ T2)
    (to_run _ _ _ _ _ _ _ T2) Hid He eq_refl) as T3.
  assert (frontier_ (call_enter (modify_run i (run_reopen now) p2) st now).2 = frontier_ p) as HF3.
  { unfold call_enter. destruct (runner_enter _ _ _). cbn. by rewrite HF2. }
  destruct (call_enter (modify_run i (run_reopen now) p2) st now) as [y p3]. cbn in T3, HF3.
  set (r3 := run_reopen now _) in T3.
  assert (touches i p p3 StepStatus.Running StepStatus.Running r r3) as T.
  { eapply touches_trans; [exact T1|]. eapply touches_trans; [exact T2|exact T3]. }
  assert (step_ok StepStatus.Running r3) as Hok3.
  { unfold r3. split; cbn; [unfold maxRetriesPerStep; lia|done]. }
  assert (Good (frontier_ p3) p3) as HG3.
  { rewrite HF3. by eapply touch_same. }
  assert (moves p p3) as Hm3.
  { eapply touch_moves; [exact T|done|]. cbn. lia. }
  pose proof (to_status _ _ _ _ _ _ _ T) as Hs3.
  assert (active p3 = true) as Hact3.
  { apply active_state. rewrite (mv_state _ _ Hm3). by apply active_state. }
  assert (phi_at p3 i < phi_at p i)%nat as Hphi3.
  { rewrite (touch_phi _ _ _ _ _ _ _ T), (touch_phi_before _ _ _ _ _ _ _ T). cbn. lia. }
  assert (∀ p', outcome p3 p' → entry_order_ p' = entry_order_ p3 →
    outcome p p' ∧ entry_order_ p' = entry_order_ p ∧
    (x ≠ Status.Running → (phi_at p' i < phi_at p i)%nat)) as Hdone.
  { intros p' Ho' He'. split_and!; [by eapply moves_outcome| |].
    - rewrite He'. exact (to_entry_order _ _ _ _ _ _ _ T).
    - intros _. pose proof (oc_phi _ _ Ho' i). lia. }
  assert (∀ y' p', y' = Status.Failure ∨ y' = Status.Count →
    p' = fail_step (positional i) (runner_last_error (runner_ p3) st) now p3 →
    outcome p p' ∧ entry_order_ p' = entry_order_ p ∧
    (x ≠ Status.Running → (phi_at p' i < phi_at p i)%nat) ∧
    ((∃ r r', touches i p p' StepStatus.Running StepStatus.Running r r') ∨
      phi_at p' i = 0%nat)) as Hfail3.
  { intros _ p' _ ->.
    destruct (fail_good p3 i (runner_last_error (runner_ p3) st) now HG3 Hs3 Hact3) as (Ho4 & He4 & Hs4).
    destruct (Hdone _ Ho4 He4) as (? & ? & ?). split_and!; [done..|]. right.
    by apply (phi_terminal _ _ _ Hs4). }
  destruct y.
  - destruct (Hdone p3 (outcome_refl p3 HG3) eq_refl) as (? & ? & ?).
    split_and!; [done..|]. left. by exists r, r3.
  - destruct (succeed_good p3 i now HG3 Hs3) as (HG4 & Hm4 & Hs4 & He4).
    destruct (Hdone _ (outcome_moves _ _ HG4 Hm4) He4) as (? & ? & ?).
    split_and!; [done..|]. right. by apply (phi_terminal _ _ _ Hs4).
  - by apply (Hfail3 Status.Failure); [left|].
  - by apply (Hfail3 Status.Count); [right|].
Qed.

(** ** Entering a step *)

Lemma enter_core p p' i r r' now :
  Core p → status_ p !! i = Some StepStatus.Ready → runs_ p !! i = Some r →
  same_program p p' →
  agree_off i (status_ p) (status_ p') → agree_off i (runs_ p) (runs_ p') →
  status_ p' !! i = Some StepStatus.Running → runs_ p' !! i = Some r' →
  run_entered r' = true → run_exited r' = false → run_retries r' = run_retries r →
  entry_order_ p' = entry_order_ p ++ [positional i] →
  history_ p' = CallEnter (positional i) now :: history_ p →
  Core p'.
Proof.
  intros Hc Hs Hr (Hp & _ & _) [Hls Hos] [Hlr Hor] Hs' Hr' He Hx Hret Hent Hh.
  pose proof (core_status_lt p i _ Hc Hs) as Hi.
  pose proof (core_step p Hc i _ r Hs Hr) as [Hret0 [He0 _]].
  assert (∀ j rj, runs_ p' !! j = Some rj → j ≠ i →
    runs_ p !! j = Some rj ∧ positional j ≠ positional i) as Hoff.
  { intros j rj Hj Hne. rewrite Hor in Hj by done. split; [done|]. intros E. apply Hne.
    eapply (core_inj p); [done| |done|done]. apply lookup_lt_Some in Hj. by rewrite (core_runs p Hc) in Hj. }
  assert (positional i ∉ entry_order_ p) as Hnew.
  { intros (j & rj & E & Hj & Hej)%(core_entry p Hc).
    apply (core_inj p) in E as <-; [congruence|done..|].
    apply lookup_lt_Some in Hj. by rewrite (core_runs p Hc) in Hj. }
  split; unfold steps_of; rewrite ?Hp, ?Hent, ?Hh.
  - apply Hc.
  - rewrite Hls. apply Hc.
  - rewrite Hlr. apply Hc.
  - intros j sj rj. destruct (decide (j = i)) as [->|Hne].
    + rewrite Hs', Hr'. intros [= <-] [= <-]. split; [by rewrite Hret|done].
    + rewrite Hos, Hor by done. apply (core_step p Hc).
  - apply NoDup_app. split_and!; [apply Hc| |apply NoDup_singleton].
    by intros k Hk ->%list_elem_of_singleton.
  - intros k. rewrite elem_of_app, list_elem_of_singleton, (core_entry p Hc). split.
    + intros [(j & rj & -> & Hj & E)| ->]; [|by exists i, r'].
      assert (j ≠ i) by (intros ->; congruence). exists j, rj. by rewrite Hor.
    + intros (j & rj & -> & Hj & E). destruct (decide (j = i)) as [->|Hne]; [by right|].
      left. exists j, rj. destruct (Hoff j rj Hj Hne). done.
  - split; [|apply Hc]. cbn. rewrite (core_opened p Hc i r Hr). unfold run_open. by rewrite He0.
  - intros j rj Hj. cbn. destruct (decide (j = i)) as [->|Hne].
    + rewrite decide_True by done. assert (rj = r') as -> by congruence.
      unfold run_open. by rewrite He, Hx.
    + destruct (Hoff j rj Hj Hne). rewrite decide_False by done. by apply (core_opened p Hc).
  - intros j rj Hj E. destruct (decide (j = i)) as [->|Hne]; [exists now; by left|].
    destruct (Hoff j rj Hj Hne) as [Hj' _]. destruct (core_called p Hc j rj Hj' E) as [u Hu].
    exists u. by right.
Qed.

(** The step's body has just been entered. *)
Definition enter_body (k : StepId) (st : Step) (now : Z) (p : Player R) : Status * Player R :=
  let p := set_status k StepStatus.Running p in
  let declared := runner_declared_duration (runner_ p) st in
  let p := modify_run (index_of k) (run_enter now declared) p in
  let p := set_entry_order (entry_order_ p ++ [k]) p in
  let p := if anything_entered_ p then p
           else set_first_entry now (set_anything_entered true p) in
  call_enter p st now.

Lemma enter_body_good p i st now :
  Good (frontier_ p) p → steps_of p !! i = Some st → status_ p !! i = Some StepStatus.Ready →
  let p' := (enter_body (positional i) st now p).2 in
  Good (frontier_ p') p' ∧ moves p p' ∧ status_ p' !! i = Some StepStatus.Running ∧
  phi_at p' i = 2%nat ∧ agree_off i (status_ p) (status_ p') ∧ agree_off i (runs_ p) (runs_ p') ∧
  entry_order_ p' = entry_order_ p ++ [positional i] ∧ frontier_ p' = frontier_ p.
Proof.
  intros HG Hst Hs. pose proof HG as (Hc & Hcl & HF).
  assert (i < length (steps_of p))%nat as Hi by by eapply lookup_lt_Some.
  destruct (core_lookup p i Hc Hi) as (st' & s' & r & Hst' & Hs' & Hr & Hid & Hix & Hf).
  assert (st' = st) as -> by congruence.
  pose proof (core_step p Hc i _ r Hs Hr) as [Hret [He0 Hre]].
  unfold enter_body. rewrite Hix.
  set (declared := runner_declared_duration _ st).
  set (p1 := modify_run i (run_enter now declared) (set_status (positional i) StepStatus.Running p)).
  set (p2 := set_entry_order (entry_order_ p1 ++ [positional i]) p1).
  set (p3 := if anything_entered_ p2 then p2 else _).
  set (p' := (call_enter p3 st now).2).
  set (r' := run_enter now declared r).
  assert (same_program p p' ∧ status_ p' = <[i := StepStatus.Running]> (status_ p) ∧
    runs_ p' = alter (run_enter now declared) i (runs_ p) ∧ frontier_ p' = frontier_ p ∧
    entry_order_ p' = entry_order_ p ++ [positional i] ∧
    history_ p' = CallEnter (positional i) now :: history_ p ∧
    state_ p' = state_ p ∧ failure_ p' = failure_ p ∧ last_now_ p' = last_now_ p)
    as (Hpr & Es & Er & Ef & Ee & Eh & Est & Efail & Eln).
  { unfold p', call_enter, p3. destruct (anything_entered_ p2);
      destruct (runner_enter _ _ _) as [x rn]; cbn; rewrite Hix, Hid; done. }
  assert (agree_off i (status_ p) (status_ p')) as Hos by (rewrite Es; auto with player).
  assert (agree_off i (runs_ p) (runs_ p')) as Hor by (rewrite Er; auto with player).
  assert (status_ p' !! i = Some StepStatus.Running) as Hs2.
  { rewrite Es. apply list_lookup_insert_eq. by eapply lookup_lt_Some. }
  assert (runs_ p' !! i = Some r') as Hr2 by by rewrite Er, list_lookup_alter_eq, Hr.
  assert (phi_at p' i = 2%nat) as Hphi.
  { unfold phi_at. rewrite Hs2, Hr2. cbn. lia. }
  split_and!; [|split|done..]; [|done| |done..|].
  - split_and!.
    + eapply (enter_core p p' i r r' now); done.
    + eapply closed_update; [done|exact Hs|done..|]. intros _. by left.
    + rewrite Ef. eapply front_update; [done|done|done|exact Hs2|done|apply HF|].
      intros k. destruct (decide (k = positional i)) as [->|]; [|naive_solver].
      rewrite (proj2 HF). split; [by right|]. intros _. exists i, StepStatus.Ready. done.
  - eapply advances_update; [exact Hs|done|]. done.
  - intros j. destruct (decide (j = i)) as [->|Hne].
    + rewrite Hphi. unfold phi_at. rewrite Hs, Hr. cbn. lia.
    + unfold phi_at. destruct Hos as [_ Hos], Hor as [_ Hor]. by rewrite Hos, Hor.
Qed.

End steps.
