(* ===== verification/PlayerPump.v ===== *)
(** The pump: its two loops, the measure that bounds its fixpoint loop, and the
    invariant of every run. *)

From S2P Require Import Prelude Graph Errors StepTypes Command Sequence Identity Player.
From S2P Require Import PlayerInv PlayerJump PlayerSteps.

(** ** The measure *)

Definition Phi {R} (p : Player R) : nat :=
  sum_list (phi_at p <$> seq 0 (length (status_ p))).

(** A ready step whose time has come, which only a playing run enters. *)
Definition due {R} (now : Z) (p : Player R) (i : nat) : Prop :=
  status_ p !! i = Some StepStatus.Ready ∧
  ∃ r, runs_ p !! i = Some r ∧ run_ready_at r <= now.

Lemma sum_list_le (f g : nat → nat) l :
  (∀ i, (f i <= g i)%nat) → (sum_list (f <$> l) <= sum_list (g <$> l))%nat.
Proof. intros H. induction l as [|i l IH]; cbn; [lia|]. specialize (H i). lia. Qed.

Lemma sum_list_drop (f g : nat → nat) l i d :
  (∀ i, (f i <= g i)%nat) → i ∈ l → (f i + d <= g i)%nat →
  (sum_list (f <$> l) + d <= sum_list (g <$> l))%nat.
Proof.
  intros H Hi Hd. induction l as [|j l IH]; [by apply elem_of_nil in Hi|].
  apply elem_of_cons in Hi as [<-|Hi]; cbn.
  - pose proof (sum_list_le f g l H). lia.
  - specialize (IH Hi). specialize (H j). lia.
Qed.

Section pump.
Context {R : Type} {RC : CommandRunner R}.
Implicit Types (p q : Player R) (i j : nat) (s : StepStatus) (r : StepRun) (b : bool).

Lemma phi_at_le p i : (phi_at p i <= 2)%nat.
Proof.
  unfold phi_at. destruct (status_ p !! i) as [s|]; [|lia].
  destruct (runs_ p !! i); [|lia]. destruct s; cbn; lia.
Qed.

Lemma Phi_bound p : (Phi p <= 2 * length (status_ p))%nat.
Proof.
  assert (∀ l, sum_list (phi_at p <$> l) <= 2 * length l)%nat as H.
  { induction l as [|i l IH]; cbn; [lia|]. pose proof (phi_at_le p i). lia. }
  specialize (H (seq 0 (length (status_ p)))). by rewrite length_seq in H.
Qed.

Lemma Phi_mono p q : length (status_ q) = length (status_ p) →
  (∀ i, (phi_at q i <= phi_at p i)%nat) → (Phi q <= Phi p)%nat.
Proof. intros Hl H. unfold Phi. rewrite Hl. by apply sum_list_le. Qed.

Lemma Phi_drop p q i d : length (status_ q) = length (status_ p) →
  (∀ j, (phi_at q j <= phi_at p j)%nat) → (phi_at q i + d <= phi_at p i)%nat → (0 < d)%nat →
  (Phi q + d <= Phi p)%nat.
Proof.
  intros Hl H Hd Hpos. unfold Phi. rewrite Hl. apply (sum_list_drop _ _ _ i); [done| |done].
  apply elem_of_seq. split; [lia|]. unfold phi_at in Hd.
  destruct (status_ p !! i) eqn:E; [by apply lookup_lt_Some in E|lia].
Qed.

Lemma outcome_length p q : Core p → outcome p q → length (status_ q) = length (status_ p).
Proof.
  intros Hc [(Hc' & _ & _) (Hp & _) _ _ _ _]. rewrite (core_status q Hc'), (core_status p Hc).
  unfold steps_of. by rewrite Hp.
Qed.

(** ** The tick loop *)

(** [q] is [p] with nothing but the runner and its history changed. *)
Definition idle p q : Prop := status_ q = status_ p ∧ runs_ q = runs_ p.

Lemma tick_member_good p b k now :
  Good (frontier_ p) p → active p = true →
  let '(ticked, (b', q)) := tick_member now k (b, p) in
  outcome p q ∧ entry_order_ q = entry_order_ p ∧ (ticked = false → q = p) ∧
  ((b' = b ∧ idle p q) ∨ (b' = true ∧ (Phi q < Phi p)%nat)).
Proof.
  intros HG Hact. pose proof HG as (Hc & _ & _). unfold tick_member.
  assert (outcome p p ∧ entry_order_ p = entry_order_ p ∧ (false = false → p = p) ∧
    ((b = b ∧ idle p p) ∨ (b = true ∧ (Phi p < Phi p)%nat))) as Hno.
  { split_and!; [by apply outcome_refl|done|done|by left]. }
  destruct (status_is p (index_of k) StepStatus.Running) eqn:Hs; [|exact Hno].
  apply bool_decide_eq_true in Hs.
  destruct (find (program_ p) k) as [st|] eqn:Hf; [|exact Hno].
  destruct (match runner_next_tick _ _ with Some _ => _ | None => _ end); [exact Hno|].
  apply find_Some in Hf as (i & Hst & ->); [|apply Hc].
  assert (i < length (steps_of p))%nat as Hi by by eapply lookup_lt_Some.
  rewrite (index_of_positional p i Hc Hi) in Hs.
  destruct (running_step p i Hc Hs) as (st' & r & Hst' & Hr & Hid & Hix & _ & He & Hx & Hret).
  assert (st' = st) as -> by (unfold steps_of in *; congruence).
  assert (run_open r = true) as Ho by (unfold run_open; by rewrite He, Hx).
  pose proof (touches_tick i p _ r st now Hs Hr Hid Ho) as T.
  assert (frontier_ (call_tick p st now).2 = frontier_ p ∧ idle p (call_tick p st now).2) as [HF1 Hidle].
  { unfold call_tick. by destruct (runner_tick _ _ _). }
  destruct (call_tick p st now) as [x p1]. cbn [snd] in T, HF1, Hidle.
  assert (Good (frontier_ p1) p1) as HG1.
  { rewrite HF1. eapply touch_same; [done|exact T| |done]. by apply (core_step p Hc i). }
  assert (moves p p1) as Hm1 by (by eapply touch_moves; [exact T|done|]).
  assert (entry_order_ p1 = entry_order_ p) as He1 by apply T.
  case_decide as Hxr; [split_and!; [by apply outcome_moves|done|done|by left]|].
  assert (active p1 = true) as Hact1.
  { apply active_state. rewrite (mv_state _ _ Hm1). by apply active_state. }
  destruct (on_status_good p1 i x now HG1 (to_status _ _ _ _ _ _ _ T) Hact1)
    as (Ho1 & He2 & Hphi & _).
  split_and!; [by eapply moves_outcome|by rewrite He2|done|].
  right. split; [done|].
  pose proof (moves_outcome _ _ _ Hm1 Ho1) as Ho2.
  assert (Phi (on_status (positional i) x now p1) + 1 <= Phi p)%nat; [|lia].
  apply (Phi_drop _ _ i); [by apply outcome_length|apply Ho2| |lia].
  specialize (Hphi Hxr). pose proof (mv_phi _ _ Hm1 i). lia.
Qed.

Lemma tick_loop_good l p b now :
  Good (frontier_ p) p → active p = true →
  let '(b', q) := tick_loop now l (b, p) in
  outcome p q ∧ entry_order_ q = entry_order_ p ∧
  ((b' = b ∧ idle p q) ∨ (b' = true ∧ (Phi q < Phi p)%nat)).
Proof.
  revert p b. induction l as [|k l IH]; intros p b HG Hact; cbn [tick_loop].
  { split_and!; [by apply outcome_refl|done|by left]. }
  pose proof (tick_member_good p b k now HG Hact) as Hk.
  destruct (tick_member now k (b, p)) as [ticked [b1 p1]].
  destruct Hk as (Ho1 & He1 & Hsame & Hprog). cbn [snd].
  destruct (ticked && negb (active p1)) eqn:Hbreak; [done|].
  assert (active p1 = true) as Hact1.
  { destruct ticked; [by apply negb_false_iff in Hbreak|by rewrite Hsame]. }
  pose proof (outcome_active _ _ Ho1 Hact1) as Hm1.
  specialize (IH p1 b1 (oc_good _ _ Ho1) Hact1).
  destruct (tick_loop now l (b1, p1)) as [b2 p2]. destruct IH as (Ho2 & He2 & Hprog2).
  split_and!; [by eapply moves_outcome|congruence|].
  assert (Phi p2 <= Phi p1)%nat as Hle2.
  { apply Phi_mono; [|apply Ho2]. eapply outcome_length; [apply Ho1|done]. }
  assert (Phi p1 <= Phi p)%nat as Hle1.
  { apply Phi_mono; [|apply Ho1]. eapply outcome_length; [apply HG|done]. }
  destruct Hprog2 as [[-> [Es2 Er2]]|[-> Hlt]]; [|right; split; [done|lia]].
  destruct Hprog as [[-> [Es1 Er1]]|[-> Hlt]]; [|right; split; [done|lia]].
  left. split; [done|]. split; congruence.
Qed.

(** ** The enter loop *)

Lemma due_idle now p q i : idle p q → due now q i → due now p i.
Proof. intros [Hs Hr]. unfold due. by rewrite Hs, Hr. Qed.

Lemma enter_member_good p b k now :
  Good (frontier_ p) p → state_ p = PlayState.Playing →
  let '(entered, (b', q)) := enter_member now k (b, p) in
  outcome p q ∧
  ((entered = false ∧ b' = b ∧ q = p ∧ (∀ i, due now p i → positional i ≠ k)) ∨
   (entered = true ∧ b' = true ∧ ∃ i, k = positional i ∧ due now p i ∧
      entry_order_ q = entry_order_ p ++ [k] ∧
      ((Phi q + 2 <= Phi p)%nat ∨
       (status_ q !! i = Some StepStatus.Running ∧ agree_off i (status_ p) (status_ q) ∧
        agree_off i (runs_ p) (runs_ q))))).
Proof.
  intros HG Hplay. pose proof HG as (Hc & _ & _). unfold enter_member.
  assert (outcome p p) as Hrefl by by apply outcome_refl.
  destruct (status_is p (index_of k) StepStatus.Ready &&
    negb (bool_decide (now < run_ready_at (run_at p (index_of k))))) eqn:Hready; last first.
  { split; [done|]. left. split_and!; [done..|]. intros i (Hs & r & Hr & Hle) E. subst k.
    rewrite (index_of_positional p i Hc) in Hready by by eapply core_status_lt.
    apply andb_false_iff in Hready as [Hn|Hn].
    - by apply bool_decide_eq_false in Hn.
    - apply negb_false_iff, bool_decide_eq_true in Hn. unfold run_at in Hn. rewrite Hr in Hn.
      cbn in Hn. lia. }
  apply andb_true_iff in Hready as [Hs%bool_decide_eq_true Hle].
  apply negb_true_iff, bool_decide_eq_false in Hle.
  destruct (find (program_ p) k) as [st|] eqn:Hf; last first.
  { split; [done|]. left. split_and!; [done..|]. intros i (Hsi & _) E. subst k.
    destruct (core_lookup p i Hc) as (st & ? & ? & _ & _ & _ & _ & _ & Hf');
      [by eapply core_status_lt|congruence]. }
  apply find_Some in Hf as (i & Hst & ->); [|apply Hc].
  assert (i < length (steps_of p))%nat as Hi by by eapply lookup_lt_Some.
  rewrite (index_of_positional p i Hc Hi) in Hs, Hle.
  destruct (core_lookup p i Hc Hi) as (st' & s' & r & Hst' & Hs' & Hr & Hid & Hix & Hf').
  assert (st' = st) as -> by (unfold steps_of in *; congruence).
  assert (due now p i) as Hdue.
  { split; [done|]. exists r. split; [done|]. unfold run_at in Hle. rewrite Hr in Hle. cbn in Hle. lia. }
  fold (enter_body (positional i) st now p).
  destruct (enter_body_good p i st now HG Hst Hs) as (HG1 & Hm1 & Hs1 & Hphi1 & Hos1 & Hor1 & He1 & HF1).
  destruct (enter_body (positional i) st now p) as [x p1]. cbn [snd] in *.
  assert (active p1 = true) as Hact1.
  { apply active_state. rewrite (mv_state _ _ Hm1). by left. }
  destruct (on_status_good p1 i x now HG1 Hs1 Hact1) as (Ho2 & He2 & _ & Hcase).
  pose proof (moves_outcome _ _ _ Hm1 Ho2) as Ho.
  split; [done|]. right. split_and!; [done..|]. exists i. split_and!; [done..|congruence|].
  destruct Hcase as [(r1 & r2 & T)|Hzero].
  - right. destruct Hos1 as [Hl1 Ho1], Hor1 as [Hl1' Ho1'].
    destruct (to_statuses _ _ _ _ _ _ _ T) as [Hl2 Hos2], (to_runs _ _ _ _ _ _ _ T) as [Hl2' Hor2].
    split; [apply T|]. split; (split; [congruence|]); intros j Hj.
    + by rewrite Hos2, Ho1.
    + by rewrite Hor2, Ho1'.
  - left. apply (Phi_drop _ _ i); [by apply outcome_length|apply Ho| |lia].
    rewrite Hzero. unfold phi_at. rewrite Hs, Hr. cbn. lia.
Qed.

(** After the loop, a due step means that an entered one completed at once. *)
Lemma enter_loop_good l p b now :
  Good (frontier_ p) p → state_ p = PlayState.Playing →
  let '(b', q) := enter_loop now l (b, p) in
  outcome p q ∧
  ((b' = b ∧ q = p) ∨ (b' = true ∧ ∃ i, due now p i)) ∧
  (state_ q = PlayState.Playing → (Phi q + 2 <= Phi p)%nat ∨
    ∀ i, due now q i → due now p i ∧ positional i ∉ l) ∧
  (∃ ks, entry_order_ q = entry_order_ p ++ ks).
Proof.
  revert p b. induction l as [|k l IH]; intros p b HG Hplay; cbn [enter_loop].
  { split_and!; [by apply outcome_refl|by left| |exists []; by rewrite app_nil_r].
    intros _. right. intros i Hd. split; [done|apply not_elem_of_nil]. }
  pose proof (enter_member_good p b k now HG Hplay) as Hk.
  destruct (enter_member now k (b, p)) as [entered [b1 p1]]. cbn [snd].
  destruct Hk as (Ho1 & [(-> & -> & -> & Hnk)|(-> & -> & i & -> & Hdue & He1 & Hcase)]).
  - cbn [andb]. specialize (IH p b HG Hplay). destruct (enter_loop now l (b, p)) as [b2 p2].
    destruct IH as (Ho2 & Hb & Hdue2 & Hks). split_and!; [done..| |done]. intros Hst.
    destruct (Hdue2 Hst) as [?|Hall]; [by left|right]. intros i Hd.
    destruct (Hall i Hd) as [Hd' Hni]. split; [done|]. rewrite elem_of_cons.
    intros [E|?]; [by eapply Hnk|done].
  - destruct (bool_decide (state_ p1 = PlayState.Playing)) eqn:Hst1; cbn [andb negb]; last first.
    { apply bool_decide_eq_false in Hst1. split_and!; [done|right; eauto|done|eauto]. }
    apply bool_decide_eq_true in Hst1.
    assert (active p1 = true) as Hact1 by (apply active_state; by left).
    pose proof (outcome_active _ _ Ho1 Hact1) as Hm1.
    specialize (IH p1 true (oc_good _ _ Ho1) Hst1).
    destruct (enter_loop now l (true, p1)) as [b2 p2].
    destruct IH as (Ho2 & Hb & Hdue2 & ks & Hks).
    assert (Phi p1 <= Phi p)%nat as Hle1.
    { apply Phi_mono; [|apply Ho1]. eapply outcome_length; [apply HG|done]. }
    assert (Phi p2 <= Phi p1)%nat as Hle2.
    { apply Phi_mono; [|apply Ho2]. eapply outcome_length; [apply Ho1|done]. }
    split_and!; [by eapply moves_outcome|right; split; [by destruct Hb as [[-> _]|[-> _]]|eauto]| |].
    + intros Hst2. destruct Hcase as [?|(Hr1 & [_ Hos] & [_ Hor])]; [left; lia|].
      destruct (Hdue2 Hst2) as [?|Hall]; [left; lia|right]. intros j Hd.
      destruct (Hall j Hd) as [[Hsj Hrj] Hnj].
      assert (j ≠ i) as Hne by (intros ->; congruence).
      split; [unfold due; by rewrite <- Hos, <- Hor|]. rewrite elem_of_cons.
      intros [E|?]; [|done]. apply Hne.
      pose proof (oc_good _ _ Ho1) as (Hc1 & _ & _).
      eapply (core_inj p1); [done|by eapply core_status_lt..|done].
    + exists ([positional i] ++ ks). rewrite Hks, He1. by rewrite <- app_assoc.
Qed.

(** ** The fixpoint loop *)

Lemma front_ready p i : Front (frontier_ p) p → status_ p !! i = Some StepStatus.Ready →
  positional i ∈ frontier_ p.
Proof. intros HF Hs. apply HF. by exists i, StepStatus.Ready. Qed.

(** One pass: whatever moved shows in the measure, and a due step is left only if
    two units of the measure went. *)
Lemma pump_iteration_good p now :
  Good (frontier_ p) p → active p = true →
  let '(b, q) := pump_iteration now p in
  outcome p q ∧
  (b = true → (Phi q < Phi p)%nat ∨ (state_ p = PlayState.Playing ∧ ∃ i, due now p i)) ∧
  (state_ q = PlayState.Playing → (∃ i, due now q i) → (Phi q + 2 <= Phi p)%nat) ∧
  (∃ ks, entry_order_ q = entry_order_ p ++ ks) ∧
  (state_ p = PlayState.Paused → entry_order_ q = entry_order_ p).
Proof.
  intros HG Hact. unfold pump_iteration.
  pose proof (tick_loop_good (frontier_ p) p false now HG Hact) as Ht.
  destruct (tick_loop now (frontier_ p) (false, p)) as [b1 p1]. destruct Ht as (Ho1 & He1 & Hprog).
  assert (Phi p1 <= Phi p)%nat as Hle1.
  { apply Phi_mono; [|apply Ho1]. eapply outcome_length; [apply HG|done]. }
  case_decide as Hplay; last first.
  { split_and!; [done| |done|exists []; by rewrite app_nil_r|done].
    intros ->. destruct Hprog as [[? _]|[_ ?]]; [done|by left]. }
  assert (active p1 = true) as Hact1 by (apply active_state; by left).
  pose proof (outcome_active _ _ Ho1 Hact1) as Hm1.
  assert (state_ p = PlayState.Playing) as Hplay0 by by rewrite <- (mv_state _ _ Hm1).
  pose proof (oc_good _ _ Ho1) as HG1.
  pose proof (enter_loop_good (frontier_ p1) p1 b1 now HG1 Hplay) as He.
  destruct (enter_loop now (frontier_ p1) (b1, p1)) as [b2 p2].
  destruct He as (Ho2 & Hb & Hdue & ks & Hks).
  assert (Phi p2 <= Phi p1)%nat as Hle2.
  { apply Phi_mono; [|apply Ho2]. eapply outcome_length; [apply HG1|done]. }
  split_and!; [by eapply moves_outcome| | |by exists ks; rewrite Hks, He1|congruence].
  - intros ->. destruct Hprog as [[-> Hidle]|[_ ?]]; [|left; lia].
    destruct Hb as [[? _]|[_ [i Hi]]]; [done|]. right. split; [done|]. exists i.
    by eapply due_idle.
  - intros Hst2 [i Hi]. destruct (Hdue Hst2) as [?|Hall]; [lia|].
    destruct (Hall i Hi) as [[Hs _] Hni]. exfalso. apply Hni.
    apply front_ready; [|done]. destruct HG1 as (_ & _ & ?). done.
Qed.

(** [Bound n p]: [n] more passes are enough. *)
Definition Bound (n : nat) now p : Prop :=
  (Phi p < n)%nat ∧ (state_ p = PlayState.Playing → (∃ i, due now p i) → (Phi p + 1 < n)%nat).

Lemma Bound_start p now : Bound (pump_limit p) now p.
Proof. unfold Bound, pump_limit. pose proof (Phi_bound p). lia. Qed.

Lemma Bound_step n p now :
  Good (frontier_ p) p → active p = true → Bound (S n) now p →
  (pump_iteration now p).1 = true → Bound n now (pump_iteration now p).2.
Proof.
  intros HG Hact [Hb1 Hb2] Hprog. pose proof (pump_iteration_good p now HG Hact) as Hit.
  destruct (pump_iteration now p) as [b q]. cbn [fst snd] in *. subst b.
  destruct Hit as (Ho & Hp & Hd & _). specialize (Hp eq_refl).
  assert (Phi q <= Phi p)%nat.
  { apply Phi_mono; [|apply Ho]. eapply outcome_length; [apply HG|done]. }
  split.
  - destruct Hp as [?|[Hpl Hdue]]; [lia|]. specialize (Hb2 Hpl Hdue). lia.
  - intros Hst Hdue. specialize (Hd Hst Hdue). lia.
Qed.

Lemma pump_loop_good n p now :
  Good (frontier_ p) p → active p = true →
  outcome p (pump_loop n now p) ∧ (∃ ks, entry_order_ (pump_loop n now p) = entry_order_ p ++ ks) ∧
  (state_ p = PlayState.Paused → entry_order_ (pump_loop n now p) = entry_order_ p).
Proof.
  revert p. induction n as [|n IH]; intros p HG Hact; cbn [pump_loop].
  { split_and!; [by apply outcome_refl|exists []; by rewrite app_nil_r|done]. }
  pose proof (pump_iteration_good p now HG Hact) as Hit.
  destruct (pump_iteration now p) as [b q]. destruct Hit as (Ho & _ & _ & (ks & Hks) & Hpaused).
  destruct (negb b); [split_and!; [done|eauto|done]|].
  destruct (active q) eqn:Hactq; cbn [negb]; [|split_and!; [done|eauto|done]].
  pose proof (outcome_active _ _ Ho Hactq) as Hm.
  destruct (IH q (oc_good _ _ Ho) Hactq) as (Ho2 & (ks2 & Hks2) & Hpaused2).
  split_and!; [by eapply moves_outcome| |].
  - exists (ks ++ ks2). by rewrite Hks2, Hks, app_assoc.
  - intros Hst. rewrite Hpaused2; [by apply Hpaused|]. by rewrite (mv_state _ _ Hm).
Qed.

(** Within the bound the loop stops because nothing moved or the run ended, so a
    larger limit changes nothing. *)
Lemma pump_loop_stable n m p now :
  Good (frontier_ p) p → active p = true → Bound n now p → (n <= m)%nat →
  pump_loop m now p = pump_loop n now p.
Proof.
  revert m p. induction n as [|n IH]; intros m p HG Hact Hb Hle.
  { destruct Hb as [Hb _]. lia. }
  destruct m as [|m]; [lia|]. cbn [pump_loop].
  pose proof (pump_iteration_good p now HG Hact) as Hit.
  pose proof (Bound_step n p now HG Hact Hb) as Hbound.
  destruct (pump_iteration now p) as [[] q]; [|done]. cbn [negb fst snd] in *.
  destruct Hit as (Ho & _). destruct (active q) eqn:Hactq; [|done]. cbn [negb].
  apply IH; [apply Ho|done|by apply Hbound|lia].
Qed.

(** What the loop leaves is at rest: another pass would move nothing. *)
Lemma pump_loop_rests n p now :
  Good (frontier_ p) p → active p = true → Bound n now p →
  active (pump_loop n now p) = false ∨
  ∃ q, outcome p q ∧ pump_iteration now q = (false, pump_loop n now p).
Proof.
  revert p. induction n as [|n IH]; intros p HG Hact Hb.
  { destruct Hb as [Hb _]. lia. }
  cbn [pump_loop]. pose proof (pump_iteration_good p now HG Hact) as Hit.
  pose proof (Bound_step n p now HG Hact Hb) as Hbound.
  destruct (pump_iteration now p) as [[] q] eqn:E; cbn [negb fst snd] in *.
  - destruct Hit as (Ho & _). destruct (active q) eqn:Hactq; cbn [negb]; [|by left].
    pose proof (outcome_active _ _ Ho Hactq) as Hm.
    destruct (IH q (oc_good _ _ Ho) Hactq (Hbound eq_refl)) as [?|(q' & Ho' & E')]; [by left|].
    right. exists q'. split; [by eapply moves_outcome|done].
  - right. exists p. split; [by apply outcome_refl|done].
Qed.

End pump.
