(* ===== verification/PlayerRun.v ===== *)
(** Whole runs: the invariant holds in every state a caller can bring a player
    to, and the theorems about runs that follow from it. *)

From S2P Require Import Prelude Graph Errors StepTypes Command Sequence Identity Player.
From S2P Require Import PlayerInv PlayerJump PlayerSteps PlayerPump.

(** What one call of a caller guarantees. *)
Record sound {R} (p p' : Player R) : Prop := {
  so_inv : Inv p';
  so_program : same_program p p';
  so_advances : advances p p'
}.

Section run.
Context {R : Type} {RC : CommandRunner R}.
Implicit Types (p q : Player R) (i j : nat) (s : StepStatus) (r : StepRun) (op : PlayerOp).

(** Members outside the invariant. *)
Lemma good_ignores F p p' :
  program_ p' = program_ p → status_ p' = status_ p → runs_ p' = runs_ p →
  entry_order_ p' = entry_order_ p → history_ p' = history_ p → Good F p → Good F p'.
Proof.
  intros Ep Es Er Ee Eh ([] & Hcl & HF).
  split_and!; [split|..]; unfold Closed, Front, steps_of in *;
    rewrite ?Ep, ?Es, ?Er, ?Ee, ?Eh; done.
Qed.

Lemma sound_refl p : Inv p → sound p p.
Proof. intros H. split; [done|done|]. by intros i s. Qed.

Lemma report_run_sound p q : sound p q → sound p (report_run q).
Proof.
  intros [[HG Hst] Hp Ha]. unfold report_run. destruct (reported_ q); [by split|].
  destruct (state_ q) eqn:E; try by split.
  all: split; [|done|done]; split; [by eapply good_ignores; [..|exact HG]|done].
Qed.

(** ** Starting *)

Lemma construct_inv prog (rn : R) u : WFSeq prog → Inv (construct prog rn u).
Proof.
  intros Hs. unfold construct. split; [|split; [done|]]; cbn.
  - split_and!.
    + split; cbn; rewrite ?length_replicate; try done.
      * intros i st r [-> _]%lookup_replicate [-> _]%lookup_replicate.
        split; [cbn; unfold maxRetriesPerStep; lia|done].
      * constructor.
      * intros k. rewrite elem_of_nil. split; [done|].
        by intros (i & r & _ & [-> _]%lookup_replicate & ?).
      * by intros i r [-> _]%lookup_replicate.
      * by intros i r [-> _]%lookup_replicate ?.
    + intros j i st [-> _]%lookup_replicate. done.
    + split; [constructor|]. intros k. rewrite elem_of_nil. split; [done|].
      by intros (i & st & _ & [-> _]%lookup_replicate & ?).
  - by intros i st [-> _]%lookup_replicate.
Qed.

Lemma admit_roots_good l0 l p :
  Good (frontier_ p) p → steps_of p = l0 ++ l →
  (∀ i, (length l0 <= i < length (steps_of p))%nat → status_ p !! i = Some StepStatus.Pending) →
  Good (frontier_ (foldl admit_root p l)) (foldl admit_root p l) ∧
  moves p (foldl admit_root p l) ∧
  history_ (foldl admit_root p l) = history_ p ∧
  entry_order_ (foldl admit_root p l) = entry_order_ p ∧
  (∀ i, (i < length l0)%nat → status_ (foldl admit_root p l) !! i = status_ p !! i) ∧
  (∀ i st, (length l0 <= i)%nat → steps_of p !! i = Some st →
    status_ (foldl admit_root p l) !! i = Some StepStatus.Pending → after st ≠ []).
Proof.
  revert l0 p. induction l as [|st l IH]; intros l0 p HG Hsteps Hpend; cbn.
  { split_and!; [done|apply moves_refl|done|done|done|]. intros i st Hi Hst _.
    rewrite Hsteps, app_nil_r in Hst. apply lookup_lt_Some in Hst. lia. }
  pose proof HG as (Hc & _ & _).
  assert (steps_of p !! length l0 = Some st) as Hst by (rewrite Hsteps; by apply list_lookup_middle).
  assert (length l0 < length (steps_of p))%nat as Hi by by eapply lookup_lt_Some.
  assert (steps_of p = (l0 ++ [st]) ++ l) as Hsteps' by by rewrite <- app_assoc.
  assert (length (l0 ++ [st]) = S (length l0)) as Hlen by (rewrite length_app; cbn; lia).
  destruct (after st) as [|a al] eqn:Ha; last first.
  - assert (admit_root p st = p) as -> by (unfold admit_root; by rewrite Ha).
    destruct (IH (l0 ++ [st]) p HG Hsteps') as (? & ? & ? & ? & Hold & Hroot);
      [intros; apply Hpend; lia|].
    split_and!; [done..|intros; apply Hold; lia|]. intros i st' Hge Hst' Hp.
    destruct (decide (i = length l0)) as [->|]; [congruence|]. apply (Hroot i); [lia|done..].
  - assert (admit_root p st = admit_to_frontier (positional (length l0)) (last_now_ p)
      (set_status (positional (length l0)) StepStatus.Ready p)) as ->.
    { unfold admit_root. rewrite Ha. by rewrite (wfs_id _ (core_prog p Hc) _ _ Hst). }
    destruct (admit_good p (length l0) (last_now_ p) HG) as (HG1 & Hm1 & _ & Hs1 & Hh1 & He1).
    { apply Hpend. lia. }
    { intros j (st' & Hst' & Hin & _). assert (st' = st) as -> by congruence.
      rewrite Ha in Hin. by apply elem_of_nil in Hin. }
    set (p1 := admit_to_frontier _ _ _) in *.
    assert (steps_of p1 = steps_of p) as Hsame.
    { unfold steps_of. by destruct (mv_program _ _ Hm1) as [-> _]. }
    destruct (IH (l0 ++ [st]) p1 HG1) as (? & Hm2 & Hh2 & He2 & Hold & Hroot).
    { by rewrite Hsame. }
    { intros i Hii. rewrite Hs1, list_lookup_insert_ne by lia. apply Hpend. rewrite Hsame in Hii. lia. }
    split_and!; [done|by eapply moves_trans|by rewrite Hh2|by rewrite He2| |].
    { intros i Hii. rewrite Hold by lia. by rewrite Hs1, list_lookup_insert_ne by lia. }
    intros i st' Hge Hst' Hp. rewrite <- Hsame in Hst'.
    destruct (decide (i = length l0)) as [->|]; [|apply (Hroot i); [lia|done..]].
    exfalso. rewrite Hold, Hs1, list_lookup_insert_eq in Hp; [done|by rewrite (core_status p Hc)|lia].
Qed.

(** ** Every call keeps the invariant *)

Lemma inv_failure p : Inv p → active p = true → failure_ p = None.
Proof.
  intros [_ Hst] [E|E]%active_state; unfold state_ok in Hst; by rewrite E in Hst.
Qed.

Lemma moves_sound p q : Inv p → Good (frontier_ q) q → moves p q → active p = true → sound p q.
Proof.
  intros Hinv HG Hm Hact. pose proof (inv_failure p Hinv Hact) as Hf.
  split; [|apply Hm|apply Hm]. split; [done|]. unfold state_ok.
  rewrite (mv_state _ _ Hm), (mv_failure _ _ Hm). by apply active_state in Hact as [-> | ->].
Qed.

Lemma outcome_sound p q : Inv p → active p = true → outcome p q → sound p q.
Proof.
  intros Hinv Hact Ho. pose proof Ho as [HG Hp Ha Hl Hphi He].
  destruct He as [[Hs Hf]|(Hs & Hf & HF)].
  - apply moves_sound; [done..| |done]. by split.
  - split; [|done|done]. split; [done|]. unfold state_ok. by rewrite Hs.
Qed.

Lemma set_state_sound x p q :
  sound p q → state_ok (set_play_state x q) → sound p (set_state x q).
Proof.
  intros [[HG Hst] Hp Ha] Hok. unfold set_state. case_decide; [by split|].
  split; [|done|done]. split; [|done]. by apply good_set_state.
Qed.

Lemma play_sound p : Inv p → sound p (play p).2.
Proof.
  intros Hinv. pose proof Hinv as [HG Hst]. unfold play.
  destruct (state_ p) eqn:E; try by apply sound_refl.
  - cbn. unfold set_state. rewrite decide_False by congruence.
    unfold state_ok in Hst. rewrite E in Hst. destruct Hst as [Hf Hpend].
    set (p1 := set_play_state PlayState.Playing p).
    destruct (admit_roots_good [] (steps (program_ p)) p1) as (HG1 & Hm1 & _).
    { by apply good_set_state. } { done. }
    { intros i Hi. destruct HG as (Hc & _).
      destruct (core_lookup p i Hc) as (? & s & ? & _ & Hs & _); [apply Hi|].
      change (status_ p !! i = Some StepStatus.Pending). by rewrite Hs, (Hpend i s Hs). }
    split; [|apply Hm1|apply Hm1]. split; [done|]. unfold state_ok.
    by rewrite (mv_state _ _ Hm1), (mv_failure _ _ Hm1).
  - cbn. apply set_state_sound; [by apply sound_refl|]. cbn.
    unfold state_ok in *. rewrite E in Hst. done.
Qed.

Lemma pause_sound p : Inv p → sound p (pause p).2.
Proof.
  intros Hinv. pose proof Hinv as [HG Hst]. unfold pause.
  destruct (state_ p) eqn:E; try by apply sound_refl.
  apply set_state_sound; [by apply sound_refl|]. unfold state_ok in *. by rewrite E in Hst.
Qed.

Lemma interrupt_good p : Inv p → active p = true →
  sound p (interrupt p).2 ∧ (interrupt p).1 = Ok tt ∧
  state_ (interrupt p).2 = PlayState.Interrupted ∧ frontier_ (interrupt p).2 = [] ∧
  entry_order_ (interrupt p).2 = entry_order_ p.
Proof.
  intros Hinv Hact. unfold interrupt. rewrite Hact. cbn.
  destruct (unwind_good p (last_now_ p)) as (HG1 & Hm1 & HF1 & He1); [apply Hinv|].
  set (p1 := unwind (last_now_ p) p) in *.
  assert (state_ p1 ≠ PlayState.Interrupted) as Hne.
  { rewrite (mv_state _ _ Hm1). by apply active_state in Hact as [-> | ->]. }
  assert (∀ q, (state_ (report_run q) = state_ q) ∧ frontier_ (report_run q) = frontier_ q ∧
    entry_order_ (report_run q) = entry_order_ q) as Hrep.
  { intros q. unfold report_run. destruct (reported_ q); [done|]. by repeat case_match. }
  destruct (Hrep (set_state PlayState.Interrupted p1)) as (-> & -> & ->).
  unfold set_state. rewrite decide_False by done. split_and!; try done.
  apply report_run_sound. rewrite <- HF1 in HG1.
  split; [|apply Hm1|apply Hm1]. split; [by apply good_set_state|done].
Qed.

Lemma interrupt_sound p : Inv p → sound p (interrupt p).2.
Proof.
  intros Hinv. destruct (active p) eqn:Hact; [by apply interrupt_good|].
  unfold interrupt. rewrite Hact. by apply sound_refl.
Qed.

(** The first loop of [skip]: [l] is what is left of the frontier. *)
Lemma skip_members_good l now q :
  Good l q → frontier_ q = [] →
  Good [] (foldl (skip_member now) q l) ∧ moves q (foldl (skip_member now) q l) ∧
  frontier_ (foldl (skip_member now) q l) = [] ∧
  entry_order_ (foldl (skip_member now) q l) = entry_order_ q ∧
  (∀ k, k ∈ l → is_terminal (foldl (skip_member now) q l) k = true).
Proof.
  revert q. induction l as [|k l IH]; intros q HG Hf; cbn.
  { split_and!; [done|apply moves_refl|done|done|by intros k ?%elem_of_nil]. }
  pose proof HG as (Hc & Hcl & HF).
  assert (k ∈ k :: l) as Hk by by left.
  apply (proj2 HF) in Hk as (i & s & -> & Hs & Hl). pose proof (core_status_lt _ _ _ Hc Hs) as Hi.
  destruct (core_lookup q i Hc Hi) as (st & s' & r & Hst & Hs' & Hr & Hid & Hix & Hfind).
  assert (s' = s) as -> by congruence.
  assert (skip_member now q (positional i) =
    skip_step now (positional i) (exit_open now (positional i) q)) as ->.
  { unfold skip_member. by rewrite Hix, Hs. }
  destruct (touches_skip i q s r st now Hix Hfind Hid) as (r' & T & Hok & HFq);
    [by apply (core_step q Hc i)|done..|].
  set (q1 := skip_step _ _ _) in *.
  destruct (touch_retire i q q1 _ _ r r' (positional i :: l) HG T) as [HG1 Ha1];
    [done|done|by intros ->|by destruct s|].
  assert (moves q q1) as Hm1 by (eapply touch_moves; [exact T|by destruct s|cbn; lia]).
  cbn [erase_first] in HG1. rewrite decide_True in HG1 by done.
  destruct (IH q1 HG1) as (HG2 & Hm2 & Hf2 & He2 & Ht2); [by rewrite HFq|].
  split_and!; [done|by eapply moves_trans|done| |].
  - rewrite He2. apply T.
  - intros k [->|Hk]%elem_of_cons; [|by apply Ht2].
    apply (is_terminal_advances q1); [apply Hm2|]. unfold is_terminal. rewrite Hix.
    by rewrite (to_status _ _ _ _ _ _ _ T).
Qed.

Lemma admit_all_good l q :
  Good (frontier_ q) q →
  let q' := foldl (λ p k, admit_successors k p) q l in
  Good (frontier_ q') q' ∧ moves q q' ∧ entry_order_ q' = entry_order_ q.
Proof.
  intros HG. apply (foldl_inv _ (λ q', Good (frontier_ q') q' ∧ moves q q' ∧
    entry_order_ q' = entry_order_ q)); [|split_and!; [done|apply moves_refl|done]].
  intros q' k _ (HG' & Hm & He). destruct (admit_successors_good q' k HG') as (? & ? & _ & He').
  split_and!; [done|by eapply moves_trans|congruence].
Qed.

(** [if( state_ == Playing && frontier_.empty() ) set_state( Done )]. *)
Lemma finish_sound p q :
  sound p q →
  sound p (if decide (state_ q = PlayState.Playing ∧ frontier_ q = [])
           then set_state PlayState.Done q else q).
Proof.
  intros Hs. case_decide as E; [|done]. destruct E as [E1 E2].
  apply set_state_sound; [done|]. destruct Hs as [[_ Hst] _ _].
  unfold state_ok in *. rewrite E1 in Hst. by split.
Qed.

Lemma skip_sound p : Inv p → sound p (skip p).2.
Proof.
  intros Hinv. unfold skip. destruct (active p) eqn:Hact; [|by apply sound_refl]. cbn.
  apply report_run_sound, finish_sound. pose proof Hinv as [HG _].
  set (p1 := set_frontier [] p).
  destruct (skip_members_good (frontier_ p) (last_now_ p) p1) as (HG2 & Hm2 & HF2 & _ & _).
  { by eapply good_ignores; [..|exact HG]. } { done. }
  set (p2 := foldl _ p1 _) in *. rewrite <- HF2 in HG2.
  destruct (admit_all_good (frontier_ p) p2 HG2) as (HG3 & Hm3 & _).
  apply moves_sound; [done|done| |done]. eapply moves_trans; [|done].
  eapply moves_trans; [apply moves_set_frontier|done].
Qed.

Lemma goto_step_sound k p : Inv p → sound p (goto_step k p).2.
Proof.
  intros Hinv. unfold goto_step. destruct (active p) eqn:Hact; [|by apply sound_refl].
  destruct (jump_cases p k) as [[e ->]|(t & p' & _ & _ & _ & -> & HG & Hm & _)];
    [apply Hinv|by apply sound_refl|by apply moves_sound].
Qed.

Lemma goto_label_sound text p : Inv p → sound p (goto_label text p).2.
Proof.
  intros Hinv. unfold goto_label. destruct (resolve_label _ _); [by apply goto_step_sound|].
  by apply sound_refl.
Qed.

Lemma set_last_now_inv now p : Inv p → Inv (set_last_now now p).
Proof. intros [HG Hst]. split; [by eapply good_ignores; [..|exact HG]|done]. Qed.

Lemma sound_set_last_now now p q : sound (set_last_now now p) q → sound p q.
Proof. intros [Hi Hp Ha]. by split. Qed.

Lemma pump_bounded_sound n now p : Inv p → sound p (pump_bounded n now p).2.
Proof.
  intros Hinv. apply (sound_set_last_now now). pose proof (set_last_now_inv now p Hinv) as Hinv1.
  unfold pump_bounded. set (p1 := set_last_now now p) in *.
  destruct (active p1) eqn:Hact; [|by apply sound_refl]. cbn.
  apply report_run_sound, finish_sound, outcome_sound; [done|done|].
  by apply pump_loop_good; [apply Hinv1|].
Qed.

Lemma player_step_sound op p : Inv p → sound p (player_step op p).2.
Proof.
  intros Hinv. destruct op; cbn [player_step].
  - by apply play_sound.
  - by apply pause_sound.
  - by apply interrupt_sound.
  - by apply skip_sound.
  - by apply goto_step_sound.
  - by apply goto_label_sound.
  - by apply pump_bounded_sound.
Qed.

Lemma player_run_sound ops p : Inv p → sound p (player_run ops p).
Proof.
  revert p. induction ops as [|op ops IH]; intros p Hinv; [by apply sound_refl|].
  change (player_run (op :: ops) p) with (player_run ops (player_step op p).2).
  destruct (player_step_sound op p Hinv) as [Hinv1 Hp1 Ha1].
  destruct (IH _ Hinv1) as [Hinv2 Hp2 Ha2].
  split; [done|by eapply same_program_trans|by eapply advances_trans].
Qed.

Lemma run_inv prog (rn : R) u ops : WFSeq prog → Inv (player_run ops (construct prog rn u)).
Proof. intros Hs. by apply player_run_sound, construct_inv. Qed.

End run.
