(* ===== verification/PlayerTheorems.v ===== *)
(** What a run guarantees, stated for every document [build] accepts, every
    runner, and every sequence of calls a caller can make. *)

From S2P Require Import Prelude Graph Errors StepTypes Command Sequence Identity Player.
From S2P Require Import PlayerInv PlayerJump PlayerSteps PlayerPump PlayerRun.

(** ** A runner to exhibit the hypotheses *)

(** Every body succeeds at once, except that waits run until they are due. *)
Definition demo_runner : CommandRunner (list StepId) := {|
  runner_enter := λ r step now,
    match command step with
    | WaitCommand _ => (Status.Running, id step :: r)
    | _ => (Status.Success, id step :: r)
    end;
  runner_tick := λ r step now, (if decide (5000000000 <= now) then Status.Success
                                else Status.Running, r);
  runner_exit := λ r step now, (NeutralizationOutcome.NothingHeld, r);
  runner_join := default_join;
  runner_release_holds := default_release_holds;
  runner_last_error := default_last_error;
  runner_next_tick := λ r step, Some 5000000000;
  runner_declared_duration := default_declared_duration
|}.

Definition demo_id : Uuid := MkUuid (replicate 16 0%N).

Definition demo_sequence : Sequence :=
  match build demo_steps default_pacing "demo" with Ok s => s | Err _ => empty_sequence end.

Lemma demo_built : build demo_steps default_pacing "demo" = Ok demo_sequence.
Proof.
  assert (is_ok (build demo_steps default_pacing "demo") = true) as H by by vm_compute.
  unfold demo_sequence. by destruct (build demo_steps default_pacing "demo").
Qed.

(** The calls that end a step's hold on the seat, by step, newest first. *)
Definition released (h : list Call) : list StepId :=
  omap (λ c, match c with CallExit k _ | CallReleaseHolds k => Some k | _ => None end) h.

Section theorems.
Context {R : Type} {RC : CommandRunner R}.
Implicit Types (p q : Player R) (i j : nat) (op : PlayerOp).

Lemma built_inv l pc nm prog (rn : R) u ops :
  build l pc nm = Ok prog → Inv (player_run ops (construct prog rn u)).
Proof. intros [Hs _]%build_Ok. by apply run_inv. Qed.

Lemma built_program l pc nm prog (rn : R) u ops :
  build l pc nm = Ok prog → program_ (player_run ops (construct prog rn u)) = prog.
Proof.
  intros [Hs _]%build_Ok.
  by destruct (so_program _ _ (player_run_sound ops _ (construct_inv prog rn u Hs))) as (-> & _).
Qed.

Lemma built_steps l pc nm prog (rn : R) u ops :
  build l pc nm = Ok prog → steps_of (player_run ops (construct prog rn u)) = stamp l.
Proof.
  intros Hb. unfold steps_of. rewrite (built_program _ _ _ _ rn u ops Hb).
  by apply build_Ok in Hb as (_ & -> & _).
Qed.

(** ** The runner's protocol *)

Lemma inv_frontier p : Inv p → active p = false → frontier_ p = [].
Proof.
  intros [(_ & _ & _ & HF) Hst] Hact. unfold state_ok in Hst. unfold active in Hact.
  destruct (state_ p); try done; [|by apply Hst].
  destruct (frontier_ p) as [|k F]; [done|].
  destruct (proj1 (HF k) (list_elem_of_here _ _)) as (i & s & _ & Hs & Hl).
  destruct Hst as [_ Hall]. rewrite (Hall i s Hs) in Hl. done.
Qed.

Lemma inv_protocol p : Inv p →
  protocol (history_ p) ∧
  (∀ i, (i < length (steps_of p))%nat →
    opened (history_ p) (positional i) = true ↔ status_ p !! i = Some StepStatus.Running) ∧
  (active p = false →
    ∀ i, (i < length (steps_of p))%nat → opened (history_ p) (positional i) = false).
Proof.
  intros Hinv. pose proof Hinv as [(Hc & _ & HF) _].
  assert (∀ i, (i < length (steps_of p))%nat →
    opened (history_ p) (positional i) = true ↔ status_ p !! i = Some StepStatus.Running) as Hop.
  { intros i Hi. destruct (core_lookup p i Hc) as (st & s & r & _ & Hs & Hr & _); [done|].
    rewrite (core_opened p Hc i r Hr), Hs. pose proof (core_step p Hc i s r Hs Hr) as [_ Hok].
    unfold run_open. destruct s, (run_entered r), (run_exited r); cbn in Hok |- *; intuition congruence. }
  split_and!; [apply Hc|done|]. intros Hact i Hi.
  destruct (opened (history_ p) (positional i)) eqn:E; [|done]. apply Hop in E; [|done].
  assert (positional i ∈ frontier_ p) as Hin by (apply HF; by exists i, StepStatus.Running).
  rewrite (inv_frontier p Hinv Hact) in Hin. by apply elem_of_nil in Hin.
Qed.

(** C2: the runner is never misused.  Whatever the document, the runner and the
    calls made on the player, the calls the runner has seen obey its protocol:
    enter only a step that is not open, tick, join and exit only an open one, reap
    holds only after an exit; a step is open exactly while its status is Running;
    and in a run that is not playing or paused nothing is left open.  So every
    enter is matched by exactly one exit, on every path. *)
Theorem run_respects_protocol (l : list Step) pc nm prog (rn : R) u ops :
  build l pc nm = Ok prog →
  let p := player_run ops (construct prog rn u) in
  protocol (history_ p) ∧
  (∀ i, (i < length l)%nat →
    opened (history_ p) (positional i) = true ↔ status_ p !! i = Some StepStatus.Running) ∧
  (active p = false → ∀ i, (i < length l)%nat → opened (history_ p) (positional i) = false).
Proof.
  intros Hb p. pose proof (inv_protocol p (built_inv _ _ _ _ rn u ops Hb)) as H.
  unfold p in H. by rewrite (built_steps _ _ _ _ rn u ops Hb), length_stamp in H.
Qed.

(** ** Dependencies and the frontier *)

(** C1: dependencies are respected and the frontier is exact.  In every reachable
    state a step that has left Pending has all its direct and indirect
    predecessors terminal; the frontier lists the Ready and Running steps, each
    once; entered steps are listed once each; and outside Playing and Paused the
    frontier is empty. *)
Theorem run_respects_dependencies (l : list Step) pc nm prog (rn : R) u ops :
  build l pc nm = Ok prog →
  let p := player_run ops (construct prog rn u) in
  (∀ i j, (i < length l)%nat → status_of p (positional i) ≠ StepStatus.Pending →
    tc (depends l) j i → terminal_status (status_of p (positional j)) = true) ∧
  (∀ k, k ∈ frontier_ p ↔ ∃ i, (i < length l)%nat ∧ k = positional i ∧
    (status_of p k = StepStatus.Ready ∨ status_of p k = StepStatus.Running)) ∧
  NoDup (frontier_ p) ∧ NoDup (entry_order_ p) ∧
  (active p = false → frontier_ p = []).
Proof.
  intros Hb p. pose proof (built_inv _ _ _ _ rn u ops Hb) as [(Hc & Hcl & HF) Hst].
  pose proof (built_steps _ _ _ _ rn u ops Hb) as Hsteps. fold p in Hc, Hcl, HF, Hst, Hsteps.
  assert (length (steps_of p) = length l) as Hlen by by rewrite Hsteps, length_stamp.
  assert (∀ i, (i < length l)%nat → ∃ s, status_ p !! i = Some s ∧
    status_of p (positional i) = s) as Hlook.
  { intros i Hi. destruct (core_lookup p i Hc) as (st & s & r & _ & Hs & _ & _ & Hix & _); [lia|].
    exists s. split; [done|]. unfold status_of. by rewrite positional_not_nil, Hix, Hs. }
  split_and!; [| |apply HF|apply Hc|].
  - intros i j Hi Hne Htc. destruct (Hlook i Hi) as (s & Hs & E). rewrite E in Hne.
    assert (tc (depends (steps_of p)) j i) as Htc'.
    { revert Htc. apply tc_iff. intros x y. by rewrite Hsteps, depends_stamp. }
    destruct (closed_tc p j i s Hcl Hs Hne Htc') as (s' & Hs' & Ht).
    pose proof (tc_depends_lt _ _ _ Htc) as [Hj _].
    destruct (Hlook j Hj) as (s'' & Hs'' & ->). congruence.
  - intros k. rewrite (proj2 HF). split.
    + intros (i & s & -> & Hs & Hl). assert (i < length l)%nat as Hi.
      { rewrite <- Hlen. by eapply core_status_lt. }
      exists i. destruct (Hlook i Hi) as (s' & Hs' & ->). assert (s' = s) as -> by congruence.
      split_and!; [done..|]. destruct s; naive_solver.
    + intros (i & Hi & -> & Hor). destruct (Hlook i Hi) as (s & Hs & E). rewrite E in Hor.
      exists i, s. split_and!; [done..|]. by destruct Hor as [-> | ->].
  - by apply inv_frontier, built_inv with (1 := Hb).
Qed.

(** ** The pump's bound *)

(** C4: the pump's iteration limit never bites.  In every reachable state, pumping
    with any larger limit than the code's 2n + 2 does exactly the same, so the
    limit never cuts a pump short of its fixpoint. *)
Theorem pump_limit_is_enough (l : list Step) pc nm prog (rn : R) u ops m now :
  build l pc nm = Ok prog →
  let p := player_run ops (construct prog rn u) in
  (pump_limit p <= m)%nat → pump_bounded m now p = pump now p.
Proof.
  intros Hb p Hm. pose proof (built_inv _ _ _ _ rn u ops Hb) as Hinv. fold p in Hinv.
  pose proof (set_last_now_inv now p Hinv) as [HG _]. unfold pump, pump_bounded.
  destruct (active (set_last_now now p)) eqn:Hact; [|done].
  rewrite (pump_loop_stable (pump_limit p) m); [done|done|done| |done].
  apply (Bound_start (set_last_now now p)).
Qed.

(** ** Deadlines *)

Lemma fold_earlier_le p F best d :
  foldl (λ best k, earlier best (deadline_of p k)) best F = Some d →
  (∀ b, best = Some b → d <= b) ∧ (∀ k c, k ∈ F → deadline_of p k = Some c → d <= c).
Proof.
  revert best. induction F as [|k F IH]; intros best; cbn.
  - intros ->. split; [intros ? [= ->]; lia|by intros k c ?%elem_of_nil].
  - intros [Hb HF]%IH. split.
    + intros b ->. destruct (deadline_of p k) as [c|] eqn:E; cbn in Hb; [|by apply Hb].
      destruct (decide (c < b)); [|by apply Hb]. specialize (Hb c eq_refl). lia.
    + intros k' c [->|Hk]%elem_of_cons Hd; [|by eapply HF]. rewrite Hd in Hb.
      destruct best as [b|]; cbn in Hb; [|by apply Hb].
      destruct (decide (c < b)); [by apply Hb|]. specialize (Hb b eq_refl). lia.
Qed.

Lemma fold_earlier_Some p F best :
  is_Some best ∨ (∃ k, k ∈ F ∧ is_Some (deadline_of p k)) →
  is_Some (foldl (λ best k, earlier best (deadline_of p k)) best F).
Proof.
  revert best. induction F as [|k F IH]; intros best; cbn.
  - intros [?|(k & []%elem_of_nil & _)]; done.
  - intros [[b ->]|(k' & [->|Hk]%elem_of_cons & Hd)]; apply IH.
    + left. unfold earlier. destruct (deadline_of p k); [|eauto]. case_decide; eauto.
    + left. destruct Hd as [c ->]. unfold earlier. destruct best; [case_decide|]; eauto.
    + right. eauto.
Qed.

Lemma next_deadline_quiet p d now :
  Good (frontier_ p) p → next_deadline p = Some d → last_now_ p <= now < d →
  pump_iteration now (set_last_now now p) = (false, set_last_now now p).
Proof.
  intros HG Hd Hnow. unfold next_deadline in Hd. destruct (active p) eqn:Hact; [|done].
  apply fold_earlier_le in Hd as [_ Hd]. set (p1 := set_last_now now p).
  assert (∀ l, (∀ k, k ∈ l → k ∈ frontier_ p) → tick_loop now l (false, p1) = (false, p1)) as Htick.
  { induction l as [|k l IH]; intros Hl; [done|]. cbn [tick_loop].
    assert (tick_member now k (false, p1) = (false, (false, p1))) as ->.
    { unfold tick_member. destruct (status_is p1 (index_of k) StepStatus.Running) eqn:Hs; [|done].
      apply bool_decide_eq_true in Hs. cbn in Hs. change (program_ p1) with (program_ p).
      destruct (find (program_ p) k) as [st|] eqn:Hf; [|done].
      change (runner_ p1) with (runner_ p).
      assert (∃ c, deadline_of p k = Some c ∧
        c = default (last_now_ p) (runner_next_tick (runner_ p) st)) as (c & Hc & Ec).
      { unfold deadline_of. rewrite Hs, Hf. destruct (runner_next_tick _ _); eauto. }
      specialize (Hd k c (Hl k (list_elem_of_here _ _)) Hc).
      destruct (runner_next_tick (runner_ p) st); cbn in Ec; [|lia].
      rewrite bool_decide_true by lia. done. }
    cbn [andb]. apply IH. intros k' Hk'. apply Hl. by right. }
  assert (∀ l, state_ p = PlayState.Playing → (∀ k, k ∈ l → k ∈ frontier_ p) →
    enter_loop now l (false, p1) = (false, p1)) as Henter.
  { induction l as [|k l IH]; intros Hpl Hl; [done|]. cbn [enter_loop].
    assert (enter_member now k (false, p1) = (false, (false, p1))) as ->.
    { unfold enter_member.
      destruct (status_is p1 (index_of k) StepStatus.Ready) eqn:Hs; [|done]. cbn [andb].
      apply bool_decide_eq_true in Hs. cbn in Hs.
      assert (deadline_of p k = Some (run_ready_at (run_at p (index_of k)))) as Hc.
      { unfold deadline_of. by rewrite Hs, decide_True. }
      specialize (Hd k _ (Hl k (list_elem_of_here _ _)) Hc).
      change (run_at p1 (index_of k)) with (run_at p (index_of k)).
      rewrite bool_decide_true by lia. done. }
    cbn [andb]. apply IH; [done|]. intros k' Hk'. apply Hl. by right. }
  unfold pump_iteration. change (frontier_ p1) with (frontier_ p). rewrite Htick by done.
  change (state_ p1) with (state_ p). case_decide; [|done]. by apply Henter.
Qed.

(** [next_deadline] is safe to sleep on.  In every reachable state, pumping at
    any time from the last pump up to but excluding the deadline it states changes
    nothing but the recorded time and makes no call to the runner. *)
Theorem next_deadline_is_sound (l : list Step) pc nm prog (rn : R) u ops d now :
  build l pc nm = Ok prog →
  let p := player_run ops (construct prog rn u) in
  next_deadline p = Some d → last_now_ p <= now < d →
  pump now p = (Ok tt, set_last_now now p).
Proof.
  intros Hb p Hd Hnow. pose proof (built_inv _ _ _ _ rn u ops Hb) as Hinv. fold p in Hinv.
  pose proof Hinv as [HG Hst]. pose proof (next_deadline_quiet p d now HG Hd Hnow) as Hit.
  assert (active p = true) as Hact by (unfold next_deadline in Hd; by destruct (active p)).
  pose proof (inv_failure p Hinv Hact) as Hfail.
  unfold pump, pump_bounded. set (p1 := set_last_now now p) in *.
  change (active p1) with (active p). rewrite Hact. unfold pump_limit.
  rewrite Nat.add_comm. cbn [Nat.add pump_loop]. rewrite Hit. cbn [negb].
  rewrite decide_False; last first.
  { intros [_ HF]. change (frontier_ p1) with (frontier_ p) in HF.
    unfold next_deadline in Hd. rewrite Hact, HF in Hd. done. }
  assert (report_run p1 = p1) as ->.
  { unfold report_run. destruct (reported_ p1); [done|]. change (state_ p1) with (state_ p).
    by apply active_state in Hact as [-> | ->]. }
  change (failure_ p1) with (failure_ p). by rewrite Hfail.
Qed.

Lemma inv_deadline p : Inv p →
  (state_ p = PlayState.Playing → frontier_ p ≠ [] → is_Some (next_deadline p)) ∧
  (state_ p = PlayState.Paused → (∃ i, status_ p !! i = Some StepStatus.Running) →
    is_Some (next_deadline p)).
Proof.
  intros [(Hc & _ & HF) _].
  assert (∀ i s, status_ p !! i = Some s →
    s = StepStatus.Running ∨ (s = StepStatus.Ready ∧ state_ p = PlayState.Playing) →
    is_Some (deadline_of p (positional i))) as Hdl.
  { intros i s Hs Hor. pose proof (core_status_lt _ _ _ Hc Hs) as Hi.
    destruct (core_lookup p i Hc Hi) as (st & s' & r & _ & _ & _ & _ & Hix & Hf).
    unfold deadline_of. rewrite Hix, Hs.
    destruct Hor as [-> |[-> Hpl]]; [|rewrite decide_True by done; eauto].
    rewrite Hf. destruct (runner_next_tick _ _); eauto. }
  split.
  - intros Hpl Hne. unfold next_deadline, active. rewrite Hpl. apply fold_earlier_Some. right.
    destruct (frontier_ p) as [|k F] eqn:EF; [done|]. exists k. split; [by left|].
    destruct (proj1 (proj2 HF k) (list_elem_of_here _ _)) as (i & s & -> & Hs & Hl).
    apply (Hdl i s Hs). destruct s; naive_solver.
  - intros Hpa [i Hs]. unfold next_deadline, active. rewrite Hpa. apply fold_earlier_Some. right.
    exists (positional i). split; [apply HF; by exists i, StepStatus.Running|].
    apply (Hdl i _ Hs). by left.
Qed.

(** A playing run never stalls: while it is Playing with a non-empty frontier
    it states a deadline, and a paused one does while any step is running. *)
Theorem playing_run_has_deadline (l : list Step) pc nm prog (rn : R) u ops :
  build l pc nm = Ok prog →
  let p := player_run ops (construct prog rn u) in
  (state_ p = PlayState.Playing → frontier_ p ≠ [] → is_Some (next_deadline p)) ∧
  (state_ p = PlayState.Paused → (∃ i, status_ p !! i = Some StepStatus.Running) →
    is_Some (next_deadline p)).
Proof. intros Hb p. exact (inv_deadline p (built_inv _ _ _ _ rn u ops Hb)). Qed.

(** ** Pausing *)

(** A paused run admits nothing: pumping it enters no step that was not entered
    before, however many of its running steps complete. *)
Theorem paused_run_enters_nothing (l : list Step) pc nm prog (rn : R) u ops now :
  build l pc nm = Ok prog →
  let p := player_run ops (construct prog rn u) in
  state_ p = PlayState.Paused →
  entry_order_ (pump now p).2 = entry_order_ p ∧
  (∀ i, status_ (pump now p).2 !! i = Some StepStatus.Running →
    status_ p !! i = Some StepStatus.Running).
Proof.
  intros Hb p Hpa. pose proof (built_inv _ _ _ _ rn u ops Hb) as Hinv. fold p in Hinv.
  pose proof (pump_bounded_sound (pump_limit p) now p Hinv) as [Hinv' _ Hadv].
  fold (pump now p) in Hinv', Hadv.
  assert (entry_order_ (pump now p).2 = entry_order_ p) as He.
  { unfold pump, pump_bounded. set (p1 := set_last_now now p).
    assert (active p1 = true) as -> by (apply active_state; by right). cbn.
    destruct (pump_loop_good (pump_limit p) p1 now) as (_ & _ & He).
    { apply set_last_now_inv, Hinv. } { apply active_state. by right. }
    transitivity (entry_order_ (pump_loop (pump_limit p) now p1)); [|exact (He Hpa)].
    unfold report_run, set_state. repeat case_match; done. }
  split; [done|]. intros i Hi. pose proof Hinv' as [(Hc' & _ & _) _].
  pose proof Hinv as [(Hc & _ & _) _].
  pose proof (core_status_lt _ _ _ Hc' Hi) as Hlt.
  destruct (core_lookup _ i Hc' Hlt) as (_ & s' & r' & _ & Hs' & Hr' & _).
  pose proof (core_step _ Hc' i _ r' Hi Hr') as [_ [He' _]].
  assert (positional i ∈ entry_order_ p) as Hin by (rewrite <- He; apply (core_entry _ Hc'); eauto).
  apply (core_entry p Hc) in Hin as (j & r & E & Hr & Hen).
  assert (j < length (steps_of p))%nat as Hj.
  { apply lookup_lt_Some in Hr. by rewrite (core_runs p Hc) in Hr. }
  destruct (core_lookup p j Hc Hj) as (_ & s & r2 & _ & Hs & Hr2 & _).
  assert (r2 = r) as -> by congruence.
  assert (i = j) as <-.
  { pose proof (wfs_size _ (core_prog _ Hc')). pose proof (wfs_size _ (core_prog _ Hc)).
    unfold steps_of in *. apply positional_inj; [lia|lia|done]. }
  pose proof (core_step p Hc i s r Hs Hr) as [_ Hok]. destruct s; try done.
  - destruct Hok. congruence.
  - destruct Hok. congruence.
  - pose proof (Hadv _ _ Hs eq_refl). congruence.
  - pose proof (Hadv _ _ Hs eq_refl). congruence.
  - pose proof (Hadv _ _ Hs eq_refl). congruence.
Qed.

(** ** Retries *)

(** A possibly committed effect is never re-sent, and no step is re-entered
    more than once: an error of that code goes straight to the failure path, so
    does any error of a step that is not idempotent or was retried already; in
    every reachable state no step has used more than one retry. *)
Theorem retries_are_bounded (l : list Step) pc nm prog (rn : R) u ops :
  build l pc nm = Ok prog →
  let p := player_run ops (construct prog rn u) in
  (∀ i r, runs_ p !! i = Some r → (run_retries r <= 1)%nat) ∧
  (∀ i st r x now, find prog (positional i) = Some st → runs_ p !! i = Some r →
    x ≠ Status.Running → x ≠ Status.Success →
    let code := runner_last_error (runner_ p) st in
    code = ErrorCode.PossiblyCommitted ∨ retry_class_of_step st ≠ RetryClass.Idempotent ∨
      run_retries r = 1%nat →
    on_status (positional i) x now p = fail_step (positional i) code now p).
Proof.
  intros Hb p. pose proof (built_inv _ _ _ _ rn u ops Hb) as [(Hc & _ & _) _]. fold p in Hc.
  pose proof (built_program _ _ _ _ rn u ops Hb) as Hprog. fold p in Hprog.
  assert (∀ i r, runs_ p !! i = Some r → (i < length (steps_of p))%nat) as Hlt.
  { intros i r Hr. apply lookup_lt_Some in Hr. by rewrite (core_runs p Hc) in Hr. }
  split.
  - intros i r Hr. destruct (core_lookup p i Hc (Hlt i r Hr)) as (_ & s & r' & _ & Hs & _).
    by destruct (core_step p Hc i s r Hs Hr).
  - intros i st r x now Hf Hr Hxr Hxs code Hor.
    pose proof (index_of_positional p i Hc (Hlt i r Hr)) as Hix.
    assert (on_status (positional i) x now p = on_status (positional i) Status.Failure now p) as ->
      by by destruct x.
    cbn. rewrite Hprog, Hf, Hix. fold code.
    assert (run_at p i = r) as -> by (unfold run_at; by rewrite Hr).
    assert (may_retry st code && bool_decide (run_retries r < maxRetriesPerStep)%nat = false) as ->;
      [|done].
    unfold may_retry, maxRetriesPerStep. case_decide; [done|].
    destruct Hor as [?|[Hn|E]]; [done|by rewrite bool_decide_false|].
    rewrite (bool_decide_false (run_retries r < 1)%nat) by lia. apply andb_false_r.
Qed.

(** ** Ends *)

(** What ended stays ended: no call changes the status of a terminal step, and
    once a run is Done or Interrupted no call changes anything but the recorded
    time. *)
Theorem ended_is_final (l : list Step) pc nm prog (rn : R) u ops op :
  build l pc nm = Ok prog →
  let p := player_run ops (construct prog rn u) in
  let p' := (player_step op p).2 in
  (∀ i s, status_ p !! i = Some s → terminal_status s = true → status_ p' !! i = Some s) ∧
  (state_ p = PlayState.Done ∨ state_ p = PlayState.Interrupted →
    p' = p ∨ ∃ now, op = OpPump now ∧ p' = set_last_now now p).
Proof.
  intros Hb p p'. pose proof (built_inv _ _ _ _ rn u ops Hb) as Hinv. fold p in Hinv.
  split; [apply (so_advances _ _ (player_step_sound op p Hinv))|].
  intros Hst. assert (active p = false) as Hact by (unfold active; by destruct Hst as [-> | ->]).
  unfold p'. destruct op; cbn [player_step].
  - left. unfold play. by destruct Hst as [-> | ->].
  - left. unfold pause. by destruct Hst as [-> | ->].
  - left. unfold interrupt. by rewrite Hact.
  - left. unfold skip. by rewrite Hact.
  - left. unfold goto_step. by rewrite Hact.
  - left. unfold goto_label, goto_step. destruct (resolve_label _ _); [by rewrite Hact|done].
  - right. exists now. split; [done|]. unfold pump, pump_bounded.
    change (active (set_last_now now p)) with (active p). by rewrite Hact.
Qed.

(** ** Jumps *)

(** A goto succeeds exactly towards a step that exists and is not terminal, and
    then the frontier is that step alone, its ancestors are all terminal, and
    nothing that was terminal changed.  In particular the check against the
    frontier's ancestors never refuses a jump the terminal check let through. *)
Theorem goto_is_forward_only (l : list Step) pc nm prog (rn : R) u ops k :
  build l pc nm = Ok prog →
  let p := player_run ops (construct prog rn u) in
  active p = true →
  ((goto_step k p).1 = Ok tt ↔ is_Some (find prog k) ∧ is_terminal p k = false) ∧
  ((goto_step k p).1 = Ok tt →
    let p' := (goto_step k p).2 in
    frontier_ p' = [k] ∧ (∀ a, a ∈ ancestors_of prog k → is_terminal p' a = true) ∧
    entry_order_ p' = entry_order_ p) ∧
  ((goto_step k p).1 ≠ Ok tt → (goto_step k p).2 = p).
Proof.
  intros Hb p Hact. pose proof (built_inv _ _ _ _ rn u ops Hb) as [HG _]. fold p in HG.
  pose proof (built_program _ _ _ _ rn u ops Hb) as Hprog. fold p in Hprog.
  pose proof HG as (Hc & _ & _). unfold goto_step. rewrite Hact.
  destruct (jump_cases p k HG) as [[e E]|(t & p' & -> & Ht & Hnt & E & HG' & Hm & HF & He & Hanc)];
    rewrite E; cbn.
  - split_and!; [|done|done]. split; [done|]. intros [[st Hf] Hnt].
    rewrite <- Hprog in Hf. apply find_Some in Hf as (t & Ht & ->); [|apply Hc].
    destruct (jump_good p t st HG Ht Hnt) as (p' & E' & _). congruence.
  - split_and!; [|by rewrite <- Hprog|done]. split; [|done]. intros _. split; [|done].
    destruct (core_lookup p t Hc Ht) as (st & _ & _ & _ & _ & _ & _ & _ & Hf).
    rewrite <- Hprog. eauto.
Qed.

(** ** Unwinding *)

Lemma unwind_entered_released now p q k :
  k ∈ entry_order_ p → winds (ended p) p q →
  released (history_ (unwind_entered now q k)) = k :: released (history_ q).
Proof.
  intros Hk Hw. pose proof (wd_core _ _ _ Hw) as Hc.
  rewrite <- (wd_entry_order _ _ _ Hw) in Hk. apply (core_entry q Hc) in Hk as (i & r & -> & Hr & He).
  assert (i < length (steps_of q))%nat as Hi
    by by (apply lookup_lt_Some in Hr; rewrite (core_runs q Hc) in Hr).
  destruct (core_lookup q i Hc Hi) as (st & s & r' & Hst & Hs & Hr' & Hid & Hix & Hf).
  unfold unwind_entered. rewrite Hix, Hr, He. cbn [negb].
  destruct (run_exited r) eqn:Hx.
  - unfold reap_holds. rewrite Hf. unfold call_release_holds.
    destruct (runner_release_holds _ _). cbn. by rewrite Hid.
  - set (q1 := modify_run i (run_set_duration now) q).
    assert (released (history_ (neutralize (positional i) now q1).2) =
      positional i :: released (history_ q)) as Hn.
    { unfold neutralize. rewrite Hix.
      assert (runs_ q1 !! i = Some (run_set_duration now r)) as ->.
      { unfold q1. cbn. by rewrite list_lookup_alter_eq, Hr. }
      cbn [run_entered run_exited run_set_duration]. rewrite He, Hx. cbn [negb orb].
      change (program_ q1) with (program_ q). rewrite Hf.
      destruct (is_blocking_command _); unfold call_exit, call_join;
        destruct (runner_exit _ _ _); cbn; by rewrite Hid. }
    destruct (from_option terminal_status false _); exact Hn.
Qed.

Lemma unwind_released now p :
  Good (frontier_ p) p →
  released (history_ (unwind now p)) = entry_order_ p ++ released (history_ p).
Proof.
  intros HG. pose proof HG as (Hc & _ & HF). unfold unwind.
  assert (∀ l q, (∀ k, k ∈ l → k ∈ entry_order_ p) → winds (ended p) p q →
    released (history_ (foldl (unwind_entered now) q l)) = rev l ++ released (history_ q)) as H1.
  { induction l as [|k l IH]; intros q Hl Hw; cbn; [done|].
    rewrite IH.
    - rewrite (unwind_entered_released now p q k); [by rewrite <- app_assoc| |done].
      apply Hl. by left.
    - intros k' Hk'. apply Hl. by right.
    - apply unwind_entered_step; [|done]. apply Hl. by left. }
  assert (∀ l q, history_ (foldl (unwind_ready now) q l) = history_ q) as H2.
  { induction l as [|k l IH]; intros q; cbn; [done|]. rewrite IH. unfold unwind_ready.
    by repeat case_match. }
  change (history_ (set_frontier [] ?q)) with (history_ q). rewrite H2, H1, rev_involutive.
  - done.
  - intros k Hk%list_elem_of_In%in_rev%list_elem_of_In. done.
  - by apply winds_refl.
Qed.

(** C3: an interrupt lets go of everything, in reverse: on a run that is playing or
    paused it succeeds, leaves the run Interrupted with an empty frontier and
    nothing open, and for every step ever entered, newest entry first, makes
    exactly one call that releases it: an exit if it was still open, a reaping of
    its holds if it had been exited. *)
Theorem interrupt_releases_in_reverse (l : list Step) pc nm prog (rn : R) u ops :
  build l pc nm = Ok prog →
  let p := player_run ops (construct prog rn u) in
  active p = true →
  let p' := (interrupt p).2 in
  (interrupt p).1 = Ok tt ∧ state_ p' = PlayState.Interrupted ∧ frontier_ p' = [] ∧
  (∀ i, (i < length l)%nat → opened (history_ p') (positional i) = false) ∧
  released (history_ p') = entry_order_ p ++ released (history_ p).
Proof.
  intros Hb p Hact p'. pose proof (built_inv _ _ _ _ rn u ops Hb) as Hinv. fold p in Hinv.
  pose proof (built_steps _ _ _ _ rn u ops Hb) as Hsteps. fold p in Hsteps.
  destruct (interrupt_good p Hinv Hact) as (Hs & Hok & Hst & HF & _).
  split_and!; [done..| |].
  - intros i Hi. destruct (so_inv _ _ Hs) as [(Hc' & _ & HF') _].
    destruct (so_program _ _ Hs) as (Hp & _).
    destruct (core_lookup p' i Hc') as (_ & s & r & _ & Hs' & Hr' & _).
    { unfold steps_of, p'. rewrite Hp. fold (steps_of p). by rewrite Hsteps, length_stamp. }
    rewrite (core_opened p' Hc' i r Hr'). pose proof (core_step p' Hc' i s r Hs' Hr') as [_ Hok'].
    assert (s ≠ StepStatus.Running) as Hnr.
    { intros ->. assert (positional i ∈ frontier_ p') as Hin
        by (apply HF'; by exists i, StepStatus.Running).
      unfold p' in Hin. rewrite HF in Hin. by apply elem_of_nil in Hin. }
    unfold run_open. destruct s, (run_entered r), (run_exited r); cbn in Hok' |- *; intuition congruence.
  - unfold p', interrupt. rewrite Hact. cbn [snd].
    assert (∀ q, history_ (report_run (set_state PlayState.Interrupted q)) = history_ q) as ->.
    { intros q. unfold report_run, set_state. by repeat case_match. }
    apply unwind_released, Hinv.
Qed.

End theorems.

(** ** The hypotheses can hold *)

Section witnesses.
Local Existing Instance demo_runner.
Local Abbreviation demo_run ops := (player_run ops (construct demo_sequence [] demo_id)).

Lemma run_respects_protocol_witness :
  protocol (history_ (demo_run [OpPlay; OpPump 0; OpPump 5000000000])).
Proof.
  destruct (run_respects_protocol demo_steps default_pacing "demo" demo_sequence [] demo_id
    [OpPlay; OpPump 0; OpPump 5000000000] demo_built) as [H _]. exact H.
Defined.

Lemma run_respects_dependencies_witness :
  NoDup (frontier_ (demo_run [OpPlay; OpPump 0])).
Proof.
  destruct (run_respects_dependencies demo_steps default_pacing "demo" demo_sequence [] demo_id
    [OpPlay; OpPump 0] demo_built) as (_ & _ & H & _). exact H.
Defined.

Lemma pump_limit_is_enough_witness :
  (8 <= 100)%nat ∧
  pump_bounded 100 0 (demo_run [OpPlay]) = pump 0 (demo_run [OpPlay]).
Proof.
  split; [lia|].
  assert (pump_limit (demo_run [OpPlay]) = 8%nat) as E by by vm_compute.
  refine (pump_limit_is_enough demo_steps default_pacing "demo" demo_sequence [] demo_id
    [OpPlay] 100 0 demo_built _). rewrite E. lia.
Defined.

Lemma next_deadline_is_sound_witness :
  next_deadline (demo_run [OpPlay; OpPump 0]) = Some 5000000000 ∧
  pump 4999999999 (demo_run [OpPlay; OpPump 0]) =
    (Ok tt, set_last_now 4999999999 (demo_run [OpPlay; OpPump 0])).
Proof.
  assert (next_deadline (demo_run [OpPlay; OpPump 0]) = Some 5000000000) as Hd by by vm_compute.
  split; [exact Hd|].
  refine (next_deadline_is_sound demo_steps default_pacing "demo" demo_sequence [] demo_id
    [OpPlay; OpPump 0] 5000000000 4999999999 demo_built Hd _).
  assert (last_now_ (demo_run [OpPlay; OpPump 0]) = 0) as E by by vm_compute.
  rewrite E. lia.
Defined.

Lemma playing_run_has_deadline_witness :
  state_ (demo_run [OpPlay; OpPump 0]) = PlayState.Playing ∧
  is_Some (next_deadline (demo_run [OpPlay; OpPump 0])).
Proof.
  assert (state_ (demo_run [OpPlay; OpPump 0]) = PlayState.Playing) as Hst by by vm_compute.
  split; [exact Hst|].
  destruct (playing_run_has_deadline demo_steps default_pacing "demo" demo_sequence [] demo_id
    [OpPlay; OpPump 0] demo_built) as [H _]. refine (H Hst _).
  assert (bool_decide (frontier_ (demo_run [OpPlay; OpPump 0]) = []) = false) as HF by by vm_compute.
  by apply bool_decide_eq_false in HF.
Defined.

Lemma paused_run_enters_nothing_witness :
  state_ (demo_run [OpPlay; OpPause]) = PlayState.Paused ∧
  entry_order_ (pump 0 (demo_run [OpPlay; OpPause])).2 = [].
Proof.
  assert (state_ (demo_run [OpPlay; OpPause]) = PlayState.Paused) as Hst by by vm_compute.
  split; [exact Hst|].
  destruct (paused_run_enters_nothing demo_steps default_pacing "demo" demo_sequence [] demo_id
    [OpPlay; OpPause] 0 demo_built Hst) as [E _].
  rewrite E. by vm_compute.
Defined.

Lemma retries_are_bounded_witness :
  (from_option run_retries 0 (runs_ (demo_run [OpPlay; OpPump 0]) !! 0) <= 1)%nat.
Proof.
  destruct (retries_are_bounded demo_steps default_pacing "demo" demo_sequence [] demo_id
    [OpPlay; OpPump 0] demo_built) as [H _].
  destruct (runs_ _ !! 0%nat) as [r|] eqn:E; cbn; [exact (H 0%nat r E)|lia].
Defined.

Lemma ended_is_final_witness :
  state_ (demo_run [OpPlay; OpPump 0; OpInterrupt]) = PlayState.Interrupted ∧
  (player_step OpPlay (demo_run [OpPlay; OpPump 0; OpInterrupt])).2 =
    demo_run [OpPlay; OpPump 0; OpInterrupt].
Proof.
  assert (state_ (demo_run [OpPlay; OpPump 0; OpInterrupt]) = PlayState.Interrupted) as Hst
    by by vm_compute.
  split; [exact Hst|].
  destruct (ended_is_final demo_steps default_pacing "demo" demo_sequence [] demo_id
    [OpPlay; OpPump 0; OpInterrupt] OpPlay demo_built) as [_ H].
  destruct (H (or_intror Hst)) as [E|(now & E & _)]; [exact E|discriminate E].
Defined.

Lemma goto_is_forward_only_witness :
  active (demo_run [OpPlay]) = true ∧
  frontier_ (goto_step (positional 2) (demo_run [OpPlay])).2 = [positional 2].
Proof.
  assert (active (demo_run [OpPlay]) = true) as Hact by by vm_compute.
  split; [exact Hact|].
  destruct (goto_is_forward_only demo_steps default_pacing "demo" demo_sequence [] demo_id
    [OpPlay] (positional 2) demo_built Hact) as (_ & H & _).
  destruct H as (HF & _); [by vm_compute|exact HF].
Defined.

Lemma interrupt_releases_in_reverse_witness :
  released (history_ (interrupt (demo_run [OpPlay; OpPump 0])).2) =
    [positional 0; positional 1; positional 0].
Proof.
  assert (active (demo_run [OpPlay; OpPump 0]) = true) as Hact by by vm_compute.
  destruct (interrupt_releases_in_reverse demo_steps default_pacing "demo" demo_sequence []
    demo_id [OpPlay; OpPump 0] demo_built Hact) as (_ & _ & _ & _ & E).
  rewrite E. apply (bool_decide_eq_true_1 _). vm_compute. reflexivity.
Defined.

End witnesses.
