(* ===== verification/Drive.v ===== *)
(** The real-time loop around a player ([kernel/sequence/drive.hpp] and [.cpp]).

    What the loop reads from outside is a list of [DriveTick]s, one per iteration:
    the two clock readings, what the [on_pump] callback made of the player (the
    calls it placed on it), what [cancelled] answered, and whether the timer thread
    had a wake descriptor.  Arming, polling and draining the timer touch nothing of
    the player; what is kept of them is the deadline armed and the poll's budget. *)

From S2P Require Import Prelude Errors StepTypes Command Sequence Identity Player.
From S2P Require Import PlayerInv PlayerSteps PlayerPump PlayerRun PlayerTheorems.

(** ** Waiting *)

Definition maximumWaitMs : Z := 250.
Definition minimumWaitMs : Z := 1.

(** Nanoseconds. *)
Definition opaquePollPeriod : Z := ms_to_ns 1.

(** [std::chrono::ceil<std::chrono::milliseconds>]. *)
Definition ceil_ms (ns : Z) : Z := - ((- ns) / 1000000).

(** What [wait_readable] passes to [poll], in milliseconds. *)
Definition wait_budget (remaining : Z) : Z :=
  Z.min (Z.max remaining minimumWaitMs) maximumWaitMs.

Definition wake_time (deadline now : Z) : Z :=
  if decide (now < deadline) then deadline else now + opaquePollPeriod.

(** ** The loop *)

Record DriveTick := MkTick {
  dt_pump_now : Z;
  dt_on_pump : list PlayerOp;
  dt_cancelled : bool;
  dt_now : Z;
  dt_wake_fd : bool
}.

(** The [break]s of the loop, with the [outcome] each one leaves. *)
Inductive DriveBreak :=
  | BreakFailed (error : Error)
  | BreakEnded
  | BreakCancelled
  | BreakStalled
  | BreakUnpaced.

Definition outcome_of (cancel_reason : string) (b : DriveBreak) : Result unit :=
  match b with
  | BreakFailed e => Err e
  | BreakEnded => Ok tt
  | BreakCancelled => fail ErrorCode.Cancelled cancel_reason
  | BreakStalled => fail ErrorCode.InternalFault "the run stalled: no step can advance"
  | BreakUnpaced =>
    fail ErrorCode.ProviderFailed
      "the timer thread has no wake descriptor, so the run cannot be paced"
  end.

Section drive.
Context {R : Type} {RC : CommandRunner R}.
Implicit Types (p : Player R) (b : DriveBreak).

(** [None] when the ticks run out before the loop ends. *)
Fixpoint drive_loop (ticks : list DriveTick) (p : Player R) : option (DriveBreak * Player R) :=
  match ticks with
  | [] => None
  | tick :: rest =>
    let pumped := (pump (dt_pump_now tick) p).1 in
    let p := player_run (dt_on_pump tick) (pump (dt_pump_now tick) p).2 in
    match pumped with
    | Err e => Some (BreakFailed e, p)
    | Ok _ =>
      if negb (active p) then Some (BreakEnded, p)
      else if dt_cancelled tick then Some (BreakCancelled, (interrupt p).2)
      else
        match next_deadline p with
        | None => Some (BreakStalled, p)
        | Some _ => if negb (dt_wake_fd tick) then Some (BreakUnpaced, p) else drive_loop rest p
        end
    end
  end.

Definition drive (cancel_reason : string) (ticks : list DriveTick) (p : Player R)
    : option (Result unit * Player R) :=
  match play p with
  | (Err e, p) => Some (Err e, p)
  | (Ok _, p) =>
    match drive_loop ticks p with
    | None => None
    | Some (b, p) => Some (outcome_of cancel_reason b, if active p then (interrupt p).2 else p)
    end
  end.

(** ** The waits are bounded and never early *)

Lemma wake_time_ahead deadline now : now < wake_time deadline now.
Proof. unfold wake_time, opaquePollPeriod, ms_to_ns. case_decide; lia. Qed.

Lemma wait_budget_covers ns :
  minimumWaitMs <= wait_budget (ceil_ms ns) <= maximumWaitMs ∧
  (ns <= ms_to_ns maximumWaitMs → ns <= ms_to_ns (wait_budget (ceil_ms ns))).
Proof.
  unfold wait_budget, ceil_ms, ms_to_ns, minimumWaitMs, maximumWaitMs.
  pose proof (Z.div_mod (- ns) 1000000). pose proof (Z.mod_pos_bound (- ns) 1000000). lia.
Qed.

(** ** A drive is a run *)

Lemma player_run_app ops1 ops2 p :
  player_run (ops1 ++ ops2) p = player_run ops2 (player_run ops1 p).
Proof. apply foldl_app. Qed.

Lemma drive_loop_runs ticks p b p' :
  drive_loop ticks p = Some (b, p') → ∃ ops, p' = player_run ops p.
Proof.
  revert p. induction ticks as [|tick ticks IH]; intros p Hd; [done|]. cbn [drive_loop] in Hd.
  change ((pump (dt_pump_now tick) p).2) with (player_run [OpPump (dt_pump_now tick)] p) in Hd.
  cbn zeta in Hd. rewrite <- player_run_app in Hd. set (ops := [_] ++ _) in Hd.
  assert (∀ q, q = player_run ops p → ∃ ops, q = player_run ops p) as Hex by eauto.
  destruct (pump (dt_pump_now tick) p).1; [|injection Hd as <- <-; auto].
  destruct (negb (active _)); [injection Hd as <- <-; auto|].
  destruct (dt_cancelled tick).
  { injection Hd as <- <-. exists (ops ++ [OpInterrupt]). by rewrite player_run_app. }
  destruct (next_deadline _); [|injection Hd as <- <-; auto].
  destruct (negb (dt_wake_fd tick)); [injection Hd as <- <-; auto|].
  apply IH in Hd as [ops' ->]. exists (ops ++ ops'). by rewrite player_run_app.
Qed.

(** ** It never stalls *)

(** A pump of a playing run ends it or leaves it playing with something to do. *)
Lemma pump_goes_on now p : Inv p → state_ p = PlayState.Playing →
  active (pump now p).2 = true →
  state_ (pump now p).2 = PlayState.Playing ∧ frontier_ (pump now p).2 ≠ [].
Proof.
  intros Hi Hpl. unfold pump, pump_bounded. set (p1 := set_last_now now p).
  assert (active p1 = true) as Hact by (apply active_state; by left). rewrite Hact. cbn [snd].
  destruct (pump_loop_good (pump_limit p) p1 now) as (Ho & _).
  { apply (set_last_now_inv now p Hi). } { done. }
  change (pump_limit p1) with (pump_limit p). set (q := pump_loop _ _ _) in *.
  assert (∀ q' : Player R, state_ (report_run q') = state_ q' ∧
    frontier_ (report_run q') = frontier_ q') as Hrep.
  { intros q'. unfold report_run. by repeat case_match. }
  unfold active. rewrite !(proj1 (Hrep _)), (proj2 (Hrep _)).
  destruct (oc_end _ _ Ho) as [[Hst _]|(Hst & _ & HF)].
  - change (state_ p1) with (state_ p) in Hst. rewrite Hpl in Hst.
    case_decide as Hd; [unfold set_state; rewrite Hst; done|]. rewrite Hst. tauto.
  - rewrite decide_False by (rewrite Hst; by intros [? _]). by rewrite Hst.
Qed.

Lemma drive_loop_advances ticks p b p' : Inv p → state_ p = PlayState.Playing →
  Forall (λ t, dt_on_pump t = []) ticks → drive_loop ticks p = Some (b, p') → b ≠ BreakStalled.
Proof.
  revert p. induction ticks as [|tick ticks IH]; intros p Hi Hpl Ht Hd; [done|].
  apply Forall_cons in Ht as [Ht Hts]. cbn [drive_loop] in Hd. rewrite Ht in Hd.
  pose proof (pump_goes_on (dt_pump_now tick) p Hi Hpl) as Hgo.
  pose proof (player_step_sound (OpPump (dt_pump_now tick)) p Hi) as Hs. cbn [player_step] in Hs.
  cbn [player_run foldl] in Hd. set (p1 := (pump (dt_pump_now tick) p).2) in *.
  destruct (pump (dt_pump_now tick) p).1; [|by injection Hd as <- _].
  destruct (active p1) eqn:Ha; cbn [negb] in Hd; [|by injection Hd as <- _].
  destruct (dt_cancelled tick); [by injection Hd as <- _|]. destruct (Hgo eq_refl) as [Hst HF].
  destruct (proj1 (inv_deadline p1 (so_inv _ _ Hs)) Hst HF) as [d Hd']. rewrite Hd' in Hd.
  destruct (dt_wake_fd tick); cbn [negb] in Hd; [|by injection Hd as <- _].
  by apply (IH p1); [apply Hs|..].
Qed.

(** ** Theorems *)

Lemma play_Ok p p' : play p = (Ok tt, p') → state_ p' = PlayState.Playing.
Proof.
  unfold play. destruct (state_ p) eqn:E; try done; intros [= <-]; [|done|].
  - set (q := set_state _ _). assert (state_ q = PlayState.Playing) as Hq.
    { unfold q, set_state. by case_decide. }
    clearbody q. revert q Hq. induction (steps (program_ p)) as [|st l IH]; intros q Hq; [done|].
    cbn. apply IH. unfold admit_root. by destruct (after st).
  - unfold set_state. by case_decide.
Qed.

Lemma play_Err p e p' : play p = (Err e, p') → p' = p ∧ active p = false.
Proof. unfold play, active. by destruct (state_ p); intros [= <-]. Qed.

Lemma drive_ends reason ticks p outcome p' : Inv p →
  drive reason ticks p = Some (outcome, p') → sound p p' ∧ active p' = false.
Proof.
  intros Hi Hd. unfold drive in Hd. pose proof (player_step_sound OpPlay p Hi) as Hs.
  cbn [player_step] in Hs. destruct (play p) as [[]  p1] eqn:Hpl; cbn [snd] in Hs; last first.
  { injection Hd as <- <-. by apply play_Err in Hpl as [-> ?]. }
  destruct (drive_loop ticks p1) as [[b q]|] eqn:El; [|done]. injection Hd as _ <-.
  apply drive_loop_runs in El as [ops ->].
  destruct (player_run_sound ops p1 (so_inv _ _ Hs)) as [Hi2 Hp2 Ha2].
  assert (sound p (player_run ops p1)) as Hs2.
  { split; [done|by eapply same_program_trans, Hp2; apply Hs|by eapply advances_trans, Ha2; apply Hs]. }
  destruct (active (player_run ops p1)) eqn:Ha; [|done].
  destruct (interrupt_good _ Hi2 Ha) as ([Hi3 Hp3 Ha3] & _ & Hst & _). split.
  - split; [done|by eapply same_program_trans, Hp3; apply Hs2|by eapply advances_trans, Ha3; apply Hs2].
  - unfold active. by rewrite Hst.
Qed.

(** C5: driving leaves nothing open.  Whatever the document, the runner, the state
    the player was driven from, the clock, the callbacks and the cancellations:
    when [drive] returns, the run is neither playing nor paused, its frontier is
    empty, the runner's protocol was kept and every step that was entered has been
    exited. *)
Theorem drive_leaves_nothing_open (l : list Step) pc nm prog (rn : R) u ops reason ticks
    outcome p' :
  build l pc nm = Ok prog →
  drive reason ticks (player_run ops (construct prog rn u)) = Some (outcome, p') →
  active p' = false ∧ frontier_ p' = [] ∧ protocol (history_ p') ∧
  ∀ i, (i < length l)%nat → opened (history_ p') (positional i) = false.
Proof.
  intros Hb Hd. destruct (drive_ends _ _ _ _ _ (built_inv _ _ _ _ rn u ops Hb) Hd) as [Hs Hact].
  destruct (inv_protocol p' (so_inv _ _ Hs)) as (Hpr & _ & Hopen).
  assert (length (steps_of p') = length l) as Hlen.
  { unfold steps_of. destruct (so_program _ _ Hs) as (-> & _). fold (steps_of (player_run ops
      (construct prog rn u))). by rewrite (built_steps _ _ _ _ rn u ops Hb), length_stamp. }
  split_and!; [done|by apply inv_frontier, Hact; apply Hs|done|].
  intros i Hi. apply Hopen; [done|lia].
Qed.

(** C35: a driven run never stalls.  As long as the callback leaves the player
    alone, the fault "the run stalled" is unreachable: every iteration that does
    not end the loop has a deadline to wait for, which lies ahead of the clock, and
    the poll's budget is between one and 250 milliseconds and never cuts a wait of
    up to 250 milliseconds short. *)
Theorem drive_never_stalls (l : list Step) pc nm prog (rn : R) u ops ticks p b p' :
  build l pc nm = Ok prog →
  play (player_run ops (construct prog rn u)) = (Ok tt, p) →
  Forall (λ t, dt_on_pump t = []) ticks →
  drive_loop ticks p = Some (b, p') →
  b ≠ BreakStalled ∧
  ∀ deadline now, now < wake_time deadline now ∧
    (let remaining := wake_time deadline now - now in
     minimumWaitMs <= wait_budget (ceil_ms remaining) <= maximumWaitMs ∧
     (remaining <= ms_to_ns maximumWaitMs →
      remaining <= ms_to_ns (wait_budget (ceil_ms remaining)))).
Proof.
  intros Hb Hpl Ht Hd. split.
  - eapply drive_loop_advances; [|by eapply play_Ok|done|done].
    change p with (Ok (T:=unit) tt, p).2. rewrite <- Hpl.
    exact (so_inv _ _ (player_step_sound OpPlay _ (built_inv _ _ _ _ rn u ops Hb))).
  - intros deadline now. split; [apply wake_time_ahead|apply wait_budget_covers].
Qed.

End drive.

(** ** The hypotheses can hold *)

Section witnesses.
Local Existing Instance demo_runner.

Definition demo_ticks : list DriveTick :=
  [MkTick 0 [] false 0 true; MkTick 5000000000 [] false 5000000000 true].

Definition demo_player : Player (list StepId) := construct demo_sequence [] demo_id.

Lemma drive_leaves_nothing_open_witness :
  match drive "cancelled" demo_ticks (player_run [] demo_player) with
  | Some (_, p') => active p' = false
  | None => False
  end.
Proof.
  destruct (drive "cancelled" demo_ticks (player_run [] demo_player)) as [[o p']|] eqn:E.
  - exact (proj1 (drive_leaves_nothing_open demo_steps default_pacing "demo" demo_sequence []
      demo_id [] "cancelled" demo_ticks o p' demo_built E)).
  - assert (bool_decide (is_Some (drive "cancelled" demo_ticks (player_run [] demo_player))) = true)
      as H by (vm_compute; reflexivity).
    rewrite E in H. discriminate H.
Defined.

Lemma drive_never_stalls_witness :
  match drive_loop demo_ticks (play (player_run [] demo_player)).2 with
  | Some (b, _) => b ≠ BreakStalled
  | None => False
  end.
Proof.
  destruct (drive_loop demo_ticks (play (player_run [] demo_player)).2) as [[b p']|] eqn:E.
  - refine (proj1 (drive_never_stalls demo_steps default_pacing "demo" demo_sequence []
      demo_id [] demo_ticks _ b p' demo_built _ _ E)).
    + reflexivity.
    + repeat constructor.
  - assert (bool_decide (is_Some (drive_loop demo_ticks (play (player_run [] demo_player)).2)) = true)
      as H by (vm_compute; reflexivity).
    rewrite E in H. discriminate H.
Defined.

End witnesses.
