(* ===== verification/UiTree.v ===== *)
(** The user-interface tree queries run on: roles and relations
    ([include/grab/role.hpp], [relation.hpp]), node records and snapshots
    ([include/grab/ui.hpp]), the navigation interface
    ([kernel/query/tree_nav.hpp]) and its snapshot implementation
    ([kernel/query/snapshot_tree_nav.hpp] and [.cpp]).

    The one-field identifier structs are their numbers. *)

From Stdlib Require Import Floats.SpecFloat.
From S2P Require Import Prelude EnumTable Geometry.

Local Open Scope string_scope.
Local Open Scope list_scope.

(** ** Identifiers and names *)

Abbreviation NodeId := N.
Abbreviation RoleId := N.
Abbreviation RelationId := N.
Abbreviation PropertyId := N.
Abbreviation RuntimeId := N.
Abbreviation TreeEpoch := N.
Abbreviation NodeGeneration := N.

Definition relationNames : list (RelationId * string) := [
  (0%N, "contains"); (1%N, "owns"); (2%N, "presented_on"); (3%N, "occupies");
  (4%N, "overlays"); (5%N, "active_child"); (6%N, "focus_within"); (7%N, "embeds");
  (8%N, "controls"); (9%N, "label_for"); (10%N, "labelled_by"); (11%N, "controlled_by");
  (12%N, "popup_for"); (13%N, "flows_to")].

Definition relation_name (relation : RelationId) : string :=
  text_of relationNames relation "unknown".

(** [relation::contains]. *)
Definition relation_contains : RelationId := 0.

Definition roleNames : list (RoleId * string) := [
  (0%N, "unknown"); (1%N, "application"); (2%N, "window"); (3%N, "document");
  (4%N, "dialog"); (5%N, "panel"); (6%N, "tab"); (7%N, "region"); (8%N, "popup");
  (9%N, "menu"); (10%N, "control"); (11%N, "text"); (12%N, "image"); (13%N, "list");
  (14%N, "table"); (15%N, "button"); (16%N, "checkbox"); (17%N, "radio_button");
  (18%N, "slider"); (19%N, "entry"); (20%N, "link"); (21%N, "menu_item")].

Definition role_name (role : RoleId) : string := text_of roleNames role "unknown".

(** [property::accessible_name] and [property::text]. *)
Definition property_accessible_name : PropertyId := 1.
Definition property_text : PropertyId := 2.

(** ** Properties *)

Inductive PropertyValue :=
  | NoValue
  | BoolValue (b : bool)
  | IntegerValue (z : Z)
  | NumberValue (x : double)
  | TextValue (s : string)
  | RectValue (r : SpaceRect).

#[export] Instance PropertyValue_eq_dec : EqDecision PropertyValue.
Proof. solve_decision. Defined.

Module ReadState.

Inductive ReadState : Type :=
  | Present | Absent | Unsupported | Uncached | BackendFailed.

End ReadState.
Abbreviation ReadState := ReadState.ReadState.

#[export] Instance ReadState_eq_dec : EqDecision ReadState.
Proof. solve_decision. Defined.

Record PropertyRead := MkRead { read_state : ReadState; read_value : PropertyValue }.

(** ** Records and snapshots *)

Record UiProvenance := MkProvenance { prov_runtime : RuntimeId; prov_revision : N }.

Record UiNodeRecord := MkNode {
  node_id : NodeId;
  node_generation : NodeGeneration;
  node_role : RoleId;
  node_states : N;
  node_facets : N;
  node_properties : list (PropertyId * PropertyRead);
  node_provenance : UiProvenance
}.

(** [UiNodeRecord::property]: the first entry under the id. *)
Fixpoint find_property (entries : list (PropertyId * PropertyRead)) (property : PropertyId)
    : PropertyRead :=
  match entries with
  | [] => MkRead ReadState.Absent NoValue
  | (id, read) :: rest => if decide (id = property) then read else find_property rest property
  end.

Record UiSnapshotMetadata := MkMetadata {
  meta_runtime : RuntimeId;
  meta_tree : N;
  meta_epoch : TreeEpoch;
  meta_revision : N;
  meta_complete : bool
}.

Record UiRelation := MkRelation {
  rel_source : NodeId; rel_target : NodeId; rel_kind : RelationId
}.

#[export] Instance UiRelation_eq_dec : EqDecision UiRelation.
Proof. solve_decision. Defined.
#[export] Program Instance UiRelation_countable : Countable UiRelation :=
  inj_countable' (λ r, (rel_source r, rel_target r, rel_kind r)) (λ x, MkRelation x.1.1 x.1.2 x.2) _.
Next Obligation. by intros []. Qed.

Record RelationBucket := MkBucket {
  bucket_node : NodeId; bucket_relation : RelationId; related_nodes : list NodeId
}.

Record UiSnapshot := MkSnapshot {
  snap_metadata : UiSnapshotMetadata;
  snap_nodes : list UiNodeRecord;
  snap_roots : list NodeId;
  snap_relations : list UiRelation;
  snap_forward : list RelationBucket;
  snap_reverse : list RelationBucket
}.

Fixpoint append_related (buckets : list RelationBucket) (node : NodeId) (relation : RelationId)
    (related : NodeId) : list RelationBucket :=
  match buckets with
  | [] => [MkBucket node relation [related]]
  | bucket :: rest =>
    if decide (bucket_node bucket = node ∧ bucket_relation bucket = relation) then
      MkBucket node relation (related_nodes bucket ++ [related]) :: rest
    else bucket :: append_related rest node relation related
  end.

Fixpoint find_related (buckets : list RelationBucket) (node : NodeId) (relation : RelationId)
    : list NodeId :=
  match buckets with
  | [] => []
  | bucket :: rest =>
    if decide (bucket_node bucket = node ∧ bucket_relation bucket = relation) then
      related_nodes bucket
    else find_related rest node relation
  end.

Definition index_relation (st : list RelationBucket * list RelationBucket) (r : UiRelation)
    : list RelationBucket * list RelationBucket :=
  (append_related st.1 (rel_source r) (rel_kind r) (rel_target r),
   append_related st.2 (rel_target r) (rel_kind r) (rel_source r)).

Definition from_records (metadata : UiSnapshotMetadata) (nodes : list UiNodeRecord)
    (root_nodes : list NodeId) (relations : list UiRelation) : UiSnapshot :=
  let indexes := foldl index_relation ([], []) relations in
  MkSnapshot metadata nodes root_nodes relations indexes.1 indexes.2.

Definition snapshot_node (snapshot : UiSnapshot) (id : NodeId) : option UiNodeRecord :=
  snd <$> list_find (λ record, node_id record = id) (snap_nodes snapshot).

Definition related (snapshot : UiSnapshot) (source : NodeId) (relation : RelationId)
    : list NodeId := find_related (snap_forward snapshot) source relation.

Definition related_reverse (snapshot : UiSnapshot) (target : NodeId) (relation : RelationId)
    : list NodeId := find_related (snap_reverse snapshot) target relation.

(** ** Navigation *)

Record TreeNavMetadata := MkNavMetadata {
  nav_runtime : RuntimeId;
  nav_tree : N;
  nav_epoch : TreeEpoch;
  nav_revision : N;
  nav_provider : string
}.

(** The abstract class [TreeNav]. *)
Record TreeNav := MkTreeNav {
  nav_metadata : TreeNavMetadata;
  nav_nodes : list NodeId;
  nav_roots : list NodeId;
  nav_contains : NodeId → bool;
  nav_role : NodeId → RoleId;
  nav_states : NodeId → N;
  nav_property : NodeId → PropertyId → PropertyRead;
  nav_children : NodeId → list NodeId;
  nav_parents : NodeId → list NodeId;
  nav_related : NodeId → RelationId → list NodeId;
  nav_related_reverse : NodeId → RelationId → list NodeId;
  nav_generation : NodeId → NodeGeneration;
  nav_provenance : NodeId → UiProvenance
}.

(** A field of a node, or the default of its type where there is no node. *)
Definition field_of {A} (snapshot : UiSnapshot) (field : UiNodeRecord → A) (fallback : A)
    (id : NodeId) : A :=
  from_option field fallback (snapshot_node snapshot id).

(** [SnapshotTreeNav]. *)
Definition snapshot_nav (snapshot : UiSnapshot) : TreeNav := {|
  nav_metadata :=
    let m := snap_metadata snapshot in
    MkNavMetadata (meta_runtime m) (meta_tree m) (meta_epoch m) (meta_revision m) "snapshot";
  nav_nodes := node_id <$> snap_nodes snapshot;
  nav_roots := snap_roots snapshot;
  nav_contains := λ id, bool_decide (is_Some (snapshot_node snapshot id));
  nav_role := field_of snapshot node_role 0%N;
  nav_states := field_of snapshot node_states 0%N;
  nav_property := λ id property,
    field_of snapshot (λ record, find_property (node_properties record) property)
      (MkRead ReadState.Absent NoValue) id;
  nav_children := λ id, related snapshot id relation_contains;
  nav_parents := λ id, related_reverse snapshot id relation_contains;
  nav_related := related snapshot;
  nav_related_reverse := related_reverse snapshot;
  nav_generation := field_of snapshot node_generation 0%N;
  nav_provenance := field_of snapshot node_provenance (MkProvenance 0 0)
|}.

(** ** Lemmas *)

Lemma find_append_related l n r x n' r' :
  find_related (append_related l n r x) n' r' =
    if decide (n = n' ∧ r = r') then find_related l n' r' ++ [x] else find_related l n' r'.
Proof.
  induction l as [|b l IH]; cbn; [by destruct (decide (n = n' ∧ r = r'))|].
  destruct (decide (bucket_node b = n ∧ bucket_relation b = r)) as [[<- <-]|Hne]; cbn;
    [by destruct (decide (bucket_node b = n' ∧ bucket_relation b = r'))|].
  rewrite IH. destruct (decide (bucket_node b = n' ∧ bucket_relation b = r')) as [[<- <-]|];
    [|done]. rewrite decide_False; [done|]. intros [-> ->]. by apply Hne.
Qed.

(** The relations of a kind from a node, and to a node, in record order. *)
Definition targets_of (l : list UiRelation) (source : NodeId) (kind : RelationId) : list NodeId :=
  rel_target <$> filter (λ r, rel_source r = source ∧ rel_kind r = kind) l.

Definition sources_of (l : list UiRelation) (target : NodeId) (kind : RelationId) : list NodeId :=
  rel_source <$> filter (λ r, rel_target r = target ∧ rel_kind r = kind) l.

Lemma index_relations l f r n k :
  find_related (foldl index_relation (f, r) l).1 n k = find_related f n k ++ targets_of l n k ∧
  find_related (foldl index_relation (f, r) l).2 n k = find_related r n k ++ sources_of l n k.
Proof.
  unfold targets_of, sources_of. revert f r.
  induction l as [|x l IH]; intros f r; [by rewrite !app_nil_r|].
  cbn [foldl]. unfold index_relation at 2 4. cbn [fst snd].
  destruct (IH (append_related f (rel_source x) (rel_kind x) (rel_target x))
    (append_related r (rel_target x) (rel_kind x) (rel_source x))) as [-> ->].
  rewrite !find_append_related, !filter_cons.
  split; case_decide; by rewrite <- ?app_assoc.
Qed.

Lemma related_from_records m ns rs l n k : related (from_records m ns rs l) n k = targets_of l n k.
Proof. apply (index_relations l [] [] n k). Qed.

Lemma related_reverse_from_records m ns rs l n k :
  related_reverse (from_records m ns rs l) n k = sources_of l n k.
Proof. apply (index_relations l [] [] n k). Qed.

Lemma elem_of_targets l n k x : x ∈ targets_of l n k ↔ MkRelation n x k ∈ l.
Proof.
  unfold targets_of. rewrite list_elem_of_fmap. split.
  - intros ([a b c] & -> & [[? ?] ?]%list_elem_of_filter). cbn in *. by subst.
  - intros Hin. eexists. split; [|apply list_elem_of_filter; split; [|exact Hin]; done]. done.
Qed.

Lemma elem_of_sources l n k x : x ∈ sources_of l n k ↔ MkRelation x n k ∈ l.
Proof.
  unfold sources_of. rewrite list_elem_of_fmap. split.
  - intros ([a b c] & -> & [[? ?] ?]%list_elem_of_filter). cbn in *. by subst.
  - intros Hin. eexists. split; [|apply list_elem_of_filter; split; [|exact Hin]; done]. done.
Qed.

Lemma snapshot_node_is_Some s id : is_Some (snapshot_node s id) ↔ id ∈ node_id <$> snap_nodes s.
Proof.
  unfold snapshot_node. rewrite fmap_is_Some, list_elem_of_fmap. split.
  - intros [[i x] (Hi & <- & _)%list_find_Some]. exists x. split; [done|].
    by eapply list_elem_of_lookup_2.
  - intros (x & -> & Hx). by eapply list_find_elem_of; [exact Hx|].
Qed.

Lemma snapshot_node_Some s id r : snapshot_node s id = Some r → r ∈ snap_nodes s ∧ node_id r = id.
Proof.
  unfold snapshot_node. rewrite fmap_Some. intros ([i x] & (Hi & Hid & _)%list_find_Some & ->).
  split; [by eapply list_elem_of_lookup_2|done].
Qed.

Lemma snapshot_node_unique s r id :
  NoDup (node_id <$> snap_nodes s) → r ∈ snap_nodes s → node_id r = id →
  snapshot_node s id = Some r.
Proof.
  intros Hnd [i Hi]%list_elem_of_lookup Hid.
  destruct (snapshot_node s id) as [x|] eqn:E.
  - apply snapshot_node_Some in E as [[j Hj]%list_elem_of_lookup Hx].
    assert (i = j) as <-; [|congruence].
    eapply (NoDup_lookup _ _ _ id Hnd); rewrite list_lookup_fmap; [rewrite Hi|rewrite Hj]; cbn; congruence.
  - exfalso. assert (is_Some (snapshot_node s id)) as [? ?]; [|congruence].
    apply snapshot_node_is_Some, list_elem_of_fmap. exists r. split; [done|]. by eapply list_elem_of_lookup_2.
Qed.
