(* ===== verification/Locator.v ===== *)
(** Locators: the plan a locator holds ([kernel/query/locator_plan.hpp]), the
    combinators that build one and its serialization
    ([kernel/query/locator.cpp], [include/grab/locator.hpp]).

    Plans are immutable and shared by pointer in the code; here a plan is its
    value. *)

From Stdlib Require Import Ascii Floats.SpecFloat.
From stdpp Require Import pretty.
From S2P Require Import Prelude Errors Geometry Json UiTree.

Local Open Scope string_scope.
Local Open Scope list_scope.

(** ** Policies *)

Module BoundaryPolicy.

Inductive BoundaryPolicy : Type :=
  | SameTree | SameProcess | CrossEmbeds.

End BoundaryPolicy.
Abbreviation BoundaryPolicy := BoundaryPolicy.BoundaryPolicy.

#[export] Instance BoundaryPolicy_eq_dec : EqDecision BoundaryPolicy.
Proof. solve_decision. Defined.

Module ConsistencyMode.

Inductive ConsistencyMode : Type :=
  | Live | Revisioned | Pinned.

End ConsistencyMode.
Abbreviation ConsistencyMode := ConsistencyMode.ConsistencyMode.

#[export] Instance ConsistencyMode_eq_dec : EqDecision ConsistencyMode.
Proof. solve_decision. Defined.

Definition boundary_rank (b : BoundaryPolicy) : nat :=
  match b with
  | BoundaryPolicy.SameTree => 0
  | BoundaryPolicy.SameProcess => 1
  | BoundaryPolicy.CrossEmbeds => 2
  end.

Definition consistency_rank (c : ConsistencyMode) : nat :=
  match c with
  | ConsistencyMode.Live => 0
  | ConsistencyMode.Revisioned => 1
  | ConsistencyMode.Pinned => 2
  end.

(** [std::max] over the enumerations. *)
Definition max_by {A} (rank : A → nat) (a b : A) : A :=
  if decide (rank a < rank b)%nat then b else a.

Definition default_max_nodes : nat := 8192.

(** ** Plans *)

Module LocatorOp.

Inductive LocatorOp : Type :=
  | MatchAll | MatchNone | Role | State | Property | AccessibleName | Text | All | Any | Not
  | ChildOf | DescendantOf | AncestorOf | Related | RelatedReverse.

End LocatorOp.
Abbreviation Op := LocatorOp.LocatorOp.

#[export] Instance Op_eq_dec : EqDecision Op.
Proof. solve_decision. Defined.

Inductive LocatorPlan := MkPlan {
  plan_op : Op;
  plan_role : RoleId;
  plan_state : N;
  plan_property : PropertyId;
  plan_value : PropertyValue;
  plan_text : string;
  plan_relation : RelationId;
  plan_children : list LocatorPlan
}.

Section plan_ind.
Variable P : LocatorPlan → Prop.
Hypothesis HP : ∀ op role state property value text relation children,
  Forall P children → P (MkPlan op role state property value text relation children).

Fixpoint plan_ind' (p : LocatorPlan) : P p :=
  match p with
  | MkPlan op role state property value text relation children =>
    HP op role state property value text relation children
      ((fix go (l : list LocatorPlan) : Forall P l :=
          match l with
          | [] => List.Forall_nil P
          | c :: rest => List.Forall_cons P c rest (plan_ind' c) (go rest)
          end) children)
  end.
End plan_ind.

Definition make_plan (op : Op) : LocatorPlan := MkPlan op 0 0 0 NoValue "" 0 [].

Definition with_children (op : Op) (children : list LocatorPlan) : LocatorPlan :=
  MkPlan op 0 0 0 NoValue "" 0 children.

Record Locator := MkLocator {
  locator_plan : LocatorPlan;
  boundary : BoundaryPolicy;
  consistency : ConsistencyMode
}.

(** [count_plan_nodes], which saturates at the largest [std::size_t]. *)
Definition size_max : N := 2 ^ 64 - 1.

Fixpoint count_plan_nodes (p : LocatorPlan) : N :=
  (fix go (count : N) (l : list LocatorPlan) : N :=
     match l with
     | [] => count
     | c :: rest =>
       let child := count_plan_nodes c in
       if decide (size_max - count < child)%N then size_max else go (count + child)%N rest
     end) 1%N (plan_children p).

Definition plan_node_count (l : Locator) : N := count_plan_nodes (locator_plan l).

(** ** Combinators *)

Definition append_predicate (predicates : list LocatorPlan) (predicate : LocatorPlan)
    (operation : Op) : list LocatorPlan :=
  if decide (plan_op predicate = operation) then predicates ++ plan_children predicate
  else predicates ++ [predicate].

Definition default_locator : Locator :=
  MkLocator (make_plan LocatorOp.MatchAll) BoundaryPolicy.SameTree ConsistencyMode.Live.

(** [Locator::and_]. *)
Definition and_ (l predicate : Locator) : Locator :=
  MkLocator
    (with_children LocatorOp.All
      (append_predicate (append_predicate [] (locator_plan l) LocatorOp.All)
        (locator_plan predicate) LocatorOp.All))
    (max_by boundary_rank (boundary l) (boundary predicate))
    (max_by consistency_rank (consistency l) (consistency predicate)).

Definition with_boundary (b : BoundaryPolicy) (l : Locator) : Locator :=
  MkLocator (locator_plan l) b (consistency l).

Definition with_consistency (c : ConsistencyMode) (l : Locator) : Locator :=
  MkLocator (locator_plan l) (boundary l) c.

Definition leaf (plan : LocatorPlan) : Locator :=
  MkLocator plan BoundaryPolicy.SameTree ConsistencyMode.Live.

(** [sel::role] and its siblings. *)
Definition sel_role (value : RoleId) : Locator :=
  leaf (MkPlan LocatorOp.Role value 0 0 NoValue "" 0 []).

Definition sel_state (mask : N) : Locator :=
  leaf (MkPlan LocatorOp.State 0 mask 0 NoValue "" 0 []).

Definition sel_property (property : PropertyId) (value : PropertyValue) : Locator :=
  leaf (MkPlan LocatorOp.Property 0 0 property value "" 0 []).

Definition sel_accessible_name (value : string) : Locator :=
  leaf (MkPlan LocatorOp.AccessibleName 0 0 0 NoValue value 0 []).

Definition sel_text (value : string) : Locator :=
  leaf (MkPlan LocatorOp.Text 0 0 0 NoValue value 0 []).

(** The loop [sel::all] and [sel::any] share. *)
Definition gather (op : Op) (predicates : list Locator) : Locator :=
  foldl (λ l predicate,
    MkLocator
      (with_children op
        (append_predicate (plan_children (locator_plan l)) (locator_plan predicate) op))
      (max_by boundary_rank (boundary l) (boundary predicate))
      (max_by consistency_rank (consistency l) (consistency predicate)))
    (leaf (with_children op [])) predicates.

Definition sel_all (predicates : list Locator) : Locator :=
  match predicates with
  | [] => leaf (make_plan LocatorOp.MatchAll)
  | _ => gather LocatorOp.All predicates
  end.

Definition sel_any (predicates : list Locator) : Locator :=
  match predicates with
  | [] => leaf (make_plan LocatorOp.MatchNone)
  | _ => gather LocatorOp.Any predicates
  end.

Definition unary_locator (operation : Op) (child : Locator) : Locator :=
  MkLocator (with_children operation [locator_plan child]) (boundary child) (consistency child).

Definition relation_locator (operation : Op) (relation : RelationId) (child : Locator) : Locator :=
  MkLocator (MkPlan operation 0 0 0 NoValue "" relation [locator_plan child])
    (boundary child) (consistency child).

Definition sel_not : Locator → Locator := unary_locator LocatorOp.Not.
Definition sel_child_of : Locator → Locator := unary_locator LocatorOp.ChildOf.
Definition sel_descendant_of : Locator → Locator := unary_locator LocatorOp.DescendantOf.
Definition sel_ancestor_of : Locator → Locator := unary_locator LocatorOp.AncestorOf.
Definition sel_related : RelationId → Locator → Locator := relation_locator LocatorOp.Related.
Definition sel_related_reverse : RelationId → Locator → Locator :=
  relation_locator LocatorOp.RelatedReverse.
