(* ===== verification/LocatorText.v ===== *)
(** Locators as JSON text ([kernel/query/locator.cpp]): the writer, the reader with
    its complexity budget, and the messages of both. *)

From Stdlib Require Import Ascii Floats.SpecFloat.
From stdpp Require Import pretty.
From S2P Require Import Prelude EnumTable Errors Geometry Json UiTree Locator.

Local Open Scope string_scope.

Definition locatorVersion : N := 1.

(** ** Writing *)

Definition boundary_name (b : BoundaryPolicy) : string :=
  match b with
  | BoundaryPolicy.SameTree => "same_tree"
  | BoundaryPolicy.SameProcess => "same_process"
  | BoundaryPolicy.CrossEmbeds => "cross_embeds"
  end.

Definition consistency_name (c : ConsistencyMode) : string :=
  match c with
  | ConsistencyMode.Live => "live"
  | ConsistencyMode.Revisioned => "revisioned"
  | ConsistencyMode.Pinned => "pinned"
  end.

Definition encoded_number (value : double) : Json :=
  match value with
  | S754_zero _ => JFloat zero
  | S754_finite _ _ _ => JFloat value
  | S754_nan => JString "nan"
  | S754_infinity sign => JString (if sign then "-infinity" else "+infinity")
  end.

Definition rectangle_json (r : SpaceRect) : Json :=
  JObject [("x", encoded_number (sr_x r)); ("y", encoded_number (sr_y r));
           ("w", encoded_number (sr_w r)); ("h", encoded_number (sr_h r));
           ("space", JInteger (Z.of_N (space_value (sr_space r))))].

Definition property_value_members (value : PropertyValue) : Members :=
  match value with
  | NoValue => [("type", JString "null"); ("value", JNull)]
  | BoolValue b => [("type", JString "bool"); ("value", JBool b)]
  | IntegerValue z => [("type", JString "integer"); ("value", JInteger z)]
  | NumberValue x => [("type", JString "number"); ("value", encoded_number x)]
  | TextValue s => [("type", JString "text"); ("value", JString s)]
  | RectValue r => [("type", JString "rect"); ("value", rectangle_json r)]
  end.

(** [children.front()] of a plan without children is undefined in the code; no
    plan is built that way ([plan_ok]). *)
Fixpoint expression_json (plan : LocatorPlan) : Json :=
  let child := match plan_children plan with c :: _ => expression_json c | [] => JNull end in
  let children := JArray ((λ c, expression_json c) <$> plan_children plan) in
  let relation := JInteger (Z.of_N (plan_relation plan)) in
  JObject
    match plan_op plan with
    | LocatorOp.MatchAll => [("op", JString "match_all")]
    | LocatorOp.MatchNone => [("op", JString "match_none")]
    | LocatorOp.Role =>
      [("op", JString "role"); ("value", JInteger (Z.of_N (plan_role plan)))]
    | LocatorOp.State =>
      [("op", JString "state"); ("value", JInteger (Z.of_N (plan_state plan)))]
    | LocatorOp.Property =>
      ("op", JString "property") :: ("property", JInteger (Z.of_N (plan_property plan))) ::
      property_value_members (plan_value plan)
    | LocatorOp.AccessibleName =>
      [("op", JString "accessible_name"); ("value", JString (plan_text plan))]
    | LocatorOp.Text => [("op", JString "text"); ("value", JString (plan_text plan))]
    | LocatorOp.All => [("op", JString "all"); ("children", children)]
    | LocatorOp.Any => [("op", JString "any"); ("children", children)]
    | LocatorOp.Not => [("op", JString "not"); ("child", child)]
    | LocatorOp.ChildOf => [("op", JString "child_of"); ("child", child)]
    | LocatorOp.DescendantOf => [("op", JString "descendant_of"); ("child", child)]
    | LocatorOp.AncestorOf => [("op", JString "ancestor_of"); ("child", child)]
    | LocatorOp.Related =>
      [("op", JString "related"); ("relation", relation); ("child", child)]
    | LocatorOp.RelatedReverse =>
      [("op", JString "related_reverse"); ("relation", relation); ("child", child)]
    end.

Definition locator_json (l : Locator) : Json :=
  JObject [("boundary", JString (boundary_name (boundary l)));
           ("consistency", JString (consistency_name (consistency l)));
           ("expr", expression_json (locator_plan l));
           ("version", JInteger (Z.of_N locatorVersion))].

(** ** Readers *)

Definition invalid_locator {T} (message : string) : Result T :=
  fail ErrorCode.InvalidArgument message.

Definition required_member (object : Json) (name path : string) : Result Json :=
  match object with
  | JObject members =>
    match member name members with
    | Some value => Ok value
    | None => invalid_locator (path +:+ " is missing '" +:+ name +:+ "'")
    end
  | _ => invalid_locator (path +:+ " must be an object")
  end.

Definition uint32_max : Z := 2 ^ 32 - 1.
Definition int64_max : Z := 2 ^ 63 - 1.

Definition unsigned_32 (value : Json) (path : string) : Result N :=
  match value with
  | JInteger z =>
    if decide (z < 0) then invalid_locator (path +:+ " must be an unsigned integer")
    else if decide (uint32_max < z) then invalid_locator (path +:+ " is out of range")
    else Ok (Z.to_N z)
  | _ => invalid_locator (path +:+ " must be an unsigned integer")
  end.

Definition json_string (value : Json) (path : string) : Result string :=
  match value with
  | JString s => Ok s
  | _ => invalid_locator (path +:+ " must be a string")
  end.

Definition json_number (value : Json) (path : string) : Result double :=
  match number_of value with
  | Some number =>
    if is_finite number then Ok (match number with S754_zero _ => zero | _ => number end)
    else invalid_locator (path +:+ " numeric value is out of range")
  | None =>
    let other := invalid_locator (path +:+ " must be a number") in
    match value with
    | JString token =>
      if decide (token = "nan") then Ok S754_nan
      else if decide (token = "+infinity") then Ok (S754_infinity false)
      else if decide (token = "-infinity") then Ok (S754_infinity true)
      else other
    | _ => other
    end
  end.

Definition parse_boundary (value : Json) : Result BoundaryPolicy :=
  name ← json_string value "$.boundary";
  if decide (name = "same_tree") then Ok BoundaryPolicy.SameTree
  else if decide (name = "same_process") then Ok BoundaryPolicy.SameProcess
  else if decide (name = "cross_embeds") then Ok BoundaryPolicy.CrossEmbeds
  else invalid_locator "$.boundary has an unknown value".

Definition parse_consistency (value : Json) : Result ConsistencyMode :=
  name ← json_string value "$.consistency";
  if decide (name = "live") then Ok ConsistencyMode.Live
  else if decide (name = "revisioned") then Ok ConsistencyMode.Revisioned
  else if decide (name = "pinned") then Ok ConsistencyMode.Pinned
  else invalid_locator "$.consistency has an unknown value".

Definition parse_rectangle (value : Json) (path : string) : Result PropertyValue :=
  match required_member value "x" path, required_member value "y" path,
        required_member value "w" path, required_member value "h" path,
        required_member value "space" path with
  | Ok x, Ok y, Ok w, Ok h, Ok space =>
    match json_number x (path +:+ ".value.x"), json_number y (path +:+ ".value.y"),
          json_number w (path +:+ ".value.w"), json_number h (path +:+ ".value.h") with
    | Ok x, Ok y, Ok w, Ok h =>
      space_id ← unsigned_32 space (path +:+ ".value.space");
      Ok (RectValue (MkSpaceRect x y w h (MkSpace space_id)))
    | _, _, _, _ => invalid_locator (path +:+ ".value rectangle fields must be numbers")
    end
  | _, _, _, _, _ => invalid_locator (path +:+ ".value is missing a rectangle field")
  end.

Definition parse_property_value (object : Json) (path : string) : Result PropertyValue :=
  type_member ← required_member object "type" path;
  value ← required_member object "value" path;
  type ← json_string type_member (path +:+ ".type");
  if decide (type = "null") then
    match value with
    | JNull => Ok NoValue
    | _ => invalid_locator (path +:+ ".value must be null")
    end
  else if decide (type = "bool") then
    match value with
    | JBool b => Ok (BoolValue b)
    | _ => invalid_locator (path +:+ ".value must be a boolean")
    end
  else if decide (type = "integer") then
    match value with
    | JInteger z =>
      if decide (int64_max < z) then invalid_locator (path +:+ ".value is out of range")
      else Ok (IntegerValue z)
    | _ => invalid_locator (path +:+ ".value must be an integer")
    end
  else if decide (type = "number") then
    number ← json_number value (path +:+ ".value"); Ok (NumberValue number)
  else if decide (type = "text") then
    text ← json_string value (path +:+ ".value"); Ok (TextValue text)
  else if negb (bool_decide (type = "rect")) || negb (is_object value) then
    invalid_locator (path +:+ " has an unknown property type")
  else parse_rectangle value path.

(** ** Expressions

    A reader takes the number of nodes read before it and returns the number read
    after it, as the code's reference parameter. *)

Abbreviation Counted A := (Result (A * nat)).

Definition parse_unary (parse : Json → nat → Counted LocatorPlan) (object : Json)
    (operation : Op) (relation : RelationId) (node_count : nat) : Counted LocatorPlan :=
  child_member ← required_member object "child" "$.expr";
  r ← parse child_member node_count;
  Ok (MkPlan operation 0 0 0 NoValue "" relation [r.1], r.2).

Definition parse_relation (parse : Json → nat → Counted LocatorPlan) (object : Json)
    (operation : Op) (node_count : nat) : Counted LocatorPlan :=
  relation_member ← required_member object "relation" "$.expr";
  relation ← unsigned_32 relation_member "$.expr.relation";
  parse_unary parse object operation relation node_count.

Fixpoint parse_children (parse : Json → nat → Counted LocatorPlan) (l : list Json)
    (node_count : nat) : Counted (list LocatorPlan) :=
  match l with
  | [] => Ok ([], node_count)
  | object :: rest =>
    r ← parse object node_count;
    rs ← parse_children parse rest r.2;
    Ok (r.1 :: rs.1, rs.2)
  end.

Definition budget_exceeded {T} : Result T :=
  invalid_locator "locator exceeds the default complexity budget".

(** What a node's [op] asks for, the node itself counted. *)
Definition parse_operation (parse : Json → nat → Counted LocatorPlan) (object : Json)
    (operation : string) (node_count : nat) : Counted LocatorPlan :=
  if decide (operation = "match_all") then Ok (make_plan LocatorOp.MatchAll, node_count)
  else if decide (operation = "match_none") then Ok (make_plan LocatorOp.MatchNone, node_count)
  else if decide (operation = "role" ∨ operation = "state") then
    value_member ← required_member object "value" "$.expr";
    value ← unsigned_32 value_member "$.expr.value";
    Ok (if decide (operation = "role") then MkPlan LocatorOp.Role value 0 0 NoValue "" 0 []
        else MkPlan LocatorOp.State 0 value 0 NoValue "" 0 [], node_count)
  else if decide (operation = "property") then
    property_member ← required_member object "property" "$.expr";
    property ← unsigned_32 property_member "$.expr.property";
    value ← parse_property_value object "$.expr";
    Ok (MkPlan LocatorOp.Property 0 0 property value "" 0 [], node_count)
  else if decide (operation = "accessible_name" ∨ operation = "text") then
    value_member ← required_member object "value" "$.expr";
    value ← json_string value_member "$.expr.value";
    Ok (MkPlan (if decide (operation = "accessible_name") then LocatorOp.AccessibleName
                else LocatorOp.Text) 0 0 0 NoValue value 0 [], node_count)
  else if decide (operation = "all" ∨ operation = "any") then
    children_member ← required_member object "children" "$.expr";
    match children_member with
    | JArray l =>
      r ← parse_children parse l node_count;
      Ok (with_children (if decide (operation = "all") then LocatorOp.All else LocatorOp.Any) r.1,
          r.2)
    | _ => invalid_locator "$.expr.children must be an array"
    end
  else if decide (operation = "not") then parse_unary parse object LocatorOp.Not 0 node_count
  else if decide (operation = "child_of") then
    parse_unary parse object LocatorOp.ChildOf 0 node_count
  else if decide (operation = "descendant_of") then
    parse_unary parse object LocatorOp.DescendantOf 0 node_count
  else if decide (operation = "ancestor_of") then
    parse_unary parse object LocatorOp.AncestorOf 0 node_count
  else if decide (operation = "related") then
    parse_relation parse object LocatorOp.Related node_count
  else if decide (operation = "related_reverse") then
    parse_relation parse object LocatorOp.RelatedReverse node_count
  else invalid_locator "$.expr.op has an unknown value".

(** Every level of recursion has counted its own node, so the budget bounds the
    depth: with fuel for what is left of the budget the last branch is not
    reached ([parse_expression_fuel]). *)
Fixpoint parse_expression (fuel : nat) (object : Json) (node_count : nat) : Counted LocatorPlan :=
  if decide (default_max_nodes <= node_count)%nat then budget_exceeded
  else
    match fuel with
    | S fuel =>
      op_member ← required_member object "op" "$.expr";
      operation ← json_string op_member "$.expr.op";
      parse_operation (parse_expression fuel) object operation (S node_count)
    | O => budget_exceeded
    end.

(** ** Whole locators *)

Definition line_feed : ascii := "010"%char.

(** [rfind] of a line feed, in what stands before an offset. *)
Fixpoint last_line_feed (text : string) (index : nat) (found : option nat) : option nat :=
  match text with
  | EmptyString => found
  | String c rest =>
    last_line_feed rest (S index) (if decide (c = line_feed) then Some index else found)
  end.

Fixpoint spaces (n : nat) : string :=
  match n with O => "" | S n => String " "%char (spaces n) end.

Definition syntax_error_message (serialized : string) (byte : nat) : string :=
  let offset := match byte with O => O | S byte => Nat.min byte (String.length serialized) end in
  let line_start :=
    match last_line_feed (String.substring 0 offset serialized) 0 None with
    | None => O
    | Some previous_newline => S previous_newline
    end in
  let line_end :=
    match String.index offset (String line_feed "") serialized with
    | None => String.length serialized
    | Some found_end => found_end
    end in
  "invalid locator JSON syntax at byte " +:+ pretty (N.of_nat byte) +:+ String line_feed "" +:+
  String.substring line_start (line_end - line_start) serialized +:+ String line_feed "" +:+
  spaces (offset - line_start) +:+ "^".

Definition read_locator (object : Json) : Result Locator :=
  if negb (is_object object) then invalid_locator "locator JSON root must be an object"
  else
    match required_member object "version" "$", required_member object "boundary" "$",
          required_member object "consistency" "$", required_member object "expr" "$" with
    | Ok version_member, Ok boundary_member, Ok consistency_member, Ok expression_member =>
      version ← unsigned_32 version_member "$.version";
      if decide (version ≠ locatorVersion) then
        invalid_locator "unsupported locator serialization version"
      else
        boundary ← parse_boundary boundary_member;
        consistency ← parse_consistency consistency_member;
        r ← parse_expression default_max_nodes expression_member 0;
        Ok (MkLocator r.1 boundary consistency)
    | _, _, _, _ => invalid_locator "locator JSON is missing a required field"
    end.

Section text.
Context `{JsonText}.

(** [dump()] without an indent; [None] where it throws. *)
Definition locator_to_string (l : Locator) : option string := json_dump (-1) (locator_json l).

(** Both kinds of exception are caught. *)
Definition from_string (serialized : string) : Result Locator :=
  match json_parse serialized with
  | ParsedValue object => read_locator object
  | ParseError _ byte => invalid_locator (syntax_error_message serialized byte)
  | OutOfRange what => invalid_locator ("invalid locator JSON value: " +:+ what)
  end.

(** [operator==]; the pointers are compared before the texts. *)
Definition locator_equal (same_plan : bool) (left right : Locator) : option bool :=
  if same_plan && bool_decide (boundary left = boundary right) &&
     bool_decide (consistency left = consistency right)
  then Some true
  else
    l ← locator_to_string left;
    r ← locator_to_string right;
    Some (bool_decide (l = r)).
End text.
