(* ===== verification/LocatorTheorems.v ===== *)
(** Locator text read back: what the writer writes for a plan of the combinators is
    read as that plan, within the reader's complexity budget, and what is read is
    such a plan. *)

From Stdlib Require Import Ascii Floats.SpecFloat.
From S2P Require Import Prelude EnumTable Errors Geometry Json JsonInstance UiTree.
From S2P Require Import Locator LocatorText.

Local Open Scope string_scope.
Local Open Scope list_scope.
Local Open Scope Z_scope.

(** ** Plans that can be spelled *)

Definition uint32_ok (n : N) : Prop := Z.of_N n ≤ uint32_max.

Definition value_ok (v : PropertyValue) : Prop :=
  match v with
  | IntegerValue z => - 2 ^ 63 ≤ z ≤ int64_max
  | RectValue r => uint32_ok (space_value (sr_space r))
  | _ => True
  end.

Inductive Arity := NoChild | OneChild | ManyChildren.

Definition op_arity (op : Op) : Arity :=
  match op with
  | LocatorOp.All | LocatorOp.Any => ManyChildren
  | LocatorOp.Not | LocatorOp.ChildOf | LocatorOp.DescendantOf | LocatorOp.AncestorOf
  | LocatorOp.Related | LocatorOp.RelatedReverse => OneChild
  | _ => NoChild
  end.

Definition arity_ok (op : Op) (children : list LocatorPlan) : Prop :=
  match op_arity op with
  | NoChild => children = []
  | OneChild => length children = 1%nat
  | ManyChildren => True
  end.

(** What every plan the combinators or the reader make satisfies. *)
Inductive plan_ok : LocatorPlan → Prop :=
  plan_ok_intro op role state property value text relation children :
    arity_ok op children → Forall plan_ok children →
    uint32_ok role → uint32_ok state → uint32_ok property → uint32_ok relation →
    value_ok value →
    plan_ok (MkPlan op role state property value text relation children).

Fixpoint plan_size (p : LocatorPlan) : nat :=
  S (foldr (λ c n, plan_size c + n) O (plan_children p))%nat.

Definition canonical_number (x : double) : double :=
  match x with S754_zero _ => zero | _ => x end.

Definition canonical_value (v : PropertyValue) : PropertyValue :=
  match v with
  | NumberValue x => NumberValue (canonical_number x)
  | RectValue r =>
    RectValue (MkSpaceRect (canonical_number (sr_x r)) (canonical_number (sr_y r))
      (canonical_number (sr_w r)) (canonical_number (sr_h r)) (sr_space r))
  | _ => v
  end.

(** A plan with what its operation does not use at its default and no negative
    zero. *)
Fixpoint canonical (p : LocatorPlan) : LocatorPlan :=
  let children := (λ c, canonical c) <$> plan_children p in
  match plan_op p with
  | LocatorOp.Role => MkPlan LocatorOp.Role (plan_role p) 0 0 NoValue "" 0 []
  | LocatorOp.State => MkPlan LocatorOp.State 0 (plan_state p) 0 NoValue "" 0 []
  | LocatorOp.Property =>
    MkPlan LocatorOp.Property 0 0 (plan_property p) (canonical_value (plan_value p)) "" 0 []
  | LocatorOp.AccessibleName | LocatorOp.Text =>
    MkPlan (plan_op p) 0 0 0 NoValue (plan_text p) 0 []
  | LocatorOp.Related | LocatorOp.RelatedReverse =>
    MkPlan (plan_op p) 0 0 0 NoValue "" (plan_relation p) children
  | op => with_children op children
  end.

Definition canonical_locator (l : Locator) : Locator :=
  MkLocator (canonical (locator_plan l)) (boundary l) (consistency l).

(** ** Reading what was written *)

Lemma unsigned_32_written n path : uint32_ok n → unsigned_32 (JInteger (Z.of_N n)) path = Ok n.
Proof.
  unfold uint32_ok, unsigned_32. intros Hn. rewrite !decide_False by lia. by rewrite N2Z.id.
Qed.

Lemma json_number_written x path : json_number (encoded_number x) path = Ok (canonical_number x).
Proof. by destruct x as [|[]| |]. Qed.

Lemma required_found l name path v :
  member name l = Some v → required_member (JObject l) name path = Ok v.
Proof. cbn. by intros ->. Qed.

(** Reads the members of a known object, and decides between known names. *)
Ltac found := repeat (erewrite required_found by reflexivity); cbn [mbind result_bind].

Ltac choose :=
  repeat match goal with
  | |- context [decide (@eq string ?a ?b)] =>
    lazymatch eval vm_compute in (bool_decide (a = b)) with
    | true => rewrite (decide_True (P := a = b)) by reflexivity
    | false => rewrite (decide_False (P := a = b)) by discriminate
    end
  | |- context [decide (?a = ?b ∨ ?c = ?d)] =>
    lazymatch eval vm_compute in (bool_decide (a = b ∨ c = d)) with
    | true => rewrite (decide_True (P := a = b ∨ c = d)) by (first [left; reflexivity|right; reflexivity])
    | false => rewrite (decide_False (P := a = b ∨ c = d)) by (intros [?|?]; discriminate)
    end
  end.

Lemma parse_property_value_written v path j :
  value_ok v →
  parse_property_value
    (JObject (("op", JString "property") :: ("property", j) :: property_value_members v)) path =
    Ok (canonical_value v).
Proof.
  intros Hv. unfold parse_property_value.
  destruct v as [|b|z|x|s|r]; found; cbn [json_string mbind result_bind]; choose; try done.
  - rewrite decide_False by (unfold value_ok in Hv; lia). done.
  - by rewrite json_number_written.
  - change (negb (bool_decide _) || _) with false. cbv iota.
    unfold parse_rectangle, rectangle_json. found. rewrite !json_number_written.
    rewrite (unsigned_32_written _ _ Hv). by destruct r as [???? []].
Qed.

Definition within {A} (count size : nat) (r : A) : Counted A :=
  if decide (count + size <= default_max_nodes)%nat then Ok (r, (count + size)%nat)
  else budget_exceeded.

(** The node itself and its children make the budget's share of the node. *)
Lemma within_node {A B} (f : A → B) count n x :
  (r ← within (S count) n x; Ok (f r.1, r.2)) = within count (S n) (f x).
Proof. unfold within. rewrite Nat.add_succ_comm. by case_decide. Qed.

Abbreviation reads_back parse base p := (∀ count, (base <= count)%nat →
  parse (expression_json p) count = within count (plan_size p) (canonical p)).

Lemma parse_children_written parse base l :
  Forall (λ p, reads_back parse base p) l → ∀ count,
  (base <= count <= default_max_nodes)%nat →
  parse_children parse ((λ c, expression_json c) <$> l) count =
    within count (foldr (λ c n, plan_size c + n)%nat O l) ((λ c, canonical c) <$> l).
Proof.
  induction 1 as [|p l Hp Hl IH]; intros count Hc; cbn [fmap list_fmap parse_children foldr].
  - unfold within. rewrite decide_True by lia. by rewrite Nat.add_0_r.
  - rewrite Hp by lia. unfold within at 1. case_decide as Hs; cbn [mbind result_bind].
    + cbn [snd fst]. rewrite IH by lia. unfold within. rewrite Nat.add_assoc.
      by case_decide.
    + unfold within. rewrite decide_False by lia. done.
Qed.

Lemma plan_size_unfold op role state property value text relation children :
  plan_size (MkPlan op role state property value text relation children) =
    S (foldr (λ c n, plan_size c + n)%nat O children).
Proof. done. Qed.

Lemma parse_unary_written parse object op rel children count :
  length children = 1%nat → Forall (λ p, reads_back parse (S count) p) children →
  required_member object "child" "$.expr" =
    Ok (match children with c :: _ => expression_json c | [] => JNull end) →
  parse_unary parse object op rel (S count) =
    within count (S (foldr (λ c n, plan_size c + n)%nat O children))
      (MkPlan op 0 0 0 NoValue "" rel ((λ c, canonical c) <$> children)).
Proof.
  intros Hl Hp Hc. destruct children as [|c [|]]; try done. apply (Forall_singleton _ c) in Hp.
  unfold parse_unary. rewrite Hc. cbn [mbind result_bind]. cbn beta in Hp. rewrite (Hp (S count)) by done.
  rewrite (within_node (λ x, MkPlan op 0 0 0 NoValue "" rel [x])). cbn. by rewrite Nat.add_0_r.
Qed.

(** The reader, given what is left of its budget as fuel, reads the written form of
    a plan as the plan's canonical form exactly when the plan fits the budget. *)
Lemma parse_expression_written p : plan_ok p → ∀ fuel count,
  (default_max_nodes <= fuel + count)%nat →
  parse_expression fuel (expression_json p) count = within count (plan_size p) (canonical p).
Proof.
  induction p as [op role state property value text relation children IH] using plan_ind'.
  intros Hok fuel count Hf. inversion Hok as [? ? ? ? ? ? ? ? Ha Hc Hr Hs Hp Hrel Hv]; subst.
  rewrite plan_size_unfold.
  destruct fuel as [|fuel]; cbn [parse_expression].
  { rewrite decide_True by lia. unfold within. by rewrite decide_False by lia. }
  destruct (decide (default_max_nodes <= count)%nat) as [|Hcount].
  { unfold within. by rewrite decide_False by lia. }
  assert (Forall (λ p, reads_back (parse_expression fuel) (S count) p) children) as Hch.
  { rewrite Forall_forall in IH, Hc |- *. intros c Hin count' Hcount'. apply IH; auto. lia. }
  assert (∀ A (x : A), Ok (x, S count) = within count 1 x) as Hleaf.
  { intros A x. unfold within. rewrite decide_True by lia. by rewrite Nat.add_1_r. }
  clear IH Hc.
  destruct op; unfold arity_ok in Ha; cbn [op_arity] in Ha;
    cbn [expression_json canonical plan_op plan_children plan_role plan_state plan_property
      plan_value plan_text plan_relation];
    found; cbn [json_string mbind result_bind]; unfold parse_operation, parse_relation;
    choose; found;
    rewrite ?unsigned_32_written by done; cbn [mbind result_bind json_string].
  all: try (subst children; rewrite ?parse_property_value_written by done; apply Hleaf).
  all: try (erewrite parse_unary_written; [done|exact Ha|exact Hch|by apply required_found]).
  all: rewrite (parse_children_written _ (S count)) by (done || lia).
  - apply (within_node (with_children LocatorOp.All)).
  - apply (within_node (with_children LocatorOp.Any)).
Qed.

(** ** What the readers accept *)

Ltac refused H ::= lazymatch type of H with
  | invalid_locator _ = Ok _ => discriminate H
  | budget_exceeded = Ok _ => discriminate H
  end.

Lemma unsigned_32_ok v path n : unsigned_32 v path = Ok n → uint32_ok n.
Proof. unfold unsigned_32, uint32_ok. intros H. ok_inv. lia. Qed.

Lemma required_member_all j name path v :
  storable j = true → required_member j name path = Ok v → storable v = true.
Proof.
  unfold required_member. intros Hj H. ok_inv. by eapply member_all.
Qed.

Lemma json_number_ok v path x : json_number v path = Ok x → canonical_number x = x.
Proof.
  unfold json_number. intros H. ok_inv; try done.
  match goal with |- canonical_number (match ?y with _ => _ end) = _ => by destruct y end.
Qed.

Lemma parse_rectangle_ok v path r :
  parse_rectangle v path = Ok r → value_ok r ∧ canonical_value r = r.
Proof.
  unfold parse_rectangle. intros H. ok_inv.
  split; [cbn; by eapply unsigned_32_ok|]. cbn.
  by repeat match goal with E : json_number _ _ = Ok _ |- _ =>
    rewrite (json_number_ok _ _ _ E); clear E end.
Qed.

Lemma parse_property_value_ok v path r :
  storable v = true →
  parse_property_value v path = Ok r → value_ok r ∧ canonical_value r = r.
Proof.
  unfold parse_property_value. intros Hv H. ok_inv; try done.
  - split; [|done]. match goal with E : required_member v "value" path = Ok _ |- _ =>
      apply required_member_all, bool_decide_eq_true in E; [|done] end. cbn. lia.
  - split; [done|]. cbn. by erewrite json_number_ok.
  - by eapply parse_rectangle_ok.
Qed.

(** What reading one node gives, whatever was read before. *)
Definition node_read (count : nat) (p : LocatorPlan) (n : nat) : Prop :=
  plan_ok p ∧ canonical p = p ∧ n = (count + plan_size p)%nat ∧ (n <= default_max_nodes)%nat.

Definition sound (parse : Json → nat → Counted LocatorPlan) : Prop :=
  ∀ j count p n, storable j = true → parse j count = Ok (p, n) → node_read count p n.

Lemma parse_children_sound parse l count ps n : sound parse →
  storable (JArray l) = true →
  (count <= default_max_nodes)%nat → parse_children parse l count = Ok (ps, n) →
  Forall plan_ok ps ∧ (λ c, canonical c) <$> ps = ps ∧
  n = (count + foldr (λ c n, plan_size c + n) O ps)%nat ∧ (n <= default_max_nodes)%nat.
Proof.
  intros Hs. revert count ps n. induction l as [|j l IH]; intros count ps n Hj Hc H; cbn in H;
    ok_inv.
  - split_and!; [done|done|cbn; lia|done].
  - destruct x as [p m], x0 as [qs k]. apply andb_true_iff in Hj as [Hj Hl].
    apply Hs in Hx as (Hp & Hcan & -> & Hm); [|done]. cbn in *.
    apply IH in Hx0 as (Hq & Hcs & -> & Hn); [|done..].
    split_and!; [by constructor|by rewrite Hcan, Hcs|cbn; lia|done].
Qed.

Lemma plan_ok_leaf op role state property value text :
  op_arity op = NoChild → uint32_ok role → uint32_ok state → uint32_ok property →
  value_ok value → plan_ok (MkPlan op role state property value text 0 []).
Proof. intros Ha ????. constructor; try done. unfold arity_ok. by rewrite Ha. Qed.

Lemma parse_unary_sound parse object op rel count p n : sound parse →
  storable object = true → op_arity op = OneChild →
  uint32_ok rel → (rel = 0%N ∨ op = LocatorOp.Related ∨ op = LocatorOp.RelatedReverse) →
  parse_unary parse object op rel (S count) = Ok (p, n) → node_read count p n.
Proof.
  intros Hs Hj Ha Hrel Hop H. unfold parse_unary in H. ok_inv. destruct x0 as [q m].
  apply Hs in Hx0 as (Hp & Hc & -> & Hm); [|by eapply required_member_all]. cbn in *. split_and!.
  - constructor; try done; [unfold arity_ok; by rewrite Ha|by constructor].
  - destruct op; try discriminate Ha; cbn; rewrite Hc; try done; by destruct Hop as [->|[?|?]].
  - cbn. lia.
  - done.
Qed.

Lemma parse_operation_sound parse object op count p n : sound parse → storable object = true →
  (S count <= default_max_nodes)%nat →
  parse_operation parse object op (S count) = Ok (p, n) → node_read count p n.
Proof.
  intros Hs Hj Hc H. unfold parse_operation, parse_relation in H.
  assert (∀ q, plan_ok q → canonical q = q → plan_size q = 1%nat → node_read count q (S count)) as Hleaf.
  { intros q ?? Hq. split_and!; [done..|rewrite Hq; lia|done]. }
  assert (uint32_ok 0) as H0 by done.
  ok_inv; repeat match goal with E : unsigned_32 _ _ = Ok _ |- _ => apply unsigned_32_ok in E end.
  - by apply Hleaf; [apply plan_ok_leaf|..].
  - by apply Hleaf; [apply plan_ok_leaf|..].
  - destruct (decide (op = "role")); by apply Hleaf; [apply plan_ok_leaf|..].
  - match goal with E : parse_property_value _ _ = Ok _ |- _ =>
      apply parse_property_value_ok in E as [Hv Hcan]; [|done] end.
    apply Hleaf; [by apply plan_ok_leaf| |done]. cbn. by rewrite Hcan.
  - destruct (decide (op = "accessible_name")); by apply Hleaf; [apply plan_ok_leaf|..].
  - match goal with E : parse_children _ _ _ = Ok ?r |- _ => destruct r as [ps m];
      apply parse_children_sound in E as (Hp & Hcan & -> & Hm);
        [|done|by eapply required_member_all|done] end.
    cbn in Hm. destruct (decide (op = "all")); (split_and!;
      [by constructor|cbn; by rewrite Hcan|cbn; lia|done]).
  - by eapply parse_unary_sound; [..|exact H]; try done; left.
  - by eapply parse_unary_sound; [..|exact H]; try done; left.
  - by eapply parse_unary_sound; [..|exact H]; try done; left.
  - by eapply parse_unary_sound; [..|exact H]; try done; left.
  - by eapply parse_unary_sound; [..|exact H]; try done; right; left.
  - by eapply parse_unary_sound; [..|exact H]; try done; right; right.
Qed.

Lemma parse_expression_sound fuel : sound (parse_expression fuel).
Proof.
  induction fuel as [|fuel IH]; intros j count p n Hj H;
    cbn [parse_expression] in H; ok_inv.
  eapply parse_operation_sound; [done|done| |done]. lia.
Qed.

(** ** Whole locators *)

Lemma count_plan_nodes_size p :
  count_plan_nodes p = N.min (N.of_nat (plan_size p)) size_max.
Proof.
  induction p as [op role state property value text relation children IH] using plan_ind'.
  rewrite plan_size_unfold. cbn [count_plan_nodes plan_children].
  match goal with |- ?go 1%N children = _ =>
    assert (1 <= size_max)%N as H1 by done; assert (∀ count, (count <= size_max)%N → go count children =
      N.min (count + N.of_nat (foldr (λ c n, plan_size c + n)%nat O children)) size_max) as Hgo
  end.
  { induction IH as [|c l Hc Hl IHl]; intros count Hcount; [cbn; lia|]. cbn [foldr].
    rewrite Hc. case_decide; [lia|]. rewrite IHl by lia. lia. }
  rewrite Hgo by done. lia.
Qed.

Lemma object_all p (l : Members) :
  NoDup l.*1 → Forall (λ m, json_all p m.2 = true) l → json_all p (JObject l) = true.
Proof.
  intros Hn Hl. cbn. rewrite bool_decide_eq_true_2 by done. by apply forallb_forall, List.Forall_forall.
Qed.

Lemma expression_json_storable p : plan_ok p → storable (expression_json p) = true.
Proof.
  unfold storable.
  induction p as [op role state property value text relation children IH] using plan_ind'.
  intros Hok. inversion Hok as [? ? ? ? ? ? ? ? Ha Hc Hr Hs Hp Hrel Hv]; subst.
  assert (Forall (λ c, json_all is_finite (expression_json c) = true) children) as Hch.
  { rewrite Forall_forall in IH. rewrite Forall_forall in Hc. apply Forall_forall. auto. }
  clear IH Hc Hok.
  assert (∀ n, uint32_ok n → json_all is_finite (JInteger (Z.of_N n)) = true) as Hn.
  { unfold uint32_ok, uint32_max. intros n Hn. apply bool_decide_eq_true. lia. }
  assert (json_all is_finite (match children with c :: _ => expression_json c | [] => JNull end)
    = true) as H1 by (destruct Hch; done).
  assert (json_all is_finite (JArray ((λ c, expression_json c) <$> children)) = true) as Hl.
  { clear H1 Ha. induction Hch as [|c l Hp' Hl IHl]; [done|].
    change (json_all is_finite (expression_json c) && json_all is_finite
      (JArray ((λ c, expression_json c) <$> l)) = true). by rewrite Hp', IHl. }
  apply Hn in Hr, Hs, Hp, Hrel.
  assert (∀ x, json_all is_finite (encoded_number x) = true) as Hx by (by intros []).
  assert (∀ s, json_all is_finite (JString s) = true) as Hstr by done.
  assert (json_all is_finite (JObject (("op", JString "property") ::
    ("property", JInteger (Z.of_N property)) :: property_value_members value)) = true) as Hval.
  { apply object_all; [by destruct value; apply (bool_decide_unpack _)|].
    repeat apply Forall_cons_2; [apply Hstr|exact Hp|].
    destruct value as [|b|z|x|s|r]; cbn [property_value_members];
      repeat apply Forall_cons_2; try apply Forall_nil_2; cbn [snd]; auto.
    - apply bool_decide_eq_true. unfold value_ok, int64_max in Hv. lia.
    - apply object_all; [by apply (bool_decide_unpack _)|].
      repeat apply Forall_cons_2; try apply Forall_nil_2; cbn [snd]; auto. }
  destruct op; cbn [expression_json plan_op plan_children plan_role plan_state plan_property
    plan_value plan_text plan_relation]; try exact Hval;
    (apply object_all; [by apply (bool_decide_unpack _)|]);
    repeat apply Forall_cons_2; try apply Forall_nil_2; cbn [snd]; auto.
Qed.

Lemma boundary_written b : parse_boundary (JString (boundary_name b)) = Ok b.
Proof. by destruct b. Qed.

Lemma consistency_written c : parse_consistency (JString (consistency_name c)) = Ok c.
Proof. by destruct c. Qed.

Lemma read_locator_written l : plan_ok (locator_plan l) →
  read_locator (locator_json l) =
    if decide (plan_size (locator_plan l) <= default_max_nodes)%nat then Ok (canonical_locator l)
    else budget_exceeded.
Proof.
  intros Hok. unfold read_locator, locator_json. found.
  rewrite (unsigned_32_written locatorVersion) by done. cbn [mbind result_bind is_object negb].
  rewrite decide_False by (intros Hv; by apply Hv).
  rewrite boundary_written, consistency_written. cbn [mbind result_bind].
  rewrite parse_expression_written by (done || lia). unfold within. rewrite Nat.add_0_l.
  by destruct (decide (plan_size (locator_plan l) <= default_max_nodes)%nat).
Qed.

Lemma locator_json_storable l : plan_ok (locator_plan l) → storable (locator_json l) = true.
Proof.
  intros Hok. apply object_all; [by apply (bool_decide_unpack _)|].
  repeat apply Forall_cons_2; try apply Forall_nil_2; cbn [snd]; try reflexivity.
  by apply expression_json_storable.
Qed.

Lemma canonical_number_idemp x : encoded_number (canonical_number x) = encoded_number x.
Proof. by destruct x. Qed.

(** The default fields and the sign of zero are not written. *)
Lemma expression_json_canonical p : expression_json (canonical p) = expression_json p.
Proof.
  induction p as [op role state property value text relation children IH] using plan_ind'.
  assert ((λ c, expression_json c) <$> ((λ c, canonical c) <$> children) =
    (λ c, expression_json c) <$> children) as Hl.
  { rewrite <- list_fmap_compose. apply list_fmap_ext. intros i c Hc.
    rewrite Forall_forall in IH. by apply IH, list_elem_of_lookup_2 with i. }
  assert ((match (λ c, canonical c) <$> children with c :: _ => expression_json c | [] => JNull end) =
    (match children with c :: _ => expression_json c | [] => JNull end)) as Hc
    by (destruct IH as [|c l Hc _]; [done|exact Hc]).
  destruct op; cbn [expression_json canonical plan_op plan_children plan_role plan_state
    plan_property plan_value plan_text plan_relation with_children]; rewrite ?Hl, ?Hc; try done.
  destruct value; cbn [canonical_value property_value_members]; try done.
  - by rewrite canonical_number_idemp.
  - unfold rectangle_json. cbn. by rewrite !canonical_number_idemp.
Qed.

Lemma locator_json_canonical l : locator_json (canonical_locator l) = locator_json l.
Proof. unfold locator_json. cbn [canonical_locator locator_plan]. by rewrite expression_json_canonical. Qed.

(** *** The combinators *)

Lemma append_predicate_ok ps p op : op_arity op = ManyChildren →
  Forall plan_ok ps → plan_ok p → Forall plan_ok (append_predicate ps p op).
Proof.
  unfold append_predicate. intros Ha Hps Hp. case_decide; apply Forall_app; split; try done.
  - by inversion Hp.
  - by apply Forall_singleton.
Qed.

Lemma with_children_ok op ps : arity_ok op ps → Forall plan_ok ps → plan_ok (with_children op ps).
Proof. by constructor. Qed.

Lemma gather_ok op ls : op_arity op = ManyChildren →
  Forall (λ l, plan_ok (locator_plan l)) ls → plan_ok (locator_plan (gather op ls)).
Proof.
  intros Ha Hls. unfold gather. apply foldl_inv.
  - intros l x Hx Hl. rewrite Forall_forall in Hls. cbn. apply with_children_ok.
    + unfold arity_ok. by rewrite Ha.
    + apply append_predicate_ok; [done| |by apply Hls]. by inversion Hl.
  - apply with_children_ok; [unfold arity_ok; by rewrite Ha|done].
Qed.

Lemma unary_ok op rel l : op_arity op = OneChild → uint32_ok rel → plan_ok (locator_plan l) →
  plan_ok (MkPlan op 0 0 0 NoValue "" rel [locator_plan l]).
Proof.
  intros Ha Hr Hl. constructor; try done; [unfold arity_ok; by rewrite Ha|by constructor].
Qed.

(** ** Theorems *)

Section text.
Context `{JsonText}.

(** C34: A locator the combinators can build is written and read back: when the plan
    has at most [default_max_nodes] nodes, [from_string] gives the locator, up to the
    sign of zeros and fields its operations do not use, and what it gives is equal
    to it under [operator==] and written alike; when the plan has more, the text is
    refused for its complexity. *)
Theorem locators_round_trip (l : Locator) (t : string) :
  plan_ok (locator_plan l) → locator_to_string l = Some t →
  (if decide (plan_size (locator_plan l) <= default_max_nodes)%nat then
     from_string t = Ok (canonical_locator l) ∧
     locator_to_string (canonical_locator l) = Some t ∧
     ∀ same, locator_equal same l (canonical_locator l) = Some true
   else
     from_string t =
       fail ErrorCode.InvalidArgument "locator exceeds the default complexity budget").
Proof.
  intros Hok Ht. pose proof (locator_json_storable l Hok) as Hs.
  assert (from_string t = read_locator (locator_json l)) as Hf.
  { unfold from_string. rewrite (parse_dump (-1) (locator_json l) t);
      [|by apply storable_well_keyed|done]. by rewrite dumped_storable. }
  assert (locator_to_string (canonical_locator l) = Some t) as Hc
    by (unfold locator_to_string; by rewrite locator_json_canonical).
  rewrite read_locator_written in Hf by done. case_decide; [|done]. split_and!; [done|done|].
  intros same. unfold locator_equal. rewrite Ht, Hc. destruct (same && _ && _); [done|].
  cbn. by rewrite bool_decide_eq_true_2.
Qed.

(** Whatever text [from_string] accepts, the locator it returns can be written:
    its unary operations have one child, its numbers fit their types, it is in
    canonical form, and by the code's own count it has at most [default_max_nodes]
    nodes. *)
Theorem loaded_locators_fit (t : string) (l : Locator) :
  from_string t = Ok l →
  plan_ok (locator_plan l) ∧ canonical_locator l = l ∧
  (plan_node_count l <= N.of_nat default_max_nodes)%N.
Proof.
  unfold from_string. destruct (json_parse t) as [j| |] eqn:Hj; [|done..].
  apply parse_storable in Hj. unfold read_locator. intros Hr. ok_inv.
  match goal with E : parse_expression _ ?e _ = Ok ?r |- _ => rename E into He; destruct r as [q m] end.
  apply parse_expression_sound in He as (Hp & Hc & -> & Hm); [|by eapply required_member_all].
  unfold plan_node_count, canonical_locator. cbn [locator_plan fst boundary consistency].
  rewrite Hc, count_plan_nodes_size. split_and!; [done|done|lia].
Qed.
End text.

(** ** Witnesses *)

(** Buttons inside a window, other than the one called "Cancel". *)
Definition demo_locator : Locator :=
  sel_all [sel_role 15; sel_descendant_of (sel_role 2);
           sel_not (sel_property 1 (TextValue "Cancel"))].

Definition demo_locator_text : string := numeral_dump (locator_json demo_locator).

Lemma demo_locator_ok : plan_ok (locator_plan demo_locator).
Proof.
  apply gather_ok; [done|].
  repeat apply Forall_cons_2; [..|apply Forall_nil_2].
  - by apply plan_ok_leaf.
  - apply unary_ok; [done|done|]. by apply plan_ok_leaf.
  - apply unary_ok; [done|done|]. by apply plan_ok_leaf.
Qed.

Lemma demo_locator_small : (plan_size (locator_plan demo_locator) <= default_max_nodes)%nat.
Proof. apply Nat.leb_le. vm_compute. reflexivity. Qed.

Lemma demo_locator_loaded :
  @from_string numeral_text demo_locator_text = Ok (canonical_locator demo_locator).
Proof.
  pose proof (locator_json_storable _ demo_locator_ok) as Hs.
  unfold from_string, demo_locator_text.
  rewrite (@parse_dump numeral_text (-1) (locator_json demo_locator) _
    (storable_well_keyed _ Hs) eq_refl).
  rewrite (dumped_storable _ Hs), (read_locator_written _ demo_locator_ok).
  rewrite (decide_True _ _ demo_locator_small). reflexivity.
Qed.

Lemma locators_round_trip_witness :
  @from_string numeral_text demo_locator_text = Ok (canonical_locator demo_locator) ∧
  @locator_to_string numeral_text (canonical_locator demo_locator) = Some demo_locator_text.
Proof.
  pose proof (locators_round_trip (H := numeral_text) demo_locator demo_locator_text
    demo_locator_ok eq_refl) as Hr.
  rewrite (decide_True _ _ demo_locator_small) in Hr.
  destruct Hr as (H1 & H2 & _). exact (conj H1 H2).
Defined.

Lemma loaded_locators_fit_witness :
  canonical_locator (canonical_locator demo_locator) = canonical_locator demo_locator ∧
  (plan_node_count (canonical_locator demo_locator) <= N.of_nat default_max_nodes)%N.
Proof.
  exact (proj2 (loaded_locators_fit (H := numeral_text) demo_locator_text _ demo_locator_loaded)).
Defined.
