(* ===== verification/Query.v ===== *)
(** The query engine ([kernel/query/evaluator.hpp] and [.cpp]): checking a tree,
    listing the candidates of a scope, evaluating a plan at a node, and the two
    entry points [resolve_all] and [resolve].

    A walk over the tree is one of the searches of [Traversal], with the fuel its
    theorems ask for; [None] stands for a search out of fuel and is excluded in
    [QueryTheorems]. *)

From Stdlib Require Import Floats.SpecFloat.
From stdpp Require Import pretty.
From S2P Require Import Prelude Errors Geometry Traversal UiTree Locator.

Local Open Scope string_scope.
Local Open Scope list_scope.

(** ** Data *)

Module Cardinality.

Inductive Cardinality : Type :=
  | ExactlyOne | First | All.

End Cardinality.
Abbreviation Cardinality := Cardinality.Cardinality.

#[export] Instance Cardinality_eq_dec : EqDecision Cardinality.
Proof. solve_decision. Defined.

Record WidgetRef := MkWidgetRef {
  ref_runtime : RuntimeId; ref_tree : N; ref_epoch : TreeEpoch; ref_node : NodeId;
  ref_generation : NodeGeneration
}.

Record ProviderProvenance := MkProviderProvenance {
  pp_provider : string; pp_candidate_provider : string; pp_runtime : RuntimeId; pp_revision : N
}.

Record Match := MkMatch {
  match_ref : WidgetRef; match_mode : ConsistencyMode; snapshot_revision : N;
  matched_predicates : list string; match_provenance : ProviderProvenance
}.

Record LoweredCandidates := MkLowered { lowered_nodes : list NodeId; lowered_provider : string }.

(** [PlanLowerer::lower]. *)
Abbreviation PlanLowerer := (Locator → TreeNav → Result (option LoweredCandidates)).

Record QueryScope := MkQueryScope {
  scope_navigation : TreeNav; scope_root : option NodeId; scope_lowerer : option PlanLowerer
}.

(** ** The tree as a graph *)

Inductive Direction := Forward | Reverse.

#[export] Instance Direction_eq_dec : EqDecision Direction.
Proof. solve_decision. Defined.

Record NavGraph := MkNavGraph { graph_navigation : TreeNav; graph_direction : Direction }.

#[export] Instance nav_traversable : TraversableGraph NavGraph NodeId := {|
  trav_contains := λ g node,
    bool_decide (node ∈ nav_nodes (graph_navigation g)) && nav_contains (graph_navigation g) node;
  trav_neighbours := λ g node,
    match graph_direction g with
    | Forward => nav_children (graph_navigation g) node
    | Reverse => nav_parents (graph_navigation g) node
    end
|}.

(** [indexes_.at( node )]: the first position of the node. *)
Definition node_index (nav : TreeNav) (node : NodeId) : nat :=
  match list_find (eq node) (nav_nodes nav) with
  | Some (i, _) => i
  | None => length (nav_nodes nav)
  end.

Definition index_space_size (nav : TreeNav) : nat := length (nav_nodes nav).

(** The visited set [with_visited_set] makes for an [IndexedGraph]. *)
Definition nav_visited (nav : TreeNav) : VisitedSet (list bool) NodeId :=
  flat_visited (node_index nav).

Definition nav_fresh (nav : TreeNav) : list bool := replicate (index_space_size nav) false.

(** ** Checking a tree *)

Fixpoint check_all {A} (check : A → Result unit) (l : list A) : Result unit :=
  match l with
  | [] => Ok ()
  | x :: rest => _ ← check x; check_all check rest
  end.

Definition validate_endpoints (known : gset NodeId) (edge_kind : string)
    (endpoints : list NodeId) : Result unit :=
  check_all (λ endpoint,
    if decide (endpoint ∈ known) then Ok ()
    else fail ErrorCode.InvalidArgument
      ("TreeNav " +:+ edge_kind +:+ " endpoint is absent from nodes()")) endpoints.

(** A relation a plan follows, and whether backwards. *)
Abbreviation RelationUse := (RelationId * bool)%type.

Definition own_use (plan : LocatorPlan) : gset RelationUse :=
  match plan_op plan with
  | LocatorOp.Related => {[(plan_relation plan, false)]}
  | LocatorOp.RelatedReverse => {[(plan_relation plan, true)]}
  | _ => ∅
  end.

Fixpoint collect_relation_uses (plan : LocatorPlan) (uses : gset RelationUse)
    : gset RelationUse :=
  (fix go (l : list LocatorPlan) (uses : gset RelationUse) : gset RelationUse :=
     match l with
     | [] => uses
     | child :: rest => go rest (collect_relation_uses child uses)
     end) (plan_children plan) (own_use plan ∪ uses).

Definition related_along (nav : TreeNav) (use : RelationUse) (node : NodeId) : list NodeId :=
  if use.2 then nav_related_reverse nav node use.1 else nav_related nav node use.1.

Definition validate_node (nav : TreeNav) (known : gset NodeId) (node : NodeId) : Result unit :=
  if negb (nav_contains nav node) then
    fail ErrorCode.InvalidArgument "TreeNav nodes() contains an unavailable node"
  else
    _ ← validate_endpoints known "child" (nav_children nav node);
    validate_endpoints known "parent" (nav_parents nav node).

(** The uses are a set; whichever endpoint is found missing first, the error is the
    same. *)
Definition validate_navigation (nav : TreeNav) (plan : LocatorPlan) : Result unit :=
  let nodes := nav_nodes nav in
  let known : gset NodeId := list_to_set nodes in
  if decide (size known ≠ length nodes) then
    fail ErrorCode.InvalidArgument "TreeNav nodes() contains duplicate identities"
  else
    _ ← check_all (validate_node nav known) nodes;
    _ ← validate_endpoints known "root" (nav_roots nav);
    check_all (λ node,
      check_all (λ use, validate_endpoints known "relation" (related_along nav use node))
        (elements (collect_relation_uses plan ∅))) nodes.

(** ** Comparing values *)

Definition is_nan (x : double) : bool := match x with S754_nan => true | _ => false end.

Definition number_equal (left right : double) : bool :=
  SFeqb left right || (is_nan left && is_nan right).

Definition rect_equal (left right : SpaceRect) : bool :=
  number_equal (sr_x left) (sr_x right) && number_equal (sr_y left) (sr_y right) &&
  number_equal (sr_w left) (sr_w right) && number_equal (sr_h left) (sr_h right) &&
  bool_decide (sr_space left = sr_space right).

Definition property_equal (left right : PropertyValue) : bool :=
  match left, right with
  | NoValue, NoValue => true
  | BoolValue l, BoolValue r => Bool.eqb l r
  | IntegerValue l, IntegerValue r => bool_decide (l = r)
  | NumberValue l, NumberValue r => number_equal l r
  | TextValue l, TextValue r => bool_decide (l = r)
  | RectValue l, RectValue r => rect_equal l r
  | _, _ => false
  end.

(** ** Evaluating a plan *)

Record Evaluation := MkEvaluation { matched : bool; evidence : list string }.

Definition no_match : Evaluation := MkEvaluation false [].

Definition evidence_for (plan : LocatorPlan) : string :=
  match plan_op plan with
  | LocatorOp.MatchAll => "match_all"
  | LocatorOp.MatchNone => "match_none"
  | LocatorOp.Role => "role=" +:+ role_name (plan_role plan)
  | LocatorOp.State => "state=" +:+ pretty (plan_state plan)
  | LocatorOp.Property => "property=" +:+ pretty (plan_property plan)
  | LocatorOp.AccessibleName => "accessible_name"
  | LocatorOp.Text => "text"
  | LocatorOp.All => "all"
  | LocatorOp.Any => "any"
  | LocatorOp.Not => "not"
  | LocatorOp.ChildOf => "child_of"
  | LocatorOp.DescendantOf => "descendant_of"
  | LocatorOp.AncestorOf => "ancestor_of"
  | LocatorOp.Related => "related=" +:+ relation_name (plan_relation plan)
  | LocatorOp.RelatedReverse => "related_reverse=" +:+ relation_name (plan_relation plan)
  end.

Definition when (condition : bool) (plan : LocatorPlan) : Evaluation :=
  if condition then MkEvaluation true [evidence_for plan] else no_match.

(** [result.evidence.push_back( evidence_for( plan ) )] on a match. *)
Definition followed (plan : LocatorPlan) (result : Evaluation) : Evaluation :=
  if matched result then MkEvaluation true (evidence result ++ [evidence_for plan]) else result.

Section evaluator.
Context (nav : TreeNav).

Definition property_matches (node : NodeId) (property : PropertyId) (expected : PropertyValue)
    (plan : LocatorPlan) : Evaluation :=
  let read := nav_property nav node property in
  when (bool_decide (read_state read = ReadState.Present) &&
        property_equal (read_value read) expected) plan.

(** The loops over the children of a plan, [evaluate] being what they call. *)
Definition evaluate_all (evaluate : LocatorPlan → option Evaluation)
    : list LocatorPlan → list string → option Evaluation :=
  fix go (l : list LocatorPlan) (found : list string) : option Evaluation :=
    match l with
    | [] => Some (MkEvaluation true found)
    | child :: rest =>
      result ← evaluate child;
      if matched result then go rest (found ++ evidence result) else Some no_match
    end.

Definition evaluate_any (evaluate : LocatorPlan → option Evaluation)
    : list LocatorPlan → option Evaluation :=
  fix go (l : list LocatorPlan) : option Evaluation :=
    match l with
    | [] => Some no_match
    | child :: rest =>
      result ← evaluate child;
      if matched result then Some result else go rest
    end.

Fixpoint evaluate_neighbors (evaluate : NodeId → option Evaluation) (plan : LocatorPlan)
    (neighbors : list NodeId) : option Evaluation :=
  match neighbors with
  | [] => Some no_match
  | neighbor :: rest =>
    result ← evaluate neighbor;
    if matched result then Some (followed plan result)
    else evaluate_neighbors evaluate plan rest
  end.

(** [RelationVisitor]; once it has a match, or at the origin, it does nothing. *)
Definition relation_visitor (evaluate : NodeId → option Evaluation) (origin : NodeId)
    : GraphVisitor (option Evaluation) NodeId := {|
  visit_node := λ node state,
    result ← state;
    if bool_decide (node = origin) || matched result then Some result else evaluate node;
  visit_edge := λ _ _ state, state
|}.

Definition walk_fuel (direction : Direction) : nat :=
  1 + sum_list_with (out_degree (MkNavGraph nav direction)) (nav_nodes nav).

Definition evaluate_walk (evaluate : NodeId → option Evaluation) (plan : LocatorPlan)
    (direction : Direction) (origin : NodeId) : option Evaluation :=
  state ← depth_first_search (VS := nav_visited nav) (GV := relation_visitor evaluate origin)
            (walk_fuel direction) (nav_fresh nav) (MkNavGraph nav direction) origin (Some no_match);
  result ← state;
  Some (followed plan result).

Fixpoint evaluate (plan : LocatorPlan) (node : NodeId) {struct plan} : option Evaluation :=
  let follow (go : (NodeId → option Evaluation) → option Evaluation) :=
    match plan_children plan with
    | [] => Some no_match
    | child :: _ => go (λ node, evaluate child node)
    end in
  match plan_op plan with
  | LocatorOp.MatchAll => Some (when true plan)
  | LocatorOp.MatchNone => Some no_match
  | LocatorOp.Role => Some (when (bool_decide (nav_role nav node = plan_role plan)) plan)
  | LocatorOp.State =>
    Some (when (bool_decide (N.land (nav_states nav node) (plan_state plan) = plan_state plan)) plan)
  | LocatorOp.Property => Some (property_matches node (plan_property plan) (plan_value plan) plan)
  | LocatorOp.AccessibleName =>
    Some (property_matches node property_accessible_name (TextValue (plan_text plan)) plan)
  | LocatorOp.Text => Some (property_matches node property_text (TextValue (plan_text plan)) plan)
  | LocatorOp.All => evaluate_all (λ child, evaluate child node) (plan_children plan) []
  | LocatorOp.Any => evaluate_any (λ child, evaluate child node) (plan_children plan)
  | LocatorOp.Not =>
    match plan_children plan with
    | [] => Some no_match
    | child :: _ => result ← evaluate child node; Some (when (negb (matched result)) plan)
    end
  | LocatorOp.ChildOf => follow (λ ev, evaluate_neighbors ev plan (nav_parents nav node))
  | LocatorOp.DescendantOf => follow (λ ev, evaluate_walk ev plan Reverse node)
  | LocatorOp.AncestorOf => follow (λ ev, evaluate_walk ev plan Forward node)
  | LocatorOp.Related =>
    follow (λ ev, evaluate_neighbors ev plan (nav_related nav node (plan_relation plan)))
  | LocatorOp.RelatedReverse =>
    follow (λ ev, evaluate_neighbors ev plan (nav_related_reverse nav node (plan_relation plan)))
  end.
End evaluator.

(** ** The candidates of a scope *)

(** [CandidateVisitor]: the nodes in the order first met, and their set. *)
Abbreviation Candidates := (list NodeId * gset NodeId)%type.

#[local] Instance candidate_visitor : GraphVisitor Candidates NodeId := {|
  visit_node := λ node state,
    if decide (node ∈ state.2) then state else (state.1 ++ [node], {[node]} ∪ state.2);
  visit_edge := λ _ _ state, state
|}.

Definition search_from (nav : TreeNav) (start : NodeId) (state : Candidates)
    : option Candidates :=
  breadth_first_search (VS := nav_visited nav) (index_space_size nav) (nav_fresh nav)
    (MkNavGraph nav Forward) start state.

Definition in_graph (nav : TreeNav) (node : NodeId) : bool :=
  trav_contains (MkNavGraph nav Forward) node.

Fixpoint search_roots (nav : TreeNav) (roots : list NodeId) (state : Candidates)
    : option Candidates :=
  match roots with
  | [] => Some state
  | root :: rest =>
    state ← (if in_graph nav root then search_from nav root state else Some state);
    search_roots nav rest state
  end.

Fixpoint search_unseen (nav : TreeNav) (nodes : list NodeId) (state : Candidates)
    : option Candidates :=
  match nodes with
  | [] => Some state
  | node :: rest =>
    state ← (if negb (bool_decide (node ∈ state.2)) && in_graph nav node
             then search_from nav node state else Some state);
    search_unseen nav rest state
  end.

Definition enumerate_scope (scope : QueryScope) : option (Result (list NodeId)) :=
  let nav := scope_navigation scope in
  match scope_root scope with
  | Some root =>
    if negb (in_graph nav root) then
      Some (fail ErrorCode.NoMatch "query scope root is not present in the tree")
    else
      state ← search_from nav root ([], ∅);
      Some (Ok state.1)
  | None =>
    state ← search_roots nav (nav_roots nav) ([], ∅);
    state ← search_unseen nav (nav_nodes nav) state;
    Some (Ok state.1)
  end.

(** ** Resolving *)

Record EvaluatedMatch := MkEvaluated {
  em_node : NodeId; em_evidence : list string; em_candidate_provider : string
}.

(** [std::erase_if] with what the lowerer allows, and the provider it names. *)
Definition lower_candidates (locator : Locator) (scope : QueryScope) (candidates : list NodeId)
    : Result (list NodeId * string) :=
  match scope_lowerer scope with
  | None => Ok (candidates, "")
  | Some lower =>
    lowered ← lower locator (scope_navigation scope);
    Ok (match lowered with
        | None => (candidates, "")
        | Some narrowed =>
          (filter (λ node, node ∈ (list_to_set (lowered_nodes narrowed) : gset NodeId)) candidates,
           lowered_provider narrowed)
        end)
  end.

Fixpoint collect_matches (nav : TreeNav) (plan : LocatorPlan) (provider : string)
    (candidates : list NodeId) : option (list EvaluatedMatch) :=
  match candidates with
  | [] => Some []
  | candidate :: rest =>
    result ← evaluate nav plan candidate;
    matches ← collect_matches nav plan provider rest;
    Some (if matched result then MkEvaluated candidate (evidence result) provider :: matches
          else matches)
  end.

Definition evaluate_matches (locator : Locator) (scope : QueryScope) (max_nodes : N)
    : option (Result (list EvaluatedMatch)) :=
  let complexity := plan_node_count locator in
  let nav := scope_navigation scope in
  let plan := locator_plan locator in
  if decide (max_nodes < complexity)%N then
    Some (fail ErrorCode.InvalidArgument
      ("locator complexity " +:+ pretty complexity +:+ " exceeds max_nodes=" +:+ pretty max_nodes))
  else
    match validate_navigation nav plan with
    | Err error => Some (Err error)
    | Ok _ =>
      candidates ← enumerate_scope scope;
      match candidates with
      | Err error => Some (Err error)
      | Ok candidates =>
        match lower_candidates locator scope candidates with
        | Err error => Some (Err error)
        | Ok (candidates, provider) =>
          matches ← collect_matches nav plan provider candidates; Some (Ok matches)
        end
      end
    end.

Definition make_ref (nav : TreeNav) (node : NodeId) : WidgetRef :=
  let m := nav_metadata nav in
  MkWidgetRef (nav_runtime m) (nav_tree m) (nav_epoch m) node (nav_generation nav node).

Definition make_match (locator : Locator) (nav : TreeNav) (evaluated : EvaluatedMatch) : Match :=
  let m := nav_metadata nav in
  let provenance := nav_provenance nav (em_node evaluated) in
  MkMatch (make_ref nav (em_node evaluated)) (consistency locator) (nav_revision m)
    (em_evidence evaluated)
    (MkProviderProvenance (nav_provider m) (em_candidate_provider evaluated)
      (prov_runtime provenance) (prov_revision provenance)).

Definition resolve_all (locator : Locator) (scope : QueryScope) (max_nodes : N)
    : option (Result (list WidgetRef)) :=
  match evaluate_matches locator scope max_nodes with
  | None => None
  | Some (Err error) => Some (Err error)
  | Some (Ok matches) =>
    Some (Ok ((λ m, make_ref (scope_navigation scope) (em_node m)) <$> matches))
  end.

Definition resolve (locator : Locator) (cardinality : Cardinality) (scope : QueryScope)
    (max_nodes : N) : option (Result Match) :=
  if decide (cardinality = Cardinality.All) then
    Some (fail ErrorCode.InvalidArgument
      "Cardinality::All returns a NodeSet through resolve_all")
  else
    match evaluate_matches locator scope max_nodes with
    | None => None
    | Some (Err error) => Some (Err error)
    | Some (Ok []) => Some (fail ErrorCode.NoMatch "locator matched no nodes")
    | Some (Ok (first :: rest as matches)) =>
      Some (if decide (cardinality = Cardinality.ExactlyOne ∧ rest ≠ []) then
              fail ErrorCode.AmbiguousMatch
                ("locator matched " +:+ pretty (N.of_nat (length matches)) +:+ " nodes")
            else Ok (make_match locator (scope_navigation scope) first))
    end.
