(* ===== verification/QueryTheorems.v ===== *)
(** What a query means and that the engine computes it: a plan's denotation, the
    evaluator against it, the candidates of a scope, and the theorems about
    [resolve_all] and [resolve]. *)

From Stdlib Require Import Floats.SpecFloat.
From S2P Require Import Prelude Errors Geometry Traversal UiTree Locator Query.

Local Open Scope string_scope.
Local Open Scope list_scope.

(** ** The denotation of a plan *)

Section denotation.
Context (nav : TreeNav).

Definition has_property (node : NodeId) (property : PropertyId) (expected : PropertyValue) : Prop :=
  ∃ v, nav_property nav node property = MkRead ReadState.Present v ∧ property_equal v expected = true.

Definition child_edge (a b : NodeId) : Prop := b ∈ nav_children nav a.
Definition parent_edge (a b : NodeId) : Prop := b ∈ nav_parents nav a.

(** What a plan says of a node.  A node is not its own descendant or ancestor, not
    even on a cycle. *)
Fixpoint holds (plan : LocatorPlan) (node : NodeId) {struct plan} : Prop :=
  let first (P : (NodeId → Prop) → Prop) :=
    match plan_children plan with [] => False | c :: _ => P (λ node, holds c node) end in
  match plan_op plan with
  | LocatorOp.MatchAll => True
  | LocatorOp.MatchNone => False
  | LocatorOp.Role => nav_role nav node = plan_role plan
  | LocatorOp.State => N.land (nav_states nav node) (plan_state plan) = plan_state plan
  | LocatorOp.Property => has_property node (plan_property plan) (plan_value plan)
  | LocatorOp.AccessibleName =>
    has_property node property_accessible_name (TextValue (plan_text plan))
  | LocatorOp.Text => has_property node property_text (TextValue (plan_text plan))
  | LocatorOp.All => foldr (λ c P, holds c node ∧ P) True (plan_children plan)
  | LocatorOp.Any => foldr (λ c P, holds c node ∨ P) False (plan_children plan)
  | LocatorOp.Not => first (λ P, ¬ P node)
  | LocatorOp.ChildOf => first (λ P, ∃ p, p ∈ nav_parents nav node ∧ P p)
  | LocatorOp.DescendantOf => first (λ P, ∃ a, rtc parent_edge node a ∧ a ≠ node ∧ P a)
  | LocatorOp.AncestorOf => first (λ P, ∃ d, rtc child_edge node d ∧ d ≠ node ∧ P d)
  | LocatorOp.Related => first (λ P, ∃ r, r ∈ nav_related nav node (plan_relation plan) ∧ P r)
  | LocatorOp.RelatedReverse =>
    first (λ P, ∃ r, r ∈ nav_related_reverse nav node (plan_relation plan) ∧ P r)
  end.

Lemma holds_all l n : foldr (λ c P, holds c n ∧ P) True l ↔ Forall (λ c, holds c n) l.
Proof. induction l as [|c l IH]; cbn; [done|]. by rewrite Forall_cons, IH. Qed.

Lemma holds_any l n : foldr (λ c P, holds c n ∨ P) False l ↔ Exists (λ c, holds c n) l.
Proof. induction l as [|c l IH]; cbn; [by rewrite Exists_nil|]. by rewrite Exists_cons, IH. Qed.

(** ** Trees that pass the check *)

Record tree_ok : Prop := {
  ok_nodup : NoDup (nav_nodes nav);
  ok_contains : ∀ n, n ∈ nav_nodes nav → nav_contains nav n = true;
  ok_children : ∀ n, n ∈ nav_nodes nav → nav_children nav n ⊆ nav_nodes nav;
  ok_parents : ∀ n, n ∈ nav_nodes nav → nav_parents nav n ⊆ nav_nodes nav;
  ok_roots : nav_roots nav ⊆ nav_nodes nav
}.

Definition uses_ok (plan : LocatorPlan) : Prop :=
  ∀ n use, n ∈ nav_nodes nav → use ∈ collect_relation_uses plan ∅ →
    related_along nav use n ⊆ nav_nodes nav.

Definition nav_ok (plan : LocatorPlan) : Prop := tree_ok ∧ uses_ok plan.

Lemma check_all_Ok {A} (check : A → Result unit) l :
  check_all check l = Ok () ↔ ∀ x, x ∈ l → check x = Ok ().
Proof.
  induction l as [|x l IH]; cbn; [by split; [intros _ x ?%elem_of_nil|]|].
  setoid_rewrite elem_of_cons.
  destruct (check x) as [[]|] eqn:Hx; cbn; [rewrite IH; naive_solver|].
  split; [done|]. intros H. by rewrite H in Hx by (by left).
Qed.

Lemma validate_endpoints_Ok kind l :
  validate_endpoints (list_to_set (nav_nodes nav)) kind l = Ok () ↔ l ⊆ nav_nodes nav.
Proof.
  unfold validate_endpoints. rewrite check_all_Ok. split; intros H x Hx; specialize (H x Hx).
  - cbn in H. case_decide as Hd; [|done]. by apply elem_of_list_to_set in Hd.
  - by rewrite decide_True by (by apply elem_of_list_to_set).
Qed.

Lemma validate_node_Ok n :
  validate_node nav (list_to_set (nav_nodes nav)) n = Ok () ↔
  nav_contains nav n = true ∧ nav_children nav n ⊆ nav_nodes nav ∧
  nav_parents nav n ⊆ nav_nodes nav.
Proof.
  unfold validate_node. destruct (nav_contains nav n); cbn; [|by split; [|intros [? _]]].
  rewrite <- (validate_endpoints_Ok "child"), <- (validate_endpoints_Ok "parent").
  destruct (validate_endpoints _ "child" _) as [[]|]; cbn; naive_solver.
Qed.

Lemma unit_ok (r : Result unit) : is_ok r = true ↔ r = Ok ().
Proof. by destruct r as [[]|]; split. Qed.

Lemma size_list_to_set_NoDup (l : list N) :
  size (list_to_set l : gset N) = length l ↔ NoDup l.
Proof.
  split; [|intros H; by apply size_list_to_set]. unfold size, set_size, compose. intros Hs.
  assert (elements (list_to_set l : gset N) ≡ₚ l) as <-; [|apply NoDup_elements].
  apply submseteq_length_Permutation; [|lia]. apply NoDup_submseteq; [apply NoDup_elements|].
  intros x. by rewrite elem_of_elements, elem_of_list_to_set.
Qed.

(** The checks of [validate_navigation] are exactly [nav_ok]. *)
Lemma validate_navigation_Ok plan : validate_navigation nav plan = Ok () ↔ nav_ok plan.
Proof.
  unfold validate_navigation, nav_ok, uses_ok.
  pose proof (size_list_to_set_NoDup (nav_nodes nav)) as Hnd. case_decide as Hs.
  { split; [done|]. intros [Hok _]. destruct Hs. apply Hnd, Hok. }
  pose proof (check_all_Ok (validate_node nav (list_to_set (nav_nodes nav))) (nav_nodes nav)) as Hn.
  pose proof (validate_endpoints_Ok "root" (nav_roots nav)) as Hr.
  setoid_rewrite validate_node_Ok in Hn.
  destruct (check_all (validate_node _ _) _) as [[]|]; cbn [mbind result_bind].
  - destruct (validate_endpoints _ "root" _) as [[]|]; cbn [mbind result_bind].
    + rewrite check_all_Ok. setoid_rewrite check_all_Ok. setoid_rewrite elem_of_elements.
      setoid_rewrite validate_endpoints_Ok. split.
      * intros Huses. split; [|intros n use ??; by apply Huses]. split; [by apply Hnd|naive_solver..].
      * intros [_ Huses] n Hin use ?. by apply Huses.
    + split; [done|]. intros [Hok _]. by destruct Hr as [_ Hr]; specialize (Hr (ok_roots Hok)).
  - split; [done|]. intros [Hok _]. destruct Hn as [_ Hn].
    assert (Err error = Ok ()) as [=]; apply Hn. intros n Hin.
    split_and!; [by apply Hok|by apply (ok_children Hok)|by apply (ok_parents Hok)].
Qed.

(** ** The tree's graphs *)

Lemma node_index_Some n : n ∈ nav_nodes nav → nav_nodes nav !! node_index nav n = Some n.
Proof.
  intros Hn. unfold node_index. destruct (list_find_elem_of (eq n) _ n Hn eq_refl) as [[i x] Hi].
  rewrite Hi. by apply list_find_Some in Hi as (Hx & <- & _).
Qed.

(** ** The relations a plan follows *)

Abbreviation uses_loop := (fix go (l : list LocatorPlan) (uses : gset RelationUse) :=
  match l with [] => uses | child :: rest => go rest (collect_relation_uses child uses) end).

Lemma collect_uses_spec plan : ∀ U,
  collect_relation_uses plan U = collect_relation_uses plan ∅ ∪ U.
Proof.
  induction plan as [op role state property value text relation children IH] using plan_ind'.
  assert (∀ U, uses_loop children U = uses_loop children ∅ ∪ U) as Hl.
  { induction IH as [|c l Hc Hl IHl]; intros U; [set_solver|]. cbn.
    rewrite IHl, (IHl (collect_relation_uses c ∅)), (Hc U). set_solver. }
  intros U. cbn [collect_relation_uses plan_children].
  rewrite Hl, (Hl (_ ∪ ∅)). set_solver.
Qed.

Lemma uses_of_child plan c : c ∈ plan_children plan →
  collect_relation_uses c ∅ ⊆ collect_relation_uses plan ∅.
Proof.
  destruct plan as [op role state property value text relation children].
  cbn [collect_relation_uses plan_children]. generalize (own_use
    (MkPlan op role state property value text relation children) ∪ ∅) as U.
  induction children as [|d l IH]; intros U Hc; [by apply elem_of_nil in Hc|].
  apply elem_of_cons in Hc as [->|Hc]; [|by apply IH].
  assert (∀ U, U ⊆ uses_loop l U) as Hmono.
  { clear. induction l as [|c l IH]; intros U; [done|]. cbn.
    etrans; [|apply IH]. rewrite collect_uses_spec. set_solver. }
  etrans; [|apply Hmono]. rewrite (collect_uses_spec d U). set_solver.
Qed.

Lemma own_uses plan use : use ∈ own_use plan → use ∈ collect_relation_uses plan ∅.
Proof.
  revert use. change (own_use plan ⊆ collect_relation_uses plan ∅).
  destruct plan as [op role state property value text relation children].
  cbn [collect_relation_uses plan_children].
  assert (∀ U, U ⊆ uses_loop children U) as Hmono.
  { induction children as [|c l IH]; intros U; [done|]. cbn.
    etrans; [|apply IH]. rewrite collect_uses_spec. set_solver. }
  etrans; [|apply Hmono]. set_solver.
Qed.

Lemma uses_ok_child plan c : c ∈ plan_children plan → uses_ok plan → uses_ok c.
Proof. intros Hc Hu n use Hn Huse. apply Hu; [done|]. by eapply uses_of_child. Qed.

Context (Hok : tree_ok).

Lemma in_graph_iff d n :
  trav_contains (MkNavGraph nav d) n = true ↔ n ∈ nav_nodes nav.
Proof.
  cbn. rewrite andb_true_iff, bool_decide_eq_true. split; [by intros [? _]|].
  intros Hn. split; [done|]. by apply Hok.
Qed.

Lemma nav_laws d : TraversableLaws NavGraph NodeId (MkNavGraph nav d) (nav_nodes nav).
Proof.
  split.
  - intros a. by rewrite in_graph_iff.
  - intros a b Ha Hb. rewrite in_graph_iff in *. destruct d; cbn in Hb.
    + by eapply (ok_children Hok).
    + by eapply (ok_parents Hok).
Qed.

Lemma nav_visited_laws d :
  VisitedLaws (H := nav_visited nav) (list bool) NodeId
    (λ k, trav_contains (MkNavGraph nav d) k = true) (nav_fresh nav).
Proof.
  apply flat_visited_laws.
  - intros k Hk%in_graph_iff%node_index_Some%lookup_lt_Some. done.
  - intros k j Hk%in_graph_iff%node_index_Some Hj%in_graph_iff%node_index_Some E. congruence.
Qed.

(** ** The evaluator computes the denotation *)

Definition computes (r : option Evaluation) (P : Prop) : Prop :=
  ∃ e, r = Some e ∧ (matched e = true ↔ P).

Lemma computes_when b plan P : (b = true ↔ P) → computes (Some (when b plan)) P.
Proof. intros Hb. eexists. split; [done|]. rewrite <- Hb. by destruct b. Qed.

Lemma computes_no_match (P : Prop) : ¬ P → computes (Some no_match) P.
Proof. intros Hp. eexists. split; [done|]. by cbn. Qed.

Lemma computes_iff r P Q : (P ↔ Q) → computes r P → computes r Q.
Proof. intros Hpq (e & -> & He). exists e. split; [done|]. by rewrite He. Qed.

#[local] Instance computes_proper r : Proper (iff ==> iff) (computes r).
Proof. intros P Q Hpq. split; apply computes_iff; tauto. Qed.

Lemma matched_followed plan e : matched (followed plan e) = matched e.
Proof. unfold followed. by destruct (matched e) eqn:H. Qed.

Lemma computes_property node property v plan :
  computes (Some (property_matches nav node property v plan)) (has_property node property v).
Proof.
  apply computes_when. rewrite andb_true_iff, bool_decide_eq_true. unfold has_property.
  destruct (nav_property nav node property) as [s w]. cbn. naive_solver.
Qed.

Lemma computes_all ev (P : LocatorPlan → Prop) l found :
  Forall (λ c, computes (ev c) (P c)) l → computes (evaluate_all ev l found) (Forall P l).
Proof.
  intros H. revert found. induction H as [|c l (e & He & Hm) Hl IH]; intros found.
  - eexists. split; [done|]. by split.
  - cbn. rewrite He. cbn. rewrite Forall_cons. destruct (matched e) eqn:E.
    + eapply computes_iff; [|apply IH]. naive_solver.
    + apply computes_no_match. naive_solver.
Qed.

Lemma computes_any ev (P : LocatorPlan → Prop) l :
  Forall (λ c, computes (ev c) (P c)) l → computes (evaluate_any ev l) (Exists P l).
Proof.
  induction 1 as [|c l (e & He & Hm) Hl IH].
  - apply computes_no_match. by intros ?%Exists_nil.
  - cbn. rewrite He. cbn. destruct (matched e) eqn:E.
    + exists e. split; [done|]. rewrite Exists_cons. split; [intros _; left; by apply Hm|done].
    + eapply computes_iff; [|apply IH]. rewrite Exists_cons. split; [by right|].
      intros [Hc%Hm|?]; [congruence|done].
Qed.

Lemma computes_neighbors ev plan (P : NodeId → Prop) l :
  (∀ n, n ∈ l → computes (ev n) (P n)) →
  computes (evaluate_neighbors ev plan l) (∃ n, n ∈ l ∧ P n).
Proof.
  induction l as [|n l IH]; intros H.
  - apply computes_no_match. by intros (? & ?%elem_of_nil & _).
  - cbn. destruct (H n) as (e & He & Hm); [by left|]. rewrite He. cbn.
    setoid_rewrite elem_of_cons. destruct (matched e) eqn:E.
    + eexists. split; [done|]. rewrite matched_followed. split; [|done].
      intros _. exists n. split; [by left|by apply Hm].
    + eapply computes_iff; [|apply IH; intros; apply H; by right].
      split; [naive_solver|]. intros (m & [->|?] & Hp); [apply Hm in Hp; congruence|eauto].
Qed.

(** What a walk's visitor is left with after the offers of an order. *)
Lemma visitor_state ev origin (P : NodeId → Prop) g order r : 
  (∀ n, n ∈ order → computes (ev n) (P n)) →
  ∃ e, foldl (take_offer (GV := relation_visitor ev origin)) (Some r) (reversed_offers g order) =
      Some e ∧
    (matched e = true ↔ matched r = true ∨ ∃ n, n ∈ order ∧ n ≠ origin ∧ P n).
Proof.
  revert r. induction order as [|n order IH]; intros r H.
  { exists r. split; [done|]. split; [by left|]. intros [?|(? & ?%elem_of_nil & _)]; done. }
  unfold reversed_offers. cbn [mbind list_bind]. rewrite foldl_app. cbn [foldl].
  assert (∀ s l, foldl (take_offer (GV := relation_visitor ev origin)) s
    (VisitEdge n <$> l) = s) as Hedges by (intros s l; by induction l).
  rewrite Hedges. cbn [take_offer visit_node relation_visitor mbind option_bind].
  setoid_rewrite elem_of_cons.
  destruct (bool_decide_reflect (n = origin)) as [->|Hne]; cbn [orb].
  - destruct (IH r) as (e & He & Hm); [intros; apply H; by right|].
    exists e. split; [done|]. rewrite Hm. naive_solver.
  - destruct (matched r) eqn:Er.
    + destruct (IH r) as (e & He & Hm); [intros; apply H; by right|].
      exists e. split; [done|]. rewrite Hm, Er. naive_solver.
    + destruct (H n) as (e1 & -> & Hm1); [by left|].
      destruct (IH e1) as (e & He & Hm); [intros; apply H; by right|].
      exists e. split; [done|]. rewrite Hm, Hm1. naive_solver.
Qed.

Lemma computes_walk ev plan (P : NodeId → Prop) d origin :
  origin ∈ nav_nodes nav → (∀ n, n ∈ nav_nodes nav → computes (ev n) (P n)) →
  computes (evaluate_walk nav ev plan d origin)
    (∃ a, rtc (edge (MkNavGraph nav d)) origin a ∧ a ≠ origin ∧ P a).
Proof.
  intros Ho Hev. unfold evaluate_walk.
  destruct (dfs_explores (GV := relation_visitor ev origin) (MkNavGraph nav d) (nav_nodes nav)
    (nav_fresh nav) origin (Some no_match) (walk_fuel nav d) (nav_laws d) (nav_visited_laws d))
    as (order & _ & Hd & _ & Hr); [by apply in_graph_iff|unfold walk_fuel; lia|].
  rewrite Hd. cbn [mbind option_bind].
  destruct (visitor_state ev origin P (MkNavGraph nav d) order no_match) as (e & He & Hm).
  { intros n Hn%Hr. apply Hev. revert n Hn. apply rtc_ind_r; [done|].
    intros y z _ Hyz Hy. apply (in_graph_iff d). eapply (trav_closed (TraversableLaws := nav_laws d)).
    - by apply in_graph_iff.
    - done. }
  rewrite He. eexists. split; [done|]. rewrite matched_followed, Hm. cbn. naive_solver.
Qed.

(** Whatever the plan: the walks end, and the evaluator says of a node of the tree
    what the plan says of it. *)
Lemma evaluate_computes plan : uses_ok plan → ∀ node, node ∈ nav_nodes nav →
  computes (evaluate nav plan node) (holds plan node).
Proof.
  induction plan as [op role state property value text relation children IH] using plan_ind'.
  intros Hu node Hn.
  assert (Forall (λ c, ∀ m, m ∈ nav_nodes nav → computes (evaluate nav c m) (holds c m)) children)
    as Hc.
  { apply Forall_forall. intros c Hin. rewrite Forall_forall in IH. apply IH; [done|].
    by eapply (uses_ok_child (MkPlan op role state property value text relation children)). }
  assert (Forall (λ c, computes (evaluate nav c node) (holds c node)) children) as Hcn.
  { eapply Forall_impl; [exact Hc|]. auto. }
  clear IH.
  destruct op; cbn [evaluate holds plan_op plan_children plan_role plan_state plan_property
    plan_value plan_text plan_relation].
  - by apply computes_when.
  - apply computes_no_match. tauto.
  - apply computes_when. apply bool_decide_eq_true.
  - apply computes_when. apply bool_decide_eq_true.
  - apply computes_property.
  - apply computes_property.
  - apply computes_property.
  - rewrite holds_all. by apply computes_all.
  - rewrite holds_any. by apply computes_any.
  - destruct Hcn as [|c l (e & -> & He) _]; [apply computes_no_match; tauto|].
    apply computes_when. cbn. rewrite <- He. by destruct (matched e).
  - destruct Hc as [|c l Hc _]; [apply computes_no_match; tauto|].
    apply computes_neighbors. intros m Hm. apply Hc. by apply (ok_parents Hok node).
  - destruct Hc as [|c l Hc _]; [apply computes_no_match; tauto|]. by apply computes_walk.
  - destruct Hc as [|c l Hc _]; [apply computes_no_match; tauto|]. by apply computes_walk.
  - destruct Hc as [|c l Hc _]; [apply computes_no_match; tauto|].
    apply computes_neighbors. intros m Hm. apply Hc.
    apply (Hu node (relation, false)); [done|apply own_uses; unfold own_use; cbn; by apply elem_of_singleton|done].
  - destruct Hc as [|c l Hc _]; [apply computes_no_match; tauto|].
    apply computes_neighbors. intros m Hm. apply Hc.
    apply (Hu node (relation, true)); [done|apply own_uses; unfold own_use; cbn; by apply elem_of_singleton|done].
Qed.

(** ** Scopes *)

(** The candidates met so far, and the set of them. *)
Definition collected (st : Candidates) : Prop :=
  NoDup st.1 ∧ (∀ n, n ∈ st.2 ↔ n ∈ st.1).

Lemma collect_offers g l st : collected st → NoDup l →
  let st' := foldl (take_offer (GV := candidate_visitor)) st (offers g l) in
  collected st' ∧ st'.1 = st.1 ++ filter (λ n, n ∉ st.1) l.
Proof.
  intros Hst Hl. revert st Hst. induction Hl as [|n l Hn Hl IH]; intros st Hst.
  { cbn. by rewrite app_nil_r. }
  unfold offers. cbn [mbind list_bind]. rewrite foldl_app. cbn [foldl].
  assert (∀ s k, foldl (take_offer (GV := candidate_visitor)) s (VisitEdge n <$> k) = s) as Hedges
    by (intros s k; by induction k).
  rewrite Hedges. cbn [take_offer visit_node candidate_visitor].
  destruct Hst as [Hnd Hset]. rewrite filter_cons.
  destruct (decide (n ∈ st.2)) as [Hin|Hout]; rewrite Hset in *.
  - rewrite decide_False by tauto. by apply IH.
  - rewrite decide_True by done. destruct (IH (st.1 ++ [n], {[n]} ∪ st.2)) as [Hc He]; [|split; [done|]].
    + split; cbn; [|set_solver]. apply NoDup_app. split_and!; [done|set_solver|apply NoDup_singleton].
    + unfold offers in He. cbn zeta in He. rewrite He. cbn [fst]. rewrite <- app_assoc. f_equal. cbn. f_equal.
      apply list_filter_ext. intros m Hm. rewrite elem_of_app, list_elem_of_singleton.
      split; [tauto|]. intros ? [?| ->]; done.
Qed.

Lemma rtc_nsteps_iff {A} (R : relation A) x y : (∃ n, nsteps R n x y) ↔ rtc R x y.
Proof. by rewrite rtc_nsteps. Qed.

(** *** The order of a listing *)

(** What [start] reaches by child edges, breadth first: [start], and then the children of
    each listed node in turn, in the order the tree gives them, where they occur first. *)
Definition reached_in_order (start : NodeId) (order : list NodeId) : Prop :=
  (∀ n, n ∈ order ↔ rtc child_edge start n) ∧
  firsts [] (start :: (order ≫= nav_children nav)) = order.

(** What is listed from the nodes [starts] in turn, after [met]: from each what it
    reaches and was not met, which is nothing when it was met itself. *)
Inductive listing : list NodeId → list NodeId → list NodeId → Prop :=
  | listing_end met : listing met [] met
  | listing_from met start starts order all : reached_in_order start order →
      listing (met ++ filter (λ n, n ∉ met) order) starts all → listing met (start :: starts) all
  | listing_met met start starts all : start ∈ met →
      listing met starts all → listing met (start :: starts) all.

(** Where the listing of a scope starts: at the root of the query, or at the roots of the
    tree and then at each of its nodes. *)
Definition scope_starts (root : option NodeId) : list NodeId :=
  match root with
  | Some r => [r]
  | None => filter (λ n, n ∈ nav_nodes nav) (nav_roots nav) ++ nav_nodes nav
  end.

Lemma search_from_spec start st : start ∈ nav_nodes nav → collected st →
  ∃ order st', search_from nav start st = Some st' ∧ collected st' ∧
    st'.1 = st.1 ++ filter (λ n, n ∉ st.1) order ∧ NoDup order ∧
    (∀ n, n ∈ order ↔ rtc child_edge start n) ∧
    nearest_first (MkNavGraph nav Forward) start order ∧ reached_in_order start order.
Proof.
  intros Hs Hst. unfold search_from.
  destruct (bfs_lists (GV := candidate_visitor) (MkNavGraph nav Forward) (nav_nodes nav)
    (nav_fresh nav) start st (index_space_size nav) (nav_laws Forward) (nav_visited_laws Forward)
    (Nat.le_refl _)) as (order & Hb & Hnd & Hex & Hnear & Hls).
  destruct (collect_offers (MkNavGraph nav Forward) order st Hst Hnd) as [Hc He].
  assert (∀ n, n ∈ order ↔ rtc child_edge start n) as Hr.
  { intros n. rewrite Hex, rtc_nsteps_iff. split; [by intros [_ ?]|].
    intros ?. split; [by apply in_graph_iff|done]. }
  exists order. eexists. split_and!; [exact Hb|done|done|done|done|done|].
  split; [exact Hr|]. by apply Hls, in_graph_iff.
Qed.

Lemma reachable_node start n : start ∈ nav_nodes nav → rtc child_edge start n → n ∈ nav_nodes nav.
Proof.
  intros Hs. revert n. apply rtc_ind_r; [done|]. intros y z _ Hyz Hy.
  by apply (ok_children Hok y).
Qed.

(** Searching on from a node keeps what was met and adds nodes of the tree, the
    node among them. *)
Lemma search_from_grows start st : start ∈ nav_nodes nav → collected st → st.1 ⊆ nav_nodes nav →
  ∃ st', search_from nav start st = Some st' ∧ collected st' ∧ st'.1 ⊆ nav_nodes nav ∧
    st.1 ⊆ st'.1 ∧ start ∈ st'.1 ∧
    ∃ order, reached_in_order start order ∧ st'.1 = st.1 ++ filter (λ n, n ∉ st.1) order.
Proof.
  intros Hs Hst Hin. destruct (search_from_spec start st Hs Hst)
    as (order & st' & He & Hc & E & _ & Hr & _ & Ho).
  exists st'. rewrite E. split_and!; [done|done| |set_solver| |by exists order].
  - intros n [?|[_ Hn%Hr]%list_elem_of_filter]%elem_of_app; [auto|]. by eapply reachable_node.
  - apply elem_of_app. destruct (decide (start ∈ st.1)); [by left|right].
    apply list_elem_of_filter. split; [done|]. by apply Hr.
Qed.

Lemma search_roots_spec roots st : collected st → st.1 ⊆ nav_nodes nav →
  ∃ st', search_roots nav roots st = Some st' ∧ collected st' ∧ st'.1 ⊆ nav_nodes nav ∧
    ∀ starts all, listing st'.1 starts all →
      listing st.1 (filter (λ n, n ∈ nav_nodes nav) roots ++ starts) all.
Proof.
  revert st. induction roots as [|r roots IH]; intros st Hst Hin; cbn [search_roots]; [by exists st|].
  rewrite filter_cons. destruct (in_graph nav r) eqn:Hr.
  2: { rewrite decide_False; [by apply IH|]. intros Hn.
       assert (in_graph nav r = true) by (by apply in_graph_iff). congruence. }
  apply in_graph_iff in Hr. rewrite decide_True by done.
  destruct (search_from_grows r st) as (st1 & -> & ? & ? & _ & _ & order & Ho & E); [done..|].
  destruct (IH st1) as (st' & Hs & ? & ? & Hl); [done..|]. exists st'. split_and!; [done..|].
  intros starts all Ha%Hl. cbn. apply (listing_from _ _ _ order); [done|]. by rewrite <- E.
Qed.

Lemma search_unseen_spec nodes st : nodes ⊆ nav_nodes nav → collected st → st.1 ⊆ nav_nodes nav →
  ∃ st', search_unseen nav nodes st = Some st' ∧ collected st' ∧ st'.1 ⊆ nav_nodes nav ∧
    st.1 ⊆ st'.1 ∧ nodes ⊆ st'.1 ∧ listing st.1 nodes st'.1.
Proof.
  revert st. induction nodes as [|n nodes IH]; intros st Hns Hst Hin; cbn [search_unseen].
  { exists st. split_and!; [done|done|done|done|by intros x ?%elem_of_nil|constructor]. }
  assert (n ∈ nav_nodes nav) as Hn by (apply Hns; by left).
  assert (nodes ⊆ nav_nodes nav) as Hns' by (intros x ?; apply Hns; by right).
  assert (in_graph nav n = true) as -> by by apply in_graph_iff. rewrite andb_true_r.
  destruct (bool_decide_reflect (n ∈ st.2)) as [Hs|Hs]; cbn [negb mbind option_bind].
  - destruct (IH st) as (st' & -> & ? & ? & Hsub & ? & Hl); [done..|]. exists st'.
    split_and!; [done..| |].
    + intros x [->|?]%elem_of_cons; [|auto]. apply Hsub. by apply Hst.
    + apply listing_met; [by apply Hst|done].
  - destruct (search_from_grows n st) as (st1 & -> & ? & ? & ? & ? & order & Ho & E); [done..|].
    destruct (IH st1) as (st' & Hr & ? & ? & Hsub & ? & Hl); [done..|]. exists st'.
    split_and!; [done|done|done|set_solver| |].
    + intros x [->|?]%elem_of_cons; auto.
    + apply (listing_from _ _ _ order); [done|]. by rewrite <- E.
Qed.

(** The nodes a scope is about. *)
Definition in_scope (root : option NodeId) (n : NodeId) : Prop :=
  match root with Some r => rtc child_edge r n | None => n ∈ nav_nodes nav end.

Lemma enumerate_scope_spec root lower : (∀ r, root = Some r → r ∈ nav_nodes nav) →
  ∃ order, enumerate_scope (MkQueryScope nav root lower) = Some (Ok order) ∧ NoDup order ∧
    order ⊆ nav_nodes nav ∧ (∀ n, n ∈ order ↔ in_scope root n) ∧
    (∀ r, root = Some r → nearest_first (MkNavGraph nav Forward) r order) ∧
    listing [] (scope_starts root) order.
Proof.
  intros Hroot. unfold enumerate_scope. cbn [scope_navigation scope_root].
  assert (collected ([], ∅)) as H0 by (split; [constructor|set_solver]).
  destruct root as [r|].
  - specialize (Hroot r eq_refl).
    assert (in_graph nav r = true) as -> by by apply in_graph_iff. cbn [negb].
    destruct (search_from_spec r ([], ∅) Hroot H0) as (order & st & -> & Hc & E & Hnd & Hr & Hnear & Ho).
    cbn [mbind option_bind]. cbn in E.
    assert (filter (λ n, n ∉ []) order = order) as Hall.
    { clear. induction order as [|x l IH]; [done|]. rewrite filter_cons.
      rewrite decide_True by apply not_elem_of_nil. by rewrite IH. }
    rewrite Hall in E. rewrite E.
    exists order. split_and!; [done|done| |done|by intros ? [= <-]|].
    + intros n Hn%Hr. by eapply reachable_node.
    + apply (listing_from _ _ _ order); [done|]. rewrite Hall. constructor.
  - destruct (search_roots_spec (nav_roots nav) ([], ∅)) as (st1 & -> & H1 & Hs1 & Hl1); [done|set_solver|].
    cbn [mbind option_bind].
    destruct (search_unseen_spec (nav_nodes nav) st1) as (st & -> & [Hnd _] & Hs & _ & Hall & Hl); [done..|].
    exists st.1. split_and!; [done|done|done| |done|by apply Hl1]. intros n. split; [apply Hs|apply Hall].
Qed.
End denotation.

(** ** Matches *)

Lemma collect_matches_spec nav plan provider cs : tree_ok nav → uses_ok nav plan →
  cs ⊆ nav_nodes nav →
  ∃ ms, collect_matches nav plan provider cs = Some ms ∧
    (em_node <$> ms) `sublist_of` cs ∧
    ∀ n, n ∈ em_node <$> ms ↔ n ∈ cs ∧ holds nav plan n.
Proof.
  intros Hok Hu. induction cs as [|c cs IH]; intros Hcs.
  { exists []. split_and!; [done|done|]. intros n. cbn. rewrite elem_of_nil. tauto. }
  destruct (evaluate_computes nav Hok plan Hu c) as (e & He & Hm); [apply Hcs; by left|].
  destruct IH as (ms & Hms & Hsub & Hin); [intros n ?; apply Hcs; by right|].
  cbn [collect_matches]. rewrite He, Hms. cbn [mbind option_bind].
  eexists. split; [done|]. setoid_rewrite elem_of_cons. destruct (matched e).
  - cbn. split; [by apply sublist_skip|]. intros n. rewrite elem_of_cons, Hin. naive_solver.
  - split; [by apply sublist_cons|]. intros n. rewrite Hin. naive_solver.
Qed.

(** Candidates that do not match may be left out beforehand. *)
Lemma collect_matches_narrow nav plan p1 p2 (allowed : gset N) cs ms :
  tree_ok nav → uses_ok nav plan → cs ⊆ nav_nodes nav →
  (∀ n, n ∈ cs → holds nav plan n → n ∈ allowed) →
  collect_matches nav plan p1 cs = Some ms →
  ∃ ms', collect_matches nav plan p2 (filter (λ n, n ∈ allowed) cs) = Some ms' ∧
    em_node <$> ms' = em_node <$> ms.
Proof.
  intros Hok Hu. revert ms. induction cs as [|c cs IH]; intros ms Hcs Hall Hms.
  { injection Hms as <-. by exists []. }
  destruct (evaluate_computes nav Hok plan Hu c) as (e & He & Hm); [apply Hcs; by left|].
  cbn [collect_matches] in Hms. rewrite He in Hms. cbn [mbind option_bind] in Hms.
  destruct (collect_matches nav plan p1 cs) as [ms1|]; [|done]. injection Hms as <-.
  destruct (IH ms1) as (ms' & Hms' & Hn); [|intros n ?; apply Hall; by right|done|].
  { intros n ?. apply Hcs. by right. }
  rewrite filter_cons. destruct (decide (c ∈ allowed)) as [Hc|Hc].
  - cbn [collect_matches]. rewrite He, Hms'. eexists. split; [done|].
    destruct (matched e); [|done]. cbn. by f_equal.
  - exists ms'. split; [done|]. destruct (matched e); [|done].
    destruct Hc. apply Hall; [by left|]. by apply Hm.
Qed.

(** ** Resolving *)

#[local] Instance root_dec (nav : TreeNav) (root : option NodeId) :
  Decision (∀ r, root = Some r → r ∈ nav_nodes nav).
Proof.
  destruct root as [r|]; [|by left].
  destruct (decide (r ∈ nav_nodes nav)) as [H|H]; [left; by intros ? [= <-]|right; auto].
Defined.

Section resolving.
Context (nav : TreeNav) (root : option NodeId) (locator : Locator) (max_nodes : N).

Local Abbreviation plan := (locator_plan locator).
Local Abbreviation scope := (MkQueryScope nav root None).
Local Abbreviation wanted n := (in_scope nav root n ∧ holds nav plan n).

(** When the engine can answer at all. *)
Definition answerable : Prop :=
  (plan_node_count locator <= max_nodes)%N ∧ nav_ok nav plan ∧
  ∀ r, root = Some r → r ∈ nav_nodes nav.

Lemma evaluate_matches_spec : answerable →
  ∃ order ms, evaluate_matches locator scope max_nodes = Some (Ok ms) ∧
    NoDup order ∧ order ⊆ nav_nodes nav ∧ (∀ n, n ∈ order ↔ in_scope nav root n) ∧
    (∀ r, root = Some r → nearest_first (MkNavGraph nav Forward) r order) ∧
    listing nav [] (scope_starts nav root) order ∧
    enumerate_scope scope = Some (Ok order) ∧ collect_matches nav plan "" order = Some ms ∧
    (em_node <$> ms) `sublist_of` order ∧ (∀ n, n ∈ em_node <$> ms ↔ wanted n).
Proof.
  intros (Hc & [Hok Hu] & Hroot). unfold evaluate_matches.
  rewrite decide_False by lia. cbn [scope_navigation].
  rewrite (proj2 (validate_navigation_Ok nav plan)) by done.
  destruct (enumerate_scope_spec nav Hok root None Hroot) as (order & He & Hnd & Hsub & Hin & Hnear & Hlist).
  rewrite He. cbn [mbind option_bind lower_candidates scope_lowerer].
  destruct (collect_matches_spec nav plan "" order Hok Hu Hsub) as (ms & Hms & Hl & Hm).
  rewrite Hms. exists order, ms. split_and!; try done. intros n. by rewrite Hm, Hin.
Qed.

Lemma evaluate_matches_cases :
  (answerable ∧ ∃ ms, evaluate_matches locator scope max_nodes = Some (Ok ms)) ∨
  (¬ answerable ∧ ∃ e, evaluate_matches locator scope max_nodes = Some (Err e)).
Proof.
  destruct (decide (plan_node_count locator <= max_nodes)%N) as [Hc|Hc];
    [|right; split; [by intros (? & _)|]; unfold evaluate_matches; rewrite decide_True by lia; eauto].
  destruct (validate_navigation nav plan) as [[]|e] eqn:Hv.
  2: { right. split; [intros (_ & Hok & _); apply validate_navigation_Ok in Hok; congruence|].
       unfold evaluate_matches. rewrite decide_False by lia. cbn [scope_navigation].
       rewrite Hv. eauto. }
  pose proof Hv as [Hok Hu]%validate_navigation_Ok.
  destruct (decide (∀ r, root = Some r → r ∈ nav_nodes nav)) as [Hr|Hr].
  - left. assert answerable as Ha by done. split; [done|].
    destruct (evaluate_matches_spec Ha) as (_ & ms & He & _). eauto.
  - right. split; [by intros (_ & _ & ?)|]. unfold evaluate_matches.
    rewrite decide_False by lia. cbn [scope_navigation]. rewrite Hv. unfold enumerate_scope.
    cbn [scope_navigation scope_root].
    destruct root as [r|]; [|by destruct Hr].
    destruct (in_graph nav r) eqn:Hg; [|cbn; eauto]. destruct Hr. intros ? [= <-].
    by apply (in_graph_iff nav Hok Forward).
Qed.

(** [resolve_all] always returns, and it returns an error exactly when the
    locator is too complex, the tree is inconsistent (repeated or missing nodes,
    endpoints of child edges or of the relations the plan follows that are not
    nodes), or the root is not in the tree. *)
Theorem resolve_all_fails_exactly :
  ∃ r, resolve_all locator scope max_nodes = Some r ∧ (is_ok r = true ↔ answerable).
Proof.
  unfold resolve_all.
  destruct evaluate_matches_cases as [[Ha (ms & ->)]|[Ha (e & ->)]]; eexists; (split; [done|]);
    by split.
Qed.

(** Narrowing the candidates beforehand changes nothing: a lowerer that succeeds
    and leaves out only nodes the plan does not hold of gives the same answer, error
    or not, as no lowerer at all. *)
Lemma lowering_is_transparent (lower : PlanLowerer) lowered :
  lower locator nav = Ok lowered →
  (∀ c n, lowered = Some c → n ∈ nav_nodes nav → holds nav plan n → n ∈ lowered_nodes c) →
  resolve_all locator (MkQueryScope nav root (Some lower)) max_nodes =
    resolve_all locator scope max_nodes.
Proof.
  intros Hl Hsound. unfold resolve_all, evaluate_matches. cbn [scope_navigation].
  destruct (decide (max_nodes < plan_node_count locator)%N); [done|].
  destruct (validate_navigation nav plan) as [[]|e] eqn:Hv; [|done].
  apply validate_navigation_Ok in Hv as [Hok Hu].
  change (enumerate_scope (MkQueryScope nav root (Some lower))) with (enumerate_scope scope).
  destruct (enumerate_scope scope) as [[cs|e]|] eqn:Hcs; [|done..]. cbn [mbind option_bind].
  assert (cs ⊆ nav_nodes nav) as Hsub.
  { destruct (decide (∀ r, root = Some r → r ∈ nav_nodes nav)) as [Hr|Hr].
    - destruct (enumerate_scope_spec nav Hok root None Hr) as (cs' & Hcs' & _ & Hsub & _).
      assert (cs' = cs) as -> by congruence. done.
    - unfold enumerate_scope in Hcs. cbn [scope_navigation scope_root] in Hcs.
      destruct root as [r|]; [|by destruct Hr]. destruct (in_graph nav r) eqn:Hg; [|done].
      destruct Hr. intros ? [= <-]. by apply (in_graph_iff nav Hok Forward). }
  unfold lower_candidates. cbn [scope_lowerer scope_navigation]. rewrite Hl.
  cbn [mbind result_bind]. destruct lowered as [c|]; [|done].
  destruct (collect_matches_spec nav plan "" cs Hok Hu Hsub) as (ms & Hms & _).
  destruct (collect_matches_narrow nav plan "" (lowered_provider c)
    (list_to_set (lowered_nodes c)) cs ms Hok Hu Hsub) as (ms' & Hms' & E); [|done|].
  { intros k Hk Hh. apply elem_of_list_to_set. by apply Hsound; [|apply Hsub|]. }
  rewrite Hms, Hms'. cbn [mbind option_bind]. do 2 f_equal.
  assert (∀ l, (λ m, make_ref nav (em_node m)) <$> l = make_ref nav <$> (em_node <$> l)) as Hmap
    by (intros l; by rewrite <- list_fmap_compose).
  by rewrite !Hmap, E.
Qed.

(** A scope's lowerer, if it has one, answers and leaves out no node the plan holds of. *)
Definition lowerer_sound (lowerer : option PlanLowerer) : Prop :=
  ∀ lower, lowerer = Some lower → ∃ lowered, lower locator nav = Ok lowered ∧
    ∀ c n, lowered = Some c → n ∈ nav_nodes nav → holds nav plan n → n ∈ lowered_nodes c.

(** C33: [resolve_all] answers with exactly the nodes the locator's plan holds of in
    the scope (what the root reaches by child edges, or the whole tree), each once, in
    the order of the scope's listing: breadth first from the root of the query, or else
    from each root of the tree and then from each node not met yet, the children of a
    node in the tree's order.  The reference names the tree's runtime, epoch and
    generation.  A lowerer changes nothing as long as it answers and leaves out only
    nodes the plan does not hold of. *)
Theorem resolve_all_exact lowerer : answerable → lowerer_sound lowerer →
  ∃ order found,
    resolve_all locator (MkQueryScope nav root lowerer) max_nodes = Some (Ok (make_ref nav <$> found)) ∧
    listing nav [] (scope_starts nav root) order ∧
    NoDup order ∧ (∀ n, n ∈ order ↔ in_scope nav root n) ∧
    (∀ r, root = Some r → nearest_first (MkNavGraph nav Forward) r order) ∧
    found `sublist_of` order ∧ (∀ n, n ∈ found ↔ in_scope nav root n ∧ holds nav plan n).
Proof.
  intros (order & ms & He & Hnd & _ & Hin & Hnear & Hlist & _ & _ & Hl & Hm)%evaluate_matches_spec Hsound.
  exists order, (em_node <$> ms). split_and!; try done.
  transitivity (resolve_all locator scope max_nodes).
  - destruct lowerer as [lower|]; [|done]. destruct (Hsound lower eq_refl) as (lowered & Hlow & Hc).
    by apply (lowering_is_transparent lower lowered).
  - unfold resolve_all. rewrite He. by rewrite <- list_fmap_compose.
Qed.

(** [resolve] with [ExactlyOne] succeeds exactly when one node of the scope
    satisfies the plan, and then returns that node; with none it says [NoMatch],
    with several [AmbiguousMatch].  With [First] it succeeds as soon as there is one,
    and returns the first of [resolve_all]; [All] it always refuses. *)
Theorem resolve_by_cardinality : answerable →
  (∀ m, resolve locator Cardinality.ExactlyOne scope max_nodes = Some (Ok m) →
    ∃ n, match_ref m = make_ref nav n ∧ ∀ k, wanted k ↔ k = n) ∧
  (∀ n, (∀ k, wanted k ↔ k = n) →
    ∃ m, resolve locator Cardinality.ExactlyOne scope max_nodes = Some (Ok m)) ∧
  ((∃ msg, resolve locator Cardinality.ExactlyOne scope max_nodes =
      Some (fail ErrorCode.NoMatch msg)) ↔ ∀ k, ¬ wanted k) ∧
  ((∃ msg, resolve locator Cardinality.ExactlyOne scope max_nodes =
      Some (fail ErrorCode.AmbiguousMatch msg)) ↔ ∃ j k, j ≠ k ∧ wanted j ∧ wanted k) ∧
  (∀ m, resolve locator Cardinality.First scope max_nodes = Some (Ok m) ↔
    ∃ e ms, evaluate_matches locator scope max_nodes = Some (Ok (e :: ms)) ∧
      m = make_match locator nav e) ∧
  (∃ msg, resolve locator Cardinality.All scope max_nodes =
    Some (fail ErrorCode.InvalidArgument msg)).
Proof.
  intros (order & ms & He & Hnd & _ & _ & _ & _ & _ & _ & Hl & Hm)%evaluate_matches_spec.
  assert (NoDup (em_node <$> ms)) as Hnd' by (by eapply sublist_NoDup).
  clear Hnd. rename Hnd' into Hnd. unfold resolve. rewrite He. clear Hl.
  cbn [scope_navigation]. rewrite (decide_True (P := Cardinality.All = Cardinality.All)) by done.
  rewrite (decide_False (P := Cardinality.ExactlyOne = Cardinality.All)) by done.
  rewrite (decide_False (P := Cardinality.First = Cardinality.All)) by done.
  destruct ms as [|e [|e2 ms]]; cbn [fmap list_fmap] in *; setoid_rewrite <- Hm.
  - split_and!; [done| | |..]; eauto.
    + intros n Hn. exfalso. eapply not_elem_of_nil. by apply Hn.
    + split; [|eauto]. intros _ k. apply not_elem_of_nil.
    + split; [by intros [? [=]]|]. by intros (? & ? & _ & ?%elem_of_nil & _).
    + intros m. split; [done|]. by intros (? & ? & [=] & _).
  - rewrite !decide_False by naive_solver. setoid_rewrite list_elem_of_singleton.
    split_and!; eauto.
    + intros m [= <-]. by exists (em_node e).
    + split; [by intros [? [=]]|]. intros H. by destruct (H (em_node e)).
    + split; [by intros [? [=]]|]. by intros (? & ? & ? & -> & ->).
    + intros m. split; [intros [= <-]; by exists e, []|]. by intros (? & ? & [= <- <-] & ->).
  - rewrite decide_True by done. rewrite decide_False by (by intros [? _]).
    apply NoDup_cons in Hnd as [Hn _]. split_and!; eauto.
    + done.
    + intros n Hu. exfalso. apply Hn. rewrite (proj1 (Hu (em_node e))) by (by left).
      rewrite <- (proj1 (Hu (em_node e2))) by (right; by left). by left.
    + split; [by intros [? [=]]|]. intros H. destruct (H (em_node e)). by left.
    + split; [|eauto]. intros _. exists (em_node e), (em_node e2). split_and!; [|by left|right; by left].
      intros E. apply Hn. rewrite E. by left.
    + intros m. split; [intros [= <-]; by exists e, (e2 :: ms)|]. by intros (? & ? & [= <- <-] & ->).
Qed.
End resolving.

(** ** Combinators *)

Lemma holds_append_all nav ps p n :
  Forall (λ c, holds nav c n) (append_predicate ps p LocatorOp.All) ↔
  Forall (λ c, holds nav c n) ps ∧ holds nav p n.
Proof.
  unfold append_predicate. case_decide as Hop; rewrite Forall_app; [|by rewrite Forall_singleton].
  destruct p as [op role state property value text relation children]. cbn in Hop. subst op. cbn [holds plan_op plan_children]. by rewrite holds_all.
Qed.

Lemma holds_append_any nav ps p n :
  Exists (λ c, holds nav c n) (append_predicate ps p LocatorOp.Any) ↔
  Exists (λ c, holds nav c n) ps ∨ holds nav p n.
Proof.
  unfold append_predicate. case_decide as Hop; rewrite Exists_app;
    [|rewrite Exists_cons, Exists_nil; tauto].
  destruct p as [op role state property value text relation children]. cbn in Hop. subst op. cbn [holds plan_op plan_children]. by rewrite holds_any.
Qed.

Lemma gather_snoc op ls l :
  plan_children (locator_plan (gather op (ls ++ [l]))) =
    append_predicate (plan_children (locator_plan (gather op ls))) (locator_plan l) op.
Proof. unfold gather. by rewrite foldl_app. Qed.

Lemma gather_op op ls : plan_op (locator_plan (gather op ls)) = op.
Proof.
  unfold gather. destruct ls as [|l ls _] using rev_ind; [done|]. by rewrite foldl_app.
Qed.

Lemma gather_all nav ls n :
  Forall (λ c, holds nav c n) (plan_children (locator_plan (gather LocatorOp.All ls))) ↔
  Forall (λ l, holds nav (locator_plan l) n) ls.
Proof.
  induction ls as [|l ls IH] using rev_ind; [done|].
  rewrite gather_snoc, holds_append_all, IH, Forall_app, Forall_singleton. done.
Qed.

Lemma gather_any nav ls n :
  Exists (λ c, holds nav c n) (plan_children (locator_plan (gather LocatorOp.Any ls))) ↔
  Exists (λ l, holds nav (locator_plan l) n) ls.
Proof.
  induction ls as [|l ls IH] using rev_ind; [by rewrite !Exists_nil|].
  rewrite gather_snoc, holds_append_any, IH, Exists_app, Exists_cons, Exists_nil. tauto.
Qed.

(** The combinators mean what they say although they flatten: [and_] and [sel::all]
    are conjunction (of no predicate: everything), [sel::any] is disjunction (of no
    predicate: nothing), [sel::not_] negation, and the structural ones ask for a
    parent, a proper ancestor or a proper descendant. *)
Theorem combinators_denote (nav : TreeNav) (n : NodeId) :
  let sat l n := holds nav (locator_plan l) n in
  (∀ l m, sat (and_ l m) n ↔ sat l n ∧ sat m n) ∧
  (∀ ls, sat (sel_all ls) n ↔ Forall (λ l, sat l n) ls) ∧
  (∀ ls, sat (sel_any ls) n ↔ Exists (λ l, sat l n) ls) ∧
  (∀ l, sat (sel_not l) n ↔ ¬ sat l n) ∧
  (∀ l, sat (sel_child_of l) n ↔ ∃ p, p ∈ nav_parents nav n ∧ sat l p) ∧
  (∀ l, sat (sel_descendant_of l) n ↔ ∃ a, rtc (parent_edge nav) n a ∧ a ≠ n ∧ sat l a) ∧
  (∀ l, sat (sel_ancestor_of l) n ↔ ∃ d, rtc (child_edge nav) n d ∧ d ≠ n ∧ sat l d).
Proof.
  intros sat. unfold sat. split_and!; try done.
  - intros l m. unfold and_. cbn [locator_plan with_children holds plan_op plan_children].
    rewrite holds_all, !holds_append_all. rewrite Forall_nil. tauto.
  - intros ls. destruct ls as [|l ls]; [by rewrite Forall_nil|].
    unfold sel_all. rewrite <- gather_all, <- holds_all.
    pose proof (gather_op LocatorOp.All (l :: ls)) as Hop.
    destruct (locator_plan (gather LocatorOp.All (l :: ls))) as [op ???????]. cbn in Hop. by subst op.
  - intros ls. destruct ls as [|l ls]; [by rewrite Exists_nil|].
    unfold sel_any. rewrite <- gather_any, <- holds_any.
    pose proof (gather_op LocatorOp.Any (l :: ls)) as Hop.
    destruct (locator_plan (gather LocatorOp.Any (l :: ls))) as [op ???????]. cbn in Hop. by subst op.
Qed.

(** ** Snapshots *)

Section snapshots.
Context (m : UiSnapshotMetadata) (ns : list UiNodeRecord) (roots : list NodeId)
  (rels : list UiRelation).
Let nav := snapshot_nav (from_records m ns roots rels).
Let ids := node_id <$> ns.

(** The relations the engine follows for a plan, with the direction. *)
Definition follows (plan : LocatorPlan) (k : RelationId) (backwards : bool) : Prop :=
  k = relation_contains ∨ (k, backwards) ∈ collect_relation_uses plan ∅.

Lemma snapshot_related n k :
  nav_related nav n k = targets_of rels n k ∧ nav_related_reverse nav n k = sources_of rels n k.
Proof. split; [apply related_from_records|apply related_reverse_from_records]. Qed.

Lemma snapshot_edges n :
  nav_children nav n = targets_of rels n relation_contains ∧
  nav_parents nav n = sources_of rels n relation_contains.
Proof. apply snapshot_related. Qed.

Lemma snapshot_validates plan :
  validate_navigation nav plan = Ok () ↔
  NoDup ids ∧ roots ⊆ ids ∧
  ∀ a b k, MkRelation a b k ∈ rels →
    (follows plan k false → a ∈ ids → b ∈ ids) ∧ (follows plan k true → b ∈ ids → a ∈ ids).
Proof.
  rewrite validate_navigation_Ok. split.
  - intros [[Hnd _ Hch Hpa Hro] Hu]. split_and!; [done|done|]. intros a b k Hin. split.
    + intros [->|Huse] Ha.
      * apply (Hch a Ha). rewrite (proj1 (snapshot_edges a)). by apply elem_of_targets.
      * apply (Hu a (k, false) Ha Huse). unfold related_along. cbn [fst snd].
        rewrite (proj1 (snapshot_related a k)). by apply elem_of_targets.
    + intros [->|Huse] Hb.
      * apply (Hpa b Hb). rewrite (proj2 (snapshot_edges b)). by apply elem_of_sources.
      * apply (Hu b (k, true) Hb Huse). unfold related_along. cbn [fst snd].
        rewrite (proj2 (snapshot_related b k)). by apply elem_of_sources.
  - intros (Hnd & Hro & Hrel). split; [split|].
    + done.
    + intros n Hn. apply bool_decide_eq_true_2. by apply snapshot_node_is_Some.
    + intros n Hn x. rewrite (proj1 (snapshot_edges n)), elem_of_targets. intros Hx%Hrel.
      apply Hx; [by left|done].
    + intros n Hn x. rewrite (proj2 (snapshot_edges n)), elem_of_sources. intros Hx%Hrel.
      apply Hx; [by left|done].
    + done.
    + intros n [k back] Hn Huse x. unfold related_along. cbn [fst snd]. destruct back.
      * rewrite (proj2 (snapshot_related n k)), elem_of_sources. intros Hx%Hrel.
        apply Hx; [by right|done].
      * rewrite (proj1 (snapshot_related n k)), elem_of_targets. intros Hx%Hrel.
        apply Hx; [by right|done].
Qed.
End snapshots.

(** A tree made from records navigates by its records: related nodes are listed
    in record order, a node's parents are the nodes it is a child of, and the tree
    passes the engine's check exactly when no two nodes share an id, the roots are
    nodes, and every [contains] relation and every relation the plan follows leads
    from a node to a node. *)
Theorem snapshot_navigation_exact (m : UiSnapshotMetadata) (ns : list UiNodeRecord)
    (roots : list NodeId) (rels : list UiRelation) (plan : LocatorPlan) :
  let nav := snapshot_nav (from_records m ns roots rels) in
  let ids := node_id <$> ns in
  (∀ n k, nav_related nav n k = targets_of rels n k ∧
          nav_related_reverse nav n k = sources_of rels n k) ∧
  (∀ a b, child_edge nav a b ↔ parent_edge nav b a) ∧
  (validate_navigation nav plan = Ok () ↔
   NoDup ids ∧ roots ⊆ ids ∧
   ∀ a b k, MkRelation a b k ∈ rels →
     (follows plan k false → a ∈ ids → b ∈ ids) ∧ (follows plan k true → b ∈ ids → a ∈ ids)).
Proof.
  intros nav ids. split_and!; [by apply snapshot_related| |apply snapshot_validates].
  intros a b. unfold child_edge, parent_edge, nav.
  rewrite (proj1 (snapshot_edges m ns roots rels a)), (proj2 (snapshot_edges m ns roots rels b)).
  by rewrite elem_of_targets, elem_of_sources.
Qed.

(** ** Witnesses *)

Definition demo_node (id : NodeId) (role : RoleId) : UiNodeRecord :=
  MkNode id 1 role 0 0 [] (MkProvenance 7 1).

(** A window holding a button and a text. *)
Definition demo_nav : TreeNav := snapshot_nav
  (from_records (MkMetadata 7 1 1 1 true) [demo_node 1 2; demo_node 2 15; demo_node 3 11] [1%N]
    [MkRelation 1 2 relation_contains; MkRelation 1 3 relation_contains]).

Definition demo_query : Locator := sel_role 15.

Lemma demo_answerable : answerable demo_nav None demo_query 8.
Proof.
  split; [vm_compute; discriminate|]. split; [|done].
  apply validate_navigation_Ok. vm_compute. reflexivity.
Qed.

Lemma demo_wanted k :
  in_scope demo_nav None k ∧ holds demo_nav (locator_plan demo_query) k ↔ k = 2%N.
Proof.
  split; [|intros ->; split; [right; left|reflexivity]].
  intros [Hk Hh]. change (k ∈ [1; 2; 3]%N) in Hk.
  repeat (apply elem_of_cons in Hk as [->|Hk]; [try done; vm_compute in Hh; discriminate|]).
  by apply elem_of_nil in Hk.
Qed.

(** An index that leaves out the window. *)
Definition demo_lowerer : PlanLowerer := λ _ _, Ok (Some (MkLowered [2; 3]%N "index")).

Lemma resolve_all_exact_witness :
  ∃ found, resolve_all demo_query (MkQueryScope demo_nav None (Some demo_lowerer)) 8 =
      Some (Ok (make_ref demo_nav <$> found)) ∧ 2%N ∈ found ∧ 1%N ∉ found.
Proof.
  destruct (resolve_all_exact demo_nav None demo_query 8 (Some demo_lowerer) demo_answerable)
    as (_ & found & Hr & _ & _ & _ & _ & _ & Hf).
  - intros lower [= <-]. eexists. split; [reflexivity|]. intros c n [= <-] Hn Hh.
    destruct (demo_wanted n) as [Hw _]. rewrite Hw by (split; [exact Hn|exact Hh]). left.
  - exists found. split; [exact Hr|]. rewrite !Hf, !demo_wanted. split; [reflexivity|discriminate].
Defined.

Lemma lowering_is_transparent_witness :
  resolve_all demo_query
    (MkQueryScope demo_nav None (Some (λ _ _, Ok (Some (MkLowered [2; 3]%N "index"))))) 8 =
  resolve_all demo_query (MkQueryScope demo_nav None None) 8.
Proof.
  apply (lowering_is_transparent demo_nav None demo_query 8 _ _ eq_refl).
  intros c n [= <-] Hn Hh. destruct (demo_wanted n) as [Hw _].
  rewrite Hw by (split; [exact Hn|exact Hh]). left.
Defined.

Lemma resolve_by_cardinality_witness :
  ∃ m, resolve demo_query Cardinality.ExactlyOne (MkQueryScope demo_nav None None) 8 = Some (Ok m) ∧
    match_ref m = make_ref demo_nav 2.
Proof.
  destruct (resolve_by_cardinality demo_nav None demo_query 8 demo_answerable)
    as (Hone & Hsome & _).
  destruct (Hsome 2%N demo_wanted) as [m Hm]. exists m. split; [exact Hm|].
  destruct (Hone m Hm) as (n & -> & Hn). f_equal. symmetry. apply Hn, demo_wanted. reflexivity.
Defined.
