(* ===== verification/TreeStore.v ===== *)
(** The versioned tree store ([kernel/graph/tree_store.hpp] and [.cpp],
    [spi/tree_source.hpp]): checking an update, building a generation, deriving the
    events between two generations, and the store's locked operations.

    A C++ container's [at] throws on a missing key or index; a computation that
    uses it is an option, [None] standing for the exception, which
    [TreeStoreTheorems] excludes.  Failed allocations are not modelled. *)

From Stdlib Require Import Floats.SpecFloat.
From stdpp Require Import pretty.
From S2P Require Import Prelude Graph GraphDelta Errors Geometry UiTree.

Local Open Scope string_scope.
Local Open Scope list_scope.

(** Runs [m], which may throw, and goes on with its value. *)
Notation "'attempt' x ':=' m 'in' k" :=
  (match m with None => None | Some (Err error) => Some (Err error) | Some (Ok x) => k end)
  (at level 200, x pattern, m at level 100, k at level 200).

(** ** Updates *)

Module RelationChangeKind.

Inductive RelationChangeKind : Type :=
  | Add | Remove.

End RelationChangeKind.
Abbreviation RelationChangeKind := RelationChangeKind.RelationChangeKind.

#[export] Instance RelationChangeKind_eq_dec : EqDecision RelationChangeKind.
Proof. solve_decision. Defined.

Record RelationChange := MkChange {
  change_kind : RelationChangeKind; change_source : NodeId; change_target : NodeId;
  change_relation : RelationId
}.

Record UiDelta := MkUiDelta {
  delta_metadata : UiSnapshotMetadata;
  base_revision : N;
  delta_added : list UiNodeRecord;
  delta_changed : list UiNodeRecord;
  delta_removed : list NodeId;
  relation_changes : list RelationChange
}.

Record TreeGap := MkGap {
  gap_runtime : RuntimeId; gap_tree : N; gap_epoch : TreeEpoch;
  gap_last_source_sequence : N; gap_dropped : N
}.

Inductive UpdatePayload :=
  | SnapshotPayload (snapshot : UiSnapshot)
  | DeltaPayload (delta : UiDelta)
  | GapPayload (gap : TreeGap).

Record UiUpdate := MkUpdate { source_sequence : N; update_payload : UpdatePayload }.

(** ** Relations as bits, and events *)

(** A set of core relations: the bits of a [uint32_t]. *)
Abbreviation RelationSet := N.

Definition core_relation_limit : N := 32.

Definition relation_bit (relation : RelationId) : RelationSet :=
  if decide (core_relation_limit <= relation)%N then 0%N else N.shiftl 1 relation.

Module TreeEventKind.

Inductive TreeEventKind : Type :=
  | NodeAdded | NodeRemoved | NodeChanged | RelationAdded | RelationRemoved.

End TreeEventKind.
Abbreviation TreeEventKind := TreeEventKind.TreeEventKind.

#[export] Instance TreeEventKind_eq_dec : EqDecision TreeEventKind.
Proof. solve_decision. Defined.

Record TreeEvent := MkTreeEvent {
  te_kind : TreeEventKind;
  te_runtime : RuntimeId; te_tree : N; te_epoch : TreeEpoch; te_revision : N;
  te_node : NodeId; te_related : NodeId; te_relation : RelationId
}.

Record AppliedDelta := MkApplied {
  previous_revision : N; applied_revision : N; applied_events : list TreeEvent
}.

(** ** Generations *)

Record PropertySlice := MkSlice { slice_offset : nat; slice_count : N }.

Abbreviation ExtensionKey := (NodeId * NodeId * RelationId)%type.

(** [std::multimap<ExtensionKey, std::monostate>] is its keys in order. *)
Record Generation := MkGeneration {
  gen_snapshot : UiSnapshot;
  gen_relations : AdjacencyGraph NodeId RelationSet;
  node_indexes : gmap NodeId N;
  node_ids : list NodeId;
  node_generations : list NodeGeneration;
  gen_roles : list RoleId;
  gen_states : list N;
  property_slices : list PropertySlice;
  property_ids : list PropertyId;
  property_value_indexes : list N;
  property_values : list PropertyRead;
  extension_relations : list ExtensionKey
}.

Definition gen_metadata (g : Generation) : UiSnapshotMetadata := snap_metadata (gen_snapshot g).

Record PreparedUpdate := MkPrepared {
  prepared_generation : Generation; prepared_applied : AppliedDelta; prepared_sequence : N
}.

(** [metadata_of] of an update. *)
Definition metadata_of (update : UiUpdate) (current_revision : N) : UiSnapshotMetadata :=
  match update_payload update with
  | SnapshotPayload snapshot => snap_metadata snapshot
  | DeltaPayload delta => delta_metadata delta
  | GapPayload gap =>
    MkMetadata (gap_runtime gap) (gap_tree gap) (gap_epoch gap) current_revision false
  end.

(** ** Rejections *)

Definition provenance_text (m : UiSnapshotMetadata) : string :=
  "runtime=" +:+ pretty (meta_runtime m) +:+ " tree=" +:+ pretty (meta_tree m) +:+
  " epoch=" +:+ pretty (meta_epoch m) +:+ " revision=" +:+ pretty (meta_revision m).

Definition rejection (code : ErrorCode) (message : string) (m : UiSnapshotMetadata) : Error :=
  let provenance := provenance_text m in
  MkError code message "" provenance
    [MkAttempt ("runtime:" +:+ pretty (meta_runtime m)) provenance]
    ErrorDisposition.Fatal [MkDiagnostic 0 provenance].

Definition rejected {T} (code : ErrorCode) (message : string) (m : UiSnapshotMetadata) : Result T :=
  Err (rejection code message m).

(** ** Comparing facts *)

Definition property_value_equal (left right : PropertyValue) : bool :=
  match left, right with
  | NoValue, NoValue => true
  | BoolValue l, BoolValue r => Bool.eqb l r
  | IntegerValue l, IntegerValue r => bool_decide (l = r)
  | NumberValue l, NumberValue r => SFeqb l r
  | TextValue l, TextValue r => bool_decide (l = r)
  | RectValue l, RectValue r =>
    SFeqb (sr_x l) (sr_x r) && SFeqb (sr_y l) (sr_y r) && SFeqb (sr_w l) (sr_w r) &&
    SFeqb (sr_h l) (sr_h r) && bool_decide (sr_space l = sr_space r)
  | _, _ => false
  end.

Definition property_read_equal (left right : PropertyRead) : bool :=
  if decide (read_state left = read_state right) then
    negb (bool_decide (read_state left = ReadState.Present)) ||
    property_value_equal (read_value left) (read_value right)
  else false.

Definition property_read_at (g : Generation) (slice : PropertySlice) (offset : nat)
    : option PropertyRead :=
  index ← property_value_indexes g !! offset;
  property_values g !! (slice_offset slice + N.to_nat index)%nat.

(** The inner loop of [same_node_facts]: the first candidate with the id decides. *)
Fixpoint match_candidate (before after : Generation) (before_slice after_slice : PropertySlice)
    (before_offset : nat) (before_id : PropertyId) (candidates : list nat) : option bool :=
  match candidates with
  | [] => Some false
  | candidate :: rest =>
    let after_offset := (slice_offset after_slice + candidate)%nat in
    after_id ← property_ids after !! after_offset;
    if decide (after_id = before_id) then
      left ← property_read_at before before_slice before_offset;
      right ← property_read_at after after_slice after_offset;
      Some (property_read_equal left right)
    else match_candidate before after before_slice after_slice before_offset before_id rest
  end.

Fixpoint match_properties (before after : Generation) (before_slice after_slice : PropertySlice)
    (indexes : list nat) : option bool :=
  match indexes with
  | [] => Some true
  | index :: rest =>
    let before_offset := (slice_offset before_slice + index)%nat in
    before_id ← property_ids before !! before_offset;
    found ← match_candidate before after before_slice after_slice before_offset before_id
              (seq 0 (N.to_nat (slice_count after_slice)));
    if (found : bool) then match_properties before after before_slice after_slice rest
    else Some false
  end.

Definition same_node_facts (before : Generation) (before_index : N) (after : Generation)
    (after_index : N) : option bool :=
  let b := N.to_nat before_index in
  let a := N.to_nat after_index in
  before_generation ← node_generations before !! b;
  after_generation ← node_generations after !! a;
  before_role ← gen_roles before !! b;
  after_role ← gen_roles after !! a;
  before_states ← gen_states before !! b;
  after_states ← gen_states after !! a;
  if decide (before_generation ≠ after_generation ∨ before_role ≠ after_role ∨
             before_states ≠ after_states) then Some false
  else
    before_slice ← property_slices before !! b;
    after_slice ← property_slices after !! a;
    if decide (slice_count before_slice ≠ slice_count after_slice) then Some false
    else match_properties before after before_slice after_slice
           (seq 0 (N.to_nat (slice_count before_slice))).

(** ** Checking the records of a tree *)

Definition max_properties_per_node : nat := 256.

Definition check_record (m : UiSnapshotMetadata) (known : gset NodeId) (record : UiNodeRecord)
    : Result (gset NodeId) :=
  let id := node_id record in
  let ids := (node_properties record).*1 in
  if decide (id = 0%N) then rejected ErrorCode.InvalidArgument "node id must not be zero" m
  else if decide (id ∈ known) then
    rejected ErrorCode.InvalidArgument ("duplicate node id " +:+ pretty id) m
  else if decide (max_properties_per_node < length ids)%nat then
    rejected ErrorCode.InvalidArgument "node exceeds compact property limit" m
  else if decide (NoDup ids) then Ok ({[id]} ∪ known)
  else rejected ErrorCode.InvalidArgument ("duplicate property id on node " +:+ pretty id) m.

Fixpoint check_records (m : UiSnapshotMetadata) (known : gset NodeId) (records : list UiNodeRecord)
    : Result (gset NodeId) :=
  match records with
  | [] => Ok known
  | record :: rest => known ← check_record m known record; check_records m known rest
  end.

(** The maps filled by the loop over the relations. *)
Record Links := MkLinks {
  unique_relations : gset UiRelation;
  incoming_contains : gmap NodeId N;
  contains_children : gmap NodeId (list NodeId)
}.

Definition initial_links (records : list UiNodeRecord) : Links :=
  MkLinks ∅ (foldl (λ m r, <[node_id r := 0%N]> m) ∅ records)
    (foldl (λ m r, <[node_id r := []]> m) ∅ records).

(** [relation::coreCount]. *)
Definition core_count : N := 14.

Definition check_relation (m : UiSnapshotMetadata) (known : gset NodeId) (l : Links)
    (r : UiRelation) : option (Result Links) :=
  let is_contains := bool_decide (rel_kind r = relation_contains) in
  if decide (rel_source r ∉ known ∨ rel_target r ∉ known) then
    Some (rejected ErrorCode.NoMatch
      (if is_contains && bool_decide (rel_source r ∉ known) then "unknown parent node"
       else "unknown relation endpoint") m)
  else if decide (rel_source r = rel_target r) then
    Some (rejected ErrorCode.ProtocolError
      (if is_contains then "contains cycle through self" else "self relation is invalid") m)
  else if decide (r ∈ unique_relations l) then
    Some (rejected ErrorCode.InvalidArgument "duplicate relation" m)
  else if decide (core_count <= rel_kind r ∧ rel_kind r < core_relation_limit)%N then
    Some (rejected ErrorCode.InvalidArgument
      "relation id is reserved outside the closed core table" m)
  else
    let seen := {[r]} ∪ unique_relations l in
    if is_contains then
      incoming ← incoming_contains l !! rel_target r;
      children ← contains_children l !! rel_source r;
      Some (Ok (MkLinks seen (<[rel_target r := (incoming + 1)%N]> (incoming_contains l))
        (<[rel_source r := children ++ [rel_target r]]> (contains_children l))))
    else Some (Ok (MkLinks seen (incoming_contains l) (contains_children l))).

Fixpoint check_relations (m : UiSnapshotMetadata) (known : gset NodeId) (l : Links)
    (relations : list UiRelation) : option (Result Links) :=
  match relations with
  | [] => Some (Ok l)
  | r :: rest => attempt l := check_relation m known l r in check_relations m known l rest
  end.

Fixpoint check_roots (m : UiSnapshotMetadata) (known : gset NodeId) (incoming : gmap NodeId N)
    (supplied : gset NodeId) (roots : list NodeId) : option (Result unit) :=
  match roots with
  | [] => Some (Ok ())
  | root :: rest =>
    if decide (root ∉ known) then Some (rejected ErrorCode.NoMatch "unknown root node" m)
    else if decide (root ∈ supplied) then
      Some (rejected ErrorCode.InvalidArgument "duplicate root node" m)
    else
      count ← incoming !! root;
      if decide (count = 0%N) then check_roots m known incoming ({[root]} ∪ supplied) rest
      else Some (rejected ErrorCode.ProtocolError "root has a contains parent" m)
  end.

(** [--incoming] on a [size_t]. *)
Definition decrement (n : N) : N := if decide (n = 0%N) then (2 ^ 64 - 1)%N else (n - 1)%N.

(** The inner loop: the children of the node just visited. *)
Fixpoint release (children : list NodeId) (remaining : gmap NodeId N) (ready : list NodeId)
    : option (gmap NodeId N * list NodeId) :=
  match children with
  | [] => Some (remaining, ready)
  | child :: rest =>
    incoming ← remaining !! child;
    let fewer := decrement incoming in
    release rest (<[child := fewer]> remaining)
      (if decide (fewer = 0%N) then ready ++ [child] else ready)
  end.

(** The loop over the deque; each round visits one node. *)
Fixpoint visit_ready (fuel : nat) (children : gmap NodeId (list NodeId))
    (remaining : gmap NodeId N) (ready : list NodeId) (visited : nat) : option nat :=
  match ready with
  | [] => Some visited
  | current :: rest =>
    match fuel with
    | O => None
    | S fuel =>
      kids ← children !! current;
      '(remaining, ready) ← release kids remaining rest;
      visit_ready fuel children remaining ready (S visited)
    end
  end.

(** The nodes without a [contains] parent, in the order of the map. *)
Definition parentless (incoming : gmap NodeId N) : list NodeId :=
  filter (λ n, incoming !! n = Some 0%N) (sorted_keys incoming).

Definition validate_and_find_roots (m : UiSnapshotMetadata) (nodes : list UiNodeRecord)
    (supplied_roots : list NodeId) (relations : list UiRelation) : option (Result (list NodeId)) :=
  attempt known := Some (check_records m ∅ nodes) in
  attempt l := check_relations m known (initial_links nodes) relations in
  attempt _ := check_roots m known (incoming_contains l) ∅ supplied_roots in
  let roots := parentless (incoming_contains l) in
  visited ← visit_ready (length nodes) (contains_children l) (incoming_contains l) roots 0;
  Some (if decide (visited ≠ length nodes) then
          rejected ErrorCode.ProtocolError "contains relation cycle" m
        else Ok roots).

Definition normalized_snapshot (m : UiSnapshotMetadata) (nodes : list UiNodeRecord)
    (supplied_roots : list NodeId) (relations : list UiRelation) : option (Result UiSnapshot) :=
  attempt roots := validate_and_find_roots m nodes supplied_roots relations in
  Some (Ok (from_records m nodes roots relations)).

(** ** Building a generation *)

Definition max_dense_nodes : N := 2 ^ 32.

Definition empty_generation (snapshot : UiSnapshot) : Generation :=
  MkGeneration snapshot empty_graph ∅ [] [] [] [] [] [] [] [] [].

(** [std::map::emplace]: a key that is there keeps its value. *)
Definition emplace {A} (key : NodeId) (value : A) (m : gmap NodeId A) : gmap NodeId A :=
  match m !! key with Some _ => m | None => <[key := value]> m end.

(** One round of the loop over the nodes; the position is the number of rounds
    before it. *)
Definition add_record (g : Generation) (record : UiNodeRecord) : bool * Generation :=
  let position := length (node_ids g) in
  let ids := (node_properties record).*1 in
  let '(added, relations) := add_node (gen_relations g) (node_id record) in
  (added,
   MkGeneration (gen_snapshot g) relations
     (emplace (node_id record) (N.of_nat position `mod` 2 ^ 32)%N (node_indexes g))
     (node_ids g ++ [node_id record])
     (node_generations g ++ [node_generation record])
     (gen_roles g ++ [node_role record])
     (gen_states g ++ [node_states record])
     (property_slices g ++
       [MkSlice (length (property_ids g)) (N.of_nat (length ids) `mod` 2 ^ 16)%N])
     (property_ids g ++ ids)
     (property_value_indexes g ++
       ((λ i, N.of_nat i `mod` 2 ^ 8)%N <$> seq 0 (length ids)))
     (property_values g ++ (find_property (node_properties record) <$> ids))
     (extension_relations g)).

Fixpoint add_records (g : Generation) (records : list UiNodeRecord) : Result Generation :=
  match records with
  | [] => Ok g
  | record :: rest =>
    let '(added, g) := add_record g record in
    if (added : bool) then add_records g rest
    else rejected ErrorCode.InternalFault "snapshot lists the same node id more than once"
           (gen_metadata g)
  end.

(** The order of [std::pair] and [std::tuple] keys. *)
Definition pair_before (a b : NodeId * NodeId) : bool :=
  (a.1 <? b.1)%N || ((a.1 =? b.1)%N && (a.2 <? b.2)%N).

Definition key_before (a b : ExtensionKey) : bool :=
  pair_before a.1 b.1 || (bool_decide (a.1 = b.1) && (a.2 <? b.2)%N).

(** [core_relations[ key ] |= bit]: a key that is missing starts at zero. *)
Definition merge_bit (key : NodeId * NodeId) (bit : RelationSet)
    (m : gmap (NodeId * NodeId) RelationSet) : gmap (NodeId * NodeId) RelationSet :=
  <[key := N.lor (default 0%N (m !! key)) bit]> m.

(** The entries of the map in iteration order. *)
Definition entry_le (a b : NodeId * NodeId * RelationSet) : Prop := pair_before b.1 a.1 = false.

#[export] Instance entry_le_dec a b : Decision (entry_le a b).
Proof. unfold entry_le. apply _. Defined.

Definition sorted_entries (m : gmap (NodeId * NodeId) RelationSet)
    : list (NodeId * NodeId * RelationSet) := merge_sort entry_le (map_to_list m).

Fixpoint insert_key (key : ExtensionKey) (l : list ExtensionKey) : list ExtensionKey :=
  match l with
  | [] => [key]
  | k :: rest => if key_before key k then key :: l else k :: insert_key key rest
  end.

(** The loop over the relations: the bits per pair and the extension relations. *)
Definition sort_relation (st : gmap (NodeId * NodeId) RelationSet * list ExtensionKey)
    (r : UiRelation) : gmap (NodeId * NodeId) RelationSet * list ExtensionKey :=
  let bit := relation_bit (rel_kind r) in
  if decide (bit ≠ 0%N) then (merge_bit (rel_source r, rel_target r) bit st.1, st.2)
  else (st.1, insert_key (rel_source r, rel_target r, rel_kind r) st.2).

Fixpoint add_relation_sets (m : UiSnapshotMetadata) (g : AdjacencyGraph NodeId RelationSet)
    (l : list (NodeId * NodeId * RelationSet)) : Result (AdjacencyGraph NodeId RelationSet) :=
  match l with
  | [] => Ok g
  | (s, t, bits) :: rest =>
    let '(added, g) := add_edge g s t bits in
    if (added : bool) then add_relation_sets m g rest
    else rejected ErrorCode.InternalFault
      ("relation names an endpoint the snapshot does not declare, " +:+
       "or relates a node to itself") m
  end.

Definition with_relations (g : Generation) (relations : AdjacencyGraph NodeId RelationSet)
    (extensions : list ExtensionKey) : Generation :=
  MkGeneration (gen_snapshot g) relations (node_indexes g) (node_ids g) (node_generations g)
    (gen_roles g) (gen_states g) (property_slices g) (property_ids g)
    (property_value_indexes g) (property_values g) extensions.

Definition build_generation (snapshot : UiSnapshot) : Result Generation :=
  let m := snap_metadata snapshot in
  if decide (max_dense_nodes < N.of_nat (length (snap_nodes snapshot)))%N then
    rejected ErrorCode.InvalidArgument "tree exceeds dense node index limit" m
  else
    g ← add_records (empty_generation snapshot) (snap_nodes snapshot);
    let '(core, extensions) := foldl sort_relation (∅, []) (snap_relations snapshot) in
    relations ← add_relation_sets m (gen_relations g) (sorted_entries core);
    Ok (with_relations g relations extensions).

(** ** Events *)

Definition tree_event (kind : TreeEventKind) (g : Generation) (node related : NodeId)
    (relation : RelationId) : TreeEvent :=
  let m := gen_metadata g in
  MkTreeEvent kind (meta_runtime m) (meta_tree m) (meta_epoch m) (meta_revision m)
    node related relation.

Definition node_event (kind : TreeEventKind) (g : Generation) (node : NodeId) : TreeEvent :=
  tree_event kind g node 0 0.

Definition relation_bit_events (kind : TreeEventKind) (g : Generation) (source target : NodeId)
    (bits : RelationSet) : list TreeEvent :=
  (λ index, tree_event kind g source target (N.of_nat index)) <$>
    filter (λ index, N.land bits (N.shiftl 1 (N.of_nat index)) ≠ 0%N) (seq 0 32).

Definition edge_events (kind : TreeEventKind) (g : Generation) (edge : NodeId * NodeId)
    : list TreeEvent :=
  match edge_payload (gen_relations g) edge.1 edge.2 with
  | Some bits => relation_bit_events kind g edge.1 edge.2 bits
  | None => []
  end.

Definition extension_event (kind : TreeEventKind) (g : Generation) (key : ExtensionKey)
    : TreeEvent := tree_event kind g key.1.1 key.1.2 key.2.

(** The loop over [after.node_indexes]. *)
Fixpoint changed_events (before after : Generation) (ids : list NodeId)
    : option (list TreeEvent) :=
  match ids with
  | [] => Some []
  | id :: rest =>
    after_index ← node_indexes after !! id;
    same ← match node_indexes before !! id with
           | None => Some true
           | Some before_index => same_node_facts before before_index after after_index
           end;
    events ← changed_events before after rest;
    Some (if (same : bool) then events
          else node_event TreeEventKind.NodeChanged after id :: events)
  end.

(** [before_bits & ~after_bits] for an edge of both. *)
Definition lost_bits (before after : Generation) (edge : NodeId * NodeId) : RelationSet :=
  let bits g := default 0%N (edge_payload (gen_relations g) edge.1 edge.2) in
  N.ldiff (bits before) (bits after).

Definition changed_edge_events (before after : Generation) (edge : NodeId * NodeId)
    : list TreeEvent :=
  relation_bit_events TreeEventKind.RelationRemoved before edge.1 edge.2
    (lost_bits before after edge) ++
  relation_bit_events TreeEventKind.RelationAdded after edge.1 edge.2
    (lost_bits after before edge).

Definition derive_same_scope_events (before after : Generation) : option (list TreeEvent) :=
  let delta := graph_difference N.eqb (gen_relations before) (gen_relations after) in
  changed ← changed_events before after (sorted_keys (node_indexes after));
  Some ((node_event TreeEventKind.NodeRemoved before <$> removed_nodes delta) ++
        (node_event TreeEventKind.NodeAdded after <$> added_nodes delta) ++ changed ++
        (removed_edges delta ≫= edge_events TreeEventKind.RelationRemoved before) ++
        (added_edges delta ≫= edge_events TreeEventKind.RelationAdded after) ++
        (changed_edges delta ≫= changed_edge_events before after) ++
        (extension_event TreeEventKind.RelationRemoved before <$>
          filter (λ key, key ∉ extension_relations after) (extension_relations before)) ++
        (extension_event TreeEventKind.RelationAdded after <$>
          filter (λ key, key ∉ extension_relations before) (extension_relations after))).

(** Everything of one generation, added or removed. *)
Definition introduced (after : Generation) : list TreeEvent :=
  let delta := graph_difference N.eqb empty_graph (gen_relations after) in
  (node_event TreeEventKind.NodeAdded after <$> added_nodes delta) ++
  (added_edges delta ≫= edge_events TreeEventKind.RelationAdded after) ++
  (extension_event TreeEventKind.RelationAdded after <$> extension_relations after).

Definition withdrawn (before : Generation) : list TreeEvent :=
  let delta := graph_difference N.eqb (gen_relations before) empty_graph in
  (node_event TreeEventKind.NodeRemoved before <$> removed_nodes delta) ++
  (removed_edges delta ≫= edge_events TreeEventKind.RelationRemoved before) ++
  (extension_event TreeEventKind.RelationRemoved before <$> extension_relations before).

Definition same_scope (a b : UiSnapshotMetadata) : bool :=
  bool_decide (meta_runtime a = meta_runtime b) && bool_decide (meta_tree a = meta_tree b) &&
  bool_decide (meta_epoch a = meta_epoch b).

Definition derive_replacement_events (before : option Generation) (after : Generation)
    : option (list TreeEvent) :=
  match before with
  | None => Some (introduced after)
  | Some before =>
    if same_scope (gen_metadata before) (gen_metadata after) then
      derive_same_scope_events before after
    else Some (withdrawn before ++ introduced after)
  end.

(** ** Applying a delta to the records *)

Fixpoint add_nodes_of_delta (m : UiSnapshotMetadata) (seen : gset NodeId)
    (added nodes : list UiNodeRecord) : Result (list UiNodeRecord) :=
  match added with
  | [] => Ok nodes
  | record :: rest =>
    let id := node_id record in
    if decide (id ∈ seen ∨ id ∈ node_id <$> nodes) then
      rejected ErrorCode.InvalidArgument "delta adds duplicate node id" m
    else add_nodes_of_delta m ({[id]} ∪ seen) rest (nodes ++ [record])
  end.

(** [std::ranges::find_if] and the assignment through the iterator. *)
Fixpoint replace_first (record : UiNodeRecord) (nodes : list UiNodeRecord)
    : option (list UiNodeRecord) :=
  match nodes with
  | [] => None
  | existing :: rest =>
    if decide (node_id existing = node_id record) then Some (record :: rest)
    else cons existing <$> replace_first record rest
  end.

Fixpoint change_nodes (m : UiSnapshotMetadata) (seen : gset NodeId)
    (changed nodes : list UiNodeRecord) : Result (list UiNodeRecord) :=
  match changed with
  | [] => Ok nodes
  | record :: rest =>
    if decide (node_id record ∈ seen) then
      rejected ErrorCode.InvalidArgument "delta changes duplicate node id" m
    else
      match replace_first record nodes with
      | None => rejected ErrorCode.NoMatch "delta changes unknown node" m
      | Some nodes => change_nodes m ({[node_id record]} ∪ seen) rest nodes
      end
  end.

Fixpoint remove_nodes (m : UiSnapshotMetadata) (seen : gset NodeId) (removed : list NodeId)
    (nodes : list UiNodeRecord) (relations : list UiRelation)
    : Result (list UiNodeRecord * list UiRelation) :=
  match removed with
  | [] => Ok (nodes, relations)
  | id :: rest =>
    if decide (id ∈ seen) then
      rejected ErrorCode.InvalidArgument "delta removes duplicate node id" m
    else
      let kept := filter (λ record, node_id record ≠ id) nodes in
      if decide (length kept = length nodes) then
        rejected ErrorCode.NoMatch "delta removes unknown node" m
      else remove_nodes m ({[id]} ∪ seen) rest kept
             (filter (λ r, ¬ (rel_source r = id ∨ rel_target r = id)) relations)
  end.

(** [relations.erase( find_if … )]. *)
Fixpoint erase_first (r : UiRelation) (relations : list UiRelation) : option (list UiRelation) :=
  match relations with
  | [] => None
  | x :: rest => if decide (x = r) then Some rest else cons x <$> erase_first r rest
  end.

Fixpoint change_relations (m : UiSnapshotMetadata) (changes : list RelationChange)
    (relations : list UiRelation) : Result (list UiRelation) :=
  match changes with
  | [] => Ok relations
  | change :: rest =>
    let r := MkRelation (change_source change) (change_target change) (change_relation change) in
    if decide (change_kind change = RelationChangeKind.Add) then
      if decide (r ∈ relations) then
        rejected ErrorCode.InvalidArgument "delta adds duplicate relation" m
      else change_relations m rest (relations ++ [r])
    else
      match erase_first r relations with
      | None => rejected ErrorCode.NoMatch "delta removes unknown relation" m
      | Some relations => change_relations m rest relations
      end
  end.

Definition snapshot_from_delta (current : Generation) (delta : UiDelta)
    : option (Result UiSnapshot) :=
  let m := delta_metadata delta in
  let snapshot := gen_snapshot current in
  attempt nodes := Some (add_nodes_of_delta m ∅ (delta_added delta) (snap_nodes snapshot)) in
  attempt nodes := Some (change_nodes m ∅ (delta_changed delta) nodes) in
  attempt (nodes, relations) :=
    Some (remove_nodes m ∅ (delta_removed delta) nodes (snap_relations snapshot)) in
  attempt relations := Some (change_relations m (relation_changes delta) relations) in
  normalized_snapshot m nodes [] relations.

(** ** Preparing an update *)

Definition generation_revision (g : option Generation) : N :=
  from_option (λ g, meta_revision (gen_metadata g)) 0%N g.

Definition not_advanced (current : option Generation) (m : UiSnapshotMetadata) : bool :=
  match current with
  | None => false
  | Some g =>
    same_scope (gen_metadata g) m &&
    bool_decide (meta_revision m <= meta_revision (gen_metadata g))%N
  end.

Definition prepare_snapshot (current : option Generation) (incoming : UiSnapshot) (sequence : N)
    : option (Result PreparedUpdate) :=
  let m := snap_metadata incoming in
  if not_advanced current m then
    Some (rejected ErrorCode.ResyncRequired "snapshot revision did not advance" m)
  else
    attempt normalized :=
      normalized_snapshot m (snap_nodes incoming) (snap_roots incoming) (snap_relations incoming) in
    attempt generation := Some (build_generation normalized) in
    events ← derive_replacement_events current generation;
    Some (Ok (MkPrepared generation
      (MkApplied (generation_revision current) (meta_revision m) events) sequence)).

Definition prepare_delta (current : option Generation) (delta : UiDelta) (sequence : N)
    : option (Result PreparedUpdate) :=
  let m := delta_metadata delta in
  match current with
  | None => Some (rejected ErrorCode.ResyncRequired "delta received before an initial snapshot" m)
  | Some current =>
    let c := gen_metadata current in
    if decide (meta_runtime m ≠ meta_runtime c) then
      Some (rejected ErrorCode.RuntimeRestarted "delta runtime identity changed" m)
    else if decide (meta_tree m ≠ meta_tree c) then
      Some (rejected ErrorCode.ResyncRequired "delta tree identity changed" m)
    else if decide (meta_epoch m ≠ meta_epoch c) then
      Some (rejected ErrorCode.TreeResynced "delta tree epoch changed" m)
    else if decide (base_revision delta ≠ meta_revision c ∨
                    meta_revision m <= base_revision delta)%N then
      Some (rejected ErrorCode.ResyncRequired "delta base revision is out of order" m)
    else
      attempt candidate := snapshot_from_delta current delta in
      attempt generation := Some (build_generation candidate) in
      events ← derive_same_scope_events current generation;
      Some (Ok (MkPrepared generation
        (MkApplied (meta_revision c) (meta_revision m) events) sequence))
  end.

(** ** The store *)

(** [TreeStore::Impl] under its mutex; the sink is outside. *)
Record TreeStore := MkStore {
  current : option Generation;
  previous : option Generation;
  retired_runtimes : gset RuntimeId;
  pending_updates : list PreparedUpdate;
  last_source_sequence : N;
  requires_resnapshot : bool;
  publishing : bool
}.

Definition empty_store : TreeStore := MkStore None None ∅ [] 0 false false.

Definition staged_generation (s : TreeStore) : option Generation :=
  match last (pending_updates s) with
  | None => current s
  | Some prepared => Some (prepared_generation prepared)
  end.

Definition is_complete_snapshot (payload : UpdatePayload) : bool :=
  match payload with
  | SnapshotPayload snapshot => meta_complete (snap_metadata snapshot)
  | _ => false
  end.

(** A gap: what is refused, and that a snapshot is needed from now on. *)
Definition apply_gap (s : TreeStore) (gap : TreeGap) (sequence : N) (m : UiSnapshotMetadata)
    : Error * TreeStore :=
  let refuse code message := (rejection code message m, s) in
  let dropped :=
    (rejection ErrorCode.QueueGap
       ("tree update queue dropped " +:+ pretty (gap_dropped gap) +:+ " updates") m,
     MkStore (current s) (previous s) (retired_runtimes s) (pending_updates s)
       (if decide (sequence ≠ 0%N) then sequence else last_source_sequence s) true
       (publishing s)) in
  match staged_generation s with
  | None => dropped
  | Some staged =>
    let c := gen_metadata staged in
    if decide (gap_runtime gap ≠ meta_runtime c) then
      refuse ErrorCode.RuntimeRestarted "gap runtime identity changed"
    else if decide (gap_tree gap ≠ meta_tree c) then
      refuse ErrorCode.ResyncRequired "gap tree identity changed"
    else if decide (gap_epoch gap ≠ meta_epoch c) then
      refuse ErrorCode.TreeResynced "gap tree epoch changed"
    else dropped
  end.

Definition prepare (staged : option Generation) (payload : UpdatePayload) (sequence : N)
    (m : UiSnapshotMetadata) : option (Result PreparedUpdate) :=
  match payload with
  | SnapshotPayload snapshot => prepare_snapshot staged snapshot sequence
  | DeltaPayload delta => prepare_delta staged delta sequence
  | GapPayload _ => None
  end.

(** Queues a prepared update and retires the runtime it replaces. *)
Definition enqueue (s : TreeStore) (update : UiUpdate) (prepared : PreparedUpdate) : TreeStore :=
  let sequence := source_sequence update in
  let next_runtime := meta_runtime (gen_metadata (prepared_generation prepared)) in
  let replaced :=
    match staged_generation s with
    | Some staged =>
      if decide (meta_runtime (gen_metadata staged) ≠ next_runtime)
      then Some (meta_runtime (gen_metadata staged)) else None
    | None => None
    end in
  MkStore (current s) (previous s)
    (match replaced with Some r => {[r]} ∪ retired_runtimes s | None => retired_runtimes s end)
    (pending_updates s ++ [prepared])
    (if decide (sequence ≠ 0%N ∨ is_Some replaced) then sequence else last_source_sequence s)
    (if is_complete_snapshot (update_payload update) then false else requires_resnapshot s)
    true.

(** The locked part of [apply]: what it returns, whether the caller must publish,
    and the store after it. *)
Definition stage (s : TreeStore) (update : UiUpdate)
    : option (Result (AppliedDelta * bool) * TreeStore) :=
  let staged := staged_generation s in
  let m := metadata_of update (generation_revision staged) in
  let sequence := source_sequence update in
  let same_runtime :=
    match staged with
    | Some g => bool_decide (meta_runtime m = meta_runtime (gen_metadata g))
    | None => false
    end in
  if decide (meta_runtime m ∈ retired_runtimes s) then
    Some (rejected ErrorCode.RuntimeRestarted "runtime generation has been retired" m, s)
  else if decide (same_runtime = true ∧ sequence ≠ 0 ∧ sequence <= last_source_sequence s)%N then
    Some (rejected ErrorCode.ResyncRequired "source sequence did not advance" m, s)
  else
    match update_payload update with
    | GapPayload gap =>
      let '(error, s) := apply_gap s gap sequence m in Some (Err error, s)
    | payload =>
      if requires_resnapshot s && negb (is_complete_snapshot payload) then
        Some (rejected ErrorCode.ResyncRequired
                "full snapshot required after tree update queue gap" m, s)
      else
        match prepare staged payload sequence m with
        | None => None
        | Some (Err error) => Some (Err error, s)
        | Some (Ok prepared) =>
          Some (Ok (prepared_applied prepared, negb (publishing s)), enqueue s update prepared)
        end
    end.

(** The locked part of [drain_publications]: the events to deliver next, or [None]
    when the publisher is done. *)
Definition publish_next (s : TreeStore) : option (list TreeEvent) * TreeStore :=
  match pending_updates s with
  | [] =>
    (None, MkStore (current s) (previous s) (retired_runtimes s) [] (last_source_sequence s)
             (requires_resnapshot s) false)
  | prepared :: rest =>
    (Some (applied_events (prepared_applied prepared)),
     MkStore (Some (prepared_generation prepared)) (current s) (retired_runtimes s) rest
       (last_source_sequence s) (requires_resnapshot s) (publishing s))
  end.

Definition store_snapshot (s : TreeStore) : option UiSnapshot := gen_snapshot <$> current s.

Definition previous_snapshot (s : TreeStore) : option UiSnapshot := gen_snapshot <$> previous s.

Definition revision (s : TreeStore) : N := generation_revision (current s).

Definition core_relations (s : TreeStore) (source target : NodeId) : option RelationSet :=
  g ← current s; edge_payload (gen_relations g) source target.

(** ** Threads

    A store with its publishers, what [apply] returned for the updates accepted so
    far, and the events the sink was given.  A thread whose update made the store
    start publishing runs [drain_publications]: it is a publisher, which holds the
    events it still has to deliver.  Another thread, or the sink itself, may apply
    updates between any two steps. *)

Record StoreSystem := MkSystem {
  system_store : TreeStore;
  publishers : list (list TreeEvent);
  accepted : list AppliedDelta;
  delivered : list TreeEvent
}.

Definition initial_system : StoreSystem := MkSystem empty_store [] [] [].

(** A call of [apply], up to its unlocking. *)
Inductive apply_step : StoreSystem → StoreSystem → Prop :=
  | step_accept s ps us log update applied should_publish s' :
    stage s update = Some (Ok (applied, should_publish), s') →
    apply_step (MkSystem s ps us log)
      (MkSystem s' (if should_publish : bool then ps ++ [[]] else ps) (us ++ [applied]) log)
  | step_refuse s ps us log update error s' :
    stage s update = Some (Err error, s') →
    apply_step (MkSystem s ps us log) (MkSystem s' ps us log).

(** A round of [drain_publications] of one publisher: taking the next update, ending,
    or handing one event to the sink. *)
Inductive publisher_step : StoreSystem → StoreSystem → Prop :=
  | step_publish s ps ps' us log events s' :
    publish_next s = (Some events, s') →
    publisher_step (MkSystem s (ps ++ [] :: ps') us log) (MkSystem s' (ps ++ events :: ps') us log)
  | step_finish s ps ps' us log s' :
    publish_next s = (None, s') →
    publisher_step (MkSystem s (ps ++ [] :: ps') us log) (MkSystem s' (ps ++ ps') us log)
  | step_deliver s ps ps' us log event events :
    publisher_step (MkSystem s (ps ++ (event :: events) :: ps') us log)
      (MkSystem s (ps ++ events :: ps') us (log ++ [event])).

Definition store_step (a b : StoreSystem) : Prop := apply_step a b ∨ publisher_step a b.

Definition reachable (sys : StoreSystem) : Prop := rtc store_step initial_system sys.
