(* ===== verification/TreeCheck.v ===== *)
(** What the tree store accepts: [validate_and_find_roots] of
    [kernel/graph/tree_store.cpp] answers for exactly the well-formed trees, whose
    [contains] relation is a graph without cycles, and returns their roots. *)

From stdpp Require Import pretty.
From S2P Require Import Prelude Graph Kahn Errors UiTree TreeStore.

Local Open Scope list_scope.

(** ** Well-formed trees *)

Definition containment (rels : list UiRelation) : relation NodeId :=
  λ a b, MkRelation a b relation_contains ∈ rels.

Definition record_ok (r : UiNodeRecord) : Prop :=
  node_id r ≠ 0%N ∧ NoDup (node_properties r).*1 ∧
  (length (node_properties r) <= max_properties_per_node)%nat.

Definition relation_ok (ids : list NodeId) (r : UiRelation) : Prop :=
  rel_source r ∈ ids ∧ rel_target r ∈ ids ∧ rel_source r ≠ rel_target r ∧
  ¬ (core_count <= rel_kind r < core_relation_limit)%N.

Record tree_ok (nodes : list UiNodeRecord) (rels : list UiRelation) : Prop := {
  to_ids : NoDup (node_id <$> nodes);
  to_records : Forall record_ok nodes;
  to_distinct : NoDup rels;
  to_relations : Forall (relation_ok (node_id <$> nodes)) rels;
  to_acyclic : ∀ n, ¬ tc (containment rels) n n
}.

Definition roots_ok (nodes : list UiNodeRecord) (rels : list UiRelation) (roots : list NodeId)
    : Prop :=
  NoDup roots ∧ roots ⊆ node_id <$> nodes ∧ ∀ r p, r ∈ roots → ¬ containment rels p r.

(** ** The records *)

Lemma check_records_spec m known l :
  match check_records m known l with
  | Ok known' => known' = known ∪ list_to_set (node_id <$> l) ∧ NoDup (node_id <$> l) ∧
      Forall record_ok l ∧ ∀ n, n ∈ node_id <$> l → n ∉ known
  | Err _ => ¬ (NoDup (node_id <$> l) ∧ Forall record_ok l ∧ ∀ n, n ∈ node_id <$> l → n ∉ known)
  end.
Proof.
  revert known. induction l as [|r l IH]; intros known;
    [cbn|rewrite fmap_cons; cbn [check_records]].
  { split_and!; [set_solver|constructor|constructor|]. intros n Hn. by apply not_elem_of_nil in Hn. }
  unfold check_record, record_ok. cbv zeta. 
  pose proof (length_fmap fst (node_properties r)) as Hlen.
  repeat case_decide; cbn [mbind result_bind rejected].
  1-3, 5: rewrite Forall_cons, NoDup_cons; unfold record_ok; intros ([??] & [(? & ? & ?) ?] & Hf);
    first [done | lia | by eapply (Hf (node_id r)); [left|]].
  specialize (IH ({[node_id r]} ∪ known)). destruct (check_records _ _ _) as [known'|e].
  - destruct IH as (-> & Hnd & Hok & Hfresh). rewrite Forall_cons, NoDup_cons. unfold record_ok.
    split_and!; try done; [set_solver|set_solver|lia|]. set_solver.
  - rewrite Forall_cons, NoDup_cons.
    intros ([Hn Hnd] & [_ Hok] & Hfresh). destruct IH. split_and!; [done|done|]. set_solver.
Qed.

(** ** The relations

    After the relations [seen], the maps hold what the list of them says. *)

Record links_ok (ids : list NodeId) (seen : list UiRelation) (l : Links) : Prop := {
  lo_unique : unique_relations l = list_to_set seen;
  lo_incoming : ∀ n, incoming_contains l !! n =
    if decide (n ∈ ids) then Some (N.of_nat (length (sources_of seen n relation_contains)))
    else None;
  lo_children : ∀ n, contains_children l !! n =
    if decide (n ∈ ids) then Some (targets_of seen n relation_contains) else None
}.

Lemma initial_links_ok ns : links_ok (node_id <$> ns) [] (initial_links ns).
Proof.
  assert (∀ A (x : A) (m : gmap NodeId A) n,
    foldl (λ m r, <[node_id r := x]> m) m ns !! n =
      if decide (n ∈ node_id <$> ns) then Some x else m !! n) as H.
  { intros A x. induction ns as [|r ns IH]; intros m n; [done|]. cbn. rewrite IH.
    rewrite lookup_insert. repeat case_decide; set_solver. }
  split; [done|..]; intros n; cbn; rewrite H, lookup_empty; done.
Qed.

Lemma sources_snoc l r n k :
  sources_of (l ++ [r]) n k =
    sources_of l n k ++ if decide (rel_target r = n ∧ rel_kind r = k) then [rel_source r] else [].
Proof.
  unfold sources_of. rewrite filter_app, fmap_app. f_equal. rewrite filter_cons, filter_nil.
  by case_decide.
Qed.

Lemma targets_snoc l r n k :
  targets_of (l ++ [r]) n k =
    targets_of l n k ++ if decide (rel_source r = n ∧ rel_kind r = k) then [rel_target r] else [].
Proof.
  unfold targets_of. rewrite filter_app, fmap_app. f_equal. rewrite filter_cons, filter_nil.
  by case_decide.
Qed.

Lemma check_relation_spec m ids seen l r :
  links_ok ids seen l →
  ∃ res, check_relation m (list_to_set ids) l r = Some res ∧
  match res with
  | Ok l' => links_ok ids (seen ++ [r]) l' ∧ relation_ok ids r ∧ r ∉ seen
  | Err _ => ¬ (relation_ok ids r ∧ r ∉ seen)
  end.
Proof.
  intros [Hu Hi Hc]. unfold check_relation, relation_ok. cbv zeta. rewrite Hu.
  destruct (decide _) as [Hk|Hk].
  { eexists. split; [done|]. cbn. set_solver. }
  assert (rel_source r ∈ ids ∧ rel_target r ∈ ids) as [Hs Ht].
  { rewrite !elem_of_list_to_set in Hk. destruct (decide (rel_source r ∈ ids)),
      (decide (rel_target r ∈ ids)); tauto. }
  destruct (decide (rel_source r = rel_target r)) as [He|He]; [eexists; split; [done|]; cbn; tauto|].
  destruct (decide (r ∈ list_to_set seen)) as [Hd|Hd].
  { eexists; split; [done|]. cbn. set_solver. }
  destruct (decide (core_count <= _ ∧ _)%N) as [Hr|Hr]; [eexists; split; [done|]; cbn; tauto|].
  assert (({[r]} ∪ list_to_set seen : gset UiRelation) = list_to_set (seen ++ [r])) as Hset by set_solver.
  case_bool_decide as Hcon.
  - rewrite (Hi (rel_target r)), (Hc (rel_source r)), !decide_True by done. cbn.
    eexists. split; [done|]. split; [|set_solver]. split; [done|..]; intros n; cbn.
    + rewrite lookup_insert, Hi, sources_snoc, length_app. case_decide as Hn.
      * subst n. rewrite !decide_True by done. cbn. f_equal. lia.
      * rewrite (decide_False (P := rel_target r = n ∧ _)) by tauto. cbn. by rewrite Nat.add_0_r.
    + rewrite lookup_insert, Hc, targets_snoc. case_decide as Hn.
      * subst n. by rewrite !decide_True.
      * rewrite (decide_False (P := rel_source r = n ∧ _)) by tauto. by rewrite app_nil_r.
  - eexists. split; [done|]. split; [|set_solver]. split; [done|..]; intros n; cbn.
    + rewrite Hi, sources_snoc, (decide_False (P := rel_target r = n ∧ _)) by tauto. by rewrite app_nil_r.
    + rewrite Hc, targets_snoc, (decide_False (P := rel_source r = n ∧ _)) by tauto.
      by rewrite app_nil_r.
Qed.

Lemma check_relations_spec m ids seen l rest :
  links_ok ids seen l → NoDup seen →
  ∃ res, check_relations m (list_to_set ids) l rest = Some res ∧
  match res with
  | Ok l' => links_ok ids (seen ++ rest) l' ∧ Forall (relation_ok ids) rest ∧ NoDup (seen ++ rest)
  | Err _ => ¬ (Forall (relation_ok ids) rest ∧ NoDup (seen ++ rest))
  end.
Proof.
  revert seen l. induction rest as [|r rest IH]; intros seen l Hl Hnd; cbn [check_relations].
  { eexists. split; [done|]. rewrite app_nil_r. split_and!; [done|constructor|done]. }
  destruct (check_relation_spec m ids seen l r Hl) as ([l'|e] & -> & Hr).
  - destruct Hr as (Hl' & Hok & Hfresh). destruct (IH (seen ++ [r]) l' Hl') as (res & -> & Hres).
    { apply NoDup_app. split_and!; [done| |apply NoDup_singleton]. set_solver. }
    eexists. split; [done|]. rewrite <- app_assoc in Hres. cbn in Hres.
    destruct res; rewrite Forall_cons; tauto.
  - eexists. split; [done|]. cbn. rewrite Forall_cons. intros [[Hok _] Hn]. apply Hr. split; [done|].
    apply NoDup_app in Hn as (_ & Hn & _). intros Hin. apply (Hn r Hin). by left.
Qed.

Lemma check_roots_spec m ids rels l supplied roots :
  links_ok ids rels l →
  ∃ res, check_roots m (list_to_set ids) (incoming_contains l) supplied roots = Some res ∧
  (is_ok res = true ↔ NoDup roots ∧ (∀ r, r ∈ roots → r ∉ supplied) ∧ roots ⊆ ids ∧
    ∀ r p, r ∈ roots → ¬ containment rels p r).
Proof.
  intros Hl. revert supplied. induction roots as [|r roots IH]; intros supplied; cbn [check_roots].
  { eexists. split; [done|]. cbn. split; [|done]. intros _. split_and!; [constructor|set_solver..]. }
  destruct (decide _) as [Hk|Hk]; [eexists; split; [done|]; cbn; set_solver|].
  destruct (decide (r ∈ supplied)); [eexists; split; [done|]; cbn; set_solver|].
  rewrite (lo_incoming _ _ _ Hl), decide_True by set_solver. cbn.
  assert (N.of_nat (length (sources_of rels r relation_contains)) = 0%N ↔
    ∀ p, ¬ containment rels p r) as Hz.
  { unfold containment. setoid_rewrite <- elem_of_sources.
    destruct (sources_of rels r relation_contains) as [|p ps]; cbn.
    - split; [|done]. intros _ p. apply not_elem_of_nil.
    - split; [done|]. intros H. destruct (H p). by left. }
  case_decide as Hzero.
  - destruct (IH ({[r]} ∪ supplied)) as (res & -> & Hres). eexists. split; [done|].
    rewrite Hres, NoDup_cons. assert (Hnone := proj1 Hz Hzero). setoid_rewrite elem_of_cons. split.
    + intros (Hnd & Hf & Hs & Hp). split_and!; [set_solver|done|set_solver|set_solver|].
      intros x p [->|Hx]; [apply Hnone|by apply Hp].
    + intros ((Hn & Hnd) & Hf & Hs & Hp). split_and!; [done|set_solver|set_solver|].
      intros x p Hx. apply Hp. by right.
  - eexists. split; [done|]. split; [done|]. intros (_ & _ & _ & Hp). destruct Hzero.
    apply Hz. intros p. apply Hp. by left.
Qed.

(** ** The search for a cycle *)

Section visiting.
Context (ids : gset NodeId) (rels : list UiRelation).
Context (Hdistinct : NoDup rels) (Hends : ∀ a b, containment rels a b → a ∈ ids ∧ b ∈ ids).

Definition parents_of (n : NodeId) : list NodeId := sources_of rels n relation_contains.

Lemma precedes_contains a b : precedes parents_of a b ↔ containment rels a b.
Proof. apply elem_of_sources. Qed.

Lemma parents_of_NoDup n : NoDup (parents_of n).
Proof.
  apply NoDup_fmap_2_strong; [|by apply NoDup_filter].
  intros [a b k] [a' b' k'] [[? ?] _]%list_elem_of_filter [[? ?] _]%list_elem_of_filter.
  cbn in *. by intros ->; subst.
Qed.

Lemma children_NoDup n : NoDup (targets_of rels n relation_contains).
Proof.
  apply NoDup_fmap_2_strong; [|by apply NoDup_filter].
  intros [a b k] [a' b' k'] [[? ?] _]%list_elem_of_filter [[? ?] _]%list_elem_of_filter.
  cbn in *. by intros ->; subst.
Qed.

Definition counts_ok done (remaining : gmap NodeId N) : Prop :=
  ∀ n, n ∈ ids → remaining !! n = Some (N.of_nat (pending parents_of done n)).

Lemma decrement_S n : decrement (N.of_nat (S n)) = N.of_nat n.
Proof. unfold decrement. rewrite decide_False by lia. lia. Qed.

Lemma release_spec p kids done remaining visited ready :
  counts_ok done remaining → kahn_state ids parents_of done (visited ++ ready) →
  p ∈ visited → NoDup kids → (∀ t, t ∈ kids → containment rels p t ∧ (p, t) ∉ done) →
  ∃ remaining' ready' done',
    release kids remaining ready = Some (remaining', ready') ∧
    counts_ok done' remaining' ∧ kahn_state ids parents_of done' (visited ++ ready') ∧
    ∀ a b, (a, b) ∈ done' ↔ (a, b) ∈ done ∨ a = p ∧ b ∈ kids.
Proof.
  revert done remaining ready. induction kids as [|t kids IH]; intros done remaining ready Hc Hs Hp.
  { intros _ _. exists remaining, ready, done. split_and!; [done..|]. set_solver. }
  intros [Ht Hnd]%NoDup_cons Hkids. destruct (Hkids t) as [Hpt Hfresh]; [by left|].
  destruct (Hends p t Hpt) as [_ Htid]. apply precedes_contains in Hpt.
  destruct (kahn_retire ids parents_of done (visited ++ ready) p t) as [_ Hs'];
    [done|apply parents_of_NoDup|done|done|by apply elem_of_app; left|done|].
  pose proof (λ n, pending_retire parents_of done p t n (parents_of_NoDup t) Hpt Hfresh) as Hpe.
  set (fewer := pending parents_of ({[(p, t)]} ∪ done) t) in *.
  cbn [release]. rewrite (Hc t Htid), (Hpe t), decide_True by done. cbn [mbind option_bind]. cbv zeta. fold fewer.
  rewrite decrement_S.
  destruct (IH ({[(p, t)]} ∪ done) (<[t := N.of_nat fewer]> remaining)
    (if decide (N.of_nat fewer = 0%N) then ready ++ [t] else ready))
    as (remaining' & ready' & done' & -> & Hc' & Hs'' & Hdone'); [| |done|done| |].
  - intros n Hn. rewrite lookup_insert. destruct (decide (t = n)) as [<-|Hne]; [done|].
    rewrite (Hc n Hn), (Hpe n), decide_False by done. done.
  - replace (visited ++ _) with ((visited ++ ready) ++ if decide (fewer = 0%nat) then [t] else []);
      [done|]. rewrite <- app_assoc. repeat case_decide; try lia; by rewrite ?app_nil_r.
  - intros u Hu. specialize (Hkids u). set_solver.
  - exists remaining', ready', done'. split_and!; [done..|]. intros a b. rewrite Hdone'. set_solver.
Qed.

Lemma visit_ready_spec fuel children remaining visited ready done :
  (∀ n, n ∈ ids → children !! n = Some (targets_of rels n relation_contains)) →
  counts_ok done remaining → kahn_state ids parents_of done (visited ++ ready) →
  (∀ a b, (a, b) ∈ done ↔ containment rels a b ∧ a ∈ visited) →
  (size ids <= fuel + length visited)%nat →
  ∃ order done', visit_ready fuel children remaining ready (length visited) = Some (length order) ∧
    kahn_state ids parents_of done' order ∧
    ∀ a b, (a, b) ∈ done' ↔ containment rels a b ∧ a ∈ order.
Proof.
  intros Hch. revert remaining visited ready done.
  induction fuel as [|fuel IH]; intros remaining visited [|p ready] done Hc Hs Hdone Hfuel;
    cbn [visit_ready].
  1,3: exists visited, done; rewrite app_nil_r in Hs; done.
  { pose proof (kahn_bounded _ _ _ _ Hs) as Hb. rewrite length_app in Hb. cbn in Hb. lia. }
  pose proof Hs as [Ho Hnd _ _].
  assert (p ∈ ids) as Hp by (apply (Ho p), elem_of_app; right; left).
  rewrite (Hch p Hp). cbn [mbind option_bind].
  rewrite cons_middle, app_assoc in Hs, Hnd.
  destruct (release_spec p (targets_of rels p relation_contains) done remaining (visited ++ [p]) ready)
    as (remaining' & ready' & done' & -> & Hc' & Hs' & Hdone'); [done|done| |apply children_NoDup| |].
  { apply elem_of_app. right. by left. }
  { intros t Ht%elem_of_targets. split; [done|]. intros [_ Hv]%Hdone.
    apply NoDup_app in Hnd as (Hnd & _ & _). apply NoDup_app in Hnd as (_ & Hnd & _).
    apply (Hnd p Hv). by left. }
  cbn [mbind option_bind].
  replace (S (length visited)) with (length (visited ++ [p])) by (rewrite length_app; cbn; lia).
  apply (IH remaining' (visited ++ [p]) ready' done'); [done|done| |rewrite length_app; cbn; lia].
  intros a b. rewrite Hdone', Hdone, elem_of_app, elem_of_targets, list_elem_of_singleton.
  unfold containment. naive_solver.
Qed.
End visiting.

(** ** The whole check *)

Lemma elem_of_parentless ids rels l n :
  links_ok ids rels l →
  n ∈ parentless (incoming_contains l) ↔ n ∈ ids ∧ sources_of rels n relation_contains = [].
Proof.
  intros Hl. unfold parentless. rewrite list_elem_of_filter, elem_of_sorted_keys.
  rewrite (lo_incoming _ _ _ Hl). case_decide; [|naive_solver].
  destruct (sources_of rels n relation_contains); naive_solver.
Qed.

Lemma validate_spec m nodes supplied rels :
  ∃ res, validate_and_find_roots m nodes supplied rels = Some res ∧
  match res with
  | Ok roots => tree_ok nodes rels ∧ roots_ok nodes rels supplied ∧
      StronglySorted key_lt roots ∧
      ∀ n, n ∈ roots ↔ n ∈ node_id <$> nodes ∧ ∀ p, ¬ containment rels p n
  | Err _ => ¬ (tree_ok nodes rels ∧ roots_ok nodes rels supplied)
  end.
Proof.
  unfold validate_and_find_roots.
  pose proof (check_records_spec m ∅ nodes) as Hrec.
  destruct (check_records m ∅ nodes) as [known|e]; [|eexists; split; [done|]].
  2: { intros [[? ? _ _ _] _]. apply Hrec. split_and!; [done|done|set_solver]. }
  destruct Hrec as (-> & Hnd & Hok & _).
  assert ((∅ ∪ list_to_set (node_id <$> nodes) : gset NodeId) = list_to_set (node_id <$> nodes))
    as -> by set_solver.
  destruct (check_relations_spec m (node_id <$> nodes) [] (initial_links nodes) rels)
    as ([l|e] & -> & Hrels); [apply initial_links_ok|constructor| |eexists; split; [done|]].
  2: { intros [[_ _ ? ? _] _]. by apply Hrels. }
  destruct Hrels as (Hl & Hrelok & Hdist). cbn in Hl, Hdist.
  destruct (check_roots_spec m _ _ _ ∅ supplied Hl) as (res & -> & Hroots).
  destruct res as [[]|e]; [|eexists; split; [done|]].
  2: { intros [_ (? & ? & ?)]. assert (is_ok (@Err unit e) = true); [|done]. apply Hroots.
       split_and!; [done|set_solver|done|done]. }
  assert (roots_ok nodes rels supplied) as Hsup by (unfold roots_ok; tauto). clear Hroots.
  set (ids := list_to_set (node_id <$> nodes) : gset NodeId).
  assert (size ids = length nodes) as Hsize
    by (unfold ids; rewrite size_list_to_set, length_fmap by done; done).
  assert (∀ a b, containment rels a b → a ∈ ids ∧ b ∈ ids) as Hends.
  { intros a b Hab. rewrite Forall_forall in Hrelok. apply Hrelok in Hab as (? & ? & _).
    unfold ids. by rewrite !elem_of_list_to_set. }
  destruct (visit_ready_spec ids rels Hdist Hends (length nodes) (contains_children l)
    (incoming_contains l) [] (parentless (incoming_contains l)) ∅)
    as (order & done' & Hv & Hs & Hdone').
  - intros n Hn. rewrite (lo_children _ _ _ Hl). rewrite decide_True; [done|].
    by apply elem_of_list_to_set in Hn.
  - intros n Hn. rewrite (lo_incoming _ _ _ Hl), pending_nothing, decide_True; [done|].
    by apply elem_of_list_to_set in Hn.
  - apply kahn_start; [apply NoDup_filter, sorted_keys_NoDup|]. intros n. cbn [app].
    rewrite elem_of_parentless by done. unfold ids, parents_of. by rewrite elem_of_list_to_set.
  - set_solver.
  - cbn. lia.
  - change (length (@nil NodeId)) with 0%nat in Hv. rewrite Hv. cbn [mbind option_bind]. eexists. split; [done|].
    assert (∀ a b, precedes (parents_of rels) a b → a ∈ ids ∧ b ∈ ids) as Hends'
      by (intros a b Hab%precedes_contains; by apply Hends).
    rewrite <- Hsize. case_decide as Hlen; cbn.
    + intros [[_ _ _ _ Hac] _].
      destruct (kahn_stuck ids (parents_of rels) done' order Hs) as [x Hx]; try done.
      { intros a b. rewrite Hdone'. by rewrite <- precedes_contains. }
      apply (Hac x). revert Hx. apply tc_iff. intros a b. symmetry. apply precedes_contains.
    + split_and!; [|done| |].
      * split; [done..|]. intros n Hn.
        apply (kahn_complete ids (parents_of rels) done' order Hs Hends' ltac:(lia) n).
        revert Hn. apply tc_iff. intros a b. apply precedes_contains.
      * apply StronglySorted_filter, sorted_keys_sorted.
      * intros n. rewrite elem_of_parentless by done. unfold containment.
        setoid_rewrite <- elem_of_sources.
        destruct (sources_of rels n relation_contains) as [|p ps]; set_solver.
Qed.
