(* ===== verification/TreeGeneration.v ===== *)
(** Generations of the tree store and the events between two of them: what
    [build_generation] puts in the fact arrays and the relation graph, that
    [same_node_facts] compares records, and which events [derive_same_scope_events]
    and [derive_replacement_events] list. *)

From Stdlib Require Import Floats.SpecFloat.
From stdpp Require Import pretty.
From S2P Require Import Prelude Graph GraphDelta Errors Geometry UiTree TreeStore TreeCheck.

Local Open Scope list_scope.

(** ** The fact arrays *)

Definition record_ids (r : UiNodeRecord) : list PropertyId := (node_properties r).*1.

Definition record_reads (r : UiNodeRecord) : list PropertyRead :=
  find_property (node_properties r) <$> record_ids r.

Definition record_indexes (r : UiNodeRecord) : list N := N.of_nat <$> seq 0 (length (record_ids r)).

(** Where the properties of the records after the first [i] start. *)
Definition offset_of (nodes : list UiNodeRecord) (i : nat) : nat :=
  length (take i nodes ≫= record_ids).

Definition slice_of (nodes : list UiNodeRecord) (i : nat) (r : UiNodeRecord) : PropertySlice :=
  MkSlice (offset_of nodes i) (N.of_nat (length (record_ids r))).

Record facts_of (g : Generation) (nodes : list UiNodeRecord) : Prop := {
  fo_ids : node_ids g = node_id <$> nodes;
  fo_generations : node_generations g = node_generation <$> nodes;
  fo_roles : gen_roles g = node_role <$> nodes;
  fo_states : gen_states g = node_states <$> nodes;
  fo_slices : property_slices g = imap (slice_of nodes) nodes;
  fo_property_ids : property_ids g = nodes ≫= record_ids;
  fo_value_indexes : property_value_indexes g = nodes ≫= record_indexes;
  fo_values : property_values g = nodes ≫= record_reads;
  fo_index : ∀ id i, node_indexes g !! id = Some (N.of_nat i) ↔
    ∃ r, nodes !! i = Some r ∧ node_id r = id;
  fo_known : ∀ id n, node_indexes g !! id = Some n → ∃ i, n = N.of_nat i
}.

Lemma length_indexes r : length (record_indexes r) = length (record_ids r).
Proof. unfold record_indexes. by rewrite length_fmap, length_seq. Qed.

Lemma length_reads r : length (record_reads r) = length (record_ids r).
Proof. unfold record_reads. by rewrite length_fmap. Qed.

Lemma length_bind_ext {A B C} (f : A → list B) (h : A → list C) (l : list A) :
  (∀ x, length (f x) = length (h x)) → length (l ≫= f) = length (l ≫= h).
Proof. intros H. induction l as [|x l IH]; [done|]. cbn. rewrite !length_app, H, IH. done. Qed.

(** The entry of the [i]-th part at [j]. *)
Lemma lookup_bind_part {A B} (f : A → list B) (l : list A) i j x :
  l !! i = Some x → (j < length (f x))%nat →
  (l ≫= f) !! (length (take i l ≫= f) + j)%nat = f x !! j.
Proof.
  intros Hi Hj.
  assert (l ≫= f = (take i l ≫= f) ++ f x ++ (drop (S i) l ≫= f)) as ->
    by (rewrite <- (take_drop_middle l i x Hi) at 1; by rewrite bind_app).
  rewrite lookup_app_r by lia. rewrite Nat.add_comm, Nat.add_sub.
  by rewrite lookup_app_l.
Qed.

Lemma imap_slices_snoc nodes r :
  imap (slice_of (nodes ++ [r])) (nodes ++ [r]) =
  imap (slice_of nodes) nodes ++
    [MkSlice (length (nodes ≫= record_ids)) (N.of_nat (length (record_ids r)))].
Proof.
  rewrite imap_app. f_equal.
  - apply imap_ext. intros i x Hi. unfold slice_of, offset_of.
    rewrite take_app_le; [done|]. apply lookup_lt_Some in Hi. lia.
  - cbn. unfold slice_of, offset_of. rewrite Nat.add_0_r, take_app_length. done.
Qed.

Lemma add_record_facts g nodes r :
  facts_of g nodes → (N.of_nat (length nodes) < 2 ^ 32)%N → record_ok r →
  NoDup (node_id <$> nodes ++ [r]) →
  facts_of (add_record g r).2 (nodes ++ [r]).
Proof.
  intros [Hi Hg Hr Hs Hsl Hp Hv Hvs Hx Hk] Hlen (_ & _ & Hprops) Hnd. unfold add_record.
  destruct (add_node (gen_relations g) (node_id r)) as [added rel]. cbn [snd].
  fold (record_ids r). unfold max_properties_per_node in Hprops.
  assert (length (record_ids r) <= 256)%nat as Hids by (unfold record_ids; by rewrite length_fmap).
  assert (length (node_ids g) = length nodes) as Hl by (by rewrite Hi, length_fmap).
  rewrite Hl, N.mod_small by done.
  assert (node_indexes g !! node_id r = None) as Hfresh.
  { destruct (node_indexes g !! node_id r) as [n|] eqn:E; [|done].
    destruct (Hk _ _ E) as [i ->]. apply Hx in E as (r' & Hr' & Heq).
    rewrite fmap_app in Hnd. apply NoDup_app in Hnd as (_ & Hnd & _).
    destruct (Hnd (node_id r)); [|by left]. rewrite <- Heq.
    apply list_elem_of_fmap_2. by eapply list_elem_of_lookup_2. }
  unfold emplace. rewrite Hfresh.
  split; cbn; rewrite ?fmap_app, ?bind_app; cbn; rewrite ?app_nil_r.
  - by rewrite Hi.
  - by rewrite Hg.
  - by rewrite Hr.
  - by rewrite Hs.
  - rewrite imap_slices_snoc, Hsl, Hp. rewrite N.mod_small by lia. done.
  - by rewrite Hp.
  - rewrite Hv. f_equal. unfold record_indexes. apply list_fmap_ext.
    intros i x Hix%lookup_seq. apply N.mod_small. lia.
  - by rewrite Hvs.
  - intros id i. rewrite lookup_insert. case_decide as He.
    + subst id. split.
      * intros [= E%Nat2N.inj]. exists r. split; [|done]. rewrite <- E.
        rewrite lookup_app_r, Nat.sub_diag by lia. done.
      * intros (r' & Hr' & Heq). f_equal. f_equal.
        assert ((node_id <$> nodes ++ [r]) !! length nodes = Some (node_id r)) as Hlast.
        { rewrite list_lookup_fmap, lookup_app_r, Nat.sub_diag by lia. done. }
        apply (NoDup_lookup _ _ _ (node_id r) Hnd Hlast). rewrite list_lookup_fmap, Hr'. cbn. by rewrite Heq.
    + rewrite Hx. split.
      * intros (r' & Hr' & Heq). exists r'. split; [|done]. by apply lookup_app_l_Some.
      * intros (r' & Hr' & Heq). exists r'. split; [|done].
        apply lookup_app_Some in Hr' as [?|[_ Hr']]; [done|].
        apply list_lookup_singleton_Some in Hr' as [_ ->]. by destruct He.
  - intros id n. rewrite lookup_insert. case_decide; [|apply Hk]. intros [= <-]. eauto.
Qed.

Lemma add_record_graph g r g' added :
  add_record g r = (added, g') →
  (added, gen_relations g') = add_node (gen_relations g) (node_id r) ∧
  gen_snapshot g' = gen_snapshot g ∧ extension_relations g' = extension_relations g.
Proof.
  unfold add_record. destruct (add_node _ _) as [a rel]. by intros [= <- <-].
Qed.

Lemma add_records_spec g done rest :
  facts_of g done → WF (gen_relations g) → (N.of_nat (length (done ++ rest)) <= 2 ^ 32)%N →
  Forall record_ok rest → NoDup (node_id <$> done ++ rest) →
  (∀ n, is_Some (outgoing_ (gen_relations g) !! n) ↔ n ∈ node_id <$> done) →
  (∀ a b, ¬ arc (gen_relations g) a b) →
  ∃ g', add_records g rest = Ok g' ∧ facts_of g' (done ++ rest) ∧ WF (gen_relations g') ∧
    (∀ n, is_Some (outgoing_ (gen_relations g') !! n) ↔ n ∈ node_id <$> done ++ rest) ∧
    (∀ a b, ¬ arc (gen_relations g') a b) ∧
    gen_snapshot g' = gen_snapshot g ∧ extension_relations g' = extension_relations g.
Proof.
  revert g done. induction rest as [|r rest IH]; intros g done Hf Hwf Hlen Hok Hnd Hnodes Harcs.
  { exists g. rewrite app_nil_r. done. }
  rewrite cons_middle, app_assoc in *. apply Forall_cons in Hok as [Hr Hok].
  cbn [add_records]. destruct (add_record g r) as [added g1] eqn:E.
  pose proof (add_record_facts g done r Hf) as Hf1. rewrite E in Hf1. cbn in Hf1.
  apply add_record_graph in E as (Hadd & Hsnap & Hext).
  pose proof (add_node_WF (gen_relations g) (node_id r) Hwf) as Hwf1.
  pose proof (add_node_nodes (gen_relations g) (node_id r)) as Hnodes1.
  pose proof (add_node_arc (gen_relations g) (node_id r)) as Harcs1.
  rewrite <- Hadd in Hwf1, Hnodes1, Harcs1. cbn in Hwf1, Hnodes1, Harcs1.
  rewrite !length_app in Hlen. cbn in Hlen.
  assert (NoDup (node_id <$> done ++ [r])) as Hnd1 by (rewrite fmap_app in Hnd; by apply NoDup_app in Hnd as [? _]).
  assert (added = true) as ->.
  { destruct added; [done|]. symmetry in Hadd. unfold add_node in Hadd.
    destruct (outgoing_ (gen_relations g) !! node_id r) as [l|] eqn:E; [|done].
    assert (node_id r ∈ node_id <$> done) as Hs by (apply Hnodes; by rewrite E).
    rewrite fmap_app in Hnd1. apply NoDup_app in Hnd1 as (_ & Hnd1 & _).
    destruct (Hnd1 _ Hs). by left. }
  destruct (IH g1 (done ++ [r])) as (g' & -> & H1 & H2 & H3 & H4 & H5 & H6); try done.
  - apply Hf1; [lia|done|done].
  - rewrite !length_app. cbn. lia.
  - intros n. rewrite Hnodes1, Hnodes, fmap_app, elem_of_app. cbn. rewrite list_elem_of_singleton. tauto.
  - intros a b. by rewrite Harcs1.
  - exists g'. rewrite H5, H6. done.
Qed.

(** ** Comparing two nodes *)

(** What [same_node_facts] means for the records the arrays came from.  Facets are
    not compared: the arrays do not hold them. *)
Definition same_record (l r : UiNodeRecord) : bool :=
  bool_decide (node_generation l = node_generation r ∧ node_role l = node_role r ∧
               node_states l = node_states r ∧ length (record_ids l) = length (record_ids r)) &&
  forallb (λ id, bool_decide (id ∈ record_ids r) &&
             property_read_equal (find_property (node_properties l) id)
               (find_property (node_properties r) id)) (record_ids l).

(** *** When a node is the same, independently of how the code compares

    Numbers agree when they compare equal: zeros of either sign do, a NaN agrees with
    nothing.  What a property reads agrees when its state does and, where there is a
    value, the value does. *)
Inductive value_agrees : PropertyValue → PropertyValue → Prop :=
  | agree_none : value_agrees NoValue NoValue
  | agree_bool b : value_agrees (BoolValue b) (BoolValue b)
  | agree_integer z : value_agrees (IntegerValue z) (IntegerValue z)
  | agree_number x y : SFcompare x y = Some Eq → value_agrees (NumberValue x) (NumberValue y)
  | agree_text t : value_agrees (TextValue t) (TextValue t)
  | agree_rect x y w h x' y' w' h' space :
      SFcompare x x' = Some Eq → SFcompare y y' = Some Eq →
      SFcompare w w' = Some Eq → SFcompare h h' = Some Eq →
      value_agrees (RectValue (MkSpaceRect x y w h space)) (RectValue (MkSpaceRect x' y' w' h' space)).

Definition read_agrees (l r : PropertyRead) : Prop :=
  read_state l = read_state r ∧
  (read_state l = ReadState.Present → value_agrees (read_value l) (read_value r)).

(** Facets and provenance are not among the facts of a node: a change of them alone is
    not an event. *)
Record same_facts (l r : UiNodeRecord) : Prop := {
  same_generation : node_generation l = node_generation r;
  same_role : node_role l = node_role r;
  same_states : node_states l = node_states r;
  same_properties : ∀ id, id ∈ record_ids l ↔ id ∈ record_ids r;
  same_reads : ∀ id ql qr, (id, ql) ∈ node_properties l → (id, qr) ∈ node_properties r →
    read_agrees ql qr
}.

Lemma SFeqb_compare x y : SFeqb x y = true ↔ SFcompare x y = Some Eq.
Proof. unfold SFeqb. by destruct (SFcompare x y) as [[]|]. Qed.

Lemma property_value_equal_spec l r : property_value_equal l r = true ↔ value_agrees l r.
Proof.
  split.
  - destruct l as [|b|z|x|t|q], r as [|b'|z'|x'|t'|q']; unfold property_value_equal; try discriminate.
    + intros _. constructor.
    + intros ->%eqb_prop. constructor.
    + intros ->%bool_decide_eq_true. constructor.
    + intros ?%SFeqb_compare. by constructor.
    + intros ->%bool_decide_eq_true. constructor.
    + destruct q, q'. cbn. rewrite !andb_true_iff, bool_decide_eq_true, !SFeqb_compare.
      intros ((((? & ?) & ?) & ?) & ->). by constructor.
  - intros [|b|z|x y E|t|x y w h x' y' w' h' space E1 E2 E3 E4]; unfold property_value_equal; cbn.
    + done.
    + apply eqb_reflx.
    + by apply bool_decide_eq_true.
    + by apply SFeqb_compare.
    + by apply bool_decide_eq_true.
    + by rewrite !andb_true_iff, !SFeqb_compare, bool_decide_eq_true.
Qed.

Lemma property_read_equal_spec l r : property_read_equal l r = true ↔ read_agrees l r.
Proof.
  unfold property_read_equal, read_agrees. case_decide as E; [|split; [done|tauto]].
  rewrite orb_true_iff, negb_true_iff, bool_decide_eq_false, property_value_equal_spec.
  destruct (decide (read_state l = ReadState.Present)); tauto.
Qed.

Lemma find_property_In entries id read :
  NoDup entries.*1 → (id, read) ∈ entries → find_property entries id = read.
Proof.
  induction entries as [|[k q] entries IH]; cbn; [by intros _ ?%elem_of_nil|].
  intros [Hk Hnd]%NoDup_cons. rewrite elem_of_cons. intros [[= -> ->]|Hin].
  - by rewrite decide_True.
  - rewrite decide_False; [by apply IH|]. intros ->. apply Hk, list_elem_of_fmap.
    by exists (id, read).
Qed.

Lemma same_record_spec l r :
  NoDup (record_ids l) → NoDup (record_ids r) → same_record l r = true ↔ same_facts l r.
Proof.
  intros Hl Hr. unfold same_record. rewrite andb_true_iff, bool_decide_eq_true, forallb_forall.
  setoid_rewrite <-list_elem_of_In. setoid_rewrite andb_true_iff. setoid_rewrite bool_decide_eq_true.
  split.
  - intros [(G & R & S & Len) H]. split; try done.
    + intros id. split; [by intros [? _]%H|].
      assert (record_ids l ≡ₚ record_ids r) as P; [|by rewrite P].
      apply submseteq_length_Permutation; [|lia]. apply NoDup_submseteq; [done|]. by intros ? [? _]%H.
    + intros id ql qr Hql Hqr.
      rewrite <-(find_property_In (node_properties l) id ql), <-(find_property_In (node_properties r) id qr)
        by done.
      apply property_read_equal_spec, H, list_elem_of_fmap. by exists (id, ql).
  - intros [G R S Ids Reads]. split.
    + split_and!; [done..|]. apply Permutation_length, NoDup_Permutation; done.
    + intros id Hid. split; [by apply Ids|]. apply property_read_equal_spec.
      pose proof Hid as ([k ql] & -> & Hql)%list_elem_of_fmap.
      apply Ids in Hid as ([k' qr] & E & Hqr)%list_elem_of_fmap. cbn in *. subst k'.
      rewrite (find_property_In _ _ _ Hl Hql), (find_property_In _ _ _ Hr Hqr). by eapply Reads.
Qed.

Lemma property_at g nodes i r j id :
  facts_of g nodes → nodes !! i = Some r → record_ids r !! j = Some id →
  property_ids g !! (offset_of nodes i + j)%nat = Some id ∧
  property_read_at g (slice_of nodes i r) (offset_of nodes i + j) =
    Some (find_property (node_properties r) id).
Proof.
  intros Hf Hi Hj. pose proof (lookup_lt_Some _ _ _ Hj) as Hlt. unfold property_read_at.
  rewrite (fo_property_ids _ _ Hf), (fo_value_indexes _ _ Hf), (fo_values _ _ Hf).
  unfold offset_of. rewrite (lookup_bind_part record_ids nodes i j r) by done. split; [done|].
  rewrite (length_bind_ext record_ids record_indexes) by (intros; by rewrite length_indexes).
  rewrite (lookup_bind_part record_indexes nodes i j r) by (rewrite ?length_indexes; done).
  unfold record_indexes at 1. rewrite list_lookup_fmap, lookup_seq_lt by done. cbn.
  rewrite Nat2N.id. unfold offset_of.
  rewrite (length_bind_ext record_ids record_reads) by (intros; by rewrite length_reads).
  rewrite (lookup_bind_part record_reads nodes i j r) by (rewrite ?length_reads; done).
  unfold record_reads. by rewrite list_lookup_fmap, Hj.
Qed.

Section comparing.
Context (before after : Generation) (ns ns' : list UiNodeRecord).
Context (Hb : facts_of before ns) (Ha : facts_of after ns').
Context (i i' : nat) (l r : UiNodeRecord).
Context (Hl : ns !! i = Some l) (Hr : ns' !! i' = Some r) (Hnd : NoDup (record_ids r)).

Lemma match_candidate_spec j id k m :
  record_ids l !! j = Some id → (k + m = length (record_ids r))%nat →
  match_candidate before after (slice_of ns i l) (slice_of ns' i' r) (offset_of ns i + j) id
    (seq k m) =
  Some (bool_decide (id ∈ drop k (record_ids r)) &&
        property_read_equal (find_property (node_properties l) id)
          (find_property (node_properties r) id)).
Proof.
  intros Hj. revert k. induction m as [|m IH]; intros k Hk; cbn [seq match_candidate].
  { rewrite drop_ge by lia. rewrite bool_decide_eq_false_2 by apply not_elem_of_nil. done. }
  destruct (lookup_lt_is_Some_2 (record_ids r) k) as [id' Hid']; [lia|]. cbn [slice_offset slice_of].
  destruct (property_at after ns' i' r k id' Ha Hr Hid') as [-> Hread]. cbn [mbind option_bind].
  rewrite (drop_S _ _ _ Hid').
  destruct (property_at before ns i l j id Hb Hl Hj) as [_ Hread']. case_decide as He.
  - subst id'. rewrite Hread', Hread. cbn. rewrite bool_decide_eq_true_2 by (by left). done.
  - rewrite IH by lia. repeat f_equal. apply bool_decide_ext. rewrite elem_of_cons. naive_solver.
Qed.

Lemma match_properties_spec k m :
  (k + m = length (record_ids l))%nat →
  match_properties before after (slice_of ns i l) (slice_of ns' i' r) (seq k m) =
  Some (forallb (λ id, bool_decide (id ∈ record_ids r) &&
          property_read_equal (find_property (node_properties l) id)
            (find_property (node_properties r) id)) (drop k (record_ids l))).
Proof.
  revert k. induction m as [|m IH]; intros k Hk; cbn [seq match_properties].
  { by rewrite drop_ge by lia. }
  destruct (lookup_lt_is_Some_2 (record_ids l) k) as [id Hid]; [lia|]. cbn [slice_offset slice_of].
  destruct (property_at before ns i l k id Hb Hl Hid) as [-> _]. cbn [mbind option_bind].
  cbn [slice_count slice_of]. rewrite Nat2N.id, (match_candidate_spec k id 0) by done.
  cbn [mbind option_bind]. rewrite (drop_S _ _ _ Hid), drop_0. cbn [forallb].
  destruct (_ && _); [|done]. by apply IH; lia.
Qed.

Lemma same_node_facts_spec :
  same_node_facts before (N.of_nat i) after (N.of_nat i') = Some (same_record l r).
Proof.
  unfold same_node_facts, same_record. rewrite !Nat2N.id.
  rewrite (fo_generations _ _ Hb), (fo_generations _ _ Ha), (fo_roles _ _ Hb), (fo_roles _ _ Ha),
    (fo_states _ _ Hb), (fo_states _ _ Ha), (fo_slices _ _ Hb), (fo_slices _ _ Ha).
  rewrite !list_lookup_fmap, !list_lookup_imap, Hl, Hr. cbn [fmap option_fmap option_map mbind option_bind].
  case_decide as Hd.
  { rewrite bool_decide_eq_false_2 by tauto. done. }
  cbn [slice_count slice_of]. case_decide as Hlen.
  { rewrite bool_decide_eq_false_2 by lia. done. }
  rewrite bool_decide_eq_true_2 by (split_and!; [apply dec_stable; tauto..|lia]).
  rewrite Nat2N.id, (match_properties_spec 0) by done. by rewrite drop_0.
Qed.
End comparing.

(** ** The relation graph *)

Lemma relation_bit_zero k : relation_bit k = 0%N ↔ (core_relation_limit <= k)%N.
Proof.
  unfold relation_bit. case_decide as H; [done|]. split; [|done].
  by rewrite N.shiftl_eq_0_iff.
Qed.

Lemma relation_bit_spec k i :
  N.testbit (relation_bit k) i = true ↔ (k < core_relation_limit)%N ∧ i = k.
Proof.
  unfold relation_bit. case_decide as H; [rewrite N.bits_0; split; [done|lia]|].
  rewrite N.shiftl_1_l, N.pow2_bits_eqb, N.eqb_eq. split; [intros ->; lia|by intros [_ ->]].
Qed.

(** The bits of a pair are the core relations between its nodes. *)
Definition bits_of (rels : list UiRelation) (a b : NodeId) (bits : RelationSet) : Prop :=
  ∀ k, N.testbit bits k = true ↔ (k < core_relation_limit)%N ∧ MkRelation a b k ∈ rels.

Lemma bits_of_zero rels a b bits :
  bits_of rels a b bits →
  bits = 0%N ↔ ∀ k, (k < core_relation_limit)%N → MkRelation a b k ∉ rels.
Proof.
  intros H. split.
  - intros -> k Hk Hin. specialize (H k). rewrite N.bits_0 in H.
    discriminate (proj2 H (conj Hk Hin)).
  - intros Hn. apply N.bits_inj_0. intros k. apply not_true_is_false. intros [Hk Hin]%H.
    by eapply Hn.
Qed.

Lemma elem_of_insert_key key l x : x ∈ insert_key key l ↔ x = key ∨ x ∈ l.
Proof.
  induction l as [|k l IH]; cbn; [rewrite list_elem_of_singleton; set_solver|].
  destruct (key_before key k); rewrite !elem_of_cons; [done|]. rewrite IH. tauto.
Qed.

Lemma NoDup_insert_key key l : key ∉ l → NoDup l → NoDup (insert_key key l).
Proof.
  induction l as [|k l IH]; cbn; [intros; apply NoDup_singleton|]. intros Hk [Hn Hl]%NoDup_cons.
  rewrite elem_of_cons in Hk. destruct (key_before key k).
  - rewrite !NoDup_cons, elem_of_cons. tauto.
  - apply NoDup_cons. split; [|by apply IH; tauto]. rewrite elem_of_insert_key. naive_solver.
Qed.

Definition relation_key (r : UiRelation) : ExtensionKey := (rel_source r, rel_target r, rel_kind r).

Record sorted_of (rels : list UiRelation)
    (st : gmap (NodeId * NodeId) RelationSet * list ExtensionKey) : Prop := {
  so_bits : ∀ a b, bits_of rels a b (default 0%N (st.1 !! (a, b)));
  so_some : ∀ p bits, st.1 !! p = Some bits → bits ≠ 0%N;
  so_keys : ∀ a b k, (a, b, k) ∈ st.2 ↔
    (core_relation_limit <= k)%N ∧ MkRelation a b k ∈ rels;
  so_nodup : NoDup st.2
}.

Lemma sort_relation_spec rels st r :
  sorted_of rels st → r ∉ rels → sorted_of (rels ++ [r]) (sort_relation st r).
Proof.
  intros [Hb Hs Hk Hn] Hr. destruct r as [s t k0]. unfold sort_relation. cbn [rel_source rel_target rel_kind].
  assert (∀ a b k, MkRelation a b k ∈ rels ++ [MkRelation s t k0] ↔
    MkRelation a b k ∈ rels ∨ (a = s ∧ b = t ∧ k = k0)) as Hin by set_solver.
  destruct (decide (core_relation_limit <= k0)%N) as [Hext|Hcore].
  - rewrite decide_False by (intros H; by apply H, relation_bit_zero). split; cbn.
    + intros a b k. rewrite (Hb a b k), Hin. naive_solver lia.
    + done.
    + intros a b k. rewrite elem_of_insert_key, Hk, Hin. naive_solver.
    + apply NoDup_insert_key; [|done]. rewrite Hk. tauto.
  - rewrite decide_True by (by rewrite relation_bit_zero). unfold merge_bit. split; cbn.
    + intros a b k. rewrite Hin, lookup_insert. case_decide as He.
      * injection He as -> ->. cbn. rewrite N.lor_spec, orb_true_iff, (Hb a b k), relation_bit_spec.
        naive_solver lia.
      * rewrite (Hb a b k). naive_solver.
    + intros p bits. rewrite lookup_insert. case_decide; [|by apply Hs]. intros [= <-].
      rewrite N.lor_eq_0_iff, relation_bit_zero. tauto.
    + intros a b k. rewrite Hk, Hin. naive_solver lia.
    + done.
Qed.

Lemma sort_relations_spec rels :
  NoDup rels → sorted_of rels (foldl sort_relation (∅, []) rels).
Proof.
  induction rels as [|r rels IH] using rev_ind; intros Hnd.
  { split; cbn; [|done|set_solver|constructor]. intros a b k. rewrite N.bits_0. set_solver. }
  apply NoDup_app in Hnd as (Hnd & Hr & _). rewrite foldl_app. apply sort_relation_spec; [by apply IH|].
  intros Hin. apply (Hr r Hin). by left.
Qed.

Lemma add_edge_payload (g g' : AdjacencyGraph NodeId RelationSet) s t p :
  WF g → add_edge g s t p = (true, g') →
  ∀ a b, edge_payload g' a b = if decide (a = s ∧ b = t) then Some p else edge_payload g a b.
Proof.
  intros Hwf E a b. pose proof (add_edge_WF g s t p Hwf) as Hwf'. rewrite E in Hwf'. cbn in Hwf'.
  assert (∀ q, edge_payload g' a b = Some q ↔
    (if decide (a = s ∧ b = t) then Some p else edge_payload g a b) = Some q) as H.
  { intros q. rewrite (edge_payload_Some g') by done.
    apply add_edge_inv in E as (_ & _ & _ & Hn & ->).
    unfold out_edges at 1. cbn. rewrite edges_of_insert. case_decide as Hs.
    - subst a. rewrite elem_of_insert_sorted. case_decide as Hb.
      + destruct Hb as [_ ->]. split.
        * intros [[= ->]|Hq]; [done|]. apply edge_payload_Some in Hq; [congruence|done].
        * intros [= ->]. by left.
      + rewrite edge_payload_Some by done. split; [intros [[= -> ->]|?]; [tauto|done]|by right].
    - rewrite decide_False by naive_solver. by rewrite edge_payload_Some. }
  destruct (edge_payload g' a b) as [q|] eqn:E1.
  - symmetry. by apply H.
  - destruct (if decide _ then _ else _) as [q|] eqn:E2; [|done]. by apply (H q).
Qed.

Lemma add_relation_sets_spec m (g : AdjacencyGraph NodeId RelationSet) l (ids : list NodeId) :
  WF g → (∀ n, is_Some (outgoing_ g !! n) ↔ n ∈ ids) → NoDup l.*1 →
  (∀ a b bits, (a, b, bits) ∈ l → a ≠ b ∧ a ∈ ids ∧ b ∈ ids ∧ edge_payload g a b = None) →
  ∃ g', add_relation_sets m g l = Ok g' ∧ WF g' ∧
    (∀ n, is_Some (outgoing_ g' !! n) ↔ n ∈ ids) ∧
    ∀ a b p, edge_payload g' a b = Some p ↔ edge_payload g a b = Some p ∨ (a, b, p) ∈ l.
Proof.
  revert g. induction l as [|[[s t] bits] l IH]; intros g Hwf Hids Hnd Hl; cbn [add_relation_sets].
  { exists g. split_and!; [done..|]. intros. rewrite elem_of_nil. tauto. }
  cbn in Hnd. apply NoDup_cons in Hnd as [Hfresh Hnd].
  destruct (Hl s t bits) as (Hst & Hs & Ht & Hnone); [by left|].
  pose proof (add_edge_true g s t bits Hwf) as [_ Htrue].
  pose proof (add_edge_WF g s t bits Hwf) as Hwf'. pose proof (add_edge_nodes g s t bits) as Hn'.
  destruct (add_edge g s t bits) as [[] g1] eqn:E.
  2: { cbn in Htrue. assert (false = true); [|done]. apply Htrue. rewrite !Hids.
       split_and!; [done..|]. by apply edge_payload_None. }
  pose proof (add_edge_payload g g1 s t bits Hwf E) as Hp. cbn in Hwf', Hn'.
  assert (∀ a b p, (a, b, p) ∈ l → ¬ (a = s ∧ b = t)) as Hother.
  { intros a b p Hin [-> ->]. apply Hfresh. by apply (list_elem_of_fmap_2 fst _ (s, t, p)). }
  destruct (IH g1 Hwf') as (g' & -> & Hg' & Hids' & Hpay'); [|done| |].
  - intros n. by rewrite Hn'.
  - intros a b p Hin. destruct (Hl a b p) as (? & ? & ? & ?); [by right|].
    split_and!; [done..|]. by rewrite Hp, decide_False by (by eapply Hother).
  - exists g'. split_and!; [done..|]. intros a b p. rewrite Hpay', Hp, elem_of_cons. case_decide as He.
    + destruct He as [-> ->]. rewrite Hnone. split; [|by intros [|[[= ->]|]]; [|left|right]].
      intros [[= ->]|?]; [right; by left|right; by right].
    + split; [naive_solver|]. intros [?|[[= -> -> ->]|?]]; [by left|tauto|by right].
Qed.

(** ** Generations *)

Definition nodes_of (g : Generation) : list UiNodeRecord := snap_nodes (gen_snapshot g).
Definition relations_of (g : Generation) : list UiRelation := snap_relations (gen_snapshot g).
Definition ids_of (g : Generation) : list NodeId := node_id <$> nodes_of g.

(** What [build_generation] makes of a checked snapshot. *)
Record generation_ok (g : Generation) : Prop := {
  go_tree : tree_ok (nodes_of g) (relations_of g);
  go_shape : gen_snapshot g =
    from_records (gen_metadata g) (nodes_of g) (snap_roots (gen_snapshot g)) (relations_of g);
  go_roots : ∀ n, n ∈ snap_roots (gen_snapshot g) ↔
    n ∈ ids_of g ∧ ∀ p, ¬ containment (relations_of g) p n;
  go_facts : facts_of g (nodes_of g);
  go_wf : WF (gen_relations g);
  go_nodes : ∀ n, n ∈ nodes (gen_relations g) ↔ n ∈ ids_of g;
  go_arcs : ∀ a b, arc (gen_relations g) a b ↔
    ∃ k, (k < core_relation_limit)%N ∧ MkRelation a b k ∈ relations_of g;
  go_bits : ∀ a b bits, edge_payload (gen_relations g) a b = Some bits →
    bits_of (relations_of g) a b bits;
  go_keys : ∀ a b k, (a, b, k) ∈ extension_relations g ↔
    (core_relation_limit <= k)%N ∧ MkRelation a b k ∈ relations_of g;
  go_keys_nodup : NoDup (extension_relations g)
}.

Lemma facts_of_with_relations g ns rel ext :
  facts_of g ns → facts_of (with_relations g rel ext) ns.
Proof. by intros []. Qed.

Lemma build_generation_spec m ns roots rels :
  tree_ok ns rels →
  (∀ n, n ∈ roots ↔ n ∈ node_id <$> ns ∧ ∀ p, ¬ containment rels p n) →
  let s := from_records m ns roots rels in
  if decide (N.of_nat (length ns) <= max_dense_nodes)%N then
    ∃ g, build_generation s = Ok g ∧ gen_snapshot g = s ∧ generation_ok g
  else build_generation s =
    rejected ErrorCode.InvalidArgument "tree exceeds dense node index limit" m.
Proof.
  intros Htree Hroots s. unfold build_generation. cbn [s from_records snap_metadata snap_nodes].
  case_decide as Hsmall; [rewrite decide_False by lia|by rewrite decide_True by lia].
  destruct Htree as [Hnd Hok Hdist Hrel Hac].
  destruct (add_records_spec (empty_generation s) [] ns) as
    (g & Hg & Hf & Hwf & Hnodes & Harcs & Hsnap & _); try done.
  { split; try done; cbn; intros; rewrite lookup_empty; split; [done|]. by intros (? & ? & ?). }
  { apply empty_graph_WF. }
  { intros n. cbn. rewrite lookup_empty. split; [by intros []|]. by intros ?%elem_of_nil. }
  { intros a b [p Hp]. by apply elem_of_nil in Hp. }
  rewrite Hg. cbn [mbind result_bind]. cbn [s from_records snap_relations].
  pose proof (sort_relations_spec rels Hdist) as [Hb Hsome Hk Hkn].
  destruct (foldl sort_relation (∅, []) rels) as [core ext]. cbn in Hb, Hsome, Hk, Hkn.
  assert (∀ a b p, (a, b, p) ∈ sorted_entries core ↔ core !! (a, b) = Some p) as Hentries.
  { intros a b p. unfold sorted_entries. rewrite merge_sort_Permutation.
    apply elem_of_map_to_list. }
  assert (∀ a b, core !! (a, b) ≠ None ↔
    ∃ k, (k < core_relation_limit)%N ∧ MkRelation a b k ∈ rels) as Hcore.
  { intros a b. specialize (Hb a b). pose proof (bits_of_zero _ _ _ _ Hb) as Hz. split.
    - intros Hne. destruct (core !! (a, b)) as [bits|] eqn:E; [|done]. cbn in Hb, Hz.
      pose proof (Hsome _ _ E) as Hnz. destruct (N.log2 bits) as [|p] eqn:El.
      all: exists (N.log2 bits); apply Hb, N.bit_log2; done.
    - intros (k & Hk' & Hin) Hn. rewrite Hn in Hz. cbn in Hz. by eapply (proj1 Hz eq_refl k). }
  destruct (add_relation_sets_spec m (gen_relations g) (sorted_entries core) (node_id <$> ns))
    as (rel & -> & Hwf' & Hnodes' & Hpay); [done|done| | |].
  { unfold sorted_entries. rewrite merge_sort_Permutation. apply NoDup_fst_map_to_list. }
  { intros a b p Hin%Hentries. destruct (proj1 (Hcore a b)) as (k & _ & Hr); [by rewrite Hin|].
    rewrite Forall_forall in Hrel. apply Hrel in Hr as (? & ? & ? & _). cbn in *.
    split_and!; [done..|]. apply edge_payload_None; [done|]. apply Harcs. }
  cbn [mbind result_bind]. eexists. split; [done|].
  assert (gen_snapshot (with_relations g rel ext) = s) as Hs by done.
  assert (∀ a b p, edge_payload rel a b = Some p ↔ core !! (a, b) = Some p) as Hpay'.
  { intros a b p. rewrite Hpay, Hentries. split; [|by right]. intros [Hp|?]; [|done].
    apply edge_payload_Some in Hp; [|done]. destruct (Harcs a b). by exists p. }
  split; [done|]. split; unfold ids_of, nodes_of, relations_of, gen_metadata; rewrite ?Hs; try done.
  - by apply facts_of_with_relations.
  - intros n. unfold nodes. rewrite elem_of_sorted_keys. apply Hnodes'.
  - intros a b. cbn. rewrite <- Hcore. unfold arc. setoid_rewrite <- edge_payload_Some; [|done].
    setoid_rewrite Hpay'. destruct (core !! (a, b)); naive_solver.
  - intros a b bits E%Hpay'. specialize (Hb a b). by rewrite E in Hb.
Qed.

(** ** Events

    What there is to report between two generations. *)

Definition relation_event (kind : TreeEventKind) (g : Generation) (r : UiRelation) : TreeEvent :=
  tree_event kind g (rel_source r) (rel_target r) (rel_kind r).

Inductive event_due (before after : Generation) : TreeEvent → Prop :=
  | due_removed n : n ∈ ids_of before → n ∉ ids_of after →
      event_due before after (node_event TreeEventKind.NodeRemoved before n)
  | due_added n : n ∈ ids_of after → n ∉ ids_of before →
      event_due before after (node_event TreeEventKind.NodeAdded after n)
  | due_changed l r : l ∈ nodes_of before → r ∈ nodes_of after → node_id l = node_id r →
      ¬ same_facts l r →
      event_due before after (node_event TreeEventKind.NodeChanged after (node_id r))
  | due_unrelated r : r ∈ relations_of before → r ∉ relations_of after →
      event_due before after (relation_event TreeEventKind.RelationRemoved before r)
  | due_related r : r ∈ relations_of after → r ∉ relations_of before →
      event_due before after (relation_event TreeEventKind.RelationAdded after r).

Lemma land_bit bits k : N.land bits (N.shiftl 1 k) ≠ 0%N ↔ N.testbit bits k = true.
Proof.
  assert (N.testbit (N.land bits (N.shiftl 1 k)) k = N.testbit bits k) as Hk.
  { rewrite N.land_spec, N.shiftl_1_l, N.pow2_bits_true. apply andb_true_r. }
  split.
  - intros Hne. destruct (N.testbit bits k) eqn:E; [done|]. destruct Hne.
    apply N.bits_inj_0. intros i. rewrite N.land_spec, N.shiftl_1_l, N.pow2_bits_eqb.
    destruct (N.eqb_spec k i) as [<-|]; [by rewrite E|apply andb_false_r].
  - intros E Hz. rewrite Hz, N.bits_0 in Hk. congruence.
Qed.

Lemma elem_of_bit_events kind g s t bits e :
  (∀ k, N.testbit bits k = true → (k < core_relation_limit)%N) →
  e ∈ relation_bit_events kind g s t bits ↔
    ∃ k, N.testbit bits k = true ∧ e = relation_event kind g (MkRelation s t k).
Proof.
  intros Hlow. unfold relation_bit_events. rewrite list_elem_of_fmap.
  setoid_rewrite list_elem_of_filter. setoid_rewrite land_bit. split.
  - intros (i & -> & Hi & _). by exists (N.of_nat i).
  - intros (k & Hk & ->). exists (N.to_nat k). rewrite N2Nat.id. split_and!; [done..|].
    apply elem_of_seq. apply Hlow in Hk. unfold core_relation_limit in Hk. lia.
Qed.

Lemma bit_events_NoDup kind g s t bits : NoDup (relation_bit_events kind g s t bits).
Proof.
  apply NoDup_fmap_2_strong; [|apply NoDup_filter, NoDup_seq].
  intros i j _ _. unfold tree_event. intros [= ?%Nat2N.inj]. done.
Qed.

(** The records under an id. *)
Definition changed_at (before after : Generation) (id : NodeId) : bool :=
  match snapshot_node (gen_snapshot before) id, snapshot_node (gen_snapshot after) id with
  | Some l, Some r => negb (same_record l r)
  | _, _ => false
  end.

Lemma index_of_node g id i :
  generation_ok g → node_indexes g !! id = Some (N.of_nat i) →
  ∃ r, nodes_of g !! i = Some r ∧ node_id r = id ∧ snapshot_node (gen_snapshot g) id = Some r.
Proof.
  intros Hg Hi. destruct (proj1 (fo_index _ _ (go_facts _ Hg) id i) Hi) as (r & Hr & Hid).
  exists r. split_and!; [done..|]. apply snapshot_node_unique; [apply Hg| |done].
  by eapply list_elem_of_lookup_2.
Qed.

Lemma index_domain g id : generation_ok g → is_Some (node_indexes g !! id) ↔ id ∈ ids_of g.
Proof.
  intros Hg. split.
  - intros [n Hn]. destruct (fo_known _ _ (go_facts _ Hg) _ _ Hn) as [i ->].
    destruct (index_of_node g id i Hg Hn) as (r & Hr & <- & _).
    apply list_elem_of_fmap_2. by eapply list_elem_of_lookup_2.
  - intros (r & -> & [i Hi]%list_elem_of_lookup)%list_elem_of_fmap.
    exists (N.of_nat i). apply (fo_index _ _ (go_facts _ Hg)). eauto.
Qed.

Lemma record_ids_NoDup g i r : generation_ok g → nodes_of g !! i = Some r → NoDup (record_ids r).
Proof.
  intros Hg Hr. pose proof (to_records _ _ (go_tree _ Hg)) as Hok. rewrite Forall_lookup in Hok.
  apply (Hok i r Hr).
Qed.

Lemma record_ids_NoDup_elem g r : generation_ok g → r ∈ nodes_of g → NoDup (record_ids r).
Proof. intros Hg [i Hi]%list_elem_of_lookup. by eapply record_ids_NoDup. Qed.

Lemma changed_events_spec before after ids :
  generation_ok before → generation_ok after → ids ⊆ ids_of after →
  changed_events before after ids =
    Some (node_event TreeEventKind.NodeChanged after <$>
            filter (λ id, changed_at before after id = true) ids).
Proof.
  intros Hb Ha. induction ids as [|id ids IH]; intros Hsub; [done|]. cbn [changed_events].
  assert (is_Some (node_indexes after !! id)) as [n' Hn'] by (apply index_domain; set_solver).
  destruct (fo_known _ _ (go_facts _ Ha) _ _ Hn') as [i' ->]. rewrite Hn'. cbn [mbind option_bind].
  destruct (index_of_node after id i' Ha Hn') as (r & Hr & Hrid & Hsr).
  assert (match node_indexes before !! id with
          | None => Some true
          | Some n => same_node_facts before n after (N.of_nat i')
          end = Some (negb (changed_at before after id))) as ->.
  { unfold changed_at. rewrite Hsr. destruct (node_indexes before !! id) as [n|] eqn:Hn.
    - destruct (fo_known _ _ (go_facts _ Hb) _ _ Hn) as [i ->].
      destruct (index_of_node before id i Hb Hn) as (l & Hl & Hlid & ->).
      rewrite (same_node_facts_spec before after _ _ (go_facts _ Hb) (go_facts _ Ha) i i' l r Hl Hr)
        by (by eapply record_ids_NoDup). by rewrite negb_involutive.
    - destruct (snapshot_node (gen_snapshot before) id) as [l|] eqn:Hsl; [|done].
      assert (is_Some (node_indexes before !! id)) as [? ?]; [|congruence].
      apply index_domain; [done|]. apply snapshot_node_is_Some. by rewrite Hsl. }
  rewrite IH by set_solver. cbn [mbind option_bind].
  destruct (changed_at before after id) eqn:Hc; cbn [negb];
    [by rewrite filter_cons_True|by rewrite filter_cons_False by (by rewrite Hc)].
Qed.

Lemma payload_bits g a b :
  generation_ok g →
  bits_of (relations_of g) a b (default 0%N (edge_payload (gen_relations g) a b)).
Proof.
  intros Hg. destruct (edge_payload (gen_relations g) a b) as [bits|] eqn:E; [by apply go_bits|].
  intros k. split; [by destruct k|]. intros [Hk Hin]. exfalso.
  apply edge_payload_None in E; [|by apply go_wf]. apply E, go_arcs; [done|]. eauto.
Qed.

Lemma elem_of_edge_events kind g p e :
  generation_ok g → e ∈ edge_events kind g p ↔
  ∃ k, (k < core_relation_limit)%N ∧ MkRelation p.1 p.2 k ∈ relations_of g ∧
    e = relation_event kind g (MkRelation p.1 p.2 k).
Proof.
  intros Hg. pose proof (payload_bits g p.1 p.2 Hg) as Hb. unfold edge_events.
  destruct (edge_payload (gen_relations g) p.1 p.2) as [bits|]; cbn in Hb.
  - rewrite elem_of_bit_events by (by intros k [? _]%Hb). split.
    + intros (k & [??]%Hb & ->). eauto.
    + intros (k & ? & ? & ->). exists k. split; [by apply Hb|done].
  - rewrite elem_of_nil. split; [done|]. intros (k & Hk & Hin & _).
    assert (N.testbit 0 k = true) as H by (by apply Hb). by rewrite N.bits_0 in H.
Qed.

Lemma lost_bits_spec g g' p k :
  generation_ok g → generation_ok g' → N.testbit (lost_bits g g' p) k = true ↔
  (k < core_relation_limit)%N ∧ MkRelation p.1 p.2 k ∈ relations_of g ∧
  MkRelation p.1 p.2 k ∉ relations_of g'.
Proof.
  intros Hg Hg'. unfold lost_bits. rewrite N.ldiff_spec, andb_true_iff, negb_true_iff.
  rewrite (payload_bits g p.1 p.2 Hg k), <- not_true_iff_false.
  rewrite (payload_bits g' p.1 p.2 Hg' k). tauto.
Qed.

(** A core relation of [g] missing from [g'] is on an edge [g'] lacks altogether, or on
    an edge whose bits changed. *)
Lemma lost_relation_edge g g' a b k :
  generation_ok g → generation_ok g' → (k < core_relation_limit)%N →
  MkRelation a b k ∈ relations_of g → MkRelation a b k ∉ relations_of g' →
  arc (gen_relations g) a b ∧
  (¬ arc (gen_relations g') a b ∨
   ∃ p q, edge_payload (gen_relations g) a b = Some p ∧
     edge_payload (gen_relations g') a b = Some q ∧ N.eqb p q = false).
Proof.
  intros Hg Hg' Hk Hin Hout. assert (arc (gen_relations g) a b) as Harc by (apply go_arcs; eauto).
  split; [done|]. pose proof (payload_bits g a b Hg k) as Hp. pose proof (payload_bits g' a b Hg' k) as Hq.
  destruct (edge_payload (gen_relations g') a b) as [q|] eqn:Eq.
  2: { left. by apply edge_payload_None; [apply go_wf|]. }
  right. destruct (edge_payload (gen_relations g) a b) as [p|] eqn:Ep.
  2: { apply edge_payload_None in Ep; [done|by apply go_wf]. }
  exists p, q. split_and!; [done..|]. apply N.eqb_neq. intros ->. cbn in Hp, Hq. tauto.
Qed.

Definition graph_delta (before after : Generation) : GraphDelta NodeId :=
  graph_difference N.eqb (gen_relations before) (gen_relations after).

Lemma changed_edge_symmetric before after p :
  generation_ok before → generation_ok after →
  p ∈ changed_edges (graph_delta before after) ↔
  ∃ x y, edge_payload (gen_relations before) p.1 p.2 = Some x ∧
    edge_payload (gen_relations after) p.1 p.2 = Some y ∧ N.eqb x y = false.
Proof.
  intros Hb Ha. destruct p as [a b].
  by apply (graph_difference_exact N.eqb _ _ (go_wf _ Hb) (go_wf _ Ha)).
Qed.

Lemma elem_of_changed_edge_events before after e :
  generation_ok before → generation_ok after →
  e ∈ (changed_edges (graph_delta before after) ≫= changed_edge_events before after) ↔
  ∃ a b k, (k < core_relation_limit)%N ∧ (a, b) ∈ changed_edges (graph_delta before after) ∧
    let r := MkRelation a b k in
    (r ∈ relations_of before ∧ r ∉ relations_of after ∧
       e = relation_event TreeEventKind.RelationRemoved before r ∨
     r ∈ relations_of after ∧ r ∉ relations_of before ∧
       e = relation_event TreeEventKind.RelationAdded after r).
Proof.
  intros Hb Ha. rewrite list_elem_of_bind. unfold changed_edge_events.
  setoid_rewrite elem_of_app. split.
  - intros ([a b] & He & Hin).
    rewrite !elem_of_bit_events in He by (by intros k [? _]%lost_bits_spec).
    destruct He as [(k & Hk & ->)|(k & Hk & ->)]; apply lost_bits_spec in Hk as (? & ? & ?); [|done|done| |done|done];
      exists a, b, k; cbn; tauto.
  - intros (a & b & k & Hk & Hch & H). exists (a, b). split; [|done].
    rewrite !elem_of_bit_events by (by intros i [? _]%lost_bits_spec).
    destruct H as [(? & ? & ->)|(? & ? & ->)]; [left|right]; exists k; (split; [|done]);
      by apply lost_bits_spec.
Qed.

(** Distinct pieces of a list, told apart by a tag. *)
Lemma NoDup_tagged {A} (tag : A → nat) (pieces : list (nat * list A)) :
  NoDup pieces.*1 → Forall (λ p, NoDup p.2 ∧ ∀ x, x ∈ p.2 → tag x = p.1) pieces →
  NoDup (pieces ≫= snd).
Proof.
  induction pieces as [|[t l] pieces IH]; [constructor|].
  intros [Ht Hnd]%NoDup_cons [[Hl Htag] Hok]%Forall_cons. cbn. apply NoDup_app.
  split_and!; [done| |by apply IH]. intros x Hx (p & Hxp & Hp)%list_elem_of_bind.
  rewrite Forall_forall in Hok. destruct (Hok p Hp) as [_ Hp']. apply Ht. cbn in *.
  rewrite <- (Htag x Hx), (Hp' x Hxp). by apply list_elem_of_fmap_2.
Qed.

(** Which piece of [derive_same_scope_events] an event comes from. *)
Definition event_piece (before after : Generation) (e : TreeEvent) : nat :=
  let core := bool_decide (te_relation e < core_relation_limit)%N in
  let changed := bool_decide ((te_node e, te_related e) ∈ changed_edges (graph_delta before after)) in
  match te_kind e with
  | TreeEventKind.NodeRemoved => 0
  | TreeEventKind.NodeAdded => 1
  | TreeEventKind.NodeChanged => 2
  | TreeEventKind.RelationRemoved => if core then if changed then 5 else 3 else 6
  | TreeEventKind.RelationAdded => if core then if changed then 5 else 4 else 7
  end.

Lemma relation_event_inj kind kind' g g' r r' :
  relation_event kind g r = relation_event kind' g' r' → kind = kind' ∧ r = r'.
Proof. destruct r, r'. unfold relation_event, tree_event. cbn. by intros [= -> _ _ _ _ -> -> ->]. Qed.

Lemma edge_events_NoDup kind g (edges : list (NodeId * NodeId)) :
  generation_ok g → NoDup edges → NoDup (edges ≫= edge_events kind g).
Proof.
  intros Hg Hnd. apply NoDup_bind; [| |done].
  - intros [a b] [a' b'] e _ _ (k & _ & _ & ->)%elem_of_edge_events; [|done].
    intros (k' & _ & _ & [_ [= -> -> _]]%relation_event_inj)%elem_of_edge_events; done.
  - intros [a b] _. unfold edge_events. destruct (edge_payload _ _ _); [apply bit_events_NoDup|constructor].
Qed.

Lemma changed_edge_events_NoDup before after :
  generation_ok before → generation_ok after →
  NoDup (changed_edges (graph_delta before after) ≫= changed_edge_events before after).
Proof.
  intros Hb Ha. apply NoDup_bind.
  - intros [a b] [a' b'] e _ _. unfold changed_edge_events.
    rewrite !elem_of_app, !elem_of_bit_events by (by intros k [? _]%lost_bits_spec).
    intros [(k & _ & ->)|(k & _ & ->)] [(k' & _ & E)|(k' & _ & E)];
      apply relation_event_inj in E as [? E]; try done; by injection E as -> ->.
  - intros [a b] _. apply NoDup_app. split_and!; [apply bit_events_NoDup| |apply bit_events_NoDup].
    intros e. rewrite !elem_of_bit_events by (by intros k [? _]%lost_bits_spec).
    by intros (k & _ & ->) (k' & _ & [? _]%relation_event_inj).
  - apply (graph_difference_NoDup N.eqb _ _ (go_wf _ Hb) (go_wf _ Ha)).
Qed.

Lemma node_event_inj kind g n n' : node_event kind g n = node_event kind g n' → n = n'.
Proof. by intros [= ->]. Qed.

Lemma extension_event_relation kind g (key : ExtensionKey) :
  extension_event kind g key = relation_event kind g (MkRelation key.1.1 key.1.2 key.2).
Proof. done. Qed.

Lemma extension_events_NoDup kind g (l : list ExtensionKey) :
  NoDup l → NoDup (extension_event kind g <$> l).
Proof.
  intros Hnd. apply NoDup_fmap_2_strong; [|done].
  intros [[a b] k] [[a' b'] k'] _ _. rewrite !extension_event_relation.
  by intros [_ [= -> -> ->]]%relation_event_inj.
Qed.

Lemma elem_of_filtered_keys g g' key :
  generation_ok g → generation_ok g' →
  key ∈ filter (λ k, k ∉ extension_relations g') (extension_relations g) ↔
  (core_relation_limit <= key.2)%N ∧ MkRelation key.1.1 key.1.2 key.2 ∈ relations_of g ∧
  MkRelation key.1.1 key.1.2 key.2 ∉ relations_of g'.
Proof.
  intros Hg Hg'. destruct key as [[a b] k]. cbn.
  rewrite list_elem_of_filter, (go_keys _ Hg), (go_keys _ Hg'). tauto.
Qed.

Section deriving.
Context (before after : Generation) (Hb : generation_ok before) (Ha : generation_ok after).

Lemma delta_exact :
  let d := graph_delta before after in
  (∀ n, n ∈ added_nodes d ↔ n ∈ ids_of after ∧ n ∉ ids_of before) ∧
  (∀ n, n ∈ removed_nodes d ↔ n ∈ ids_of before ∧ n ∉ ids_of after) ∧
  (∀ s t, (s, t) ∈ added_edges d ↔ arc (gen_relations after) s t ∧ ¬ arc (gen_relations before) s t) ∧
  (∀ s t, (s, t) ∈ removed_edges d ↔ arc (gen_relations before) s t ∧ ¬ arc (gen_relations after) s t).
Proof.
  pose proof (graph_difference_exact N.eqb _ _ (go_wf _ Hb) (go_wf _ Ha)) as (H1 & H2 & H3 & H4 & _).
  split_and!; [..|done|done]; intros n.
  - rewrite H1. by rewrite (go_nodes _ Ha), (go_nodes _ Hb).
  - rewrite H2. by rewrite (go_nodes _ Ha), (go_nodes _ Hb).
Qed.

(** The pieces, with their tags. *)
Definition event_pieces : list (nat * list TreeEvent) :=
  let d := graph_delta before after in
  [(0, node_event TreeEventKind.NodeRemoved before <$> removed_nodes d);
   (1, node_event TreeEventKind.NodeAdded after <$> added_nodes d);
   (2, node_event TreeEventKind.NodeChanged after <$>
         filter (λ id, changed_at before after id = true) (sorted_keys (node_indexes after)));
   (3, removed_edges d ≫= edge_events TreeEventKind.RelationRemoved before);
   (4, added_edges d ≫= edge_events TreeEventKind.RelationAdded after);
   (5, changed_edges d ≫= changed_edge_events before after);
   (6, extension_event TreeEventKind.RelationRemoved before <$>
         filter (λ key, key ∉ extension_relations after) (extension_relations before));
   (7, extension_event TreeEventKind.RelationAdded after <$>
         filter (λ key, key ∉ extension_relations before) (extension_relations after))]%nat.

Lemma derive_pieces : derive_same_scope_events before after = Some (event_pieces ≫= snd).
Proof.
  unfold derive_same_scope_events. rewrite changed_events_spec; [|done|done|].
  - cbn [mbind option_bind]. unfold event_pieces. cbn [list_bind mbind snd]. by rewrite app_nil_r.
  - intros id Hid%elem_of_sorted_keys. by apply index_domain.
Qed.

Lemma unchanged_edge s t :
  arc (gen_relations before) s t ∧ ¬ arc (gen_relations after) s t ∨
  arc (gen_relations after) s t ∧ ¬ arc (gen_relations before) s t →
  (s, t) ∉ changed_edges (graph_delta before after).
Proof.
  intros H Hc. apply changed_edge_symmetric in Hc as (x & y & Hx & Hy & _); [|done|done]. cbn in Hx, Hy.
  apply edge_payload_Some in Hx, Hy; [|by apply go_wf..].
  unfold arc in H. naive_solver.
Qed.

Lemma event_pieces_tagged :
  Forall (λ p, NoDup p.2 ∧ ∀ e, e ∈ p.2 → event_piece before after e = p.1) event_pieces.
Proof.
  pose proof delta_exact as (_ & _ & Hadd & Hrem).
  pose proof (graph_difference_NoDup N.eqb _ _ (go_wf _ Hb) (go_wf _ Ha)) as (Hn1 & Hn2 & Hn3 & Hn4 & _).
  unfold event_pieces. rewrite !Forall_cons. cbn [fst snd]. split_and!; try apply Forall_nil_2.
  - apply NoDup_fmap_2_strong; [|done]. intros ? ? _ _. apply node_event_inj.
  - by intros e (n & -> & _)%list_elem_of_fmap.
  - apply NoDup_fmap_2_strong; [|done]. intros ? ? _ _. apply node_event_inj.
  - by intros e (n & -> & _)%list_elem_of_fmap.
  - apply NoDup_fmap_2_strong; [intros ? ? _ _; apply node_event_inj|].
    apply NoDup_filter, sorted_keys_NoDup.
  - by intros e (n & -> & _)%list_elem_of_fmap.
  - by apply edge_events_NoDup.
  - intros e ([s t] & (k & Hk & _ & ->)%elem_of_edge_events & Hin)%list_elem_of_bind; [|done].
    unfold event_piece. cbn. rewrite bool_decide_eq_true_2 by done.
    rewrite bool_decide_eq_false_2; [done|]. apply unchanged_edge. left. by apply Hrem.
  - by apply edge_events_NoDup.
  - intros e ([s t] & (k & Hk & _ & ->)%elem_of_edge_events & Hin)%list_elem_of_bind; [|done].
    unfold event_piece. cbn. rewrite bool_decide_eq_true_2 by done.
    rewrite bool_decide_eq_false_2; [done|]. apply unchanged_edge. right. by apply Hadd.
  - by apply changed_edge_events_NoDup.
  - intros e He. apply elem_of_changed_edge_events in He as (a & b & k & Hk & Hin & H); [|done..].
    destruct H as [(_ & _ & ->)|(_ & _ & ->)]; unfold event_piece; cbn; by rewrite !bool_decide_eq_true_2.
  - apply extension_events_NoDup, NoDup_filter, go_keys_nodup, Hb.
  - intros e ([[a b] k] & -> & (Hk & _)%elem_of_filtered_keys)%list_elem_of_fmap; [|done..].
    unfold event_piece. cbn in *. by rewrite bool_decide_eq_false_2 by lia.
  - apply extension_events_NoDup, NoDup_filter, go_keys_nodup, Ha.
  - intros e ([[a b] k] & -> & (Hk & _)%elem_of_filtered_keys)%list_elem_of_fmap; [|done..].
    unfold event_piece. cbn in *. by rewrite bool_decide_eq_false_2 by lia.
Qed.
End deriving.

Lemma derive_spec before after :
  generation_ok before → generation_ok after →
  ∃ events, derive_same_scope_events before after = Some events ∧ NoDup events ∧
    ∀ e, e ∈ events ↔ event_due before after e.
Proof.
  intros Hb Ha. pose proof (derive_pieces before after Hb Ha) as Hd. eexists. split; [exact Hd|].
  split.
  { apply (NoDup_tagged (event_piece before after)); [|by apply event_pieces_tagged].
    cbn. repeat (apply NoDup_cons; split; [set_solver|]). constructor. }
  pose proof (delta_exact before after Hb Ha) as (Hna & Hnr & Hea & Her).
  intros e. unfold event_pieces. cbn [list_bind mbind snd]. rewrite app_nil_r, !elem_of_app.
  rewrite !list_elem_of_fmap, elem_of_changed_edge_events, !list_elem_of_bind by done.
  setoid_rewrite elem_of_edge_events; [|done..]. setoid_rewrite elem_of_filtered_keys; [|done..].
  setoid_rewrite list_elem_of_filter. setoid_rewrite elem_of_sorted_keys. split.
  - intros [(n & -> & Hn)|[(n & -> & Hn)|[(n & -> & Hc & Hn)|[H|[H|[H|[H|H]]]]]]].
    + apply Hnr in Hn as []. by apply due_removed.
    + apply Hna in Hn as []. by apply due_added.
    + unfold changed_at in Hc.
      destruct (snapshot_node (gen_snapshot before) n) as [l|] eqn:El; [|done].
      destruct (snapshot_node (gen_snapshot after) n) as [r|] eqn:Er; [|done].
      apply snapshot_node_Some in El as [Hl <-], Er as [Hr Hid]. rewrite <- Hid.
      apply negb_true_iff in Hc. eapply due_changed; [done..|].
      rewrite <-same_record_spec by (eapply record_ids_NoDup_elem; [|done]; done). by rewrite Hc.
    + destruct H as ([s t] & (k & Hk & Hin & ->) & [_ Hno]%Her). cbn in *.
      apply due_unrelated; [done|]. intros Hin'. apply Hno, go_arcs; [done|eauto].
    + destruct H as ([s t] & (k & Hk & Hin & ->) & [_ Hno]%Hea). cbn in *.
      apply due_related; [done|]. intros Hin'. apply Hno, go_arcs; [done|eauto].
    + destruct H as (a & b & k & _ & _ & [(? & ? & ->)|(? & ? & ->)]);
        [by apply due_unrelated|by apply due_related].
    + destruct H as (key & -> & _ & ? & ?). rewrite extension_event_relation. by apply due_unrelated.
    + destruct H as (key & -> & _ & ? & ?). rewrite extension_event_relation. by apply due_related.
  - intros [n Hn Hn'|n Hn Hn'|l r Hl Hr Hid Hsame|[a b k] Hin Hout|[a b k] Hin Hout].
    + left. exists n. split; [done|]. by apply Hnr.
    + right; left. exists n. split; [done|]. by apply Hna.
    + do 2 right; left. exists (node_id r). split; [done|]. unfold changed_at.
      rewrite (snapshot_node_unique _ l), (snapshot_node_unique _ r);
        [|apply Ha|done|done|apply Hb|done|done].
      rewrite <-same_record_spec in Hsame by (eapply record_ids_NoDup_elem; [|done]; done).
      apply not_true_is_false in Hsame. rewrite Hsame. split; [done|].
      apply index_domain; [done|]. by apply list_elem_of_fmap_2.
    + destruct (decide (core_relation_limit <= k)%N) as [Hk|Hk].
      { do 6 right; left. exists (a, b, k). by rewrite extension_event_relation. }
      destruct (lost_relation_edge before after a b k) as [Harc [Hno|Hch]]; [done|done|lia|done|done| |].
      * do 3 right; left. exists (a, b). split; [|by apply Her]. exists k. cbn. split_and!; [lia|done|done].
      * do 5 right; left. exists a, b, k. split; [lia|]. split; [by apply changed_edge_symmetric|]. left. done.
    + destruct (decide (core_relation_limit <= k)%N) as [Hk|Hk].
      { do 7 right. exists (a, b, k). by rewrite extension_event_relation. }
      destruct (lost_relation_edge after before a b k) as [Harc [Hno|Hch]]; [done|done|lia|done|done| |].
      * do 4 right; left. exists (a, b). split; [|by apply Hea]. exists k. cbn. split_and!; [lia|done|done].
      * do 5 right; left. exists a, b, k. split; [lia|]. split; [|right; done].
        apply changed_edge_symmetric; [done..|]. cbn. destruct Hch as (p & q & Hp & Hq & Hne).
        exists q, p. by rewrite N.eqb_sym.
Qed.

(** ** All of one generation *)

Definition event_of (kn kr : TreeEventKind) (g : Generation) (e : TreeEvent) : Prop :=
  (∃ n, n ∈ ids_of g ∧ e = node_event kn g n) ∨
  (∃ r, r ∈ relations_of g ∧ e = relation_event kr g r).

Lemma listing_spec kn kr g (ns : list NodeId) (edges : list (NodeId * NodeId)) :
  generation_ok g → kn ≠ kr → NoDup ns → NoDup edges →
  (∀ n, n ∈ ns ↔ n ∈ nodes (gen_relations g)) →
  (∀ s t, (s, t) ∈ edges ↔ arc (gen_relations g) s t) →
  let events := (node_event kn g <$> ns) ++ (edges ≫= edge_events kr g) ++
    (extension_event kr g <$> extension_relations g) in
  NoDup events ∧ ∀ e, e ∈ events ↔ event_of kn kr g e.
Proof.
  intros Hg Hk Hn He Hns Hedges events. split.
  - set (tag := λ e, if decide (te_kind e = kn) then 0%nat
      else if decide (te_relation e < core_relation_limit)%N then 1%nat else 2%nat).
    replace events with ([(0, node_event kn g <$> ns); (1, edges ≫= edge_events kr g);
      (2, extension_event kr g <$> extension_relations g)]%nat ≫= snd);
      [|cbn [list_bind mbind snd]; by rewrite app_nil_r].
    apply (NoDup_tagged tag); [cbn; repeat (apply NoDup_cons; split; [set_solver|]); constructor|].
    rewrite !Forall_cons. cbn [fst snd]. split_and!; try apply Forall_nil_2.
    + apply NoDup_fmap_2_strong; [|done]. intros ? ? _ _. apply node_event_inj.
    + intros e (n & -> & _)%list_elem_of_fmap. unfold tag. by rewrite decide_True.
    + by apply edge_events_NoDup.
    + intros e (p & (k & Hlt & _ & ->)%elem_of_edge_events & _)%list_elem_of_bind; [|done].
      unfold tag. cbn. by rewrite decide_False, decide_True.
    + apply extension_events_NoDup, go_keys_nodup, Hg.
    + intros e ([[a b] k] & -> & [Hge _]%(go_keys _ Hg))%list_elem_of_fmap.
      unfold tag. cbn. rewrite !decide_False; [done|lia|done].
  - intros e. unfold events, event_of. rewrite !elem_of_app, !list_elem_of_fmap, list_elem_of_bind.
    setoid_rewrite elem_of_edge_events; [|done]. setoid_rewrite Hns.
    setoid_rewrite (go_nodes _ Hg). split.
    + intros [(n & -> & ?)|[([a b] & (k & _ & ? & ->) & _)|([[a b] k] & -> & [_ ?]%(go_keys _ Hg))]];
        [left|right..]; eauto.
    + intros [(n & ? & ->)|([a b k] & Hin & ->)]; [left; eauto|right].
      destruct (decide (core_relation_limit <= k)%N) as [Hge|Hlt].
      * right. exists (a, b, k). split; [done|]. by apply go_keys.
      * left. exists (a, b). split; [exists k; cbn; split_and!; [lia|done|done]|].
        apply Hedges, go_arcs; [done|]. exists k. split; [lia|done].
Qed.

Lemma introduced_spec g :
  generation_ok g → NoDup (introduced g) ∧
  ∀ e, e ∈ introduced g ↔ event_of TreeEventKind.NodeAdded TreeEventKind.RelationAdded g e.
Proof.
  intros Hg. pose proof (empty_graph_WF (K := NodeId) (P := RelationSet)) as He.
  destruct (graph_difference_exact N.eqb _ _ He (go_wf _ Hg)) as (Hn & _ & Ha & _).
  destruct (graph_difference_NoDup N.eqb _ _ He (go_wf _ Hg)) as (? & _ & ? & _).
  apply listing_spec; [done|done|done|done| |].
  - intros n. rewrite Hn. split; [tauto|]. intros ?. split; [done|]. by intros ?%elem_of_nil.
  - intros s t. rewrite Ha. split; [tauto|]. intros ?. split; [done|]. by intros [? ?%elem_of_nil].
Qed.

Lemma withdrawn_spec g :
  generation_ok g → NoDup (withdrawn g) ∧
  ∀ e, e ∈ withdrawn g ↔ event_of TreeEventKind.NodeRemoved TreeEventKind.RelationRemoved g e.
Proof.
  intros Hg. pose proof (empty_graph_WF (K := NodeId) (P := RelationSet)) as He.
  destruct (graph_difference_exact N.eqb _ _ (go_wf _ Hg) He) as (_ & Hn & _ & Ha & _).
  destruct (graph_difference_NoDup N.eqb _ _ (go_wf _ Hg) He) as (_ & ? & _ & ? & _).
  apply listing_spec; [done|done|done|done| |].
  - intros n. rewrite Hn. split; [tauto|]. intros ?. split; [done|]. by intros ?%elem_of_nil.
  - intros s t. rewrite Ha. split; [tauto|]. intros ?. split; [done|]. by intros [? ?%elem_of_nil].
Qed.
