(* ===== verification/TreeDelta.v ===== *)
(** Deltas against the content of a tree: the list surgery of [snapshot_from_delta]
    in [kernel/graph/tree_store.cpp] implements an abstract update of a finite map of
    records and a set of relations. *)

From stdpp Require Import pretty.
From S2P Require Import Prelude Graph Errors UiTree TreeStore TreeCheck TreeGeneration.

Local Open Scope list_scope.

(** ** The content of a tree *)

Record TreeContent := MkContent {
  content_nodes : gmap NodeId UiNodeRecord;
  content_relations : gset UiRelation
}.

Definition map_of (nodes : list UiNodeRecord) : gmap NodeId UiNodeRecord :=
  list_to_map ((λ r, (node_id r, r)) <$> nodes).

Definition content_of (s : UiSnapshot) : TreeContent :=
  MkContent (map_of (snap_nodes s)) (list_to_set (snap_relations s)).

Definition content_contains (c : TreeContent) : relation NodeId :=
  λ a b, MkRelation a b relation_contains ∈ content_relations c.

(** A content that is a tree. *)
Record content_ok (c : TreeContent) : Prop := {
  co_records : map_Forall (λ _ r, record_ok r) (content_nodes c);
  co_relations : set_Forall (λ r, relation_ok (elements (dom (content_nodes c))) r)
    (content_relations c);
  co_acyclic : ∀ n, ¬ tc (content_contains c) n n
}.

Lemma map_of_cons r ns : map_of (r :: ns) = <[node_id r := r]> (map_of ns).
Proof. done. Qed.

Lemma map_of_Some ns id r :
  NoDup (node_id <$> ns) → map_of ns !! id = Some r ↔ r ∈ ns ∧ node_id r = id.
Proof.
  intros Hnd. unfold map_of. rewrite <- elem_of_list_to_map.
  - rewrite list_elem_of_fmap. naive_solver.
  - rewrite <- list_fmap_compose. done.
Qed.

Lemma map_of_is_Some ns id : is_Some (map_of ns !! id) ↔ id ∈ node_id <$> ns.
Proof.
  induction ns as [|r ns IH]; [cbn; rewrite lookup_empty, elem_of_nil; split; [by intros []|done]|].
  rewrite map_of_cons, lookup_insert_is_Some', fmap_cons, elem_of_cons, IH. naive_solver.
Qed.

Lemma dom_map_of ns : dom (map_of ns) = list_to_set (node_id <$> ns).
Proof. apply set_eq. intros id. by rewrite elem_of_dom, map_of_is_Some, elem_of_list_to_set. Qed.

Lemma tree_ok_content m ns roots rels :
  tree_ok ns rels ↔ NoDup (node_id <$> ns) ∧ NoDup rels ∧ content_ok (content_of (from_records m ns roots rels)).
Proof.
  set (c := content_of _).
  assert (∀ r, relation_ok (elements (dom (content_nodes c))) r ↔ relation_ok (node_id <$> ns) r) as Hrel.
  { intros r. unfold relation_ok. change (content_nodes c) with (map_of ns). rewrite dom_map_of, !elem_of_elements, !elem_of_list_to_set.
    done. }
  assert (∀ a b, content_contains c a b ↔ containment rels a b) as Hcon.
  { intros a b. unfold content_contains, containment.
    change (content_relations c) with (list_to_set rels : gset UiRelation).
    by rewrite elem_of_list_to_set. }
  split.
  - intros [Hnd Hrec Hdist Hr Hac]. split_and!; [done..|]. split.
    + intros id r Hid. apply map_of_Some in Hid as [Hin _]; [|done].
      rewrite Forall_forall in Hrec. by apply Hrec.
    + intros r Hin. cbn in Hin. rewrite elem_of_list_to_set in Hin. apply Hrel.
      rewrite Forall_forall in Hr. by apply Hr.
    + intros n Hn. apply (Hac n). revert Hn. apply tc_iff. done.
  - intros (Hnd & Hdist & [Hrec Hr Hac]). split; [done| |done| |].
    + apply Forall_forall. intros r Hin. apply (Hrec (node_id r)). by apply map_of_Some.
    + apply Forall_forall. intros r Hin. apply Hrel, Hr. cbn. by apply elem_of_list_to_set.
    + intros n Hn. apply (Hac n). revert Hn. apply tc_iff. apply Hcon.
Qed.

(** ** The abstract update *)

Definition spec_change (c : gset UiRelation) (change : RelationChange) : option (gset UiRelation) :=
  let r := MkRelation (change_source change) (change_target change) (change_relation change) in
  match change_kind change with
  | RelationChangeKind.Add => if decide (r ∈ c) then None else Some ({[r]} ∪ c)
  | RelationChangeKind.Remove => if decide (r ∈ c) then Some (c ∖ {[r]}) else None
  end.

Fixpoint spec_changes (c : gset UiRelation) (changes : list RelationChange)
    : option (gset UiRelation) :=
  match changes with
  | [] => Some c
  | change :: rest => c ← spec_change c change; spec_changes c rest
  end.

(** New nodes have new identities, changed and removed ones are there, no list names a
    node twice; removing a node removes its relations, before the relations change. *)
Definition delta_fits (c : TreeContent) (delta : UiDelta) : Prop :=
  let added := node_id <$> delta_added delta in
  let changed := node_id <$> delta_changed delta in
  let known := dom (content_nodes c) ∪ list_to_set added in
  NoDup added ∧ (∀ id, id ∈ added → id ∉ dom (content_nodes c)) ∧
  NoDup changed ∧ (∀ id, id ∈ changed → id ∈ known) ∧
  NoDup (delta_removed delta) ∧ (∀ id, id ∈ delta_removed delta → id ∈ known).

Definition delta_nodes (c : TreeContent) (delta : UiDelta) : gmap NodeId UiNodeRecord :=
  filter (λ p, p.1 ∉ delta_removed delta)
    (map_of (delta_changed delta) ∪ (map_of (delta_added delta) ∪ content_nodes c)).

Definition kept_relations (removed : list NodeId) (rels : gset UiRelation) : gset UiRelation :=
  filter (λ r, rel_source r ∉ removed ∧ rel_target r ∉ removed) rels.

(** [c'] is what [delta] makes of [c]. *)
Definition delta_spec (c : TreeContent) (delta : UiDelta) (c' : TreeContent) : Prop :=
  delta_fits c delta ∧ content_nodes c' = delta_nodes c delta ∧
  spec_changes (kept_relations (delta_removed delta) (content_relations c)) (relation_changes delta)
    = Some (content_relations c').

(** ** The list surgery *)

Lemma add_nodes_spec m seen added ns :
  (∀ id, id ∈ seen → id ∈ node_id <$> ns) →
  match add_nodes_of_delta m seen added ns with
  | Ok ns' => ns' = ns ++ added ∧ NoDup (node_id <$> added) ∧
      ∀ id, id ∈ node_id <$> added → id ∉ node_id <$> ns
  | Err _ => ¬ (NoDup (node_id <$> added) ∧ ∀ id, id ∈ node_id <$> added → id ∉ node_id <$> ns)
  end.
Proof.
  revert seen ns. induction added as [|r added IH]; intros seen ns Hseen; cbn [add_nodes_of_delta].
  { split_and!; [by rewrite app_nil_r|constructor|]. intros id Hid. by apply elem_of_nil in Hid. }
  rewrite fmap_cons. case_decide as Hd.
  { intros [_ H]. apply (H (node_id r)); [by left|]. destruct Hd; [by apply Hseen|done]. }
  specialize (IH ({[node_id r]} ∪ seen) (ns ++ [r])). rewrite fmap_app in IH. cbn in IH.
  destruct (add_nodes_of_delta _ _ _ _) as [ns'|e].
  - destruct IH as (-> & Hnd & Hf); [set_solver|]. rewrite <- app_assoc. split; [done|].
    rewrite NoDup_cons. set_solver.
  - rewrite NoDup_cons. intros [[Hn Hnd] Hf]. apply IH; [set_solver|]. split; [done|]. set_solver.
Qed.

Lemma replace_first_spec r ns :
  NoDup (node_id <$> ns) →
  match replace_first r ns with
  | Some ns' => node_id r ∈ node_id <$> ns ∧ node_id <$> ns' = node_id <$> ns ∧
      map_of ns' = <[node_id r := r]> (map_of ns)
  | None => node_id r ∉ node_id <$> ns
  end.
Proof.
  induction ns as [|x ns IH]; [intros _; apply not_elem_of_nil|]. cbn [replace_first].
  intros [Hx Hnd]%NoDup_cons. rewrite fmap_cons. case_decide as He.
  - rewrite He. split_and!; [by left|by rewrite fmap_cons|]. rewrite !map_of_cons, He, insert_insert.
    by case_decide.
  - specialize (IH Hnd). destruct (replace_first r ns) as [ns'|]; cbn [fmap option_fmap option_map].
    + destruct IH as (Hin & Hids & Hmap). split_and!; [by right|by rewrite fmap_cons, Hids|].
      rewrite !map_of_cons, Hmap. by apply insert_insert_ne.
    + rewrite elem_of_cons. naive_solver.
Qed.

Lemma change_nodes_spec m seen changed ns :
  NoDup (node_id <$> ns) →
  match change_nodes m seen changed ns with
  | Ok ns' => node_id <$> ns' = node_id <$> ns ∧ map_of ns' = map_of changed ∪ map_of ns ∧
      NoDup (node_id <$> changed) ∧
      (∀ id, id ∈ node_id <$> changed → id ∉ seen ∧ id ∈ node_id <$> ns)
  | Err _ => ¬ (NoDup (node_id <$> changed) ∧
      ∀ id, id ∈ node_id <$> changed → id ∉ seen ∧ id ∈ node_id <$> ns)
  end.
Proof.
  revert seen ns. induction changed as [|r changed IH]; intros seen ns Hnd; cbn [change_nodes].
  { split_and!; [done|symmetry; apply (map_empty_union (map_of ns))|constructor|]. intros id Hid. by apply elem_of_nil in Hid. }
  rewrite fmap_cons. case_decide as Hd; [intros [_ H]; by destruct (H (node_id r)); [left|]|].
  pose proof (replace_first_spec r ns Hnd) as Hr. destruct (replace_first r ns) as [ns1|].
  2: { intros [_ H]. by destruct (H (node_id r)); [left|]. }
  destruct Hr as (Hin & Hids & Hmap). specialize (IH ({[node_id r]} ∪ seen) ns1).
  rewrite Hids, Hmap in IH. specialize (IH Hnd). destruct (change_nodes _ _ _ _) as [ns'|e].
  - destruct IH as (Hids' & Hmap' & Hndc & Hc). assert (node_id r ∉ node_id <$> changed) as Hr by set_solver.
    split_and!; [done| |by apply NoDup_cons|set_solver].
    rewrite Hmap', map_of_cons, <- insert_union_r; [by rewrite insert_union_l|].
    apply eq_None_not_Some. by rewrite map_of_is_Some.
  - rewrite NoDup_cons. intros [[Hn Hndc] Hc]. apply IH. split; [done|]. set_solver.
Qed.

Lemma kept_length (ns : list UiNodeRecord) id :
  length (filter (λ r, node_id r ≠ id) ns) = length ns ↔ id ∉ node_id <$> ns.
Proof.
  induction ns as [|r ns IH]; [split; [intros _; apply not_elem_of_nil|done]|].
  rewrite fmap_cons, filter_cons, elem_of_cons. pose proof (length_filter (λ r, node_id r ≠ id) ns) as Hle.
  case_decide as Hd; cbn [length]; split; intros H.
  - intros [->|Hin]; [done|]. apply IH; [lia|done].
  - f_equal. apply IH. tauto.
  - lia.
  - exfalso. destruct (decide (node_id r = id)); [naive_solver|done].
Qed.

Lemma remove_nodes_spec m seen removed ns rels :
  match remove_nodes m seen removed ns rels with
  | Ok (ns', rels') =>
      ns' = filter (λ r, node_id r ∉ removed) ns ∧
      rels' = filter (λ r, rel_source r ∉ removed ∧ rel_target r ∉ removed) rels ∧
      NoDup removed ∧ ∀ id, id ∈ removed → id ∉ seen ∧ id ∈ node_id <$> ns
  | Err _ => ¬ (NoDup removed ∧ ∀ id, id ∈ removed → id ∉ seen ∧ id ∈ node_id <$> ns)
  end.
Proof.
  revert seen ns rels. induction removed as [|id removed IH]; intros seen ns rels; cbn [remove_nodes].
  { assert (∀ {A} (Q : A → Prop) `{!∀ x, Decision (Q x)} (l : list A), (∀ x, Q x) → filter Q l = l)
      as Hall.
    { intros A Q ? l HQ. induction l as [|x l IH]; [done|]. by rewrite filter_cons_True, IH. }
    rewrite !Hall by (intros; split_and?; apply not_elem_of_nil).
    split_and!; [done|done|apply NoDup_nil_2|intros id Hid; by apply elem_of_nil in Hid]. }
  case_decide as Hd; [intros [_ H]; by destruct (H id); [left|]|].
  destruct (decide (length _ = length ns)) as [Hl|Hl].
  { intros [_ H]. apply kept_length in Hl. by destruct (H id); [left|]. }
  assert (id ∈ node_id <$> ns) as Hin by (apply dec_stable; by rewrite <- kept_length).
  assert (∀ x, x ∈ node_id <$> filter (λ r, node_id r ≠ id) ns ↔ x ∈ node_id <$> ns ∧ x ≠ id) as Hids.
  { intros x. rewrite !list_elem_of_fmap. setoid_rewrite list_elem_of_filter. naive_solver. }
  specialize (IH ({[id]} ∪ seen) (filter (λ r, node_id r ≠ id) ns)
    (filter (λ r, ¬ (rel_source r = id ∨ rel_target r = id)) rels)).
  destruct (remove_nodes _ _ _ _ _) as [[ns' rels']|e].
  - destruct IH as (-> & -> & Hnd & Hr). split_and!.
    + rewrite list_filter_filter. apply list_filter_ext. intros r _. set_solver.
    + rewrite list_filter_filter. apply list_filter_ext. intros r _. set_solver.
    + apply NoDup_cons. split; [|done]. intros Hid. apply Hr in Hid as [Hid _]. set_solver.
    + intros x [->|Hx]%elem_of_cons; [done|]. apply Hr in Hx as [Hx [? ?]%Hids]. set_solver.
  - intros [[Hn Hnd]%NoDup_cons Hr]. apply IH. split; [done|]. intros x Hx. rewrite Hids. set_solver.
Qed.

Lemma erase_first_spec r rels :
  NoDup rels →
  match erase_first r rels with
  | Some rels' => r ∈ rels ∧ NoDup rels' ∧
      (list_to_set rels' : gset UiRelation) = list_to_set rels ∖ {[r]} ∧ rels' ⊆ rels
  | None => r ∉ rels
  end.
Proof.
  induction rels as [|x rels IH]; [intros _; apply not_elem_of_nil|]. cbn [erase_first].
  intros [Hx Hnd]%NoDup_cons. case_decide as He.
  - subst x. split_and!; [by left|done|set_solver|set_solver].
  - specialize (IH Hnd). destruct (erase_first r rels) as [rels'|]; cbn [fmap option_fmap option_map].
    + destruct IH as (Hin & Hnd' & Heq & Hsub). split_and!; [by right| |set_solver|set_solver].
      apply NoDup_cons. split; [|done]. set_solver.
    + set_solver.
Qed.

Lemma change_relations_spec m changes rels :
  NoDup rels →
  match change_relations m changes rels with
  | Ok rels' => NoDup rels' ∧ spec_changes (list_to_set rels) changes = Some (list_to_set rels')
  | Err _ => spec_changes (list_to_set rels) changes = None
  end.
Proof.
  revert rels. induction changes as [|[kind s t k] changes IH]; intros rels Hnd;
    cbn [change_relations spec_changes]; [done|].
  unfold spec_change. cbn [change_kind change_source change_target change_relation].
  set (r := MkRelation s t k). destruct kind.
  - rewrite (decide_True (P := RelationChangeKind.Add = _)) by done.
    rewrite (decide_ext (r ∈ (list_to_set rels : gset UiRelation)) (r ∈ rels)) by apply elem_of_list_to_set.
    case_decide as Hr; [done|]. cbn [mbind option_bind].
    replace ({[r]} ∪ list_to_set rels : gset UiRelation) with (list_to_set (rels ++ [r]) : gset UiRelation)
      by set_solver.
    apply IH. apply NoDup_app. split_and!; [done|set_solver|apply NoDup_singleton].
  - rewrite (decide_False (P := RelationChangeKind.Remove = _)) by done.
    pose proof (erase_first_spec r rels Hnd) as He. destruct (erase_first r rels) as [rels'|].
    + destruct He as (Hin & Hnd' & Heq & _). rewrite decide_True by (by apply elem_of_list_to_set).
      cbn [mbind option_bind]. rewrite <- Heq. by apply IH.
    + rewrite decide_False by (by rewrite elem_of_list_to_set). done.
Qed.

Lemma map_of_filter ns (removed : list NodeId) :
  NoDup (node_id <$> ns) →
  map_of (filter (λ r, node_id r ∉ removed) ns) = filter (λ p, p.1 ∉ removed) (map_of ns).
Proof.
  intros Hnd. apply map_eq. intros id. apply option_eq. intros r.
  assert (NoDup (node_id <$> filter (λ r, node_id r ∉ removed) ns)) as Hnd'.
  { eapply sublist_NoDup; [exact Hnd|]. apply fmap_sublist, sublist_filter. }
  rewrite map_of_Some, list_elem_of_filter, map_lookup_filter_Some, map_of_Some by done. naive_solver.
Qed.

Lemma map_of_app ns ns' : map_of (ns ++ ns') = map_of ns ∪ map_of ns'.
Proof. unfold map_of. by rewrite fmap_app, list_to_map_app. Qed.

(** ** The whole delta *)

(** A snapshot the store makes. *)
Definition checked (s : UiSnapshot) : Prop :=
  ∃ m ns roots rels, s = from_records m ns roots rels ∧ tree_ok ns rels ∧
    ∀ n, n ∈ roots ↔ n ∈ node_id <$> ns ∧ ∀ p, ¬ containment rels p n.

Lemma normalized_spec m ns supplied rels :
  ∃ res, normalized_snapshot m ns supplied rels = Some res ∧
  match res with
  | Ok s => checked s ∧ snap_metadata s = m ∧ snap_nodes s = ns ∧ snap_relations s = rels ∧
      tree_ok ns rels ∧ roots_ok ns rels supplied
  | Err _ => ¬ (tree_ok ns rels ∧ roots_ok ns rels supplied)
  end.
Proof.
  unfold normalized_snapshot.
  destruct (validate_spec m ns supplied rels) as ([roots|e] & -> & H); eexists; (split; [done|]).
  - destruct H as (Htree & Hroots & _ & Hin). split_and!; try done. by exists m, ns, roots, rels.
  - done.
Qed.

Lemma checked_generation s :
  checked s →
  if decide (N.of_nat (length (snap_nodes s)) <= max_dense_nodes)%N then
    ∃ g, build_generation s = Ok g ∧ gen_snapshot g = s ∧ generation_ok g
  else build_generation s =
    rejected ErrorCode.InvalidArgument "tree exceeds dense node index limit" (snap_metadata s).
Proof.
  intros (m & ns & roots & rels & -> & Htree & Hroots).
  apply (build_generation_spec m ns roots rels Htree Hroots).
Qed.

Lemma content_of_eq s c :
  map_of (snap_nodes s) = content_nodes c →
  (list_to_set (snap_relations s) : gset UiRelation) = content_relations c → content_of s = c.
Proof. unfold content_of. destruct c as [ns rels]. cbn. by intros -> ->. Qed.

Lemma snapshot_content_ok s :
  NoDup (node_id <$> snap_nodes s) → NoDup (snap_relations s) →
  tree_ok (snap_nodes s) (snap_relations s) ↔ content_ok (content_of s).
Proof.
  intros Hn Hr. rewrite (tree_ok_content (snap_metadata s) _ (snap_roots s)).
  change (content_of (from_records _ _ _ _)) with (content_of s). tauto.
Qed.

Lemma roots_ok_nil ns rels : roots_ok ns rels [].
Proof. split_and!; [constructor|set_solver|]. intros r p Hr. by apply elem_of_nil in Hr. Qed.

Lemma delta_fits_lists ns rels delta m roots :
  delta_fits (content_of (from_records m ns roots rels)) delta ↔
  (NoDup (node_id <$> delta_added delta) ∧
    ∀ id, id ∈ node_id <$> delta_added delta → id ∉ node_id <$> ns) ∧
  (NoDup (node_id <$> delta_changed delta) ∧
    ∀ id, id ∈ node_id <$> delta_changed delta → id ∉ (∅ : gset NodeId) ∧
      id ∈ node_id <$> ns ++ delta_added delta) ∧
  (NoDup (delta_removed delta) ∧
    ∀ id, id ∈ delta_removed delta → id ∉ (∅ : gset NodeId) ∧
      id ∈ node_id <$> ns ++ delta_added delta).
Proof.
  unfold delta_fits. change (content_nodes (content_of _)) with (map_of ns). rewrite dom_map_of.
  setoid_rewrite elem_of_union. setoid_rewrite elem_of_list_to_set. rewrite fmap_app.
  setoid_rewrite elem_of_app. split; intros; split_and!; try tauto; naive_solver set_solver.
Qed.

Lemma kept_relations_list (removed : list NodeId) rels :
  (list_to_set (filter (λ r, rel_source r ∉ removed ∧ rel_target r ∉ removed) rels) : gset UiRelation)
    = kept_relations removed (list_to_set rels).
Proof.
  apply set_eq. intros r. unfold kept_relations.
  by rewrite elem_of_list_to_set, list_elem_of_filter, elem_of_filter, elem_of_list_to_set.
Qed.

(** [snapshot_from_delta] answers with a tree of the content [delta_spec] describes, and
    refuses exactly the deltas that do not fit or do not leave a tree. *)
Lemma snapshot_from_delta_spec g delta :
  generation_ok g →
  ∃ res, snapshot_from_delta g delta = Some res ∧
  match res with
  | Ok s => checked s ∧ snap_metadata s = delta_metadata delta ∧
      delta_spec (content_of (gen_snapshot g)) delta (content_of s) ∧ content_ok (content_of s)
  | Err _ => ¬ ∃ c, delta_spec (content_of (gen_snapshot g)) delta c ∧ content_ok c
  end.
Proof.
  intros Hg. pose proof (go_tree _ Hg) as [Hnd _ Hdist _ _]. pose proof (go_shape _ Hg) as Hshape.
  unfold snapshot_from_delta. fold (nodes_of g) (relations_of g).
  set (ns := nodes_of g) in *. set (rels := relations_of g) in *.
  rewrite Hshape. fold ns rels. unfold delta_spec.
  pose proof (delta_fits_lists ns rels delta (gen_metadata g) (snap_roots (gen_snapshot g))) as Hfits.
  pose proof (add_nodes_spec (delta_metadata delta) ∅ (delta_added delta) ns) as Ha.
  destruct (add_nodes_of_delta _ _ _ _) as [ns1|e]; [|eexists; split; [done|]].
  2: { intros (c & (Hfit%Hfits & _) & _). apply Ha; [set_solver|]. tauto. }
  destruct Ha as (-> & Hnda & Hfa); [set_solver|].
  assert (NoDup (node_id <$> ns ++ delta_added delta)) as Hnd1.
  { rewrite fmap_app. apply NoDup_app. split_and!; [done| |done]. intros id Hid Hid'. by apply (Hfa id). }
  pose proof (change_nodes_spec (delta_metadata delta) ∅ (delta_changed delta) _ Hnd1) as Hc.
  destruct (change_nodes _ _ _ _) as [ns2|e]; [|eexists; split; [done|]].
  2: { intros (c & (Hfit%Hfits & _) & _). apply Hc. tauto. }
  destruct Hc as (Hids2 & Hmap2 & Hndc & Hfc).
  pose proof (remove_nodes_spec (delta_metadata delta) ∅ (delta_removed delta) ns2 rels) as Hr.
  rewrite Hids2 in Hr. destruct (remove_nodes _ _ _ _ _) as [[ns3 rels3]|e]; [|eexists; split; [done|]].
  2: { intros (c & (Hfit%Hfits & _) & _). apply Hr. tauto. }
  destruct Hr as (-> & -> & Hndr & Hfr).
  set (removed := delta_removed delta) in *.
  set (rels3 := filter _ rels). assert (NoDup rels3) as Hdist3 by (by apply NoDup_filter).
  set (ns3 := filter _ ns2).
  assert (map_of ns3 = delta_nodes (content_of (from_records (gen_metadata g) ns
    (snap_roots (gen_snapshot g)) rels)) delta) as Hmap3.
  { unfold ns3. rewrite map_of_filter by (by rewrite Hids2). unfold delta_nodes. fold removed.
    rewrite Hmap2, map_of_app. change (content_nodes (content_of _)) with (map_of ns).
    f_equal. f_equal. apply map_union_comm. apply map_disjoint_spec. intros id x y Hx Hy.
    apply (Hfa id); apply map_of_is_Some; by eexists. }
  assert (NoDup (node_id <$> ns3)) as Hnd3.
  { eapply sublist_NoDup; [rewrite <- Hids2 in Hnd1; exact Hnd1|]. apply fmap_sublist, sublist_filter. }
  pose proof (change_relations_spec (delta_metadata delta) (relation_changes delta) rels3 Hdist3) as Hch.
  change (content_relations (content_of (from_records (gen_metadata g) ns (snap_roots (gen_snapshot g)) rels))) with (list_to_set rels : gset UiRelation).
  rewrite <- Hmap3, <- kept_relations_list. fold removed rels3.
  destruct (change_relations _ _ _) as [rels4|e]; [|eexists; split; [done|]].
  2: { intros (c & (_ & _ & Hs) & _). congruence. }
  destruct Hch as [Hdist4 Hspec].
  destruct (normalized_spec (delta_metadata delta) ns3 [] rels4) as ([s|e] & -> & Hn); eexists; (split; [done|]).
  - destruct Hn as (Hck & Hm & Hns & Hrels & Htree & _). split_and!; try done.
    + apply Hfits. tauto.
    + unfold content_of. cbn [content_nodes]. by rewrite Hns.
    + rewrite Hspec. unfold content_of. cbn [content_relations]. by rewrite Hrels.
    + apply snapshot_content_ok; rewrite ?Hns, ?Hrels; done.
  - intros ([cn cr] & (_ & Hcn & Hcr) & Hok). cbn in Hcn, Hcr. apply Hn. split; [|apply roots_ok_nil].
    apply (tree_ok_content (delta_metadata delta) ns3 [] rels4). split_and!; [done..|].
    rewrite Hspec in Hcr. injection Hcr as Hcr.
    rewrite (content_of_eq _ (MkContent cn cr)); done.
Qed.
