(* ===== verification/TreeStoreTheorems.v ===== *)
(** What the tree store guarantees: which updates it accepts and what it then holds,
    that the events of an update are exactly what changed, and that threads applying
    updates in any interleaving leave one ordered stream of events. *)

From stdpp Require Import pretty.
From S2P Require Import Prelude Graph GraphDelta Errors UiTree Locator Query QueryTheorems.
From S2P Require Import TreeStore TreeCheck TreeGeneration TreeDelta.

Local Open Scope list_scope.

(** ** Views

    What a consumer of the events can know: which nodes there are and how they are
    related. *)

Abbreviation View := (gset NodeId * gset UiRelation)%type.

Definition toggle {X} `{Countable X} (added removed : option X) (s : gset X) : gset X :=
  match added, removed with
  | Some x, _ => {[x]} ∪ s
  | None, Some x => s ∖ {[x]}
  | None, None => s
  end.

Definition when_kind {X} (kind : TreeEventKind) (f : TreeEvent → X) (e : TreeEvent) : option X :=
  if decide (te_kind e = kind) then Some (f e) else None.

Definition event_relation (e : TreeEvent) : UiRelation :=
  MkRelation (te_node e) (te_related e) (te_relation e).

Definition apply_event (v : View) (e : TreeEvent) : View :=
  (toggle (when_kind TreeEventKind.NodeAdded te_node e)
          (when_kind TreeEventKind.NodeRemoved te_node e) v.1,
   toggle (when_kind TreeEventKind.RelationAdded event_relation e)
          (when_kind TreeEventKind.RelationRemoved event_relation e) v.2).

Definition replay : View → list TreeEvent → View := foldl apply_event.

Definition view_of (g : option Generation) : View :=
  match g with
  | None => (∅, ∅)
  | Some g => (list_to_set (ids_of g), list_to_set (relations_of g))
  end.

Lemma when_kind_Some {X} kind (f : TreeEvent → X) e x :
  when_kind kind f e = Some x ↔ te_kind e = kind ∧ f e = x.
Proof. unfold when_kind. case_decide; naive_solver. Qed.

(** Adding and removing different things commutes. *)
Lemma elem_of_toggles {X} `{Countable X} (adds drops : TreeEvent → option X) l s x :
  (∀ e, is_Some (adds e) → drops e = None) →
  (∀ e e' y, e ∈ l → e' ∈ l → adds e = Some y → drops e' ≠ Some y) →
  x ∈ foldl (λ s e, toggle (adds e) (drops e) s) s l ↔
  (∃ e, e ∈ l ∧ adds e = Some x) ∨ (x ∈ s ∧ ∀ e, e ∈ l → drops e ≠ Some x).
Proof.
  intros Hex Hdis. induction l as [|e l IH] using rev_ind; [cbn; set_solver|].
  rewrite foldl_app. cbn [foldl]. set (s' := foldl _ s l) in *.
  assert (∀ e0, e0 ∈ l ++ [e] ↔ e0 ∈ l ∨ e0 = e) as Hin by set_solver.
  assert (x ∈ toggle (adds e) (drops e) s' ↔ adds e = Some x ∨ (x ∈ s' ∧ drops e ≠ Some x)) as ->.
  { unfold toggle. pose proof (Hex e) as Hexe. destruct (adds e) as [a|].
    - rewrite Hexe by eauto. rewrite elem_of_union, elem_of_singleton. naive_solver.
    - destruct (drops e) as [d|]; rewrite ?elem_of_difference, ?elem_of_singleton; naive_solver. }
  rewrite IH by (intros ? ? ? ? ?; apply Hdis; by apply Hin; left). setoid_rewrite Hin. split.
  - intros [Ha|[[(e0 & He & Ha)|[Hs Hd]] Hno]]; [left; eauto..|right]. naive_solver.
  - intros [(e0 & [He| ->] & Ha)|[Hs Hd]]; [right|by left|right; naive_solver].
    split; [left; eauto|]. apply (Hdis e0 e x); [by apply Hin; left|by apply Hin; right|done].
Qed.

Lemma replay_sets v l :
  replay v l =
    (foldl (λ s e, toggle (when_kind TreeEventKind.NodeAdded te_node e)
                     (when_kind TreeEventKind.NodeRemoved te_node e) s) v.1 l,
     foldl (λ s e, toggle (when_kind TreeEventKind.RelationAdded event_relation e)
                     (when_kind TreeEventKind.RelationRemoved event_relation e) s) v.2 l).
Proof.
  unfold replay. revert v. induction l as [|e l IH]; intros v; [by destruct v|]. apply IH.
Qed.

Lemma when_kind_exclusive {X} k k' (f f' : TreeEvent → X) e :
  k ≠ k' → is_Some (when_kind k f e) → when_kind k' f' e = None.
Proof.
  intros Hk [x [He _]%when_kind_Some]. unfold when_kind. rewrite decide_False; [done|congruence].
Qed.

(** What replaying events does, when none adds what another removes. *)
Lemma replay_spec v l :
  (∀ e e', e ∈ l → e' ∈ l → te_kind e = TreeEventKind.NodeAdded →
    te_kind e' = TreeEventKind.NodeRemoved → te_node e ≠ te_node e') →
  (∀ e e', e ∈ l → e' ∈ l → te_kind e = TreeEventKind.RelationAdded →
    te_kind e' = TreeEventKind.RelationRemoved → event_relation e ≠ event_relation e') →
  (∀ n, n ∈ (replay v l).1 ↔
    (∃ e, e ∈ l ∧ te_kind e = TreeEventKind.NodeAdded ∧ te_node e = n) ∨
    (n ∈ v.1 ∧ ¬ ∃ e, e ∈ l ∧ te_kind e = TreeEventKind.NodeRemoved ∧ te_node e = n)) ∧
  (∀ r, r ∈ (replay v l).2 ↔
    (∃ e, e ∈ l ∧ te_kind e = TreeEventKind.RelationAdded ∧ event_relation e = r) ∨
    (r ∈ v.2 ∧ ¬ ∃ e, e ∈ l ∧ te_kind e = TreeEventKind.RelationRemoved ∧ event_relation e = r)).
Proof.
  intros Hn Hr. rewrite replay_sets. cbn [fst snd]. split; intros x; rewrite elem_of_toggles;
    try (intros e; by apply when_kind_exclusive);
    try (intros e e' y He He'; rewrite !when_kind_Some; intros [? ?] [? ?];
         first [by apply (Hn e e'); congruence|by apply (Hr e e'); congruence]).
  all: setoid_rewrite when_kind_Some; naive_solver.
Qed.

(** ** The events of an update *)

(** What there is to report when [after] takes the place of [before]: in the same scope
    the difference, in another everything withdrawn and everything introduced. *)
Definition reported (before : option Generation) (after : Generation) (e : TreeEvent) : Prop :=
  match before with
  | None => event_of TreeEventKind.NodeAdded TreeEventKind.RelationAdded after e
  | Some before =>
    if decide (meta_runtime (gen_metadata before) = meta_runtime (gen_metadata after) ∧
               meta_tree (gen_metadata before) = meta_tree (gen_metadata after) ∧
               meta_epoch (gen_metadata before) = meta_epoch (gen_metadata after))
    then event_due before after e
    else event_of TreeEventKind.NodeRemoved TreeEventKind.RelationRemoved before e ∨
         event_of TreeEventKind.NodeAdded TreeEventKind.RelationAdded after e
  end.

Definition events_exact (before : option Generation) (after : Generation)
    (events : list TreeEvent) : Prop :=
  NoDup events ∧ (∀ e, e ∈ events ↔ reported before after e) ∧
  replay (view_of before) events = view_of (Some after).

Lemma view_eq (v w : View) : (∀ n, n ∈ v.1 ↔ n ∈ w.1) → (∀ r, r ∈ v.2 ↔ r ∈ w.2) → v = w.
Proof. destruct v, w. cbn. intros H1 H2. f_equal; by apply set_eq. Qed.

Lemma relation_event_relation kind g r : event_relation (relation_event kind g r) = r.
Proof. by destruct r. Qed.

Lemma introduced_replay g :
  generation_ok g → replay (∅, ∅) (introduced g) = view_of (Some g).
Proof.
  intros Hg. destruct (introduced_spec g Hg) as [_ Hin].
  destruct (replay_spec (∅, ∅) (introduced g)) as [Hn Hr].
  - intros e e' _ [(n & _ & ->)|(r & _ & ->)]%Hin; done.
  - intros e e' _ [(n & _ & ->)|(r & _ & ->)]%Hin; done.
  - apply view_eq; intros x; rewrite ?Hn, ?Hr; cbn [view_of fst snd]; rewrite elem_of_list_to_set;
      setoid_rewrite Hin; unfold event_of; split.
    + intros [(e & [(n & ? & ->)|(r & ? & ->)] & ? & <-)|[[]%elem_of_empty _]]; done.
    + intros Hx. left. exists (node_event TreeEventKind.NodeAdded g x).
      split_and!; [left; by exists x|done|done].
    + intros [(e & [(n & ? & ->)|(r & ? & ->)] & ? & <-)|[[]%elem_of_empty _]]; [done|].
      by rewrite relation_event_relation.
    + intros Hx. left. exists (relation_event TreeEventKind.RelationAdded g x).
      split_and!; [right; by exists x|done|apply relation_event_relation].
Qed.

Lemma withdrawn_replay g :
  generation_ok g → replay (view_of (Some g)) (withdrawn g) = (∅, ∅).
Proof.
  intros Hg. destruct (withdrawn_spec g Hg) as [_ Hin].
  destruct (replay_spec (view_of (Some g)) (withdrawn g)) as [Hn Hr].
  - intros e e' [(n & _ & ->)|(r & _ & ->)]%Hin; done.
  - intros e e' [(n & _ & ->)|(r & _ & ->)]%Hin; done.
  - apply view_eq; intros x; rewrite ?Hn, ?Hr; cbn [view_of fst snd]; rewrite elem_of_list_to_set;
      setoid_rewrite Hin; unfold event_of; (split; [|by intros ?%elem_of_empty]).
    + intros [(e & [(n & ? & ->)|(r & ? & ->)] & ? & <-)|[Hx Hno]]; [done..|]. destruct Hno.
      exists (node_event TreeEventKind.NodeRemoved g x).
      split_and!; [left; by exists x|done|done].
    + intros [(e & [(n & ? & ->)|(r & ? & ->)] & ? & <-)|[Hx Hno]]; [done..|]. destruct Hno.
      exists (relation_event TreeEventKind.RelationRemoved g x).
      split_and!; [right; by exists x|done|apply relation_event_relation].
Qed.

Lemma same_scope_exact before after :
  generation_ok before → generation_ok after →
  ∃ events, derive_same_scope_events before after = Some events ∧ NoDup events ∧
    (∀ e, e ∈ events ↔ event_due before after e) ∧
    replay (view_of (Some before)) events = view_of (Some after).
Proof.
  intros Hb Ha. destruct (derive_spec before after Hb Ha) as (events & Hd & Hnd & Hin).
  exists events. split_and!; [done..|].
  destruct (replay_spec (view_of (Some before)) events) as [Hn Hr].
  - intros e e' [] %Hin []%Hin; cbn; try done. intros _ _ ->. done.
  - intros e e' []%Hin []%Hin; try done. rewrite !relation_event_relation. intros _ _ ->. done.
  - apply view_eq; intros x; rewrite ?Hn, ?Hr; cbn [view_of fst snd]; rewrite !elem_of_list_to_set;
      setoid_rewrite Hin; split.
    + intros [(e & [] & ? & <-)|[Hx Hno]]; try done. apply dec_stable. intros Hx'. destruct Hno.
      exists (node_event TreeEventKind.NodeRemoved before x). split_and!; [by apply due_removed|done..].
    + intros Hx. destruct (decide (x ∈ ids_of before)) as [Hx'|Hx'].
      * right. split; [done|]. intros (e & [] & ? & <-); try done.
      * left. exists (node_event TreeEventKind.NodeAdded after x). split_and!; [by apply due_added|done..].
    + intros [(e & [] & ? & <-)|[Hx Hno]]; try done; [by rewrite relation_event_relation|].
      apply dec_stable. intros Hx'. destruct Hno.
      exists (relation_event TreeEventKind.RelationRemoved before x).
      split_and!; [by apply due_unrelated|done|apply relation_event_relation].
    + intros Hx. destruct (decide (x ∈ relations_of before)) as [Hx'|Hx'].
      * right. split; [done|]. intros (e & [] & ? & He); try done.
        rewrite relation_event_relation in He. by subst.
      * left. exists (relation_event TreeEventKind.RelationAdded after x).
        split_and!; [by apply due_related|done|apply relation_event_relation].
Qed.

Lemma same_scope_true a b :
  same_scope a b = true ↔
  meta_runtime a = meta_runtime b ∧ meta_tree a = meta_tree b ∧ meta_epoch a = meta_epoch b.
Proof. unfold same_scope. rewrite !andb_true_iff, !bool_decide_eq_true. tauto. Qed.

Lemma replacement_exact before after :
  (∀ g, before = Some g → generation_ok g) → generation_ok after →
  ∃ events, derive_replacement_events before after = Some events ∧ events_exact before after events.
Proof.
  intros Hb Ha. destruct (introduced_spec after Ha) as [Hni Hi].
  unfold derive_replacement_events, events_exact, reported. destruct before as [b|].
  - specialize (Hb b eq_refl).
    destruct (decide (_ ∧ _ ∧ _)) as [Sc|Sc]; rewrite <-same_scope_true in Sc;
      [rewrite Sc|rewrite (not_true_is_false _ Sc)].
    + destruct (same_scope_exact b after Hb Ha) as (events & Hd & H). by exists events.
    + destruct (withdrawn_spec b Hb) as [Hnw Hw]. eexists. split; [done|]. split_and!.
      * apply NoDup_app. split_and!; [done| |done].
        intros e [(n & _ & ->)|(r & _ & ->)]%Hw [(n' & _ & E)|(r' & _ & E)]%Hi; discriminate E.
      * intros e. by rewrite elem_of_app, Hw, Hi.
      * unfold replay. rewrite foldl_app. fold (replay (view_of (Some b)) (withdrawn b)).
        rewrite withdrawn_replay by done. by apply introduced_replay.
  - eexists. split; [done|]. split_and!; [done|done|by apply introduced_replay].
Qed.

(** ** What the store accepts *)

(** [update] is acceptable in [s] and leaves a tree with metadata [m] and content [c]. *)
Definition acceptable (s : TreeStore) (update : UiUpdate) (m : UiSnapshotMetadata)
    (c : TreeContent) : Prop :=
  meta_runtime m ∉ retired_runtimes s ∧
  (∀ g, staged_generation s = Some g → meta_runtime (gen_metadata g) = meta_runtime m →
    source_sequence update ≠ 0 → last_source_sequence s < source_sequence update)%N ∧
  content_ok c ∧ (N.of_nat (size (content_nodes c)) <= max_dense_nodes)%N ∧
  match update_payload update with
  | SnapshotPayload snapshot =>
    m = snap_metadata snapshot ∧ c = content_of snapshot ∧
    NoDup (node_id <$> snap_nodes snapshot) ∧ NoDup (snap_relations snapshot) ∧
    roots_ok (snap_nodes snapshot) (snap_relations snapshot) (snap_roots snapshot) ∧
    (requires_resnapshot s = true → meta_complete m = true) ∧
    (∀ g, staged_generation s = Some g → same_scope (gen_metadata g) m = true →
      meta_revision (gen_metadata g) < meta_revision m)%N
  | DeltaPayload delta =>
    m = delta_metadata delta ∧ requires_resnapshot s = false ∧
    ∃ g, staged_generation s = Some g ∧ same_scope (gen_metadata g) m = true ∧
      base_revision delta = meta_revision (gen_metadata g) ∧
      (meta_revision (gen_metadata g) < meta_revision m)%N ∧
      delta_spec (content_of (gen_snapshot g)) delta c
  | GapPayload _ => False
  end.

Lemma size_content s :
  NoDup (node_id <$> snap_nodes s) → size (content_nodes (content_of s)) = length (snap_nodes s).
Proof.
  intros Hnd. unfold content_of. cbn [content_nodes].
  rewrite <- size_dom, dom_map_of, size_list_to_set, length_fmap by done. done.
Qed.

Definition ok_generation (g : option Generation) : Prop := ∀ x, g = Some x → generation_ok x.

(** What [prepare_snapshot] and [prepare_delta] have in common: a checked snapshot is
    built, unless it has too many nodes. *)
Lemma checked_build s :
  checked s →
  (N.of_nat (length (snap_nodes s)) <= max_dense_nodes)%N →
  ∃ g, build_generation s = Ok g ∧ gen_snapshot g = s ∧ generation_ok g.
Proof.
  intros Hc Hs. pose proof (checked_generation s Hc) as H. by rewrite decide_True in H.
Qed.

Lemma checked_too_big s :
  checked s → ¬ (N.of_nat (length (snap_nodes s)) <= max_dense_nodes)%N →
  ∃ e, build_generation s = Err e.
Proof.
  intros Hc Hs. pose proof (checked_generation s Hc) as H. rewrite decide_False in H by done.
  by eexists.
Qed.

Lemma checked_NoDup s : checked s → NoDup (node_id <$> snap_nodes s).
Proof. intros (m & ns & roots & rels & -> & [Hnd _ _ _ _] & _). done. Qed.

(** The part of [acceptable] the preparation decides. *)
Definition prepares (staged : option Generation) (payload : UpdatePayload)
    (m : UiSnapshotMetadata) (c : TreeContent) : Prop :=
  content_ok c ∧ (N.of_nat (size (content_nodes c)) <= max_dense_nodes)%N ∧
  match payload with
  | SnapshotPayload snapshot =>
    m = snap_metadata snapshot ∧ c = content_of snapshot ∧
    NoDup (node_id <$> snap_nodes snapshot) ∧ NoDup (snap_relations snapshot) ∧
    roots_ok (snap_nodes snapshot) (snap_relations snapshot) (snap_roots snapshot) ∧
    (∀ g, staged = Some g → same_scope (gen_metadata g) m = true →
      meta_revision (gen_metadata g) < meta_revision m)%N
  | DeltaPayload delta =>
    m = delta_metadata delta ∧
    ∃ g, staged = Some g ∧ same_scope (gen_metadata g) m = true ∧
      base_revision delta = meta_revision (gen_metadata g) ∧
      (meta_revision (gen_metadata g) < meta_revision m)%N ∧
      delta_spec (content_of (gen_snapshot g)) delta c
  | GapPayload _ => False
  end.

(** What a prepared update is. *)
Definition prepared_ok (staged : option Generation) (m : UiSnapshotMetadata) (c : TreeContent)
    (p : PreparedUpdate) : Prop :=
  let g := prepared_generation p in
  generation_ok g ∧ gen_metadata g = m ∧ content_of (gen_snapshot g) = c ∧
  events_exact staged g (applied_events (prepared_applied p)) ∧
  previous_revision (prepared_applied p) = generation_revision staged ∧
  applied_revision (prepared_applied p) = meta_revision m.

Lemma prepare_snapshot_spec staged snapshot sequence :
  ok_generation staged →
  ∃ res, prepare_snapshot staged snapshot sequence = Some res ∧
  match res with
  | Ok p => ∃ m c, prepares staged (SnapshotPayload snapshot) m c ∧ prepared_ok staged m c p
  | Err _ => ∀ m c, ¬ prepares staged (SnapshotPayload snapshot) m c
  end.
Proof.
  intros Hstaged. unfold prepare_snapshot. set (m := snap_metadata snapshot).
  destruct (not_advanced staged m) eqn:Hadv.
  { eexists. split; [done|]. intros m' c (_ & _ & -> & _ & _ & _ & _ & Hrev). fold m in Hrev.
    unfold not_advanced in Hadv. destruct staged as [g|]; [|done].
    apply andb_true_iff in Hadv as [Hsc Hle%bool_decide_eq_true]. specialize (Hrev g eq_refl Hsc). lia. }
  destruct (normalized_spec m (snap_nodes snapshot) (snap_roots snapshot) (snap_relations snapshot))
    as ([s|e] & -> & Hn); [|eexists; split; [done|]].
  2: { intros m' c (Hok & _ & -> & -> & Hnd & Hdist & Hroots & _). apply Hn. split; [|done].
       by apply snapshot_content_ok. }
  destruct Hn as (Hck & Hm & Hns & Hrels & Htree & Hroots).
  assert (content_of s = content_of snapshot) as Hcontent
    by (unfold content_of; by rewrite Hns, Hrels).
  pose proof (checked_NoDup s Hck) as Hnd.
  assert (prepares staged (SnapshotPayload snapshot) m (content_of s) ↔
    (N.of_nat (length (snap_nodes s)) <= max_dense_nodes)%N) as Hprep.
  { unfold prepares. rewrite size_content by done. split; [tauto|]. intros Hsize.
    rewrite Hns in Hnd. pose proof Htree as [_ _ Hdist _ _].
    split_and!; try done; [rewrite Hcontent; by apply snapshot_content_ok|].
    intros g -> Hsc. unfold not_advanced in Hadv. fold m in Hsc. rewrite Hsc in Hadv.
    apply bool_decide_eq_false in Hadv. lia. }
  destruct (decide (N.of_nat (length (snap_nodes s)) <= max_dense_nodes)%N) as [Hsize|Hsize].
  - destruct (checked_build s Hck Hsize) as (g & -> & Hgs & Hg).
    destruct (replacement_exact staged g Hstaged Hg) as (events & -> & Hev).
    eexists. split; [done|]. exists m, (content_of s). split; [by apply Hprep|].
    unfold prepared_ok, gen_metadata. cbn. by rewrite Hgs.
  - destruct (checked_too_big s Hck Hsize) as (e & ->). eexists. split; [done|].
    intros m' c Hp. apply Hsize, Hprep. pose proof Hp as (_ & _ & -> & -> & _). by rewrite Hcontent.
Qed.

Lemma prepare_delta_spec staged delta sequence :
  ok_generation staged →
  ∃ res, prepare_delta staged delta sequence = Some res ∧
  match res with
  | Ok p => ∃ m c, prepares staged (DeltaPayload delta) m c ∧ prepared_ok staged m c p
  | Err _ => ∀ m c, ¬ prepares staged (DeltaPayload delta) m c
  end.
Proof.
  intros Hstaged. unfold prepare_delta. set (m := delta_metadata delta).
  destruct staged as [g|]; [|eexists; split; [done|]; by intros m' c (_ & _ & _ & ? & ? & _)].
  specialize (Hstaged g eq_refl).
  destruct (decide (same_scope (gen_metadata g) m = true ∧ base_revision delta = meta_revision (gen_metadata g) ∧
    (meta_revision (gen_metadata g) < meta_revision m)%N)) as [(Hsc & Hbase & Hrev)|Hno].
  2: { assert (∀ m' c, ¬ prepares (Some g) (DeltaPayload delta) m' c) as Hnone.
       { intros m' c (_ & _ & -> & g' & [= <-] & H). tauto. }
       rewrite same_scope_true in Hno.
       repeat case_decide; try (eexists; split; [reflexivity|exact Hnone]). exfalso. apply Hno.
       split_and!; first [done | lia]. }
  pose proof Hsc as (Hr & Ht & He)%same_scope_true.
  rewrite !decide_False by (rewrite ?Hr, ?Ht, ?He; (done || lia)).
  destruct (snapshot_from_delta_spec g delta Hstaged) as ([s|e] & -> & Hs); [|eexists; split; [done|]].
  2: { intros m' c (Hok & _ & -> & g' & [= <-] & _ & _ & _ & Hspec). apply Hs. by exists c. }
  destruct Hs as (Hck & Hm & Hspec & Hok). pose proof (checked_NoDup s Hck) as Hnd.
  assert (∀ c, delta_spec (content_of (gen_snapshot g)) delta c → c = content_of s) as Hunique.
  { intros [cn cr] (_ & H1 & H2). destruct Hspec as (_ & H3 & H4). rewrite H4 in H2. injection H2 as H2.
    symmetry. apply content_of_eq; [exact (eq_trans H3 (eq_sym H1))|exact H2]. }
  destruct (decide (N.of_nat (length (snap_nodes s)) <= max_dense_nodes)%N) as [Hsize|Hsize].
  - destruct (checked_build s Hck Hsize) as (g' & -> & Hgs & Hg').
    destruct (same_scope_exact g g' Hstaged Hg') as (events & -> & Hnde & Hin & Hrep).
    eexists. split; [done|]. exists m, (content_of s). split.
    + split; [done|]. rewrite size_content by done. split; [done|]. split; [done|]. by exists g.
    + unfold prepared_ok, events_exact, reported, gen_metadata. cbn. rewrite Hgs, Hm. fold m.
      fold (gen_metadata g). destruct (decide (_ ∧ _ ∧ _)) as [_|No]; [done|].
      by rewrite same_scope_true in Hsc.
  - destruct (checked_too_big s Hck Hsize) as (e & ->). eexists. split; [done|].
    intros m' c (_ & Hsz & -> & g' & [= <-] & _ & _ & _ & Hc). apply Hunique in Hc. subst c.
    by rewrite size_content in Hsz.
Qed.

(** ** The invariant of a store *)

(** The queued updates follow on each other: the events of each lead from the view
    before it to the view after it. *)
Fixpoint pending_chain (g : option Generation) (ps : list PreparedUpdate) : Prop :=
  match ps with
  | [] => True
  | p :: rest =>
    let next := Some (prepared_generation p) in
    replay (view_of g) (applied_events (prepared_applied p)) = view_of next ∧
    pending_chain next rest
  end.

Definition last_generation (g : option Generation) (ps : list PreparedUpdate) : option Generation :=
  match last ps with None => g | Some p => Some (prepared_generation p) end.

Lemma pending_chain_snoc g ps p :
  pending_chain g ps →
  replay (view_of (last_generation g ps)) (applied_events (prepared_applied p)) =
    view_of (Some (prepared_generation p)) →
  pending_chain g (ps ++ [p]).
Proof.
  revert g. induction ps as [|q ps IH]; intros g; [done|]. cbn [pending_chain app].
  intros [Hq Hps] Hp. split; [done|]. apply IH; [done|].
  revert Hp. unfold last_generation. rewrite last_cons. by destruct (last ps).
Qed.

Record store_inv (s : TreeStore) : Prop := {
  si_current : ok_generation (current s);
  si_previous : ok_generation (previous s);
  si_pending : Forall (λ p, generation_ok (prepared_generation p)) (pending_updates s);
  si_chain : pending_chain (current s) (pending_updates s);
  si_retired : ∀ g, staged_generation s = Some g →
    meta_runtime (gen_metadata g) ∉ retired_runtimes s;
  si_idle : publishing s = false → pending_updates s = []
}.

Lemma empty_store_inv : store_inv empty_store.
Proof. split; cbn; try done; try constructor. Qed.

Lemma staged_ok s : store_inv s → ok_generation (staged_generation s).
Proof.
  intros [Hc _ Hp _ _ _] g. unfold staged_generation.
  destruct (last (pending_updates s)) as [p|] eqn:Hl; [|apply Hc]. intros [= <-].
  rewrite Forall_forall in Hp. apply Hp. apply last_Some_elem_of. done.
Qed.

Lemma staged_enqueue s update p : staged_generation (enqueue s update p) = Some (prepared_generation p).
Proof. unfold staged_generation, enqueue. cbn. by rewrite last_snoc. Qed.

Lemma enqueue_inv s update m c p :
  store_inv s → meta_runtime m ∉ retired_runtimes s →
  prepared_ok (staged_generation s) m c p → store_inv (enqueue s update p).
Proof.
  intros [Hc Hp Hq Hch Hr Hi] Hm (Hg & Hgm & _ & (_ & _ & Hrep) & _). split.
  - done.
  - done.
  - apply Forall_app. split; [done|]. by apply Forall_singleton.
  - by apply pending_chain_snoc.
  - intros g. rewrite staged_enqueue. intros [= <-]. cbn. rewrite Hgm.
    destruct (staged_generation s) as [g|]; [|done]. case_decide as Hne; [|done].
    intros [Heq%elem_of_singleton|?]%elem_of_union; [by rewrite Heq in Hne|done].
  - done.
Qed.

(** What is the same in two stores that differ in the gap bookkeeping at most. *)
Definition same_trees (s s' : TreeStore) : Prop :=
  current s' = current s ∧ previous s' = previous s ∧ pending_updates s' = pending_updates s ∧
  retired_runtimes s' = retired_runtimes s ∧ publishing s' = publishing s.

Lemma same_trees_refl s : same_trees s s.
Proof. done. Qed.

Lemma same_trees_staged s s' : same_trees s s' → staged_generation s' = staged_generation s.
Proof. intros (Hc & _ & Hp & _). unfold staged_generation. by rewrite Hc, Hp. Qed.

Lemma same_trees_inv s s' : same_trees s s' → store_inv s → store_inv s'.
Proof.
  intros Hs [? ? ? ? Hr ?]. pose proof (same_trees_staged _ _ Hs) as Hst.
  destruct Hs as (Hc & Hp & Hq & Hret & Hpub).
  split; rewrite ?Hst, ?Hc, ?Hp, ?Hq, ?Hret, ?Hpub; done.
Qed.

Lemma apply_gap_trees s gap sequence m : same_trees s (apply_gap s gap sequence m).2.
Proof.
  unfold apply_gap. destruct (staged_generation s); [|done]. by repeat case_decide.
Qed.

Lemma acceptable_prepares s update m c :
  acceptable s update m c → prepares (staged_generation s) (update_payload update) m c.
Proof.
  intros (_ & _ & Hok & Hsize & Hp). split; [done|]. split; [done|].
  destruct (update_payload update); naive_solver.
Qed.

Lemma acceptable_metadata s update m c :
  acceptable s update m c → m = metadata_of update (generation_revision (staged_generation s)).
Proof.
  intros (_ & _ & _ & _ & Hp). unfold metadata_of. destruct (update_payload update); naive_solver.
Qed.

Lemma prepare_spec staged update sequence m0 :
  ok_generation staged → (∀ gap, update_payload update ≠ GapPayload gap) →
  ∃ res, prepare staged (update_payload update) sequence m0 = Some res ∧
  match res with
  | Ok p => ∃ m c, prepares staged (update_payload update) m c ∧ prepared_ok staged m c p
  | Err _ => ∀ m c, ¬ prepares staged (update_payload update) m c
  end.
Proof.
  intros Hs Hgap. unfold prepare. destruct (update_payload update) as [sn|d|g].
  - by apply prepare_snapshot_spec.
  - by apply prepare_delta_spec.
  - by destruct (Hgap g).
Qed.

Lemma prepares_metadata staged update rev m c :
  prepares staged (update_payload update) m c → m = metadata_of update rev.
Proof. intros (_ & _ & Hp). unfold metadata_of. destruct (update_payload update); naive_solver. Qed.

(** What the locked part of [apply] leaves behind. *)
Definition stage_result (s : TreeStore) (update : UiUpdate) (r : Result (AppliedDelta * bool))
    (s' : TreeStore) : Prop :=
  match r with
  | Ok (applied, should_publish) =>
    should_publish = negb (publishing s) ∧
    ∃ p m c, applied = prepared_applied p ∧ acceptable s update m c ∧
      prepared_ok (staged_generation s) m c p ∧ s' = enqueue s update p
  | Err _ => (∀ m c, ¬ acceptable s update m c) ∧ same_trees s s'
  end.

Lemma stage_refused s update e s' :
  (∀ m c, ¬ acceptable s update m c) → same_trees s s' →
  ∃ r s'', Some (Err e, s') = Some (r, s'') ∧ stage_result s update r s''.
Proof. intros Hno Hs. exists (Err e), s'. done. Qed.

Lemma stage_prepared s update payload sequence m0 :
  update_payload update = payload →
  ok_generation (staged_generation s) → (∀ gap, payload ≠ GapPayload gap) →
  (∀ m c, prepares (staged_generation s) payload m c → acceptable s update m c) →
  ∃ r s', match prepare (staged_generation s) payload sequence m0 with
          | None => None
          | Some (Err error) => Some (Err error, s)
          | Some (Ok prepared) =>
            Some (Ok (prepared_applied prepared, negb (publishing s)), enqueue s update prepared)
          end = Some (r, s') ∧ stage_result s update r s'.
Proof.
  intros <- Hstaged Hgap Hacc. destruct (prepare_spec _ update sequence m0 Hstaged Hgap) as (res & -> & H).
  destruct res as [p|e].
  - destruct H as (m & c & Hp & Hok). do 2 eexists. split; [done|]. split; [done|].
    exists p, m, c. split_and!; [done|by apply Hacc|done|done].
  - apply stage_refused; [|done]. intros m c Ha. by eapply H, acceptable_prepares.
Qed.

Lemma stage_spec s update :
  store_inv s → ∃ r s', stage s update = Some (r, s') ∧ stage_result s update r s'.
Proof.
  intros Hinv. pose proof (staged_ok s Hinv) as Hstaged. unfold stage.
  set (m0 := metadata_of update (generation_revision (staged_generation s))).
  assert (∀ m c, acceptable s update m c → m = m0) as Hm0 by apply acceptable_metadata.
  destruct (decide (meta_runtime m0 ∈ retired_runtimes s)) as [Hret|Hret].
  { apply stage_refused; [|done]. intros m c Ha. pose proof (Hm0 m c Ha) as ->.
    by destruct Ha as [? _]. }
  destruct (decide (_ ∧ source_sequence update ≠ 0%N ∧ _)) as [(Hsame & Hnz & Hle)|Hseq].
  { apply stage_refused; [|done]. intros m c Ha. pose proof (Hm0 m c Ha) as ->.
    destruct Ha as (_ & Hadv & _). destruct (staged_generation s) as [g|]; [|done].
    apply bool_decide_eq_true in Hsame. specialize (Hadv g eq_refl (eq_sym Hsame) Hnz). lia. }
  assert (∀ g, staged_generation s = Some g → meta_runtime (gen_metadata g) = meta_runtime m0 →
    source_sequence update ≠ 0 → last_source_sequence s < source_sequence update)%N as Hfresh.
  { intros g Hg Hrt Hnz. destruct (decide (last_source_sequence s < source_sequence update)%N); [done|].
    destruct Hseq. rewrite Hg. split_and!; [by apply bool_decide_eq_true|done|lia]. }
  assert (∀ m c, prepares (staged_generation s) (update_payload update) m c →
    requires_resnapshot s && negb (is_complete_snapshot (update_payload update)) = false →
    acceptable s update m c) as Hacc.
  { intros m c Hp Hreq. pose proof (prepares_metadata _ _ _ _ _ Hp : m = m0) as ->.
    destruct Hp as (Hc & Hsz & Hp). split_and!; try done.
    destruct (update_payload update) as [sn|d|g]; [..|done]; destruct Hp as (Hm & Hp).
    - rewrite Hm in Hp |- *. split_and!; try tauto.
      intros Hr. rewrite Hr in Hreq. by apply negb_false_iff in Hreq.
    - split_and!; [done| |done]. by rewrite andb_true_r in Hreq. }
  clear Hseq. destruct (update_payload update) as [sn|d|gap] eqn:Hpay.
  3: { pose proof (apply_gap_trees s gap (source_sequence update) m0) as Hg.
       destruct (apply_gap _ _ _ _) as [e s'] eqn:E. apply stage_refused; [|done].
       intros m c (_ & _ & _ & _ & Hp). by rewrite Hpay in Hp. }
  all: destruct (requires_resnapshot s && negb _) eqn:Hreq;
    [apply stage_refused; [|done]; intros m c (_ & _ & _ & _ & Hp);
     apply andb_true_iff in Hreq as [Hreq Hcomp%negb_true_iff]; rewrite Hpay in Hp; cbn in Hcomp
    |apply stage_prepared; [done..|by auto]].
  - destruct Hp as (-> & _ & _ & _ & _ & Hc & _). rewrite Hc in Hcomp by done. done.
  - destruct Hp as (_ & Hf & _). congruence.
Qed.

Lemma stage_inv s update r s' : store_inv s → stage_result s update r s' → store_inv s'.
Proof.
  intros Hinv. destruct r as [[applied pub]|e]; cbn.
  - intros (_ & p & m & c & _ & Ha & Hok & ->). eapply enqueue_inv; [done|apply Ha|done].
  - intros [_ Hs]. by eapply same_trees_inv.
Qed.

(** ** Threads *)

Record system_inv (sys : StoreSystem) : Prop := {
  sv_store : store_inv (system_store sys);
  sv_publishers : match publishers sys with
    | [] => publishing (system_store sys) = false
    | [_] => publishing (system_store sys) = true
    | _ => False
    end;
  sv_stream : delivered sys ++ concat (publishers sys) ++
      (pending_updates (system_store sys) ≫= λ p, applied_events (prepared_applied p)) =
    accepted sys ≫= applied_events;
  sv_view : replay (∅, ∅) (delivered sys ++ concat (publishers sys)) =
    view_of (current (system_store sys))
}.

Lemma initial_system_inv : system_inv initial_system.
Proof. split; [apply empty_store_inv|done..]. Qed.

Lemma publish_next_inv s :
  store_inv s → store_inv (publish_next s).2 ∧ staged_generation (publish_next s).2 = staged_generation s ∧
    retired_runtimes (publish_next s).2 = retired_runtimes s.
Proof.
  intros [Hc Hp Hq Hch Hr Hi]. unfold publish_next. destruct (pending_updates s) as [|p rest] eqn:E.
  - cbn. split_and!; [split; cbn; try done| |done].
    + intros g. unfold staged_generation. cbn. intros Hg. apply Hr. unfold staged_generation. by rewrite E.
    + unfold staged_generation. by rewrite E.
  - assert (staged_generation (MkStore (Some (prepared_generation p)) (current s) (retired_runtimes s)
      rest (last_source_sequence s) (requires_resnapshot s) (publishing s)) = staged_generation s) as Hst.
    { unfold staged_generation. rewrite E. cbn. rewrite last_cons. by destruct (last rest). }
    apply Forall_cons in Hq as [Hgp Hrest]. destruct Hch as [_ Hch]. cbn [snd].
    split_and!; [split|done|done].
    + intros g [= <-]. done.
    + done.
    + done.
    + done.
    + intros g. rewrite Hst. apply Hr.
    + cbn. intros Hpub. by apply Hi in Hpub.
Qed.

Lemma singleton_middle {A} (b : bool) (ps ps' : list A) x :
  match ps ++ x :: ps' with [] => b = false | [_] => b = true | _ => False end → ps = [] ∧ ps' = [].
Proof. destruct ps as [|? [|]], ps'; cbn; tauto. Qed.

Lemma apply_step_inv a b : system_inv a → apply_step a b → system_inv b.
Proof.
  intros Hinv Hstep. revert Hinv.
  destruct Hstep as [s ps us log update applied pub s' E|s ps us log update error s' E];
    intros [Hs Hp Hst Hv]; cbn in Hs, Hp, Hst, Hv; destruct (stage_spec s update Hs) as (r & s1 & E1 & Hr);
    rewrite E in E1; injection E1 as <- <-; pose proof (stage_inv _ _ _ _ Hs Hr) as Hs'.
  - destruct Hr as (-> & p & m & c & -> & Ha & Hok & ->). split; cbn; [done|..].
    + destruct ps as [|q [|]]; cbn in *; [by rewrite Hp|by rewrite Hp|done].
    + rewrite !bind_app. cbn. rewrite !app_nil_r, <- Hst, <- !app_assoc. do 2 f_equal.
      destruct (publishing s); cbn; [done|]. by rewrite concat_app, app_nil_r.
    + destruct (publishing s); cbn; [done|]. by rewrite concat_app, app_nil_r.
  - destruct Hr as [_ (Hc & _ & Hq & _ & Hpub)]. split; cbn; rewrite ?Hc, ?Hq, ?Hpub; done.
Qed.

Lemma publisher_step_inv a b : system_inv a → publisher_step a b → system_inv b.
Proof.
  intros Hinv Hstep. revert Hinv.
  destruct Hstep as [s ps ps' us log events s' E|s ps ps' us log s' E|s ps ps' us log e events];
    intros [Hs Hp Hst Hv]; cbn in Hs, Hp, Hst, Hv.
  all: assert (ps = [] ∧ ps' = []) as [-> ->]
    by (by eapply singleton_middle).
  all: cbn in Hp, Hst, Hv; rewrite ?app_nil_r in Hv.
  - pose proof (publish_next_inv s Hs) as (Hs' & _). rewrite E in Hs'. cbn in Hs'.
    pose proof (si_chain _ Hs) as Hch. unfold publish_next in E.
    destruct (pending_updates s) as [|p rest]; [done|]. injection E as <- <-.
    split; cbn; [done|done|by rewrite app_nil_r|].
    rewrite app_nil_r. unfold replay. rewrite foldl_app. fold (replay (∅, ∅) log). rewrite Hv. apply Hch.
  - pose proof (publish_next_inv s Hs) as (Hs' & _). rewrite E in Hs'. cbn in Hs'.
    unfold publish_next in E. destruct (pending_updates s) as [|p rest]; [|done]. injection E as <-.
    split; cbn; [done|done|done|by rewrite app_nil_r].
  - split; cbn; [done|done|by rewrite <- app_assoc|by rewrite app_nil_r, <- app_assoc].
Qed.

Lemma store_step_inv a b : system_inv a → store_step a b → system_inv b.
Proof. intros Ha [H|H]; [by eapply apply_step_inv|by eapply publisher_step_inv]. Qed.

Lemma steps_inv a b : system_inv a → rtc store_step a b → system_inv b.
Proof. intros Ha Hab. induction Hab as [|a b c Hab _ IH]; [done|]. by eapply IH, store_step_inv. Qed.

Lemma reachable_inv sys : reachable sys → system_inv sys.
Proof. apply steps_inv, initial_system_inv. Qed.

(** *** Acceptance *)

Lemma acceptable_unique s update m m' c c' :
  acceptable s update m c → acceptable s update m' c' → m = m' ∧ c = c'.
Proof.
  intros Ha Ha'. split; [by rewrite (acceptable_metadata _ _ _ _ Ha), (acceptable_metadata _ _ _ _ Ha')|].
  destruct Ha as (_ & _ & _ & _ & H), Ha' as (_ & _ & _ & _ & H').
  destruct (update_payload update) as [sn|d|]; [| |done].
  - destruct H as (_ & -> & _), H' as (_ & -> & _). done.
  - destruct H as (_ & _ & g & Hg & _ & _ & _ & _ & Hn & Hr), H' as (_ & _ & g' & Hg' & _ & _ & _ & _ & Hn' & Hr').
    rewrite Hg in Hg'. injection Hg' as <-. destruct c, c'. cbn in *. rewrite Hr in Hr'.
    injection Hr' as <-. f_equal. exact (eq_trans Hn (eq_sym Hn')).
Qed.

(** [s] holds, published or queued, a tree with metadata [m] and content [c] as its newest. *)
Definition newest_is (s : TreeStore) (m : UiSnapshotMetadata) (c : TreeContent) : Prop :=
  ∃ g, staged_generation s = Some g ∧ gen_metadata g = m ∧ content_of (gen_snapshot g) = c.

(** C14: in every state threads can reach, [apply] takes an update exactly when its
    runtime is not retired, its source sequence advances, its revision advances (a
    delta starting from the newest revision), a gap is not waiting for a complete
    snapshot, the identities and links it lists are consistent and the content it
    leads to is a tree; the store then holds that content as its newest tree, and the
    answer carries the revisions before and after.  Otherwise it is refused and every
    tree, queued update and retirement stays as it was. *)
Theorem updates_accepted_exactly sys update :
  reachable sys →
  let s := system_store sys in
  ∃ r s', stage s update = Some (r, s') ∧
  match r with
  | Ok (applied, _) =>
    ∃ m c, (∀ m' c', acceptable s update m' c' ↔ m' = m ∧ c' = c) ∧ newest_is s' m c ∧
      previous_revision applied = generation_revision (staged_generation s) ∧
      applied_revision applied = meta_revision m
  | Err _ => (∀ m c, ¬ acceptable s update m c) ∧ same_trees s s'
  end.
Proof.
  intros Hreach s. destruct (stage_spec s update) as (r & s' & E & Hr); [by apply reachable_inv|].
  exists r, s'. split; [done|]. destruct r as [[applied pub]|e]; [|done].
  destruct Hr as (_ & p & m & c & -> & Ha & (Hg & Hm & Hc & _ & Hprev & Hrev) & ->).
  exists m, c. split_and!; [|eexists; split; [apply staged_enqueue|done]|done|done].
  intros m' c'. split; [|by intros [-> ->]]. intros Ha'. by eapply acceptable_unique.
Qed.

(** C13: the events of an accepted update are what changed and nothing else: each is
    listed once; an event is listed exactly when the newest tree and the one before it
    differ in it (in another runtime, tree or epoch: when the old tree has it, removed,
    or the new one, added); and applying them to the nodes and relations of the old
    tree gives those of the new one.  A node of both trees has changed when its
    generation, role, states, the set of its properties, or what one of them reads
    differ; its facets and provenance do not count. *)
Theorem applied_events_exact sys update applied should_publish s' :
  reachable sys →
  let s := system_store sys in
  stage s update = Some (Ok (applied, should_publish), s') →
  ∃ g, staged_generation s' = Some g ∧
    NoDup (applied_events applied) ∧
    (∀ e, e ∈ applied_events applied ↔ reported (staged_generation s) g e) ∧
    replay (view_of (staged_generation s)) (applied_events applied) = view_of (Some g).
Proof.
  intros Hreach s E. destruct (stage_spec s update) as (r & s1 & E1 & Hr); [by apply reachable_inv|].
  rewrite E in E1. injection E1 as <- <-.
  destruct Hr as (_ & p & m & c & -> & _ & (_ & _ & _ & Hev & _) & ->).
  exists (prepared_generation p). split; [apply staged_enqueue|exact Hev].
Qed.

(** C12: in every interleaving of threads that apply updates, at most one of them
    publishes; the events given to the sink are those of the accepted updates, update
    after update in the order of acceptance and never twice: delivered, then held by
    the publisher, then queued.  Applying what was delivered or is held to nothing
    gives the nodes and relations of the published tree; and when nobody publishes,
    everything is delivered and the newest tree is the published one. *)
Theorem events_published_in_order sys :
  reachable sys →
  let s := system_store sys in
  (length (publishers sys) <= 1)%nat ∧
  delivered sys ++ concat (publishers sys) ++
    (pending_updates s ≫= λ p, applied_events (prepared_applied p)) =
    accepted sys ≫= applied_events ∧
  replay (∅, ∅) (delivered sys ++ concat (publishers sys)) = view_of (current s) ∧
  (publishers sys = [] →
    delivered sys = accepted sys ≫= applied_events ∧ current s = staged_generation s).
Proof.
  intros Hreach s. destruct (reachable_inv sys Hreach) as [Hs Hp Hst Hv].
  split_and!; [|done|done|].
  - destruct (publishers sys) as [|? [|]]; cbn in *; [lia|lia|done].
  - intros Hnone. rewrite Hnone in Hp, Hst. pose proof (si_idle _ Hs Hp) as Hidle.
    rewrite Hidle in Hst. cbn in Hst. rewrite app_nil_r in Hst. split; [done|].
    unfold staged_generation, s. by rewrite Hidle.
Qed.

Lemma generation_navigable g plan :
  generation_ok g → validate_navigation (snapshot_nav (gen_snapshot g)) plan = Ok ().
Proof.
  intros Hg. rewrite (go_shape g Hg). apply snapshot_validates.
  pose proof (go_tree g Hg) as Htree. split_and!.
  - apply Htree.
  - intros n Hn%(go_roots g Hg). apply Hn.
  - intros a b k Hin. pose proof (to_relations _ _ Htree) as Hrel. rewrite Forall_forall in Hrel.
    specialize (Hrel _ Hin). split; intros _ _; apply Hrel.
Qed.

(** C15: every tree the store shows, the published one and the one before it, passes
    the navigation checks of the query engine, for any locator: its nodes are listed
    once, its roots and the ends of every relation a locator can follow are nodes of
    it. *)
Theorem published_trees_are_queryable sys snapshot plan :
  reachable sys →
  store_snapshot (system_store sys) = Some snapshot ∨
    previous_snapshot (system_store sys) = Some snapshot →
  validate_navigation (snapshot_nav snapshot) plan = Ok ().
Proof.
  intros Hreach. pose proof (sv_store _ (reachable_inv sys Hreach)) as Hs.
  unfold store_snapshot, previous_snapshot. rewrite !fmap_Some.
  intros [(g & Hg & ->)|(g & Hg & ->)]; apply generation_navigable;
    [by apply (si_current _ Hs)|by apply (si_previous _ Hs)].
Qed.

(** *** Retirement *)

(** The runtime of the newest tree. *)
Definition staged_runtime (s : TreeStore) : option RuntimeId :=
  (λ g, meta_runtime (gen_metadata g)) <$> staged_generation s.

(** [s'] comes after [s]: retirements are kept, and the newest runtime of [s] is still
    the newest or is retired. *)
Definition retires (s s' : TreeStore) : Prop :=
  retired_runtimes s ⊆ retired_runtimes s' ∧
  ∀ r, staged_runtime s = Some r → staged_runtime s' = Some r ∨ r ∈ retired_runtimes s'.

Lemma retires_trans s1 s2 s3 : retires s1 s2 → retires s2 s3 → retires s1 s3.
Proof. intros [H1 H1'] [H2 H2']. split; [set_solver|]. intros r [Hr|Hr]%H1'; [by apply H2'|right; by apply H2]. Qed.

Lemma same_staged_retires s s' :
  staged_generation s' = staged_generation s → retired_runtimes s' = retired_runtimes s → retires s s'.
Proof. intros Hst Hr. split; [by rewrite Hr|]. intros r. unfold staged_runtime. rewrite Hst. by left. Qed.

Lemma enqueue_retires s update p : retires s (enqueue s update p).
Proof.
  unfold retires, staged_runtime. rewrite staged_enqueue. cbn.
  destruct (staged_generation s) as [g|]; cbn; [|done]. case_decide as Hne.
  - split; [set_solver|]. intros r [= <-]. right. by apply elem_of_union_l, elem_of_singleton.
  - split; [done|]. intros r Hr. left. by rewrite <- Hne.
Qed.

Lemma step_retires a b :
  system_inv a → store_step a b → retires (system_store a) (system_store b).
Proof.
  intros [Hs _ _ _] [Hstep|Hstep]; revert Hs.
  - destruct Hstep as [s ps us log update applied pub s' E|s ps us log update error s' E]; cbn;
      intros Hs; destruct (stage_spec s update Hs) as (r & s1 & E1 & Hr); rewrite E in E1;
      injection E1 as <- <-.
    + destruct Hr as (_ & p & m & c & _ & _ & _ & ->). apply enqueue_retires.
    + destruct Hr as [_ Hr]. apply same_staged_retires; [by apply same_trees_staged|apply Hr].
  - destruct Hstep as [s ps ps' us log events s' E|s ps ps' us log s' E|]; cbn; intros Hs;
      [| |by apply same_staged_retires]; pose proof (publish_next_inv s Hs) as (_ & Hst & Hr);
      rewrite E in Hst, Hr; by apply same_staged_retires.
Qed.

(** However threads go on, a runtime stays retired, the runtime of the newest tree
    is not a retired one, and a runtime whose tree was the newest either still is or
    has been retired: once replaced, it never comes back. *)
Theorem retired_runtimes_stay_out sys sys' :
  reachable sys → rtc store_step sys sys' →
  let s := system_store sys in
  let s' := system_store sys' in
  retired_runtimes s ⊆ retired_runtimes s' ∧
  (∀ r, staged_runtime s' = Some r → r ∉ retired_runtimes s') ∧
  (∀ r, staged_runtime s = Some r → staged_runtime s' ≠ Some r → r ∈ retired_runtimes s').
Proof.
  intros Hreach%reachable_inv Hsteps. cbn.
  assert (system_inv sys' ∧ retires (system_store sys) (system_store sys')) as [Hinv [Hsub Hr]].
  { induction Hsteps as [a|a b c Hab _ IH]; [split; [done|by apply same_staged_retires]|].
    destruct IH as [Hc Hbc]; [by eapply store_step_inv|]. split; [done|].
    eapply retires_trans; [by apply step_retires|done]. }
  split_and!; [done| |].
  - unfold staged_runtime. intros r (g & Hg & ->)%fmap_Some. by apply (si_retired _ (sv_store _ Hinv)).
  - intros r Hst Hne. by destruct (Hr r Hst).
Qed.

(** *** Draining *)

(** What is left to publish: a step for every event, update and publisher. *)
Definition publication_work (sys : StoreSystem) : nat :=
  sum_list_with (λ events, S (length events)) (publishers sys) +
  sum_list_with (λ p, S (length (applied_events (prepared_applied p))))
    (pending_updates (system_store sys)).

Lemma publisher_step_work a b : publisher_step a b → publication_work a = S (publication_work b).
Proof.
  intros Hstep. unfold publication_work.
  destruct Hstep as [s ps ps' us log events s' E|s ps ps' us log s' E|s ps ps' us log e events]; cbn;
    rewrite ?sum_list_with_app; cbn; [| |lia];
    unfold publish_next in E; destruct (pending_updates s) as [|p rest]; try done;
    injection E as <-; subst; cbn; rewrite ?sum_list_with_app; cbn; lia.
Qed.

Lemma publisher_goes_on sys : publishers sys ≠ [] → ∃ b, publisher_step sys b.
Proof.
  destruct sys as [s [|[|e events] ps] us log]; cbn; [done|..]; intros _.
  - destruct (publish_next s) as [[events|] s'] eqn:E; eexists;
      [by apply (step_publish s [] ps)|by apply (step_finish s [] ps)].
  - eexists. apply (step_deliver s [] ps).
Qed.

Lemma publisher_step_keeps a b :
  system_inv a → publisher_step a b →
  accepted b = accepted a ∧ staged_generation (system_store b) = staged_generation (system_store a).
Proof.
  intros [Hs _ _ _] Hstep. revert Hs.
  destruct Hstep as [s ps ps' us log events s' E|s ps ps' us log s' E|]; cbn; intros Hs; try done;
    pose proof (publish_next_inv s Hs) as (_ & Hst & _); rewrite E in Hst; done.
Qed.

(** Publication ends and loses nothing: with no further updates the publisher can
    take a step until it is done; every step lowers the work left by one, so it is
    done after exactly the work there was; and then every accepted event is delivered
    and the newest tree is the published one. *)
Theorem publication_drains sys n sys' :
  reachable sys → nsteps publisher_step n sys sys' →
  publication_work sys = (n + publication_work sys')%nat ∧
  (publishers sys' = [] ↔ n = publication_work sys) ∧
  (publishers sys' ≠ [] → ∃ next, publisher_step sys' next) ∧
  (publishers sys' = [] →
    delivered sys' = accepted sys ≫= applied_events ∧
    current (system_store sys') = staged_generation (system_store sys)).
Proof.
  intros Hreach Hsteps.
  assert (system_inv sys' ∧ accepted sys' = accepted sys ∧
    staged_generation (system_store sys') = staged_generation (system_store sys) ∧
    publication_work sys = n + publication_work sys')%nat as (Hinv & Hacc & Hst & Hwork).
  { apply reachable_inv in Hreach. induction Hsteps as [a|n a b c Hab _ IH]; [done|].
    destruct IH as (Hc & Ha & Hs & Hw); [by eapply publisher_step_inv|].
    destruct (publisher_step_keeps a b Hreach Hab) as [Ha' Hs'].
    rewrite (publisher_step_work a b Hab), Hw. split_and!; [done|congruence|congruence|lia]. }
  assert (publishers sys' = [] ↔ publication_work sys' = 0)%nat as Hdone.
  { unfold publication_work. pose proof (sv_publishers _ Hinv) as Hp.
    destruct (publishers sys') as [|q qs]; cbn; [|split; [done|lia]].
    by rewrite (si_idle _ (sv_store _ Hinv) Hp). }
  split_and!; [lia|rewrite Hdone; lia|apply publisher_goes_on|].
  intros Hnone. destruct Hinv as [Hs Hp Hstr _]. rewrite Hnone in Hp, Hstr.
  pose proof (si_idle _ Hs Hp) as Hidle. rewrite Hidle in Hstr. cbn in Hstr.
  rewrite app_nil_r in Hstr. rewrite Hstr, Hacc, <- Hst. split; [done|].
  unfold staged_generation. by rewrite Hidle.
Qed.

(** ** Witnesses *)

(** A window with a button; a text comes in, and the button leaves. *)
Definition demo_first : UiUpdate := MkUpdate 1 (SnapshotPayload
  (from_records (MkMetadata 7 1 1 1 true) [demo_node 1 2; demo_node 2 15] [1%N]
    [MkRelation 1 2 relation_contains])).

Definition demo_second : UiUpdate := MkUpdate 2 (DeltaPayload
  (MkUiDelta (MkMetadata 7 1 1 2 true) 1 [demo_node 3 11] [] [2%N]
    [MkChange RelationChangeKind.Add 1 3 relation_contains])).

(** The store after an update, and what [apply] returned. *)
Definition store_after (s : TreeStore) (update : UiUpdate) : TreeStore :=
  match stage s update with Some (_, s') => s' | None => s end.

Definition answer (s : TreeStore) (update : UiUpdate) : AppliedDelta :=
  match stage s update with Some (Ok (applied, _), _) => applied | _ => MkApplied 0 0 [] end.

Definition demo_published : TreeStore := (publish_next (store_after empty_store demo_first)).2.

Definition demo_system : StoreSystem :=
  let a1 := answer empty_store demo_first in
  MkSystem (store_after demo_published demo_second) [applied_events a1]
    [a1; answer demo_published demo_second] [].

Lemma demo_stages :
  stage empty_store demo_first =
    Some (Ok (answer empty_store demo_first, true), store_after empty_store demo_first) ∧
  publish_next (store_after empty_store demo_first) =
    (Some (applied_events (answer empty_store demo_first)), demo_published) ∧
  stage demo_published demo_second =
    Some (Ok (answer demo_published demo_second, false), store_after demo_published demo_second).
Proof. split_and!; vm_compute; reflexivity. Qed.

(** The second update is accepted while the events of the first are being delivered. *)
Lemma demo_reachable : reachable demo_system.
Proof.
  destruct demo_stages as (H1 & H2 & H3).
  eapply rtc_l; [left; exact (step_accept empty_store [] [] [] demo_first _ _ _ H1)|].
  eapply rtc_l; [right; exact (step_publish _ [] [] _ [] _ _ H2)|].
  eapply rtc_l; [left; exact (step_accept _ _ _ _ demo_second _ _ _ H3)|]. apply rtc_refl.
Qed.

Lemma demo_stale :
  match stage (system_store demo_system) demo_second with
  | Some (Err e, _) => err_code e = ErrorCode.ResyncRequired
  | _ => False
  end.
Proof. vm_compute. reflexivity. Qed.

(** Sent again, the second update is stale. *)
Lemma updates_accepted_exactly_witness :
  ∃ e s', stage (system_store demo_system) demo_second = Some (Err e, s') ∧
    err_code e = ErrorCode.ResyncRequired ∧
    (∀ m c, ¬ acceptable (system_store demo_system) demo_second m c) ∧
    same_trees (system_store demo_system) s'.
Proof.
  destruct (updates_accepted_exactly demo_system demo_second demo_reachable) as (r & s' & E & Hr).
  pose proof demo_stale as H. rewrite E in H. destruct r as [[applied pub]|e]; [destruct H|].
  exists e, s'. split; [exact E|]. split; [exact H|]. exact Hr.
Defined.

Lemma applied_events_exact_witness :
  ∃ s', stage empty_store demo_first = Some (Ok (answer empty_store demo_first, true), s') ∧
    replay (∅, ∅) (applied_events (answer empty_store demo_first)) =
      view_of (staged_generation s').
Proof.
  exists (store_after empty_store demo_first).
  assert (stage empty_store demo_first = Some (Ok (answer empty_store demo_first, true),
    store_after empty_store demo_first)) as E by apply demo_stages.
  split; [exact E|].
  destruct (applied_events_exact initial_system demo_first _ _ _ (rtc_refl _ _) E)
    as (g & -> & _ & _ & Hr). exact Hr.
Defined.

Lemma events_published_in_order_witness :
  length (publishers demo_system) = 1%nat ∧
  delivered demo_system ++ concat (publishers demo_system) ++
    (pending_updates (system_store demo_system) ≫= λ p, applied_events (prepared_applied p)) =
    accepted demo_system ≫= applied_events ∧
  length (accepted demo_system ≫= applied_events) = 7%nat.
Proof.
  split; [reflexivity|]. split; [|vm_compute; reflexivity].
  apply (events_published_in_order demo_system demo_reachable).
Defined.

Lemma published_trees_are_queryable_witness :
  ∃ snapshot, store_snapshot (system_store demo_system) = Some snapshot ∧
    validate_navigation (snapshot_nav snapshot) (locator_plan demo_query) = Ok ().
Proof.
  destruct (store_snapshot (system_store demo_system)) as [snapshot|] eqn:E.
  - exists snapshot. split; [reflexivity|].
    apply (published_trees_are_queryable demo_system); [apply demo_reachable|left; exact E].
  - exfalso. revert E. vm_compute. discriminate.
Defined.

Lemma retired_runtimes_stay_out_witness :
  let s := system_store demo_system in
  staged_runtime s = Some 7%N ∧ 7%N ∉ retired_runtimes s.
Proof.
  split; [vm_compute; reflexivity|].
  destruct (retired_runtimes_stay_out demo_system demo_system demo_reachable (rtc_refl _ _))
    as (_ & H & _). apply H. vm_compute. reflexivity.
Defined.

Lemma publication_drains_witness :
  publication_work demo_system = 9%nat ∧
  ∃ next, publisher_step demo_system next.
Proof.
  split; [vm_compute; reflexivity|].
  destruct (publication_drains demo_system 0 demo_system demo_reachable (nsteps_O _ _))
    as (_ & _ & H & _). apply H. discriminate.
Defined.
