(* ===== verification/Png.v ===== *)
(** The PNG codec ([src/codec/png.cpp]) and the image it converts
    ([include/grab/image.hpp]).

    A byte is a number below 256, a size a number below 2^64.  [zlib] is a library:
    the class [Zlib] holds the three functions the codec calls, [None] standing for
    any status but [Z_OK].  A computation that indexes a span or a vector is an
    option: [None] is a read outside it, and a function that answers an optional itself
    returns an option of an option. *)

From S2P Require Import Prelude Errors.

Local Open Scope N_scope.

Abbreviation Byte := N.

(** ** Images *)

Module PixelFormat.

Inductive PixelFormat : Type :=
  | Bgra | Rgba | Rgb | Bgr | Gray.

End PixelFormat.
Abbreviation PixelFormat := PixelFormat.PixelFormat.

#[export] Instance PixelFormat_eq_dec : EqDecision PixelFormat.
Proof. solve_decision. Defined.

Definition bytes_per_pixel (format : PixelFormat) : N :=
  match format with
  | PixelFormat.Bgra | PixelFormat.Rgba => 4
  | PixelFormat.Rgb | PixelFormat.Bgr => 3
  | PixelFormat.Gray => 1
  end.

Record Image := MkImage {
  img_width : N;
  img_height : N;
  img_stride : N;
  img_format : PixelFormat;
  img_pixels : list Byte
}.

Definition image_empty (image : Image) : bool :=
  bool_decide (img_width image = 0) || bool_decide (img_height image = 0).

(** The largest [std::size_t], and the largest [std::uint32_t]. *)
Definition max_size : N := 2 ^ 64 - 1.

Definition max_u32 : N := 2 ^ 32 - 1.

Definition size_of {A} (l : list A) : N := N.of_nat (length l).

(** [span.subspan], which is undefined past the end of the span. *)
Definition subspan (bytes : list Byte) (offset count : N) : option (list Byte) :=
  if decide (offset <= size_of bytes ∧ count <= size_of bytes - offset)
  then Some (take (N.to_nat count) (drop (N.to_nat offset) bytes)) else None.

Definition image_row (image : Image) (y : N) : option (list Byte) :=
  if decide (img_height image <= y) then Some []
  else if decide (img_stride image ≠ 0 ∧ max_size / img_stride image < y) then Some []
  else
    let offset := y * img_stride image in
    if decide (size_of (img_pixels image) < offset ∨
               size_of (img_pixels image) - offset < img_stride image)
    then Some [] else subspan (img_pixels image) offset (img_stride image).

(** ** The format *)

Definition pngSignature : list Byte := [0x89; 0x50; 0x4E; 0x47; 0x0D; 0x0A; 0x1A; 0x0A].

Abbreviation ChunkType := (list Byte).

(** The letters I H D R, P L T E, I D A T, I E N D, t R N S. *)
Definition chunkIhdr : ChunkType := [73; 72; 68; 82].

Definition chunkPlte : ChunkType := [80; 76; 84; 69].

Definition chunkIdat : ChunkType := [73; 68; 65; 84].

Definition chunkIend : ChunkType := [73; 69; 78; 68].

Definition chunkTrns : ChunkType := [116; 82; 78; 83].

Definition pngUint32Bytes : N := 4.

Definition pngChunkLengthBytes : N := 4.

Definition pngChunkTypeBytes : N := 4.

Definition pngChunkOverheadBytes : N := 12.

Definition pngIhdrBytes : N := 13.

Definition pngBitDepth8 : Byte := 8.

Definition pngMethodNone : Byte := 0.

Definition grayBytes : N := 1.

Definition rgbBytes : N := 3.

Definition rgbaBytes : N := 4.

Definition paletteEntryBytes : N := 3.

Definition maxPaletteEntries : N := 256.

Definition opaqueAlpha : Byte := 255.

Definition maxChunkBytes : N := 64 * 1024 * 1024.

Definition maxCompressedBytes : N := 64 * 1024 * 1024.

Definition maxDecodedBytes : N := 256 * 1024 * 1024.

Module PngColorType.

Inductive PngColorType : Type :=
  | Grayscale | Truecolor | Palette | GrayscaleAlpha | TruecolorAlpha.

End PngColorType.
Abbreviation PngColorType := PngColorType.PngColorType.

#[export] Instance PngColorType_eq_dec : EqDecision PngColorType.
Proof. solve_decision. Defined.

Definition color_type_byte (color_type : PngColorType) : Byte :=
  match color_type with
  | PngColorType.Grayscale => 0
  | PngColorType.Truecolor => 2
  | PngColorType.Palette => 3
  | PngColorType.GrayscaleAlpha => 4
  | PngColorType.TruecolorAlpha => 6
  end.

Module FilterType.

Inductive FilterType : Type :=
  | None | Sub | Up | Average | Paeth.

End FilterType.
Abbreviation FilterType := FilterType.FilterType.

Definition filter_byte (filter : FilterType) : Byte :=
  match filter with
  | FilterType.None => 0
  | FilterType.Sub => 1
  | FilterType.Up => 2
  | FilterType.Average => 3
  | FilterType.Paeth => 4
  end.

Record Ihdr := MkIhdr {
  ihdr_width : N; ihdr_height : N; ihdr_bit_depth : Byte; ihdr_color_type : PngColorType;
  ihdr_compression : Byte; ihdr_filter : Byte; ihdr_interlace : Byte
}.

Definition default_ihdr : Ihdr := MkIhdr 0 0 0 PngColorType.TruecolorAlpha 0 0 0.

Record ParsedPng := MkParsed {
  png_ihdr : Ihdr; png_idat : list Byte; png_palette : list Byte; png_transparency : list Byte
}.

Record ParseState := MkParse { state_png : ParsedPng; seen_ihdr : bool; seen_idat : bool }.

Definition initial_parse : ParseState := MkParse (MkParsed default_ihdr [] [] []) false false.

Record EncodeLayout := MkEncode {
  encode_row_bytes : N; png_row_bytes : N; encode_filtered_bytes : N; source_pixel_bytes : N;
  encode_color_type : PngColorType
}.

Record DecodeLayout := MkDecode {
  source_row_bytes : N; filtered_row_bytes : N; filtered_bytes : N; filter_pixel_bytes : N;
  output_stride : N; output_bytes : N; output_format : PixelFormat
}.

Definition png_protocol_error (message : string) : Error :=
  fail_with ErrorCode.ProtocolError ("malformed PNG: " +:+ message).

Definition invalid_image_error (message : string) : Error :=
  fail_with ErrorCode.InvalidArgument ("invalid image: " +:+ message).

Definition codec_failure (message : string) : Error :=
  fail_with ErrorCode.InternalFault ("PNG codec failure: " +:+ message).

(** [None] when the result overflows. *)
Definition checked_mul (left right : N) : option N :=
  if decide (right ≠ 0 ∧ max_size / right < left) then None else Some (left * right).

Definition checked_add (left right : N) : option N :=
  if decide (max_size - right < left) then None else Some (left + right).

Definition has_bytes (bytes : list Byte) (offset count : N) : bool :=
  bool_decide (offset <= size_of bytes) && bool_decide (count <= size_of bytes - offset).

(** The inner option is the function's own answer. *)
Definition read_be32 (bytes : list Byte) (offset : N) : option (option N) :=
  if negb (has_bytes bytes offset pngUint32Bytes) then Some None
  else
    span ← subspan bytes offset pngUint32Bytes;
    Some (Some (foldl (λ value byte, N.lor (N.shiftl value 8 mod 2 ^ 32) byte) 0 span)).

Definition read_byte (bytes : list Byte) (offset : N) : option (option Byte) :=
  if negb (has_bytes bytes offset 1) then Some None
  else span ← subspan bytes offset 1; front ← head span; Some (Some front).

Definition append_be32 (output : list Byte) (value : N) : list Byte :=
  output ++ [N.land (N.shiftr value 24) 255; N.land (N.shiftr value 16) 255;
             N.land (N.shiftr value 8) 255; N.land value 255].

Definition parse_color_type (value : Byte) : option PngColorType :=
  match value with
  | 0 => Some PngColorType.Grayscale
  | 2 => Some PngColorType.Truecolor
  | 3 => Some PngColorType.Palette
  | 4 => Some PngColorType.GrayscaleAlpha
  | 6 => Some PngColorType.TruecolorAlpha
  | _ => None
  end.

Definition parse_filter_type (value : Byte) : option FilterType :=
  match value with
  | 0 => Some FilterType.None
  | 1 => Some FilterType.Sub
  | 2 => Some FilterType.Up
  | 3 => Some FilterType.Average
  | 4 => Some FilterType.Paeth
  | _ => None
  end.

Definition is_ascii_letter (value : Byte) : bool :=
  ((65 <=? value) && (value <=? 90)) || ((97 <=? value) && (value <=? 122)).

Definition is_chunk_type_valid (type : ChunkType) : bool := forallb is_ascii_letter type.

Definition is_critical_chunk (type : ChunkType) : bool :=
  match type with first :: _ => (65 <=? first) && (first <=? 90) | [] => false end.

Definition read_chunk_type (bytes : list Byte) (offset : N) : option (option ChunkType) :=
  if negb (has_bytes bytes offset pngChunkTypeBytes) then Some None
  else span ← subspan bytes offset pngChunkTypeBytes; Some (Some span).

(** ** The library the codec calls *)

(** [crc32] continues a checksum over more data; [compress2] compresses into a buffer of
    [compressBound] bytes; [uncompress] inflates into a buffer of the given size. *)
Class Zlib := {
  crc32 : N → list Byte → N;
  compressBound : N → N;
  compress2 : list Byte → option (list Byte);
  uncompress : N → list Byte → option (list Byte)
}.

Section codec.
Context {zlib : Zlib}.

Definition chunk_crc (type : ChunkType) (data : list Byte) : N :=
  let crc := crc32 0 type in
  match data with [] => crc | _ => crc32 crc data end.

Definition append_chunk (output : list Byte) (type : ChunkType) (data : list Byte)
    : Result (list Byte) :=
  if decide (max_u32 < size_of data ∨ maxChunkBytes < size_of data) then
    Err (codec_failure "chunk is too large")
  else
    let output := append_be32 output (size_of data) in
    let output := (output ++ type) ++ data in
    Ok (append_be32 output (chunk_crc type data)).

(** ** Encoding *)

Definition encode_channels (format : PixelFormat) : PngColorType * N :=
  match format with
  | PixelFormat.Gray => (PngColorType.Grayscale, grayBytes)
  | PixelFormat.Rgb | PixelFormat.Bgr => (PngColorType.Truecolor, rgbBytes)
  | PixelFormat.Rgba | PixelFormat.Bgra => (PngColorType.TruecolorAlpha, rgbaBytes)
  end.

Definition validate_encode_image (image : Image) : Result EncodeLayout :=
  if image_empty image then Err (invalid_image_error "width and height must be non-zero") else
  let source_pixel_bytes := bytes_per_pixel (img_format image) in
  let width := img_width image in
  let height := img_height image in
  match checked_mul width source_pixel_bytes with
  | None => Err (invalid_image_error "source row size overflows")
  | Some source_row_bytes =>
    if decide (img_stride image < source_row_bytes) then
      Err (invalid_image_error "stride is smaller than the pixel row")
    else
      match checked_mul height (img_stride image) with
      | None => Err (invalid_image_error "pixel buffer size overflows")
      | Some required_pixels =>
        if decide (size_of (img_pixels image) < required_pixels) then
          Err (invalid_image_error "pixel buffer is shorter than height*stride")
        else
          let '(color_type, channels) := encode_channels (img_format image) in
          let png_row_bytes := width * channels in
          match (filtered_row_bytes ← checked_add png_row_bytes 1;
                 checked_mul filtered_row_bytes height) with
          | None => Err (invalid_image_error "filtered scanline size overflows")
          | Some filtered_bytes =>
            if decide (maxDecodedBytes < filtered_bytes) then
              Err (invalid_image_error "image is too large to encode")
            else
              Ok (MkEncode source_row_bytes png_row_bytes filtered_bytes source_pixel_bytes
                    color_type)
          end
      end
  end.

Definition source_byte_at (row : list Byte) (offset : N) : option Byte :=
  row !! N.to_nat offset.

Definition append_direct_row (scanlines row : list Byte) (row_bytes : N) : option (list Byte) :=
  span ← subspan row 0 row_bytes; Some (scanlines ++ span).

(** The loops of [append_bgr_row] and [append_bgra_row]: [count] pixels from [offset] on. *)
Fixpoint append_bgr_row (count : nat) (scanlines row : list Byte) (offset step : N)
    : option (list Byte) :=
  match count with
  | O => Some scanlines
  | S count =>
    r ← source_byte_at row (offset + 2);
    g ← source_byte_at row (offset + 1);
    b ← source_byte_at row offset;
    append_bgr_row count (scanlines ++ [r; g; b]) row (offset + step) step
  end.

Fixpoint append_bgra_row (count : nat) (scanlines row : list Byte) (offset step : N)
    : option (list Byte) :=
  match count with
  | O => Some scanlines
  | S count =>
    r ← source_byte_at row (offset + 2);
    g ← source_byte_at row (offset + 1);
    b ← source_byte_at row offset;
    a ← source_byte_at row (offset + 3);
    append_bgra_row count (scanlines ++ [r; g; b; a]) row (offset + step) step
  end.

(** How often [for( offset = 0; offset < bytes; offset += step )] runs. *)
Definition loop_count (bytes step : N) : nat := N.to_nat ((bytes + step - 1) / step).

Definition append_row (image : Image) (layout : EncodeLayout) (scanlines row : list Byte)
    : option (list Byte) :=
  match img_format image with
  | PixelFormat.Gray | PixelFormat.Rgb | PixelFormat.Rgba =>
    append_direct_row scanlines row (png_row_bytes layout)
  | PixelFormat.Bgr =>
    append_bgr_row (loop_count (encode_row_bytes layout) (source_pixel_bytes layout))
      scanlines row 0 (source_pixel_bytes layout)
  | PixelFormat.Bgra =>
    append_bgra_row (loop_count (encode_row_bytes layout) (source_pixel_bytes layout))
      scanlines row 0 (source_pixel_bytes layout)
  end.

(** The rows [ys] in turn. *)
Fixpoint filtered_scanlines_of (image : Image) (layout : EncodeLayout) (ys : list nat)
    (scanlines : list Byte) : option (Result (list Byte)) :=
  match ys with
  | [] => Some (Ok scanlines)
  | y :: ys =>
    row ← image_row image (N.of_nat y);
    match row with
    | [] => Some (Err (invalid_image_error "row is outside the pixel buffer"))
    | row =>
      scanlines ← append_row image layout (scanlines ++ [filter_byte FilterType.None]) row;
      filtered_scanlines_of image layout ys scanlines
    end
  end.

Definition make_filtered_scanlines (image : Image) (layout : EncodeLayout)
    : option (Result (list Byte)) :=
  filtered_scanlines_of image layout (seq 0 (N.to_nat (img_height image))) [].

Definition zlib_compress (bytes : list Byte) : Result (list Byte) :=
  if decide (max_size < size_of bytes) then
    Err (codec_failure "source buffer is too large for zlib")
  else if decide (max_size < compressBound (size_of bytes)) then
    Err (codec_failure "compressed buffer bound overflows")
  else
    match compress2 bytes with
    | None => Err (codec_failure "zlib compression failed")
    | Some compressed => Ok compressed
    end.

Definition encode_ihdr (image : Image) (layout : EncodeLayout) : list Byte :=
  append_be32 (append_be32 [] (img_width image)) (img_height image) ++
  [pngBitDepth8; color_type_byte (encode_color_type layout); pngMethodNone; pngMethodNone;
   pngMethodNone].

Definition encode_png (image : Image) : option (Result (list Byte)) :=
  match validate_encode_image image with
  | Err error => Some (Err error)
  | Ok layout =>
    scanlines ← make_filtered_scanlines image layout;
    Some (scanlines ← scanlines;
          compressed ← zlib_compress scanlines;
          png ← append_chunk pngSignature chunkIhdr (encode_ihdr image layout);
          png ← append_chunk png chunkIdat compressed;
          append_chunk png chunkIend [])
  end.

(** ** Parsing *)

Definition zlib_inflate_exact (compressed : list Byte) (expected_size : N) : Result (list Byte) :=
  match compressed with
  | [] => Err (png_protocol_error "missing IDAT data")
  | _ =>
    if decide (max_size < size_of compressed ∨ max_size < expected_size) then
      Err (png_protocol_error "zlib buffer size is unsupported")
    else
      match uncompress expected_size compressed with
      | Some inflated =>
        if decide (size_of inflated = expected_size) then Ok inflated
        else Err (png_protocol_error "IDAT zlib stream is invalid")
      | None => Err (png_protocol_error "IDAT zlib stream is invalid")
      end
  end.

(** The checks of [parse_ihdr] once the fields were read. *)
Definition check_ihdr (width height : option N) (bit_depth color_byte compression filter interlace : option Byte)
    : Result Ihdr :=
    match width, height, bit_depth, color_byte, compression, filter, interlace with
    | Some width, Some height, Some bit_depth, Some color_byte, Some compression, Some filter,
      Some interlace =>
      match parse_color_type color_byte with
      | None => Err (png_protocol_error "IHDR color type is unsupported")
      | Some color_type =>
        if decide (width = 0 ∨ height = 0) then
          Err (png_protocol_error "IHDR dimensions must be non-zero")
        else if decide (bit_depth ≠ pngBitDepth8) then
          Err (png_protocol_error "only 8-bit PNG images are supported")
        else if decide (color_type = PngColorType.GrayscaleAlpha) then
          Err (png_protocol_error "grayscale alpha PNG images are unsupported")
        else if decide (compression ≠ pngMethodNone ∨ filter ≠ pngMethodNone ∨
                        interlace ≠ pngMethodNone) then
          Err (png_protocol_error "unsupported compression, filter, or interlace method")
        else Ok (MkIhdr width height bit_depth color_type compression filter interlace)
      end
    | _, _, _, _, _, _, _ => Err (png_protocol_error "IHDR is truncated")
    end.

Definition parse_ihdr (data : list Byte) : option (Result Ihdr) :=
  if decide (size_of data ≠ pngIhdrBytes) then
    Some (Err (png_protocol_error "IHDR has an invalid size"))
  else
    width ← read_be32 data 0; height ← read_be32 data 4; bit_depth ← read_byte data 8;
    color_byte ← read_byte data 9; compression ← read_byte data 10;
    filter ← read_byte data 11; interlace ← read_byte data 12;
    Some (check_ihdr width height bit_depth color_byte compression filter interlace).

Definition set_png (state : ParseState) (png : ParsedPng) : ParseState :=
  MkParse png (seen_ihdr state) (seen_idat state).

Definition parse_plte (state : ParseState) (data : list Byte) : Result ParseState :=
  if negb (seen_ihdr state) || seen_idat state then
    Err (png_protocol_error "PLTE appears in an invalid position")
  else if decide (data = [] ∨ size_of data mod paletteEntryBytes ≠ 0 ∨
                  maxPaletteEntries < size_of data / paletteEntryBytes) then
    Err (png_protocol_error "PLTE has an invalid size")
  else
    let p := state_png state in
    Ok (set_png state (MkParsed (png_ihdr p) (png_idat p) data (png_transparency p))).

Definition parse_trns (state : ParseState) (data : list Byte) : Result ParseState :=
  let p := state_png state in
  if negb (seen_ihdr state) || seen_idat state then
    Err (png_protocol_error "tRNS appears in an invalid position")
  else if decide (ihdr_color_type (png_ihdr p) ≠ PngColorType.Palette) then
    Err (png_protocol_error "tRNS is only supported for palette PNGs")
  else if decide (png_palette p = []) then
    Err (png_protocol_error "palette tRNS appears before PLTE")
  else if decide (size_of (png_palette p) / paletteEntryBytes < size_of data) then
    Err (png_protocol_error "palette tRNS is larger than PLTE")
  else Ok (set_png state (MkParsed (png_ihdr p) (png_idat p) (png_palette p) data)).

Definition append_idat (state : ParseState) (data : list Byte) : Result ParseState :=
  let p := state_png state in
  if negb (seen_ihdr state) then Err (png_protocol_error "IDAT appears before IHDR")
  else if decide (maxCompressedBytes < size_of data ∨
                  maxCompressedBytes - size_of data < size_of (png_idat p)) then
    Err (png_protocol_error "IDAT data is too large")
  else
    Ok (MkParse (MkParsed (png_ihdr p) (png_idat p ++ data) (png_palette p) (png_transparency p))
          (seen_ihdr state) true).

(** Whether the chunk ends the file, and the state after it. *)
Definition process_chunk (state : ParseState) (type : ChunkType) (data : list Byte)
    : option (Result (bool * ParseState)) :=
  if negb (is_chunk_type_valid type) then
    Some (Err (png_protocol_error "chunk type contains non-letter bytes"))
  else if decide (type = chunkIhdr) then
    if seen_ihdr state || seen_idat state then
      Some (Err (png_protocol_error "IHDR appears in an invalid position"))
    else
      ihdr ← parse_ihdr data;
      let p := state_png state in
      Some (ihdr ← ihdr;
            Ok (false, MkParse (MkParsed ihdr (png_idat p) (png_palette p) (png_transparency p)) true
                         (seen_idat state)))
  else Some (
  if negb (seen_ihdr state) then Err (png_protocol_error "IHDR must be the first chunk")
  else if decide (type = chunkPlte) then state ← parse_plte state data; Ok (false, state)
  else if decide (type = chunkTrns) then state ← parse_trns state data; Ok (false, state)
  else if decide (type = chunkIdat) then state ← append_idat state data; Ok (false, state)
  else if decide (type = chunkIend) then
    if decide (data ≠ []) then Err (png_protocol_error "IEND is not empty") else Ok (true, state)
  else if is_critical_chunk type then Err (png_protocol_error "unknown critical chunk")
  else Ok (false, state)).

(** What is left to do once IEND was read. *)
Definition finish_parse (bytes : list Byte) (offset : N) (state : ParseState) : Result ParsedPng :=
  if decide (offset ≠ size_of bytes) then Err (png_protocol_error "trailing data after IEND")
  else if negb (seen_idat state) then Err (png_protocol_error "missing IDAT data")
  else if decide (ihdr_color_type (png_ihdr (state_png state)) = PngColorType.Palette ∧
                  png_palette (state_png state) = []) then
    Err (png_protocol_error "palette PNG is missing PLTE")
  else Ok (state_png state).

(** The chunk at [offset]: its type, its data and the offset after it. *)
Definition read_chunk (bytes : list Byte) (offset : N)
    : option (Result (ChunkType * list Byte * N)) :=
  if negb (has_bytes bytes offset pngChunkOverheadBytes) then
    Some (Err (png_protocol_error "truncated chunk header"))
  else
    data_size ← read_be32 bytes offset;
    match data_size with
    | None => Some (Err (png_protocol_error "truncated chunk length"))
    | Some data_size =>
      if decide (maxChunkBytes < data_size) then Some (Err (png_protocol_error "chunk is too large"))
      else
        match checked_add pngChunkOverheadBytes data_size with
        | None => Some (Err (png_protocol_error "truncated chunk data"))
        | Some chunk_bytes =>
          if negb (has_bytes bytes offset chunk_bytes) then
            Some (Err (png_protocol_error "truncated chunk data"))
          else
            let type_offset := offset + pngChunkLengthBytes in
            type ← read_chunk_type bytes type_offset;
            match type with
            | None => Some (Err (png_protocol_error "truncated chunk type"))
            | Some type =>
              let data_offset := type_offset + pngChunkTypeBytes in
              let crc_offset := data_offset + data_size in
              expected_crc ← read_be32 bytes crc_offset;
              match expected_crc with
              | None => Some (Err (png_protocol_error "truncated chunk CRC"))
              | Some expected_crc =>
                data ← subspan bytes data_offset data_size;
                if decide (chunk_crc type data ≠ expected_crc) then
                  Some (Err (png_protocol_error "chunk CRC mismatch"))
                else Some (Ok (type, data, offset + chunk_bytes))
              end
            end
        end
    end.

(** The loop of [parse_png]; every round reads at least twelve bytes. *)
Fixpoint parse_chunks (fuel : nat) (bytes : list Byte) (offset : N) (state : ParseState)
    : option (Result ParsedPng) :=
  match fuel with
  | O => None
  | S fuel =>
    if decide (size_of bytes <= offset) then Some (Err (png_protocol_error "missing IEND chunk"))
    else
      chunk ← read_chunk bytes offset;
      match chunk with
      | Err error => Some (Err error)
      | Ok (type, data, offset) =>
        result ← process_chunk state type data;
        match result with
        | Err error => Some (Err error)
        | Ok (true, state) => Some (finish_parse bytes offset state)
        | Ok (false, state) => parse_chunks fuel bytes offset state
        end
      end
  end.

Definition parse_png (bytes : list Byte) : option (Result ParsedPng) :=
  if decide (size_of bytes < size_of pngSignature) then
    Some (Err (png_protocol_error "signature mismatch"))
  else
    span ← subspan bytes 0 (size_of pngSignature);
    if decide (span ≠ pngSignature) then Some (Err (png_protocol_error "signature mismatch"))
    else parse_chunks (S (length bytes)) bytes (size_of pngSignature) initial_parse.

(** ** Decoding *)

Definition source_channels (color_type : PngColorType) : option N :=
  match color_type with
  | PngColorType.Grayscale | PngColorType.Palette => Some grayBytes
  | PngColorType.Truecolor => Some rgbBytes
  | PngColorType.TruecolorAlpha => Some rgbaBytes
  | PngColorType.GrayscaleAlpha => None
  end.

Definition decode_channels (png : ParsedPng) : option (PixelFormat * N) :=
  match ihdr_color_type (png_ihdr png) with
  | PngColorType.Grayscale => Some (PixelFormat.Gray, grayBytes)
  | PngColorType.Truecolor => Some (PixelFormat.Rgb, rgbBytes)
  | PngColorType.TruecolorAlpha => Some (PixelFormat.Rgba, rgbaBytes)
  | PngColorType.Palette =>
    if decide (png_transparency png = []) then Some (PixelFormat.Rgb, rgbBytes)
    else Some (PixelFormat.Rgba, rgbaBytes)
  | PngColorType.GrayscaleAlpha => None
  end.

Definition decode_layout_for (png : ParsedPng) : Result DecodeLayout :=
  match source_channels (ihdr_color_type (png_ihdr png)) with
  | None => Err (png_protocol_error "unsupported color type")
  | Some input_channels =>
    let width := ihdr_width (png_ihdr png) in
    let height := ihdr_height (png_ihdr png) in
    match (source_row_bytes ← checked_mul width input_channels;
           filtered_row_bytes ← checked_add source_row_bytes 1;
           filtered_bytes ← checked_mul filtered_row_bytes height;
           Some (source_row_bytes, filtered_row_bytes, filtered_bytes)) with
    | None => Err (png_protocol_error "decoded source size overflows")
    | Some (source_row_bytes, filtered_row_bytes, filtered_bytes) =>
      match decode_channels png with
      | None => Err (png_protocol_error "unsupported color type")
      | Some (output_format, output_channels) =>
        match (output_stride ← checked_mul width output_channels;
               output_bytes ← checked_mul height output_stride;
               Some (output_stride, output_bytes)) with
        | None => Err (png_protocol_error "decoded output size overflows")
        | Some (output_stride, output_bytes) =>
          if decide (max_u32 < output_stride ∨ maxDecodedBytes < filtered_bytes ∨
                     maxDecodedBytes < output_bytes) then
            Err (png_protocol_error "decoded image is too large")
          else
            Ok (MkDecode source_row_bytes filtered_row_bytes filtered_bytes input_channels
                  output_stride output_bytes output_format)
        end
      end
    end
  end.

Definition paeth_predictor (left up up_left : Byte) : Byte :=
  let estimate := (Z.of_N left + Z.of_N up - Z.of_N up_left)%Z in
  let left_distance := Z.abs (estimate - Z.of_N left) in
  let up_distance := Z.abs (estimate - Z.of_N up) in
  let diag_distance := Z.abs (estimate - Z.of_N up_left) in
  if decide (left_distance <= up_distance ∧ left_distance <= diag_distance)%Z then left
  else if decide (up_distance <= diag_distance)%Z then up else up_left.

Definition filter_predictor (filter : FilterType) (left up up_left : Byte) : Byte :=
  match filter with
  | FilterType.None => 0
  | FilterType.Sub => left
  | FilterType.Up => up
  | FilterType.Average => (left + up) / 2
  | FilterType.Paeth => paeth_predictor left up up_left
  end.

Definition reconstruct_byte (filtered predictor : Byte) : Byte := (filtered + predictor) mod 256.

(** [vector.at( i ) = value]. *)
Definition set_at (bytes : list Byte) (i : nat) (value : Byte) : option (list Byte) :=
  if decide (i < length bytes)%nat then Some (<[i := value]> bytes) else None.

(** Column [x] of row [y]. *)
Definition unfilter_byte (inflated : list Byte) (layout : DecodeLayout) (filter : FilterType)
    (y x : nat) (raw : list Byte) : option (list Byte) :=
  let row_bytes := N.to_nat (source_row_bytes layout) in
  let pixel_bytes := N.to_nat (filter_pixel_bytes layout) in
  let input_row := (y * N.to_nat (filtered_row_bytes layout))%nat in
  let output_row := (y * row_bytes)%nat in
  left ← (if decide (pixel_bytes <= x)%nat then raw !! (output_row + x - pixel_bytes)%nat
          else Some 0);
  up ← (if decide (0 < y)%nat then raw !! (output_row - row_bytes + x)%nat else Some 0);
  up_left ← (if decide (0 < y ∧ pixel_bytes <= x)%nat
             then raw !! (output_row - row_bytes + x - pixel_bytes)%nat else Some 0);
  filtered ← inflated !! (input_row + 1 + x)%nat;
  set_at raw (output_row + x)
    (reconstruct_byte filtered (filter_predictor filter left up up_left)).

Fixpoint unfilter_columns (inflated : list Byte) (layout : DecodeLayout) (filter : FilterType)
    (y : nat) (xs : list nat) (raw : list Byte) : option (list Byte) :=
  match xs with
  | [] => Some raw
  | x :: xs =>
    raw ← unfilter_byte inflated layout filter y x raw;
    unfilter_columns inflated layout filter y xs raw
  end.

Fixpoint unfilter_rows (inflated : list Byte) (layout : DecodeLayout) (ys : list nat)
    (raw : list Byte) : option (Result (list Byte)) :=
  match ys with
  | [] => Some (Ok raw)
  | y :: ys =>
    first ← inflated !! (y * N.to_nat (filtered_row_bytes layout))%nat;
    match parse_filter_type first with
    | None => Some (Err (png_protocol_error "unknown scanline filter"))
    | Some filter =>
      raw ← unfilter_columns inflated layout filter y
              (seq 0 (N.to_nat (source_row_bytes layout))) raw;
      unfilter_rows inflated layout ys raw
    end
  end.

Definition unfilter_scanlines (inflated : list Byte) (layout : DecodeLayout) (height : N)
    : option (Result (list Byte)) :=
  if decide (size_of inflated ≠ filtered_bytes layout) then
    Some (Err (png_protocol_error "inflated data has the wrong size"))
  else
    unfilter_rows inflated layout (seq 0 (N.to_nat height))
      (replicate (N.to_nat (source_row_bytes layout * height)) 0).

(** One palette index: its three channels, and the alpha when there is any. *)
Definition palette_entry (png : ParsedPng) (index : nat) : option (list Byte) :=
  let palette_offset := (index * N.to_nat paletteEntryBytes)%nat in
  r ← png_palette png !! palette_offset;
  g ← png_palette png !! (palette_offset + 1)%nat;
  b ← png_palette png !! (palette_offset + 2)%nat;
  match png_transparency png with
  | [] => Some [r; g; b]
  | transparency => Some [r; g; b; default opaqueAlpha (transparency !! index)]
  end.

Fixpoint expand_indexes (png : ParsedPng) (raw expanded : list Byte)
    : option (Result (list Byte)) :=
  match raw with
  | [] => Some (Ok expanded)
  | index :: raw =>
    if decide (size_of (png_palette png) / paletteEntryBytes <= index) then
      Some (Err (png_protocol_error "palette index is outside PLTE"))
    else
      entry ← palette_entry png (N.to_nat index);
      expand_indexes png raw (expanded ++ entry)
  end.

Definition expand_palette (png : ParsedPng) (layout : DecodeLayout) (raw : list Byte)
    : option (Result (list Byte)) :=
  expanded ← expand_indexes png raw [];
  Some (expanded ← expanded;
        if decide (size_of expanded ≠ output_bytes layout)
        then Err (png_protocol_error "expanded palette has the wrong size") else Ok expanded).

Definition image_from_raw (png : ParsedPng) (layout : DecodeLayout) (raw : list Byte)
    : option (Result Image) :=
  pixels ← (if decide (ihdr_color_type (png_ihdr png) = PngColorType.Palette)
            then expand_palette png layout raw else Some (Ok raw));
  Some (pixels ← pixels;
        Ok (MkImage (ihdr_width (png_ihdr png)) (ihdr_height (png_ihdr png))
              (output_stride layout mod 2 ^ 32) (output_format layout) pixels)).

Definition decode_png (bytes : list Byte) : option (Result Image) :=
  parsed ← parse_png bytes;
  match (parsed ← parsed; layout ← decode_layout_for parsed;
         inflated ← zlib_inflate_exact (png_idat parsed) (filtered_bytes layout);
         Ok (parsed, layout, inflated)) with
  | Err error => Some (Err error)
  | Ok (parsed, layout, inflated) =>
    raw ← unfilter_scanlines inflated layout (ihdr_height (png_ihdr parsed));
    match raw with
    | Err error => Some (Err error)
    | Ok raw => image_from_raw parsed layout raw
    end
  end.

End codec.
