(* ===== verification/PngTheorems.v ===== *)
(** The PNG codec: the file format as a list of chunks, the scanline filters against
    their definition, that decoding never reads outside its buffers, and the round trip
    of an image. *)

From S2P Require Import Prelude Bytes Errors Png.

Local Open Scope N_scope.
Local Open Scope list_scope.

(** What the codec relies on of [zlib]: checksums are 32 bits wide, compressed data is
    not empty, inflating into a buffer of the right size gives back what was compressed,
    and inflated data is made of octets. *)
Class ZlibLaws (zlib : Zlib) : Prop := {
  crc32_range : ∀ crc data, crc32 crc data < 2 ^ 32;
  compress2_nonempty : ∀ data c, Forall octet data → compress2 data = Some c →
    c ≠ [] ∧ Forall octet c;
  uncompress_compress : ∀ data c, Forall octet data → compress2 data = Some c →
    uncompress (size_of data) c = Some data;
  uncompress_octets : ∀ n c data, uncompress n c = Some data → Forall octet data
}.

(** ** Spans *)

Lemma size_of_app {A} (l k : list A) : size_of (l ++ k) = size_of l + size_of k.
Proof. unfold size_of. rewrite length_app. lia. Qed.

Lemma size_of_to_nat {A} (l : list A) : N.to_nat (size_of l) = length l.
Proof. unfold size_of. lia. Qed.

Lemma subspan_middle pre l post :
  subspan (pre ++ l ++ post) (size_of pre) (size_of l) = Some l.
Proof.
  unfold subspan. rewrite decide_True by (rewrite !size_of_app; lia).
  by rewrite !size_of_to_nat, drop_app_length, take_app_length.
Qed.

Lemma has_bytes_true bytes offset count :
  has_bytes bytes offset count = true ↔ offset + count <= size_of bytes.
Proof. unfold has_bytes. rewrite andb_true_iff, !bool_decide_eq_true. lia. Qed.

(** A span inside the data splits it. *)
Lemma subspan_split bytes offset count :
  offset + count <= size_of bytes →
  ∃ pre l post, bytes = pre ++ l ++ post ∧ size_of pre = offset ∧ size_of l = count ∧
    subspan bytes offset count = Some l.
Proof.
  unfold size_of, subspan. intros H.
  exists (take (N.to_nat offset) bytes), (take (N.to_nat count) (drop (N.to_nat offset) bytes)),
    (drop (N.to_nat count) (drop (N.to_nat offset) bytes)).
  rewrite decide_True by (unfold size_of; lia).
  rewrite !take_drop, !length_take, !length_drop. split_and!; [done|lia|lia|done].
Qed.

(** ** Numbers *)

Lemma append_be32_spec output value : append_be32 output value = output ++ field_bytes 4 value.
Proof. done. Qed.

Lemma size_of_be32 value : size_of (field_bytes 4 value) = 4.
Proof. done. Qed.

Lemma read_be32_written pre value post :
  value < 2 ^ 32 → read_be32 (pre ++ field_bytes 4 value ++ post) (size_of pre) = Some (Some value).
Proof.
  intros Hv. unfold read_be32.
  rewrite (proj2 (has_bytes_true _ _ _)) by (rewrite !size_of_app, size_of_be32; unfold pngUint32Bytes; lia).
  cbn [negb]. change pngUint32Bytes with (size_of (field_bytes 4 value)). rewrite subspan_middle.
  cbn [mbind option_bind]. rewrite shift_in_be_value, be_field_bytes by (apply field_bytes_octets || done).
  do 2 f_equal. apply N.mod_small. done.
Qed.

(** Reading a number stays inside the data, and what is read is spelled there. *)
Lemma read_be32_spec bytes offset :
  Forall octet bytes →
  ∃ r, read_be32 bytes offset = Some r ∧
    ∀ value, r = Some value →
      ∃ pre post, bytes = pre ++ field_bytes 4 value ++ post ∧ size_of pre = offset ∧ value < 2 ^ 32.
Proof.
  intros Ho. unfold read_be32. destruct (has_bytes bytes offset pngUint32Bytes) eqn:Hh; [|by eexists].
  cbn [negb]. apply has_bytes_true, subspan_split in Hh as (pre & l & post & E & Hpre & Hs & ->).
  cbn [mbind option_bind]. eexists. split; [done|]. intros value [= <-].
  assert (Forall octet l) as Hl by (rewrite E, !Forall_app in Ho; tauto).
  assert (length l = 4)%nat as Hlen by (unfold size_of, pngUint32Bytes in Hs; lia).
  rewrite shift_in_be_value by (done || lia). exists pre, post.
  rewrite <- Hlen, field_bytes_be_value by done. split_and!; [done|done|].
  pose proof (be_value_bound l Hl) as Hb. by rewrite Hlen in Hb.
Qed.

Lemma read_byte_written pre b post : read_byte (pre ++ b :: post) (size_of pre) = Some (Some b).
Proof.
  unfold read_byte. rewrite (proj2 (has_bytes_true _ _ _)).
  2: { rewrite size_of_app. unfold size_of. cbn [length]. lia. }
  cbn [negb]. change 1 with (size_of [b]). change (b :: post) with ([b] ++ post).
  by rewrite subspan_middle.
Qed.

Lemma read_chunk_type_written pre type post :
  length type = 4%nat → read_chunk_type (pre ++ type ++ post) (size_of pre) = Some (Some type).
Proof.
  intros Ht. assert (size_of type = pngChunkTypeBytes) as Hs
    by (unfold size_of, pngChunkTypeBytes; lia).
  unfold read_chunk_type.
  rewrite (proj2 (has_bytes_true _ _ _)) by (rewrite !size_of_app; lia).
  cbn [negb]. by rewrite <- Hs, subspan_middle.
Qed.

(** ** The header *)

(** What IHDR holds: width and height, not zero, a bit depth of eight, one of four colour
    types, and no choice of compression, filter method or interlacing. *)
Definition header_ok (data : list Byte) (h : Ihdr) : Prop :=
  0 < ihdr_width h < 2 ^ 32 ∧ 0 < ihdr_height h < 2 ^ 32 ∧ ihdr_bit_depth h = 8 ∧
  ihdr_compression h = 0 ∧ ihdr_filter h = 0 ∧ ihdr_interlace h = 0 ∧
  ∃ color, (color, ihdr_color_type h) ∈
      [(0, PngColorType.Grayscale); (2, PngColorType.Truecolor); (3, PngColorType.Palette);
       (6, PngColorType.TruecolorAlpha)] ∧
    data = field_bytes 4 (ihdr_width h) ++ field_bytes 4 (ihdr_height h) ++ [8; color; 0; 0; 0].

(** Thirteen octets are two numbers and five bytes. *)
Lemma ihdr_fields data :
  Forall octet data → length data = 13%nat →
  ∃ w h depth color z f i, w < 2 ^ 32 ∧ h < 2 ^ 32 ∧
    data = field_bytes 4 w ++ field_bytes 4 h ++ [depth; color; z; f; i].
Proof.
  intros Ho Hlen.
  destruct data as [|b0 [|b1 [|b2 [|b3 [|b4 [|b5 [|b6 [|b7 [|b8 [|b9 [|b10 [|b11 [|b12 [|]]]]]]]]]]]]]];
    try done. clear Hlen.
  change (Forall octet ([b0; b1; b2; b3] ++ [b4; b5; b6; b7] ++ [b8; b9; b10; b11; b12])) in Ho.
  rewrite !Forall_app in Ho. destruct Ho as (H1 & H2 & _).
  exists (be_value [b0; b1; b2; b3]), (be_value [b4; b5; b6; b7]), b8, b9, b10, b11, b12.
  split_and!; [exact (be_value_bound _ H1)|exact (be_value_bound _ H2)|].
  by rewrite (field_bytes_be_value _ H1 : field_bytes 4 _ = _),
    (field_bytes_be_value _ H2 : field_bytes 4 _ = _).
Qed.

Lemma parse_ihdr_fields w h depth color z f i :
  w < 2 ^ 32 → h < 2 ^ 32 →
  parse_ihdr (field_bytes 4 w ++ field_bytes 4 h ++ [depth; color; z; f; i]) =
    Some (check_ihdr (Some w) (Some h) (Some depth) (Some color) (Some z) (Some f) (Some i)).
Proof.
  intros Hw Hh. set (data := _ ++ _). unfold parse_ihdr.
  change (decide (size_of data ≠ pngIhdrBytes)) with (decide (13 ≠ 13)).
  rewrite decide_False by (intros H; by apply H).
  rewrite (read_be32_written [] w _ Hw : read_be32 data 0 = _). cbn [mbind option_bind].
  rewrite (read_be32_written (field_bytes 4 w) h _ Hh : read_be32 data 4 = _). cbn [mbind option_bind].
  pose proof (read_byte_written (field_bytes 4 w ++ field_bytes 4 h) depth [color; z; f; i]) as E8.
  pose proof (read_byte_written (field_bytes 4 w ++ field_bytes 4 h ++ [depth]) color [z; f; i]) as E9.
  pose proof (read_byte_written (field_bytes 4 w ++ field_bytes 4 h ++ [depth; color]) z [f; i]) as E10.
  pose proof (read_byte_written (field_bytes 4 w ++ field_bytes 4 h ++ [depth; color; z]) f [i]) as E11.
  pose proof (read_byte_written (field_bytes 4 w ++ field_bytes 4 h ++ [depth; color; z; f]) i []) as E12.
  rewrite (E8 : read_byte data 8 = _). cbn [mbind option_bind].
  rewrite (E9 : read_byte data 9 = _). cbn [mbind option_bind].
  rewrite (E10 : read_byte data 10 = _). cbn [mbind option_bind].
  rewrite (E11 : read_byte data 11 = _). cbn [mbind option_bind].
  by rewrite (E12 : read_byte data 12 = _).
Qed.

Lemma parse_color_type_spec color type :
  parse_color_type color = Some type ∧ type ≠ PngColorType.GrayscaleAlpha ↔
  (color, type) ∈ [(0, PngColorType.Grayscale); (2, PngColorType.Truecolor); (3, PngColorType.Palette);
                   (6, PngColorType.TruecolorAlpha)].
Proof.
  rewrite !elem_of_cons, elem_of_nil. split.
  - intros [H Hne]. unfold parse_color_type in H. repeat case_match; simplify_eq; naive_solver.
  - intros [[= -> ->]|[[= -> ->]|[[= -> ->]|[[= -> ->]|[]]]]]; done.
Qed.

Lemma field_bytes_inj n v v' :
  v < 256 ^ N.of_nat n → v' < 256 ^ N.of_nat n → field_bytes n v = field_bytes n v' → v = v'.
Proof.
  intros Hv Hv' E%(f_equal be_value). by rewrite !be_field_bytes, !N.mod_small in E.
Qed.

Lemma parse_ihdr_spec data :
  Forall octet data → ∃ r, parse_ihdr data = Some r ∧ ∀ h, r = Ok h ↔ header_ok data h.
Proof.
  intros Ho. destruct (decide (length data = 13%nat)) as [Hlen|Hlen].
  2: { unfold parse_ihdr. rewrite decide_True by (unfold size_of, pngIhdrBytes; lia).
       eexists. split; [done|]. intros h. split; [done|].
       by intros (_ & _ & _ & _ & _ & _ & color & _ & ->). }
  destruct (ihdr_fields data Ho Hlen) as (w & h & depth & color & z & f & i & Hw & Hh & ->).
  rewrite parse_ihdr_fields by done. eexists. split; [done|]. intros ih. cbn [check_ihdr].
  split.
  - destruct (parse_color_type color) as [type|] eqn:Ec; [|done].
    case_decide as H0; [done|]. case_decide as Hd; [done|]. case_decide as Hg; [done|].
    case_decide as Hm; [done|]. unfold pngBitDepth8, pngMethodNone in *. intros [= <-].
    subst depth. assert (z = 0 ∧ f = 0 ∧ i = 0) as (-> & -> & ->) by lia.
    split_and!; try done; try (cbn; lia). exists color. split; [|done]. by apply parse_color_type_spec.
  - intros (Hw' & Hh' & Hd & Hz & Hf & Hi & c & Hc & E). destruct ih as [w' h' d' ct' z' f' i'].
    cbn -[field_bytes] in *.
    subst. apply app_inj_1 in E as [Ew E]; [|by rewrite !length_field_bytes].
    apply app_inj_1 in E as [Eh E]; [|by rewrite !length_field_bytes]. injection E as -> -> -> -> ->.
    apply (field_bytes_inj 4) in Ew as ->; [|exact Hw|exact (proj2 Hw')].
    apply (field_bytes_inj 4) in Eh as ->; [|exact Hh|exact (proj2 Hh')].
    apply parse_color_type_spec in Hc as [-> Hg]. rewrite !decide_False by (done || lia || naive_solver). done.
Qed.

Lemma header_unique data h h' : header_ok data h → header_ok data h' → h = h'.
Proof.
  intros (Hw & Hh & Hd & Hz & Hf & Hi & c & Hc & ->) (Hw' & Hh' & Hd' & Hz' & Hf' & Hi' & c' & Hc' & E).
  destruct h, h'. cbn -[field_bytes] in *.
  apply app_inj_1 in E as [Ew E]; [|by rewrite !length_field_bytes].
  apply app_inj_1 in E as [Eh E]; [|by rewrite !length_field_bytes]. injection E as <-.
  apply (field_bytes_inj 4) in Ew as ->; [|apply Hw|apply Hw'].
  apply (field_bytes_inj 4) in Eh as ->; [|apply Hh|apply Hh'].
  apply parse_color_type_spec in Hc as [Hc _], Hc' as [Hc' _]. congruence.
Qed.

(** ** Chunks *)

Section codec.
Context {zlib : Zlib}.

Abbreviation chunk := (ChunkType * list Byte)%type.

(** A chunk as the file spells it. *)
Definition chunk_bytes (c : chunk) : list Byte :=
  field_bytes 4 (size_of c.2) ++ c.1 ++ c.2 ++ field_bytes 4 (chunk_crc c.1 c.2).

Definition chunk_ok (c : chunk) : Prop := length c.1 = 4%nat ∧ size_of c.2 <= maxChunkBytes.

Definition file_bytes (chunks : list chunk) : list Byte := pngSignature ++ (chunks ≫= chunk_bytes).

Lemma size_of_chunk_bytes c : chunk_ok c → size_of (chunk_bytes c) = 12 + size_of c.2.
Proof.
  intros [Ht _]. unfold chunk_bytes. rewrite !size_of_app, !size_of_be32. unfold size_of in *. lia.
Qed.

Lemma append_chunk_Ok output type data bytes :
  append_chunk output type data = Ok bytes ↔
  size_of data <= maxChunkBytes ∧ bytes = output ++ chunk_bytes (type, data).
Proof.
  unfold append_chunk. rewrite !append_be32_spec. unfold chunk_bytes. cbn [fst snd].
  rewrite <- !app_assoc. case_decide as Hc.
  - split; [done|]. intros [Hs _]. unfold max_u32, maxChunkBytes in *. lia.
  - split; [intros [= <-]; split; [lia|done]|]. by intros [_ ->].
Qed.

Context {laws : ZlibLaws zlib}.

Lemma chunk_crc_range type data : chunk_crc type data < 2 ^ 32.
Proof. unfold chunk_crc. destruct data; apply crc32_range. Qed.

Lemma chunk_size_range c : chunk_ok c → size_of c.2 < 2 ^ 32.
Proof. intros [_ Hs]. unfold maxChunkBytes in Hs. lia. Qed.

Lemma read_chunk_written pre c post :
  chunk_ok c →
  read_chunk (pre ++ chunk_bytes c ++ post) (size_of pre) =
    Some (Ok (c.1, c.2, size_of (pre ++ chunk_bytes c))).
Proof.
  intros Hc. pose proof (size_of_chunk_bytes c Hc) as Hsize. pose proof (chunk_size_range c Hc) as H32.
  destruct c as [type data]. destruct Hc as [Ht Hs]. cbn [fst snd] in *. unfold read_chunk.
  assert (size_of (pre ++ chunk_bytes (type, data) ++ post) =
    size_of pre + (12 + size_of data) + size_of post) as Htotal by (rewrite !size_of_app; lia).
  rewrite (proj2 (has_bytes_true _ _ _)) by (unfold pngChunkOverheadBytes; lia). cbn [negb].
  assert (size_of type = 4) as Ht' by (unfold size_of; lia).
  set (bytes := pre ++ chunk_bytes (type, data) ++ post) in *.
  assert (bytes = pre ++ field_bytes 4 (size_of data) ++ (type ++ data ++ field_bytes 4 (chunk_crc type data) ++ post)) as E1
    by (unfold bytes, chunk_bytes; cbn [fst snd]; by rewrite <- !app_assoc).
  assert (read_be32 bytes (size_of pre) = Some (Some (size_of data))) as ->
    by (rewrite E1; by apply read_be32_written).
  cbn [mbind option_bind]. rewrite decide_False by lia.
  assert (checked_add pngChunkOverheadBytes (size_of data) = Some (12 + size_of data)) as ->.
  { unfold checked_add, pngChunkOverheadBytes, max_size. rewrite decide_False; [done|]. lia. }
  rewrite (proj2 (has_bytes_true _ _ _)) by lia. cbn [negb].
  set (p1 := pre ++ field_bytes 4 (size_of data)).
  assert (size_of pre + pngChunkLengthBytes = size_of p1) as ->
    by (unfold p1; rewrite size_of_app, size_of_be32; done).
  assert (bytes = p1 ++ type ++ (data ++ field_bytes 4 (chunk_crc type data) ++ post)) as E2
    by (unfold p1; rewrite E1, <- !app_assoc; done).
  assert (read_chunk_type bytes (size_of p1) = Some (Some type)) as ->
    by (rewrite E2; by apply read_chunk_type_written).
  cbn [mbind option_bind]. set (p2 := p1 ++ type).
  assert (size_of p1 + pngChunkTypeBytes = size_of p2) as ->
    by (unfold p2; rewrite size_of_app, Ht'; done).
  assert (bytes = p2 ++ data ++ (field_bytes 4 (chunk_crc type data) ++ post)) as E3
    by (unfold p2; rewrite E2, <- !app_assoc; done).
  assert (size_of p2 + size_of data = size_of (p2 ++ data)) as -> by (by rewrite size_of_app).
  assert (read_be32 bytes (size_of (p2 ++ data)) = Some (Some (chunk_crc type data))) as ->.
  { rewrite E3, app_assoc. apply read_be32_written, chunk_crc_range. }
  cbn [mbind option_bind].
  assert (subspan bytes (size_of p2) (size_of data) = Some data) as -> by (rewrite E3; apply subspan_middle).
  cbn [mbind option_bind]. rewrite decide_False by (intros Hne; by apply Hne). do 3 f_equal.
  rewrite size_of_app, Hsize. done.
Qed.

(** Pieces that were read one behind the other stand one behind the other. *)
Lemma pieces_meet (bytes pre a rest pre' b rest' : list Byte) :
  bytes = pre ++ a ++ rest → bytes = pre' ++ b ++ rest' → size_of pre' = size_of pre + size_of a →
  pre' = pre ++ a.
Proof.
  intros E E' Hs. rewrite E, app_assoc in E'. apply app_inj_1 in E' as [<- _]; [done|].
  rewrite <- size_of_app in Hs. unfold size_of in Hs. lia.
Qed.

(** Reading a chunk stays inside the data, and what is read as a chunk is one. *)
Lemma read_chunk_spec bytes offset :
  Forall octet bytes →
  ∃ r, read_chunk bytes offset = Some r ∧ ∀ type data offset', r = Ok (type, data, offset') →
    ∃ pre post, bytes = pre ++ chunk_bytes (type, data) ++ post ∧ size_of pre = offset ∧
      offset' = offset + 12 + size_of data ∧ chunk_ok (type, data).
Proof.
  intros Ho. unfold read_chunk. destruct (has_bytes bytes offset _) eqn:Hh; [|by eexists]. cbn [negb].
  destruct (read_be32_spec bytes offset Ho) as (n & -> & Hn). cbn [mbind option_bind].
  destruct n as [n|]; [|by eexists]. destruct (Hn n eq_refl) as (pre & rest & E & Hpre & _). clear Hn Hh.
  destruct (decide _) as [|Hsize]; [by eexists|].
  destruct (checked_add _ n) as [total|] eqn:Hadd; [|by eexists].
  unfold checked_add in Hadd. case_decide; [done|]. injection Hadd as <-.
  destruct (has_bytes bytes offset (_ + n)) eqn:Hh2; [|by eexists]. cbn [negb].
  apply has_bytes_true in Hh2. unfold pngChunkOverheadBytes, read_chunk_type, pngChunkLengthBytes, pngChunkTypeBytes in *.
  rewrite (proj2 (has_bytes_true bytes (offset + 4) 4)) by lia. cbn [negb].
  destruct (subspan_split bytes (offset + 4) 4) as (q1 & type & r1 & E1 & Hq1 & Ht & ->); [lia|].
  cbn [mbind option_bind].
  destruct (read_be32_spec bytes (offset + 4 + 4 + n) Ho) as (crc & -> & Hcrc). cbn [mbind option_bind].
  destruct crc as [crc|]; [|by eexists]. destruct (Hcrc crc eq_refl) as (p' & post & E' & Hp' & _). clear Hcrc.
  destruct (subspan_split bytes (offset + 4 + 4) n) as (q2 & data & r2 & E2 & Hq2 & Hd & ->); [lia|].
  cbn [mbind option_bind]. case_decide as Heq; [by eexists|]. eexists. split; [done|].
  intros t d o [= <- <- <-]. exists pre, post. unfold chunk_bytes. cbn [fst snd]. split_and!; [|done|lia|].
  - assert (q1 = pre ++ field_bytes 4 n) as -> by (eapply (pieces_meet _ _ _ _ _ _ _ E E1); rewrite size_of_be32; lia).
    assert (q2 = (pre ++ field_bytes 4 n) ++ type) as -> by (eapply (pieces_meet _ _ _ _ _ _ _ E1 E2); lia).
    assert (p' = ((pre ++ field_bytes 4 n) ++ type) ++ data) as -> by (eapply (pieces_meet _ _ _ _ _ _ _ E2 E'); lia).
    rewrite Hd, Heq. by rewrite E' at 1; rewrite <- !app_assoc.
  - split; cbn [fst snd]; [unfold size_of in Ht; lia|]. lia.
Qed.

(** ** Files *)

(** The data of the chunks of a type, in order. *)
Definition data_of (type : ChunkType) (body : list chunk) : list (list Byte) :=
  (λ c : chunk, c.2) <$> filter (λ c : chunk, c.1 = type) body.

(** What the chunks between IHDR and IEND amount to. *)
Definition png_of (h : Ihdr) (body : list chunk) : ParsedPng :=
  MkParsed h (concat (data_of chunkIdat body)) (default [] (last (data_of chunkPlte body)))
    (default [] (last (data_of chunkTrns body))).

Definition known_chunks : list ChunkType := [chunkIhdr; chunkPlte; chunkIdat; chunkIend; chunkTrns].

(** The chunk [c] may stand after the chunks [before] of a file with header [h]: its type
    is made of letters, and known if the first one is upper case. *)
Definition may_follow (h : Ihdr) (before : list chunk) (c : chunk) : Prop :=
  Forall (λ b, 65 <= b <= 90 ∨ 97 <= b <= 122) c.1 ∧ c.1 ≠ chunkIhdr ∧ c.1 ≠ chunkIend ∧
  (c.1 = chunkPlte → data_of chunkIdat before = [] ∧ c.2 ≠ [] ∧
    size_of c.2 mod paletteEntryBytes = 0 ∧ size_of c.2 / paletteEntryBytes <= maxPaletteEntries) ∧
  (c.1 = chunkTrns → data_of chunkIdat before = [] ∧ ihdr_color_type h = PngColorType.Palette ∧
    png_palette (png_of h before) ≠ [] ∧
    size_of c.2 <= size_of (png_palette (png_of h before)) / paletteEntryBytes) ∧
  (c.1 = chunkIdat → size_of (png_idat (png_of h before)) + size_of c.2 <= maxCompressedBytes) ∧
  ((∃ first, head c.1 = Some first ∧ 65 <= first <= 90) → c.1 ∈ known_chunks).

Definition body_ok (h : Ihdr) (body : list chunk) : Prop :=
  ∀ before c after, body = before ++ c :: after → may_follow h before c.

Definition state_of (h : Ihdr) (body : list chunk) : ParseState :=
  MkParse (png_of h body) true (negb (bool_decide (data_of chunkIdat body = []))).

Lemma data_of_snoc type body c :
  data_of type (body ++ [c]) = data_of type body ++ (if decide (c.1 = type) then [c.2] else []).
Proof.
  unfold data_of. rewrite filter_app, fmap_app. f_equal. rewrite filter_cons, filter_nil.
  by case_decide.
Qed.

Lemma png_of_snoc h body c :
  png_of h (body ++ [c]) =
    let p := png_of h body in
    MkParsed h (png_idat p ++ (if decide (c.1 = chunkIdat) then c.2 else []))
      (if decide (c.1 = chunkPlte) then c.2 else png_palette p)
      (if decide (c.1 = chunkTrns) then c.2 else png_transparency p).
Proof.
  unfold png_of. cbn [png_idat png_palette png_transparency]. rewrite !data_of_snoc. f_equal.
  - rewrite concat_app. case_decide; cbn; by rewrite ?app_nil_r.
  - case_decide; by rewrite ?last_snoc, ?app_nil_r.
  - case_decide; by rewrite ?last_snoc, ?app_nil_r.
Qed.

Lemma state_of_snoc h body c :
  state_of h (body ++ [c]) =
    MkParse (png_of h (body ++ [c])) true
      (negb (bool_decide (data_of chunkIdat body = [])) || bool_decide (c.1 = chunkIdat)).
Proof.
  unfold state_of. f_equal. rewrite data_of_snoc. case_decide as Hc.
  - rewrite (bool_decide_true (c.1 = _)), orb_true_r by done.
    rewrite bool_decide_false; [done|]. by destruct (data_of chunkIdat body).
  - by rewrite (bool_decide_false (c.1 = _)), orb_false_r, app_nil_r.
Qed.

Lemma ihdr_of h body : png_ihdr (png_of h body) = h.
Proof. done. Qed.

Lemma is_chunk_type_valid_spec type :
  is_chunk_type_valid type = true ↔ Forall (λ b, 65 <= b <= 90 ∨ 97 <= b <= 122) type.
Proof.
  unfold is_chunk_type_valid, is_ascii_letter. rewrite forallb_forall, Forall_forall.
  setoid_rewrite list_elem_of_In. setoid_rewrite orb_true_iff. setoid_rewrite andb_true_iff.
  by setoid_rewrite N.leb_le.
Qed.

Lemma is_critical_chunk_spec type :
  is_critical_chunk type = true ↔ ∃ first, head type = Some first ∧ 65 <= first <= 90.
Proof.
  destruct type as [|b type]; cbn; [naive_solver|]. rewrite andb_true_iff, !N.leb_le. naive_solver.
Qed.

(** A chunk that is not IHDR is processed without reading its data. *)
Lemma process_chunk_after h body type data :
  ∃ r, process_chunk (state_of h body) type data = Some r.
Proof.
  unfold process_chunk. destruct (negb _); [by eexists|]. case_decide; [|by eexists].
  cbn [seen_ihdr state_of orb]. by eexists.
Qed.

(** A chunk that does not end the file is taken exactly when it may follow. *)
Lemma process_chunk_more h body c st :
  process_chunk (state_of h body) c.1 c.2 = Some (Ok (false, st)) ↔
  may_follow h body c ∧ st = state_of h (body ++ [c]).
Proof.
  rewrite state_of_snoc, png_of_snoc. destruct c as [type data]. unfold may_follow. cbn [fst snd].
  rewrite <- is_chunk_type_valid_spec, <- is_critical_chunk_spec.
  unfold process_chunk. destruct (is_chunk_type_valid type); [|naive_solver]. cbn [negb].
  destruct (decide (type = chunkIhdr)) as [->|Hih]; [cbn; naive_solver|].
  change (negb (seen_ihdr (state_of h body))) with false. cbn match.
  rewrite (inj_iff Some).
  destruct (decide (type = chunkPlte)) as [->|Hpl].
  { rewrite (decide_False (P := chunkPlte = chunkIdat)), (decide_False (P := chunkPlte = chunkTrns)) by done.
    rewrite (bool_decide_false (chunkPlte = chunkIdat)), orb_false_r, app_nil_r by done.
    unfold parse_plte, set_png, state_of. cbn [seen_ihdr seen_idat negb orb state_png].
    destruct (bool_decide_reflect (data_of chunkIdat body = [])) as [Hd|Hd]; [|naive_solver].
    cbn [negb]. case_decide as Hbad; cbn [mbind result_bind].
    - split; [done|]. intros [(_ & _ & _ & Hp & _) _]. destruct (Hp eq_refl) as (_ & ? & ? & ?).
      unfold paletteEntryBytes, maxPaletteEntries in *. naive_solver lia.
    - split; [|by intros [_ ->]]. intros [= <-]. split; [|done].
      split_and!; try done; [|intros _; set_solver]. intros _. split_and!; [done|..].
      + naive_solver.
      + apply dec_stable. naive_solver.
      + apply N.nlt_ge. naive_solver. }
  destruct (decide (type = chunkTrns)) as [->|Htr].
  { rewrite (decide_False (P := chunkTrns = chunkIdat)) by done.
    rewrite (bool_decide_false (chunkTrns = chunkIdat)), orb_false_r, app_nil_r by done.
    unfold parse_trns, set_png, state_of. cbn [seen_ihdr seen_idat negb orb state_png].
    destruct (bool_decide_reflect (data_of chunkIdat body = [])) as [Hd|Hd]; [|naive_solver].
    cbn [negb]. rewrite ihdr_of.
    destruct (decide (ihdr_color_type h ≠ _)) as [|Hct]; [naive_solver|].
    destruct (decide (png_palette _ = [])) as [|Hpal]; [naive_solver|].
    case_decide as Hbig; cbn [mbind result_bind].
    - split; [done|]. intros [(_ & _ & _ & _ & Ht & _) _]. destruct (Ht eq_refl) as (_ & _ & _ & ?). lia.
    - split; [|by intros [_ ->]]. intros [= <-]. split; [|done].
      split_and!; try done. intros _. split_and!; [done|by apply dec_stable|done|lia]. }
  destruct (decide (type = chunkIdat)) as [->|Hid].
  { rewrite (bool_decide_true (chunkIdat = chunkIdat)), orb_true_r by done.
    unfold append_idat. cbn [seen_ihdr state_of negb state_png].
    case_decide as Hbig; cbn [mbind result_bind].
    - split; [done|]. intros [(_ & _ & _ & _ & _ & Hi & _) _]. specialize (Hi eq_refl). lia.
    - split; [|by intros [_ ->]]. intros [= <-]. split; [|done].
      split_and!; try done; [|intros _; set_solver]. intros _. lia. }
  rewrite (bool_decide_false (type = chunkIdat)), orb_false_r, app_nil_r by done.
  destruct (decide (type = chunkIend)) as [->|Hie].
  { case_decide; naive_solver. }
  destruct (is_critical_chunk type) eqn:Hcr.
  - split; [done|]. intros [(_ & _ & _ & _ & _ & _ & Hk) _]. specialize (Hk eq_refl).
    unfold known_chunks in Hk. set_solver.
  - split; [|by intros [_ ->]]. intros [= <-]. split; [|done]. by split_and!.
Qed.

Lemma process_chunk_last h body c st :
  process_chunk (state_of h body) c.1 c.2 = Some (Ok (true, st)) ↔
  c = (chunkIend, []) ∧ st = state_of h body.
Proof.
  destruct c as [type data]. cbn [fst snd]. unfold process_chunk.
  destruct (is_chunk_type_valid type) eqn:Hv; cbn [negb].
  2: { split; [done|]. intros [[= -> ->] _]. by vm_compute in Hv. }
  destruct (decide (type = chunkIhdr)) as [->|Hih]; [cbn; naive_solver|].
  change (negb (seen_ihdr (state_of h body))) with false. cbn match.
  rewrite (inj_iff Some).
  destruct (decide (type = chunkPlte)) as [->|Hpl].
  { split; [|naive_solver]. by destruct (parse_plte _ _). }
  destruct (decide (type = chunkTrns)) as [->|Htr].
  { split; [|naive_solver]. by destruct (parse_trns _ _). }
  destruct (decide (type = chunkIdat)) as [->|Hid].
  { split; [|naive_solver]. by destruct (append_idat _ _). }
  destruct (decide (type = chunkIend)) as [->|Hie].
  - case_decide; naive_solver.
  - destruct (is_critical_chunk type); naive_solver.
Qed.

(** The keywords, and the signature: a byte above the letters, PNG and line ends. *)
Example keywords :
  map (map Ascii.ascii_of_N) known_chunks =
    map String.list_ascii_of_string ["IHDR"; "PLTE"; "IDAT"; "IEND"; "tRNS"]%string ∧
  pngSignature = [137] ++ map Ascii.N_of_ascii (String.list_ascii_of_string "PNG") ++ [13; 10; 26; 10].
Proof. done. Qed.

Definition iend : chunk := (chunkIend, []).

Lemma iend_ok : chunk_ok iend.
Proof. done. Qed.

(** What a file needs besides the order of its chunks. *)
Definition body_complete (h : Ihdr) (body : list chunk) : Prop :=
  data_of chunkIdat body ≠ [] ∧
  (ihdr_color_type h = PngColorType.Palette → png_palette (png_of h body) ≠ []).

Lemma finish_parse_Ok h body bytes png :
  finish_parse bytes (size_of bytes) (state_of h body) = Ok png ↔
  body_complete h body ∧ png = png_of h body.
Proof.
  unfold finish_parse, body_complete. rewrite decide_False by (intros H; by apply H).
  unfold state_of. cbn [seen_idat state_png]. rewrite negb_involutive.
  destruct (bool_decide_reflect (data_of chunkIdat body = [])) as [Hd|Hd]; [naive_solver|].
  rewrite ihdr_of. case_decide; naive_solver.
Qed.

(** The chunks that are left to read, after [before]. *)
Definition rest_of_file (h : Ihdr) (before : list chunk) (rest : list Byte) (png : ParsedPng) : Prop :=
  ∃ body, rest = (body ++ [iend]) ≫= chunk_bytes ∧ Forall chunk_ok body ∧
    (∀ b1 c b2, body = b1 ++ c :: b2 → may_follow h (before ++ b1) c) ∧
    body_complete h (before ++ body) ∧ png = png_of h (before ++ body).

Lemma rest_of_file_cons h before c post png :
  chunk_ok c → c ≠ iend →
  (∀ c' post', chunk_ok c' → chunk_bytes c ++ post = chunk_bytes c' ++ post' → c' = c) →
  rest_of_file h before (chunk_bytes c ++ post) png ↔
  may_follow h before c ∧ rest_of_file h (before ++ [c]) post png.
Proof.
  intros Hc Hne Hinj. split.
  - intros (body & Hrest & Hok & Hf & Hcomp & ->). destruct body as [|c' body].
    { destruct Hne. symmetry. exact (Hinj iend [] iend_ok Hrest). }
    apply Forall_cons in Hok as [Hc' Hok]. cbn [app mbind list_bind] in Hrest.
    pose proof (Hinj c' _ Hc' Hrest) as ->. apply app_inv_head in Hrest. split.
    + specialize (Hf [] c body eq_refl). by rewrite app_nil_r in Hf.
    + exists body. rewrite <- app_assoc. split_and!; [done|done| |done|done].
      intros b1 c' b2 ->. rewrite <- app_assoc. by apply (Hf (c :: b1) c' b2).
  - intros [Hfirst (body & -> & Hok & Hf & Hcomp & ->)]. rewrite <- app_assoc in *.
    exists (c :: body). split_and!; [done|by constructor| |done|done].
    intros [|c0 b1] c' b2; cbn; intros [= <- ->]; [by rewrite app_nil_r|].
    specialize (Hf b1 c' b2 eq_refl). by rewrite <- app_assoc in Hf.
Qed.

Lemma rest_of_file_end h before post png :
  (∀ c' post', chunk_ok c' → chunk_bytes iend ++ post = chunk_bytes c' ++ post' → c' = iend) →
  rest_of_file h before (chunk_bytes iend ++ post) png ↔
  post = [] ∧ body_complete h before ∧ png = png_of h before.
Proof.
  intros Hinj. split.
  - intros (body & Hrest & Hok & Hf & Hcomp & ->). destruct body as [|c' body].
    + cbn [app mbind list_bind] in Hrest. apply app_inv_head in Hrest. by rewrite app_nil_r in *.
    + apply Forall_cons in Hok as [Hc' Hok]. cbn [app mbind list_bind] in Hrest.
      pose proof (Hinj c' _ Hc' Hrest) as ->. destruct (Hf [] iend body eq_refl) as (_ & _ & H & _).
      by destruct H.
  - intros (-> & Hcomp & ->). exists []. rewrite !app_nil_r. split_and!; [|done| |done|done].
    + done.
    + by intros [] c b2.
Qed.

Lemma parse_chunks_spec fuel h before pre rest :
  Forall octet (pre ++ rest) → (length rest < fuel)%nat →
  ∃ r, parse_chunks fuel (pre ++ rest) (size_of pre) (state_of h before) = Some r ∧
    ∀ png, r = Ok png ↔ rest_of_file h before rest png.
Proof.
  revert before pre rest. induction fuel as [|fuel IH]; intros before pre rest Ho Hf; [lia|].
  cbn [parse_chunks].
  assert (∀ c post, chunk_ok c → rest = chunk_bytes c ++ post →
    read_chunk (pre ++ rest) (size_of pre) = Some (Ok (c.1, c.2, size_of (pre ++ chunk_bytes c)))) as Hread
    by (intros c post Hc ->; by apply read_chunk_written).
  assert (∀ png, rest_of_file h before rest png →
    ∃ c post, chunk_ok c ∧ rest = chunk_bytes c ++ post) as Hfirst.
  { intros png (body & -> & Hok & _). destruct body as [|c body].
    - exists iend, []. split; [apply iend_ok|done].
    - apply Forall_cons in Hok as [Hc _]. by eexists _, _. }
  destruct (decide (size_of (pre ++ rest) <= size_of pre)) as [Hend|Hmore].
  { eexists. split; [done|]. intros png. split; [done|]. intros (c & post & Hc & ->)%Hfirst.
    pose proof (size_of_chunk_bytes c Hc). rewrite !size_of_app in Hend. lia. }
  destruct (read_chunk_spec (pre ++ rest) (size_of pre) Ho) as (rc & E & Hrc). rewrite E in Hread |- *.
  cbn [mbind option_bind]. destruct rc as [[[type data] offset']|e].
  2: { eexists. split; [done|]. intros png. split; [done|]. intros (c & post & Hc & Hr)%Hfirst.
       by specialize (Hread c post Hc Hr). }
  destruct (Hrc type data offset' eq_refl) as (pre' & post & Hsplit & Hpre & Hoff & Hc). clear Hrc.
  set (c := (type, data) : chunk) in *.
  assert (pre' = pre ∧ rest = chunk_bytes c ++ post) as [-> ->].
  { apply app_inj_1 in Hsplit as [-> ->]; [done|]. unfold size_of in Hpre. lia. }
  assert (offset' = size_of (pre ++ chunk_bytes c)) as ->
    by (rewrite size_of_app, size_of_chunk_bytes by done; cbn; lia).
  clear Hoff Hpre Hsplit.
  assert (∀ c' post', chunk_ok c' → chunk_bytes c ++ post = chunk_bytes c' ++ post' → c' = c) as Hinj.
  { intros c' post' Hc' Hr. specialize (Hread c' post' Hc' Hr).
    injection Hread as H1 H2 _. unfold c. rewrite H1, H2. apply surjective_pairing. }
  pose proof (process_chunk_more h before c) as Hproc.
  pose proof (process_chunk_last h before c) as Hlast. cbn [fst snd c] in Hproc, Hlast.
  destruct (process_chunk_after h before type data) as [rp Hrp]. rewrite Hrp in Hproc, Hlast |- *.
  cbn [mbind option_bind]. destruct rp as [[[] st]|e].
  - destruct (proj1 (Hlast st) eq_refl) as [Hie ->]. eexists. split; [done|]. intros png.
    rewrite Hie in *. rewrite rest_of_file_end by done. rewrite !app_assoc.
    destruct post as [|b post].
    + rewrite !app_nil_r, finish_parse_Ok. tauto.
    + split; [|by intros [? _]]. unfold finish_parse. rewrite decide_True; [done|].
      rewrite (size_of_app _ (b :: post)). unfold size_of at 3. cbn [length]. lia.
  - destruct (proj1 (Hproc st) eq_refl) as [Hfollow ->].
    assert (c ≠ iend) as Hne by (intros Hie; destruct Hfollow as (_ & _ & H & _); by rewrite Hie in H).
    rewrite (app_assoc pre) in *. destruct (IH (before ++ [c]) (pre ++ chunk_bytes c) post) as (r & -> & Hr).
    { done. }
    { rewrite length_app in Hf. pose proof (size_of_chunk_bytes c Hc). unfold size_of in H. lia. }
    exists r. split; [done|]. intros png. rewrite Hr, rest_of_file_cons by done. tauto.
  - eexists. split; [done|]. intros png. split; [done|]. intros Hrest.
    destruct (decide (c = iend)) as [Hie|Hne].
    + by specialize (proj2 (Hlast (state_of h before)) (conj Hie eq_refl)).
    + apply rest_of_file_cons in Hrest as [Hfollow _]; [|done..].
      by specialize (proj2 (Hproc _) (conj Hfollow eq_refl)).
Qed.

(** [bytes] spell a file that amounts to [png]. *)
Definition png_file (bytes : list Byte) (png : ParsedPng) : Prop :=
  ∃ header h body,
    bytes = file_bytes ((chunkIhdr, header) :: body ++ [iend]) ∧
    Forall chunk_ok ((chunkIhdr, header) :: body) ∧ header_ok header h ∧
    body_ok h body ∧ body_complete h body ∧ png = png_of h body.

Lemma process_first_chunk type data :
  Forall octet data →
  ∃ r, process_chunk initial_parse type data = Some r ∧ ∀ b st, r = Ok (b, st) ↔
    b = false ∧ type = chunkIhdr ∧ ∃ h, header_ok data h ∧ st = state_of h [].
Proof.
  intros Ho. unfold process_chunk. destruct (is_chunk_type_valid type) eqn:Hv; cbn [negb].
  2: { eexists. split; [done|]. intros b st. split; [done|]. intros (_ & -> & _). by vm_compute in Hv. }
  destruct (decide (type = chunkIhdr)) as [->|]; [|eexists; split; [done|naive_solver]].
  cbn [seen_ihdr seen_idat initial_parse orb].
  destruct (parse_ihdr_spec data Ho) as (r & -> & Hr). cbn [mbind option_bind]. eexists. split; [done|].
  intros b st. setoid_rewrite <- Hr. destruct r as [h|e]; cbn; [|naive_solver]. split.
  - intros [= <- <-]. by eauto.
  - intros (-> & _ & h' & [= <-] & ->). done.
Qed.

Lemma file_bytes_cons c cs : file_bytes (c :: cs) = (pngSignature ++ chunk_bytes c) ++ (cs ≫= chunk_bytes).
Proof. unfold file_bytes. by rewrite bind_cons, app_assoc. Qed.

Lemma parse_png_spec bytes :
  Forall octet bytes →
  ∃ r, parse_png bytes = Some r ∧ ∀ png, r = Ok png ↔ png_file bytes png.
Proof.
  intros Ho. unfold parse_png.
  destruct (decide (size_of bytes < size_of pngSignature)) as [Hsig|Hsig].
  { eexists. split; [done|]. intros png. split; [done|]. intros (d & h & body & -> & _).
    revert Hsig. unfold file_bytes. rewrite size_of_app. lia. }
  destruct (subspan_split bytes 0 (size_of pngSignature)) as (p0 & sig & rest & -> & Hp0 & Hs & ->); [lia|].
  destruct p0; [|done]. cbn [mbind option_bind app] in *. clear Hp0 Hsig.
  case_decide as Hsig.
  { eexists. split; [done|]. intros png. split; [done|]. intros (d & h & body & E & _).
    apply app_inj_1 in E as [-> _]; [done|]. unfold size_of in Hs. lia. }
  subst sig. clear Hs.
  assert (S (length (pngSignature ++ rest)) = S (S (7 + length rest)))%nat as -> by done.
  remember (S (7 + length rest)) as fuel eqn:Hfuel. cbn [parse_chunks].
  assert (∀ c post, chunk_ok c → rest = chunk_bytes c ++ post →
    read_chunk (pngSignature ++ rest) (size_of pngSignature) =
      Some (Ok (c.1, c.2, size_of (pngSignature ++ chunk_bytes c)))) as Hread
    by (intros c post Hc ->; by apply read_chunk_written).
  assert (∀ png, png_file (pngSignature ++ rest) png → ∃ header h,
    chunk_ok (chunkIhdr, header) ∧ header_ok header h ∧ ∃ post,
    rest = chunk_bytes (chunkIhdr, header) ++ post ∧ rest_of_file h [] post png) as Hfirst.
  { intros png (header & h & body & E & [Hc Hok]%Forall_cons & Hh & Hb & Hcomp & ->).
    rewrite file_bytes_cons, <- app_assoc in E. apply app_inv_head in E. exists header, h.
    split_and!; [done..|]. eexists. split; [done|]. by exists body. }
  destruct (decide (size_of (pngSignature ++ rest) <= size_of pngSignature)) as [Hend|Hmore].
  { eexists. split; [done|]. intros png. split; [done|]. intros (hd & h & Hc & _ & post & -> & _)%Hfirst.
    pose proof (size_of_chunk_bytes _ Hc). rewrite !size_of_app in Hend. lia. }
  destruct (read_chunk_spec _ (size_of pngSignature) Ho) as (rc & E & Hrc). rewrite E in Hread |- *.
  cbn [mbind option_bind]. destruct rc as [[[type data] offset']|e].
  2: { eexists. split; [done|]. intros png. split; [done|]. intros (hd & h & Hc & _ & post & Hr & _)%Hfirst.
       by specialize (Hread _ post Hc Hr). }
  destruct (Hrc type data offset' eq_refl) as (pre' & post & Hsplit & Hpre & Hoff & Hc). clear Hrc.
  assert (pre' = pngSignature ∧ rest = chunk_bytes (type, data) ++ post) as [-> ->].
  { apply app_inj_1 in Hsplit as [-> ->]; [done|]. unfold size_of in Hpre. lia. }
  pose proof (Hread (type, data) post Hc eq_refl) as Hoff'. injection Hoff' as ->.
  clear Hoff Hpre Hsplit E.
  assert (∀ header post', chunk_ok (chunkIhdr, header) →
    chunk_bytes (type, data) ++ post = chunk_bytes (chunkIhdr, header) ++ post' →
    type = chunkIhdr ∧ data = header ∧ post = post') as Hinj.
  { intros header post' Hc' Hr. pose proof (Hread _ post' Hc' Hr) as H.
    injection H as -> -> _. by apply app_inv_head in Hr. }
  assert (Forall octet data) as Hod.
  { rewrite !Forall_app in Ho. unfold chunk_bytes in Ho. rewrite !Forall_app in Ho. tauto. }
  destruct (process_first_chunk type data Hod) as (rp & -> & Hproc). cbn [mbind option_bind].
  destruct rp as [[b st]|e].
  - destruct (proj1 (Hproc b st) eq_refl) as (-> & -> & h & Hh & ->).
    destruct (parse_chunks_spec fuel h [] (pngSignature ++ chunk_bytes (chunkIhdr, data)) post)
      as (r & Hp & Hr); [by rewrite <- app_assoc|subst fuel; rewrite length_app; lia|].
    rewrite <- app_assoc in Hp. exists r. split; [exact Hp|]. intros png. rewrite Hr. split.
    + intros (body & -> & Hok & Hf & Hcomp & ->). exists data, h, body.
      rewrite file_bytes_cons. split_and!; [done|by constructor|done|done|done|done].
    + intros (hd & h' & Hc' & Hh' & post' & Hrest & Hfile)%Hfirst.
      destruct (Hinj hd post' Hc' Hrest) as (_ & <- & <-). by rewrite (header_unique _ _ _ Hh Hh').
  - eexists. split; [done|]. intros png. split; [done|].
    intros (hd & h & Hc' & Hh & post' & Hrest & _)%Hfirst.
    destruct (Hinj hd post' Hc' Hrest) as (-> & -> & _).
    by discriminate (proj2 (Hproc false (state_of h []))); eauto.
Qed.

End codec.

(** ** Scanline filters *)

(** The byte of the pixel to the left in a row, 0 before the first pixel. *)
Definition byte_before (row : list Byte) (bpp x : nat) : Byte :=
  if decide (bpp <= x)%nat then default 0 (row !! (x - bpp)%nat) else 0.

Definition nearer (estimate : Z) (a b : Byte) : Byte :=
  if decide (Z.abs (estimate - Z.of_N b) < Z.abs (estimate - Z.of_N a))%Z then b else a.

(** The predictors of the format, for the bytes to the left, above, and above to the
    left: Paeth takes the one nearest to their linear estimate, the first of several. *)
Definition format_predictor (f : FilterType) (a b c : Byte) : Byte :=
  match f with
  | FilterType.None => 0
  | FilterType.Sub => a
  | FilterType.Up => b
  | FilterType.Average => N.shiftr (a + b) 1
  | FilterType.Paeth =>
    let estimate := (Z.of_N a + Z.of_N b - Z.of_N c)%Z in nearer estimate (nearer estimate a b) c
  end.

Lemma filter_predictor_format f a b c : filter_predictor f a b c = format_predictor f a b c.
Proof.
  destruct f; cbn; [done|done|done|by rewrite N.shiftr_div_pow2|]. unfold paeth_predictor, nearer.
  repeat case_decide; try done; lia.
Qed.

Definition predicted (f : FilterType) (bpp : nat) (prev cur : list Byte) (x : nat) : Byte :=
  format_predictor f (byte_before cur bpp x) (default 0 (prev !! x)) (byte_before prev bpp x).

(** A row as the format filters it, given the row above it. *)
Definition filter_row (f : FilterType) (bpp : nat) (prev cur : list Byte) : list Byte :=
  (λ x, (default 0 (cur !! x) + 256 - predicted f bpp prev cur x) mod 256) <$> seq 0 (length cur).

(** Rows filtered each with its own filter, below [prev]. *)
Fixpoint filter_rows (bpp : nat) (prev : list Byte) (rows : list (FilterType * list Byte))
    : list Byte :=
  match rows with
  | [] => []
  | (f, cur) :: rest => filter_byte f :: filter_row f bpp prev cur ++ filter_rows bpp cur rest
  end.

Lemma length_filter_row f bpp prev cur : length (filter_row f bpp prev cur) = length cur.
Proof. unfold filter_row. by rewrite length_fmap, length_seq. Qed.

Lemma filter_row_lookup f bpp prev cur x c :
  cur !! x = Some c →
  filter_row f bpp prev cur !! x = Some ((c + 256 - predicted f bpp prev cur x) mod 256).
Proof.
  intros Hc. unfold filter_row. pose proof (lookup_lt_Some _ _ _ Hc).
  rewrite list_lookup_fmap, lookup_seq_lt by done. cbn. by rewrite Hc.
Qed.

Lemma parse_filter_byte f : parse_filter_type (filter_byte f) = Some f.
Proof. by destruct f. Qed.

Lemma octet_default l i : Forall octet l → default 0 (l !! i) < 256.
Proof. intros Hl. destruct (l !! i) eqn:E; [by eapply (Forall_lookup_1 _ _ _ _ Hl) in E|done]. Qed.

Lemma byte_before_octet row bpp x : Forall octet row → byte_before row bpp x < 256.
Proof. intros Hr. unfold byte_before. case_decide; [by apply octet_default|done]. Qed.

Lemma filter_predictor_octet f a b c : a < 256 → b < 256 → c < 256 → filter_predictor f a b c < 256.
Proof.
  intros Ha Hb Hc. destruct f; cbn [filter_predictor]; [done|done|done| |].
  - apply N.Div0.div_lt_upper_bound. lia.
  - unfold paeth_predictor. by repeat case_decide.
Qed.

Lemma predicted_octet f bpp prev cur x :
  Forall octet prev → Forall octet cur → predicted f bpp prev cur x < 256.
Proof.
  intros Hp Hc. unfold predicted. rewrite <- filter_predictor_format. apply filter_predictor_octet; [by apply byte_before_octet|by apply octet_default|].
  by apply byte_before_octet.
Qed.

Lemma reconstruct_filtered c p : c < 256 → p < 256 → reconstruct_byte ((c + 256 - p) mod 256) p = c.
Proof.
  intros Hc Hp. unfold reconstruct_byte. rewrite N.Div0.add_mod_idemp_l.
  replace (c + 256 - p + p) with (c + 1 * 256) by lia. rewrite N.Div0.mod_add. by apply N.mod_small.
Qed.

(** A layout of rows of [w] bytes, [bpp] to a pixel. *)
Definition layout_of (layout : DecodeLayout) (w bpp : nat) : Prop :=
  source_row_bytes layout = N.of_nat w ∧ filtered_row_bytes layout = N.of_nat (S w) ∧
  filter_pixel_bytes layout = N.of_nat bpp ∧ bpp ≠ 0%nat.

(** The row [prev] is right above the bytes that follow [before]. *)
Definition above (before prev : list Byte) (y w : nat) : Prop :=
  length before = (y * w)%nat ∧
  match y with O => prev = [] | S _ => ∃ older, before = older ++ prev ∧ length prev = w end.

Section rows.
Context (layout : DecodeLayout) (w bpp : nat) (Hlayout : layout_of layout w bpp).

Lemma unfilter_byte_spec inflated f y before prev cur x c tail zero :
  above before prev y w → length cur = w → Forall octet prev → Forall octet cur →
  cur !! x = Some c →
  inflated !! (y * S w + 1 + x)%nat = filter_row f bpp prev cur !! x →
  unfilter_byte inflated layout f y x (before ++ take x cur ++ zero :: tail) =
    Some (before ++ take (S x) cur ++ tail).
Proof.
  intros [Hlen Hprev] Hcur Hop Hoc Hx Hin. destruct Hlayout as (Hw & Hfw & Hb & Hb0).
  pose proof (lookup_lt_Some _ _ _ Hx) as Hxw. rewrite Hcur in Hxw.
  unfold unfilter_byte. rewrite Hw, Hfw, Hb, !Nat2N.id.
  rewrite Hin, (filter_row_lookup f bpp prev cur x c Hx).
  assert (length (take x cur) = x) as Htake by (rewrite length_take; lia).
  assert ((if decide (bpp <= x)%nat
           then (before ++ take x cur ++ zero :: tail) !! (y * w + x - bpp)%nat else Some 0) =
          Some (byte_before cur bpp x)) as ->.
  { unfold byte_before. case_decide; [|done]. rewrite lookup_app_r by lia.
    rewrite lookup_app_l by lia. rewrite lookup_take_lt by lia.
    replace (y * w + x - bpp - length before)%nat with (x - bpp)%nat by lia.
    destruct (lookup_lt_is_Some_2 cur (x - bpp)) as [v ->]; [lia|done]. }
  assert ((if decide (0 < y)%nat
           then (before ++ take x cur ++ zero :: tail) !! (y * w - w + x)%nat else Some 0) =
          Some (default 0 (prev !! x))) as ->.
  { case_decide; [|by replace y with 0%nat in Hprev by lia; subst prev].
    destruct y as [|y]; [lia|]. destruct Hprev as (older & -> & Hpl). rewrite length_app in Hlen.
    rewrite <- app_assoc, lookup_app_r, lookup_app_l by lia.
    replace (S y * w - w + x - length older)%nat with x by lia.
    destruct (lookup_lt_is_Some_2 prev x) as [v ->]; [lia|done]. }
  assert ((if decide (0 < y ∧ bpp <= x)%nat
           then (before ++ take x cur ++ zero :: tail) !! (y * w - w + x - bpp)%nat else Some 0) =
          Some (byte_before prev bpp x)) as ->.
  { unfold byte_before. destruct y as [|y].
    - rewrite decide_False by lia. subst prev. by case_decide.
    - destruct (decide (bpp <= x)%nat); [|by rewrite decide_False by lia].
      rewrite decide_True by lia. destruct Hprev as (older & -> & Hpl). rewrite length_app in Hlen.
      rewrite <- app_assoc, lookup_app_r, lookup_app_l by lia.
      replace (S y * w - w + x - bpp - length older)%nat with (x - bpp)%nat by lia.
      destruct (lookup_lt_is_Some_2 prev (x - bpp)) as [v ->]; [lia|done]. }
  cbn [mbind option_bind]. rewrite filter_predictor_format. fold (predicted f bpp prev cur x).
  rewrite reconstruct_filtered by (by apply predicted_octet || by eapply (Forall_lookup_1 _ _ _ _ Hoc)).
  unfold set_at. rewrite decide_True by (rewrite !length_app; cbn; lia).
  replace (y * w + x)%nat with (length before + (length (take x cur) + 0))%nat by lia.
  rewrite !insert_app_r. cbn. f_equal. f_equal.
  by rewrite (take_S_r _ _ _ Hx), <- app_assoc.
Qed.

Lemma unfilter_columns_spec inflated f y before prev cur k x tail zeros :
  above before prev y w → length cur = w → Forall octet prev → Forall octet cur →
  (x + k)%nat = w → length zeros = k →
  (∀ i, (i < w)%nat → inflated !! (y * S w + 1 + i)%nat = filter_row f bpp prev cur !! i) →
  unfilter_columns inflated layout f y (seq x k) (before ++ take x cur ++ zeros ++ tail) =
    Some (before ++ cur ++ tail).
Proof.
  intros Hab Hcur Hop Hoc. revert x zeros. induction k as [|k IH]; intros x zeros Hx Hz Hin; cbn [seq].
  - destruct zeros; [|done]. cbn. by rewrite take_ge by lia.
  - destruct zeros as [|zero zeros]; [done|]. cbn [unfilter_columns app].
    destruct (lookup_lt_is_Some_2 cur x) as [c Hc]; [lia|].
    erewrite unfilter_byte_spec by (try done; apply Hin; lia). cbn [mbind option_bind].
    apply IH; [lia|by injection Hz|done].
Qed.

Lemma unfilter_rows_spec bef_in inflated before prev rows y zeros :
  inflated = bef_in ++ filter_rows bpp prev rows → length bef_in = (y * S w)%nat →
  above before prev y w → Forall octet prev →
  Forall (λ r, length r.2 = w ∧ Forall octet r.2) rows →
  length zeros = (length rows * w)%nat →
  unfilter_rows inflated layout (seq y (length rows)) (before ++ zeros) =
    Some (Ok (before ++ concat rows.*2)).
Proof.
  intros Hi. revert bef_in before prev y zeros Hi.
  induction rows as [|[f cur] rows IH]; intros bef_in before prev y zeros Hi Hbi Hab Hop Hrows Hz.
  - destruct zeros; done.
  - apply Forall_cons in Hrows as [[Hcur Hoc] Hrows]. cbn [fst snd] in Hcur, Hoc.
    cbn [length seq unfilter_rows]. cbn [length] in Hz. destruct Hlayout as (Hw & Hfw & _).
    rewrite Hw, Hfw, !Nat2N.id. rewrite Hi at 1. cbn [filter_rows].
    rewrite lookup_app_r, Hbi, Nat.sub_diag by lia. cbn [lookup list_lookup mbind option_bind].
    rewrite parse_filter_byte.
    rewrite <- (take_drop w zeros).
    pose proof (unfilter_columns_spec inflated f y before prev cur w 0 (drop w zeros) (take w zeros)
      Hab Hcur Hop Hoc) as Hcols. rewrite take_0, app_nil_l in Hcols. rewrite Hcols; clear Hcols; [|lia| |].
    + cbn [mbind option_bind]. rewrite app_assoc.
      rewrite (IH (bef_in ++ filter_byte f :: filter_row f bpp prev cur) (before ++ cur) cur (S y)).
      * cbn. by rewrite <- app_assoc.
      * rewrite Hi. cbn [filter_rows]. by rewrite <- app_assoc.
      * rewrite length_app. cbn. rewrite length_filter_row. lia.
      * destruct Hab as [Hlen _]. split; [rewrite length_app; lia|]. by exists before.
      * done.
      * done.
      * rewrite length_drop. lia.
    + rewrite length_take. lia.
    + intros i Hlt. rewrite Hi. cbn [filter_rows].
      rewrite lookup_app_r by lia. replace (y * S w + 1 + i - length bef_in)%nat with (S i) by lia.
      rewrite lookup_cons_ne_0 by done. cbn [Nat.pred].
      by rewrite lookup_app_l by (rewrite length_filter_row; lia).
Qed.

Lemma length_filter_rows prev rows :
  Forall (λ r, length r.2 = w) rows → length (filter_rows bpp prev rows) = (length rows * S w)%nat.
Proof.
  intros Hr. revert prev. induction Hr as [|[f cur] rows Hc _ IH]; intros prev; [done|].
  cbn [filter_rows length]. rewrite length_app, length_filter_row, IH. cbn in Hc. lia.
Qed.

Lemma unfilter_scanlines_spec rows :
  filtered_bytes layout = N.of_nat (length rows * S w) →
  Forall (λ r, length r.2 = w ∧ Forall octet r.2) rows →
  unfilter_scanlines (filter_rows bpp [] rows) layout (N.of_nat (length rows)) =
    Some (Ok (concat rows.*2)).
Proof.
  intros Hf Hrows. unfold unfilter_scanlines. rewrite decide_False.
  2: { intros Hne. apply Hne. rewrite Hf. unfold size_of. f_equal. apply length_filter_rows.
       eapply Forall_impl; [done|]. by intros r []. }
  rewrite Nat2N.id. destruct Hlayout as (Hw & _).
  apply (unfilter_rows_spec [] _ [] []); try done.
  rewrite length_replicate, Hw. lia.
Qed.

End rows.

(** ** Decoding any data *)

Section total.
Context (layout : DecodeLayout) (w bpp h : nat) (Hlayout : layout_of layout w bpp).

Lemma unfilter_byte_total inflated f y x raw :
  length inflated = (h * S w)%nat → length raw = (h * w)%nat → (y < h)%nat → (x < w)%nat →
  ∃ raw', unfilter_byte inflated layout f y x raw = Some raw' ∧ length raw' = length raw.
Proof.
  intros Hi Hr Hy Hx. destruct Hlayout as (Hw & Hfw & Hb & Hb0).
  unfold unfilter_byte. rewrite Hw, Hfw, Hb, !Nat2N.id.
  assert (y * w + w <= h * w ∧ y * S w + S w <= h * S w)%nat as [Hrow Hin] by nia.
  assert (∀ (P : Prop) `{Decision P} i, (P → i < length raw)%nat →
    ∃ v, (if decide P then raw !! i else Some 0) = Some v) as Hget.
  { intros P ? i HP. case_decide; [by apply lookup_lt_is_Some_2, HP|by eexists]. }
  destruct (Hget (bpp <= x)%nat _ (y * w + x - bpp)%nat) as [a ->]; [lia|].
  destruct (Hget (0 < y)%nat _ (y * w - w + x)%nat) as [b ->]; [lia|].
  destruct (Hget (0 < y ∧ bpp <= x)%nat _ (y * w - w + x - bpp)%nat) as [c ->]; [lia|].
  destruct (lookup_lt_is_Some_2 inflated (y * S w + 1 + x)) as [d ->]; [lia|].
  cbn [mbind option_bind]. unfold set_at. rewrite decide_True by lia.
  eexists. split; [done|]. by rewrite length_insert.
Qed.

Lemma unfilter_columns_total inflated f y xs raw :
  length inflated = (h * S w)%nat → length raw = (h * w)%nat → (y < h)%nat →
  Forall (λ x, x < w)%nat xs →
  ∃ raw', unfilter_columns inflated layout f y xs raw = Some raw' ∧ length raw' = length raw.
Proof.
  intros Hi Hr Hy Hxs. revert raw Hr. induction Hxs as [|x xs Hx _ IH]; intros raw Hr; [by eexists|].
  destruct (unfilter_byte_total inflated f y x raw Hi Hr Hy Hx) as (raw1 & H1 & Hl1).
  cbn [unfilter_columns]. rewrite H1. cbn [mbind option_bind].
  destruct (IH raw1) as (raw2 & -> & Hl2); [by rewrite Hl1|]. eexists. split; [done|]. by rewrite Hl2.
Qed.

Lemma unfilter_rows_total inflated ys raw :
  length inflated = (h * S w)%nat → length raw = (h * w)%nat → Forall (λ y, y < h)%nat ys →
  ∃ r, unfilter_rows inflated layout ys raw = Some r ∧
    ∀ raw', r = Ok raw' → length raw' = length raw.
Proof.
  intros Hi Hr Hys. revert raw Hr. induction Hys as [|y ys Hy _ IH]; intros raw Hr.
  - eexists. split; [done|]. by intros raw' [= <-].
  - cbn [unfilter_rows]. pose proof Hlayout as (Hw & Hfw & _). rewrite Hw, Hfw, !Nat2N.id.
    destruct (lookup_lt_is_Some_2 inflated (y * S w)) as [first ->]; [nia|]. cbn [mbind option_bind].
    destruct (parse_filter_type first) as [f|]; [|by eexists].
    destruct (unfilter_columns_total inflated f y (seq 0 w) raw Hi Hr Hy) as (raw1 & H1 & Hl1).
    { apply Forall_seq. lia. }
    rewrite H1. cbn [mbind option_bind].
    destruct (IH raw1) as (r & Hrun & Hlen); [by rewrite Hl1|]. exists r. split; [done|].
    intros raw' Hok. by rewrite (Hlen raw' Hok).
Qed.

Lemma unfilter_scanlines_total inflated :
  filtered_bytes layout = N.of_nat (h * S w) →
  ∃ r, unfilter_scanlines inflated layout (N.of_nat h) = Some r ∧
    ∀ raw, r = Ok raw → length raw = (h * w)%nat.
Proof.
  intros Hf. unfold unfilter_scanlines. case_decide as Hs; [by eexists|].
  rewrite Hf in Hs. rewrite Nat2N.id. destruct Hlayout as (Hw & _).
  destruct (unfilter_rows_total inflated (seq 0 h)
    (replicate (N.to_nat (source_row_bytes layout * N.of_nat h)) 0)) as (r & -> & Hr).
  - unfold size_of in Hs. lia.
  - rewrite length_replicate, Hw. lia.
  - apply Forall_seq. lia.
  - exists r. split; [done|]. intros raw Hok. rewrite (Hr raw Hok), length_replicate, Hw. lia.
Qed.

End total.

Lemma size_of_zero {A} (l : list A) : size_of l = 0 ↔ l = [].
Proof. unfold size_of. destruct l; cbn; split; (done || lia). Qed.

(** The channels of an output pixel. *)
Definition output_channels (png : ParsedPng) : N :=
  match decode_channels png with Some (_, channels) => channels | None => 0 end.

Lemma checked_mul_Some a b c : checked_mul a b = Some c → c = a * b.
Proof. unfold checked_mul. case_decide; congruence. Qed.

Lemma checked_add_Some a b c : checked_add a b = Some c → c = a + b.
Proof. unfold checked_add. case_decide; congruence. Qed.

Lemma checked_mul_None a b : checked_mul a b = None → max_size < a * b.
Proof.
  unfold checked_mul. case_decide as H; [|done]. intros _. destruct H as [Hb H].
  pose proof (N.mul_succ_div_gt max_size b Hb). nia.
Qed.

Lemma checked_mul_small a b : a * b <= max_size → checked_mul a b = Some (a * b).
Proof.
  intros H. unfold checked_mul. rewrite decide_False; [done|]. intros [Hb Hlt].
  apply N.lt_nge in Hlt. apply Hlt, N.div_le_lower_bound; lia.
Qed.

Lemma checked_add_small a b : a + b <= max_size → checked_add a b = Some (a + b).
Proof. intros H. unfold checked_add. rewrite decide_False; [done|]. lia. Qed.

Lemma decode_layout_Ok png layout :
  decode_layout_for png = Ok layout →
  let w := N.to_nat (ihdr_width (png_ihdr png) * filter_pixel_bytes layout) in
  layout_of layout w (N.to_nat (filter_pixel_bytes layout)) ∧
  filtered_bytes layout = N.of_nat (N.to_nat (ihdr_height (png_ihdr png)) * S w) ∧
  filtered_bytes layout <= maxDecodedBytes ∧
  output_stride layout = ihdr_width (png_ihdr png) * bytes_per_pixel (output_format layout) ∧
  output_stride layout <= max_u32 ∧
  output_bytes layout = ihdr_height (png_ihdr png) * output_stride layout ∧
  output_bytes layout <= maxDecodedBytes ∧
  (ihdr_color_type (png_ihdr png) ≠ PngColorType.Palette →
    bytes_per_pixel (output_format layout) = filter_pixel_bytes layout).
Proof.
  unfold decode_layout_for.
  destruct (source_channels _) as [channels|] eqn:Hsc; [|done].
  destruct (checked_mul _ channels) as [row|] eqn:E1; [|done]. cbn [mbind option_bind].
  destruct (checked_add row 1) as [frow|] eqn:E2; [|done]. cbn [mbind option_bind].
  destruct (checked_mul frow _) as [total|] eqn:E3; [|done]. cbn [mbind option_bind].
  destruct (decode_channels png) as [[format out]|] eqn:Hdc; [|done].
  destruct (checked_mul _ out) as [stride|] eqn:E4; [|done]. cbn [mbind option_bind].
  destruct (checked_mul _ stride) as [bytes|] eqn:E5; [|done]. cbn [mbind option_bind].
  apply checked_mul_Some in E1, E3, E4, E5. apply checked_add_Some in E2. subst.
  case_decide as Hbig; [done|]. intros [= <-]. cbn.
  assert (channels ≠ 0 ∧ out = bytes_per_pixel format ∧
    (ihdr_color_type (png_ihdr png) ≠ PngColorType.Palette → bytes_per_pixel format = channels))
    as (Hc0 & -> & Hsame).
  { unfold decode_channels in Hdc. destruct (ihdr_color_type (png_ihdr png)); cbn in *;
      repeat case_decide; naive_solver. }
  unfold layout_of. cbn. split_and!; try done; try lia.
Qed.

(** Expanding a palette reads inside it. *)
Lemma palette_entry_total png index :
  N.of_nat index < size_of (png_palette png) / paletteEntryBytes → ∃ e, palette_entry png index = Some e.
Proof.
  intros Hi. unfold palette_entry, paletteEntryBytes in *.
  assert (index * 3 + 3 <= length (png_palette png))%nat as Hl.
  { pose proof (N.Div0.mul_div_le (size_of (png_palette png)) 3). unfold size_of in *. lia. }
  change (N.to_nat 3) with 3%nat.
  destruct (lookup_lt_is_Some_2 (png_palette png) (index * 3)) as [r ->]; [lia|].
  destruct (lookup_lt_is_Some_2 (png_palette png) (index * 3 + 1)) as [g ->]; [lia|].
  destruct (lookup_lt_is_Some_2 (png_palette png) (index * 3 + 2)) as [b ->]; [lia|].
  cbn. destruct (png_transparency png); by eexists.
Qed.

Lemma expand_indexes_total png raw expanded : ∃ r, expand_indexes png raw expanded = Some r.
Proof.
  revert expanded. induction raw as [|index raw IH]; intros expanded; [by eexists|].
  cbn [expand_indexes]. case_decide as Hi; [by eexists|].
  destruct (palette_entry_total png (N.to_nat index)) as [e ->]; [rewrite N2Nat.id; lia|]. apply IH.
Qed.

Lemma image_from_raw_total png layout raw :
  decode_layout_for png = Ok layout →
  length raw = N.to_nat (ihdr_height (png_ihdr png) * (ihdr_width (png_ihdr png) * filter_pixel_bytes layout)) →
  ∃ r, image_from_raw png layout raw = Some r ∧
    ∀ image, r = Ok image →
      img_width image = ihdr_width (png_ihdr png) ∧ img_height image = ihdr_height (png_ihdr png) ∧
      img_stride image = img_width image * bytes_per_pixel (img_format image) ∧
      size_of (img_pixels image) = img_height image * img_stride image ∧
      size_of (img_pixels image) <= maxDecodedBytes.
Proof.
  intros (_ & _ & _ & Hs & Hs32 & Hob & Hob2 & Hsame)%decode_layout_Ok Hraw.
  assert (output_stride layout mod 2 ^ 32 = output_stride layout) as Hmod
    by (apply N.mod_small; unfold max_u32 in Hs32; lia).
  unfold image_from_raw. rewrite Hmod. case_decide as Hp.
  - unfold expand_palette. destruct (expand_indexes_total png raw []) as [[pixels|e] ->];
      cbn [mbind option_bind result_bind]; [|by eexists].
    case_decide as Hsize; cbn [mbind option_bind result_bind]; eexists; split; [done|done|done|].
    intros image [= <-]. cbn. rewrite Hsize, Hob. split_and!; try done; congruence.
  - cbn. eexists. split; [done|]. intros image [= <-]. cbn.
    assert (size_of raw = ihdr_height (png_ihdr png) * output_stride layout) as Hsz.
    { unfold size_of. rewrite Hraw, Hs, Hsame by done. lia. }
    rewrite Hsz. split_and!; try done. by rewrite <- Hob.
Qed.

(** ** Images as rows of pixels *)

(** Where the channels of an output pixel are in a pixel of the format. *)
Definition channel_order (format : PixelFormat) : list nat :=
  match format with
  | PixelFormat.Bgra => [2; 1; 0; 3]%nat
  | PixelFormat.Rgba => [0; 1; 2; 3]%nat
  | PixelFormat.Bgr => [2; 1; 0]%nat
  | PixelFormat.Rgb => [0; 1; 2]%nat
  | PixelFormat.Gray => [0]%nat
  end.

(** The channels of [width] pixels of [bpp] bytes, in the order [order]. *)
Definition pixels_of (order : list nat) (bpp width : nat) (row : list Byte) : list Byte :=
  seq 0 width ≫= λ x, (λ c, default 0 (row !! (x * bpp + c)%nat)) <$> order.

Definition canonical_format (format : PixelFormat) : PixelFormat :=
  match format with
  | PixelFormat.Bgra | PixelFormat.Rgba => PixelFormat.Rgba
  | PixelFormat.Bgr | PixelFormat.Rgb => PixelFormat.Rgb
  | PixelFormat.Gray => PixelFormat.Gray
  end.

Definition canonical_row (image : Image) (y : nat) : list Byte :=
  pixels_of (channel_order (img_format image)) (N.to_nat (bytes_per_pixel (img_format image)))
    (N.to_nat (img_width image)) (drop (y * N.to_nat (img_stride image)) (img_pixels image)).

(** The same picture in red, green, blue, alpha order and without padding. *)
Definition canonical (image : Image) : Image :=
  MkImage (img_width image) (img_height image)
    (img_width image * bytes_per_pixel (img_format image)) (canonical_format (img_format image))
    (seq 0 (N.to_nat (img_height image)) ≫= canonical_row image).

(** An image of the C++ type: 32-bit dimensions, octets. *)
Definition image_typed (image : Image) : Prop :=
  img_width image <= max_u32 ∧ img_height image <= max_u32 ∧ img_stride image <= max_u32 ∧
  Forall octet (img_pixels image).

Definition encodable (image : Image) : Prop :=
  img_width image ≠ 0 ∧ img_height image ≠ 0 ∧
  img_width image * bytes_per_pixel (img_format image) <= img_stride image ∧
  img_height image * img_stride image <= size_of (img_pixels image) ∧
  (img_width image * bytes_per_pixel (img_format image) + 1) * img_height image <= maxDecodedBytes.

Lemma channels_of_format format :
  (encode_channels format).2 = bytes_per_pixel format ∧
  bytes_per_pixel (canonical_format format) = bytes_per_pixel format ∧
  length (channel_order format) = N.to_nat (bytes_per_pixel format) ∧
  1 <= bytes_per_pixel format <= 4.
Proof. by destruct format. Qed.

Lemma order_in_pixel format c :
  c ∈ channel_order format → (c < N.to_nat (bytes_per_pixel format))%nat.
Proof. destruct format; cbn; intros Hc; rewrite ?elem_of_cons, ?elem_of_nil in Hc; lia. Qed.

Lemma length_pixels_of order bpp width row : length (pixels_of order bpp width row) = (width * length order)%nat.
Proof.
  unfold pixels_of. generalize 0%nat as x. induction width as [|width IH]; intros x; [done|].
  cbn [seq]. rewrite bind_cons, length_app, length_fmap, IH. lia.
Qed.

Lemma pixels_of_octets order bpp width row : Forall octet row → Forall octet (pixels_of order bpp width row).
Proof.
  intros Hr. unfold pixels_of. generalize 0%nat as x. induction width as [|width IH]; intros x; [by constructor|].
  cbn [seq]. rewrite bind_cons. apply Forall_app. split; [|done].
  apply Forall_fmap, Forall_true. intros c. by apply octet_default.
Qed.

Lemma take_as_seq (row : list Byte) b :
  (b <= length row)%nat → take b row = (λ c, default 0 (row !! c)) <$> seq 0 b.
Proof.
  intros Hb. apply list_eq. intros i. rewrite list_lookup_fmap. destruct (decide (i < b)%nat).
  - rewrite lookup_take_lt, lookup_seq_lt by done. cbn.
    destruct (lookup_lt_is_Some_2 row i) as [v ->]; [lia|done].
  - rewrite lookup_take_ge, lookup_seq_ge by lia. done.
Qed.

Lemma take_as_pixels bpp width (row : list Byte) :
  (width * bpp <= length row)%nat → take (width * bpp) row = pixels_of (seq 0 bpp) bpp width row.
Proof.
  induction width as [|width IH]; intros Hl; [done|]. unfold pixels_of in *.
  rewrite seq_S, bind_app, <- IH by lia. cbn. rewrite app_nil_r.
  replace (bpp + width * bpp)%nat with (width * bpp + bpp)%nat by lia.
  rewrite <- take_take_drop. f_equal. rewrite take_as_seq by (rewrite length_drop; lia).
  apply list_fmap_ext. intros i c _. by rewrite lookup_drop.
Qed.

Lemma pixels_of_take order bpp width n (row : list Byte) :
  (∀ c, c ∈ order → c < bpp)%nat → (width * bpp <= n)%nat →
  pixels_of order bpp width (take n row) = pixels_of order bpp width row.
Proof.
  intros Ho Hn. unfold pixels_of. apply Forall_bind_ext, Forall_forall.
  intros x Hx. apply list_fmap_ext. intros i c Hc. specialize (Ho c (list_elem_of_lookup_2 _ _ _ Hc)).
  apply elem_of_seq in Hx. rewrite lookup_take_lt; [done|nia].
Qed.

Section rows_encoded.
Context (image : Image) (layout : EncodeLayout).

Lemma append_bgr_row_spec count x scanlines row :
  ((x + count) * 3 <= length row)%nat →
  append_bgr_row count scanlines row (N.of_nat (x * 3)) 3 =
    Some (scanlines ++ (seq x count ≫= λ x, (λ c, default 0 (row !! (x * 3 + c)%nat)) <$>
      channel_order PixelFormat.Bgr)).
Proof.
  revert x scanlines. induction count as [|count IH]; intros x scanlines Hl; cbn [append_bgr_row].
  - by rewrite app_nil_r.
  - unfold source_byte_at. rewrite !N2Nat.inj_add, !Nat2N.id.
    change (N.to_nat 2) with 2%nat. change (N.to_nat 1) with 1%nat.
    destruct (lookup_lt_is_Some_2 row (x * 3 + 2)) as [r Hr]; [lia|].
    destruct (lookup_lt_is_Some_2 row (x * 3 + 1)) as [g Hg]; [lia|].
    destruct (lookup_lt_is_Some_2 row (x * 3)) as [b Hb]; [lia|].
    rewrite Hr, Hg, Hb. cbn [mbind option_bind].
    replace (N.of_nat (x * 3) + 3) with (N.of_nat (S x * 3)) by lia. rewrite IH by lia.
    cbn [seq]. rewrite bind_cons, <- app_assoc. cbn [channel_order fmap list_fmap].
    by rewrite Nat.add_0_r, Hr, Hg, Hb.
Qed.

Lemma append_bgra_row_spec count x scanlines row :
  ((x + count) * 4 <= length row)%nat →
  append_bgra_row count scanlines row (N.of_nat (x * 4)) 4 =
    Some (scanlines ++ (seq x count ≫= λ x, (λ c, default 0 (row !! (x * 4 + c)%nat)) <$>
      channel_order PixelFormat.Bgra)).
Proof.
  revert x scanlines. induction count as [|count IH]; intros x scanlines Hl; cbn [append_bgra_row].
  - by rewrite app_nil_r.
  - unfold source_byte_at. rewrite !N2Nat.inj_add, !Nat2N.id.
    change (N.to_nat 3) with 3%nat. change (N.to_nat 2) with 2%nat. change (N.to_nat 1) with 1%nat.
    destruct (lookup_lt_is_Some_2 row (x * 4 + 2)) as [r Hr]; [lia|].
    destruct (lookup_lt_is_Some_2 row (x * 4 + 1)) as [g Hg]; [lia|].
    destruct (lookup_lt_is_Some_2 row (x * 4)) as [b Hb]; [lia|].
    destruct (lookup_lt_is_Some_2 row (x * 4 + 3)) as [a Ha]; [lia|].
    rewrite Hr, Hg, Hb, Ha. cbn [mbind option_bind].
    replace (N.of_nat (x * 4) + 4) with (N.of_nat (S x * 4)) by lia. rewrite IH by lia.
    cbn [seq]. rewrite bind_cons, <- app_assoc. cbn [channel_order fmap list_fmap].
    by rewrite Nat.add_0_r, Hr, Hg, Hb, Ha.
Qed.

Lemma loop_count_exact n step : step ≠ 0 → loop_count (n * step) step = N.to_nat n.
Proof.
  intros Hs. unfold loop_count. f_equal. symmetry. apply (N.div_unique _ _ _ (step - 1)); lia.
Qed.

Definition encode_layout_ok : Prop :=
  let bpp := bytes_per_pixel (img_format image) in
  encode_row_bytes layout = img_width image * bpp ∧ png_row_bytes layout = img_width image * bpp ∧
  source_pixel_bytes layout = bpp ∧
  encode_color_type layout = (encode_channels (img_format image)).1.

Lemma append_row_spec scanlines row :
  encode_layout_ok →
  let bpp := N.to_nat (bytes_per_pixel (img_format image)) in
  let w := N.to_nat (img_width image) in
  (w * bpp <= length row)%nat →
  append_row image layout scanlines row =
    Some (scanlines ++ pixels_of (channel_order (img_format image)) bpp w row).
Proof.
  intros (Hr & Hp & Hs & _) bpp w Hl. unfold append_row, append_direct_row.
  rewrite Hr, Hp, Hs. unfold pixels_of.
  assert (img_width image * bytes_per_pixel (img_format image) <= size_of row) as Hle.
  { unfold size_of. rewrite <- (N2Nat.id (_ * _)), N2Nat.inj_mul. fold w bpp. lia. }
  assert (subspan row 0 (img_width image * bytes_per_pixel (img_format image)) =
    Some (pixels_of (seq 0 bpp) bpp w row)) as Hsub.
  { unfold subspan. rewrite decide_True by lia. cbn [N.to_nat drop]. rewrite N2Nat.inj_mul. f_equal.
    by apply take_as_pixels. }
  unfold pixels_of in Hsub. unfold bpp, w in *.
  destruct (img_format image) eqn:Hf; cbn [bytes_per_pixel channel_order] in *;
    try (rewrite Hsub; done).
  - rewrite loop_count_exact by done. by apply (append_bgra_row_spec _ 0).
  - rewrite loop_count_exact by done. by apply (append_bgr_row_spec _ 0).
Qed.

End rows_encoded.

(** ** Encoding *)

Section encoding.
Context (image : Image) (Htyped : image_typed image).

Lemma validate_encode_image_spec :
  match validate_encode_image image with
  | Ok layout => encodable image ∧ encode_layout_ok image layout
  | Err _ => ¬ encodable image
  end.
Proof.
  destruct Htyped as (Hw & Hh & Hs & _). unfold validate_encode_image, image_empty, encodable.
  unfold max_u32 in *. destruct (channels_of_format (img_format image)) as (Hch & _ & _ & Hbpp).
  destruct (bool_decide_reflect (img_width image = 0)) as [|Hw0]; [naive_solver|].
  destruct (bool_decide_reflect (img_height image = 0)) as [|Hh0]; [naive_solver|]. cbn [orb].
  assert (img_width image * bytes_per_pixel (img_format image) <= (2 ^ 32 - 1) * 4) as Hrow
    by (apply N.mul_le_mono; lia).
  rewrite checked_mul_small by (unfold max_size; lia).
  case_decide; [lia|].
  rewrite checked_mul_small.
  2: { unfold max_size. transitivity ((2 ^ 32 - 1) * (2 ^ 32 - 1)); [by apply N.mul_le_mono|lia]. }
  case_decide; [lia|].
  destruct (encode_channels (img_format image)) as [color_type channels] eqn:E. cbn in Hch. subst channels.
  rewrite checked_add_small by (unfold max_size; lia). cbn [mbind option_bind].
  destruct (checked_mul _ (img_height image)) as [total|] eqn:Etotal.
  - apply checked_mul_Some in Etotal as ->. case_decide; [lia|]. unfold encode_layout_ok. cbn.
    rewrite E. split_and!; done || lia.
  - apply checked_mul_None in Etotal. unfold max_size, maxDecodedBytes in *. lia.
Qed.

Lemma image_row_spec y :
  encodable image → (y < N.to_nat (img_height image))%nat →
  let n := N.to_nat (img_stride image) in
  image_row image (N.of_nat y) = Some (take n (drop (y * n) (img_pixels image))) ∧
  (y * n + n <= length (img_pixels image))%nat ∧
  (N.to_nat (img_width image) * N.to_nat (bytes_per_pixel (img_format image)) <= n)%nat ∧ (0 < n)%nat.
Proof.
  intros (Hw0 & Hh0 & Hstride & Hpix & _) Hy n. destruct Htyped as (_ & Hh & Hs & _).
  destruct (channels_of_format (img_format image)) as (_ & _ & _ & Hbpp).
  assert (N.of_nat y * img_stride image + img_stride image <= size_of (img_pixels image)) as Hin.
  { transitivity (img_height image * img_stride image); [|done].
    replace (N.of_nat y * img_stride image + img_stride image) with ((N.of_nat y + 1) * img_stride image) by lia.
    apply N.mul_le_mono_r. lia. }
  assert (img_width image * bytes_per_pixel (img_format image) ≠ 0) as Hne by lia.
  unfold image_row. rewrite decide_False by lia. rewrite decide_False.
  2: { intros [Hs0 Hlt]. apply N.lt_nge in Hlt. apply Hlt.
       apply N.div_le_lower_bound; [done|]. unfold max_size, max_u32 in *.
       transitivity ((2 ^ 32 - 1) * (2 ^ 32 - 1)); [apply N.mul_le_mono; lia|lia]. }
  rewrite decide_False by lia. unfold subspan. rewrite decide_True by lia.
  rewrite N2Nat.inj_mul, Nat2N.id. split_and!.
  - done.
  - unfold size_of in Hin. unfold n. nia.
  - unfold n. nia.
  - unfold n. lia.
Qed.

Lemma canonical_row_of_row y n :
  (N.to_nat (img_width image) * N.to_nat (bytes_per_pixel (img_format image)) <= n)%nat →
  pixels_of (channel_order (img_format image)) (N.to_nat (bytes_per_pixel (img_format image)))
    (N.to_nat (img_width image))
    (take n (drop (y * N.to_nat (img_stride image)) (img_pixels image))) = canonical_row image y.
Proof. intros Hn. apply pixels_of_take; [apply order_in_pixel|done]. Qed.

(** The stream that is compressed: the rows, each below the filter [None]. *)
Definition encoded_rows : list (FilterType * list Byte) :=
  (λ y, (FilterType.None, canonical_row image y)) <$> seq 0 (N.to_nat (img_height image)).

Definition scanline_bytes (bpp : nat) : list Byte := filter_rows bpp [] encoded_rows.

Lemma length_canonical_row y :
  length (canonical_row image y) = N.to_nat (img_width image * bytes_per_pixel (img_format image)).
Proof.
  unfold canonical_row. rewrite length_pixels_of.
  destruct (channels_of_format (img_format image)) as (_ & _ & -> & _). lia.
Qed.

Lemma canonical_row_octets y : Forall octet (canonical_row image y).
Proof. apply pixels_of_octets, Forall_drop, Htyped. Qed.

Lemma filter_row_none bpp prev cur : Forall octet cur → filter_row FilterType.None bpp prev cur = cur.
Proof.
  intros Hc. apply list_eq. intros i. destruct (cur !! i) as [c|] eqn:E.
  - rewrite (filter_row_lookup _ _ _ _ _ _ E). f_equal. unfold predicted. cbn [format_predictor].
    pose proof (Forall_lookup_1 _ _ _ _ Hc E) as Hoc. unfold octet in Hoc.
    replace (c + 256 - 0) with (c + 1 * 256) by lia. rewrite N.Div0.mod_add. by apply N.mod_small.
  - apply lookup_ge_None in E. apply lookup_ge_None. by rewrite length_filter_row.
Qed.

Lemma make_filtered_scanlines_spec layout bpp :
  encodable image → encode_layout_ok image layout →
  make_filtered_scanlines image layout = Some (Ok (scanline_bytes bpp)).
Proof.
  intros He Hl. unfold make_filtered_scanlines, scanline_bytes, encoded_rows.
  assert (∀ ys acc prev, Forall (λ y, y < N.to_nat (img_height image))%nat ys →
    filtered_scanlines_of image layout ys acc =
      Some (Ok (acc ++ filter_rows bpp prev ((λ y, (FilterType.None, canonical_row image y)) <$> ys))))
    as H; [|apply (H _ [] []), Forall_seq; lia].
  intros ys acc prev Hys. revert acc prev. induction Hys as [|y ys Hy _ IH]; intros acc prev.
  - cbn. by rewrite app_nil_r.
  - cbn [filtered_scanlines_of fmap list_fmap filter_rows].
    destruct (image_row_spec y He Hy) as (Hrow & Hin & Hn & Hpos). rewrite Hrow.
    cbn [mbind option_bind].
    set (n := N.to_nat (img_stride image)) in *.
    set (row := take n (drop (y * n) (img_pixels image))) in *.
    assert (length row = n) as Hlen by (unfold row; rewrite length_take, length_drop; lia).
    destruct row as [|b0 row'] eqn:Erow; [cbn in Hlen; lia|]. rewrite <- Erow.
    rewrite (append_row_spec image layout _ row Hl) by (rewrite Erow; lia). cbn [mbind option_bind].
    unfold row, n. rewrite canonical_row_of_row by done.
    rewrite (IH _ (canonical_row image y)), filter_row_none by apply canonical_row_octets.
    by rewrite <- !app_assoc.
Qed.

Lemma encoded_rows_ok :
  length encoded_rows = N.to_nat (img_height image) ∧
  Forall (λ r, length r.2 = N.to_nat (img_width image * bytes_per_pixel (img_format image)) ∧
    Forall octet r.2) encoded_rows ∧
  concat encoded_rows.*2 = img_pixels (canonical image).
Proof.
  unfold encoded_rows. split_and!.
  - by rewrite length_fmap, length_seq.
  - apply Forall_fmap, Forall_true. intros y. cbn.
    split; [apply length_canonical_row|apply canonical_row_octets].
  - cbn. rewrite <- list_fmap_compose. generalize (seq 0 (N.to_nat (img_height image))) as ys.
    induction ys as [|y ys IH]; [done|]. cbn. by rewrite IH.
Qed.

Lemma scanline_bytes_octets bpp : Forall octet (scanline_bytes bpp).
Proof.
  unfold scanline_bytes. destruct encoded_rows_ok as (_ & H & _). revert H.
  generalize (@nil Byte) as prev. induction encoded_rows as [|[f cur] rows IH]; intros prev H; [by constructor|].
  apply Forall_cons in H as [[_ Ho] H]. cbn [filter_rows]. constructor; [by destruct f|].
  apply Forall_app. split; [|by apply IH]. unfold filter_row. apply Forall_fmap, Forall_true.
  intros x. by apply N.mod_lt.
Qed.

End encoding.

(** ** The whole codec *)

Section round_trip.
Context {zlib : Zlib} {laws : ZlibLaws zlib}.

Definition stream_of (image : Image) : list Byte :=
  scanline_bytes image (N.to_nat (bytes_per_pixel (img_format image))).

(** [compressed] is what the library makes of the image's rows, and fits a chunk. *)
Definition compresses (image : Image) (compressed : list Byte) : Prop :=
  compress2 (stream_of image) = Some compressed ∧ size_of compressed <= maxChunkBytes ∧
  compressBound (size_of (stream_of image)) <= max_size.

Definition header_of (image : Image) : list Byte :=
  field_bytes 4 (img_width image) ++ field_bytes 4 (img_height image) ++
  [8; color_type_byte (encode_channels (img_format image)).1; 0; 0; 0].

Definition encoded_file (image : Image) (compressed : list Byte) : list Byte :=
  file_bytes [(chunkIhdr, header_of image); (chunkIdat, compressed); iend].

Lemma size_of_stream image :
  image_typed image → encodable image →
  size_of (stream_of image) =
    (img_width image * bytes_per_pixel (img_format image) + 1) * img_height image.
Proof.
  intros Ht He. destruct (encoded_rows_ok image Ht) as (Hlen & Hrows & _).
  unfold stream_of, scanline_bytes, size_of.
  rewrite (length_filter_rows (N.to_nat (img_width image * bytes_per_pixel (img_format image)))).
  - rewrite Hlen. lia.
  - eapply Forall_impl; [done|]. by intros r [].
Qed.

Lemma encode_png_spec image :
  image_typed image →
  ∃ r, encode_png image = Some r ∧
    ∀ bytes, r = Ok bytes ↔
      encodable image ∧ ∃ compressed, compresses image compressed ∧ bytes = encoded_file image compressed.
Proof.
  intros Ht. unfold encode_png. pose proof (validate_encode_image_spec image Ht) as Hv.
  destruct (validate_encode_image image) as [layout|e]; [|eexists; split; [done|]; naive_solver].
  destruct Hv as [He Hl].
  rewrite (make_filtered_scanlines_spec image Ht layout (N.to_nat (bytes_per_pixel (img_format image))) He Hl).
  fold (stream_of image). cbn [mbind option_bind result_bind].
  assert (size_of (stream_of image) <= max_size) as Hsize.
  { rewrite size_of_stream by done. destruct He as (_ & _ & _ & _ & He).
    unfold maxDecodedBytes, max_size in *. lia. }
  eexists. split; [done|]. intros bytes. unfold zlib_compress, compresses.
  rewrite decide_False by lia. case_decide as Hb.
  { split; [done|]. intros (_ & c & (_ & _ & ?) & _). lia. }
  destruct (compress2 (stream_of image)) as [c|]; [|naive_solver].
  assert (encode_ihdr image layout = header_of image) as ->.
  { unfold encode_ihdr, header_of. destruct Hl as (_ & _ & _ & ->). done. }
  rewrite (proj2 (append_chunk_Ok _ _ _ _)) by (split; [|done]; done).
  cbn [mbind result_bind].
  destruct (append_chunk _ chunkIdat c) as [png|e] eqn:E.
  - apply append_chunk_Ok in E as [Hc ->]. cbn [mbind result_bind].
    rewrite (proj2 (append_chunk_Ok _ _ _ _)) by (split; [|done]; done).
    assert (((pngSignature ++ chunk_bytes (chunkIhdr, header_of image)) ++ chunk_bytes (chunkIdat, c)) ++
      chunk_bytes (chunkIend, []) = encoded_file image c) as ->.
    { unfold encoded_file. rewrite file_bytes_cons. cbn [mbind list_bind].
      fold iend. by rewrite app_nil_r, <- !app_assoc. }
    split.
    + intros [= <-]. split; [done|]. exists c. split_and!; try done. lia.
    + intros (_ & c' & ([= <-] & _) & ->). done.
  - split; [done|]. intros (_ & c' & ([= <-] & Hc & _) & _).
    by rewrite (proj2 (append_chunk_Ok _ _ _ _)) in E by (split; [exact Hc|done]).
Qed.

Definition parsed_header (image : Image) : Ihdr :=
  MkIhdr (img_width image) (img_height image) 8 (encode_channels (img_format image)).1 0 0 0.

Lemma color_type_of_format format :
  parse_color_type (color_type_byte (encode_channels format).1) = Some (encode_channels format).1 ∧
  (encode_channels format).1 ≠ PngColorType.GrayscaleAlpha ∧
  (encode_channels format).1 ≠ PngColorType.Palette ∧
  source_channels (encode_channels format).1 = Some (bytes_per_pixel format).
Proof. by destruct format. Qed.

Lemma header_of_ok image :
  image_typed image → encodable image → header_ok (header_of image) (parsed_header image).
Proof.
  intros (Hw & Hh & _) (Hw0 & Hh0 & _). unfold max_u32 in *. unfold header_ok, parsed_header.
  cbn [ihdr_width ihdr_height ihdr_bit_depth ihdr_color_type ihdr_compression ihdr_filter ihdr_interlace].
  split_and!; try done || lia. exists (color_type_byte (encode_channels (img_format image)).1).
  split; [|done]. destruct (color_type_of_format (img_format image)) as (Hct & Hga & _).
  by apply parse_color_type_spec.
Qed.

Lemma parse_encoded image c :
  image_typed image → encodable image → compresses image c →
  parse_png (encoded_file image c) = Some (Ok (MkParsed (parsed_header image) c [] [])).
Proof.
  intros Ht He (Hc & Hsize & _). pose proof (compress2_nonempty _ _ (scanline_bytes_octets _ Ht _) Hc) as [Hne Hco].
  assert (∀ x, Forall octet (chunk_bytes x) ↔ Forall octet x.1 ∧ Forall octet x.2) as Hchunk.
  { intros x. unfold chunk_bytes. rewrite !Forall_app.
    pose proof (field_bytes_octets 4 (size_of x.2)).
    pose proof (field_bytes_octets 4 (chunk_crc x.1 x.2)). tauto. }
  assert (Forall octet (encoded_file image c)) as Ho.
  { unfold encoded_file, file_bytes. rewrite !bind_cons. cbn [mbind list_bind].
    rewrite !Forall_app, !Hchunk. cbn [fst snd iend].
    assert (∀ l, forallb (λ b, b <? 256) l = true → Forall octet l) as Hall.
    { intros l Hl. apply Forall_forall. intros b Hb. rewrite forallb_forall in Hl.
      apply N.ltb_lt, Hl. by apply list_elem_of_In. }
    split_and!; try done; try (by apply Hall). unfold header_of.
    rewrite !Forall_app. split_and!; try apply field_bytes_octets.
    apply Hall. by destruct (img_format image). }
  destruct (parse_png_spec _ Ho) as (r & -> & Hr). f_equal. apply Hr.
  exists (header_of image), (parsed_header image), [(chunkIdat, c)]. split_and!.
  - done.
  - constructor; [done|]. constructor; [by split|done].
  - by apply header_of_ok.
  - intros [|x before] d after; cbn; [intros [= <- <-]|intros [= <- H]; by destruct before].
    unfold may_follow. split_and!; try done; [by apply is_chunk_type_valid_spec|].
    intros _. unfold known_chunks. cbn. set_solver.
  - split; [done|]. intros Hp. by destruct (color_type_of_format (img_format image)) as (_ & _ & ? & _).
  - change (png_of _ _) with (MkParsed (parsed_header image) (c ++ []) [] []). by rewrite app_nil_r.
Qed.

Lemma decode_layout_encoded image c :
  image_typed image → encodable image →
  let png := MkParsed (parsed_header image) c [] [] in
  let bpp := bytes_per_pixel (img_format image) in
  ∃ layout, decode_layout_for png = Ok layout ∧ filter_pixel_bytes layout = bpp ∧
    output_format layout = canonical_format (img_format image).
Proof.
  intros (Hw & Hh & Hs & _) (Hw0 & Hh0 & _ & _ & Hsize) png bpp.
  destruct (color_type_of_format (img_format image)) as (_ & _ & Hpal & Hsrc).
  destruct (channels_of_format (img_format image)) as (_ & _ & _ & Hbpp). fold bpp in Hsize, Hsrc, Hbpp.
  unfold max_u32, maxDecodedBytes in *.
  assert (decode_channels png = Some (canonical_format (img_format image), bpp)) as Hdc
    by (unfold decode_channels, png, bpp, parsed_header; cbn; by destruct (img_format image)).
  unfold decode_layout_for. rewrite Hdc. cbn [png_ihdr ihdr_color_type ihdr_width ihdr_height png parsed_header].
  rewrite Hsrc.
  assert (img_width image * bpp <= 2 ^ 28 ∧ img_height image * (img_width image * bpp) <= 2 ^ 28) as [H1 H2].
  { split; nia. }
  rewrite checked_mul_small by (unfold max_size; lia). cbn [mbind option_bind].
  rewrite checked_add_small by (unfold max_size; lia). cbn [mbind option_bind].
  rewrite checked_mul_small by (unfold max_size; lia). cbn [mbind option_bind].
  rewrite checked_mul_small by (unfold max_size; lia). cbn [mbind option_bind].
  rewrite decide_False by (unfold maxDecodedBytes, max_u32; lia). by eexists.
Qed.

Lemma decode_encoded image c :
  image_typed image → encodable image → compresses image c →
  decode_png (encoded_file image c) = Some (Ok (canonical image)).
Proof.
  intros Ht He Hc. unfold decode_png. rewrite parse_encoded by done. cbn [mbind option_bind result_bind].
  set (png := MkParsed _ _ _ _).
  destruct (decode_layout_encoded image c Ht He) as (layout & Hl & Hfp & Hof). fold png in Hl.
  rewrite Hl. cbn [mbind result_bind].
  pose proof (decode_layout_Ok png layout Hl) as (Hlay & Hfb & Hfb2 & Hos & Hos32 & _).
  rewrite Hfp in *. destruct Hc as (Hc & Hcomp). pose proof (compress2_nonempty _ _ (scanline_bytes_octets _ Ht _) Hc) as [Hne _].
  destruct (encoded_rows_ok image Ht) as (Hlen & Hrows & Hcat).
  change (ihdr_width (png_ihdr png)) with (img_width image) in *.
  change (ihdr_height (png_ihdr png)) with (img_height image) in *.
  assert (filtered_bytes layout = size_of (stream_of image)) as Hfs.
  { rewrite size_of_stream by done. rewrite Hfb. lia. }
  assert (zlib_inflate_exact (png_idat png) (filtered_bytes layout) = Ok (stream_of image)) as ->.
  { unfold zlib_inflate_exact. cbn [png_idat png]. destruct c as [|b c]; [done|].
    rewrite decide_False.
    - rewrite Hfs. assert (uncompress (size_of (stream_of image)) (b :: c) = Some (stream_of image)) as ->
        by (apply uncompress_compress; [apply scanline_bytes_octets, Ht|exact Hc]).
      by rewrite decide_True.
    - destruct Hcomp as [Hcs _]. clear - Hcs Hfb2. unfold max_size, maxDecodedBytes, maxChunkBytes in *. lia. }
  cbn [mbind result_bind]. change (ihdr_height (png_ihdr png)) with (img_height image).
  assert (unfilter_scanlines (stream_of image) layout (img_height image) =
    Some (Ok (img_pixels (canonical image)))) as ->.
  { rewrite <- Hcat. unfold stream_of, scanline_bytes.
    replace (img_height image) with (N.of_nat (length (encoded_rows image))) by (rewrite Hlen; lia).
    eapply unfilter_scanlines_spec; [exact Hlay| |exact Hrows]. by rewrite Hfb, Hlen. }
  cbn [mbind option_bind]. unfold image_from_raw.
  destruct (color_type_of_format (img_format image)) as (_ & _ & Hpal & _).
  rewrite decide_False by done. cbn. do 2 f_equal. unfold canonical. f_equal; [|by rewrite Hof].
  destruct (channels_of_format (img_format image)) as (_ & Hcan & _).
  rewrite Hos, Hof, Hcan. apply N.mod_small. rewrite Hos, Hof, Hcan in Hos32.
  unfold max_u32 in Hos32. change (ihdr_width _) with (img_width image) in *. lia.
Qed.

(** ** The claims *)

(** C19: an image that encodes decodes to the same picture: the same size and pixels,
    in red, green, blue, alpha order and without the padding of its rows. *)
Theorem png_round_trip image bytes :
  image_typed image → encode_png image = Some (Ok bytes) →
  decode_png bytes = Some (Ok (canonical image)).
Proof.
  intros Ht E. destruct (encode_png_spec image Ht) as (r & Hr & Hok). rewrite E in Hr.
  injection Hr as <-. destruct (proj1 (Hok bytes) eq_refl) as (He & c & Hc & ->).
  by apply decode_encoded.
Qed.

(** Encoding never reads outside the image, and succeeds exactly for an image with
    pixels, rows no shorter than its width, as many bytes as its rows need and no more
    than the size limit, whose compressed rows fit one chunk. *)
Theorem png_encodes_exactly image :
  image_typed image →
  ∃ r, encode_png image = Some r ∧
    (is_ok r = true ↔ encodable image ∧ ∃ compressed, compresses image compressed).
Proof.
  intros Ht. destruct (encode_png_spec image Ht) as (r & Hr & Hok). exists r. split; [done|].
  destruct r as [bytes|e]; cbn.
  - split; [|done]. intros _. destruct (proj1 (Hok bytes) eq_refl) as (He & c & Hc & _). eauto.
  - split; [done|]. intros (He & c & Hc). by discriminate (proj2 (Hok _) (conj He (ex_intro _ c (conj Hc eq_refl)))).
Qed.

(** C20: the parser reads exactly the files of the format: the signature, IHDR first
    with a size that is not zero, a depth of eight bits, one of four colour types and no
    other method than the first, chunks with correct lengths and checksums of which the
    critical ones are known, the palette and its transparency before the data and within
    their sizes, and IEND at the very end; it returns the header and the joined data, and
    it always answers. *)
Theorem png_parses_exactly bytes :
  Forall octet bytes →
  ∃ r, parse_png bytes = Some r ∧ ∀ png, r = Ok png ↔ png_file bytes png.
Proof. apply parse_png_spec. Qed.

(** C21: whatever bytes it is given, decoding ends and never reads outside a span or a
    buffer: not the parser in the file it is given nor in a chunk, not the decoder in the
    inflated rows, in the pixels it has restored or in the palette.  An image it returns has pixels, rows without padding and exactly the bytes its
    rows need, at most the size limit. *)
Theorem png_decodes_safely bytes :
  Forall octet bytes →
  ∃ r, decode_png bytes = Some r ∧
    ∀ image, r = Ok image →
      0 < img_width image <= max_u32 ∧ 0 < img_height image <= max_u32 ∧
      img_stride image = img_width image * bytes_per_pixel (img_format image) ∧
      size_of (img_pixels image) = img_height image * img_stride image ∧
      size_of (img_pixels image) <= maxDecodedBytes.
Proof.
  intros Ho. destruct (parse_png_spec bytes Ho) as (r & Hparse & Hr). unfold decode_png.
  rewrite Hparse. cbn [mbind option_bind]. destruct r as [png|e]; [|by eexists].
  destruct (proj1 (Hr png) eq_refl) as (header & h & body & -> & _ & Hh & _ & _ & ->).
  cbn [mbind result_bind]. destruct (decode_layout_for (png_of h body)) as [layout|] eqn:Hl; [|by eexists].
  cbn [mbind result_bind].
  destruct (zlib_inflate_exact _ _) as [inflated|]; cbn [mbind result_bind]; [|by eexists].
  pose proof (decode_layout_Ok _ _ Hl) as (Hlay & Hfb & _). rewrite ihdr_of in Hlay, Hfb.
  destruct (unfilter_scanlines_total layout _ _ (N.to_nat (ihdr_height h)) Hlay inflated Hfb)
    as (r & Hraw & Hlen). rewrite N2Nat.id in Hraw. change (ihdr_height (png_ihdr _)) with (ihdr_height h).
  rewrite Hraw. cbn [mbind option_bind]. destruct r as [raw|e]; [|by eexists].
  destruct (image_from_raw_total _ _ raw Hl) as (r & -> & Himage).
  { rewrite (Hlen raw eq_refl), ihdr_of. lia. }
  eexists. split; [done|]. intros image Hok. destruct (Himage image Hok) as (-> & -> & H).
  rewrite ihdr_of in H |- *. destruct Hh as (Hw & Hh & _). unfold max_u32.
  split; [lia|]. split; [lia|exact H].
Qed.

End round_trip.

(** Undoing the filters gives back the rows: for rows of one length filtered each
    with any of the five filters, below the row before it, the decoder's loop returns
    the rows themselves. *)
Theorem filters_are_undone layout w bpp rows :
  layout_of layout w bpp → filtered_bytes layout = N.of_nat (length rows * S w) →
  Forall (λ r, length r.2 = w ∧ Forall octet r.2) rows →
  unfilter_scanlines (filter_rows bpp [] rows) layout (N.of_nat (length rows)) =
    Some (Ok (concat rows.*2)).
Proof. intros Hl Hf Hr. by eapply unfilter_scanlines_spec. Qed.

(** ** Witnesses *)

(** A library that stores: a marker byte and the data. *)
#[local] Instance stored : Zlib := {|
  crc32 crc data := foldl (λ c b, (c * 31 + b) mod 2 ^ 32) crc data mod 2 ^ 32;
  compressBound n := n + 1;
  compress2 data := Some (1 :: data);
  uncompress n c :=
    match c with
    | _ :: data => if forallb (λ b, b <? 256) data then Some data else None
    | [] => None
    end
|}.

#[local] Instance stored_laws : ZlibLaws stored.
Proof.
  split.
  - intros crc data. by apply N.mod_lt.
  - intros data c Ho [= <-]. split; [done|]. by constructor.
  - intros data c Ho [= <-]. cbn. destruct (forallb (λ b, b <? 256) data) eqn:E; [done|].
    exfalso. apply not_true_iff_false in E. apply E. apply forallb_forall. intros b Hb.
    apply N.ltb_lt. rewrite Forall_forall in Ho. by apply Ho, list_elem_of_In.
  - intros n [|b c] data; cbn; [done|]. destruct (forallb _ c) eqn:E; [|done]. intros [= <-].
    apply Forall_forall. intros x Hx. rewrite forallb_forall in E.
    by apply N.ltb_lt, E, list_elem_of_In.
Qed.

(** Two pixels of blue, green, red, alpha, with four bytes of padding to the row. *)
Definition demo_image : Image :=
  MkImage 2 1 12 PixelFormat.Bgra [1; 2; 3; 4; 5; 6; 7; 8; 0; 0; 0; 0].

Definition demo_file : list Byte := match encode_png demo_image with Some (Ok b) => b | _ => [] end.

Lemma octets_by_check l : forallb (λ b, b <? 256) l = true → Forall octet l.
Proof.
  intros H. apply Forall_forall. intros x Hx. rewrite forallb_forall in H.
  by apply N.ltb_lt, H, list_elem_of_In.
Qed.

Lemma demo_typed : image_typed demo_image.
Proof. split_and!; [done..|]. by apply octets_by_check. Qed.

Lemma png_round_trip_witness :
  decode_png demo_file =
    Some (Ok (MkImage 2 1 8 PixelFormat.Rgba [3; 2; 1; 4; 7; 6; 5; 8])).
Proof. apply (png_round_trip demo_image); [apply demo_typed|vm_compute; reflexivity]. Defined.

Lemma png_encodes_exactly_witness :
  ∃ r, encode_png demo_image = Some r ∧
    (is_ok r = true ↔ encodable demo_image ∧ ∃ c, compresses demo_image c).
Proof. apply png_encodes_exactly, demo_typed. Defined.

Lemma png_parses_exactly_witness :
  ∃ png, png_file demo_file png ∧ png_idat png = [1; 0; 3; 2; 1; 4; 7; 6; 5; 8].
Proof.
  destruct (png_parses_exactly demo_file) as (r & E & H);
    [apply octets_by_check; vm_compute; reflexivity|].
  destruct r as [png|e]; [|exfalso; revert E; vm_compute; discriminate].
  exists png. split; [apply H; reflexivity|]. revert E. vm_compute. intros [= <-]. reflexivity.
Defined.

Lemma png_decodes_safely_witness : ∃ r, decode_png (137 :: demo_file) = Some r ∧ is_ok r = false.
Proof.
  destruct (png_decodes_safely (137 :: demo_file)) as (r & E & _);
    [apply octets_by_check; vm_compute; reflexivity|].
  exists r. split; [exact E|]. revert E. vm_compute. intros [= <-]. reflexivity.
Defined.

(** Two rows of one pixel, the second below [Paeth]. *)
Definition demo_layout : DecodeLayout := MkDecode 3 4 8 3 3 6 PixelFormat.Rgb.

Lemma filters_are_undone_witness :
  unfilter_scanlines [1; 10; 20; 30; 4; 1; 254; 5] demo_layout 2 =
    Some (Ok [10; 20; 30; 11; 18; 35]).
Proof.
  apply (filters_are_undone demo_layout 3 3
    [(FilterType.Sub, [10; 20; 30]); (FilterType.Paeth, [11; 18; 35])]).
  - split_and!; done.
  - reflexivity.
  - repeat constructor.
Defined.
