(* ===== verification/Event.v ===== *)
(** Events and the table that describes their kinds ([include/grab/event.hpp],
    [event_descriptor.hpp], [origin.hpp]). *)

From S2P Require Import Prelude EnumTable Geometry.

Module EventCategory.

Inductive EventCategory : Type :=
  | Unspecified | Input | Window | Accessibility | Integration | State | Count.

End EventCategory.
Abbreviation EventCategory := EventCategory.EventCategory.

#[export] Instance EventCategory_eq_dec : EqDecision EventCategory.
Proof. solve_decision. Defined.

Module EventKind.

Inductive EventKind : Type :=
  | Unspecified
  | KeyDown | KeyUp | KeyCombo | MouseClick | MouseMove | IdleStart | IdleEnd
  | MouseButtonDown | MouseButtonUp
  | WindowFocusChanged | WindowTitleChanged | WindowCreated | WindowClosed
  | A11yButtonClicked | A11yMenuOpened | A11yMenuClosed | A11yFocusChanged
  | A11yTextChanged | A11yStateChanged
  | AppTabChanged | AppContextUpdate
  | StateSnapshot
  | NodeAdded | NodeRemoved | NodeChanged | RelationAdded | RelationRemoved
  | ActiveChildChanged.

End EventKind.
Abbreviation EventKind := EventKind.EventKind.

#[export] Instance EventKind_eq_dec : EqDecision EventKind.
Proof. solve_decision. Defined.

(** The enumeration's underlying values. *)
Definition event_kind_value (kind : EventKind) : N :=
  match kind with
  | EventKind.Unspecified => 0
  | EventKind.KeyDown => 100
  | EventKind.KeyUp => 101
  | EventKind.KeyCombo => 102
  | EventKind.MouseClick => 103
  | EventKind.MouseMove => 104
  | EventKind.IdleStart => 105
  | EventKind.IdleEnd => 106
  | EventKind.MouseButtonDown => 107
  | EventKind.MouseButtonUp => 108
  | EventKind.WindowFocusChanged => 200
  | EventKind.WindowTitleChanged => 201
  | EventKind.WindowCreated => 202
  | EventKind.WindowClosed => 203
  | EventKind.A11yButtonClicked => 300
  | EventKind.A11yMenuOpened => 301
  | EventKind.A11yMenuClosed => 302
  | EventKind.A11yFocusChanged => 303
  | EventKind.A11yTextChanged => 304
  | EventKind.A11yStateChanged => 305
  | EventKind.AppTabChanged => 400
  | EventKind.AppContextUpdate => 401
  | EventKind.StateSnapshot => 600
  | EventKind.NodeAdded => 700
  | EventKind.NodeRemoved => 701
  | EventKind.NodeChanged => 702
  | EventKind.RelationAdded => 703
  | EventKind.RelationRemoved => 704
  | EventKind.ActiveChildChanged => 705
  end.

Module EventOrigin.

Inductive EventOrigin : Type :=
  | Physical | InjectedSelf | InjectedOther | Unknown.

End EventOrigin.
Abbreviation EventOrigin := EventOrigin.EventOrigin.

Definition event_origin_name : list (EventOrigin * string) := [
  (EventOrigin.Physical, "physical"); (EventOrigin.InjectedSelf, "injected_self");
  (EventOrigin.InjectedOther, "injected_other"); (EventOrigin.Unknown, "unknown")].

(** The variant [Payload]; a process id is its number. *)
Inductive Payload :=
  | InputKey (code : N) (name : string)
  | KeyComboText (text : string)
  | MouseClickOf (button : N) (name : string)
  | MouseButton (button : N) (name : string) (position : option SpacePoint)
  | MouseMoveBy (axis : string) (delta : double) (position : option SpacePoint)
  | Idle (idle_s : double)
  | WindowChange (app : string) (pid : Z) (title prev_title : string) (duration_s : double)
  | A11yEvent (app role name detail : string)
  | IntegrationEvent (app title detail json : string)
  | StateSnapshotJson (json : string)
  | GraphChange (node related : N) (relation : N) (previous_active : N).

Record EventSubject := MkSubject {
  es_runtime : N; es_tree : N; es_epoch : N; es_node : N; es_revision : N
}.

Record Event := MkEvent {
  timestamp : double;
  sequence : N;
  kind : EventKind;
  category : EventCategory;
  payload : Payload;
  origin : EventOrigin;
  subject : option EventSubject;
  cause : option N;
  before_revision : option N;
  after_revision : option N
}.

(** [Event{}]. *)
Definition default_event : Event :=
  MkEvent (SpecFloat.S754_zero false) 0 EventKind.Unspecified EventCategory.Unspecified
    (InputKey 0 "") EventOrigin.Unknown None None None None.

Definition with_sequence (event : Event) (n : N) : Event :=
  MkEvent (timestamp event) n (kind event) (category event) (payload event) (origin event)
    (subject event) (cause event) (before_revision event) (after_revision event).

Record EventFilter := MkFilter {
  filter_kinds : list EventKind; filter_categories : list EventCategory
}.

(** [EventFilter::matches]. *)
Definition filter_matches (filter : EventFilter) (event : Event) : bool :=
  (bool_decide (filter_kinds filter = []) || bool_decide (kind event ∈ filter_kinds filter)) &&
  (bool_decide (filter_categories filter = []) ||
   bool_decide (category event ∈ filter_categories filter)).

(** ** Descriptors *)

Module ReplayPolicy.

Inductive ReplayPolicy : Type :=
  | None | CurrentSet | Count.

End ReplayPolicy.
Abbreviation ReplayPolicy := ReplayPolicy.ReplayPolicy.

#[export] Instance ReplayPolicy_eq_dec : EqDecision ReplayPolicy.
Proof. solve_decision. Defined.

Module CoalescingClass.

Inductive CoalescingClass : Type :=
  | Coalesce | NeverDrop | Count.

End CoalescingClass.
Abbreviation CoalescingClass := CoalescingClass.CoalescingClass.

#[export] Instance CoalescingClass_eq_dec : EqDecision CoalescingClass.
Proof. solve_decision. Defined.

Record EventDescriptor := MkEventDescriptor {
  ev_kind : EventKind; ev_category : EventCategory; ev_wire_name : string;
  ev_replay_policy : ReplayPolicy; ev_coalescing_class : CoalescingClass
}.

(** [event_descriptor] with its default arguments. *)
Definition described (k : EventKind) (c : EventCategory) (name : string) : EventDescriptor :=
  MkEventDescriptor k c name ReplayPolicy.None CoalescingClass.Coalesce.

Definition kept (k : EventKind) (c : EventCategory) (name : string) : EventDescriptor :=
  MkEventDescriptor k c name ReplayPolicy.None CoalescingClass.NeverDrop.

Definition eventDescriptors : list EventDescriptor := [
  described EventKind.Unspecified EventCategory.Unspecified "unspecified";
  kept EventKind.KeyDown EventCategory.Input "input.key_down";
  kept EventKind.KeyUp EventCategory.Input "input.key_up";
  kept EventKind.KeyCombo EventCategory.Input "input.key_combo";
  kept EventKind.MouseClick EventCategory.Input "input.mouse_click";
  described EventKind.MouseMove EventCategory.Input "input.mouse_move";
  kept EventKind.IdleStart EventCategory.Input "input.idle_start";
  kept EventKind.IdleEnd EventCategory.Input "input.idle_end";
  kept EventKind.MouseButtonDown EventCategory.Input "input.mouse_button_down";
  kept EventKind.MouseButtonUp EventCategory.Input "input.mouse_button_up";
  described EventKind.WindowFocusChanged EventCategory.Window "window.focus_changed";
  described EventKind.WindowTitleChanged EventCategory.Window "window.title_changed";
  MkEventDescriptor EventKind.WindowCreated EventCategory.Window "window.created"
    ReplayPolicy.CurrentSet CoalescingClass.NeverDrop;
  kept EventKind.WindowClosed EventCategory.Window "window.closed";
  kept EventKind.A11yButtonClicked EventCategory.Accessibility "a11y.button_clicked";
  kept EventKind.A11yMenuOpened EventCategory.Accessibility "a11y.menu_opened";
  kept EventKind.A11yMenuClosed EventCategory.Accessibility "a11y.menu_closed";
  described EventKind.A11yFocusChanged EventCategory.Accessibility "a11y.focus_changed";
  described EventKind.A11yTextChanged EventCategory.Accessibility "a11y.text_changed";
  described EventKind.A11yStateChanged EventCategory.Accessibility "a11y.state_changed";
  described EventKind.AppTabChanged EventCategory.Integration "app.tab_changed";
  described EventKind.AppContextUpdate EventCategory.Integration "app.context_update";
  MkEventDescriptor EventKind.StateSnapshot EventCategory.State "state.snapshot"
    ReplayPolicy.CurrentSet CoalescingClass.Coalesce;
  kept EventKind.NodeAdded EventCategory.Window "node.added";
  kept EventKind.NodeRemoved EventCategory.Window "node.removed";
  described EventKind.NodeChanged EventCategory.Window "node.changed";
  kept EventKind.RelationAdded EventCategory.Window "relation.added";
  kept EventKind.RelationRemoved EventCategory.Window "relation.removed";
  kept EventKind.ActiveChildChanged EventCategory.Window "active_child.changed"].

Definition find_descriptor (k : EventKind) : option EventDescriptor :=
  snd <$> list_find (λ d, ev_kind d = k) eventDescriptors.

Definition event_category_of (k : EventKind) : EventCategory :=
  match find_descriptor k with Some d => ev_category d | None => EventCategory.Unspecified end.

Definition replay_policy_of (k : EventKind) : ReplayPolicy :=
  match find_descriptor k with Some d => ev_replay_policy d | None => ReplayPolicy.None end.

Definition coalescing_class_of (k : EventKind) : CoalescingClass :=
  match find_descriptor k with
  | Some d => ev_coalescing_class d
  | None => CoalescingClass.Coalesce
  end.

Definition wire_name (k : EventKind) : string :=
  match find_descriptor k with Some d => ev_wire_name d | None => "unspecified" end.

Definition wire_kind (name : string) : option EventKind :=
  (λ p, ev_kind p.2) <$> list_find (λ d, ev_wire_name d = name) eventDescriptors.

Definition replayPolicyNames : list (ReplayPolicy * string) :=
  [(ReplayPolicy.None, "none"); (ReplayPolicy.CurrentSet, "current_set")].

Definition coalescingClassNames : list (CoalescingClass * string) :=
  [(CoalescingClass.Coalesce, "coalesce"); (CoalescingClass.NeverDrop, "never_drop")].

Definition categoryNames : list (EventCategory * string) := [
  (EventCategory.Unspecified, "unspecified"); (EventCategory.Input, "input");
  (EventCategory.Window, "window"); (EventCategory.Accessibility, "accessibility");
  (EventCategory.Integration, "integration"); (EventCategory.State, "state")].

Definition category_name (c : EventCategory) : string := text_of categoryNames c "unspecified".

(** A descriptor as [event_type_descriptors] lists it. *)
Record EventTypeDescriptor := MkTypeDescriptor {
  type_kind : EventKind; type_category : EventCategory; type_name : string; type_active : bool
}.

(** [probe] is [ActiveKindProbe::is_active], when there is a probe. *)
Definition event_type_descriptors (probe : option (EventKind → bool)) : list EventTypeDescriptor :=
  (λ d, MkTypeDescriptor (ev_kind d) (ev_category d) (ev_wire_name d)
     match probe with Some is_active => is_active (ev_kind d) | None => false end)
  <$> filter (λ d, ev_kind d ≠ EventKind.Unspecified) eventDescriptors.

(** ** Facts about the table *)

Definition event_kinds : list EventKind := ev_kind <$> eventDescriptors.

Lemma event_kinds_all k : k ∈ event_kinds.
Proof. apply (bool_decide_unpack _). by destruct k. Qed.

#[export] Program Instance EventKind_countable : Countable EventKind :=
  inj_countable event_kind_value
    (λ v, snd <$> list_find (λ k, event_kind_value k = v) event_kinds) _.
Next Obligation. by intros []. Qed.

Lemma find_descriptor_kind k : ∃ d, find_descriptor k = Some d ∧ ev_kind d = k.
Proof. destruct k; eexists; split; reflexivity. Qed.

Lemma mouse_move_coalesces : coalescing_class_of EventKind.MouseMove = CoalescingClass.Coalesce.
Proof. done. Qed.

(** Every kind has a wire name of its own, which names it back. *)
Lemma wire_kind_of_name k : wire_kind (wire_name k) = Some k.
Proof. by destruct k. Qed.

Lemma wire_name_of_kind name k : wire_kind name = Some k → wire_name k = name.
Proof.
  unfold wire_kind. intros ([i d] & Hf & ->)%fmap_Some. apply list_find_Some in Hf as (Hi & <- & _).
  apply list_elem_of_lookup_2 in Hi. revert d Hi. apply Forall_forall.
  repeat constructor.
Qed.
