(* ===== verification/EventBus.v ===== *)
(** The event bus ([kernel/events/event_bus.hpp] and [.cpp], [include/grab/watch.hpp]).

    A subscription's queue is a ring of fixed size; the bus numbers events and offers
    them to the subscriptions.  Callbacks are the caller's functions and are named by a
    number; what a snapshot provider returns is an argument.  A subscription is shared
    between the bus and its holder: the bus keeps addresses, the states are in a store.
    Indexes of the ring are in range in every state ([ring_ok] in
    [EventQueue]), so that [at] is a lookup with a default. *)

From S2P Require Import Prelude Bytes Errors Identity Event.

Local Open Scope nat_scope.

Abbreviation Callback := N.

Module QueueOverflowPolicy.

Inductive QueueOverflowPolicy : Type :=
  | Coalesce | NeverDrop.

End QueueOverflowPolicy.
Abbreviation QueueOverflowPolicy := QueueOverflowPolicy.QueueOverflowPolicy.

#[export] Instance QueueOverflowPolicy_eq_dec : EqDecision QueueOverflowPolicy.
Proof. solve_decision. Defined.

Record QueueOptions := MkQueueOptions { q_capacity : nat; q_overflow : QueueOverflowPolicy }.

Definition default_options : QueueOptions := MkQueueOptions 1024 QueueOverflowPolicy.Coalesce.

Record SubscriptionScope := MkScope { scope_kinds : list EventKind; scope_filter : EventFilter }.

(** The variant of [Event] and [QueueGapMarker]. *)
Inductive SubscriptionEvent :=
  | EventItem (event : Event)
  | GapItem (code : ErrorCode) (last_delivered_sequence : N).

(** ** One subscription *)

Record SubscriptionState := MkSubscription {
  sub_id : Uuid;
  sub_scope : SubscriptionScope;
  buffer : list SubscriptionEvent;
  overflow_policy : QueueOverflowPolicy;
  head : nat;
  size : nat;
  notify : option Callback;
  overflow_count : N;
  lagging : bool;
  needs_resync : bool;
  last_delivered : N
}.

Definition new_subscription (id : Uuid) (scope : SubscriptionScope) (options : QueueOptions)
    : SubscriptionState :=
  MkSubscription id scope (replicate (q_capacity options) (EventItem default_event))
    (q_overflow options) 0 0 None 0 false false 0.

Definition sub_matches (s : SubscriptionState) (event : Event) : bool :=
  let kinds := scope_kinds (sub_scope s) in
  (bool_decide (kinds = []) || bool_decide (kind event ∈ kinds)) &&
  filter_matches (scope_filter (sub_scope s)) event.

Definition coalescible_motion (event : Event) : bool :=
  bool_decide (kind event = EventKind.MouseMove).

Definition tail_index (s : SubscriptionState) : nat := (head s + size s) mod length (buffer s).

Definition back_index (s : SubscriptionState) : nat := (head s + size s - 1) mod length (buffer s).

Definition next_index (s : SubscriptionState) (index : nat) : nat :=
  (index + 1) mod length (buffer s).

Definition item_at (s : SubscriptionState) (index : nat) : SubscriptionEvent :=
  default (EventItem default_event) (buffer s !! index).

Definition mark_overflow (s : SubscriptionState) : SubscriptionState :=
  MkSubscription (sub_id s) (sub_scope s) (buffer s) (overflow_policy s) (head s) (size s)
    (notify s) ((overflow_count s + 1) mod 2 ^ 64)%N true (needs_resync s) (last_delivered s).

(** [buffer_.at( index ) = item], with the given size. *)
Definition store_item (s : SubscriptionState) (index : nat) (item : SubscriptionEvent) (n : nat)
    : SubscriptionState :=
  MkSubscription (sub_id s) (sub_scope s) (<[index := item]> (buffer s)) (overflow_policy s)
    (head s) n (notify s) (overflow_count s) (lagging s) (needs_resync s) (last_delivered s).

Definition request_resync (s : SubscriptionState) : SubscriptionState :=
  MkSubscription (sub_id s) (sub_scope s) (buffer s) (overflow_policy s) (head s) (size s)
    (notify s) (overflow_count s) (lagging s) true (last_delivered s).

Definition mark_gap (s : SubscriptionState) : SubscriptionState :=
  let s := request_resync (mark_overflow s) in
  match buffer s with
  | [] => s
  | _ =>
    match item_at s (back_index s) with
    | GapItem _ _ => s
    | EventItem _ =>
      store_item s (back_index s) (GapItem ErrorCode.QueueGap (last_delivered s)) (size s)
    end
  end.

Definition is_motion_item (item : SubscriptionEvent) : bool :=
  match item with
  | EventItem event => bool_decide (kind event = EventKind.MouseMove)
  | GapItem _ _ => false
  end.

(** The callback to call afterwards, and the state. *)
Definition enqueue (s : SubscriptionState) (event : Event) : option Callback * SubscriptionState :=
  if decide (buffer s = []) then (None, mark_overflow s)
  else if decide (size s < length (buffer s)) then
    (notify s, store_item s (tail_index s) (EventItem event) (size s + 1))
  else if bool_decide (overflow_policy s = QueueOverflowPolicy.Coalesce) &&
          bool_decide (coalescing_class_of (kind event) = CoalescingClass.Coalesce) &&
          coalescible_motion event && is_motion_item (item_at s (back_index s)) then
    (notify s, store_item s (back_index s) (EventItem event) (size s))
  else if bool_decide (overflow_policy s = QueueOverflowPolicy.NeverDrop) ||
          bool_decide (coalescing_class_of (kind event) = CoalescingClass.NeverDrop) then
    (notify s, mark_gap s)
  else (None, mark_overflow s).

Definition try_pop_item (s : SubscriptionState) : option SubscriptionEvent * SubscriptionState :=
  if decide (size s = 0) then (None, s)
  else
    let item := item_at s (head s) in
    (Some item,
     MkSubscription (sub_id s) (sub_scope s) (<[head s := EventItem default_event]> (buffer s))
       (overflow_policy s) (next_index s (head s)) (size s - 1) (notify s) (overflow_count s)
       (lagging s) (needs_resync s)
       (match item with EventItem event => sequence event | GapItem _ _ => last_delivered s end)).

(** A gap marker popped this way is dropped, and [None] is returned. *)
Definition try_pop (s : SubscriptionState) : option Event * SubscriptionState :=
  let '(item, s) := try_pop_item s in
  (match item with Some (EventItem event) => Some event | _ => None end, s).

Definition set_notify (s : SubscriptionState) (on_data : option Callback) : SubscriptionState :=
  MkSubscription (sub_id s) (sub_scope s) (buffer s) (overflow_policy s) (head s) (size s)
    on_data (overflow_count s) (lagging s) (needs_resync s) (last_delivered s).

(** ** The bus *)

Abbreviation Address := N.

(** [next_sequence] counts on; the 64-bit register holds it modulo 2^64. *)
Record EventBusState := MkBus {
  subscriptions : list Address;
  snapshot_providers : gmap EventKind Callback;
  subscription_refcounts : gmap EventKind N;
  demand_callback : option Callback;
  next_sequence : N
}.

Definition empty_bus : EventBusState := MkBus [] ∅ ∅ None 1.

Abbreviation Store := (gmap Address SubscriptionState).

Definition set_sequence (b : EventBusState) (n : N) : EventBusState :=
  MkBus (subscriptions b) (snapshot_providers b) (subscription_refcounts b) (demand_callback b) n.

(** The number the next event gets, and the bus after it. *)
Definition take_sequence (b : EventBusState) : N * EventBusState :=
  ((next_sequence b mod 2 ^ 64)%N, set_sequence b (next_sequence b + 1)%N).

(** The events of one provider that a new subscription is offered, numbered. *)
Fixpoint replay_events (b : EventBusState) (s : SubscriptionState) (k : EventKind)
    (events : list Event) : EventBusState * list Event :=
  match events with
  | [] => (b, [])
  | event :: events =>
    if negb (bool_decide (kind event = k)) || negb (sub_matches s event) then
      replay_events b s k events
    else
      let '(n, b) := take_sequence b in
      let '(b, rest) := replay_events b s k events in (b, with_sequence event n :: rest)
  end.

(** [provided] is what each provider returns when it is called. *)
Fixpoint replay_kinds (b : EventBusState) (s : SubscriptionState)
    (provided : Callback → list Event) (kinds : list EventKind) : EventBusState * list Event :=
  match kinds with
  | [] => (b, [])
  | k :: kinds =>
    if decide (replay_policy_of k ≠ ReplayPolicy.CurrentSet) then replay_kinds b s provided kinds
    else
      match snapshot_providers b !! k with
      | None => replay_kinds b s provided kinds
      | Some provider =>
        let '(b, events) := replay_events b s k (provided provider) in
        let '(b, rest) := replay_kinds b s provided kinds in (b, events ++ rest)
      end
  end.

Definition enqueue_all (s : SubscriptionState) (events : list Event) : SubscriptionState :=
  foldl (λ s event, (enqueue s event).2) s events.

Abbreviation Transition := (EventKind * bool)%type.

(** Counting a new subscription's kinds, and the kinds it is the first for.  A count is
    at most the length of a vector, so that it does not wrap. *)
Fixpoint count_kinds (counts : gmap EventKind N) (kinds : list EventKind)
    : gmap EventKind N * list Transition :=
  match kinds with
  | [] => (counts, [])
  | k :: kinds =>
    let count := default 0%N (counts !! k) in
    let '(counts, transitions) := count_kinds (<[k := (count + 1)%N]> counts) kinds in
    (counts, (if decide (count = 0%N) then [(k, true)] else []) ++ transitions)
  end.

Fixpoint discount_kinds (counts : gmap EventKind N) (kinds : list EventKind)
    : gmap EventKind N * list Transition :=
  match kinds with
  | [] => (counts, [])
  | k :: kinds =>
    match counts !! k with
    | None => discount_kinds counts kinds
    | Some count =>
      let count := if decide (count = 0%N) then (2 ^ 64 - 1)%N else (count - 1)%N in
      if decide (count = 0%N) then
        let '(counts, transitions) := discount_kinds (delete k counts) kinds in
        (counts, (k, false) :: transitions)
      else discount_kinds (<[k := count]> counts) kinds
    end
  end.

(** The locked part of [add].  Nobody else sees the subscription yet, so that queueing
    what is replayed after all providers were called changes nothing.  The bus, the new subscription, the transitions and the
    callback to tell about them after unlocking. *)
Definition add (b : EventBusState) (address : Address) (s : SubscriptionState)
    (provided : Callback → list Event)
    : EventBusState * SubscriptionState * list Transition * option Callback :=
  let kinds := scope_kinds (sub_scope s) in
  let '(b, events) := replay_kinds b s provided kinds in
  let s := enqueue_all s events in
  let '(counts, transitions) := count_kinds (subscription_refcounts b) kinds in
  (MkBus (subscriptions b ++ [address]) (snapshot_providers b) counts (demand_callback b)
     (next_sequence b), s, transitions, demand_callback b).

Fixpoint erase_address (address : Address) (l : list Address) : list Address :=
  match l with
  | [] => []
  | a :: l => if decide (a = address) then l else a :: erase_address address l
  end.

(** The locked part of [remove]. *)
Definition remove (b : EventBusState) (address : Address) (s : SubscriptionState)
    : EventBusState * list Transition * option Callback :=
  if decide (address ∈ subscriptions b) then
    let '(counts, transitions) :=
      discount_kinds (subscription_refcounts b) (scope_kinds (sub_scope s)) in
    (MkBus (erase_address address (subscriptions b)) (snapshot_providers b) counts
       (demand_callback b) (next_sequence b), transitions, demand_callback b)
  else (b, [], None).

Definition register_snapshot_provider (b : EventBusState) (k : EventKind) (provider : Callback)
    : EventBusState :=
  MkBus (subscriptions b) (<[k := provider]> (snapshot_providers b)) (subscription_refcounts b)
    (demand_callback b) (next_sequence b).

Definition unregister_snapshot_provider (b : EventBusState) (k : EventKind) : EventBusState :=
  MkBus (subscriptions b) (delete k (snapshot_providers b)) (subscription_refcounts b)
    (demand_callback b) (next_sequence b).

Definition set_demand_callback (b : EventBusState) (callback : option Callback) : EventBusState :=
  MkBus (subscriptions b) (snapshot_providers b) (subscription_refcounts b) callback
    (next_sequence b).

Definition subscription_refcount (b : EventBusState) (k : EventKind) : N :=
  default 0%N (subscription_refcounts b !! k).

(** The loop of [publish] over the subscriptions: the store, and the callbacks to call
    after unlocking. *)
Fixpoint offer_event (store : Store) (event : Event) (addresses : list Address)
    : Store * list Callback :=
  match addresses with
  | [] => (store, [])
  | a :: addresses =>
    match store !! a with
    | None => offer_event store event addresses
    | Some s =>
      if sub_matches s event then
        let '(callback, s) := enqueue s event in
        let '(store, callbacks) := offer_event (<[a := s]> store) event addresses in
        (store, match callback with Some c => c :: callbacks | None => callbacks end)
      else offer_event store event addresses
    end
  end.

Definition publish (b : EventBusState) (store : Store) (event : Event)
    : EventBusState * Store * list Callback :=
  let '(n, b) := take_sequence b in
  let '(store, callbacks) := offer_event store (with_sequence event n) (subscriptions b) in
  (b, store, callbacks).

(** What [subscribe] makes of the kinds of a scope. *)
Fixpoint unique_kinds (seen kinds : list EventKind) : list EventKind :=
  match kinds with
  | [] => seen
  | k :: kinds => if decide (k ∈ seen) then unique_kinds seen kinds else unique_kinds (seen ++ [k]) kinds
  end.

Definition normalized_scope (scope : SubscriptionScope) : SubscriptionScope :=
  match scope_kinds scope with
  | [] => MkScope (ev_kind <$> eventDescriptors) (scope_filter scope)
  | kinds => MkScope (unique_kinds [] kinds) (scope_filter scope)
  end.

(** [make_subscription_id] for the value drawn from its counter. *)
Definition make_subscription_id (value : N) : Uuid :=
  let bytes := replicate 8 0%N ++ field_bytes 8 value in
  MkUuid (<[8 := 0x80%N]> (<[6 := 0x70%N]> bytes)).

(** ** Threads

    A call holds the bus's mutex for its locked part; the demand callback is called
    after unlocking, one transition at a time, while other threads go on.  [telling]
    are the threads that still have transitions to tell, [told] the calls made so far.
    A ledger records what a subscription was offered and what its holder popped. *)

Record Ledger := MkLedger { offered : list Event; popped : list SubscriptionEvent }.

Record BusSystem := MkBusSystem {
  bus : EventBusState;
  store : Store;
  ledgers : gmap Address Ledger;
  telling : list (Callback * list Transition);
  told : list (Callback * Transition)
}.

Definition empty_system : BusSystem := MkBusSystem empty_bus ∅ ∅ [] [].

Definition start_telling (callback : option Callback) (transitions : list Transition)
    (l : list (Callback * list Transition)) : list (Callback * list Transition) :=
  match callback with Some c => l ++ [(c, transitions)] | None => l end.

(** Who is offered an event. *)
Fixpoint note_offers (store : Store) (event : Event) (addresses : list Address)
    (l : gmap Address Ledger) : gmap Address Ledger :=
  match addresses with
  | [] => l
  | a :: addresses =>
    let l :=
      match store !! a, l !! a with
      | Some s, Some ledger =>
        if sub_matches s event then <[a := MkLedger (offered ledger ++ [event]) (popped ledger)]> l
        else l
      | _, _ => l
      end in
    note_offers store event addresses l
  end.

Definition note_pop (address : Address) (item : option SubscriptionEvent)
    (l : gmap Address Ledger) : gmap Address Ledger :=
  match item, l !! address with
  | Some item, Some ledger => <[address := MkLedger (offered ledger) (popped ledger ++ [item])]> l
  | _, _ => l
  end.

Inductive bus_step : BusSystem → BusSystem → Prop :=
  | step_publish_event b st ls ts log event b' st' callbacks :
    publish b st event = (b', st', callbacks) →
    bus_step (MkBusSystem b st ls ts log)
      (MkBusSystem b' st'
         (note_offers st (with_sequence event (take_sequence b).1) (subscriptions b) ls) ts log)
  | step_subscribe b st ls ts log address scope options value provided s b' s' transitions callback :
    st !! address = None →
    s = new_subscription (make_subscription_id value) (normalized_scope scope) options →
    add b address s provided = (b', s', transitions, callback) →
    bus_step (MkBusSystem b st ls ts log)
      (MkBusSystem b' (<[address := s']> st)
         (<[address := MkLedger (replay_kinds b s provided (scope_kinds (sub_scope s))).2 []]> ls)
         (start_telling callback transitions ts) log)
  | step_unsubscribe b st ls ts log address s b' transitions callback :
    st !! address = Some s →
    remove b address s = (b', transitions, callback) →
    bus_step (MkBusSystem b st ls ts log)
      (MkBusSystem b' st ls (start_telling callback transitions ts) log)
  | step_pop b st ls ts log address s item s' :
    st !! address = Some s → try_pop_item s = (item, s') →
    bus_step (MkBusSystem b st ls ts log)
      (MkBusSystem b (<[address := s']> st) (note_pop address item ls) ts log)
  | step_set_notify b st ls ts log address s on_data :
    st !! address = Some s →
    bus_step (MkBusSystem b st ls ts log)
      (MkBusSystem b (<[address := set_notify s on_data]> st) ls ts log)
  | step_set_provider b st ls ts log k provider :
    bus_step (MkBusSystem b st ls ts log)
      (MkBusSystem (match provider with
                    | Some p => register_snapshot_provider b k p
                    | None => unregister_snapshot_provider b k
                    end) st ls ts log)
  | step_set_demand b st ls ts log callback :
    bus_step (MkBusSystem b st ls ts log) (MkBusSystem (set_demand_callback b callback) st ls ts log)
  | step_tell b st ls ts ts' log c t transitions :
    bus_step (MkBusSystem b st ls (ts ++ (c, t :: transitions) :: ts') log)
      (MkBusSystem b st ls (ts ++ (c, transitions) :: ts') (log ++ [(c, t)]))
  | step_told b st ls ts ts' log c :
    bus_step (MkBusSystem b st ls (ts ++ (c, []) :: ts') log) (MkBusSystem b st ls (ts ++ ts') log).

Definition bus_reachable (sys : BusSystem) : Prop := rtc bus_step empty_system sys.
