(* ===== verification/EventQueue.v ===== *)
(** A subscription's ring is a bounded first-in first-out queue, and what becomes of the
    events it is offered. *)

From S2P Require Import Prelude Errors Identity Event EventBus.

Local Open Scope nat_scope.
Local Open Scope list_scope.

(** ** The ring as a list *)

Definition contents (s : SubscriptionState) : list SubscriptionEvent :=
  (λ i, item_at s ((head s + i) mod length (buffer s))) <$> seq 0 (size s).

Record ring_ok (s : SubscriptionState) : Prop := {
  ring_size : size s <= length (buffer s);
  ring_head : buffer s ≠ [] → head s < length (buffer s)
}.

Lemma length_contents s : length (contents s) = size s.
Proof. unfold contents. by rewrite length_fmap, length_seq. Qed.

Lemma buffer_nonempty s : buffer s ≠ [] ↔ length (buffer s) ≠ 0.
Proof. destruct (buffer s); cbn; naive_solver. Qed.

Lemma item_at_store s i x n j :
  j < length (buffer s) → item_at (store_item s i x n) j = if decide (i = j) then x else item_at s j.
Proof.
  intros Hj. unfold item_at. cbn. case_decide as E.
  - subst. by rewrite list_lookup_insert_eq.
  - by rewrite list_lookup_insert_ne.
Qed.

(** Different positions of the queue are different places of the ring. *)
Lemma ring_index_inj s i j :
  i < length (buffer s) → j < length (buffer s) →
  (head s + i) mod length (buffer s) = (head s + j) mod length (buffer s) → i = j.
Proof.
  intros Hi Hj E. set (n := length (buffer s)) in *. assert (n ≠ 0) as Hn by lia.
  pose proof (Nat.div_mod_eq (head s + i) n). pose proof (Nat.div_mod_eq (head s + j) n).
  assert ((head s + i) / n = (head s + j) / n ∨ (head s + i) / n = S ((head s + j) / n) ∨
    S ((head s + i) / n) = (head s + j) / n) as [|[|]] by nia; nia.
Qed.

Lemma contents_push s x :
  size s < length (buffer s) →
  contents (store_item s (tail_index s) x (size s + 1)) = contents s ++ [x].
Proof.
  intros Hs. unfold contents. cbn [head size buffer store_item]. rewrite length_insert.
  rewrite Nat.add_1_r, seq_S, fmap_app. f_equal.
  - apply list_fmap_ext. intros k i [-> Hk]%lookup_seq. cbn [Nat.add].
    rewrite item_at_store by (apply Nat.mod_upper_bound; lia).
    rewrite decide_False; [done|]. intros E. apply ring_index_inj in E; lia.
  - cbn. f_equal. rewrite item_at_store by (apply Nat.mod_upper_bound; lia). by rewrite decide_True.
Qed.

Lemma back_index_last s :
  size s ≠ 0 → back_index s = (head s + (size s - 1)) mod length (buffer s).
Proof. intros Hs. unfold back_index. f_equal. lia. Qed.

Lemma contents_back s :
  size s ≠ 0 → ∃ front, contents s = front ++ [item_at s (back_index s)].
Proof.
  intros Hs. rewrite back_index_last by done. unfold contents.
  destruct (size s) as [|n]; [done|]. rewrite seq_S, fmap_app. replace (S n - 1) with n by lia.
  by eexists.
Qed.

Lemma contents_replace s front old x :
  size s <= length (buffer s) → contents s = front ++ [old] →
  contents (store_item s (back_index s) x (size s)) = front ++ [x].
Proof.
  intros Hs. unfold contents. cbn [head size buffer store_item]. rewrite length_insert.
  destruct (size s) as [|n] eqn:E; [by destruct front|].
  rewrite back_index_last by lia. rewrite E. replace (S n - 1) with n by lia.
  rewrite seq_S, !fmap_app. intros [<- _]%app_inj_2; [|done]. f_equal.
  - apply list_fmap_ext. intros k i [-> Hk]%lookup_seq. cbn [Nat.add].
    rewrite item_at_store by (apply Nat.mod_upper_bound; lia).
    rewrite decide_False; [done|]. intros Ei. apply ring_index_inj in Ei; lia.
  - cbn. f_equal. rewrite item_at_store by (apply Nat.mod_upper_bound; lia). by rewrite decide_True.
Qed.

Lemma contents_pop s :
  ring_ok s → size s ≠ 0 →
  ∃ item s', try_pop_item s = (Some item, s') ∧ contents s = item :: contents s' ∧ ring_ok s'.
Proof.
  intros [Hs Hh] Hn. assert (length (buffer s) ≠ 0) as Hb by lia.
  assert (head s < length (buffer s)) as Hhead by (apply Hh, buffer_nonempty, Hb).
  unfold try_pop_item. rewrite decide_False by done. do 2 eexists. split; [done|].
  unfold contents. cbn [head size buffer]. rewrite length_insert. split.
  - destruct (size s) as [|n]; [done|]. cbn [seq fmap list_fmap].
    rewrite Nat.add_0_r, (Nat.mod_small (head s)) by done. f_equal.
    rewrite Nat.sub_1_r. cbn [Nat.pred]. rewrite <- fmap_S_seq, <- list_fmap_compose.
    apply list_fmap_ext. intros k i [-> Hk]%lookup_seq. cbn [compose Nat.add].
    unfold next_index. rewrite Nat.Div0.add_mod_idemp_l.
    replace (head s + 1 + k) with (head s + S k) by lia.
    unfold item_at. cbn [buffer]. rewrite list_lookup_insert_ne; [done|].
    intros E. rewrite <- (Nat.mod_small (head s) (length (buffer s))) in E at 1 by done.
    rewrite <- (Nat.add_0_r (head s)) in E at 1. apply ring_index_inj in E; lia.
  - split; cbn; rewrite length_insert; [lia|]. intros _. by apply Nat.mod_upper_bound.
Qed.

(** ** The queue it implements *)

(** A bounded queue: what is in it, how often something was lost, and what its consumer
    has to know. *)
Record Fifo := MkFifo {
  fifo_items : list SubscriptionEvent;
  fifo_lost : N;
  fifo_lagging : bool;
  fifo_resync : bool;
  fifo_last : N
}.

Definition must_keep (policy : QueueOverflowPolicy) (e : Event) : bool :=
  bool_decide (policy = QueueOverflowPolicy.NeverDrop) ||
  bool_decide (coalescing_class_of (kind e) = CoalescingClass.NeverDrop).

Definition lose (q : Fifo) (resync : bool) (items : list SubscriptionEvent) : Fifo :=
  MkFifo items ((fifo_lost q + 1) mod 2 ^ 64)%N true (fifo_resync q || resync) (fifo_last q).

Definition with_items (q : Fifo) (items : list SubscriptionEvent) : Fifo :=
  MkFifo items (fifo_lost q) (fifo_lagging q) (fifo_resync q) (fifo_last q).

Definition all_but_last (items : list SubscriptionEvent) : list SubscriptionEvent :=
  take (length items - 1) items.

(** Offering an event: whether the consumer is told, and the queue. *)
Definition fifo_offer (capacity : nat) (policy : QueueOverflowPolicy) (q : Fifo) (e : Event)
    : bool * Fifo :=
  let items := fifo_items q in
  if decide (capacity = 0) then (false, lose q false items)
  else if decide (length items < capacity) then (true, with_items q (items ++ [EventItem e]))
  else
    match last items with
    | Some (EventItem b) =>
      if bool_decide (policy = QueueOverflowPolicy.Coalesce) && coalescible_motion e &&
         coalescible_motion b then
        (true, with_items q (all_but_last items ++ [EventItem e]))
      else if must_keep policy e then
        (true, lose q true (all_but_last items ++ [GapItem ErrorCode.QueueGap (fifo_last q)]))
      else (false, lose q false items)
    | _ => if must_keep policy e then (true, lose q true items) else (false, lose q false items)
    end.

Definition fifo_pop (q : Fifo) : option SubscriptionEvent * Fifo :=
  match fifo_items q with
  | [] => (None, q)
  | item :: items =>
    (Some item, MkFifo items (fifo_lost q) (fifo_lagging q) (fifo_resync q)
       (match item with EventItem e => sequence e | GapItem _ _ => fifo_last q end))
  end.

Definition fifo_of (s : SubscriptionState) : Fifo :=
  MkFifo (contents s) (overflow_count s) (lagging s) (needs_resync s) (last_delivered s).

Lemma all_but_last_snoc front x : all_but_last (front ++ [x]) = front.
Proof.
  unfold all_but_last. rewrite length_app, Nat.add_sub. apply take_app_length.
Qed.

Lemma motion_coalesces e :
  coalescible_motion e = true → coalescing_class_of (kind e) = CoalescingClass.Coalesce.
Proof. unfold coalescible_motion. intros ->%bool_decide_eq_true. done. Qed.

(** What every operation of a subscription leaves alone. *)
Definition same_options (s s' : SubscriptionState) : Prop :=
  length (buffer s') = length (buffer s) ∧ overflow_policy s' = overflow_policy s ∧
  sub_scope s' = sub_scope s ∧ notify s' = notify s.

Lemma enqueue_fifo s e :
  ring_ok s →
  let '(callback, s') := enqueue s e in
  let '(announced, q) := fifo_offer (length (buffer s)) (overflow_policy s) (fifo_of s) e in
  fifo_of s' = q ∧ callback = (if announced then notify s else None) ∧ ring_ok s' ∧ same_options s s'.
Proof.
  intros [Hs Hh]. unfold enqueue, fifo_offer. cbn [fifo_items fifo_of]. rewrite length_contents.
  destruct (decide (buffer s = [])) as [Hb|Hb].
  { rewrite (decide_True (P := length (buffer s) = 0)) by (by rewrite Hb).
    split_and!; [|done|done|done]. unfold lose, fifo_of. cbn. by rewrite orb_false_r. }
  pose proof (proj1 (buffer_nonempty s) Hb) as Hb0.
  rewrite (decide_False (P := length (buffer s) = 0)) by done.
  destruct (decide (size s < length (buffer s))) as [Hroom|Hfull].
  { split_and!; [|done| |].
    - unfold fifo_of. rewrite contents_push by done. done.
    - split; cbn; rewrite length_insert; [lia|]. intros _. by apply Hh.
    - split_and!; cbn; rewrite ?length_insert; done. }
  assert (size s ≠ 0) as Hn by lia.
  destruct (contents_back s Hn) as [front Hc]. rewrite Hc, last_snoc, all_but_last_snoc.
  assert (∀ x, ring_ok (store_item s (back_index s) x (size s)) ∧
    same_options s (store_item s (back_index s) x (size s))) as Hstore.
  { intros x. split; [split; cbn; rewrite length_insert; [lia|]; intros _; by apply Hh|].
    split_and!; cbn; rewrite ?length_insert; done. }
  assert (ring_ok (mark_overflow s) ∧ same_options s (mark_overflow s)) as Hover by (split; done).
  assert (fifo_of (mark_overflow s) = lose (fifo_of s) false (contents s)) as Hlost
    by (unfold lose, fifo_of; cbn; by rewrite orb_false_r).
  rewrite Hc in Hlost.
  assert (ring_ok (mark_gap s) ∧ same_options s (mark_gap s) ∧
    fifo_of (mark_gap s) = lose (fifo_of s) true
      match item_at s (back_index s) with
      | EventItem _ => front ++ [GapItem ErrorCode.QueueGap (last_delivered s)]
      | GapItem _ _ => front ++ [item_at s (back_index s)]
      end) as (Hgap1 & Hgap2 & Hgap).
  { unfold mark_gap. cbn [request_resync mark_overflow buffer].
    destruct (buffer s) as [|x0 l0] eqn:Ebuf; [done|]. rewrite <- Ebuf in *.
    change (back_index (request_resync (mark_overflow s))) with (back_index s).
    change (item_at (request_resync (mark_overflow s)) (back_index s)) with (item_at s (back_index s)).
    set (s1 := request_resync (mark_overflow s)).
    assert (contents s1 = front ++ [item_at s (back_index s)]) as Hc1 by exact Hc.
    destruct (item_at s (back_index s)) as [b|c m] eqn:Eb.
    - split_and!; [split; cbn; rewrite length_insert; [lia|intros _; by apply Hh]| |].
      + split_and!; cbn; rewrite ?length_insert; done.
      + unfold fifo_of at 1. rewrite (contents_replace s1 front (EventItem b)) by done.
        unfold lose. cbn. by rewrite orb_true_r.
    - split_and!; [done|done|]. unfold fifo_of at 1. rewrite Hc1. unfold lose. cbn. by rewrite orb_true_r. }
  unfold must_keep. destruct (item_at s (back_index s)) as [b|c m] eqn:Eb; cbn [is_motion_item].
  - change (bool_decide (kind b = EventKind.MouseMove)) with (coalescible_motion b).
    destruct (bool_decide (overflow_policy s = QueueOverflowPolicy.Coalesce)) eqn:Ep; cbn [andb];
      [destruct (coalescible_motion e) eqn:Em|].
    + rewrite (motion_coalesces e Em), bool_decide_true by done. cbn [andb].
      destruct (coalescible_motion b).
      * split_and!; [|done|apply Hstore|apply Hstore]. unfold fifo_of at 1.
        by rewrite (contents_replace s front (EventItem b)).
      * rewrite bool_decide_eq_true in Ep. rewrite Ep. cbn.
        split_and!; [by rewrite Hlost|done|apply Hover|apply Hover].
    + rewrite andb_false_r. cbn [andb]. destruct (_ || _); split_and!; rewrite ?Hgap, ?Hlost; done || apply Hover.
    + destruct (_ || _); split_and!; rewrite ?Hgap, ?Hlost; done || apply Hover.
  - rewrite andb_false_r. destruct (_ || _); split_and!; rewrite ?Hgap, ?Hlost; done || apply Hover.
Qed.

Lemma pop_fifo s :
  ring_ok s →
  let '(item, s') := try_pop_item s in
  let '(item', q) := fifo_pop (fifo_of s) in
  fifo_of s' = q ∧ item = item' ∧ ring_ok s' ∧ same_options s s'.
Proof.
  intros Hr. destruct (decide (size s = 0)) as [E|E].
  - unfold try_pop_item. rewrite decide_True by done. unfold fifo_pop. cbn [fifo_items fifo_of].
    assert (contents s = []) as -> by (apply length_zero_iff_nil; by rewrite length_contents). done.
  - destruct (contents_pop s Hr E) as (item & s' & Hp & Hc & Hr'). rewrite Hp.
    unfold fifo_pop. cbn [fifo_items fifo_of]. rewrite Hc.
    unfold try_pop_item in Hp. rewrite decide_False in Hp by done. injection Hp as Hitem Hs'.
    split_and!; [|done|done|].
    + unfold fifo_of. rewrite <- Hs' at 2 3 4 5. cbn. by rewrite Hitem.
    + rewrite <- Hs'. split_and!; cbn; rewrite ?length_insert; done.
Qed.

(** ** What becomes of the events a subscription is offered *)

Definition item_before (a b : SubscriptionEvent) : Prop :=
  match a, b with
  | EventItem x, EventItem y => (sequence x < sequence y)%N
  | _, _ => True
  end.

(** A gap marker stands where the lost event [e] was: after the events before it, before
    those after it, and its consumer had been given none past the marker's number. *)
Definition covered (items : list SubscriptionEvent) (e : Event) : Prop :=
  ∃ i1 code m i2, items = i1 ++ GapItem code m :: i2 ∧ (m < sequence e)%N ∧
    (∀ x, EventItem x ∈ i1 → (sequence x < sequence e)%N) ∧
    (∀ x, EventItem x ∈ i2 → (sequence e < sequence x)%N).

(** Everything the consumer was given, and what waits for it. *)
Definition all_items (q : Fifo) (l : Ledger) : list SubscriptionEvent := popped l ++ fifo_items q.

(** A later motion stands for [e]. *)
Definition superseded (items : list SubscriptionEvent) (e : Event) : Prop :=
  coalescible_motion e = true ∧
  ∃ later, EventItem later ∈ items ∧ coalescible_motion later = true ∧ (sequence e < sequence later)%N.

Record accounted (capacity : nat) (policy : QueueOverflowPolicy) (q : Fifo) (l : Ledger) (bound : N)
    : Prop := {
  acc_length : length (fifo_items q) <= capacity;
  acc_sorted : StronglySorted item_before (all_items q l);
  acc_offered : ∀ e, e ∈ offered l → (sequence e < bound)%N;
  acc_from : ∀ e, EventItem e ∈ all_items q l → e ∈ offered l;
  acc_last : ∀ e, EventItem e ∈ fifo_items q → (fifo_last q < sequence e)%N;
  acc_last_bound : (fifo_last q < bound)%N;
  acc_gap_bound : ∀ code m, GapItem code m ∈ all_items q l → (m < bound)%N;
  acc_kept : capacity ≠ 0 → ∀ e, e ∈ offered l → must_keep policy e = true →
    EventItem e ∈ all_items q l ∨ covered (all_items q l) e;
  acc_resync : ∀ code m, GapItem code m ∈ all_items q l → fifo_resync q = true;
  acc_told : fifo_lagging q = true ∨ ∀ e, e ∈ offered l →
    EventItem e ∈ all_items q l ∨ superseded (all_items q l) e;
  acc_room : capacity = 0 → all_items q l = []
}.

Lemma sorted_snoc items x :
  StronglySorted item_before (items ++ [x]) ↔
  StronglySorted item_before items ∧ ∀ y, y ∈ items → item_before y x.
Proof.
  rewrite StronglySorted_app. split.
  - intros (Hx & Hs & _). split; [done|]. intros y Hy. apply Hx; [done|by left].
  - intros [Hs Hx]. split_and!; [|done|by repeat constructor].
    intros y z Hy ->%list_elem_of_singleton. by apply Hx.
Qed.

Lemma covered_snoc items e x :
  covered items e → (∀ y, x = EventItem y → (sequence e < sequence y)%N) → covered (items ++ [x]) e.
Proof.
  intros (i1 & c & m & i2 & -> & Hm & H1 & H2) Hx. exists i1, c, m, (i2 ++ [x]).
  rewrite <- app_assoc. split_and!; [done..|]. intros y [Hy|Hy%list_elem_of_singleton]%elem_of_app; auto.
Qed.

(** Replacing the last event keeps what was covered. *)
Lemma covered_replace items b e x :
  covered (items ++ [EventItem b]) e → (∀ y, x = EventItem y → (sequence e < sequence y)%N) →
  covered (items ++ [x]) e.
Proof.
  intros (i1 & c & m & i2 & E & Hm & H1 & H2) Hx. destruct i2 as [|z i2 _] using rev_ind.
  - apply app_inj_tail in E as [_ E]. discriminate E.
  - rewrite app_comm_cons, app_assoc in E. apply app_inj_tail in E as [-> <-].
    apply covered_snoc; [|done]. exists i1, c, m, i2. split_and!; [done..|].
    intros y Hy. apply H2, elem_of_app. by left.
Qed.

Section account.
Context (capacity : nat) (policy : QueueOverflowPolicy).

Lemma accounted_lost q l bound e :
  accounted capacity policy q l bound → (bound <= sequence e)%N →
  capacity = 0 ∨ must_keep policy e = false →
  accounted capacity policy (lose q false (fifo_items q)) (MkLedger (offered l ++ [e]) (popped l))
    (sequence e + 1).
Proof.
  intros [Hlen Hs Ho Hf Hl Hlb Hg Hk Hr Ht H0] Hb Hnot. split; unfold all_items; cbn; try done.
  - intros x [Hx|Hx%list_elem_of_singleton]%elem_of_app; [specialize (Ho x Hx); lia|subst; lia].
  - intros x Hx. apply elem_of_app. left. by apply Hf.
  - lia.
  - intros c m Hc. specialize (Hg c m Hc). lia.
  - intros Hc x [Hx|Hx%list_elem_of_singleton]%elem_of_app Hm; [by apply Hk|]. subst.
    destruct Hnot as [Hnot|Hnot]; [done|congruence].
  - intros c m Hc. rewrite orb_false_r. by eapply Hr.
  - by left.
Qed.

(** An event put behind all others, whether or not it takes the place of one that may
    be lost. *)
Lemma accounted_put q q' l bound e items :
  accounted capacity policy q l bound → (bound <= sequence e)%N →
  q' = with_items q (items ++ [EventItem e]) → length (items ++ [EventItem e]) <= capacity →
  (fifo_items q = items ∨
   ∃ b, fifo_items q = items ++ [EventItem b] ∧ must_keep policy b = false ∧
        coalescible_motion b = true ∧ coalescible_motion e = true) →
  accounted capacity policy q' (MkLedger (offered l ++ [e]) (popped l)) (sequence e + 1).
Proof.
  intros [Hlen Hs Ho Hf Hl Hlb Hg Hk Hr Ht H0] Hb -> Hcap Hold.
  assert (∀ y, y ∈ items → y ∈ fifo_items q) as Hsub.
  { intros y Hy. destruct Hold as [->|(b & -> & _)]; [done|]. apply elem_of_app. by left. }
  assert (∀ y, y ∈ popped l ++ items → y ∈ all_items q l) as Hsub'.
  { intros y. unfold all_items. rewrite !elem_of_app. naive_solver. }
  assert (∀ x, EventItem x ∈ popped l ++ items → (sequence x < sequence e)%N) as Hlt.
  { intros x Hx. specialize (Ho x (Hf x (Hsub' _ Hx))). lia. }
  assert (StronglySorted item_before (popped l ++ items)) as Hsi.
  { revert Hs. unfold all_items. destruct Hold as [->|(b & -> & _)]; [done|].
    rewrite app_assoc, sorted_snoc. tauto. }
  split; unfold all_items; cbn; rewrite ?app_assoc; try done.
  - apply sorted_snoc. split; [done|]. intros [x|] Hx; [by apply Hlt|done].
  - intros x [Hx|Hx%list_elem_of_singleton]%elem_of_app; [specialize (Ho x Hx); lia|subst; lia].
  - intros x [Hx|Hx%list_elem_of_singleton]%elem_of_app; apply elem_of_app;
      [left; by apply Hf, Hsub'|right; injection Hx as ->; by left].
  - intros x [Hx|Hx%list_elem_of_singleton]%elem_of_app; [by apply Hl, Hsub|]. injection Hx as ->. lia.
  - lia.
  - intros c m [Hx|Hx%list_elem_of_singleton]%elem_of_app; [|done].
    specialize (Hg c m (Hsub' _ Hx)). lia.
  - intros Hc x [Hx|Hx%list_elem_of_singleton]%elem_of_app Hm.
    2: { subst. left. apply elem_of_app. right. by left. }
    specialize (Ho x Hx). assert (∀ y, EventItem e = EventItem y → (sequence x < sequence y)%N) as Hnew
      by (intros y [= <-]; lia).
    destruct (Hk Hc x Hx Hm) as [Hin|Hcov]; unfold all_items in *.
    + left. rewrite !elem_of_app in *. destruct Hin as [Hin|Hin]; [tauto|].
      destruct Hold as [E|(b & E & Hbm & _)]; rewrite E in Hin; [tauto|].
      apply elem_of_app in Hin as [Hin|Hin%list_elem_of_singleton]; [tauto|]. congruence.
    + right. destruct Hold as [E|(b & E & _)]; rewrite E in Hcov.
      * by apply covered_snoc.
      * rewrite app_assoc in Hcov. by eapply covered_replace.
  - intros c m [Hx|Hx%list_elem_of_singleton]%elem_of_app; [|done]. by eapply Hr, Hsub'.
  - destruct Ht as [Ht|Ht]; [by left|right].
    assert (∀ y, EventItem y ∈ all_items q l → EventItem y ∈ popped l ++ items ∨
      coalescible_motion y = true ∧ coalescible_motion e = true) as Hstays.
    { unfold all_items. intros y. destruct Hold as [->|(b & -> & _ & Hbm & Hem)]; [by left|].
      rewrite app_assoc, elem_of_app, list_elem_of_singleton. intros [?|[= ->]]; [by left|by right]. }
    assert (∀ y, EventItem y ∈ all_items q l → (sequence y < sequence e)%N) as Hbefore
      by (intros y Hy%Hf%Ho; lia).
    assert (EventItem e ∈ (popped l ++ items) ++ [EventItem e]) as Hin by (apply elem_of_app; right; by left).
    intros x [Hx|Hx%list_elem_of_singleton]%elem_of_app; [|subst; by left].
    destruct (Ht x Hx) as [Hxin|(Hmx & later & Hlin & Hml & Hxl)].
    + destruct (Hstays x Hxin) as [?|[? ?]]; [left; apply elem_of_app; by left|].
      right. split; [done|]. exists e. auto.
    + right. split; [done|]. destruct (Hstays later Hlin) as [?|[_ ?]].
      * exists later. split_and!; [apply elem_of_app; by left|done..].
      * exists e. split_and!; [done..|]. specialize (Hbefore later Hlin). lia.
  - rewrite length_app in Hcap. cbn in Hcap. lia.
Qed.

(** Losing an event that must be kept: the marker replaces the last event. *)
Lemma accounted_gap q l bound e b front :
  accounted capacity policy q l bound → (bound <= sequence e)%N →
  fifo_items q = front ++ [EventItem b] →
  accounted capacity policy
    (lose q true (front ++ [GapItem ErrorCode.QueueGap (fifo_last q)]))
    (MkLedger (offered l ++ [e]) (popped l)) (sequence e + 1).
Proof.
  intros [Hlen Hs Ho Hf Hl Hlb Hg Hk Hr Ht H0] Hb E. unfold all_items in *. rewrite E in *.
  rewrite app_assoc in *. rewrite length_app in Hlen. apply sorted_snoc in Hs as [Hs Hbefore].
  set (gap := GapItem ErrorCode.QueueGap (fifo_last q)).
  assert (∀ y, y ∈ popped l ++ front → y ∈ (popped l ++ front) ++ [EventItem b]) as Hsub
    by (intros y Hy; apply elem_of_app; by left).
  assert (∀ x, (∀ y, EventItem y ∈ popped l ++ front → (sequence y < sequence x)%N) →
    (fifo_last q < sequence x)%N → covered ((popped l ++ front) ++ [gap]) x) as Hcov.
  { intros x H1 H2. eexists _, _, _, []. split; [done|]. split_and!; [done..|].
    by intros y ?%elem_of_nil. }
  split; unfold all_items; cbn; rewrite ?app_assoc; fold gap.
  - rewrite length_app. cbn. cbn in Hlen. lia.
  - apply sorted_snoc. split; [done|]. by intros [].
  - intros x [Hx|Hx%list_elem_of_singleton]%elem_of_app; [specialize (Ho x Hx); lia|subst; lia].
  - intros x [Hx|Hx%list_elem_of_singleton]%elem_of_app; [|done]. apply elem_of_app. left. by apply Hf, Hsub.
  - intros x [Hx|Hx%list_elem_of_singleton]%elem_of_app; [|done]. apply Hl, elem_of_app. by left.
  - lia.
  - intros c m [Hx|Hx%list_elem_of_singleton]%elem_of_app; [specialize (Hg c m (Hsub _ Hx)); lia|].
    injection Hx as -> ->. lia.
  - intros Hc x [Hx|Hx%list_elem_of_singleton]%elem_of_app Hm.
    + destruct (Hk Hc x Hx Hm) as [[Hin|Hin%list_elem_of_singleton]%elem_of_app|Hcovered].
      * left. apply elem_of_app. by left.
      * injection Hin as ->. right. apply Hcov.
        -- intros y Hy. exact (Hbefore (EventItem y) Hy).
        -- apply Hl, elem_of_app. right. by left.
      * right. by eapply covered_replace.
    + subst. right. apply Hcov; [|lia]. intros y Hy. specialize (Ho y (Hf y (Hsub _ Hy))). lia.
  - intros c m _. apply orb_true_r.
  - by left.
  - cbn in Hlen. lia.
Qed.

(** Losing it when the last item is a marker already. *)
Lemma accounted_more_gap q l bound e c m front :
  accounted capacity policy q l bound → (bound <= sequence e)%N →
  fifo_items q = front ++ [GapItem c m] →
  accounted capacity policy (lose q true (fifo_items q)) (MkLedger (offered l ++ [e]) (popped l))
    (sequence e + 1).
Proof.
  intros [Hlen Hs Ho Hf Hl Hlb Hg Hk Hr Ht H0] Hb E. split; unfold all_items in *; cbn; try done.
  - intros x [Hx|Hx%list_elem_of_singleton]%elem_of_app; [specialize (Ho x Hx); lia|subst; lia].
  - intros x Hx. apply elem_of_app. left. by apply Hf.
  - lia.
  - intros c' m' Hc. specialize (Hg c' m' Hc). lia.
  - intros Hc x [Hx|Hx%list_elem_of_singleton]%elem_of_app Hm; [by apply Hk|]. subst x. right.
    exists (popped l ++ front), c, m, []. rewrite E, app_assoc. split_and!; [done| | |].
    + specialize (Hg c m). rewrite E in Hg. enough (m < bound)%N by lia. apply Hg. set_solver.
    + intros y Hy. assert (sequence y < bound)%N; [|lia]. apply Ho, Hf. rewrite E, app_assoc.
      apply elem_of_app. by left.
    + by intros y ?%elem_of_nil.
  - intros c' m' _. apply orb_true_r.
  - by left.
Qed.

Lemma accounted_offer q l bound e :
  accounted capacity policy q l bound → (bound <= sequence e)%N →
  accounted capacity policy (fifo_offer capacity policy q e).2
    (MkLedger (offered l ++ [e]) (popped l)) (sequence e + 1).
Proof.
  intros Ha Hb. pose proof (acc_length _ _ _ _ _ Ha) as Hlen. unfold fifo_offer.
  destruct (decide (capacity = 0)) as [Hc|Hc]; [apply (accounted_lost _ _ _ _ Ha Hb); by left|].
  destruct (decide (length (fifo_items q) < capacity)) as [Hroom|Hfull].
  { eapply (accounted_put _ _ _ _ _ _ Ha Hb eq_refl); [rewrite length_app; cbn; lia|by left]. }
  destruct (fifo_items q) as [|x front _] eqn:E using rev_ind; [cbn in Hfull; lia|].
  rewrite last_snoc. rewrite <- E.
  destruct (must_keep policy e) eqn:Hm.
  - destruct x as [b|c m].
    + rewrite E, all_but_last_snoc. destruct (_ && _ && coalescible_motion b) eqn:Hco.
      * apply andb_true_iff in Hco as [[Hp Hme]%andb_true_iff Hmb].
        eapply (accounted_put _ _ _ _ _ _ Ha Hb eq_refl); [rewrite length_app in *; cbn in *; lia|].
        right. exists b. split_and!; [done| |done..]. unfold must_keep. apply bool_decide_eq_true in Hp.
        by rewrite Hp, (motion_coalesces b Hmb).
      * by eapply accounted_gap.
    + by eapply accounted_more_gap.
  - destruct x as [b|c m]; [|apply (accounted_lost _ _ _ _ Ha Hb); by right].
    destruct (_ && _ && coalescible_motion b) eqn:Hco.
    + rewrite E, all_but_last_snoc. apply andb_true_iff in Hco as [[Hp Hme]%andb_true_iff Hmb].
      eapply (accounted_put _ _ _ _ _ _ Ha Hb eq_refl); [rewrite length_app in *; cbn in *; lia|].
      right. exists b. split_and!; [done| |done..]. unfold must_keep. apply bool_decide_eq_true in Hp.
      by rewrite Hp, (motion_coalesces b Hmb).
    + apply (accounted_lost _ _ _ _ Ha Hb). by right.
Qed.

Lemma accounted_pop q l bound item q' :
  accounted capacity policy q l bound → fifo_pop q = (Some item, q') →
  accounted capacity policy q' (MkLedger (offered l) (popped l ++ [item])) bound.
Proof.
  intros [Hlen Hs Ho Hf Hl Hlb Hg Hk Hr Ht H0]. unfold fifo_pop, all_items in *.
  destruct (fifo_items q) as [|x items] eqn:E; [done|]. intros [= -> <-].
  assert ((popped l ++ [item]) ++ items = popped l ++ item :: items) as Eall by (by rewrite <- app_assoc).
  split; unfold all_items; cbn [popped fifo_items offered fifo_last fifo_resync]; rewrite ?Eall; try done.
  - cbn in Hlen. lia.
  - intros e He. destruct item as [b|]; [|apply Hl; by right].
    rewrite <- Eall in Hs. clear - Hs He. induction (popped l) as [|p ps IH]; cbn in Hs.
    + apply StronglySorted_inv in Hs as [_ Hs]. rewrite Forall_forall in Hs. exact (Hs _ He).
    + apply IH. by apply StronglySorted_inv in Hs as [Hs _].
  - destruct item as [b|]; [|done]. apply Ho, Hf. set_solver.
Qed.

End account.

(** ** Any use of a subscription *)

Inductive QueueCall :=
  | Offer (event : Event)
  | Pop
  | Listen (on_data : option Callback).

Inductive QueueAnswer :=
  | Announced (callback : option Callback)
  | Popped (item : option SubscriptionEvent)
  | Listening.

Definition call_queue (s : SubscriptionState) (call : QueueCall) : QueueAnswer * SubscriptionState :=
  match call with
  | Offer event => let '(callback, s) := enqueue s event in (Announced callback, s)
  | Pop => let '(item, s) := try_pop_item s in (Popped item, s)
  | Listen on_data => (Listening, set_notify s on_data)
  end.

(** The same on the abstract queue, with the callback its consumer registered. *)
Definition call_fifo (capacity : nat) (policy : QueueOverflowPolicy) (q : option Callback * Fifo)
    (call : QueueCall) : QueueAnswer * (option Callback * Fifo) :=
  match call with
  | Offer event =>
    let '(announced, q') := fifo_offer capacity policy q.2 event in
    (Announced (if announced then q.1 else None), (q.1, q'))
  | Pop => let '(item, q') := fifo_pop q.2 in (Popped item, (q.1, q'))
  | Listen on_data => (Listening, (on_data, q.2))
  end.

Fixpoint call_all {S : Type} (step : S → QueueCall → QueueAnswer * S) (s : S) (calls : list QueueCall)
    : list QueueAnswer * S :=
  match calls with
  | [] => ([], s)
  | call :: calls =>
    let '(answer, s) := step s call in
    let '(answers, s) := call_all step s calls in (answer :: answers, s)
  end.

Lemma call_queue_fifo s call :
  ring_ok s →
  let '(answer, s') := call_queue s call in
  call_fifo (length (buffer s)) (overflow_policy s) (notify s, fifo_of s) call =
    (answer, (notify s', fifo_of s')) ∧
  ring_ok s' ∧ length (buffer s') = length (buffer s) ∧ overflow_policy s' = overflow_policy s.
Proof.
  intros Hr. destruct call as [e| |on_data]; cbn.
  - pose proof (enqueue_fifo s e Hr) as H. destruct (enqueue s e) as [callback s'].
    destruct (fifo_offer _ _ _ _) as [announced q]. destruct H as (Hq & -> & Hr' & Hl & Hp & _ & Hn).
    rewrite Hn, Hq. split_and!; try done.
  - pose proof (pop_fifo s Hr) as H. destruct (try_pop_item s) as [item s'].
    destruct (fifo_pop _) as [item' q]. destruct H as (Hq & -> & Hr' & Hl & Hp & _ & Hn).
    rewrite Hn, Hq. split_and!; try done.
  - destruct Hr. split_and!; try done; by split.
Qed.

Lemma call_all_fifo calls s :
  ring_ok s →
  let '(answers, s') := call_all call_queue s calls in
  call_all (call_fifo (length (buffer s)) (overflow_policy s)) (notify s, fifo_of s) calls =
    (answers, (notify s', fifo_of s')).
Proof.
  revert s. induction calls as [|call calls IH]; intros s Hr; cbn; [done|].
  pose proof (call_queue_fifo s call Hr) as H. destruct (call_queue s call) as [answer s'].
  destruct H as (-> & Hr' & Hl & Hp). specialize (IH s' Hr'). rewrite Hl, Hp in IH.
  destruct (call_all call_queue s' calls) as [answers s'']. by rewrite IH.
Qed.

Lemma new_ring_ok id scope options : ring_ok (new_subscription id scope options).
Proof.
  split; cbn; [lia|]. rewrite length_replicate. intros Hne. destruct (q_capacity options); [done|lia].
Qed.

(** C17: However a new subscription is offered events and polled, at whatever capacity
    (zero included), its ring buffer answers every call as the abstract bounded queue
    does: events come out in the order they went in, a full queue replaces a trailing
    mouse move by a newer one, puts a gap marker in the place of the newest event when
    one is lost that must not be, counts what it loses, and tells its consumer exactly
    then when there is something new to fetch. *)
Theorem queue_refines_fifo (id : Uuid) (scope : SubscriptionScope) (options : QueueOptions)
    (calls : list QueueCall) :
  let '(answers, s) := call_all call_queue (new_subscription id scope options) calls in
  let '(answers', (listener, q)) :=
    call_all (call_fifo (q_capacity options) (q_overflow options))
      (None, MkFifo [] 0 false false 0) calls in
  answers = answers' ∧ notify s = listener ∧ fifo_of s = q.
Proof.
  pose proof (call_all_fifo calls _ (new_ring_ok id scope options)) as H.
  destruct (call_all call_queue _ calls) as [answers s].
  cbn [buffer new_subscription overflow_policy notify] in H. rewrite length_replicate in H.
  change (fifo_of (new_subscription id scope options)) with (MkFifo [] 0 false false 0) in H.
  by rewrite H.
Qed.
