(* ===== verification/EventBusTheorems.v ===== *)
(** What the event bus guarantees its subscriptions: the invariant of the bus and its
    store, and that nothing that must be kept is lost without a gap marker in its
    place. *)

From S2P Require Import Prelude Errors Identity Event EventBus EventQueue.

Local Open Scope nat_scope.
Local Open Scope list_scope.

(** ** Subscriptions on the bus *)

Definition sub_ok (s : SubscriptionState) (l : Ledger) (bound : N) : Prop :=
  ring_ok s ∧ accounted (length (buffer s)) (overflow_policy s) (fifo_of s) l bound.

Lemma sub_ok_weaken s l bound bound' : sub_ok s l bound → (bound <= bound')%N → sub_ok s l bound'.
Proof.
  intros [Hr [? ? Ho ? ? Hl Hg ? ? ? ?]] Hb. split; [done|]. split; try done.
  - intros e He. specialize (Ho e He). lia.
  - lia.
  - intros c m Hc. specialize (Hg c m Hc). lia.
Qed.

Lemma enqueue_ok s l bound e :
  sub_ok s l bound → (bound <= sequence e)%N →
  sub_ok (enqueue s e).2 (MkLedger (offered l ++ [e]) (popped l)) (sequence e + 1) ∧
  same_options s (enqueue s e).2.
Proof.
  intros [Hr Ha] Hb. pose proof (enqueue_fifo s e Hr) as H.
  pose proof (accounted_offer _ _ _ _ _ e Ha Hb) as Ha'.
  destruct (enqueue s e) as [callback s']. destruct (fifo_offer _ _ _ _) as [announced q].
  destruct H as (<- & _ & Hr' & Hsame). cbn in *. pose proof Hsame as (Hlen & Hpol & _).
  split; [|done]. split; [done|]. by rewrite Hlen, Hpol.
Qed.

Lemma pop_ok s l bound item s' :
  sub_ok s l bound → try_pop_item s = (item, s') →
  sub_ok s' (MkLedger (offered l) (popped l ++ match item with Some x => [x] | None => [] end)) bound ∧
  same_options s s'.
Proof.
  intros [Hr Ha] Hp. pose proof (pop_fifo s Hr) as H. rewrite Hp in H.
  destruct (fifo_pop (fifo_of s)) as [item' q] eqn:Eq. destruct H as (Hq & Hi & Hr' & Hsame).
  pose proof Hsame as (Hlen & Hpol & _). split; [|done]. split; [done|]. rewrite Hlen, Hpol, Hq.
  subst item. destruct item' as [x|]; [by eapply accounted_pop|].
  rewrite app_nil_r. unfold fifo_pop in Eq. destruct (fifo_items (fifo_of s)) eqn:E; [|done].
  injection Eq as <-. by destruct l.
Qed.

Lemma same_options_matches s s' e : same_options s s' → sub_matches s' e = sub_matches s e.
Proof. intros (_ & _ & Hs & _). unfold sub_matches. by rewrite Hs. Qed.

Lemma new_subscription_ok id scope options bound :
  (1 <= bound)%N → sub_ok (new_subscription id scope options) (MkLedger [] []) bound.
Proof.
  intros Hb. split.
  - apply new_ring_ok.
  - split; unfold all_items, contents; cbn; try lia; try constructor;
      by intros; match goal with H : _ ∈ [] |- _ => apply elem_of_nil in H end.
Qed.

(** *** Replay *)

Lemma take_sequence_small b : (next_sequence b < 2 ^ 64)%N → (take_sequence b).1 = next_sequence b.
Proof. intros Hb. cbn. by apply N.mod_small. Qed.

(** [events] were numbered from [n] on, up to but excluding [n']. *)
Fixpoint numbered (n : N) (events : list Event) : Prop :=
  match events with
  | [] => True
  | e :: events => sequence e = n ∧ numbered (n + 1) events
  end.

Lemma numbered_app n l k :
  numbered n l → numbered (n + N.of_nat (length l)) k → numbered n (l ++ k).
Proof.
  revert n. induction l as [|e l IH]; intros n; cbn; [by rewrite N.add_0_r|].
  intros [He Hl] Hk. split; [done|]. apply IH; [done|].
  replace (n + 1 + N.of_nat (length l))%N with (n + N.of_nat (S (length l)))%N by lia. done.
Qed.

(** What the bus keeps while it only hands out numbers. *)
Definition same_bus (b b' : EventBusState) (used : nat) : Prop :=
  b' = set_sequence b (next_sequence b + N.of_nat used)%N.

Lemma replay_events_spec b s k events :
  let '(b', l) := replay_events b s k events in
  same_bus b b' (length l) ∧
  ((next_sequence b' <= 2 ^ 64)%N → numbered (next_sequence b) l) ∧
  Forall (λ e, sub_matches s e = true) l.
Proof.
  revert b. induction events as [|e events IH]; intros b; cbn [replay_events].
  - cbn. unfold same_bus, set_sequence. rewrite N.add_0_r. by destruct b.
  - destruct (_ || _) eqn:Ef; [apply IH|]. apply orb_false_iff in Ef as [_ Hm%negb_false_iff].
    cbn [take_sequence]. specialize (IH (set_sequence b (next_sequence b + 1))).
    destruct (replay_events _ s k events) as [b' l]. destruct IH as (Hb & Hn & Hall).
    unfold same_bus in *. cbn in Hb, Hn |- *. split_and!.
    + rewrite Hb. unfold set_sequence. cbn. f_equal. lia.
    + intros Hsmall. rewrite Hb in Hsmall. cbn in Hsmall. split; [apply N.mod_small; lia|].
      apply Hn. rewrite Hb. cbn. lia.
    + by constructor.
Qed.

Lemma replay_kinds_spec b s provided kinds :
  let '(b', l) := replay_kinds b s provided kinds in
  same_bus b b' (length l) ∧
  ((next_sequence b' <= 2 ^ 64)%N → numbered (next_sequence b) l) ∧
  Forall (λ e, sub_matches s e = true) l.
Proof.
  revert b. induction kinds as [|k kinds IH]; intros b; cbn [replay_kinds].
  - cbn. unfold same_bus, set_sequence. rewrite N.add_0_r. by destruct b.
  - case_decide; [apply IH|]. destruct (snapshot_providers b !! k) as [p|]; [|apply IH].
    pose proof (replay_events_spec b s k (provided p)) as H1.
    destruct (replay_events b s k (provided p)) as [b1 l1].
    specialize (IH b1). destruct (replay_kinds b1 s provided kinds) as [b2 l2].
    destruct H1 as (Hb1 & Hn1 & Ha1), IH as (Hb2 & Hn2 & Ha2). unfold same_bus in *.
    rewrite length_app. split_and!.
    + rewrite Hb2, Hb1. unfold set_sequence. cbn. f_equal. lia.
    + intros Hsmall. rewrite Hb2, Hb1 in Hsmall. cbn in Hsmall. apply numbered_app.
      * apply Hn1. rewrite Hb1. cbn. lia.
      * rewrite Hb1 in Hn2. cbn in Hn2. apply Hn2. rewrite Hb2, Hb1. cbn. lia.
    + by apply Forall_app.
Qed.

Lemma enqueue_all_ok s l bound events :
  sub_ok s l bound → numbered bound events →
  sub_ok (enqueue_all s events) (MkLedger (offered l ++ events) (popped l))
    (bound + N.of_nat (length events)) ∧ same_options s (enqueue_all s events).
Proof.
  revert s l bound. induction events as [|e events IH]; intros s l bound Hok Hn.
  - cbn. rewrite app_nil_r, N.add_0_r. by destruct l.
  - destruct Hn as [He Hn]. destruct (enqueue_ok s l bound e Hok) as [Hok' Hsame]; [lia|].
    rewrite He in Hok'. destruct (IH _ _ _ Hok' Hn) as [Hfin Hsame'].
    change (enqueue_all s (e :: events)) with (enqueue_all (enqueue s e).2 events). cbn [length offered popped] in Hfin |- *.
    rewrite <- app_assoc in Hfin. split.
    + replace (bound + N.of_nat (S (length events)))%N with (bound + 1 + N.of_nat (length events))%N by lia.
      done.
    + destruct Hsame as (? & ? & ? & ?), Hsame' as (? & ? & ? & ?). split_and!; congruence.
Qed.

(** ** The bus *)

Lemma offer_event_lookup st e addresses a :
  NoDup addresses →
  (offer_event st e addresses).1 !! a =
    if decide (a ∈ addresses) then (λ s, if sub_matches s e then (enqueue s e).2 else s) <$> st !! a
    else st !! a.
Proof.
  revert st. induction addresses as [|b addresses IH]; intros st Hnd; cbn [offer_event]; [done|].
  apply NoDup_cons in Hnd as [Hb Hnd]. destruct (st !! b) as [s|] eqn:Es.
  - destruct (sub_matches s e) eqn:Em.
    + destruct (enqueue s e) as [callback s'] eqn:Ee. specialize (IH (<[b := s']> st) Hnd).
      destruct (offer_event _ e addresses) as [st' callbacks]. cbn in IH |- *. rewrite IH.
      destruct (decide (a = b)) as [->|Hne].
      * rewrite decide_False by done. rewrite (decide_True (P := b ∈ b :: addresses)) by (by left).
        rewrite lookup_insert_eq, Es. cbn. by rewrite Em, Ee.
      * rewrite !lookup_insert_ne by done.
        by rewrite (decide_ext (a ∈ addresses) (a ∈ b :: addresses)) by set_solver.
    + rewrite IH by done. destruct (decide (a = b)) as [->|Hne].
      * rewrite decide_False by done. rewrite (decide_True (P := b ∈ b :: addresses)) by (by left).
        rewrite Es. cbn. by rewrite Em.
      * by rewrite (decide_ext (a ∈ addresses) (a ∈ b :: addresses)) by set_solver.
  - rewrite IH by done. destruct (decide (a = b)) as [->|Hne].
    + rewrite decide_False by done. rewrite (decide_True (P := b ∈ b :: addresses)) by (by left).
      by rewrite Es.
    + by rewrite (decide_ext (a ∈ addresses) (a ∈ b :: addresses)) by set_solver.
Qed.

Definition note_offer (s : SubscriptionState) (e : Event) (l : Ledger) : Ledger :=
  if sub_matches s e then MkLedger (offered l ++ [e]) (popped l) else l.

Lemma note_offers_lookup st e addresses ls a s l :
  NoDup addresses → st !! a = Some s → ls !! a = Some l →
  note_offers st e addresses ls !! a =
    Some (if decide (a ∈ addresses) then note_offer s e l else l).
Proof.
  revert ls l. induction addresses as [|b addresses IH]; intros ls l Hnd Hs Hl; cbn [note_offers]; [done|].
  apply NoDup_cons in Hnd as [Hb Hnd]. destruct (decide (a = b)) as [<-|Hne].
  - rewrite Hs, Hl. rewrite (decide_True (P := a ∈ a :: addresses)) by (by left). unfold note_offer.
    destruct (sub_matches s e).
    + erewrite IH; [|done|done|by apply lookup_insert_eq]. by rewrite decide_False.
    + rewrite (IH _ l) by done. by rewrite decide_False.
  - rewrite (IH _ l); [|done..|repeat case_match; try done; by rewrite lookup_insert_ne].
    by rewrite (decide_ext (a ∈ addresses) (a ∈ b :: addresses)) by set_solver.
Qed.

Lemma note_offers_dom st e addresses ls a :
  is_Some (note_offers st e addresses ls !! a) ↔ is_Some (ls !! a).
Proof.
  revert ls. induction addresses as [|b addresses IH]; intros ls; cbn [note_offers]; [done|].
  rewrite IH. repeat case_match; try done. rewrite lookup_insert_is_Some.
  destruct (decide (a = b)) as [->|]; naive_solver.
Qed.

(** The kinds of a subscription are different: [subscribe] removes what is repeated. *)
Lemma unique_kinds_nodup seen kinds : NoDup seen → NoDup (unique_kinds seen kinds).
Proof.
  revert seen. induction kinds as [|k kinds IH]; intros seen Hs; cbn; [done|].
  case_decide as Hk; [by apply IH|]. apply IH, NoDup_app. split_and!; [done| |apply NoDup_singleton].
  intros x Hx ->%list_elem_of_singleton. done.
Qed.

Lemma normalized_kinds_nodup scope : NoDup (scope_kinds (normalized_scope scope)).
Proof.
  unfold normalized_scope. destruct (scope_kinds scope); cbn [scope_kinds].
  - apply (bool_decide_unpack _). by vm_compute.
  - apply unique_kinds_nodup, NoDup_nil_2.
Qed.

Record bus_ok (sys : BusSystem) : Prop := {
  bo_nodup : NoDup (subscriptions (bus sys));
  bo_stored : ∀ a, a ∈ subscriptions (bus sys) → is_Some (store sys !! a);
  bo_ledgers : ∀ a, is_Some (store sys !! a) ↔ is_Some (ledgers sys !! a);
  bo_first : (1 <= next_sequence (bus sys))%N;
  bo_kinds : ∀ a s, store sys !! a = Some s → NoDup (scope_kinds (sub_scope s));
  bo_subs : (next_sequence (bus sys) <= 2 ^ 64)%N → ∀ a s l,
    store sys !! a = Some s → ledgers sys !! a = Some l →
    sub_ok s l (next_sequence (bus sys)) ∧ Forall (λ e, sub_matches s e = true) (offered l)
}.

Lemma same_options_forall s s' l :
  same_options s s' → Forall (λ e, sub_matches s e = true) l → Forall (λ e, sub_matches s' e = true) l.
Proof. intros Hs Hl. eapply Forall_impl; [done|]. intros e. cbn. by rewrite (same_options_matches _ _ _ Hs). Qed.

Lemma enqueue_scope s e : sub_scope (enqueue s e).2 = sub_scope s.
Proof.
  unfold enqueue, mark_gap. repeat case_match; try done.
Qed.

Lemma offered_scope st e addresses a s' :
  NoDup addresses → (offer_event st e addresses).1 !! a = Some s' →
  ∃ s, st !! a = Some s ∧ sub_scope s' = sub_scope s.
Proof.
  intros Hnd. rewrite offer_event_lookup by done. case_decide; [|by eauto].
  intros (s & -> & Hs)%fmap_Some. exists s. split; [done|]. case_match; [subst; apply enqueue_scope|by subst].
Qed.

Lemma publish_ok b st ls ts log event :
  bus_ok (MkBusSystem b st ls ts log) →
  let '(b', st', _) := publish b st event in
  bus_ok (MkBusSystem b' st'
    (note_offers st (with_sequence event (take_sequence b).1) (subscriptions b) ls) ts log).
Proof.
  intros [Hnd Hst Hls Hfirst Hkinds Hsubs]. cbn in *. unfold publish.
  set (e := with_sequence event (take_sequence b).1).
  pose proof (offer_event_lookup st e (subscriptions b)) as Hoff.
  pose proof (offered_scope st e (subscriptions b)) as Hscope.
  cbn [take_sequence]. fold (take_sequence b).
  change (with_sequence event (next_sequence b mod 2 ^ 64)) with e.
  destruct (offer_event st e (subscriptions b)) as [st' callbacks]. cbn [fst] in Hoff, Hscope.
  split; cbn.
  - done.
  - intros a Ha. rewrite Hoff by done. rewrite decide_True by done. apply fmap_is_Some. by apply Hst.
  - intros a. rewrite note_offers_dom, <- Hls, Hoff by done. case_decide; [apply fmap_is_Some|done].
  - lia.
  - intros a s' Hs'. destruct (Hscope a s' Hnd Hs') as (s & Hs & ->). by eapply Hkinds.
  - intros Hsmall a s' l' Hs' Hl'. rewrite Hoff in Hs' by done.
    assert (is_Some (st !! a)) as [s Hs] by (case_decide; [by eapply fmap_is_Some, mk_is_Some|by eauto]).
    destruct (proj1 (Hls a) (mk_is_Some _ _ Hs)) as [l Hl].
    rewrite (note_offers_lookup _ _ _ _ _ _ _ Hnd Hs Hl) in Hl'. injection Hl' as <-.
    destruct (Hsubs ltac:(lia) a s l Hs Hl) as [Hok Hm]. rewrite Hs in Hs'. cbn in Hs'.
    assert (sequence e = next_sequence b) as He by (apply take_sequence_small; lia).
    case_decide; [|by injection Hs' as <-; split; [eapply sub_ok_weaken; [done|lia]|]].
    injection Hs' as <-. unfold note_offer. destruct (sub_matches s e) eqn:Em.
    + destruct (enqueue_ok s l _ e Hok) as [Hok' Hsame]; [lia|]. rewrite He in Hok'. split; [done|].
      cbn. eapply same_options_forall; [done|]. apply Forall_app. by repeat constructor.
    + split; [eapply sub_ok_weaken; [done|lia]|done].
Qed.

Lemma enqueue_all_scope s events : sub_scope (enqueue_all s events) = sub_scope s.
Proof.
  revert s. induction events as [|e events IH]; intros s; [done|].
  change (enqueue_all s (e :: events)) with (enqueue_all (enqueue s e).2 events).
  by rewrite IH, enqueue_scope.
Qed.

(** What [add] does, its replay apart. *)
Lemma add_spec b a s provided :
  let '(b', s', transitions, callback) := add b a s provided in
  let '(b1, events) := replay_kinds b s provided (scope_kinds (sub_scope s)) in
  subscriptions b' = subscriptions b ++ [a] ∧ next_sequence b' = next_sequence b1 ∧
  same_bus b b1 (length events) ∧ s' = enqueue_all s events ∧ callback = demand_callback b ∧
  (subscription_refcounts b', transitions) =
    count_kinds (subscription_refcounts b) (scope_kinds (sub_scope s)).
Proof.
  unfold add. pose proof (replay_kinds_spec b s provided (scope_kinds (sub_scope s))) as Hr.
  destruct (replay_kinds _ _ _ _) as [b1 events]. destruct Hr as (Hb & _).
  assert (subscription_refcounts b1 = subscription_refcounts b) as -> by (by rewrite Hb).
  destruct (count_kinds _ _). cbn. split_and!; try done; by rewrite Hb.
Qed.

Lemma subscribe_ok b st ls ts log ts' a s provided id scope options :
  bus_ok (MkBusSystem b st ls ts log) → st !! a = None →
  s = new_subscription id (normalized_scope scope) options →
  let '(b', s', _, _) := add b a s provided in
  bus_ok (MkBusSystem b' (<[a := s']> st)
    (<[a := MkLedger (replay_kinds b s provided (scope_kinds (sub_scope s))).2 []]> ls) ts' log).
Proof.
  intros [Hnd Hst Hls Hfirst Hkinds Hsubs] Ha Hs. cbn in *. pose proof (add_spec b a s provided) as Hadd.
  pose proof (replay_kinds_spec b s provided (scope_kinds (sub_scope s))) as Hr.
  destruct (add b a s provided) as [[[b' s'] transitions] callback].
  destruct (replay_kinds _ _ _ _) as [b1 events]. cbn [snd].
  destruct Hadd as (Hs1 & Hn1 & _ & Hs' & _), Hr as (Hb & Hnum & Hm).
  assert (next_sequence b1 = next_sequence b + N.of_nat (length events))%N as Hnext by (by rewrite Hb).
  split; cbn; rewrite ?Hs1, ?Hn1, ?Hnext.
  - apply NoDup_app. split_and!; [done| |apply NoDup_singleton].
    intros x Hx ->%list_elem_of_singleton. apply Hst in Hx as [? ?]. congruence.
  - intros x [Hx|Hx%list_elem_of_singleton]%elem_of_app; apply lookup_insert_is_Some';
      [right; by apply Hst|by left].
  - intros x. rewrite !lookup_insert_is_Some'. by rewrite Hls.
  - lia.
  - intros x t. rewrite lookup_insert_Some. intros [[<- <-]|[_ Ht]]; [|by eapply Hkinds].
    rewrite Hs', enqueue_all_scope, Hs. apply normalized_kinds_nodup.
  - intros Hsmall x t l Ht Hl. destruct (decide (a = x)) as [<-|Hne].
    + rewrite lookup_insert_eq in Ht. rewrite lookup_insert_eq in Hl. injection Ht as <-. injection Hl as <-. rewrite Hs'.
      assert (sub_ok s (MkLedger [] []) (next_sequence b)) as Hok
        by (rewrite Hs; by apply new_subscription_ok).
      destruct (enqueue_all_ok s _ _ events Hok (Hnum ltac:(lia))) as [Hok' Hsame].
      split; [done|]. cbn. by eapply same_options_forall.
    + rewrite lookup_insert_ne in Ht by done. rewrite lookup_insert_ne in Hl by done.
      destruct (Hsubs ltac:(lia) x t l Ht Hl) as [Hok Hall]. split; [|done].
      eapply sub_ok_weaken; [done|lia].
Qed.

Lemma set_notify_ok s on_data l bound : sub_ok s l bound → sub_ok (set_notify s on_data) l bound.
Proof. intros [[] []]. split; by split. Qed.

Lemma erase_address_elem a x l : x ∈ erase_address a l → x ∈ l.
Proof.
  induction l as [|y l IH]; cbn; [done|]. case_decide; [by right|].
  rewrite !elem_of_cons. naive_solver.
Qed.

Lemma erase_address_nodup a l : NoDup l → NoDup (erase_address a l).
Proof.
  induction 1 as [|y l Hy Hl IH]; cbn; [by constructor|]. case_decide; [done|].
  constructor; [|done]. intros Hin%erase_address_elem. done.
Qed.

Lemma remove_spec b a s :
  let '(b', transitions, callback) := remove b a s in
  subscriptions b' = erase_address a (subscriptions b) ∧ next_sequence b' = next_sequence b ∧
  (a ∈ subscriptions b → callback = demand_callback b ∧
    (subscription_refcounts b', transitions) =
      discount_kinds (subscription_refcounts b) (scope_kinds (sub_scope s))) ∧
  (a ∉ subscriptions b → b' = b ∧ transitions = []).
Proof.
  unfold remove. case_decide as Ha.
  - destruct (discount_kinds _ _). cbn. naive_solver.
  - split_and!; [|done|done|done]. symmetry. clear -Ha.
    induction (subscriptions b) as [|x l IH]; [done|]. cbn. rewrite elem_of_cons in Ha.
    rewrite decide_False by naive_solver. f_equal. naive_solver.
Qed.

Lemma note_pop_other a item ls x : x ≠ a → note_pop a item ls !! x = ls !! x.
Proof. intros Hne. unfold note_pop. destruct item, (ls !! a); [by rewrite lookup_insert_ne|done..]. Qed.

Lemma note_pop_this a item ls l :
  ls !! a = Some l →
  note_pop a item ls !! a =
    Some (MkLedger (offered l) (popped l ++ match item with Some x => [x] | None => [] end)).
Proof.
  intros Hl. unfold note_pop. rewrite Hl. destruct item; [by rewrite lookup_insert_eq|].
  rewrite app_nil_r, Hl. by destruct l.
Qed.

Lemma try_pop_scope s item s' : try_pop_item s = (item, s') → sub_scope s' = sub_scope s.
Proof. unfold try_pop_item. case_decide; by intros [= _ <-]. Qed.

Lemma pop_step_ok b st ls ts log a s item s' :
  bus_ok (MkBusSystem b st ls ts log) → st !! a = Some s → try_pop_item s = (item, s') →
  bus_ok (MkBusSystem b (<[a := s']> st) (note_pop a item ls) ts log).
Proof.
  intros [Hnd Hst Hls Hfirst Hkinds Hsubs] Hs Hpop. cbn in *.
  destruct (proj1 (Hls a) (mk_is_Some _ _ Hs)) as [l Hl]. split; cbn; try done.
  - intros x Hx. apply lookup_insert_is_Some'. right. by apply Hst.
  - intros x. rewrite lookup_insert_is_Some'. destruct (decide (x = a)) as [->|Hne].
    + rewrite (note_pop_this _ _ _ _ Hl). split; [by eexists|by left].
    + rewrite note_pop_other, <- Hls by done. naive_solver.
  - intros x t. rewrite lookup_insert_Some.
    intros [[<- <-]|[_ Ht]]; [rewrite (try_pop_scope _ _ _ Hpop)|]; eauto.
  - intros Hsmall x t l' Ht Hl'. destruct (decide (x = a)) as [->|Hne].
    + rewrite lookup_insert_eq in Ht. injection Ht as <-.
      rewrite (note_pop_this _ _ _ _ Hl) in Hl'. injection Hl' as <-.
      destruct (Hsubs Hsmall a s l Hs Hl) as [Hok Hall].
      destruct (pop_ok s l _ item s' Hok Hpop) as [Hok' Hsame]. split; [done|]. by eapply same_options_forall.
    + rewrite lookup_insert_ne in Ht by done. rewrite note_pop_other in Hl' by done.
      exact (Hsubs Hsmall x t l' Ht Hl').
Qed.

Lemma bus_step_ok sys sys' : bus_ok sys → bus_step sys sys' → bus_ok sys'.
Proof.
  intros Hok Hstep. destruct Hstep as [b st ls ts log event b' st' callbacks Hp
    |b st ls ts log a scope options value provided s b' s' transitions callback Ha Hs Hadd
    |b st ls ts log a s b' transitions callback Hs Hrem|b st ls ts log a s item s' Hs Hpop
    |b st ls ts log a s on_data Hs|b st ls ts log k provider|b st ls ts log callback| |].
  - pose proof (publish_ok _ _ _ _ _ event Hok) as H. by rewrite Hp in H.
  - pose proof (subscribe_ok _ _ _ _ _ (start_telling callback transitions ts) _ _ provided _ _ _ Hok Ha Hs) as H.
    by rewrite Hadd in H.
  - pose proof (remove_spec b a s) as H. rewrite Hrem in H. destruct H as (Hsub & Hn & _).
    destruct Hok as [Hnd Hst Hls Hfirst Hkinds Hsubs]. cbn in *.
    split; cbn; rewrite ?Hsub, ?Hn; [by apply erase_address_nodup| |done..].
    intros x Hx%erase_address_elem. by apply Hst.
  - by eapply pop_step_ok.
  - destruct Hok as [Hnd Hst Hls Hfirst Hkinds Hsubs]. cbn in *. split; cbn; try done.
    + intros x Hx. apply lookup_insert_is_Some'. right. by apply Hst.
    + intros x. rewrite lookup_insert_is_Some', <- Hls. split; [|by right]. intros [<-|]; [by eexists|done].
    + intros x t. rewrite lookup_insert_Some. intros [[<- <-]|[_ Ht]]; [exact (Hkinds a s Hs)|eauto].
    + intros Hsmall x t l. rewrite lookup_insert_Some. intros [[<- <-]|[_ Ht]] Hl; [|exact (Hsubs Hsmall x t l Ht Hl)].
      destruct (Hsubs Hsmall a s l Hs Hl). split; [by apply set_notify_ok|done].
  - destruct Hok. by destruct provider; split.
  - destruct Hok. by split.
  - destruct Hok. by split.
  - destruct Hok. by split.
Qed.

Lemma bus_reachable_ok sys : bus_reachable sys → bus_ok sys.
Proof.
  intros H. assert (bus_ok empty_system) as H0.
  { split; cbn; try done; [apply NoDup_nil_2|by intros a ?%elem_of_nil|intros a; by rewrite !lookup_empty]. }
  revert H0. unfold bus_reachable in H. induction H as [|x y z Hxy _ IH]; [done|].
  intros Hx. apply IH. by eapply bus_step_ok.
Qed.

(** *** Systems built by calls *)

Definition call_publish (sys : BusSystem) (event : Event) : BusSystem :=
  let '(b, st, _) := publish (bus sys) (store sys) event in
  MkBusSystem b st
    (note_offers (store sys) (with_sequence event (take_sequence (bus sys)).1)
       (subscriptions (bus sys)) (ledgers sys)) (telling sys) (told sys).

Definition call_subscribe (sys : BusSystem) (a : Address) (scope : SubscriptionScope)
    (options : QueueOptions) : BusSystem :=
  let s := new_subscription (make_subscription_id a) (normalized_scope scope) options in
  let '(b, s', transitions, callback) := add (bus sys) a s (λ _, []) in
  MkBusSystem b (<[a := s']> (store sys))
    (<[a := MkLedger (replay_kinds (bus sys) s (λ _, []) (scope_kinds (sub_scope s))).2 []]> (ledgers sys))
    (start_telling callback transitions (telling sys)) (told sys).

Definition call_unsubscribe (sys : BusSystem) (a : Address) : BusSystem :=
  match store sys !! a with
  | Some s =>
    let '(b, transitions, callback) := remove (bus sys) a s in
    MkBusSystem b (store sys) (ledgers sys) (start_telling callback transitions (telling sys)) (told sys)
  | None => sys
  end.

Definition call_pop (sys : BusSystem) (a : Address) : BusSystem :=
  match store sys !! a with
  | Some s =>
    let '(item, s) := try_pop_item s in
    MkBusSystem (bus sys) (<[a := s]> (store sys)) (note_pop a item (ledgers sys)) (telling sys) (told sys)
  | None => sys
  end.

Lemma reach_publish sys event : bus_reachable sys → bus_reachable (call_publish sys event).
Proof.
  intros H. unfold call_publish. destruct (publish _ _ _) as [[b st] callbacks] eqn:E.
  eapply rtc_r; [done|]. destruct sys. by eapply step_publish_event.
Qed.

Lemma reach_subscribe sys a scope options :
  bus_reachable sys → store sys !! a = None → bus_reachable (call_subscribe sys a scope options).
Proof.
  intros H Ha. unfold call_subscribe. destruct (add _ _ _ _) as [[[b s'] transitions] callback] eqn:E.
  eapply rtc_r; [done|]. destruct sys. by eapply step_subscribe.
Qed.

Lemma reach_unsubscribe sys a : bus_reachable sys → bus_reachable (call_unsubscribe sys a).
Proof.
  intros H. unfold call_unsubscribe. destruct (store sys !! a) as [s|] eqn:Es; [|done].
  destruct (remove _ _ _) as [[b transitions] callback] eqn:E.
  eapply rtc_r; [done|]. destruct sys. by eapply step_unsubscribe.
Qed.

Lemma reach_pop sys a : bus_reachable sys → bus_reachable (call_pop sys a).
Proof.
  intros H. unfold call_pop. destruct (store sys !! a) as [s|] eqn:Es; [|done].
  destruct (try_pop_item s) as [item s'] eqn:E.
  eapply rtc_r; [done|]. destruct sys. by eapply step_pop.
Qed.

(** C16: However the calls of all threads follow each other, as long as the 64-bit
    sequence number has not wrapped around: what a subscription gave its consumer and
    what it still holds are events it was offered, all of them in its scope, in the
    order of their numbers.  Unless it says that it lags, every event it was offered is
    among them, or a later motion among them stands for a motion.  And if it was given
    any room, every event it was offered that must not be dropped is among them or is
    covered by a gap marker that stands in its place and names a number below it, with
    the request to resynchronise set.  (Without room it hands out nothing, and says that
    it lags as soon as it was offered an event.) *)
Theorem nothing_lost_silently (sys : BusSystem) (a : Address) (s : SubscriptionState) (l : Ledger)
    (Hreach : bus_reachable sys) (Hsmall : (next_sequence (bus sys) <= 2 ^ 64)%N)
    (Hs : store sys !! a = Some s) (Hl : ledgers sys !! a = Some l) :
  let items := popped l ++ contents s in
  StronglySorted item_before items ∧
  (∀ e, EventItem e ∈ items → e ∈ offered l) ∧
  (∀ e, e ∈ offered l → sub_matches s e = true) ∧
  (∀ code m, GapItem code m ∈ items → needs_resync s = true) ∧
  (lagging s = false → ∀ e, e ∈ offered l → EventItem e ∈ items ∨ superseded items e) ∧
  (length (buffer s) ≠ 0 → ∀ e, e ∈ offered l → must_keep (overflow_policy s) e = true →
    EventItem e ∈ items ∨ covered items e) ∧
  (length (buffer s) = 0 → items = [] ∧ (offered l ≠ [] → lagging s = true)).
Proof.
  destruct (bo_subs _ (bus_reachable_ok _ Hreach) Hsmall a s l Hs Hl) as [[_ Hok] Hm].
  destruct Hok as [_ Hsort _ Hf _ _ _ Hk Hr Ht H0]. intros items. cbn in Hsort, Hf, Hk, Hr, Ht, H0.
  assert (lagging s = false → ∀ e, e ∈ offered l → EventItem e ∈ items ∨ superseded items e) as Htold
    by (intros E; destruct Ht as [Ht|Ht]; [congruence|exact Ht]).
  split_and!; [done|done|by apply Forall_forall|done..|].
  intros E. specialize (H0 E). split; [exact H0|]. intros Hne.
  destruct (lagging s); [done|]. destruct (offered l) as [|e rest]; [done|].
  destruct (Htold eq_refl e ltac:(by left)) as [H|(_ & x & H & _)];
    unfold items in H; unfold all_items in H0; cbn in H0; rewrite H0 in H; by apply elem_of_nil in H.
Qed.

(** A queue for one event that loses the second of three: the first is popped in between. *)
Definition plain_event (k : EventKind) : Event :=
  MkEvent (SpecFloat.S754_zero false) 0 k (event_category_of k) (InputKey 0 "a") EventOrigin.Physical
    None None None None.

Definition key_scope : SubscriptionScope :=
  MkScope [EventKind.KeyDown; EventKind.KeyUp] (MkFilter [] []).

Definition lossy_system : BusSystem :=
  let sys := call_subscribe empty_system 7 key_scope (MkQueueOptions 1 QueueOverflowPolicy.NeverDrop) in
  let sys := call_publish sys (plain_event EventKind.KeyDown) in
  let sys := call_pop sys 7 in
  let sys := call_publish sys (plain_event EventKind.KeyUp) in
  let sys := call_publish sys (plain_event EventKind.KeyDown) in call_pop sys 7.

Lemma lossy_system_reachable : bus_reachable lossy_system.
Proof.
  apply reach_pop, reach_publish, reach_publish, reach_pop, reach_publish, reach_subscribe; [|done].
  apply rtc_refl.
Qed.

Lemma nothing_lost_silently_witness :
  ∃ s l, store lossy_system !! 7%N = Some s ∧ ledgers lossy_system !! 7%N = Some l ∧
  popped l = [EventItem (with_sequence (plain_event EventKind.KeyDown) 1);
              GapItem ErrorCode.QueueGap 1] ∧ needs_resync s = true ∧
  covered (popped l ++ contents s) (with_sequence (plain_event EventKind.KeyUp) 2).
Proof.
  destruct (store lossy_system !! 7%N) as [s|] eqn:Hs; [|vm_compute in Hs; discriminate].
  destruct (ledgers lossy_system !! 7%N) as [l|] eqn:Hl; [|vm_compute in Hl; discriminate].
  assert ((next_sequence (bus lossy_system) <= 2 ^ 64)%N) as Hsmall by (vm_compute; discriminate).
  pose proof (nothing_lost_silently lossy_system 7 s l lossy_system_reachable Hsmall Hs Hl)
    as (_ & _ & _ & _ & _ & Hkept & _).
  vm_compute in Hs. vm_compute in Hl. injection Hs as <-. injection Hl as <-.
  eexists _, _. do 2 (split; [reflexivity|]). split; [reflexivity|]. split; [reflexivity|].
  destruct (Hkept ltac:(discriminate) (with_sequence (plain_event EventKind.KeyUp) 2)) as [Hin|Hc]; [| | |exact Hc].
  - vm_compute. right. left.
  - reflexivity.
  - exfalso. vm_compute in Hin. inversion Hin as [|? ? ? Hin']. inversion Hin' as [|? ? ? Hin'']. inversion Hin''.
Defined.
