(* ===== verification/EventDemand.v ===== *)
(** The demand for a kind of event: it is counted exactly, and its changes are told, but
    two threads may overtake each other between unlocking and calling. *)

From S2P Require Import Prelude Errors Identity Event EventBus EventQueue EventBusTheorems.

Local Open Scope nat_scope.
Local Open Scope list_scope.

(** ** Demand *)

Definition wants (st : Store) (k : EventKind) (a : Address) : Prop :=
  ∃ s, st !! a = Some s ∧ k ∈ scope_kinds (sub_scope s).

#[export] Instance wants_dec st k a : Decision (wants st k a).
Proof.
  unfold wants. destruct (st !! a) as [s|]; [|right; by intros (s & [=] & _)].
  destruct (decide (k ∈ scope_kinds (sub_scope s))); [left; by eauto|right].
  intros (s' & [= ->] & Hk). done.
Defined.

(** How many subscriptions of the bus list a kind. *)
Definition demand (st : Store) (l : list Address) (k : EventKind) : nat := length (filter (wants st k) l).

Definition counts_ok (st : Store) (b : EventBusState) : Prop :=
  ∀ k, subscription_refcounts b !! k =
    match demand st (subscriptions b) k with 0 => None | S n => Some (N.of_nat (S n)) end.

Lemma count_kinds_spec counts kinds :
  NoDup kinds →
  let '(counts', transitions) := count_kinds counts kinds in
  (∀ k, counts' !! k =
    if decide (k ∈ kinds) then Some (default 0 (counts !! k) + 1)%N else counts !! k) ∧
  (∀ k up, (k, up) ∈ transitions ↔ up = true ∧ k ∈ kinds ∧ default 0%N (counts !! k) = 0%N).
Proof.
  revert counts. induction kinds as [|x kinds IH]; intros counts Hnd; cbn [count_kinds].
  - split; [intros k; by rewrite decide_False by set_solver|]. intros k up. set_solver.
  - apply NoDup_cons in Hnd as [Hx Hnd]. specialize (IH (<[x := (default 0 (counts !! x) + 1)%N]> counts) Hnd).
    destruct (count_kinds _ kinds) as [counts' transitions]. destruct IH as [Hc Ht]. split.
    + intros k. rewrite Hc. destruct (decide (k = x)) as [->|Hne].
      * rewrite decide_False, lookup_insert_eq by done. by rewrite decide_True by (by left).
      * rewrite lookup_insert_ne by done.
        by rewrite (decide_ext (k ∈ kinds) (k ∈ x :: kinds)) by set_solver.
    + intros k up. rewrite elem_of_app, Ht, elem_of_cons. destruct (decide (k = x)) as [->|Hne].
      * rewrite lookup_insert_eq. case_decide; set_solver.
      * rewrite lookup_insert_ne by done. case_decide; set_solver.
Qed.

Lemma discount_kinds_spec counts kinds :
  NoDup kinds → (∀ k, counts !! k ≠ Some 0%N) →
  let '(counts', transitions) := discount_kinds counts kinds in
  (∀ k, counts' !! k =
    if decide (k ∈ kinds) then
      n ← counts !! k; if decide (n = 1%N) then None else Some (n - 1)%N
    else counts !! k) ∧
  (∀ k up, (k, up) ∈ transitions ↔ up = false ∧ k ∈ kinds ∧ counts !! k = Some 1%N).
Proof.
  revert counts. induction kinds as [|x kinds IH]; intros counts Hnd Hz; cbn [discount_kinds].
  - split; [intros k; by rewrite decide_False by set_solver|]. intros k up. set_solver.
  - apply NoDup_cons in Hnd as [Hx Hnd]. destruct (counts !! x) as [n|] eqn:En.
    + assert (n ≠ 0%N) as Hn by (intros ->; by apply (Hz x)). rewrite (decide_False (P := n = 0%N)) by done.
      case_decide as H1.
      * assert (n = 1%N) as -> by lia. specialize (IH (delete x counts) Hnd).
        destruct (discount_kinds _ kinds) as [counts' transitions]. destruct IH as [Hc Ht].
        { intros k. destruct (decide (k = x)) as [->|]; [by rewrite lookup_delete_eq|by rewrite lookup_delete_ne]. }
        split.
        -- intros k. rewrite Hc. destruct (decide (k = x)) as [->|Hne].
           ++ rewrite decide_False, lookup_delete_eq by done. rewrite decide_True by (by left). by rewrite En.
           ++ rewrite lookup_delete_ne by done.
              by rewrite (decide_ext (k ∈ kinds) (k ∈ x :: kinds)) by set_solver.
        -- intros k up. rewrite elem_of_cons, Ht, elem_of_cons. destruct (decide (k = x)) as [->|Hne].
           ++ rewrite lookup_delete_eq, En. naive_solver.
           ++ rewrite lookup_delete_ne by done. naive_solver.
      * specialize (IH (<[x := (n - 1)%N]> counts) Hnd).
        destruct (discount_kinds _ kinds) as [counts' transitions]. destruct IH as [Hc Ht].
        { intros k. destruct (decide (k = x)) as [->|]; [rewrite lookup_insert_eq; congruence|].
          by rewrite lookup_insert_ne. }
        split.
        -- intros k. rewrite Hc. destruct (decide (k = x)) as [->|Hne].
           ++ rewrite decide_False, lookup_insert_eq by done. rewrite decide_True by (by left). rewrite En. cbn.
              rewrite decide_False; [done|lia].
           ++ rewrite lookup_insert_ne by done.
              by rewrite (decide_ext (k ∈ kinds) (k ∈ x :: kinds)) by set_solver.
        -- intros k up. rewrite Ht, elem_of_cons. destruct (decide (k = x)) as [->|Hne].
           ++ rewrite En. split; [naive_solver|]. intros (_ & _ & [= ->]). done.
           ++ rewrite lookup_insert_ne by done. naive_solver.
    + specialize (IH counts Hnd Hz). destruct (discount_kinds counts kinds) as [counts' transitions].
      destruct IH as [Hc Ht]. split.
      * intros k. rewrite Hc. destruct (decide (k = x)) as [->|Hne].
        -- rewrite decide_False by done. rewrite decide_True by (by left). by rewrite En.
        -- by rewrite (decide_ext (k ∈ kinds) (k ∈ x :: kinds)) by set_solver.
      * intros k up. rewrite Ht, elem_of_cons. destruct (decide (k = x)) as [->|Hne]; [|naive_solver].
        rewrite En. naive_solver.
Qed.

Lemma demand_app st l a k :
  demand st (l ++ [a]) k = demand st l k + (if decide (wants st k a) then 1 else 0).
Proof.
  unfold demand. rewrite filter_app, length_app, filter_cons, filter_nil. by case_decide.
Qed.

Lemma demand_erase st l a k :
  a ∈ l → demand st l k = demand st (erase_address a l) k + (if decide (wants st k a) then 1 else 0).
Proof.
  intros Ha. induction l as [|x l IH]; [by apply elem_of_nil in Ha|]. cbn [erase_address].
  destruct (decide (x = a)) as [->|Hne].
  - unfold demand. rewrite filter_cons. case_decide; cbn; lia.
  - rewrite elem_of_cons in Ha. unfold demand in *. rewrite !filter_cons.
    specialize (IH ltac:(naive_solver)). destruct (decide (wants st k x)); cbn; lia.
Qed.

Lemma demand_ext st st' l k :
  (∀ a, a ∈ l → wants st' k a ↔ wants st k a) → demand st' l k = demand st l k.
Proof.
  intros Hw. unfold demand. induction l as [|a l IH]; [done|]. rewrite !filter_cons.
  assert (length (filter (wants st' k) l) = length (filter (wants st k) l)) as Hl
    by (apply IH; intros; apply Hw; by right).
  specialize (Hw a ltac:(by left)). repeat case_decide; cbn; naive_solver.
Qed.

(** Only a subscription's queue and callback change after it was made. *)
Definition same_scopes (st st' : Store) : Prop :=
  ∀ a, sub_scope <$> st' !! a = sub_scope <$> st !! a.

Lemma same_scopes_wants st st' k a : same_scopes st st' → wants st' k a ↔ wants st k a.
Proof.
  intros Hs. specialize (Hs a). unfold wants.
  destruct (st' !! a) as [t'|], (st !! a) as [t|]; cbn in Hs; simplify_eq; [|naive_solver].
  split; intros (u & [= <-] & Hk); eexists; (split; [done|congruence]).
Qed.

Lemma same_scopes_insert st a s s' :
  st !! a = Some s → sub_scope s' = sub_scope s → same_scopes st (<[a := s']> st).
Proof.
  intros Ha Hs x. destruct (decide (x = a)) as [->|]; [|by rewrite lookup_insert_ne].
  rewrite lookup_insert_eq, Ha. cbn. by rewrite Hs.
Qed.

Lemma same_scopes_counts st st' b b' :
  same_scopes st st' → subscriptions b' = subscriptions b →
  subscription_refcounts b' = subscription_refcounts b → counts_ok st b → counts_ok st' b'.
Proof.
  intros Hs Hl Hc Hok k. rewrite Hl, Hc, (demand_ext st st'); [apply Hok|].
  intros a _. by apply same_scopes_wants.
Qed.

Lemma publish_scopes b st event :
  NoDup (subscriptions b) → same_scopes st (publish b st event).1.2.
Proof.
  intros Hnd a. unfold publish. cbn.
  pose proof (offer_event_lookup st (with_sequence event (next_sequence b mod 2 ^ 64)) _ a Hnd) as Hoff.
  destruct (offer_event _ _ _) as [st' callbacks]. cbn in *. rewrite Hoff. case_decide; [|done].
  destruct (st !! a); [|done]. cbn. case_match; [by rewrite enqueue_scope|done].
Qed.

Lemma counts_default st b k :
  counts_ok st b → default 0%N (subscription_refcounts b !! k) = N.of_nat (demand st (subscriptions b) k).
Proof. intros Hc. rewrite Hc. by case_match. Qed.

(** Subscribing and unsubscribing keep the counts. *)
Lemma add_counts st b a s provided :
  counts_ok st b → (∀ x, x ∈ subscriptions b → is_Some (st !! x)) → st !! a = None →
  NoDup (scope_kinds (sub_scope s)) →
  let '(b', s', _, _) := add b a s provided in counts_ok (<[a := s']> st) b'.
Proof.
  intros Hc Hst Ha Hnd. pose proof (add_spec b a s provided) as Hadd.
  destruct (add b a s provided) as [[[b' s'] transitions] callback].
  destruct (replay_kinds _ _ _ _) as [b1 events]. destruct Hadd as (Hsubs & _ & _ & Hs' & _ & Hcount).
  pose proof (count_kinds_spec (subscription_refcounts b) _ Hnd) as Hspec. rewrite <- Hcount in Hspec.
  destruct Hspec as [Hspec _]. intros k.
  assert (wants (<[a := s']> st) k a ↔ k ∈ scope_kinds (sub_scope s)) as Hwants.
  { unfold wants. rewrite lookup_insert_eq, Hs'. split.
    - intros (t & [= <-] & Hk). by rewrite enqueue_all_scope in Hk.
    - intros Hk. eexists. split; [done|]. by rewrite enqueue_all_scope. }
  rewrite Hsubs, demand_app, Hspec, (demand_ext st).
  - rewrite (decide_ext _ _ _ _ Hwants). case_decide.
    + rewrite counts_default with (st := st) by done. rewrite Nat.add_1_r. f_equal. lia.
    + by rewrite Nat.add_0_r.
  - intros x Hx. unfold wants. rewrite lookup_insert_ne; [done|].
    intros <-. destruct (Hst a Hx) as [? ?]. congruence.
Qed.

Lemma remove_counts st b a s :
  counts_ok st b → st !! a = Some s → NoDup (scope_kinds (sub_scope s)) →
  let '(b', _, _) := remove b a s in counts_ok st b'.
Proof.
  intros Hc Ha Hnd. pose proof (remove_spec b a s) as Hrem.
  destruct (remove b a s) as [[b' transitions] callback]. destruct Hrem as (Hsubs & _ & Hin & Hout).
  destruct (decide (a ∈ subscriptions b)) as [Hmem|Hmem]; [|by destruct (Hout Hmem) as [-> _]].
  destruct (Hin Hmem) as [_ Hcount].
  assert (∀ k, subscription_refcounts b !! k ≠ Some 0%N) as Hz by (intros k; rewrite Hc; by case_match).
  pose proof (discount_kinds_spec _ _ Hnd Hz) as Hspec. rewrite <- Hcount in Hspec.
  destruct Hspec as [Hspec _]. intros k.
  assert (wants st k a ↔ k ∈ scope_kinds (sub_scope s)) as Hwants by (unfold wants; rewrite Ha; naive_solver).
  pose proof (demand_erase st (subscriptions b) a k Hmem) as Herase.
  rewrite (decide_ext _ _ _ _ Hwants) in Herase.
  rewrite Hsubs, Hspec, Hc. destruct (decide (k ∈ scope_kinds (sub_scope s))) as [Hk|Hk].
  - rewrite Herase, Nat.add_1_r. cbn. case_decide as H1; repeat case_match; try done; try lia.
    f_equal. lia.
  - by rewrite Herase, Nat.add_0_r.
Qed.

Lemma bus_step_counts sys sys' :
  bus_ok sys → counts_ok (store sys) (bus sys) → bus_step sys sys' → counts_ok (store sys') (bus sys').
Proof.
  intros [Hnd Hst Hls Hfirst Hkinds _] Hc Hstep. destruct Hstep as [b st ls ts log event b' st' callbacks Hp
    |b st ls ts log a scope options value provided s b' s' transitions callback Ha Hs Hadd
    |b st ls ts log a s b' transitions callback Hs Hrem|b st ls ts log a s item s' Hs Hpop
    |b st ls ts log a s on_data Hs|b st ls ts log k provider|b st ls ts log callback| |]; cbn in *.
  - pose proof (publish_scopes b st event Hnd) as Hscopes. unfold publish in *. cbn in Hp, Hscopes.
    destruct (offer_event _ _ _). cbn in Hscopes. injection Hp as <- <- <-.
    by eapply same_scopes_counts.
  - pose proof (add_counts st b a s provided Hc Hst Ha) as H. rewrite Hadd in H. apply H.
    rewrite Hs. apply normalized_kinds_nodup.
  - pose proof (remove_counts st b a s Hc Hs (Hkinds a s Hs)) as H. by rewrite Hrem in H.
  - eapply same_scopes_counts; [|done..|done]. eapply same_scopes_insert; [done|]. by eapply try_pop_scope.
  - eapply same_scopes_counts; [|done..|done]. by eapply same_scopes_insert.
  - by destruct provider.
  - done.
  - done.
  - done.
Qed.

Lemma bus_reachable_counts sys : bus_reachable sys → counts_ok (store sys) (bus sys).
Proof.
  intros H. assert (∀ x, rtc bus_step x sys → bus_ok x → counts_ok (store x) (bus x) →
    counts_ok (store sys) (bus sys)) as Hgen.
  { clear H. intros x. induction 1 as [|x y z Hxy _ IH]; [done|]. intros Hx Hc.
    apply IH; [by eapply bus_step_ok|by eapply bus_step_counts]. }
  apply (Hgen empty_system H); [apply bus_reachable_ok, rtc_refl|]. intros k. done.
Qed.

(** *** What is told *)

Lemma refcount_demand sys k :
  bus_reachable sys →
  subscription_refcount (bus sys) k = N.of_nat (demand (store sys) (subscriptions (bus sys)) k).
Proof. intros H. by apply counts_default, bus_reachable_counts. Qed.

Lemma add_transitions b a s provided :
  NoDup (scope_kinds (sub_scope s)) →
  let '(b', s', transitions, callback) := add b a s provided in
  ∀ k up, (k, up) ∈ transitions ↔
    up = true ∧ subscription_refcount b k = 0%N ∧ subscription_refcount b' k ≠ 0%N.
Proof.
  intros Hnd. pose proof (add_spec b a s provided) as Hadd.
  destruct (add b a s provided) as [[[b' s'] transitions] callback].
  destruct (replay_kinds _ _ _ _) as [b1 events]. destruct Hadd as (_ & _ & _ & _ & _ & Hcount).
  pose proof (count_kinds_spec (subscription_refcounts b) _ Hnd) as Hspec. rewrite <- Hcount in Hspec.
  destruct Hspec as [Hc Ht]. intros k up. rewrite Ht. unfold subscription_refcount. rewrite Hc.
  case_decide; cbn; [|naive_solver]. split; intros (? & ? & ?); split_and!; try done; lia.
Qed.

Lemma remove_transitions b a s :
  (∀ k, subscription_refcounts b !! k ≠ Some 0%N) → NoDup (scope_kinds (sub_scope s)) →
  let '(b', transitions, callback) := remove b a s in
  ∀ k up, (k, up) ∈ transitions ↔
    up = false ∧ subscription_refcount b k ≠ 0%N ∧ subscription_refcount b' k = 0%N.
Proof.
  intros Hz Hnd. pose proof (remove_spec b a s) as Hrem.
  destruct (remove b a s) as [[b' transitions] callback]. destruct Hrem as (_ & _ & Hin & Hout).
  destruct (decide (a ∈ subscriptions b)) as [Hmem|Hmem].
  - destruct (Hin Hmem) as [_ Hcount].
    pose proof (discount_kinds_spec _ _ Hnd Hz) as Hspec. rewrite <- Hcount in Hspec.
    destruct Hspec as [Hc Ht]. intros k up. rewrite Ht. unfold subscription_refcount. rewrite Hc.
    specialize (Hz k). destruct (subscription_refcounts b !! k) as [n|]; cbn; repeat case_decide; cbn;
      subst; split; intros (? & ? & ?); simplify_eq; try done; lia.
  - destruct (Hout Hmem) as [-> ->]. intros k up. split; [by intros ?%elem_of_nil|]. naive_solver.
Qed.

(** C18: In every state the threads can reach, the reference count of a kind of event is
    the number of subscriptions on the bus that list it; subscribing tells the demand
    callback exactly the kinds whose demand starts, and unsubscribing exactly those
    whose demand ends. *)
Theorem demand_is_counted (sys : BusSystem) (Hreach : bus_reachable sys) :
  (∀ k, subscription_refcount (bus sys) k =
    N.of_nat (demand (store sys) (subscriptions (bus sys)) k)) ∧
  (∀ a id scope options provided,
    let '(b', _, transitions, _) :=
      add (bus sys) a (new_subscription id (normalized_scope scope) options) provided in
    ∀ k up, (k, up) ∈ transitions ↔
      up = true ∧ subscription_refcount (bus sys) k = 0%N ∧ subscription_refcount b' k ≠ 0%N) ∧
  (∀ a s, store sys !! a = Some s →
    let '(b', transitions, _) := remove (bus sys) a s in
    ∀ k up, (k, up) ∈ transitions ↔
      up = false ∧ subscription_refcount (bus sys) k ≠ 0%N ∧ subscription_refcount b' k = 0%N).
Proof.
  split_and!.
  - intros k. by apply refcount_demand.
  - intros a id scope options provided. apply add_transitions, normalized_kinds_nodup.
  - intros a s Hs. apply remove_transitions; [|by eapply (bo_kinds _ (bus_reachable_ok _ Hreach))].
    intros k. rewrite (bus_reachable_counts _ Hreach k). by case_match.
Qed.

(** Two subscriptions, one of them gone again. *)
Definition one_left : BusSystem :=
  call_unsubscribe (call_subscribe (call_subscribe empty_system 1 key_scope default_options) 2
    (MkScope [EventKind.KeyUp] (MkFilter [] [])) default_options) 1.

Lemma one_left_reachable : bus_reachable one_left.
Proof.
  apply reach_unsubscribe, reach_subscribe; [apply reach_subscribe; [apply rtc_refl|done]|by vm_compute].
Qed.

Lemma demand_is_counted_witness :
  subscription_refcount (bus one_left) EventKind.KeyUp = 1%N ∧
  subscription_refcount (bus one_left) EventKind.KeyDown = 0%N ∧
  demand (store one_left) (subscriptions (bus one_left)) EventKind.KeyUp = 1.
Proof.
  destruct (demand_is_counted one_left one_left_reachable) as [Hcount _].
  rewrite !Hcount. vm_compute. done.
Defined.

(** *** Telling late *)

Definition call_tell (sys : BusSystem) (i : nat) : BusSystem :=
  match telling sys !! i with
  | Some (c, t :: transitions) =>
    MkBusSystem (bus sys) (store sys) (ledgers sys) (<[i := (c, transitions)]> (telling sys))
      (told sys ++ [(c, t)])
  | Some (c, []) =>
    MkBusSystem (bus sys) (store sys) (ledgers sys) (delete i (telling sys)) (told sys)
  | None => sys
  end.

Lemma reach_tell sys i : bus_reachable sys → bus_reachable (call_tell sys i).
Proof.
  intros H. unfold call_tell. destruct (telling sys !! i) as [[c transitions]|] eqn:E; [|done].
  eapply rtc_r; [done|]. destruct sys as [b st ls ts log]. cbn in *.
  apply list_elem_of_split_length in E as (ts1 & ts2 & -> & ->). destruct transitions as [|t transitions].
  - rewrite delete_middle. apply step_told.
  - replace (length ts1) with (length ts1 + 0) by lia. rewrite insert_app_r. apply step_tell.
Qed.

Definition call_set_demand (sys : BusSystem) (callback : option Callback) : BusSystem :=
  MkBusSystem (set_demand_callback (bus sys) callback) (store sys) (ledgers sys) (telling sys) (told sys).

Lemma reach_set_demand sys callback : bus_reachable sys → bus_reachable (call_set_demand sys callback).
Proof. intros H. eapply rtc_r; [done|]. destruct sys. apply step_set_demand. Qed.

(** One thread subscribes again while the other, that unsubscribed, has not yet called. *)
Definition overtaken : BusSystem :=
  let scope := MkScope [EventKind.KeyUp] (MkFilter [] []) in
  let sys := call_set_demand empty_system (Some 9%N) in
  let sys := call_subscribe sys 1 scope default_options in
  let sys := call_tell (call_tell sys 0) 0 in
  let sys := call_unsubscribe sys 1 in
  let sys := call_subscribe sys 2 scope default_options in
  let sys := call_tell (call_tell sys 1) 1 in call_tell (call_tell sys 0) 0.

(** The last call of a callback about a kind. *)
Definition last_told (sys : BusSystem) (c : Callback) (k : EventKind) : option bool :=
  last (omap (λ '(c', (k', up)), if decide (c' = c ∧ k' = k) then Some up else None) (told sys)).

(** The demand callback may be left with a wrong answer: the calls are made after the
    lock is released, so that an unsubscribing thread can be overtaken by one that
    subscribes.  A state can be reached where every call was made, a subscription for a
    kind is on the bus, and the last call said that there is none. *)
Theorem demand_may_be_told_late :
  bus_reachable overtaken ∧ telling overtaken = [] ∧
  subscription_refcount (bus overtaken) EventKind.KeyUp = 1%N ∧
  last_told overtaken 9 EventKind.KeyUp = Some false.
Proof.
  split; [|by vm_compute].
  do 4 apply reach_tell. apply reach_subscribe; [apply reach_unsubscribe; do 2 apply reach_tell|by vm_compute].
  apply reach_subscribe; [apply reach_set_demand, rtc_refl|by vm_compute].
Qed.
