(* ===== verification/Context.v ===== *)
(** The context of an operation ([include/grab/context.hpp],
    [kernel/lifecycle/context.cpp]): deadlines and the diagnostic log.

    Time points are nanoseconds of the steady clock, unbounded integers here; the
    clock's reading is an argument.  The log is a ring of fixed capacity. *)

From S2P Require Import Prelude Errors.

Local Open Scope Z_scope.

Abbreviation Deadline := Z.

(** [steady_clock::time_point::max()]. *)
Definition unbounded : Deadline := 2 ^ 63 - 1.

Definition deadline_after (now budget : Z) : Deadline := now + budget.

Definition remaining (at_ : Deadline) (now : Z) : Z := if decide (at_ <= now) then 0 else at_ - now.

Definition expired (at_ : Deadline) (now : Z) : bool := bool_decide (at_ <= now).

Local Open Scope nat_scope.

Record DiagnosticLog := MkLog {
  ring : list DiagnosticEntry; log_capacity : nat; next_ : nat; dropped_ : N
}.

Definition new_log (capacity : nat) : DiagnosticLog := MkLog [] capacity 0 0.

Definition default_log : DiagnosticLog := new_log 256.

(** [at] of a ring inside its size. *)
Definition note (log : DiagnosticLog) (now : Z) (message : string) : DiagnosticLog :=
  let entry := MkDiagnostic now message in
  if decide (log_capacity log = 0) then
    MkLog (ring log) (log_capacity log) (next_ log) (dropped_ log + 1)
  else if decide (length (ring log) < log_capacity log) then
    MkLog (ring log ++ [entry]) (log_capacity log)
      (length (ring log ++ [entry]) mod log_capacity log) (dropped_ log)
  else
    MkLog (<[next_ log := entry]> (ring log)) (log_capacity log)
      ((next_ log + 1) mod log_capacity log) (dropped_ log + 1).

Definition log_snapshot (log : DiagnosticLog) : list DiagnosticEntry :=
  if decide (length (ring log) < log_capacity log) then ring log
  else
    (λ offset, default (MkDiagnostic 0 "") (ring log !! ((next_ log + offset) mod log_capacity log)))
    <$> seq 0 (length (ring log)).

(** [OperationContext]; whether it has a log is whether its owner gave it one. *)
Record OperationContext := MkContext {
  context_deadline : Deadline; operation : N; causal_parent : option N
}.

(** [OperationContext::check], the stop token and the clock being read in this order. *)
Definition context_check (context : OperationContext) (stop : bool) (now : Z) : Result unit :=
  if stop then fail ErrorCode.Cancelled "operation cancelled"
  else if expired (context_deadline context) now then
    fail ErrorCode.DeadlineExceeded "operation deadline exceeded"
  else Ok ().

(** [OperationContext::nested] with the id that was drawn for it. *)
Definition nested_context (context : OperationContext) (id : N) : OperationContext :=
  MkContext (context_deadline context) id (Some (operation context)).

(** ** The log keeps the most recent entries *)

Record log_ok (log : DiagnosticLog) (noted : list DiagnosticEntry) : Prop := {
  log_ring_size : length (ring log) = min (log_capacity log) (length noted);
  log_next : log_capacity log ≠ 0 → next_ log = length noted mod log_capacity log;
  log_holds : ∀ i, length noted - length (ring log) <= i < length noted →
    ring log !! (i mod log_capacity log) = noted !! i;
  log_dropped : dropped_ log = N.of_nat (length noted - log_capacity log)
}.

Lemma new_log_ok capacity : log_ok (new_log capacity) [].
Proof. split; cbn; [lia|intros _; by rewrite Nat.Div0.mod_0_l|intros; lia|lia]. Qed.

Lemma note_ok log noted now message :
  log_ok log noted → log_ok (note log now message) (noted ++ [MkDiagnostic now message]).
Proof.
  intros [Hlen Hnext Hring Hdrop]. unfold note. set (e := MkDiagnostic now message).
  destruct (decide (log_capacity log = 0)) as [Hc|Hc];
    [|destruct (decide (length (ring log) < log_capacity log)) as [Hl|Hl]].
  - split; cbn; rewrite ?length_app; cbn; [lia|done|intros; lia|lia].
  - assert (length (ring log) = length noted) as Hn by lia. split; cbn; rewrite ?length_app; cbn; [lia| |..].
    + by rewrite Hn.
    + intros i Hi. rewrite Nat.mod_small by lia. destruct (decide (i = length noted)) as [->|].
      * rewrite lookup_app_r, Hn by lia. by rewrite lookup_app_r, Nat.sub_diag by lia.
      * rewrite !lookup_app_l by lia. rewrite <- Hring by lia. by rewrite Nat.mod_small by lia.
    + lia.
  - assert (length (ring log) = log_capacity log) as Hfull by lia. specialize (Hnext Hc).
    set (c := log_capacity log) in *. split; cbn; rewrite ?length_app, ?length_insert; cbn; [lia| |..].
    + intros _. rewrite Hnext. by rewrite Nat.Div0.add_mod_idemp_l.
    + intros i Hi. destruct (decide (i = length noted)) as [->|Hne].
      * rewrite lookup_app_r, Nat.sub_diag by lia. rewrite Hnext, list_lookup_insert_eq; [done|].
        rewrite Hfull. apply Nat.mod_upper_bound; lia.
      * rewrite lookup_app_l by lia. rewrite list_lookup_insert_ne; [apply Hring; lia|]. rewrite Hnext.
        intros E. pose proof (Nat.div_mod_eq (length noted) c). pose proof (Nat.div_mod_eq i c).
        assert (length noted / c = i / c ∨ length noted / c = S (i / c) ∨ S (length noted / c) <= i / c ∨
          S (S (i / c)) <= length noted / c) as [|[|[|]]] by lia; nia.
    + lia.
Qed.

Definition note_all (log : DiagnosticLog) (entries : list DiagnosticEntry) : DiagnosticLog :=
  foldl (λ log e, note log (de_at e) (de_message e)) log entries.

Lemma note_all_capacity entries log : log_capacity (note_all log entries) = log_capacity log.
Proof.
  revert log. induction entries as [|e entries IH]; intros log; [done|]. cbn. unfold note_all in IH.
  rewrite IH. unfold note. by repeat case_decide.
Qed.

Lemma note_all_ok entries log noted :
  log_ok log noted → log_ok (note_all log entries) (noted ++ entries).
Proof.
  revert log noted. induction entries as [|e entries IH]; intros log noted Hok; cbn.
  - by rewrite app_nil_r.
  - change (e :: entries) with ([e] ++ entries). rewrite app_assoc. apply IH.
    destruct e as [t m]. by apply note_ok.
Qed.

(** Whatever was noted, and however often, a diagnostic log gives back the most
    recent entries, as many as it has room for, oldest first, and has counted all
    the others. *)
Theorem log_keeps_latest (capacity : nat) (entries : list DiagnosticEntry) :
  let log := note_all (new_log capacity) entries in
  log_snapshot log = drop (length entries - capacity) entries ∧
  dropped_ log = N.of_nat (length entries - capacity).
Proof.
  cbv zeta. pose proof (note_all_ok entries _ _ (new_log_ok capacity)) as [Hlen Hnext Hring Hdrop].
  pose proof (note_all_capacity entries (new_log capacity)) as Hcap. cbn [new_log log_capacity] in Hcap.
  set (log := note_all (new_log capacity) entries) in *. cbn [app] in *. rewrite Hcap in *.
  split; [|done]. unfold log_snapshot. rewrite Hcap.
  destruct (decide (length (ring log) < capacity)) as [Hl|Hl].
  - replace (length entries - capacity) with 0 by lia. rewrite drop_0. apply list_eq. intros i.
    destruct (decide (i < length entries)) as [Hi|Hi].
    + rewrite <- Hring by lia. by rewrite Nat.mod_small by lia.
    + rewrite !lookup_ge_None_2 by lia. done.
  - assert (length (ring log) = capacity) as Hfull by lia. rewrite Hfull. apply list_eq. intros i.
    destruct (decide (i < capacity)) as [Hi|Hi].
    + rewrite list_lookup_fmap, lookup_seq_lt by done. cbn [fmap option_fmap option_map Nat.add].
      rewrite lookup_drop, Hnext by lia. rewrite <- Hring by lia. rewrite Nat.Div0.add_mod_idemp_l.
      assert ((length entries + i) mod capacity = (length entries - capacity + i) mod capacity) as ->.
      { replace (length entries + i) with (length entries - capacity + i + 1 * capacity) by lia.
        apply Nat.Div0.mod_add. }
      destruct (ring log !! _) eqn:E; [done|]. apply lookup_ge_None in E.
      pose proof (Nat.mod_upper_bound (length entries - capacity + i) capacity). lia.
    + rewrite lookup_ge_None_2 by (rewrite length_fmap, length_seq; lia).
      rewrite lookup_ge_None_2; [done|]. rewrite length_drop. lia.
Qed.
