(* ===== verification/ActionTypes.v ===== *)
(** The data of an action transaction ([include/grab/interaction.hpp], [trace.hpp],
    [spi/route.hpp]) and what it asks of a runtime ([spi/runtime.hpp],
    [event_source.hpp], [tree_source.hpp]), an interface of virtual functions that the
    drivers implement. *)

From S2P Require Import Prelude Errors Geometry SpaceGraph UiTree Locator Query.

Local Open Scope N_scope.

(** ** Actions *)

Module RoutePolicy.

Inductive RoutePolicy : Type :=
  | PreferSemantic | SemanticOnly | PhysicalOnly.

End RoutePolicy.
Abbreviation RoutePolicy := RoutePolicy.RoutePolicy.

#[export] Instance RoutePolicy_eq_dec : EqDecision RoutePolicy.
Proof. solve_decision. Defined.

(** The stop token is part of the world a transaction runs in. *)
Record ActionOptions := MkActionOptions {
  opt_deadline : Z;
  opt_cardinality : Cardinality;
  opt_routing : RoutePolicy;
  opt_retry : RetryClass;
  opt_force : bool
}.

Definition default_action_options : ActionOptions :=
  MkActionOptions 5000000000 Cardinality.ExactlyOne RoutePolicy.PreferSemantic
    RetryClass.ResolveOnly false.

Inductive ActionTarget :=
  | TargetLocator (locator : Locator)
  | TargetMatch (match_ : Match).

Inductive Action :=
  | Click (target : ActionTarget)
  | TypeText (target : ActionTarget) (text : string)
  | DragAction (target : ActionTarget) (from_ to_ : Point) (options : DragOptions)
  | PressKey (target : ActionTarget) (key_name : string)
  | Activate (target : ActionTarget).

Definition target_of (action : Action) : ActionTarget :=
  match action with
  | Click target | TypeText target _ | DragAction target _ _ _ | PressKey target _
  | Activate target => target
  end.

(** ** Receipts *)

Record RouteAttempt := MkRouteAttempt {
  attempt_route : string; attempt_selected : bool; attempt_rejection : ErrorCode;
  attempt_detail : string
}.

Record BarrierOutcome := MkBarrier {
  barrier : string; barrier_satisfied : bool; barrier_timed_out : bool
}.

Record FrameRef := MkFrameRef { capture_generation : N; frame : N }.

Record Receipt := MkReceipt {
  rc_operation : N;
  rc_locator : string;
  rc_snapshot_revision : N;
  rc_commit : CommitStatus;
  rc_routes : list RouteAttempt;
  rc_barriers : list BarrierOutcome;
  rc_transforms : list TransformRecord;
  rc_frames : list FrameRef;
  rc_forced : bool;
  rc_fallback_used : bool;
  rc_neutralization : NeutralizationOutcome;
  rc_retry_class : RetryClass;
  rc_resolve_retries : N;
  rc_log : list DiagnosticEntry
}.

Record TransactionOutcome := MkOutcome { out_receipt : Receipt; out_error : option Error }.

Definition succeeded (outcome : TransactionOutcome) : bool :=
  bool_decide (out_error outcome = None).

(** ** Routes *)

Module RouteKind.

Inductive RouteKind : Type :=
  | Semantic | Physical.

End RouteKind.
Abbreviation RouteKind := RouteKind.RouteKind.

#[export] Instance RouteKind_eq_dec : EqDecision RouteKind.
Proof. solve_decision. Defined.

Module RouteFidelity.

Inductive RouteFidelity : Type :=
  | Exact | Lossless | Approximate | BestEffort.

End RouteFidelity.

Module RouteLatencyClass.

Inductive RouteLatencyClass : Type :=
  | Immediate | Interactive | Deferred.

End RouteLatencyClass.

Record RouteConstraint := MkConstraint { constraint_name : string; constraint_detail : string }.

Record RouteDescriptor := MkRouteDescriptor {
  route_name : string;
  route_kind : RouteKind;
  route_fidelity : RouteFidelity.RouteFidelity;
  route_latency : RouteLatencyClass.RouteLatencyClass;
  route_constraints : list RouteConstraint
}.

Module ActionVerb.

Inductive ActionVerb : Type :=
  | Click | TypeText | Drag | PressKey | Activate.

End ActionVerb.
Abbreviation ActionVerb := ActionVerb.ActionVerb.

Record ActionRequest := MkRequest {
  rq_verb : ActionVerb; rq_target : Match; rq_text : string; rq_from : Point; rq_to : Point;
  rq_options : DragOptions; rq_key_name : string
}.

Definition action_request (action : Action) (target : Match) : ActionRequest :=
  let o := MkPoint 0 0 in
  match action with
  | Click _ => MkRequest ActionVerb.Click target "" o o default_drag_options ""
  | TypeText _ text => MkRequest ActionVerb.TypeText target text o o default_drag_options ""
  | DragAction _ from_ to_ options => MkRequest ActionVerb.Drag target "" from_ to_ options ""
  | PressKey _ key_name => MkRequest ActionVerb.PressKey target "" o o default_drag_options key_name
  | Activate _ => MkRequest ActionVerb.Activate target "" o o default_drag_options ""
  end.

Definition route_allowed (policy : RoutePolicy) (kind : RouteKind) : bool :=
  match policy with
  | RoutePolicy.SemanticOnly => bool_decide (kind = RouteKind.Semantic)
  | RoutePolicy.PhysicalOnly => bool_decide (kind = RouteKind.Physical)
  | RoutePolicy.PreferSemantic => true
  end.

(** The lambda [append_kind] of [route_order]. *)
Definition append_kind (routes : list RouteDescriptor) (policy : RoutePolicy) (kind : RouteKind)
    (ordered : list nat) : list nat :=
  ordered ++ (filter (λ p, route_kind p.2 = kind ∧ route_allowed policy kind = true)
                (zip (seq 0 (length routes)) routes)).*1.

Definition route_order (routes : list RouteDescriptor) (policy : RoutePolicy) : list nat :=
  append_kind routes policy RouteKind.Physical (append_kind routes policy RouteKind.Semantic []).

Definition resolution_retryable (code : ErrorCode) : bool :=
  bool_decide (code = ErrorCode.StaleNode) || bool_decide (code = ErrorCode.TreeResynced) ||
  bool_decide (code = ErrorCode.RuntimeRestarted) ||
  bool_decide (code = ErrorCode.EnvironmentChanged) ||
  bool_decide (code = ErrorCode.TopologyChanged) || bool_decide (code = ErrorCode.TargetDetached).

Definition route_unavailable_error (receipt : Receipt) : Error :=
  MkError ErrorCode.RouteUnavailable "no action route could be reserved" "" (rc_locator receipt)
    ((λ attempt, MkAttempt (attempt_route attempt) (attempt_detail attempt)) <$> rc_routes receipt)
    ErrorDisposition.Fatal [].

(** The loop of [merge_barriers] for one observation. *)
Fixpoint merge_barrier (armed : list BarrierOutcome) (observation : BarrierOutcome)
    : list BarrierOutcome :=
  match armed with
  | [] => [observation]
  | b :: armed =>
    if decide (barrier b = barrier observation) then observation :: armed
    else b :: merge_barrier armed observation
  end.

Definition merge_barriers (armed settled : list BarrierOutcome) : list BarrierOutcome :=
  foldl merge_barrier armed settled.

(** [has_state( states, NodeState::Enabled )] and [NodeState::Visible]. *)
Definition has_state (states state : N) : bool := negb (bool_decide (N.land states state = 0)).

Definition state_visible : N := N.shiftl 1 2.

Definition state_enabled : N := N.shiftl 1 4.

(** ** The runtime

    A call takes the world to the world after it, and the context of the operation is
    part of the world ([event_wait] is given the deadline of the wait); between two calls the world moves on
    by itself ([tick]): time passes, and other threads request a stop.  A pointer of
    the runtime that is null is [false]. *)
Class Runtime := {
  World : Type;
  Reservation : Type;
  tick : World → World;
  clock : World → Z;
  stop_requested : World → bool;
  has_tree_source : World → bool;
  tree_snapshot : N → World → Result UiSnapshot * World;
  has_event_source : World → bool;
  event_enable : string → World → Result unit * World;
  event_disable : string → World → Result unit * World;
  event_wait : string → Z → Z → World → Result unit * World;
  mapping_refresh : option (Match → World → Result (list TransformRecord) * World);
  routes : World → list RouteDescriptor;
  has_route : nat → World → bool;
  route_reserve : nat → ActionRequest → World → Result Reservation * World;
  reservation_barriers : Reservation → list string;
  reservation_arm : Reservation → string → World → Result unit * World;
  reservation_commit : Reservation → World → Result unit * World;
  reservation_settle : Reservation → World → Result (list BarrierOutcome) * World;
  reservation_verify : Reservation → World → Result unit * World;
  has_seat : World → bool;
  seat_neutralize : World → Result NeutralizationOutcome * World
}.

(** The calls a transaction makes, with what came back. *)
Inductive Call `{Runtime} :=
  | CallSnapshot (tree : N) (r : Result UiSnapshot)
  | CallEnable (spec : string) (r : Result unit)
  | CallDisable (spec : string) (r : Result unit)
  | CallWait (spec : string) (maximum_wait : Z) (r : Result unit)
  | CallMapping (target : Match) (r : Result (list TransformRecord))
  | CallReserve (index : nat) (request : ActionRequest) (r : Result Reservation)
  | CallArm (reservation : Reservation) (name : string) (r : Result unit)
  | CallCommit (reservation : Reservation) (r : Result unit)
  | CallSettle (reservation : Reservation) (r : Result (list BarrierOutcome))
  | CallVerify (reservation : Reservation) (r : Result unit)
  | CallNeutralize (r : Result NeutralizationOutcome).
