(* ===== verification/Action.v ===== *)
(** Waiting and acting ([kernel/action/wait_engine.hpp] and [.cpp],
    [transaction.hpp] and [.cpp]) against any runtime.

    A computation takes the state of a run to a result and the state after it, [None]
    when the fuel of a wait runs out ([ActionTotal] shows how much is enough).  The
    state holds the world, the calls made so far, and what the transaction keeps: its
    log, receipt and error, the cells its predicates share and the match a predicate
    found.  A predicate's function is a computation; the shared [StabilityState] is a
    cell of the run. *)

From Stdlib Require Import Ascii.
From stdpp Require Import pretty.
From S2P Require Import Prelude Errors Geometry SpaceGraph UiTree Locator Json LocatorText Query Context ActionTypes.

Local Open Scope Z_scope.

(** ** Waits *)

Record WaitBackoff := MkBackoff { initial : Z; maximum : Z }.

Record WaitParams := MkWaitParams { wait_deadline : Deadline; backoff : WaitBackoff }.

Definition default_backoff : WaitBackoff := MkBackoff 1000000 50000000.

Record PredicateObservation := MkObservation { satisfied : bool; detail : string }.

Record NodeObservation := MkNodeObservation {
  present : bool; observed_states : N; observed_detail : string
}.

Record StabilityState := MkStability { previous : option N; consecutive : N }.

Definition earliest (left right : Deadline) : Deadline := Z.min left right.

Definition next_backoff (current max : Z) : Z :=
  if decide (max <= current ∨ max / 2 < current) then max else Z.min (current * 2) max.

(** ** Runs *)

Section action.
Context `{Runtime}.

Record Run := MkRun {
  run_world : World;
  run_calls : list Call;
  run_log : DiagnosticLog;
  run_cells : list StabilityState;
  run_resolved : option Match;
  run_receipt : Receipt;
  run_error : option Error
}.

Definition set_world (r : Run) (w : World) : Run :=
  MkRun w (run_calls r) (run_log r) (run_cells r) (run_resolved r) (run_receipt r) (run_error r).

Definition set_log (r : Run) (log : DiagnosticLog) : Run :=
  MkRun (run_world r) (run_calls r) log (run_cells r) (run_resolved r) (run_receipt r) (run_error r).

Definition set_cells (r : Run) (cells : list StabilityState) : Run :=
  MkRun (run_world r) (run_calls r) (run_log r) cells (run_resolved r) (run_receipt r) (run_error r).

Definition set_resolved (r : Run) (m : option Match) : Run :=
  MkRun (run_world r) (run_calls r) (run_log r) (run_cells r) m (run_receipt r) (run_error r).

Definition set_receipt (r : Run) (receipt : Receipt) : Run :=
  MkRun (run_world r) (run_calls r) (run_log r) (run_cells r) (run_resolved r) receipt (run_error r).

Definition set_error (r : Run) (error : option Error) : Run :=
  MkRun (run_world r) (run_calls r) (run_log r) (run_cells r) (run_resolved r) (run_receipt r) error.

Definition note_call (r : Run) (w : World) (c : Call) : Run :=
  MkRun w (run_calls r ++ [c]) (run_log r) (run_cells r) (run_resolved r) (run_receipt r)
    (run_error r).

Definition Stage (A : Type) : Type := Run → option (A * Run).

#[export] Instance step_ret : MRet Stage := λ _ x r, Some (x, r).

#[export] Instance step_bind : MBind Stage := λ _ _ k m r,
  match m r with Some (x, r) => k x r | None => None end.

(** Returning early on an error. *)
Definition and_then {A B} (m : Stage (Result A)) (k : A → Stage (Result B)) : Stage (Result B) :=
  x ← m; match x with Ok x => k x | Err e => mret (Err e) end.

Definition read_clock : Stage Z := λ r,
  let w := tick (run_world r) in Some (clock w, set_world r w).

Definition read_stop : Stage bool := λ r,
  let w := tick (run_world r) in Some (stop_requested w, set_world r w).

Definition ask {A} (f : World → A) : Stage A := λ r, Some (f (run_world r), r).

Definition call {A} (op : World → A * World) (what : A → Call) : Stage A := λ r,
  let '(x, w) := op (run_world r) in Some (x, note_call r w (what x)).

Definition modify (f : Run → Run) : Stage unit := λ r, Some ((), f r).

Definition update_receipt (f : Receipt → Receipt) : Stage unit :=
  modify (λ r, set_receipt r (f (run_receipt r))).

(** A result that may be missing. *)
Definition demand_result {A} (x : option A) : Stage A := λ r, (λ x, (x, r)) <$> x.

(** [OperationContext::note]; the context of a transaction has a log. *)
Definition context_note (message : string) : Stage unit :=
  now ← read_clock; modify (λ r, set_log r (note (run_log r) now message)).

(** ** Predicates *)

Definition NodeObserver : Type := Stage (Result NodeObservation).

Record NamedPredicate := MkPredicate {
  np_name : string; np_observe : option (Stage (Result PredicateObservation))
}.

(** What a predicate makes of a node that could be observed. *)
Definition of_node (observer : NodeObserver) (judge : NodeObservation → PredicateObservation)
    : Stage (Result PredicateObservation) :=
  and_then observer (λ observed, mret (Ok (judge observed))).

Definition node_present (observer : NodeObserver) : NamedPredicate :=
  MkPredicate "node_present" (Some (of_node observer (λ o,
    MkObservation (present o) (if present o then "node is present" else observed_detail o)))).

Definition enabled (observer : NodeObserver) : NamedPredicate :=
  MkPredicate "enabled" (Some (of_node observer (λ o,
    let is_enabled := present o && has_state (observed_states o) state_enabled in
    MkObservation is_enabled
      (if is_enabled then "node is enabled" else "node is not enabled: " +:+ observed_detail o)))).

Definition window_mapped (observer : NodeObserver) : NamedPredicate :=
  MkPredicate "window_mapped" (Some (of_node observer (λ o,
    let mapped := present o && has_state (observed_states o) state_visible in
    MkObservation mapped
      (if mapped then "window is mapped" else "window is not mapped: " +:+ observed_detail o)))).

(** One observation of [state_stable]. *)
Definition stability_after (state : StabilityState) (o : NodeObservation) : StabilityState :=
  if negb (present o) then MkStability None 0
  else if decide (previous state = Some (observed_states o)) then
    MkStability (previous state) ((consecutive state + 1) mod 2 ^ 64)
  else MkStability (Some (observed_states o)) 1.

Definition stability_judged (required : N) (state : StabilityState) (o : NodeObservation)
    : PredicateObservation :=
  if negb (present o) then MkObservation false "node disappeared while observing stability"
  else
    let stable := bool_decide (required <= consecutive state)%N in
    MkObservation stable
      (if stable then "node state is stable" else "node state has not been observed enough times").

Definition get_cell (cell : nat) : Stage StabilityState := λ r,
  Some (default (MkStability None 0) (run_cells r !! cell), r).

Definition set_cell (cell : nat) (state : StabilityState) : Stage unit :=
  modify (λ r, set_cells r (<[cell := state]> (run_cells r))).

Definition observe_stability (observer : NodeObserver) (required : N) (cell : nat)
    : Stage (Result PredicateObservation) :=
  if decide (required = 0%N) then
    mret (fail ErrorCode.InvalidArgument "state stability requires at least one observation")
  else
    and_then observer (λ o,
      state ← get_cell cell;
      let state := stability_after state o in
      _ ← set_cell cell state;
      mret (Ok (stability_judged required state o))).

(** Making the predicate allocates its shared state. *)
Definition state_stable (observer : NodeObserver) (required : N) : Stage NamedPredicate := λ r,
  Some (MkPredicate "state_stable" (Some (observe_stability observer required (length (run_cells r)))),
        set_cells r (run_cells r ++ [MkStability None 0])).

Fixpoint observe_all (predicates : list NamedPredicate) : Stage (Result PredicateObservation) :=
  match predicates with
  | [] => mret (Ok (MkObservation true "all checks satisfied"))
  | predicate :: predicates =>
    match np_observe predicate with
    | None => mret (fail ErrorCode.InvalidArgument "composed predicate has no observer")
    | Some observe =>
      and_then observe (λ observed,
        if negb (satisfied observed) then
          mret (Ok (MkObservation false (np_name predicate +:+ ": " +:+ detail observed)))
        else observe_all predicates)
    end
  end.

Definition all_of (name : string) (predicates : list NamedPredicate) : NamedPredicate :=
  MkPredicate name (Some (observe_all predicates)).

(** ** The wait engine *)

Definition timeout (predicate last_failure : string) : Stage (Result unit) :=
  let diagnostic := "predicate '" +:+ predicate +:+ "' last failure: " +:+ last_failure in
  _ ← context_note diagnostic;
  now ← read_clock;
  mret (Err (MkError ErrorCode.DeadlineExceeded
    ("wait for predicate '" +:+ predicate +:+ "' exceeded its deadline") "" "" []
    ErrorDisposition.Fatal [MkDiagnostic now diagnostic])).

Definition finish_wait (spec : string) (result : Result unit) : Stage (Result unit) :=
  disabled ← call (event_disable spec) (CallDisable spec);
  match disabled with
  | Ok _ => mret result
  | Err e =>
    _ ← context_note ("failed to disable wait event '" +:+ spec +:+ "': " +:+ err_message e);
    mret (match result with Ok _ => Err e | Err _ => result end)
  end.

Fixpoint wait_loop (fuel : nat) (spec : string) (observe : Stage (Result PredicateObservation))
    (deadline : Deadline) (max backoff : Z) : Stage (Result unit) :=
  match fuel with
  | O => λ _, None
  | S fuel =>
    stop ← read_stop;
    if stop : bool then finish_wait spec (fail ErrorCode.Cancelled "operation cancelled")
    else
      observed ← observe;
      match observed with
      | Err e => finish_wait spec (Err e)
      | Ok observed =>
        if satisfied observed then finish_wait spec (Ok ())
        else
          now ← read_clock;
          if expired deadline now then
            (result ← timeout spec (detail observed); finish_wait spec result)
          else
            now ← read_clock;
            let maximum_wait := Z.min backoff (remaining deadline now) in
            wake ← call (event_wait spec deadline maximum_wait) (CallWait spec maximum_wait);
            match wake with
            | Err e =>
              if decide (err_code e = ErrorCode.DeadlineExceeded) then
                (result ← timeout spec (detail observed); finish_wait spec result)
              else finish_wait spec (Err e)
            | Ok _ => wait_loop fuel spec observe deadline max (next_backoff backoff max)
            end
      end
  end.

(** [WaitEngine::wait] for the context with the given deadline. *)
Definition wait (fuel : nat) (deadline : Deadline) (predicate : NamedPredicate)
    (params : WaitParams) : Stage (Result unit) :=
  match np_observe predicate with
  | Some observe =>
    if decide (np_name predicate = "") then
      mret (fail ErrorCode.InvalidArgument "wait predicate must have a name and observer")
    else if decide (initial (backoff params) <= 0 ∨
                    maximum (backoff params) < initial (backoff params)) then
      mret (fail ErrorCode.InvalidArgument "wait backoff must be positive and bounded")
    else
      and_then (call (event_enable (np_name predicate)) (CallEnable (np_name predicate))) (λ _,
        wait_loop fuel (np_name predicate) observe (earliest deadline (wait_deadline params))
          (maximum (backoff params)) (initial (backoff params)))
  | None => mret (fail ErrorCode.InvalidArgument "wait predicate must have a name and observer")
  end.

(** ** The transaction *)

Section runner.
Context (fuel : nat) (tree : N) (action : Action) (options : ActionOptions)
  (context : OperationContext).

Definition take_snapshot (id : N) : Stage (Result UiSnapshot) :=
  call (tree_snapshot id) (CallSnapshot id).

Definition no_tree_source {A} : Result A :=
  fail ErrorCode.CapabilityUnavailable "runtime has no tree source".

(** Whether a snapshot still shows the node of a match. *)
Definition identity_matches (nav : TreeNav) (ref : WidgetRef) : bool :=
  let m := nav_metadata nav in
  bool_decide (nav_runtime m = ref_runtime ref) && bool_decide (nav_tree m = ref_tree ref) &&
  bool_decide (nav_epoch m = ref_epoch ref) && nav_contains nav (ref_node ref) &&
  bool_decide (nav_generation nav (ref_node ref) = ref_generation ref).

Definition refreshed (m : Match) (nav : TreeNav) : Result Match :=
  let metadata := nav_metadata nav in
  let ref := match_ref m in
  if decide (nav_runtime metadata ≠ ref_runtime ref) then
    fail ErrorCode.RuntimeRestarted "match runtime changed before action"
  else if decide (nav_tree metadata ≠ ref_tree ref ∨ nav_epoch metadata ≠ ref_epoch ref) then
    fail ErrorCode.TreeResynced "match tree changed before action"
  else if negb (nav_contains nav (ref_node ref)) ||
          negb (bool_decide (nav_generation nav (ref_node ref) = ref_generation ref)) then
    fail ErrorCode.StaleNode "match node changed before action"
  else
    Ok (MkMatch ref (match_mode m) (nav_revision metadata) (matched_predicates m)
      (MkProviderProvenance (pp_provider (match_provenance m))
        (pp_candidate_provider (match_provenance m)) (nav_runtime metadata) (nav_revision metadata))).

Definition refresh_match (m : Match) : Stage (Result Match) :=
  if decide (opt_cardinality options = Cardinality.All) then
    mret (fail ErrorCode.InvalidArgument "single-target actions do not accept Cardinality::All")
  else
    and_then (take_snapshot (ref_tree (match_ref m)))
      (λ snapshot, mret (refreshed m (snapshot_nav snapshot))).

Definition resolve_once : Stage (Result Match) :=
  source ← ask has_tree_source;
  if negb source then mret no_tree_source
  else
    match target_of action with
    | TargetLocator locator =>
      and_then (take_snapshot tree) (λ snapshot,
        demand_result (resolve locator (opt_cardinality options)
          (MkQueryScope (snapshot_nav snapshot) None None) (N.of_nat default_max_nodes)))
    | TargetMatch m => refresh_match m
    end.

Definition count_retry (receipt : Receipt) : Receipt :=
  MkReceipt (rc_operation receipt) (rc_locator receipt) (rc_snapshot_revision receipt)
    (rc_commit receipt) (rc_routes receipt) (rc_barriers receipt) (rc_transforms receipt)
    (rc_frames receipt) (rc_forced receipt) (rc_fallback_used receipt) (rc_neutralization receipt)
    (rc_retry_class receipt) ((rc_resolve_retries receipt + 1) mod 2 ^ 32) (rc_log receipt).

(** The predicate of [resolve_target]; it leaves the match in [run_resolved]. *)
Definition resolve_predicate : NamedPredicate :=
  MkPredicate "resolve_target" (Some (
    _ ← update_receipt count_retry;
    retried ← resolve_once;
    match retried with
    | Ok m =>
      _ ← modify (λ r, set_resolved r (Some m));
      mret (Ok (MkObservation true "target resolved"))
    | Err e =>
      mret (if negb (resolution_retryable (err_code e)) then Err e
            else Ok (MkObservation false (err_message e)))
    end)).

(** Dereferencing [resolved]; [wait] succeeded, so that the predicate set it. *)
Definition found_match : Stage (Result Match) := λ r, (λ m, (Ok m, r)) <$> run_resolved r.

Definition resolve_target : Stage (Result Match) :=
  first ← resolve_once;
  match first with
  | Ok m => mret (Ok m)
  | Err e =>
    if decide (opt_retry options = RetryClass.Never) then mret first
    else if negb (resolution_retryable (err_code e)) then mret first
    else
      events ← ask has_event_source;
      if negb events then mret first
      else
        and_then (wait fuel (context_deadline context) resolve_predicate
          (MkWaitParams (context_deadline context) default_backoff)) (λ _, found_match)
  end.

Definition set_revision (revision : N) (receipt : Receipt) : Receipt :=
  MkReceipt (rc_operation receipt) (rc_locator receipt) revision
    (rc_commit receipt) (rc_routes receipt) (rc_barriers receipt) (rc_transforms receipt)
    (rc_frames receipt) (rc_forced receipt) (rc_fallback_used receipt) (rc_neutralization receipt)
    (rc_retry_class receipt) (rc_resolve_retries receipt) (rc_log receipt).

Definition set_transforms (transforms : list TransformRecord) (receipt : Receipt) : Receipt :=
  MkReceipt (rc_operation receipt) (rc_locator receipt) (rc_snapshot_revision receipt)
    (rc_commit receipt) (rc_routes receipt) (rc_barriers receipt) transforms
    (rc_frames receipt) (rc_forced receipt) (rc_fallback_used receipt) (rc_neutralization receipt)
    (rc_retry_class receipt) (rc_resolve_retries receipt) (rc_log receipt).

Definition refresh_mapping (target : Match) : Stage (Result unit) :=
  match mapping_refresh with
  | None => mret (Ok ())
  | Some refresh =>
    and_then (call (refresh target) (CallMapping target)) (λ transforms,
      _ ← update_receipt (set_transforms transforms); mret (Ok ()))
  end.

Definition node_observer (target : Match) : NodeObserver :=
  source ← ask has_tree_source;
  if negb source then mret no_tree_source
  else
    and_then (take_snapshot (ref_tree (match_ref target))) (λ snapshot,
      let nav := snapshot_nav snapshot in
      let same := identity_matches nav (match_ref target) in
      mret (Ok (MkNodeObservation same
        (if same then nav_states nav (ref_node (match_ref target)) else 0%N)
        (if same then "resolved node observed" else "resolved node is stale or absent")))).

Definition wait_for_actionability (target : Match) : Stage (Result unit) :=
  events ← ask has_event_source;
  if negb events then
    mret (fail ErrorCode.CapabilityUnavailable "runtime has no event source for actionability")
  else
    let observer := node_observer target in
    stable ← state_stable observer 2;
    wait fuel (context_deadline context)
      (all_of "actionable" [node_present observer; stable; enabled observer])
      (MkWaitParams (context_deadline context) default_backoff).

Definition push_route (attempt : RouteAttempt) (receipt : Receipt) : Receipt :=
  MkReceipt (rc_operation receipt) (rc_locator receipt) (rc_snapshot_revision receipt)
    (rc_commit receipt) (rc_routes receipt ++ [attempt]) (rc_barriers receipt)
    (rc_transforms receipt) (rc_frames receipt) (rc_forced receipt) (rc_fallback_used receipt)
    (rc_neutralization receipt) (rc_retry_class receipt) (rc_resolve_retries receipt) (rc_log receipt).

Definition set_commit (commit : CommitStatus) (receipt : Receipt) : Receipt :=
  MkReceipt (rc_operation receipt) (rc_locator receipt) (rc_snapshot_revision receipt)
    commit (rc_routes receipt) (rc_barriers receipt)
    (rc_transforms receipt) (rc_frames receipt) (rc_forced receipt) (rc_fallback_used receipt)
    (rc_neutralization receipt) (rc_retry_class receipt) (rc_resolve_retries receipt) (rc_log receipt).

Definition set_fallback (fallback : bool) (receipt : Receipt) : Receipt :=
  MkReceipt (rc_operation receipt) (rc_locator receipt) (rc_snapshot_revision receipt)
    (rc_commit receipt) (rc_routes receipt) (rc_barriers receipt)
    (rc_transforms receipt) (rc_frames receipt) (rc_forced receipt) fallback
    (rc_neutralization receipt) (rc_retry_class receipt) (rc_resolve_retries receipt) (rc_log receipt).

Definition map_barriers (f : list BarrierOutcome → list BarrierOutcome) (receipt : Receipt) : Receipt :=
  MkReceipt (rc_operation receipt) (rc_locator receipt) (rc_snapshot_revision receipt)
    (rc_commit receipt) (rc_routes receipt) (f (rc_barriers receipt))
    (rc_transforms receipt) (rc_frames receipt) (rc_forced receipt) (rc_fallback_used receipt)
    (rc_neutralization receipt) (rc_retry_class receipt) (rc_resolve_retries receipt) (rc_log receipt).

Definition set_receipt_neutralization (outcome : NeutralizationOutcome) (receipt : Receipt) : Receipt :=
  MkReceipt (rc_operation receipt) (rc_locator receipt) (rc_snapshot_revision receipt)
    (rc_commit receipt) (rc_routes receipt) (rc_barriers receipt)
    (rc_transforms receipt) (rc_frames receipt) (rc_forced receipt) (rc_fallback_used receipt)
    outcome (rc_retry_class receipt) (rc_resolve_retries receipt) (rc_log receipt).

Definition set_receipt_log (log : list DiagnosticEntry) (receipt : Receipt) : Receipt :=
  MkReceipt (rc_operation receipt) (rc_locator receipt) (rc_snapshot_revision receipt)
    (rc_commit receipt) (rc_routes receipt) (rc_barriers receipt)
    (rc_transforms receipt) (rc_frames receipt) (rc_forced receipt) (rc_fallback_used receipt)
    (rc_neutralization receipt) (rc_retry_class receipt) (rc_resolve_retries receipt) log.

Definition attempt_name (descriptor : RouteDescriptor) : string :=
  if decide (route_name descriptor = "") then "unnamed_route" else route_name descriptor.

Definition unavailable_route : RouteDescriptor :=
  MkRouteDescriptor "" RouteKind.Physical RouteFidelity.BestEffort RouteLatencyClass.Deferred [].

(** The loop of [reserve_route]; the order holds indexes of the descriptors. *)
Fixpoint reserve_along (descriptors : list RouteDescriptor) (request : ActionRequest)
    (order : list nat) : Stage (Result Reservation) :=
  match order with
  | [] => λ r, Some (Err (route_unavailable_error (run_receipt r)), r)
  | index :: order =>
    let descriptor := default unavailable_route (descriptors !! index) in
    let name := attempt_name descriptor in
    route ← ask (has_route index);
    if negb route then
      _ ← update_receipt (push_route (MkRouteAttempt name false ErrorCode.RouteUnavailable
                            "route has no action executor"));
      reserve_along descriptors request order
    else
      reserved ← call (route_reserve index request) (CallReserve index request);
      match reserved with
      | Err e =>
        _ ← update_receipt (push_route (MkRouteAttempt name false (err_code e) (err_message e)));
        if decide (err_code e = ErrorCode.PossiblyCommitted) then
          (_ ← update_receipt (set_commit CommitStatus.PossiblyCommitted); mret (Err e))
        else reserve_along descriptors request order
      | Ok reservation =>
        _ ← update_receipt (push_route (MkRouteAttempt name true ErrorCode.RouteUnavailable "selected"));
        _ ← update_receipt (set_fallback
              (bool_decide (opt_routing options = RoutePolicy.PreferSemantic) &&
               bool_decide (route_kind descriptor = RouteKind.Physical)));
        mret (Ok reservation)
      end
  end.

Definition reserve_route (target : Match) : Stage (Result Reservation) :=
  descriptors ← ask routes;
  reserve_along descriptors (action_request action target)
    (route_order descriptors (opt_routing options)).

Fixpoint arm_barriers (reservation : Reservation) (names : list string) : Stage (Result unit) :=
  match names with
  | [] => mret (Ok ())
  | name :: names =>
    _ ← update_receipt (map_barriers (λ l, l ++ [MkBarrier name false false]));
    and_then (call (reservation_arm reservation name) (CallArm reservation name))
      (λ _, arm_barriers reservation names)
  end.

Definition mark_timed_out (b : BarrierOutcome) : BarrierOutcome :=
  if barrier_satisfied b then b else MkBarrier (barrier b) false true.

(** What follows a commit. *)
Definition settle_and_verify (reservation : Reservation) : Stage (Result unit) :=
  settled ← call (reservation_settle reservation) (CallSettle reservation);
  match settled with
  | Err e =>
    _ ← update_receipt (if decide (err_code e = ErrorCode.DeadlineExceeded)
                        then map_barriers (fmap mark_timed_out) else id);
    mret (Err e)
  | Ok observations =>
    _ ← update_receipt (map_barriers (λ armed, merge_barriers armed observations));
    and_then (call (reservation_verify reservation) (CallVerify reservation)) (λ _,
      _ ← update_receipt (set_commit CommitStatus.Verified); mret (Ok ()))
  end.

Definition execute_reserved (reservation : Reservation) : Stage (Result unit) :=
  and_then (arm_barriers reservation (reservation_barriers reservation)) (λ _,
    _ ← update_receipt (set_commit CommitStatus.PossiblyCommitted);
    committed ← call (reservation_commit reservation) (CallCommit reservation);
    match committed with
    | Err e =>
      _ ← update_receipt (if decide (err_code e ≠ ErrorCode.PossiblyCommitted)
                          then set_commit CommitStatus.FailedBeforeCommit else id);
      mret (Err e)
    | Ok _ =>
      _ ← update_receipt (set_commit CommitStatus.Committed);
      settle_and_verify reservation
    end).

Definition check : Stage (Result unit) :=
  stop ← read_stop;
  if stop : bool then mret (fail ErrorCode.Cancelled "operation cancelled")
  else (now ← read_clock; mret (context_check context false now)).

Definition execute : Stage (Result unit) :=
  and_then check (λ _,
  and_then resolve_target (λ target,
  _ ← update_receipt (set_revision (snapshot_revision target));
  and_then (refresh_mapping target) (λ _,
  and_then (if opt_force options then mret (Ok ()) else wait_for_actionability target) (λ _,
  and_then (reserve_route target) execute_reserved)))).

Definition neutralization_error (e : Error) (locator : string) : Error :=
  MkError ErrorCode.NeutralizationFailed (err_message e) "" locator [] ErrorDisposition.Fatal
    (err_diagnostics e).

Definition neutralize_seat : Stage unit :=
  seat ← ask has_seat;
  if negb seat then mret ()
  else
    result ← call seat_neutralize CallNeutralize;
    match result with
    | Ok outcome => update_receipt (set_receipt_neutralization outcome)
    | Err e =>
      _ ← update_receipt (set_receipt_neutralization NeutralizationOutcome.Failed);
      _ ← context_note ("input neutralization failed: " +:+ err_message e);
      modify (λ r,
        match run_error r with
        | Some _ => r
        | None => set_error r (Some (neutralization_error e (rc_locator (run_receipt r))))
        end)
    end.

(** [TransactionRunner::run]; the outcome is the receipt and error of the last state. *)
Definition run : Stage unit :=
  result ← execute;
  _ ← (match result with
       | Ok _ => mret ()
       | Err e =>
         _ ← modify (λ r, set_error r (Some e));
         context_note ("action transaction failed: " +:+ err_message e)
       end);
  _ ← neutralize_seat;
  modify (λ r, set_receipt r (set_receipt_log (log_snapshot (run_log r)) (run_receipt r))).

End runner.

(** A member of a JSON object, [label] quoted. *)
Definition json_member (label value : string) : string :=
  let quote := String (Ascii.ascii_of_nat 34) "" in quote +:+ label +:+ quote +:+ ":" +:+ value.

Definition match_target_string (m : Match) : string :=
  let ref := match_ref m in
  let quote := String (Ascii.ascii_of_nat 34) "" in
  "{" +:+ json_member "type" (quote +:+ "match" +:+ quote) +:+
  "," +:+ json_member "runtime" (pretty (ref_runtime ref)) +:+
  "," +:+ json_member "tree" (pretty (ref_tree ref)) +:+
  "," +:+ json_member "epoch" (pretty (ref_epoch ref)) +:+
  "," +:+ json_member "node" (pretty (ref_node ref)) +:+
  "," +:+ json_member "generation" (pretty (ref_generation ref)) +:+ "}".

(** [None] stands for the exception of a text that is not UTF-8. *)
Definition canonical_target `{JsonText} (target : ActionTarget) : option string :=
  match target with
  | TargetLocator locator => locator_to_string locator
  | TargetMatch m => Some (match_target_string m)
  end.

Definition first_receipt (operation : N) (name : string) (options : ActionOptions) : Receipt :=
  MkReceipt operation name 0 CommitStatus.FailedBeforeCommit [] [] [] [] (opt_force options) false
    NeutralizationOutcome.NotAttempted (opt_retry options) 0 [].

Inductive Performed :=
  | Thrown
  | Performed_ (outcome : TransactionOutcome) (last : Run).

(** [Transaction::perform] in a world, with the operation id it draws. *)
Definition perform `{JsonText} (fuel : nat) (tree : N) (action : Action) (options : ActionOptions)
    (operation : N) (w : World) : option Performed :=
  let w := tick w in
  let context := MkContext (deadline_after (clock w) (opt_deadline options)) operation None in
  match canonical_target (target_of action) with
  | None => Some Thrown
  | Some name =>
    match run fuel tree action options context
            (MkRun w [] default_log [] None (first_receipt operation name options) None) with
    | Some (_, r) => Some (Performed_ (MkOutcome (run_receipt r) (run_error r)) r)
    | None => None
    end
  end.

End action.
