(* ===== verification/ActionProtocol.v ===== *)
(** The protocol of a transaction: the calls it may make, one after the other, and that
    [run] keeps to it. *)

From S2P Require Import Prelude Errors UiTree Locator Query Context ActionTypes Action.

Local Open Scope nat_scope.
Local Open Scope list_scope.

Section protocol.
Context `{Runtime} (action : Action) (options : ActionOptions).

(** Where a transaction stands: looking at the tree, with the wait that is open; asking
    the routes that are left; arming the barriers that are left; committed; settled;
    verified; at the end of what it may do, with the status of its commit; neutralized. *)
Inductive Phase :=
  | Looking (open : option string)
  | Choosing (left : list nat)
  | Arming (reservation : Reservation) (left : list string)
  | Landed (reservation : Reservation)
  | Settled (reservation : Reservation)
  | Proved (reservation : Reservation)
  | Ended (commit : CommitStatus)
  | Released (commit : CommitStatus).

Definition phase_commit (ph : Phase) : CommitStatus :=
  match ph with
  | Looking _ | Choosing _ | Arming _ _ => CommitStatus.FailedBeforeCommit
  | Landed _ | Settled _ => CommitStatus.Committed
  | Proved _ => CommitStatus.Verified
  | Ended commit | Released commit => commit
  end.

(** No wait is left open, and the seat was not neutralized yet. *)
Definition resting (ph : Phase) : bool :=
  match ph with Looking (Some _) | Released _ => false | _ => true end.

(** The status a failed commit or reservation leaves behind. *)
Definition failure_commit (e : Error) : CommitStatus :=
  if decide (err_code e = ErrorCode.PossiblyCommitted) then CommitStatus.PossiblyCommitted
  else CommitStatus.FailedBeforeCommit.

(** A snapshot of the runtime, tree and epoch of a reference that has its node, of its
    generation and with the bit of [NodeState::Enabled] set. *)
Definition shows_enabled (snapshot : UiSnapshot) (ref : WidgetRef) : Prop :=
  let m := snap_metadata snapshot in
  meta_runtime m = ref_runtime ref ∧ meta_tree m = ref_tree ref ∧ meta_epoch m = ref_epoch ref ∧
  ∃ record, snapshot_node snapshot (ref_node ref) = Some record ∧
    node_generation record = ref_generation ref ∧ N.testbit (node_states record) 4 = true.

(** The last thing seen is the target of a request: itself, and enabled. *)
Definition shows_target (before : list Call) (m : Match) : Prop :=
  ∃ earlier snapshot, before =
    earlier ++ [CallSnapshot (ref_tree (match_ref m)) (Ok snapshot); CallDisable "actionable" (Ok ())] ∧
    shows_enabled snapshot (match_ref m).

(** [index] is the next route to ask, those before it in the order having no executor. *)
Definition asks (before : list Call) (ph : Phase) (request : ActionRequest) (index : nat)
    (left : list nat) : Prop :=
  match ph with
  | Looking None =>
    ∃ w skipped, route_order (routes w) (opt_routing options) = skipped ++ index :: left ∧
      (opt_force options = true ∨ shows_target before (rq_target request))
  | Choosing order => ∃ skipped, order = skipped ++ index :: left
  | _ => False
  end.

Inductive protocol (before : list Call) : Phase → Call → Phase → Prop :=
  | p_snapshot open tree r : protocol before (Looking open) (CallSnapshot tree r) (Looking open)
  | p_mapping target r : protocol before (Looking None) (CallMapping target r) (Looking None)
  | p_enable spec : protocol before (Looking None) (CallEnable spec (Ok ())) (Looking (Some spec))
  | p_enable_failed spec e : protocol before (Looking None) (CallEnable spec (Err e)) (Looking None)
  | p_wait spec maximum_wait r :
    protocol before (Looking (Some spec)) (CallWait spec maximum_wait r) (Looking (Some spec))
  | p_disable spec r : protocol before (Looking (Some spec)) (CallDisable spec r) (Looking None)
  | p_rejected ph index m left e :
    asks before ph (action_request action m) index left → err_code e ≠ ErrorCode.PossiblyCommitted →
    protocol before ph (CallReserve index (action_request action m) (Err e)) (Choosing left)
  | p_uncertain ph index m left e :
    asks before ph (action_request action m) index left → err_code e = ErrorCode.PossiblyCommitted →
    protocol before ph (CallReserve index (action_request action m) (Err e))
      (Ended CommitStatus.PossiblyCommitted)
  | p_reserved ph index m left reservation :
    asks before ph (action_request action m) index left →
    protocol before ph (CallReserve index (action_request action m) (Ok reservation))
      (Arming reservation (reservation_barriers reservation))
  | p_armed reservation name names :
    protocol before (Arming reservation (name :: names)) (CallArm reservation name (Ok ()))
      (Arming reservation names)
  | p_arm_failed reservation name names e :
    protocol before (Arming reservation (name :: names)) (CallArm reservation name (Err e))
      (Ended CommitStatus.FailedBeforeCommit)
  | p_commit reservation :
    protocol before (Arming reservation []) (CallCommit reservation (Ok ())) (Landed reservation)
  | p_commit_failed reservation e :
    protocol before (Arming reservation []) (CallCommit reservation (Err e)) (Ended (failure_commit e))
  | p_settle reservation l :
    protocol before (Landed reservation) (CallSettle reservation (Ok l)) (Settled reservation)
  | p_settle_failed reservation e :
    protocol before (Landed reservation) (CallSettle reservation (Err e)) (Ended CommitStatus.Committed)
  | p_verify reservation :
    protocol before (Settled reservation) (CallVerify reservation (Ok ())) (Proved reservation)
  | p_verify_failed reservation e :
    protocol before (Settled reservation) (CallVerify reservation (Err e)) (Ended CommitStatus.Committed)
  | p_neutralize ph r :
    resting ph = true → protocol before ph (CallNeutralize r) (Released (phase_commit ph)).

Inductive follows : list Call → Phase → Prop :=
  | follows_nil : follows [] (Looking None)
  | follows_snoc calls ph c ph' :
    follows calls ph → protocol calls ph c ph' → follows (calls ++ [c]) ph'.

(** ** Reasoning about steps *)

(** Partial correctness: what holds of the result and state when a step returns. *)
Definition after_ {A} (P : Run → Prop) (m : Stage A) (Q : A → Run → Prop) : Prop :=
  ∀ r, P r → ∀ x r', m r = Some (x, r') → Q x r'.

Lemma after_ret {A} (x : A) P Q : (∀ r, P r → Q x r) → after_ P (mret x) Q.
Proof. intros HQ r Hr y r' [= <- <-]. by apply HQ. Qed.

Lemma after_bind {A B} (m : Stage A) (k : A → Stage B) P Q R :
  after_ P m R → (∀ x, after_ (R x) (k x) Q) → after_ P (x ← m; k x) Q.
Proof.
  intros Hm Hk r Hr y r' E. unfold mbind, step_bind in E.
  destruct (m r) as [[x r1]|] eqn:Em; [|done]. exact (Hk x r1 (Hm r Hr x r1 Em) y r' E).
Qed.

Lemma after_and_then {A B} (m : Stage (Result A)) (k : A → Stage (Result B)) P Q R :
  after_ P m (λ x r, match x with Ok x => R x r | Err e => Q (Err e) r end) →
  (∀ x, after_ (R x) (k x) Q) → after_ P (and_then m k) Q.
Proof.
  intros Hm Hk. apply (after_bind _ _ _ _ _ Hm). intros [x|e]; [apply Hk|by apply after_ret].
Qed.

Lemma after_weaken {A} (m : Stage A) (P P' : Run → Prop) (Q Q' : A → Run → Prop) :
  after_ P m Q → (∀ r, P' r → P r) → (∀ x r, Q x r → Q' x r) → after_ P' m Q'.
Proof. intros Hm HP HQ r Hr x r' E. eapply HQ, Hm; [by apply HP|done]. Qed.

Lemma after_if {A} (b : bool) (m n : Stage A) P Q :
  after_ P m Q → after_ P n Q → after_ P (if b then m else n) Q.
Proof. by destruct b. Qed.

Lemma after_call {A} (op : World → A * World) what P (Q : A → Run → Prop) :
  (∀ r x w, P r → Q x (note_call r w (what x))) → after_ P (call op what) Q.
Proof. intros HQ r Hr x r'. unfold call. destruct (op _) as [y w]. intros [= <- <-]. by apply HQ. Qed.

Lemma after_modify f P (Q : unit → Run → Prop) : (∀ r, P r → Q () (f r)) → after_ P (modify f) Q.
Proof. intros HQ r Hr [] r' [= <-]. by apply HQ. Qed.

Lemma after_ask {A} (f : World → A) P : after_ P (ask f) (λ x r, P r ∧ x = f (run_world r)).
Proof. by intros r Hr x r' [= <- <-]. Qed.

(** The state of the protocol; it depends on the calls and the receipt's status. *)
Definition at_ (ph : Phase) (r : Run) : Prop :=
  follows (run_calls r) ph ∧ rc_commit (run_receipt r) = phase_commit ph ∧ run_error r = None.

Lemma at_same ph r r' :
  at_ ph r → run_calls r' = run_calls r → rc_commit (run_receipt r') = rc_commit (run_receipt r) →
  run_error r' = run_error r → at_ ph r'.
Proof. intros (Hf & Hc & He) Ec Er Ee. split_and!; congruence. Qed.

Lemma at_call ph ph' r c w :
  at_ ph r → protocol (run_calls r) ph c ph' → phase_commit ph' = phase_commit ph →
  at_ ph' (note_call r w c).
Proof.
  intros (Hf & Hc & He) Hp Hs. split_and!; [by eapply follows_snoc|cbn; congruence|done].
Qed.

(** Steps that make no call and leave the receipt's status alone. *)
Definition quiet {A} (m : Stage A) : Prop :=
  ∀ r x r', m r = Some (x, r') →
    run_calls r' = run_calls r ∧ rc_commit (run_receipt r') = rc_commit (run_receipt r) ∧
    run_error r' = run_error r.

Lemma quiet_after {A} (m : Stage A) (Q : A → Prop) ph :
  quiet m → (∀ r x r', m r = Some (x, r') → Q x) → after_ (at_ ph) m (λ x r, at_ ph r ∧ Q x).
Proof. intros Hm HQ r Hr x r' E. destruct (Hm r x r' E) as (? & ? & ?). split; [by eapply at_same|eauto]. Qed.

Lemma quiet_at {A} (m : Stage A) ph : quiet m → after_ (at_ ph) m (λ _, at_ ph).
Proof. intros Hm r Hr x r' E. destruct (Hm r x r' E) as (? & ? & ?). by eapply at_same. Qed.

Lemma quiet_bind {A B} (m : Stage A) (k : A → Stage B) : quiet m → (∀ x, quiet (k x)) → quiet (x ← m; k x).
Proof.
  intros Hm Hk r y r' E. unfold mbind, step_bind in E. destruct (m r) as [[x r1]|] eqn:Em; [|done].
  destruct (Hm _ _ _ Em) as (? & ? & ?), (Hk _ _ _ _ E) as (? & ? & ?). split_and!; congruence.
Qed.

Lemma quiet_ret {A} (x : A) : quiet (mret x).
Proof. by intros r y r' [= <- <-]. Qed.

Lemma quiet_read_clock : quiet read_clock.
Proof. by intros r y r' [= <- <-]. Qed.

Lemma quiet_read_stop : quiet read_stop.
Proof. by intros r y r' [= <- <-]. Qed.

Lemma quiet_ask {A} (f : World → A) : quiet (ask f).
Proof. by intros r y r' [= <- <-]. Qed.

Lemma quiet_note message : quiet (context_note message).
Proof. apply quiet_bind; [apply quiet_read_clock|]. by intros now r y r' [= <- <-]. Qed.

Lemma quiet_receipt f :
  (∀ receipt, rc_commit (f receipt) = rc_commit receipt) → quiet (update_receipt f).
Proof. intros Hf r y r' [= <- <-]. by rewrite <- (Hf (run_receipt r)). Qed.

Lemma quiet_demand {A} (x : option A) : quiet (demand_result x).
Proof. intros r y r'. unfold demand_result. destruct x; cbn; [|done]. by intros [= <- <-]. Qed.

Lemma quiet_found : quiet found_match.
Proof. intros r y r'. unfold found_match. destruct (run_resolved r); cbn; [|done]. by intros [= <- <-]. Qed.

Lemma quiet_get_cell cell : quiet (get_cell cell).
Proof. by intros r y r' [= <- <-]. Qed.

Lemma quiet_set_cell cell state : quiet (set_cell cell state).
Proof. by intros r y r' [= <- <-]. Qed.

Lemma quiet_stable observer required : quiet (state_stable observer required).
Proof. by intros r y r' [= <- <-]. Qed.

End protocol.

Create HintDb quiet.
#[export] Hint Resolve quiet_bind quiet_ret quiet_read_clock quiet_read_stop quiet_ask quiet_note
  quiet_demand quiet_found quiet_get_cell quiet_set_cell quiet_stable : quiet.
