(* ===== verification/ActionRuns.v ===== *)
(** The stages of a transaction keep to its protocol, and what each of them has seen
    when it succeeds. *)

From S2P Require Import Prelude Errors UiTree Locator Json LocatorText Query QueryTheorems Context ActionTypes Action ActionProtocol.

Local Open Scope nat_scope.
Local Open Scope list_scope.

Section runs.
Context `{Runtime} (fuel : nat) (tree : N) (action : Action) (options : ActionOptions)
  (context : OperationContext).

Local Abbreviation at_ := (at_ action options).
Local Abbreviation follows := (follows action options).
Local Abbreviation protocol := (protocol action options).

(** ** Looking *)

(** Steps that only look at the tree. *)
Definition looks {A} (m : Stage A) : Prop := ∀ open, after_ (at_ (Looking open)) m (λ _, at_ (Looking open)).

Lemma looks_quiet {A} (m : Stage A) : quiet m → looks m.
Proof. intros Hm open. by apply quiet_at. Qed.

Lemma looks_bind {A B} (m : Stage A) (k : A → Stage B) : looks m → (∀ x, looks (k x)) → looks (x ← m; k x).
Proof. intros Hm Hk open. eapply after_bind; [apply Hm|]. intros x. apply Hk. Qed.

Lemma looks_and_then {A B} (m : Stage (Result A)) (k : A → Stage (Result B)) :
  looks m → (∀ x, looks (k x)) → looks (and_then m k).
Proof. intros Hm Hk. apply looks_bind; [done|]. intros [x|e]; [apply Hk|apply looks_quiet; auto with quiet]. Qed.

Lemma looks_snapshot id : looks (take_snapshot id).
Proof. intros open. apply after_call. intros r x w Hr. eapply at_call; [done|constructor|done]. Qed.

Lemma looks_if {A} (b : bool) (m n : Stage A) : looks m → looks n → looks (if b then m else n).
Proof. by destruct b. Qed.

Lemma looks_resolve_once : looks (resolve_once tree action options).
Proof.
  apply looks_bind; [apply looks_quiet; auto with quiet|]. intros source.
  apply looks_if; [apply looks_quiet; auto with quiet|]. destruct (target_of action) as [l|m].
  - apply looks_and_then; [apply looks_snapshot|]. intros s. apply looks_quiet; auto with quiet.
  - unfold refresh_match. case_decide; [apply looks_quiet; auto with quiet|].
    apply looks_and_then; [apply looks_snapshot|]. intros s. apply looks_quiet; auto with quiet.
Qed.

Lemma looks_node_observer target : looks (node_observer target).
Proof.
  apply looks_bind; [apply looks_quiet; auto with quiet|]. intros source.
  apply looks_if; [apply looks_quiet; auto with quiet|].
  apply looks_and_then; [apply looks_snapshot|]. intros s. apply looks_quiet; auto with quiet.
Qed.

(** ** Waiting *)

Lemma finish_wait_closes spec result :
  after_ (at_ (Looking (Some spec))) (finish_wait spec result) (λ _, at_ (Looking None)).
Proof.
  eapply after_bind.
  { apply after_call with (Q := λ _ r, at_ (Looking None) r). intros r x w Hr.
    eapply at_call; [done|constructor|done]. }
  intros [u|e]; [by apply after_ret|]. apply quiet_at. apply quiet_bind; auto with quiet.
Qed.

Lemma quiet_timeout spec last : quiet (timeout spec last).
Proof. unfold timeout. auto with quiet. Qed.

Lemma wait_loop_closes n spec observe deadline max backoff :
  looks observe →
  after_ (at_ (Looking (Some spec))) (wait_loop n spec observe deadline max backoff)
    (λ _, at_ (Looking None)).
Proof.
  intros Hobs. revert backoff. induction n as [|n IH]; intros backoff; [by intros r _ x r'|].
  assert (∀ last, after_ (at_ (Looking (Some spec)))
    (result ← timeout spec last; finish_wait spec result) (λ _, at_ (Looking None))) as Htime.
  { intros last. eapply after_bind; [apply quiet_at, quiet_timeout|]. intros x. apply finish_wait_closes. }
  cbn [wait_loop]. eapply after_bind; [apply quiet_at; auto with quiet|]. intros stop.
  apply after_if; [apply finish_wait_closes|]. eapply after_bind; [apply Hobs|].
  intros [o|e]; [|apply finish_wait_closes]. apply after_if; [apply finish_wait_closes|].
  eapply after_bind; [apply quiet_at; auto with quiet|]. intros now. apply after_if; [apply Htime|].
  eapply after_bind; [apply quiet_at; auto with quiet|]. intros now'.
  eapply after_bind.
  { apply after_call with (Q := λ _ r, at_ (Looking (Some spec)) r). intros r x w Hr.
    eapply at_call; [done|constructor|done]. }
  intros [u|e]; [apply IH|]. case_decide; [apply Htime|apply finish_wait_closes].
Qed.

Lemma wait_keeps deadline predicate params :
  (∀ observe, np_observe predicate = Some observe → looks observe) →
  after_ (at_ (Looking None)) (wait fuel deadline predicate params) (λ _, at_ (Looking None)).
Proof.
  intros Hobs. unfold wait. destruct (np_observe predicate) as [observe|]; [|by apply after_ret].
  case_decide; [by apply after_ret|]. case_decide; [by apply after_ret|].
  eapply after_and_then; [|intros x; by apply wait_loop_closes, Hobs].
  apply after_call. intros r [[]|e] w Hr; (eapply at_call; [done|constructor|done]).
Qed.

Lemma resolve_target_keeps :
  after_ (at_ (Looking None)) (resolve_target fuel tree action options context) (λ _, at_ (Looking None)).
Proof.
  eapply after_bind; [apply looks_resolve_once|]. intros [m|e]; [by apply after_ret|].
  case_decide; [by apply after_ret|]. apply after_if; [by apply after_ret|].
  eapply after_bind; [apply quiet_at; auto with quiet|]. intros events.
  apply after_if; [by apply after_ret|].
  apply (after_and_then _ _ _ _ (λ _, at_ (Looking None))).
  - eapply after_weaken; [apply wait_keeps|done|by intros [?|?] r].
    intros observe [= <-]. apply looks_bind.
    + apply looks_quiet, quiet_receipt. done.
    + intros _. apply looks_bind; [apply looks_resolve_once|]. intros [m|e'].
      * apply looks_bind; [|intros _; apply looks_quiet; auto with quiet].
        apply looks_quiet. by intros r x r' [= <- <-].
      * apply looks_quiet. auto with quiet.
  - intros _. apply quiet_at, quiet_found.
Qed.

(** What a wait that succeeds has seen: its predicate was satisfied, and the event was
    disabled right afterwards. *)
Definition seen_before (spec : string) (P : Run → Prop) (x : Result unit) (r : Run) : Prop :=
  x = Ok () → ∃ r0, P r0 ∧ run_calls r = run_calls r0 ++ [CallDisable spec (Ok ())] ∧
    run_resolved r = run_resolved r0.

Lemma finish_wait_fails spec e P Q : after_ P (finish_wait spec (Err e)) (seen_before spec Q).
Proof.
  eapply after_weaken with (P := P) (Q := λ x _, x = Err e); [|done|by intros x r -> [=]].
  unfold finish_wait. eapply after_bind with (R := λ _ _, True); [by apply after_call|].
  intros [u|e']; [by apply after_ret|]. eapply after_bind with (R := λ _ _, True); [done|].
  intros u. by apply after_ret.
Qed.

Lemma finish_wait_succeeds spec P : after_ P (finish_wait spec (Ok ())) (seen_before spec P).
Proof.
  unfold finish_wait. eapply after_bind with (R := λ x r, x = Ok () → ∃ r0, P r0 ∧
    run_calls r = run_calls r0 ++ [CallDisable spec (Ok ())] ∧ run_resolved r = run_resolved r0).
  { apply after_call. intros r x w Hr ->. by exists r. }
  intros [[]|e]; [apply after_ret; auto|].
  eapply after_bind with (R := λ _ _, True); [done|]. intros u. by apply after_ret.
Qed.

Lemma wait_loop_seen n spec observe deadline max backoff P :
  after_ (λ _, True) observe (λ x r, ∀ o, x = Ok o → satisfied o = true → P r) →
  after_ (λ _, True) (wait_loop n spec observe deadline max backoff) (seen_before spec P).
Proof.
  intros Hobs. revert backoff. induction n as [|n IH]; intros backoff; [by intros r _ x r'|].
  assert (∀ last, after_ (λ _, True) (result ← timeout spec last; finish_wait spec result)
    (seen_before spec P)) as Htime.
  { intros last. eapply after_bind with (R := λ x _, ∃ e, x = Err e).
    - unfold timeout. eapply after_bind with (R := λ _ _, True); [done|]. intros _.
      eapply after_bind with (R := λ _ _, True); [done|]. intros now. apply after_ret. by eexists.
    - intros x r (e & ->). by apply (finish_wait_fails spec e (λ _, True)). }
  cbn [wait_loop]. eapply after_bind with (R := λ _ _, True); [done|]. intros stop.
  apply after_if; [apply finish_wait_fails|].
  eapply after_bind; [apply Hobs|]. intros [o|e]; [|apply finish_wait_fails].
  destruct (satisfied o) eqn:Eo.
  { eapply after_weaken; [apply (finish_wait_succeeds spec P)|naive_solver|done]. }
  eapply after_bind with (R := λ _ _, True); [done|]. intros now. apply after_if; [apply Htime|].
  eapply after_bind with (R := λ _ _, True); [done|]. intros now'.
  eapply after_bind with (R := λ _ _, True); [done|].
  intros [u|e]; [apply IH|]. case_decide; [apply Htime|apply finish_wait_fails].
Qed.

Lemma wait_seen deadline predicate params observe P :
  np_observe predicate = Some observe →
  after_ (λ _, True) observe (λ x r, ∀ o, x = Ok o → satisfied o = true → P r) →
  after_ (λ _, True) (wait fuel deadline predicate params) (seen_before (np_name predicate) P).
Proof.
  intros E Hobs. unfold wait. rewrite E. case_decide; [by apply after_ret|]. case_decide; [by apply after_ret|].
  eapply (after_and_then _ _ _ _ (λ _ _, True)); [|intros x; by apply wait_loop_seen].
  by intros r _ [x|e] r' _.
Qed.

(** ** Actionability *)

Definition live (target : Match) (r : Run) : Prop :=
  ∃ earlier snapshot,
    run_calls r = earlier ++ [CallSnapshot (ref_tree (match_ref target)) (Ok snapshot)] ∧
    shows_enabled snapshot (match_ref target).

Lemma has_state_enabled states : has_state states state_enabled = true → N.testbit states 4 = true.
Proof.
  unfold has_state. rewrite negb_true_iff, bool_decide_eq_false. intros Hne.
  destruct (N.testbit states 4) eqn:E; [done|]. destruct Hne. apply N.bits_inj. intros i.
  rewrite N.land_spec, N.bits_0. change state_enabled with (2 ^ 4)%N.
  destruct (decide (i = 4%N)) as [->|]; [by rewrite E|]. by rewrite N.pow2_bits_false, andb_false_r.
Qed.

Lemma identity_shows snapshot ref :
  identity_matches (snapshot_nav snapshot) ref = true →
  has_state (nav_states (snapshot_nav snapshot) (ref_node ref)) state_enabled = true →
  shows_enabled snapshot ref.
Proof.
  unfold identity_matches. cbn. rewrite !andb_true_iff, !bool_decide_eq_true.
  intros [[[[Hr Ht] He] [record Hn]] Hg] Hs%has_state_enabled. unfold field_of in *. rewrite Hn in *.
  cbn in *. split_and!; [done..|]. by exists record.
Qed.

Lemma node_observer_sees target :
  after_ (λ _, True) (node_observer target) (λ x r, ∀ o, x = Ok o → present o = true →
    has_state (observed_states o) state_enabled = true → live target r).
Proof.
  unfold node_observer. eapply after_bind with (R := λ _ _, True); [done|]. intros source.
  apply after_if; [by apply after_ret|].
  apply (after_and_then _ _ _ _ (λ snapshot r, ∃ earlier,
    run_calls r = earlier ++ [CallSnapshot (ref_tree (match_ref target)) (Ok snapshot)])).
  { apply after_call. intros r [s|e] w _; [by eexists|done]. }
  intros s. apply after_ret. intros r (earlier & Hr) o [= <-]. cbn. intros Hid. rewrite Hid.
  intros Hen. exists earlier, s. split; [done|]. by apply identity_shows.
Qed.

Lemma enabled_sees target observe :
  np_observe (enabled (node_observer target)) = Some observe →
  after_ (λ _, True) observe (λ x r, ∀ o, x = Ok o → satisfied o = true → live target r).
Proof.
  intros [= <-]. unfold of_node.
  apply (after_and_then _ _ _ _ (λ o r, present o = true →
    has_state (observed_states o) state_enabled = true → live target r)).
  - eapply after_weaken; [apply (node_observer_sees target)|done|]. intros [o|e] r Hx; [by apply Hx|done].
  - intros o. apply after_ret. intros r Hr o' [= <-]. cbn. by intros [? ?]%andb_true_iff; apply Hr.
Qed.

Lemma observe_all_last predicates predicate observe P :
  np_observe predicate = Some observe →
  after_ (λ _, True) observe (λ x r, ∀ o, x = Ok o → satisfied o = true → P r) →
  after_ (λ _, True) (observe_all (predicates ++ [predicate]))
    (λ x r, ∀ o, x = Ok o → satisfied o = true → P r).
Proof.
  intros E Hobs. induction predicates as [|p predicates IH]; cbn [app observe_all].
  - rewrite E. apply (after_and_then _ _ _ _ (λ o r, satisfied o = true → P r)).
    + eapply after_weaken; [apply Hobs|done|]. intros [o|e] r Hx; [by apply Hx|done].
    + intros o. destruct (satisfied o); cbn; apply after_ret; [intros; auto|by intros r _ o' [= <-]].
  - destruct (np_observe p) as [op|]; [|by apply after_ret].
    apply (after_and_then _ _ _ _ (λ _ _, True)); [by intros r _ [x|e] r' _|].
    intros o. apply after_if; [apply after_ret; by intros r _ o' [= <-]|apply IH].
Qed.

Lemma actionability_seen target :
  after_ (λ _, True) (wait_for_actionability fuel context target)
    (λ x r, x = Ok () → shows_target (run_calls r) target).
Proof.
  unfold wait_for_actionability. eapply after_bind with (R := λ _ _, True); [done|]. intros events.
  apply after_if; [by apply after_ret|]. eapply after_bind with (R := λ _ _, True); [done|].
  intros stable. eapply after_weaken; [eapply wait_seen with (P := live target)|done|].
  - done.
  - apply (observe_all_last [node_present (node_observer target); stable]
      (enabled (node_observer target)) _ _ eq_refl). by apply enabled_sees.
  - intros x r Hx Ex. destruct (Hx Ex) as (r0 & (earlier & s & Hc & Hen) & Hr & _).
    exists earlier, s. rewrite Hr, Hc, <- app_assoc. done.
Qed.

Lemma looks_stability target cell : looks (observe_stability (node_observer target) 2 cell).
Proof.
  unfold observe_stability. case_decide; [apply looks_quiet; auto with quiet|].
  apply looks_and_then; [apply looks_node_observer|]. intros o. apply looks_quiet.
  apply quiet_bind; [apply quiet_get_cell|]. intros state. apply quiet_bind; [apply quiet_set_cell|].
  intros _. apply quiet_ret.
Qed.

Lemma looks_of_node target judge : looks (of_node (node_observer target) judge).
Proof. apply looks_and_then; [apply looks_node_observer|]. intros o. apply looks_quiet; auto with quiet. Qed.

Lemma looks_all predicates :
  Forall (λ p, ∀ observe, np_observe p = Some observe → looks observe) predicates →
  looks (observe_all predicates).
Proof.
  induction 1 as [|p predicates Hp _ IH]; cbn; [apply looks_quiet; auto with quiet|].
  destruct (np_observe p) as [observe|]; [|apply looks_quiet; auto with quiet].
  apply looks_and_then; [by apply Hp|]. intros o. apply looks_if; [apply looks_quiet; auto with quiet|done].
Qed.

Lemma actionability_keeps target :
  after_ (at_ (Looking None)) (wait_for_actionability fuel context target) (λ _, at_ (Looking None)).
Proof.
  unfold wait_for_actionability. eapply after_bind; [apply quiet_at; auto with quiet|]. intros events.
  apply after_if; [by apply after_ret|].
  eapply after_bind with (R := λ p r, (∃ cell, np_observe p =
    Some (observe_stability (node_observer target) 2 cell)) ∧ at_ (Looking None) r).
  { intros r Hr x r' [= <- <-]. split; [by eexists|]. by eapply at_same. }
  intros stable r [(cell & Ecell) Hr]. revert r Hr. apply wait_keeps. intros observe E.
  change (Some (observe_all [node_present (node_observer target); stable;
    enabled (node_observer target)]) = Some observe) in E. apply (inj Some) in E as <-.
  apply looks_all. repeat apply Forall_cons_2; [| | |apply Forall_nil_2].
  - intros observe [= <-]. apply looks_of_node.
  - intros observe. rewrite Ecell. intros [= <-]. apply looks_stability.
  - intros observe [= <-]. apply looks_of_node.
Qed.

(** ** Routes *)

(** The routes of [order] may be asked next. *)
Definition can_ask (before : list Call) (ph : Phase) (target : Match) (order : list nat) : Prop :=
  match ph with
  | Looking None =>
    ∃ w skipped, route_order (routes w) (opt_routing options) = skipped ++ order ∧
      (opt_force options = true ∨ shows_target before target)
  | Choosing rest => ∃ skipped, rest = skipped ++ order
  | _ => False
  end.

Lemma action_request_target target : rq_target (action_request action target) = target.
Proof. by destruct action. Qed.

Lemma can_ask_asks before ph target index left :
  can_ask before ph target (index :: left) → asks options before ph (action_request action target) index left.
Proof.
  destruct ph as [[]| | | | | | |]; cbn; try done. rewrite action_request_target. done.
Qed.

Lemma can_ask_skip before ph target index left :
  can_ask before ph target (index :: left) → can_ask before ph target left.
Proof.
  destruct ph as [[]| | | | | | |]; cbn; try done.
  - intros (w & skipped & E & Hs). exists w, (skipped ++ [index]). by rewrite <- app_assoc.
  - intros (skipped & E). exists (skipped ++ [index]). by rewrite <- app_assoc.
Qed.

Lemma can_ask_resting before ph target order :
  can_ask before ph target order →
  resting ph = true ∧ phase_commit ph = CommitStatus.FailedBeforeCommit.
Proof. by destruct ph as [[]| | | | | | |]. Qed.

(** The end of a transaction that did not get as far as verifying. *)
Definition given_up (r : Run) : Prop :=
  ∃ ph, at_ ph r ∧ resting ph = true ∧ phase_commit ph ≠ CommitStatus.Verified.

Lemma at_commit ph r commit :
  follows (run_calls r) ph → run_error r = None → phase_commit ph = commit →
  at_ ph (set_receipt r (set_commit commit (run_receipt r))).
Proof. intros Hf He <-. by split_and!. Qed.

Lemma reserve_along_keeps descriptors target order :
  after_ (λ r, ∃ ph, at_ ph r ∧ can_ask (run_calls r) ph target order)
    (reserve_along options descriptors (action_request action target) order)
    (λ x r, match x with
            | Ok reservation => at_ (Arming reservation (reservation_barriers reservation)) r
            | Err _ => given_up r
            end).
Proof.
  induction order as [|index order IH]; cbn [reserve_along].
  - intros r (ph & Hat & Hask) x r' [= <- <-]. exists ph.
    destruct (can_ask_resting _ _ _ _ Hask) as [? ->]. done.
  - eapply after_bind; [apply after_ask|]. intros route. destruct (negb route).
    { eapply after_bind with (R := λ _ r, ∃ ph, at_ ph r ∧ can_ask (run_calls r) ph target order); [|done].
      apply after_modify. intros r [(ph & Hat & Hask%can_ask_skip) _]. exists ph. by split. }
    eapply after_bind with (R := λ x r, match x with
      | Ok reservation => at_ (Arming reservation (reservation_barriers reservation)) r
      | Err e =>
        if decide (err_code e = ErrorCode.PossiblyCommitted)
        then follows (run_calls r) (Ended CommitStatus.PossiblyCommitted) ∧ run_error r = None
        else at_ (Choosing order) r end).
    { apply after_call. intros r x w [(ph & (Hf & Hc & He) & Hask) _].
      destruct (can_ask_resting _ _ _ _ Hask) as [_ Hph]. rewrite Hph in Hc. apply can_ask_asks in Hask.
      destruct x as [reservation|e]; [|case_decide].
      - split_and!; [|done|done]. eapply follows_snoc; [done|by eapply p_reserved].
      - split; [|done]. eapply follows_snoc; [done|by eapply p_uncertain].
      - split_and!; [|done|done]. eapply follows_snoc; [done|by eapply p_rejected]. }
    intros [reservation|e].
    + set (ph := Arming reservation (reservation_barriers reservation)).
      eapply after_bind with (R := λ _, at_ ph); [apply quiet_at, quiet_receipt; done|]. intros _.
      eapply after_bind with (R := λ _, at_ ph); [apply quiet_at, quiet_receipt; done|]. intros _.
      by apply after_ret.
    + destruct (decide (err_code e = ErrorCode.PossiblyCommitted)) as [Ecode|Ecode].
      * eapply after_bind with (R := λ _ r,
          follows (run_calls r) (Ended CommitStatus.PossiblyCommitted) ∧ run_error r = None);
          [by apply after_modify|]. intros _.
        eapply after_bind with (R := λ _ r, at_ (Ended CommitStatus.PossiblyCommitted) r).
        { apply after_modify. intros r [Hf He]. by apply at_commit. }
        intros _. apply after_ret. intros r Hr. by exists (Ended CommitStatus.PossiblyCommitted).
      * eapply after_bind with (R := λ _, at_ (Choosing order)); [apply quiet_at, quiet_receipt; done|].
        intros _. eapply after_weaken; [apply IH| |done]. intros r Hr. exists (Choosing order). split; [done|].
        by exists [].
Qed.

Lemma reserve_route_keeps target :
  after_ (λ r, at_ (Looking None) r ∧ (opt_force options = true ∨ shows_target (run_calls r) target))
    (reserve_route action options target)
    (λ x r, match x with
            | Ok reservation => at_ (Arming reservation (reservation_barriers reservation)) r
            | Err _ => given_up r
            end).
Proof.
  unfold reserve_route. eapply after_bind; [apply after_ask|]. intros descriptors.
  eapply after_weaken; [apply reserve_along_keeps| |done].
  intros r [[Hat Hs] ->]. exists (Looking None). split; [done|]. by exists (run_world r), [].
Qed.

(** ** Committing *)

Lemma given_up_ended commit r : at_ (Ended commit) r → commit ≠ CommitStatus.Verified → given_up r.
Proof. intros Hr Hc. by exists (Ended commit). Qed.

Lemma arm_barriers_keeps reservation names :
  after_ (at_ (Arming reservation names)) (arm_barriers reservation names)
    (λ x r, match x with Ok _ => at_ (Arming reservation []) r | Err _ => given_up r end).
Proof.
  induction names as [|name names IH]; cbn [arm_barriers]; [by apply after_ret|].
  eapply after_bind with (R := λ _, at_ (Arming reservation (name :: names)));
    [apply quiet_at, quiet_receipt; done|]. intros _.
  eapply (after_and_then _ _ _ _ (λ _, at_ (Arming reservation names))); [|intros _; apply IH].
  apply after_call. intros r [[]|e] w Hr.
  - eapply at_call; [done|constructor|done].
  - apply (given_up_ended CommitStatus.FailedBeforeCommit); [|done].
    eapply at_call; [done|constructor|done].
Qed.

Lemma settle_and_verify_keeps reservation :
  after_ (at_ (Landed reservation)) (settle_and_verify reservation)
    (λ x r, match x with Ok _ => at_ (Proved reservation) r | Err _ => given_up r end).
Proof.
  unfold settle_and_verify.
  eapply after_bind with (R := λ x, match x with
    | Ok _ => at_ (Settled reservation) | Err _ => at_ (Ended CommitStatus.Committed) end).
  { apply after_call. intros r [l|e] w Hr; (eapply at_call; [done|constructor|done]). }
  intros [l|e].
  - eapply after_bind with (R := λ _, at_ (Settled reservation)); [apply quiet_at, quiet_receipt; done|].
    intros _. eapply (after_and_then _ _ _ _ (λ _ r, follows (run_calls r) (Proved reservation) ∧ run_error r = None)).
    + apply after_call. intros r [[]|e] w Hr.
      * destruct Hr as (Hf & _ & He). split; [|done]. eapply follows_snoc; [done|constructor].
      * apply (given_up_ended CommitStatus.Committed); [|done]. eapply at_call; [done|constructor|done].
    + intros _. eapply after_bind with (R := λ _, at_ (Proved reservation)).
      * apply after_modify. intros r [Hf He]. by apply at_commit.
      * intros _. by apply after_ret.
  - eapply after_bind with (R := λ _, at_ (Ended CommitStatus.Committed));
      [apply quiet_at, quiet_receipt; intros receipt; by case_decide|]. intros _.
    apply after_ret. intros r Hr. by apply (given_up_ended CommitStatus.Committed).
Qed.

Lemma execute_reserved_keeps reservation :
  after_ (at_ (Arming reservation (reservation_barriers reservation))) (execute_reserved reservation)
    (λ x r, match x with Ok _ => at_ (Proved reservation) r | Err _ => given_up r end).
Proof.
  unfold execute_reserved.
  eapply (after_and_then _ _ _ _ (λ _, at_ (Arming reservation []))).
  { eapply after_weaken; [apply arm_barriers_keeps|done|done]. }
  intros _. eapply after_bind with (R := λ _ r, follows (run_calls r) (Arming reservation []) ∧
    rc_commit (run_receipt r) = CommitStatus.PossiblyCommitted ∧ run_error r = None).
  { apply after_modify. by intros r (Hf & _ & He). }
  intros _. eapply after_bind with (R := λ x r, run_error r = None ∧ match x with
    | Ok _ => follows (run_calls r) (Landed reservation)
    | Err e => follows (run_calls r) (Ended (failure_commit e)) ∧
      rc_commit (run_receipt r) = CommitStatus.PossiblyCommitted
    end).
  { apply after_call. intros r [[]|e] w (Hf & Hc & He); (split; [done|]).
    - eapply follows_snoc; [done|constructor].
    - split; [|done]. eapply follows_snoc; [done|constructor]. }
  intros [u|e].
  - eapply after_bind with (R := λ _, at_ (Landed reservation)); [|intros _; apply settle_and_verify_keeps].
    apply after_modify. intros r [He Hf]. by apply at_commit.
  - eapply after_bind with (R := λ _, at_ (Ended (failure_commit e))).
    + apply after_modify. intros r (He & Hf & Hc). unfold failure_commit in *.
      destruct (decide (err_code e = ErrorCode.PossiblyCommitted)) as [E|E].
      * rewrite decide_False by (intros H'; by apply H'). by split_and!.
      * rewrite decide_True by done. by apply at_commit.
    + intros _. apply after_ret. intros r Hr. apply (given_up_ended _ _ Hr).
      unfold failure_commit. by case_decide.
Qed.

(** ** The whole transaction *)

Lemma check_keeps : after_ (at_ (Looking None)) (check context) (λ _, at_ (Looking None)).
Proof.
  apply quiet_at. unfold check. apply quiet_bind; [auto with quiet|]. intros [|]; [auto with quiet|].
  apply quiet_bind; auto with quiet.
Qed.

Lemma given_up_looking r : at_ (Looking None) r → given_up r.
Proof. intros Hr. by exists (Looking None). Qed.

(** A stage that keeps looking, as part of [execute]. *)
Lemma after_looking {A B} (m : Stage (Result A)) (k : A → Stage (Result B)) (Q : Result B → Run → Prop)
    (R : A → Run → Prop) :
  after_ (at_ (Looking None)) m (λ _, at_ (Looking None)) →
  after_ (λ _, True) m (λ x r, match x with Ok x => R x r | Err _ => True end) →
  (∀ r e, given_up r → Q (Err e) r) →
  (∀ x, after_ (λ r, at_ (Looking None) r ∧ R x r) (k x) Q) →
  after_ (at_ (Looking None)) (and_then m k) Q.
Proof.
  intros Hm HR HQ Hk. apply (after_and_then _ _ _ _ (λ x r, at_ (Looking None) r ∧ R x r)); [|done].
  intros r Hr [x|e] r' E; [split; [by eapply Hm|exact (HR r I (Ok x) r' E)]|].
  apply HQ, given_up_looking. by eapply Hm.
Qed.

Definition executed (x : Result unit) (r : Run) : Prop :=
  match x with Ok _ => ∃ reservation, at_ (Proved reservation) r | Err _ => given_up r end.

Lemma execute_keeps : after_ (at_ (Looking None)) (execute fuel tree action options context) executed.
Proof.
  unfold execute.
  apply (after_looking _ _ _ (λ _ _, True)); [apply check_keeps|by intros r _ [|]|done|]. intros _.
  eapply after_weaken; [|by intros r [Hr _]; exact Hr|by intros ? ? Hq; exact Hq].
  apply (after_looking _ _ _ (λ _ _, True)); [apply resolve_target_keeps|by intros r _ [|]|done|].
  intros target. eapply after_bind with (R := λ _, at_ (Looking None)).
  { eapply after_weaken; [apply quiet_at, quiet_receipt; done|by intros r [Hr _]|done]. }
  intros _. apply (after_looking _ _ _ (λ _ _, True)); [|by intros r _ [|]|done|].
  { unfold refresh_mapping. destruct mapping_refresh as [refresh|]; [|by apply after_ret].
    apply (after_and_then _ _ _ _ (λ _, at_ (Looking None))).
    - apply after_call. intros r [l|e] w Hr; (eapply at_call; [done|constructor|done]).
    - intros transforms. apply quiet_at. apply quiet_bind; [by apply quiet_receipt|auto with quiet]. }
  intros _. eapply after_weaken; [|by intros r [Hr _]; exact Hr|by intros ? ? Hq; exact Hq].
  apply (after_looking _ _ _ (λ _ r, opt_force options = true ∨ shows_target (run_calls r) target)).
  - apply after_if; [by apply after_ret|apply actionability_keeps].
  - destruct (opt_force options) eqn:Ef; [apply after_ret; by left|].
    eapply after_weaken; [apply (actionability_seen target)|done|].
    intros [[]|e] r Hs; [right; by apply Hs|done].
  - done.
  - intros _. apply (after_and_then _ _ _ _ (λ reservation,
      at_ (Arming reservation (reservation_barriers reservation)))).
    + eapply after_weaken; [apply reserve_route_keeps|done|]. by intros [reservation|e] r Hr.
    + intros reservation. eapply after_weaken; [apply execute_reserved_keeps|done|].
      intros [[]|e] r Hr; [by exists reservation|done].
Qed.

Lemma neutralize_spec r x r' :
  neutralize_seat r = Some (x, r') →
  (has_seat (run_world r) = false ∧ r' = r) ∨
  ∃ result, run_calls r' = run_calls r ++ [CallNeutralize result] ∧
    rc_commit (run_receipt r') = rc_commit (run_receipt r) ∧
    (run_error r' = None ↔ run_error r = None ∧ is_ok result = true).
Proof.
  unfold neutralize_seat, mbind, step_bind, ask. destruct (has_seat (run_world r)); cbn [negb].
  - unfold call. destruct (seat_neutralize _) as [[outcome|e] w]; cbn.
    + intros [= <- <-]. right. exists (Ok outcome). cbn. naive_solver.
    + intros [= <- <-]. right. exists (Err e). cbn.
      destruct (run_error r) eqn:Er; cbn; rewrite ?Er; split_and!; try done; by split; [intros|intros [_ ?]].
  - intros [= <- <-]. by left.
Qed.

(** The seat is neutralized last. *)
Lemma protocol_released before ph c ph' :
  protocol before ph c ph' → (∀ commit, ph ≠ Released commit) ∧
  (∀ r, c = CallNeutralize r → ph' = Released (phase_commit ph)).
Proof.
  destruct 1; (split; [intros commit ?; subst; done|by intros ? [=]]).
Qed.

Lemma follows_neutralized calls ph r :
  follows calls ph → CallNeutralize r ∈ calls → ∃ commit, ph = Released commit.
Proof.
  induction 1 as [|calls ph c ph' Hf IH Hp]; [by intros ?%elem_of_nil|].
  destruct (protocol_released _ _ _ _ Hp) as [Hph Hc].
  intros [Hin|Hin%list_elem_of_singleton]%elem_of_app.
  - destruct (IH Hin) as [commit ->]. by destruct (Hph commit).
  - eexists. by apply (Hc r).
Qed.

(** What [run] leaves behind. *)
Record finished (r : Run) (ph : Phase) : Prop := {
  fin_follows : follows (run_calls r) ph;
  fin_commit : rc_commit (run_receipt r) = phase_commit ph;
  fin_released : (∃ commit, ph = Released commit) ∨ (resting ph = true ∧ has_seat (run_world r) = false);
  fin_error : run_error r = None ↔
    phase_commit ph = CommitStatus.Verified ∧ ∀ e, CallNeutralize (Err e) ∉ run_calls r
}.

(** [neutralize_seat] at rest, with the error decided. *)
Lemma neutralize_finishes r ph x r' :
  follows (run_calls r) ph → rc_commit (run_receipt r) = phase_commit ph → resting ph = true →
  (run_error r = None ↔ phase_commit ph = CommitStatus.Verified) →
  neutralize_seat r = Some (x, r') → ∃ ph', finished r' ph'.
Proof.
  intros Hf Hc Hr He Hn. assert (∀ res, CallNeutralize res ∉ run_calls r) as Hno.
  { intros res Hin. by destruct (follows_neutralized _ _ _ Hf Hin) as [commit ->]. }
  destruct (neutralize_spec _ _ _ Hn) as [[Hseat ->]|(res & Hcalls & Hcommit & Herr)].
  - exists ph. split; [done|done|by right|]. rewrite He. naive_solver.
  - exists (Released (phase_commit ph)). split.
    + rewrite Hcalls. eapply follows_snoc; [done|]. by constructor.
    + by rewrite Hcommit, Hc.
    + left. by eexists.
    + rewrite Herr, He, Hcalls. cbn. split; intros [Hv Hok]; (split; [done|]).
      * intros e [Hin|Hin%list_elem_of_singleton]%elem_of_app; [by eapply Hno|]. by injection Hin as <-.
      * destruct res as [o|e]; [done|]. destruct (Hok e). apply elem_of_app. right. by left.
Qed.

Lemma run_finishes r x r' :
  at_ (Looking None) r → run fuel tree action options context r = Some (x, r') →
  ∃ ph, finished r' ph.
Proof.
  intros Hr E. unfold run, mbind, step_bind in E.
  destruct (execute fuel tree action options context r) as [[y r1]|] eqn:Ex; [|done].
  pose proof (execute_keeps r Hr y r1 Ex) as H1.
  assert (∃ ph r2, (match y with
      | Ok _ => mret ()
      | Err e => λ r, match modify (λ r, set_error r (Some e)) r with
                      | Some (_, r) => context_note ("action transaction failed: " +:+ err_message e) r
                      | None => None end
      end : Stage unit) r1 = Some ((), r2) ∧ follows (run_calls r2) ph ∧
      rc_commit (run_receipt r2) = phase_commit ph ∧ resting ph = true ∧
      (run_error r2 = None ↔ phase_commit ph = CommitStatus.Verified)) as (ph & r2 & E2 & Hf & Hc & Hrest & He).
  { destruct y as [u|e].
    - destruct H1 as (reservation & Hf & Hc & He). exists (Proved reservation), r1. by split_and!.
    - destruct H1 as (ph & (Hf & Hc & He) & Hrest & Hv). eexists ph, _. split; [done|]. by split_and!. }
  rewrite E2 in E. destruct (neutralize_seat r2) as [[z r3]|] eqn:En; [|done].
  destruct (neutralize_finishes _ _ _ _ Hf Hc Hrest He En) as (ph' & [Hf' Hc' Hr' He']).
  injection E as <- <-. by exists ph'.
Qed.

End runs.
