(* ===== verification/ActionDemo.v ===== *)
(** A small runtime to try transactions on: one enabled node, a semantic route that
    refuses and a physical one that works. *)

From S2P Require Import Prelude Errors Geometry UiTree Locator Query Context ActionTypes Action JsonInstance.

Local Open Scope Z_scope.
Local Open Scope list_scope.

#[export] Existing Instance numeral_text.

Definition demo_tree : UiSnapshot :=
  from_records (MkMetadata 7 1 1 1 true) [MkNode 5 1 0 16 0 [] (MkProvenance 7 1)] [5%N] [].

Definition demo_route (name : string) (kind : RouteKind) : RouteDescriptor :=
  MkRouteDescriptor name kind RouteFidelity.Exact RouteLatencyClass.Immediate [].

(** The world is its clock. *)
Definition demo_runtime : Runtime := {|
  World := Z;
  Reservation := unit;
  tick w := w;
  clock w := w;
  stop_requested _ := false;
  has_tree_source _ := true;
  tree_snapshot _ w := (Ok demo_tree, w);
  has_event_source _ := true;
  event_enable _ w := (Ok (), w);
  event_disable _ w := (Ok (), w);
  event_wait _ _ m w := (Ok (), w + Z.max 1 m);
  mapping_refresh := None;
  routes _ := [demo_route "x11" RouteKind.Physical; demo_route "a11y" RouteKind.Semantic];
  has_route _ _ := true;
  route_reserve index _ w :=
    (if decide (index = 1%nat) then fail ErrorCode.RouteUnavailable "busy" else Ok (), w);
  reservation_barriers _ := ["pointer"];
  reservation_arm _ _ w := (Ok (), w);
  reservation_commit _ w := (Ok (), w);
  reservation_settle _ w := (Ok [MkBarrier "pointer" true false], w);
  reservation_verify _ w := (Ok (), w);
  has_seat _ := true;
  seat_neutralize w := (Ok NeutralizationOutcome.Released, w)
|}.

#[export] Existing Instance demo_runtime.

Definition demo_match : Match :=
  MkMatch (MkWidgetRef 7 1 1 5 1) ConsistencyMode.Live 1 [] (MkProviderProvenance "snapshot" "" 7 1).

Definition demo_click : Action := Click (TargetMatch demo_match).

Definition demo_options : ActionOptions :=
  MkActionOptions 100 Cardinality.ExactlyOne RoutePolicy.PreferSemantic RetryClass.ResolveOnly false.

Abbreviation demo_performed := (@perform demo_runtime numeral_text 101 1%N demo_click demo_options 3%N 0%Z).

Definition is_reserve `{Runtime} (c : Call) : bool :=
  match c with CallReserve _ _ _ => true | _ => false end.

Definition asked_route `{Runtime} (c : Call) : option nat :=
  match c with CallReserve index _ _ => Some index | _ => None end.

(** What came of it. *)
Definition result_of `{Runtime} (p : option Performed) : option (TransactionOutcome * list Call) :=
  match p with Some (Performed_ outcome last) => Some (outcome, run_calls last) | _ => None end.

Definition demo_facts (x : option (TransactionOutcome * list Call)) : Prop :=
  match x with
  | Some (outcome, calls) =>
    succeeded outcome = true ∧ rc_commit (out_receipt outcome) = CommitStatus.Verified ∧
    rc_fallback_used (out_receipt outcome) = true ∧
    attempt_route <$> rc_routes (out_receipt outcome) = ["a11y"; "x11"] ∧
    omap asked_route calls = [1; 0]%nat ∧ existsb is_reserve (take 9 calls) = false ∧
    asked_route <$> (calls !! 9%nat) = Some (Some 1%nat)
  | None => False
  end.

Lemma demo_receipt : demo_facts (result_of demo_performed).
Proof. vm_compute. done. Qed.

(** The first nine calls look at the tree; then the semantic route is asked. *)
Lemma demo_performs :
  ∃ outcome last before after index request r, demo_performed = Some (Performed_ outcome last) ∧
    succeeded outcome = true ∧ omap asked_route (run_calls last) = [1; 0]%nat ∧
    run_calls last = before ++ CallReserve index request r :: after ∧ index = 1%nat ∧
    existsb is_reserve before = false.
Proof.
  pose proof demo_receipt as Hfacts. destruct demo_performed as [[|outcome last]|]; [done| |done].
  destruct Hfacts as (Hsucc & _ & _ & _ & Hasked & Hno & Hat).
  destruct (run_calls last !! 9%nat) as [c|] eqn:Ec; [|discriminate].
  destruct c as [| | | | |index request r| | | | |]; try discriminate. injection Hat as Hi.
  exists outcome, last, (take 9 (run_calls last)), (drop 10 (run_calls last)), index, request, r.
  split_and!; try done. symmetry. by apply take_drop_middle.
Qed.
