(* ===== verification/ActionTheorems.v ===== *)
(** What a transaction guarantees, whatever the runtime does. *)

From S2P Require Import Prelude Errors UiTree Locator Json LocatorText Query Context ActionTypes Action ActionProtocol ActionRuns ActionDemo.

Local Open Scope nat_scope.
Local Open Scope list_scope.

(** ** The claims *)

Section claims.
Context `{Runtime} `{JsonText}.

Lemma perform_finishes fuel tree action options operation w outcome last :
  perform fuel tree action options operation w = Some (Performed_ outcome last) →
  outcome = MkOutcome (run_receipt last) (run_error last) ∧
  ∃ ph, finished action options last ph.
Proof.
  unfold perform. destruct (canonical_target (target_of action)) as [name|]; [|done].
  destruct (run _ _ _ _ _ _) as [[u r]|] eqn:E; [|done]. intros [= <- <-]. split; [done|].
  eapply run_finishes; [|exact E]. split_and!; [constructor|done|done].
Qed.

(** C22: Whatever the runtime answers, a transaction calls it by its protocol: waits are
    enabled and disabled in pairs; routes are asked one after the other, never again
    after one might have committed; the barriers of the reservation are armed in order,
    then there is one commit, and only a commit that succeeded is settled, and only what
    settled is verified; the seat, if there is one, is neutralized exactly once, at the
    end.  The receipt's commit status is the one the calls led to, and the transaction
    succeeds exactly when the action was verified and no neutralization failed. *)
Theorem transaction_keeps_protocol (fuel : nat) (tree : N) (action : Action) (options : ActionOptions)
    (operation : N) (w : World) (outcome : TransactionOutcome) (last : Run)
    (Hrun : perform fuel tree action options operation w = Some (Performed_ outcome last)) :
  ∃ ph, follows action options (run_calls last) ph ∧
    rc_commit (out_receipt outcome) = phase_commit ph ∧
    ((∃ commit, ph = Released commit) ∨ (resting ph = true ∧ has_seat (run_world last) = false)) ∧
    (succeeded outcome = true ↔
      rc_commit (out_receipt outcome) = CommitStatus.Verified ∧
      ∀ e, CallNeutralize (Err e) ∉ run_calls last).
Proof.
  destruct (perform_finishes _ _ _ _ _ _ _ _ Hrun) as (-> & ph & [Hf Hc Hr He]).
  exists ph. split_and!; [done|done|done|]. unfold succeeded. cbn. by rewrite bool_decide_eq_true, He, Hc.
Qed.

Lemma follows_split action options before c after ph :
  follows action options (before ++ c :: after) ph →
  ∃ ph1 ph2, follows action options before ph1 ∧ protocol action options before ph1 c ph2.
Proof.
  revert ph. induction after as [|c' after IH] using rev_ind; intros ph Hf.
  - inversion Hf as [E|calls ph1 c1 ph2 Hf1 Hp E]; [by destruct before|].
    apply app_inj_tail in E as [-> ->]. by eauto.
  - inversion Hf as [E|calls ph1 c1 ph2 Hf1 Hp E]; [by destruct before|].
    change (c :: after ++ [c']) with ((c :: after) ++ [c']) in E. rewrite app_assoc in E.
    apply app_inj_tail in E as [-> _]. by eapply IH.
Qed.

Lemma follows_choosing action options calls order :
  follows action options calls (Choosing order) → ∃ index request r, CallReserve index request r ∈ calls.
Proof.
  intros Hf. inversion Hf as [|calls' ph c ph' _ Hp]; subst. inversion Hp; subst.
  do 3 eexists. apply elem_of_app. right. by left.
Qed.

(** C23: Unless it was forced, a transaction asks a first route to act on a target only
    when the very last thing it saw is a snapshot that shows that node, of the same
    runtime, tree, epoch and generation, enabled. *)
Theorem acts_on_live_target (fuel : nat) (tree : N) (action : Action) (options : ActionOptions)
    (operation : N) (w : World) (outcome : TransactionOutcome) (last : Run)
    (before after : list Call) (index : nat) (request : ActionRequest) (r : Result Reservation)
    (Hrun : perform fuel tree action options operation w = Some (Performed_ outcome last))
    (Hforce : opt_force options = false)
    (Hcalls : run_calls last = before ++ CallReserve index request r :: after)
    (Hfirst : ∀ index request r, CallReserve index request r ∉ before) :
  shows_target before (rq_target request).
Proof.
  destruct (perform_finishes _ _ _ _ _ _ _ _ Hrun) as (_ & ph & [Hf _ _ _]).
  rewrite Hcalls in Hf. destruct (follows_split _ _ _ _ _ _ Hf) as (ph1 & ph2 & Hf1 & Hp).
  assert (∃ left, asks options before ph1 request index left) as [left Hasks] by (inversion Hp; by eauto).
  destruct ph1 as [[]|order| | | | | |]; cbn in Hasks; try done.
  - destruct Hasks as (w' & skipped & _ & [Hf'|Hs]); [by rewrite Hforce in Hf'|done].
  - destruct (follows_choosing _ _ _ _ Hf1) as (i & q & r' & Hin). by destruct (Hfirst i q r').
Qed.

#[local] Arguments route_order : simpl never.

(** The routes that were asked. *)
Definition asked (calls : list Call) : list nat := omap asked_route calls.

Definition asked_so_far (options : ActionOptions) (calls : list Call) (ph : Phase) : Prop :=
  match ph with
  | Looking _ => asked calls = []
  | Choosing order =>
    ∃ w used, route_order (routes w) (opt_routing options) = used ++ order ∧ asked calls `sublist_of` used
  | _ => asked calls = [] ∨ ∃ w, asked calls `sublist_of` route_order (routes w) (opt_routing options)
  end.

Lemma asked_snoc calls c :
  asked (calls ++ [c]) = asked calls ++ asked [c].
Proof. unfold asked. by rewrite omap_app. Qed.

Lemma asks_sublist options calls ph request index left :
  asked_so_far options calls ph → asks options calls ph request index left →
  ∃ w used, route_order (routes w) (opt_routing options) = used ++ left ∧
    asked calls ++ [index] `sublist_of` used.
Proof.
  destruct ph as [[]|order| | | | | |]; cbn; try done.
  - intros -> (w & skipped & E & _). exists w, (skipped ++ [index]). rewrite <- app_assoc. split; [done|].
    by apply sublist_inserts_l.
  - intros (w & used & E & Hs) (skipped & ->). exists w, (used ++ skipped ++ [index]).
    rewrite <- !app_assoc. split; [done|]. apply sublist_app; [done|]. by apply sublist_inserts_l.
Qed.

Lemma follows_asked action options calls ph :
  follows action options calls ph → asked_so_far options calls ph.
Proof.
  induction 1 as [|calls ph c ph' _ IH Hp]; [done|].
  destruct Hp as [| | | | | |ph i m left e Ha _|ph i m left e Ha _|ph i m left res Ha| | | | | | | | |ph r Hr];
    cbn [asked_so_far] in *; rewrite asked_snoc; cbn; rewrite ?app_nil_r; try done.
  - by apply (asks_sublist _ _ _ _ _ _ IH) in Ha.
  - apply (asks_sublist _ _ _ _ _ _ IH) in Ha as (w & used & E & Hs). right. exists w. rewrite E.
    by apply sublist_inserts_r.
  - apply (asks_sublist _ _ _ _ _ _ IH) in Ha as (w & used & E & Hs). right. exists w. rewrite E.
    by apply sublist_inserts_r.
  - destruct ph as [open|order| | | | | |]; cbn in IH; try done; [by left|].
    destruct IH as (w & used & E & Hs). right. exists w. rewrite E. by apply sublist_inserts_r.
Qed.

Lemma append_kind_spec descriptors policy kind i :
  i ∈ append_kind descriptors policy kind [] ↔
    ∃ d, descriptors !! i = Some d ∧ route_kind d = kind ∧ route_allowed policy kind = true.
Proof.
  unfold append_kind. cbn. rewrite list_elem_of_fmap. split.
  - intros ([j d] & -> & [[Hk Ha] Hin]%list_elem_of_filter). cbn in *.
    apply elem_of_lookup_zip_with in Hin as (n & a & b & [= -> ->] & Ha' & Hb).
    apply lookup_seq in Ha' as [-> _]. by exists b.
  - intros (d & Hd & Hk & Ha). exists (i, d). split; [done|]. apply list_elem_of_filter. split; [done|].
    apply elem_of_lookup_zip_with. exists i, i, d. split_and!; [done| |done].
    apply lookup_seq. split; [done|]. by eapply lookup_lt_Some.
Qed.

Lemma sorted_sublist (l k : list nat) : l `sublist_of` k → StronglySorted lt k → StronglySorted lt l.
Proof.
  induction 1 as [|x l k Hs IH|x l k Hs IH]; intros Hk; [constructor| |];
    apply StronglySorted_inv in Hk as [Hk Hx]; [|by apply IH].
  constructor; [by apply IH|]. rewrite Forall_forall in *. intros y Hy. apply Hx. by eapply sublist_subseteq.
Qed.

Lemma append_kind_sorted descriptors policy kind :
  StronglySorted lt (append_kind descriptors policy kind []).
Proof.
  unfold append_kind. cbn. apply sorted_sublist with (k := seq 0 (length descriptors)).
  - rewrite <- (fst_zip (seq 0 (length descriptors)) descriptors) at 2 by (by rewrite length_seq).
    apply (fmap_sublist fst). apply sublist_filter.
  - generalize 0. induction (length descriptors) as [|n IH]; intros m; [constructor|]. cbn. constructor; [done|].
    apply Forall_forall. intros x [Hx _]%elem_of_seq. lia.
Qed.

(** The routes a transaction asks are asked in the order of the policy, none of them
    twice: first the semantic ones, then the physical ones, each in the order the
    runtime lists them, and only those the policy allows. *)
Theorem routes_asked_in_order (fuel : nat) (tree : N) (action : Action) (options : ActionOptions)
    (operation : N) (w : World) (outcome : TransactionOutcome) (last : Run)
    (Hrun : perform fuel tree action options operation w = Some (Performed_ outcome last)) :
  asked (run_calls last) = [] ∨
  ∃ w semantic physical, asked (run_calls last) = semantic ++ physical ∧
    StronglySorted lt semantic ∧ StronglySorted lt physical ∧
    (∀ i, i ∈ semantic → ∃ d, routes w !! i = Some d ∧ route_kind d = RouteKind.Semantic ∧
      opt_routing options ≠ RoutePolicy.PhysicalOnly) ∧
    (∀ i, i ∈ physical → ∃ d, routes w !! i = Some d ∧ route_kind d = RouteKind.Physical ∧
      opt_routing options ≠ RoutePolicy.SemanticOnly).
Proof.
  destruct (perform_finishes _ _ _ _ _ _ _ _ Hrun) as (_ & ph & [Hf _ _ _]).
  apply follows_asked in Hf.
  assert (asked (run_calls last) = [] ∨ ∃ w, asked (run_calls last) `sublist_of`
    route_order (routes w) (opt_routing options)) as [E|(w' & Hs)]; [|by left|right].
  { destruct ph as [open|order| | | | | |]; cbn in Hf; try done; [by left|].
    destruct Hf as (w' & used & E & Hs). right. exists w'. rewrite E. by apply sublist_inserts_r. }
  unfold route_order in Hs. unfold append_kind in Hs at 1. apply sublist_app_r in Hs as (s & p & -> & Hs & Hp).
  exists w', s, p. split; [done|].
  change ((filter _ _).*1) with (append_kind (routes w') (opt_routing options) RouteKind.Physical []) in Hp.
  split_and!.
  - by eapply sorted_sublist, append_kind_sorted.
  - by eapply sorted_sublist, append_kind_sorted.
  - intros i Hi. pose proof (sublist_subseteq _ _ Hs i Hi) as Hin.
    apply append_kind_spec in Hin as (d & Hd & Hk & Ha).
    exists d. split_and!; [done|done|]. by destruct (opt_routing options).
  - intros i Hi. pose proof (sublist_subseteq _ _ Hp i Hi) as Hin.
    apply append_kind_spec in Hin as (d & Hd & Hk & Ha).
    exists d. split_and!; [done|done|]. by destruct (opt_routing options).
Qed.

End claims.

(** ** Witnesses *)

Lemma transaction_keeps_protocol_witness :
  ∃ outcome last, demo_performed = Some (Performed_ outcome last) ∧ succeeded outcome = true ∧
    rc_commit (out_receipt outcome) = CommitStatus.Verified.
Proof.
  destruct demo_performs as (outcome & last & _ & _ & _ & _ & _ & E & Hok & _).
  destruct (transaction_keeps_protocol _ _ _ _ _ _ _ _ E) as (ph & _ & _ & _ & Hsucc).
  exists outcome, last. split; [exact E|]. split; [exact Hok|]. apply Hsucc, Hok.
Defined.

Lemma acts_on_live_target_witness :
  ∃ outcome last before after index request r,
    demo_performed = Some (Performed_ outcome last) ∧
    run_calls last = before ++ CallReserve index request r :: after ∧ index = 1 ∧
    shows_target before (rq_target request).
Proof.
  destruct demo_performs as (outcome & last & before & after & index & request & r & E & _ & _ & Hcalls & Hi & Hno).
  exists outcome, last, before, after, index, request, r.
  split; [exact E|]. split; [exact Hcalls|]. split; [exact Hi|].
  apply (acts_on_live_target _ _ _ _ _ _ _ _ _ _ _ _ _ E eq_refl Hcalls).
  intros i q r' Hin. assert (existsb is_reserve before = true) as Hyes; [|congruence].
  apply existsb_exists. exists (CallReserve i q r'). split; [|reflexivity]. by apply list_elem_of_In.
Defined.

Lemma routes_asked_in_order_witness :
  ∃ outcome last, demo_performed = Some (Performed_ outcome last) ∧ asked (run_calls last) = [1; 0] ∧
    (asked (run_calls last) = [] ∨ ∃ semantic physical, asked (run_calls last) = semantic ++ physical).
Proof.
  destruct demo_performs as (outcome & last & _ & _ & _ & _ & _ & E & _ & Hasked & _).
  pose proof (routes_asked_in_order _ _ _ _ _ _ _ _ E) as Hroutes.
  exists outcome, last. split; [exact E|]. split; [exact Hasked|].
  destruct Hroutes as [Hn|(w & s & p & Hsp & _)]; [by left|right; by exists s, p].
Defined.
