(* ===== verification/ActionTotal.v ===== *)
(** Transactions end: when time passes while a wait waits, the deadline bounds the
    rounds of every wait. *)

From S2P Require Import Prelude Errors UiTree Locator Json LocatorText Query QueryTheorems Context ActionTypes Action ActionProtocol ActionRuns ActionDemo.

Local Open Scope Z_scope.
Local Open Scope list_scope.

(** The clock is steady, and a wait that was not refused takes some of its time. *)
Record timely `{Runtime} : Prop := {
  tick_steady w : clock w <= clock (tick w);
  snapshot_steady id w : clock w <= clock (tree_snapshot id w).2;
  enable_steady spec w : clock w <= clock (event_enable spec w).2;
  disable_steady spec w : clock w <= clock (event_disable spec w).2;
  wait_steady spec d m w : clock w <= clock (event_wait spec d m w).2;
  wait_passes spec d m w : 0 < m → is_ok (event_wait spec d m w).1 = true →
    clock w < clock (event_wait spec d m w).2;
  refresh_steady f m w : mapping_refresh = Some f → clock w <= clock (f m w).2
}.

(** The most rounds a wait with a budget can take. *)
Definition wait_rounds (budget : Z) : nat := S (Z.to_nat budget).

Section total.
Context `{Runtime} (time : timely).

Definition now_of (r : Run) : Z := clock (run_world r).

(** A step that returns, from any state past [start], with the clock not set back. *)
Definition ends {A} (start : Z) (m : Stage A) : Prop :=
  ∀ r, start <= now_of r → ∃ x r', m r = Some (x, r') ∧ now_of r <= now_of r'.

Lemma ends_bind {A B} start (m : Stage A) (k : A → Stage B) :
  ends start m → (∀ x, ends start (k x)) → ends start (x ← m; k x).
Proof.
  intros Hm Hk r Hr. destruct (Hm r Hr) as (x & r1 & E & H1).
  destruct (Hk x r1) as (y & r2 & E2 & H2); [lia|]. exists y, r2.
  unfold mbind, step_bind. rewrite E. split; [done|lia].
Qed.

Lemma ends_ret {A} start (x : A) : ends start (mret x).
Proof. intros r _. by exists x, r. Qed.

Lemma ends_and_then {A B} start (m : Stage (Result A)) (k : A → Stage (Result B)) :
  ends start m → (∀ x, ends start (k x)) → ends start (and_then m k).
Proof. intros Hm Hk. apply ends_bind; [done|]. intros [x|e]; [apply Hk|apply ends_ret]. Qed.

Lemma ends_modify start (f : Run → Run) : (∀ r, run_world (f r) = run_world r) → ends start (modify f).
Proof. intros Hf r _. eexists _, _. split; [done|]. unfold now_of. by rewrite Hf. Qed.

Lemma ends_receipt start f : ends start (update_receipt f).
Proof. by apply ends_modify. Qed.

Lemma ends_ask {A} start (f : World → A) : ends start (ask f).
Proof. intros r _. by exists (f (run_world r)), r. Qed.

Lemma ends_call {A} start (op : World → A * World) what :
  (∀ w, clock w <= clock (op w).2) → ends start (call op what).
Proof.
  intros Hop r _. unfold call. specialize (Hop (run_world r)). destruct (op (run_world r)) as [x w].
  by eexists _, _.
Qed.

Lemma ends_read_clock start : ends start read_clock.
Proof. intros r _. eexists _, _. split; [done|]. apply tick_steady, time. Qed.

Lemma ends_read_stop start : ends start read_stop.
Proof. intros r _. eexists _, _. split; [done|]. apply tick_steady, time. Qed.

Lemma ends_note start message : ends start (context_note message).
Proof. apply ends_bind; [apply ends_read_clock|]. intros now. by apply ends_modify. Qed.

Lemma ends_if {A} start (b : bool) (m n : Stage A) : ends start m → ends start n → ends start (if b then m else n).
Proof. by destruct b. Qed.

Lemma ends_snapshot start id : ends start (take_snapshot id).
Proof. apply ends_call. intros w. apply snapshot_steady, time. Qed.

Lemma ends_finish_wait start spec result : ends start (finish_wait spec result).
Proof.
  apply ends_bind; [apply ends_call; intros w; apply disable_steady, time|].
  intros [u|e]; [apply ends_ret|]. apply ends_bind; [apply ends_note|]. intros _. apply ends_ret.
Qed.

Lemma ends_timeout start spec last : ends start (timeout spec last).
Proof.
  apply ends_bind; [apply ends_note|]. intros _. apply ends_bind; [apply ends_read_clock|].
  intros now. apply ends_ret.
Qed.

Lemma next_backoff_positive current max : 0 < current → 0 < max → 0 < next_backoff current max.
Proof. intros Hc Hm. unfold next_backoff. case_decide; lia. Qed.

Lemma ends_wait_loop n spec observe deadline max backoff r :
  (∀ start, ends start observe) → 0 < max → 0 < backoff →
  (Z.to_nat (deadline - now_of r) < n)%nat →
  ∃ x r', wait_loop n spec observe deadline max backoff r = Some (x, r') ∧ now_of r <= now_of r'.
Proof.
  intros Hobs Hmax. revert backoff r. induction n as [|n IH]; intros backoff r Hback Hn; [lia|].
  cbn [wait_loop]. unfold mbind at 1, step_bind at 1, read_stop.
  set (r1 := set_world r (tick (run_world r))).
  assert (now_of r <= now_of r1) as H1 by apply tick_steady, time.
  destruct (stop_requested _).
  { destruct (ends_finish_wait (now_of r1) spec (fail ErrorCode.Cancelled "operation cancelled") r1)
      as (x & r2 & E & H2); [lia|]. exists x, r2. split; [done|lia]. }
  destruct (Hobs (now_of r1) r1) as (o & r2 & Eo & H2); [lia|].
  unfold mbind at 1, step_bind at 1. rewrite Eo.
  assert (∀ result, ∃ x r', finish_wait spec result r2 = Some (x, r') ∧ now_of r <= now_of r') as Hfin.
  { intros result. destruct (ends_finish_wait (now_of r2) spec result r2) as (x & r3 & E & H3); [lia|].
    exists x, r3. split; [done|lia]. }
  destruct o as [o|e]; [|apply Hfin]. destruct (satisfied o); [apply Hfin|].
  unfold mbind at 1, step_bind at 1, read_clock at 1.
  set (r3 := set_world r2 (tick (run_world r2))).
  assert (now_of r2 <= now_of r3) as H3 by apply tick_steady, time.
  assert (∀ r', now_of r3 <= now_of r' → ∃ x r'',
    (result ← timeout spec (detail o); finish_wait spec result) r' = Some (x, r'') ∧ now_of r <= now_of r'')
    as Htime.
  { intros r' Hr'. assert (ends (now_of r') (result ← timeout spec (detail o); finish_wait spec result)) as He.
    { apply ends_bind; [apply ends_timeout|]. intros x. apply ends_finish_wait. }
    destruct (He r') as (x & r'' & E & Hx); [lia|]. exists x, r''. split; [done|lia]. }
  destruct (expired deadline _) eqn:Eexp; [by apply Htime|].
  apply bool_decide_eq_false in Eexp. unfold mbind at 1, step_bind at 1, read_clock at 1.
  set (r4 := set_world r3 (tick (run_world r3))).
  assert (now_of r3 <= now_of r4) as H4 by apply tick_steady, time.
  set (m := Z.min backoff (remaining deadline (clock (tick (run_world r3))))).
  unfold mbind at 1, step_bind at 1, call at 1.
  pose proof (wait_steady time spec deadline m (run_world r4)) as Hsteady.
  pose proof (wait_passes time spec deadline m (run_world r4)) as Hpass.
  destruct (event_wait spec deadline m (run_world r4)) as [wake w5] eqn:Ew. cbn [fst snd] in Hsteady, Hpass.
  set (r5 := note_call r4 w5 (CallWait spec m wake)).
  assert (now_of r4 <= now_of r5) as H5 by done. change (clock (tick (run_world r2))) with (now_of r3) in Eexp.
  destruct wake as [u|e].
  - assert (now_of r5 > now_of r3 ∨ deadline <= now_of r4) as Hprog.
    { destruct (decide (deadline <= now_of r4)) as [Hd|Hd]; [by right|left].
      enough (clock (run_world r4) < clock w5) by (unfold now_of in *; cbn in *; lia).
      apply Hpass; [|done]. unfold m, remaining. change (clock (tick (run_world r3))) with (now_of r4).
      rewrite decide_False by lia. lia. }
    destruct (IH (next_backoff backoff max) r5) as (x & r6 & E6 & H6).
    + by apply next_backoff_positive.
    + lia.
    + exists x, r6. split; [done|lia].
  - case_decide; [apply Htime; lia|].
    destruct (ends_finish_wait (now_of r5) spec (Err e) r5) as (x & r6 & E6 & H6); [lia|].
    exists x, r6. split; [done|lia].
Qed.

(** A step that returns when the clock is at least at the start of the operation, for
    waits until the deadline that the operation's budget sets. *)
Lemma ends_wait start budget n predicate observe params :
  np_observe predicate = Some observe → (∀ start, ends start observe) →
  0 < maximum (backoff params) → (wait_rounds budget <= n)%nat →
  ends start (wait n (deadline_after start budget) predicate params).
Proof.
  intros E Hobs Hmax Hn. unfold wait. rewrite E. case_decide; [apply ends_ret|].
  case_decide; [apply ends_ret|].
  assert (0 < initial (backoff params)) as Hinit by lia.
  apply ends_and_then; [apply ends_call; intros w; apply enable_steady, time|].
  intros u r Hr. apply ends_wait_loop; [done|done|done|].
  unfold wait_rounds, earliest, deadline_after in *. unfold now_of in *. lia.
Qed.

(** Resolving a locator always gives an answer. *)
Lemma resolve_total locator cardinality nav limit :
  is_Some (resolve locator cardinality (MkQueryScope nav None None) limit).
Proof.
  unfold resolve. case_decide; [by eexists|].
  destruct (evaluate_matches_cases nav None locator limit) as [[_ ([|m ms] & ->)]|[_ (e & ->)]]; by eexists.
Qed.

Section transaction.
Context (n : nat) (tree : N) (action : Action) (options : ActionOptions) (start : Z) (id : N)
  (Hn : (wait_rounds (opt_deadline options) <= n)%nat).

Local Abbreviation context := (MkContext (deadline_after start (opt_deadline options)) id None).

Lemma ends_resolve_once s : ends s (resolve_once tree action options).
Proof.
  apply ends_bind; [apply ends_ask|]. intros source. apply ends_if; [apply ends_ret|].
  destruct (target_of action) as [l|m].
  - apply ends_and_then; [apply ends_snapshot|]. intros snapshot r _. unfold demand_result.
    destruct (resolve_total l (opt_cardinality options) (snapshot_nav snapshot)
      (N.of_nat default_max_nodes)) as [x ->]. by exists x, r.
  - unfold refresh_match. case_decide; [apply ends_ret|].
    apply ends_and_then; [apply ends_snapshot|]. intros snapshot. apply ends_ret.
Qed.

Lemma ends_resolve_predicate s observe :
  np_observe (resolve_predicate tree action options) = Some observe → ends s observe.
Proof.
  intros [= <-]. apply ends_bind; [apply ends_receipt|]. intros _.
  apply ends_bind; [apply ends_resolve_once|]. intros [m|e]; [|apply ends_ret].
  apply ends_bind; [by apply ends_modify|]. intros _. apply ends_ret.
Qed.

(** A predicate that was satisfied left its match behind. *)
Lemma resolve_predicate_sets observe :
  np_observe (resolve_predicate tree action options) = Some observe →
  after_ (λ _, True) observe (λ x r, ∀ o, x = Ok o → satisfied o = true → is_Some (run_resolved r)).
Proof.
  intros [= <-]. eapply after_bind with (R := λ _ _, True); [done|]. intros _.
  eapply after_bind with (R := λ _ _, True); [done|]. intros [m|e].
  - eapply after_bind with (R := λ _ r, is_Some (run_resolved r)).
    + apply after_modify. intros r _. by eexists.
    + intros _. apply after_ret. by intros r Hr.
  - apply after_ret. intros r _ o. case_match; [done|]. by intros [= <-].
Qed.

Lemma ends_resolve_target : ends start (resolve_target n tree action options context).
Proof.
  apply ends_bind; [apply ends_resolve_once|]. intros [m|e]; [apply ends_ret|].
  case_decide; [apply ends_ret|]. apply ends_if; [apply ends_ret|].
  apply ends_bind; [apply ends_ask|]. intros events. apply ends_if; [apply ends_ret|].
  set (params := MkWaitParams _ _).
  intros r Hr. destruct (ends_wait start (opt_deadline options) n
    (resolve_predicate tree action options) _ params eq_refl) with (r := r) as (x & r1 & E & H1);
    [intros s; by apply ends_resolve_predicate|done|done|done|].
  unfold and_then, mbind, step_bind. cbn [context_deadline]. rewrite E. destruct x as [[]|e'].
  - pose proof (wait_seen n (deadline_after start (opt_deadline options))
      (resolve_predicate tree action options) params _
      (λ r, is_Some (run_resolved r)) eq_refl (resolve_predicate_sets _ eq_refl) r I (Ok ()) r1 E eq_refl)
      as (r0 & [m Hm] & _ & Hres).
    unfold found_match. rewrite Hres, Hm. by exists (Ok m), r1.
  - by exists (Err e'), r1.
Qed.

Lemma ends_node_observer s target : ends s (node_observer target).
Proof.
  apply ends_bind; [apply ends_ask|]. intros source. apply ends_if; [apply ends_ret|].
  apply ends_and_then; [apply ends_snapshot|]. intros snapshot. apply ends_ret.
Qed.

Lemma ends_all s predicates :
  Forall (λ p, ∀ observe, np_observe p = Some observe → ends s observe) predicates →
  ends s (observe_all predicates).
Proof.
  induction 1 as [|p predicates Hp _ IH]; cbn [observe_all]; [apply ends_ret|].
  destruct (np_observe p) as [observe|]; [|apply ends_ret].
  apply ends_and_then; [by apply Hp|]. intros o. apply ends_if; [apply ends_ret|done].
Qed.

Lemma ends_actionability target : ends start (wait_for_actionability n context target).
Proof.
  apply ends_bind; [apply ends_ask|]. intros events. apply ends_if; [apply ends_ret|].
  intros r Hr. unfold mbind, step_bind, state_stable.
  set (stable := MkPredicate _ _). set (r1 := set_cells r _).
  destruct (ends_wait start (opt_deadline options) n
    (all_of "actionable" [node_present (node_observer target); stable; enabled (node_observer target)]) _
    (MkWaitParams (deadline_after start (opt_deadline options)) default_backoff) eq_refl) with (r := r1)
    as (x & r2 & E & H2); [|done|done|done|by exists x, r2].
  intros s. apply ends_all. repeat apply Forall_cons_2; [| | |apply Forall_nil_2]; intros observe [= <-].
  - apply ends_and_then; [apply ends_node_observer|]. intros o. apply ends_ret.
  - unfold observe_stability. case_decide; [apply ends_ret|].
    apply ends_and_then; [apply ends_node_observer|]. intros o.
    apply ends_bind; [intros r' _; by eexists _, _|]. intros state.
    apply ends_bind; [by apply ends_modify|]. intros _. apply ends_ret.
  - apply ends_and_then; [apply ends_node_observer|]. intros o. apply ends_ret.
Qed.

(** After the waits nothing can hold a transaction up. *)
Definition returns {A} (m : Stage A) : Prop := ∀ r, ∃ x r', m r = Some (x, r').

Lemma returns_bind {A B} (m : Stage A) (k : A → Stage B) :
  returns m → (∀ x, returns (k x)) → returns (x ← m; k x).
Proof.
  intros Hm Hk r. destruct (Hm r) as (x & r1 & E). destruct (Hk x r1) as (y & r2 & E2).
  exists y, r2. unfold mbind, step_bind. by rewrite E.
Qed.

Lemma returns_ret {A} (x : A) : returns (mret x).
Proof. intros r. by exists x, r. Qed.

Lemma returns_and_then {A B} (m : Stage (Result A)) (k : A → Stage (Result B)) :
  returns m → (∀ x, returns (k x)) → returns (and_then m k).
Proof. intros Hm Hk. apply returns_bind; [done|]. intros [x|e]; [apply Hk|apply returns_ret]. Qed.

Lemma returns_call {A} (op : World → A * World) what : returns (call op what).
Proof. intros r. unfold call. destruct (op _). by eexists _, _. Qed.

Lemma returns_modify f : returns (modify f).
Proof. intros r. by eexists _, _. Qed.

Lemma returns_receipt f : returns (update_receipt f).
Proof. intros r. by eexists _, _. Qed.

Lemma returns_ask {A} (f : World → A) : returns (ask f).
Proof. intros r. by eexists _, _. Qed.

Lemma returns_note message : returns (context_note message).
Proof. intros r. by eexists _, _. Qed.

Local Hint Resolve returns_bind returns_ret returns_and_then returns_call returns_modify returns_receipt
  returns_ask returns_note : returns.

Lemma returns_reserve_along descriptors request order :
  returns (reserve_along options descriptors request order).
Proof.
  induction order as [|index order IH]; cbn [reserve_along]; [intros r; by eexists _, _|].
  apply returns_bind; [apply returns_ask|]. intros [|]; cbn [negb]; [|auto with returns].
  apply returns_bind; [apply returns_call|]. intros [reservation|e]; [auto with returns|].
  apply returns_bind; [apply returns_receipt|]. intros _. case_decide; auto with returns.
Qed.

Lemma returns_arm_barriers reservation names : returns (arm_barriers reservation names).
Proof. induction names as [|name names IH]; cbn [arm_barriers]; auto with returns. Qed.

Lemma returns_execute_reserved reservation : returns (execute_reserved reservation).
Proof.
  apply returns_and_then; [apply returns_arm_barriers|]. intros u.
  apply returns_bind; [apply returns_receipt|]. intros _.
  apply returns_bind; [apply returns_call|]. intros [v|e]; [|auto with returns].
  apply returns_bind; [apply returns_receipt|]. intros _. unfold settle_and_verify.
  apply returns_bind; [apply returns_call|]. intros [l|e]; auto with returns.
Qed.

Lemma returns_neutralize : returns neutralize_seat.
Proof.
  apply returns_bind; [apply returns_ask|]. intros [|]; cbn [negb]; [|apply returns_ret].
  apply returns_bind; [apply returns_call|]. intros [o|e]; auto with returns.
Qed.

(** A stage that ends before one that returns. *)
Lemma ends_then {A B} (m : Stage (Result A)) (k : A → Stage (Result B)) r :
  ends start m → start <= now_of r →
  (∀ x r', start <= now_of r' → ∃ y r'', k x r' = Some (y, r'')) →
  ∃ y r'', and_then m k r = Some (y, r'').
Proof.
  intros Hm Hr Hk. destruct (Hm r Hr) as (x & r' & E & H'). unfold and_then, mbind, step_bind. rewrite E.
  destruct x as [x|e]; [apply Hk; lia|by eexists _, _].
Qed.

Lemma execute_returns r : start <= now_of r → ∃ x r', execute n tree action options context r = Some (x, r').
Proof.
  intros Hr. apply ends_then; [|done|].
  { apply ends_bind; [apply ends_read_stop|]. intros [|]; [apply ends_ret|].
    apply ends_bind; [apply ends_read_clock|]. intros now. apply ends_ret. }
  intros _ r1 H1. apply ends_then; [apply ends_resolve_target|done|]. intros target r2 H2.
  unfold mbind at 1, step_bind at 1, update_receipt, modify. cbv beta iota zeta.
  apply ends_then; [|done|].
  { unfold refresh_mapping. destruct mapping_refresh as [refresh|] eqn:Em; [|apply ends_ret].
    apply ends_and_then; [apply ends_call; intros w; by apply (refresh_steady time)|].
    intros transforms. apply ends_bind; [apply ends_receipt|]. intros _. apply ends_ret. }
  intros _ r3 H3. apply ends_then; [apply ends_if; [apply ends_ret|apply ends_actionability]|done|].
  intros _ r4 _. apply returns_and_then; [|apply returns_execute_reserved].
  apply returns_bind; [apply returns_ask|]. intros descriptors. apply returns_reserve_along.
Qed.

Lemma run_returns r : start <= now_of r → ∃ x r', run n tree action options context r = Some (x, r').
Proof.
  intros Hr. destruct (execute_returns r Hr) as (y & r1 & E). unfold run, mbind at 1, step_bind at 1. rewrite E.
  apply returns_bind; [destruct y; auto with returns|]. intros _.
  apply returns_bind; [apply returns_neutralize|]. intros _. apply returns_modify.
Qed.

End transaction.
End total.

(** C24: A transaction ends: when the clock is steady and a wait that is granted takes at
    least one tick of it, [wait_rounds] of the budget is enough fuel for every wait, and
    [perform] returns (or throws, when the locator has no text). *)
Theorem transactions_end `{Runtime} `{JsonText} (Htime : timely) (fuel : nat) (tree : N)
    (action : Action) (options : ActionOptions) (operation : N) (w : World)
    (Hfuel : (wait_rounds (opt_deadline options) <= fuel)%nat) :
  is_Some (perform fuel tree action options operation w).
Proof.
  unfold perform. destruct (canonical_target (target_of action)) as [name|]; [|by eexists].
  edestruct (run_returns Htime fuel tree action options (clock (tick w)) operation Hfuel)
    as (u & r & E); [|by rewrite E; eexists]. done.
Qed.

Lemma demo_timely : timely.
Proof. split; intros; try done; cbn; lia. Qed.

Lemma transactions_end_witness :
  timely ∧ (wait_rounds (opt_deadline demo_options) <= 101)%nat ∧ is_Some demo_performed.
Proof.
  assert ((wait_rounds (opt_deadline demo_options) <= 101)%nat) as Hfuel by (vm_compute; lia).
  split; [exact demo_timely|]. split; [exact Hfuel|].
  exact (transactions_end demo_timely 101 1 demo_click demo_options 3 0 Hfuel).
Defined.
