(* ===== verification/Scene.v ===== *)
(** The overlay's scene ([kernel/presentation/overlay_scene.hpp] and [.cpp],
    [include/grab/overlay.hpp]): shapes with lifetimes, the deltas their changes make,
    and the hand-over of deltas to a sink by whichever thread finds none handing over.

    A call takes its lock for one step; the clock was read before, so that its reading
    is an argument.  A locked computation returns or throws, and leaves a scene in
    either case.  Milliseconds are the values of a 64-bit count.  Sinks are named by a
    number. *)

From Stdlib Require Import Floats.SpecFloat.
From S2P Require Import Prelude Errors Geometry Json.

Local Open Scope Z_scope.

(** ** Data *)

Record ShapeId := MkShapeId { id_epoch : N; id_slot : N }.

#[export] Instance ShapeId_eq_dec : EqDecision ShapeId.
Proof. solve_decision. Defined.
#[export] Program Instance ShapeId_countable : Countable ShapeId :=
  inj_countable' (λ i, (id_epoch i, id_slot i)) (λ p, MkShapeId p.1 p.2) _.
Next Obligation. by intros []. Qed.

Record ShapeRecord := MkShapeRecord { record_id : ShapeId; record_shape : Shape; started_at : Z }.

Inductive SceneChange :=
  | Upsert (record : ShapeRecord)
  | Remove (id : ShapeId)
  | Clear (new_epoch : N).

Record SceneDelta := MkDelta { delta_epoch : N; delta_revision : N; change : SceneChange }.

Record SceneSnapshot := MkSceneSnapshot {
  snapshot_epoch : N; through_revision : N; snapshot_shapes : list ShapeRecord
}.

Definition default_record : ShapeRecord :=
  MkShapeRecord (MkShapeId 0 0) (MkShape (Path [] false) None None Persistent Band.Annotation 0 None) 0.

(** ** Shapes *)

Definition point_is_finite (point : SpacePoint) : bool := is_finite (sp_x point) && is_finite (sp_y point).

Definition path_command_is_finite (command : PathCommand) : bool :=
  match command with
  | MoveTo point | LineTo point => point_is_finite point
  | BezierTo control => forallb point_is_finite control
  | ClosePath => true
  end.

(** [0.0 <= x]. *)
Definition not_negative (x : double) : bool := SFleb (S754_zero false) x.

Definition geometry_is_valid (geometry : Geometry) : bool :=
  match geometry with
  | Path commands _ => negb (bool_decide (commands = [])) && forallb path_command_is_finite commands
  | Rect bounds =>
    is_finite (sr_x bounds) && is_finite (sr_y bounds) && is_finite (sr_w bounds) &&
    is_finite (sr_h bounds)
  | Ellipse center radius_x radius_y =>
    point_is_finite center && is_finite radius_x && is_finite radius_y &&
    not_negative radius_x && not_negative radius_y
  | Polygon points => forallb point_is_finite points
  end.

Definition shape_is_valid (shape : Shape) : bool :=
  (bool_decide (is_Some (stroke shape)) || bool_decide (is_Some (fill shape))) &&
  geometry_is_valid (geometry shape).

Definition max_ms : Z := 2 ^ 63 - 1.

Definition min_ms : Z := - 2 ^ 63.

Definition saturating_add (left right : Z) : Z :=
  if decide (0 < right ∧ max_ms - right < left) then max_ms
  else if decide (right < 0 ∧ left < min_ms - right) then min_ms
  else left + right.

Definition deadline_for (record : ShapeRecord) : option Z :=
  match lifetime (record_shape record) with
  | Ttl duration | Fade duration => Some (saturating_add (started_at record) duration)
  | Persistent => None
  end.

Definition deadline_is_due (record : ShapeRecord) (now : Z) : bool :=
  match deadline_for record with Some at_ => bool_decide (at_ <= now) | None => false end.

(** The index of the alternative a lifetime holds. *)
Definition lifetime_index (lifetime : LifetimePolicy) : nat :=
  match lifetime with Persistent => 0 | Ttl _ => 1 | Fade _ => 2 end.

(** ** The scene *)

Record Entry := MkEntry { entry_record : ShapeRecord; live : bool }.

Definition dead_entry : Entry := MkEntry default_record false.

Record SceneDeadline := MkDeadline { expires_at : Z; deadline_id : ShapeId; entry_slot : nat }.

Record Scene := MkScene {
  entries : list Entry;
  free_slots : list nat;
  deadlines : list SceneDeadline;
  pending_deltas : list SceneDelta;
  publication_cursor : nat;
  epoch : N;
  revision : N;
  next_shape_slot : N;
  publishing : bool;
  sink : option N
}.

Definition empty_scene : Scene := MkScene [] [] [] [] 0 0 0 0 false None.

Definition max_revision : N := 2 ^ 64 - 1.

Definition maximumSlot : N := 2 ^ 32 - 1.

Inductive Thrown := OverflowError | OutOfRange.

Definition Locked (A : Type) : Type := Scene → (A + Thrown) * Scene.

#[export] Instance locked_ret : MRet Locked := λ _ x s, (inl x, s).

#[export] Instance locked_bind : MBind Locked := λ _ _ k m s,
  match m s with (inl x, s) => k x s | (inr t, s) => (inr t, s) end.

#[export] Instance locked_fmap : FMap Locked := λ _ _ f m s,
  match m s with (inl x, s) => (inl (f x), s) | (inr t, s) => (inr t, s) end.

Definition throw {A} (t : Thrown) : Locked A := λ s, (inr t, s).

Definition look {A} (f : Scene → A) : Locked A := λ s, (inl (f s), s).

Definition alter_scene (f : Scene → Scene) : Locked unit := λ s, (inl (), f s).

Definition with_entries (s : Scene) (l : list Entry) : Scene :=
  MkScene l (free_slots s) (deadlines s) (pending_deltas s) (publication_cursor s) (epoch s)
    (revision s) (next_shape_slot s) (publishing s) (sink s).

Definition with_free (s : Scene) (l : list nat) : Scene :=
  MkScene (entries s) l (deadlines s) (pending_deltas s) (publication_cursor s) (epoch s)
    (revision s) (next_shape_slot s) (publishing s) (sink s).

Definition with_deadlines (s : Scene) (l : list SceneDeadline) : Scene :=
  MkScene (entries s) (free_slots s) l (pending_deltas s) (publication_cursor s) (epoch s)
    (revision s) (next_shape_slot s) (publishing s) (sink s).

Definition with_pending (s : Scene) (l : list SceneDelta) (cursor : nat) (publishing : bool) : Scene :=
  MkScene (entries s) (free_slots s) (deadlines s) l cursor (epoch s)
    (revision s) (next_shape_slot s) publishing (sink s).

Definition with_counters (s : Scene) (epoch revision next_shape_slot : N) : Scene :=
  MkScene (entries s) (free_slots s) (deadlines s) (pending_deltas s) (publication_cursor s) epoch
    revision next_shape_slot (publishing s) (sink s).

Definition with_sink (s : Scene) (sink : option N) : Scene :=
  MkScene (entries s) (free_slots s) (deadlines s) (pending_deltas s) (publication_cursor s) (epoch s)
    (revision s) (next_shape_slot s) (publishing s) sink.

(** [entries.at( slot )]. *)
Definition entry_at (slot : nat) : Locked Entry := λ s,
  match entries s !! slot with Some e => (inl e, s) | None => (inr OutOfRange, s) end.

(** Assigning to the entry [entry_at] found. *)
Definition put_entry (slot : nat) (e : Entry) : Locked unit :=
  alter_scene (λ s, with_entries s (<[slot := e]> (entries s))).

Definition push_free (slot : nat) : Locked unit :=
  alter_scene (λ s, with_free s (free_slots s ++ [slot])).

(** The order of [deadline_less]. *)
Definition deadline_less (left right : SceneDeadline) : bool :=
  bool_decide (expires_at left < expires_at right) ||
  (bool_decide (expires_at left = expires_at right) &&
   bool_decide (id_slot (deadline_id left) < id_slot (deadline_id right))%N).

(** The first of the entries that is live and has the id. *)
Definition live_entry_slot (s : Scene) (id : ShapeId) : option nat :=
  fst <$> list_find (λ e, live e = true ∧ record_id (entry_record e) = id) (entries s).

Definition remove_deadline (id : ShapeId) : Locked unit :=
  alter_scene (λ s, with_deadlines s (filter (λ d, deadline_id d ≠ id) (deadlines s))).

(** Inserting at the [lower_bound] of a sorted vector. *)
Fixpoint insert_at_bound (d : SceneDeadline) (l : list SceneDeadline) : list SceneDeadline :=
  match l with
  | [] => [d]
  | x :: l => if deadline_less x d then x :: insert_at_bound d l else d :: x :: l
  end.

Definition insert_deadline (record : ShapeRecord) (slot : nat) : Locked unit :=
  match deadline_for record with
  | None => mret ()
  | Some at_ =>
    alter_scene (λ s, with_deadlines s
      (insert_at_bound (MkDeadline at_ (record_id record) slot) (deadlines s)))
  end.

Definition queue_change (c : SceneChange) : Locked unit := λ s,
  if decide (revision s = max_revision) then (inr OverflowError, s)
  else
    let next := (revision s + 1)%N in
    (inl (), with_counters
       (with_pending s (pending_deltas s ++ [MkDelta (epoch s) next c]) (publication_cursor s) (publishing s))
       (epoch s) next (next_shape_slot s)).

Definition revision_has_capacity (s : Scene) (count : N) : bool :=
  bool_decide (count <= max_revision - revision s)%N.

(** The two halves of a sorted vector at the [upper_bound] of [now]. *)
Fixpoint split_expired (now : Z) (l : list SceneDeadline) : list SceneDeadline * list SceneDeadline :=
  match l with
  | [] => ([], [])
  | d :: l =>
    if decide (now < expires_at d) then ([], d :: l)
    else let '(expired, rest) := split_expired now l in (d :: expired, rest)
  end.

Definition is_current (e : Entry) (d : SceneDeadline) : bool :=
  live e && bool_decide (record_id (entry_record e) = deadline_id d).

Fixpoint count_expired (expired : list SceneDeadline) (count : N) : Locked N :=
  match expired with
  | [] => mret count
  | d :: expired =>
    e ← entry_at (entry_slot d);
    count_expired expired (if is_current e d then count + 1 else count)%N
  end.

Fixpoint drain_each (expired : list SceneDeadline) : Locked unit :=
  match expired with
  | [] => mret ()
  | d :: expired =>
    e ← entry_at (entry_slot d);
    if negb (is_current e d) then drain_each expired
    else
      _ ← put_entry (entry_slot d) dead_entry;
      _ ← push_free (entry_slot d);
      _ ← queue_change (Remove (record_id (entry_record e)));
      drain_each expired
  end.

Definition drain_expired (now : Z) : Locked unit :=
  l ← look (λ s, split_expired now (deadlines s));
  count ← count_expired l.1 0;
  enough ← look (λ s, revision_has_capacity s count);
  if negb enough then throw OverflowError
  else
    _ ← drain_each l.1;
    alter_scene (λ s, with_deadlines s l.2).

Definition begin_publication : Locked bool := λ s,
  if publishing s || bool_decide (publication_cursor s = length (pending_deltas s)) then (inl false, s)
  else (inl true, with_pending s (pending_deltas s) (publication_cursor s) true).

Definition pop_back {A} (l : list A) : list A := take (length l - 1) l.

Definition revision_count_for_mutation (expires_immediately : bool) : N :=
  if expires_immediately then 2 else 1.

(** Where a new shape goes: a free entry, or a new one. *)
Definition choose_slot (s : Scene) : Result (nat * bool) :=
  if decide (maximumSlot < next_shape_slot s)%N then
    fail ErrorCode.Overflowed "overlay shape ids are exhausted"
  else
    match last (free_slots s) with
    | Some slot => Ok (slot, true)
    | None =>
      if decide (maximumSlot < N.of_nat (length (entries s)))%N then
        fail ErrorCode.Overflowed "overlay shape storage is exhausted"
      else Ok (length (entries s), false)
    end.

(** Noting a stored record's deadline and announcing the record. *)
Definition publish_record (record : ShapeRecord) (slot : nat) : Locked unit :=
  _ ← insert_deadline record slot;
  queue_change (Upsert record).

Definition store_new (slot : nat) (reuses : bool) (record : ShapeRecord) : Locked unit :=
  _ ← (if reuses then alter_scene (λ s, with_free s (pop_back (free_slots s))) else mret ());
  count ← look (λ s, length (entries s));
  if decide (slot = count) then alter_scene (λ s, with_entries s (entries s ++ [MkEntry record true]))
  else (_ ← entry_at slot; put_entry slot (MkEntry record true)).

Definition add_locked (now : Z) (shape : Shape) : Locked (Result ShapeId) :=
  _ ← drain_expired now;
  if negb (shape_is_valid shape) then
    mret (fail ErrorCode.InvalidArgument "overlay shape geometry is invalid")
  else
    choice ← look choose_slot;
    match choice with
    | Err e => mret (Err e)
    | Ok (slot, reuses) =>
      id ← look (λ s, MkShapeId (epoch s) (next_shape_slot s));
      let record := MkShapeRecord id shape now in
      let due := deadline_is_due record now in
      enough ← look (λ s, revision_has_capacity s (revision_count_for_mutation due));
      if negb enough then mret (fail ErrorCode.Overflowed "overlay revisions are exhausted")
      else
        _ ← store_new slot reuses record;
        _ ← publish_record record slot;
        _ ← alter_scene (λ s, with_counters s (epoch s) (revision s) (next_shape_slot s + 1));
        _ ← (if due then drain_expired now else mret ());
        mret (Ok id)
    end.

Definition slot_of_id (s : Scene) (id : ShapeId) : option nat :=
  if decide (id_epoch id = epoch s) then live_entry_slot s id else None.

Definition update_locked (now : Z) (id : ShapeId) (shape : Shape) : Locked (Result unit) :=
  _ ← drain_expired now;
  found ← look (λ s, slot_of_id s id);
  match found with
  | None => mret (fail ErrorCode.StaleShape "overlay shape id is stale")
  | Some slot =>
    if negb (shape_is_valid shape) then
      mret (fail ErrorCode.InvalidArgument "overlay shape geometry is invalid")
    else
      e ← entry_at slot;
      let started :=
        if decide (lifetime_index (lifetime (record_shape (entry_record e))) =
                   lifetime_index (lifetime shape))
        then started_at (entry_record e) else now in
      let record := MkShapeRecord id shape started in
      let due := deadline_is_due record now in
      enough ← look (λ s, revision_has_capacity s (revision_count_for_mutation due));
      if negb enough then mret (fail ErrorCode.Overflowed "overlay revisions are exhausted")
      else
        _ ← remove_deadline id;
        _ ← put_entry slot (MkEntry record (live e));
        _ ← publish_record record slot;
        _ ← (if due then drain_expired now else mret ());
        mret (Ok ())
  end.

Definition remove_locked (now : Z) (id : ShapeId) : Locked (Result unit) :=
  _ ← drain_expired now;
  found ← look (λ s, slot_of_id s id);
  match found with
  | None => mret (fail ErrorCode.StaleShape "overlay shape id is stale")
  | Some slot =>
    enough ← look (λ s, revision_has_capacity s 1);
    if negb enough then mret (fail ErrorCode.Overflowed "overlay revisions are exhausted")
    else
      _ ← entry_at slot;
      _ ← put_entry slot dead_entry;
      _ ← remove_deadline id;
      _ ← push_free slot;
      _ ← queue_change (Remove id);
      mret (Ok ())
  end.

(** The loop of [clear] makes every entry free, the last one first. *)
Definition clear_locked (now : Z) : Locked unit :=
  full ← look (λ s, bool_decide (epoch s = max_revision));
  if full : bool then throw OverflowError
  else
    _ ← drain_expired now;
    _ ← alter_scene (λ s,
          with_counters
            (with_deadlines
               (with_free (with_entries s (replicate (length (entries s)) dead_entry))
                  (reverse (seq 0 (length (entries s))))) [])
            (epoch s + 1) 0 0);
    new_epoch ← look epoch;
    queue_change (Clear new_epoch).

(** The lexicographic order of band, z and slot. *)
Definition band_value (b : Band) : Z := match b with Band.Annotation => 0 | Band.Trail => 1 end.

Definition draws_before (left right : ShapeRecord) : Prop :=
  let a := record_shape left in
  let b := record_shape right in
  band_value (band a) < band_value (band b) ∨
  (band a = band b ∧ z_order a < z_order b) ∨
  (band a = band b ∧ z_order a = z_order b ∧ id_slot (record_id left) <= id_slot (record_id right))%N.

#[export] Instance draws_before_dec : RelDecision draws_before.
Proof. intros left right. unfold draws_before. apply _. Defined.

Definition live_records (s : Scene) : list ShapeRecord :=
  entry_record <$> filter (λ e, live e = true) (entries s).

Definition snapshot_locked (now : Z) : Locked SceneSnapshot :=
  _ ← drain_expired now;
  look (λ s, MkSceneSnapshot (epoch s) (revision s) (merge_sort draws_before (live_records s))).

(** ** Calls and the hand-over *)

Inductive SceneCall :=
  | CallAdd (shape : Shape)
  | CallUpdate (id : ShapeId) (shape : Shape)
  | CallRemove (id : ShapeId)
  | CallClear
  | CallSnapshot.

Inductive SceneAnswer :=
  | AddAnswer (r : Result ShapeId)
  | UpdateAnswer (r : Result unit)
  | RemoveAnswer (r : Result unit)
  | ClearAnswer
  | SnapshotAnswer (shown : SceneSnapshot).

(** What a call does under the lock before it asks whether it is to publish. *)
Definition call_locked (now : Z) (call : SceneCall) : Locked SceneAnswer :=
  match call with
  | CallAdd shape => AddAnswer <$> add_locked now shape
  | CallUpdate id shape => UpdateAnswer <$> update_locked now id shape
  | CallRemove id => RemoveAnswer <$> remove_locked now id
  | CallClear => (λ _, ClearAnswer) <$> clear_locked now
  | CallSnapshot => SnapshotAnswer <$> snapshot_locked now
  end.

(** The thread that hands over, when there is one: at the top of its loop, or calling
    the sink it read with the delta it took. *)
Inductive Publisher :=
  | NobodyPublishes
  | Looping
  | CallingSink (delta : SceneDelta) (sink : N).

(** [handed] and [delivered] are a record of the hand-over, which no code reads. *)
Record SceneWorld := MkSceneWorld {
  scene : Scene;
  publisher : Publisher;
  handed : list SceneDelta;
  delivered : list (N * SceneDelta);
  publication_failures : N
}.

Definition start_world : SceneWorld := MkSceneWorld empty_scene NobodyPublishes [] [] 0.

Inductive SceneEvent :=
  | Calls (now : Z) (call : SceneCall)
  | TakesNext
  | SinkReturns (throws : bool)
  | SetsSink (sink : option N).

(** A call's locked block; the caller whose [begin_publication] succeeds becomes the
    publisher. *)
Definition call_step (now : Z) (call : SceneCall) (w : SceneWorld) : (SceneAnswer + Thrown) * SceneWorld :=
  let '(answer, s) :=
    (x ← call_locked now call; should_publish ← begin_publication; mret (x, should_publish)) (scene w) in
  match answer with
  | inl (x, should_publish) =>
    (inl x, MkSceneWorld s (if should_publish : bool then Looping else publisher w)
              (handed w) (delivered w) (publication_failures w))
  | inr t => (inr t, MkSceneWorld s (publisher w) (handed w) (delivered w) (publication_failures w))
  end.

(** The locked block of [drain_publications]' loop.  A cursor past the end would end the
    process; the invariant of [SceneTheorems] excludes it. *)
Definition take_step (w : SceneWorld) : SceneWorld :=
  let s := scene w in
  if decide (publication_cursor s = length (pending_deltas s)) then
    MkSceneWorld (with_pending s [] 0 false) NobodyPublishes (handed w) (delivered w)
      (publication_failures w)
  else
    match pending_deltas s !! publication_cursor s with
    | None => w
    | Some delta =>
      MkSceneWorld (with_pending s (pending_deltas s) (publication_cursor s + 1) (publishing s))
        (match sink s with Some k => CallingSink delta k | None => Looping end)
        (handed w ++ [delta]) (delivered w) (publication_failures w)
    end.

Definition scene_step (w : SceneWorld) (event : SceneEvent) : SceneWorld :=
  match event, publisher w with
  | Calls now call, _ => (call_step now call w).2
  | TakesNext, Looping => take_step w
  | SinkReturns throws, CallingSink delta k =>
    MkSceneWorld (scene w) Looping (handed w) (delivered w ++ [(k, delta)])
      (if throws then (publication_failures w + 1) mod 2 ^ 64 else publication_failures w)%N
  | SetsSink k, _ =>
    MkSceneWorld (with_sink (scene w) k) (publisher w) (handed w) (delivered w)
      (publication_failures w)
  | _, _ => w
  end.

Definition scene_after (events : list SceneEvent) : SceneWorld := foldl scene_step start_world events.

(** The ids the calls of a run gave. *)
Fixpoint ids_given (w : SceneWorld) (events : list SceneEvent) : list ShapeId :=
  match events with
  | [] => []
  | event :: events =>
    match event with
    | Calls now call =>
      match (call_step now call w).1 with inl (AddAnswer (Ok id)) => [id] | _ => [] end
    | _ => []
    end ++ ids_given (scene_step w event) events
  end.
