(* ===== verification/ScenePicture.v ===== *)
(** The overlay's scene keeps a picture: a map of shapes by id.

    [scene_ok] is the invariant of the scene's tables: live entries have distinct ids of
    the current epoch, the free list names exactly the dead entries, the deadlines are
    those of the live entries, sorted.  Under it each locked step is described by its
    effect on [shapes_of], and by the deltas it announces, which take a mirror of the
    scene before it to the mirror of the scene after it. *)

From S2P Require Import Prelude Errors Geometry Json Scene.

Local Open Scope Z_scope.

(** ** The picture and its mirror *)

Definition live_pairs (l : list Entry) : list (ShapeId * ShapeRecord) :=
  (λ e, (record_id (entry_record e), entry_record e)) <$> filter (λ e, live e = true) l.

Definition shapes_of (s : Scene) : gmap ShapeId ShapeRecord := list_to_map (live_pairs (entries s)).

(** A record that is not due. *)
Definition undue (now : Z) (m : gmap ShapeId ShapeRecord) : gmap ShapeId ShapeRecord :=
  filter (λ p, deadline_is_due p.2 now = false) m.

Record Mirror := MkMirror {
  mirror_epoch : N; mirror_revision : N; mirror_shapes : gmap ShapeId ShapeRecord
}.

Definition empty_mirror : Mirror := MkMirror 0 0 ∅.

Definition mirror_of (s : Scene) : Mirror := MkMirror (epoch s) (revision s) (shapes_of s).

(** What a reader of deltas does.  It refuses a delta that does not follow the last one. *)
Definition mirror_delta (m : Mirror) (d : SceneDelta) : option Mirror :=
  match change d with
  | Clear new_epoch =>
    if decide (new_epoch = delta_epoch d ∧ new_epoch = mirror_epoch m + 1 ∧ delta_revision d = 1)%N
    then Some (MkMirror new_epoch 1 ∅) else None
  | Upsert record =>
    if decide (delta_epoch d = mirror_epoch m ∧ delta_revision d = mirror_revision m + 1 ∧
               id_epoch (record_id record) = mirror_epoch m)%N
    then Some (MkMirror (mirror_epoch m) (delta_revision d)
                 (<[record_id record := record]> (mirror_shapes m)))
    else None
  | Remove id =>
    if decide (delta_epoch d = mirror_epoch m ∧ delta_revision d = mirror_revision m + 1 ∧
               is_Some (mirror_shapes m !! id))%N
    then Some (MkMirror (mirror_epoch m) (delta_revision d) (delete id (mirror_shapes m)))
    else None
  end.

Fixpoint mirror_deltas (m : Mirror) (ds : list SceneDelta) : option Mirror :=
  match ds with
  | [] => Some m
  | d :: ds => m' ← mirror_delta m d; mirror_deltas m' ds
  end.

Lemma mirror_deltas_app m ds ds' m1 :
  mirror_deltas m ds = Some m1 → mirror_deltas m (ds ++ ds') = mirror_deltas m1 ds'.
Proof.
  revert m. induction ds as [|d ds IH]; simpl; intros m E; [by simplify_eq|].
  apply bind_Some in E as (m2 & E2 & E). rewrite E2. simpl. by apply IH.
Qed.

(** ** The invariant *)

Definition holds (l : list Entry) (i : nat) (r : ShapeRecord) : Prop :=
  ∃ e, l !! i = Some e ∧ live e = true ∧ entry_record e = r.

Record tables_ok (s : Scene) : Prop := {
  ids_differ : ∀ i j r r', holds (entries s) i r → holds (entries s) j r' →
                 record_id r = record_id r' → i = j;
  ids_given_out : ∀ i r, holds (entries s) i r →
                 id_epoch (record_id r) = epoch s ∧ (id_slot (record_id r) < next_shape_slot s)%N;
  free_once : NoDup (free_slots s);
  free_dead : ∀ i, i ∈ free_slots s ↔ ∃ e, entries s !! i = Some e ∧ live e = false;
  slots_fit : (N.of_nat (length (entries s)) <= maximumSlot + 1)%N;
  ids_fit : (next_shape_slot s <= maximumSlot + 1)%N;
  revision_fits : (revision s <= max_revision)%N
}.

Definition timed (s : Scene) (d : SceneDeadline) : Prop :=
  ∃ r, holds (entries s) (entry_slot d) r ∧ record_id r = deadline_id d ∧
       deadline_for r = Some (expires_at d).

Definition before (d d' : SceneDeadline) : Prop := expires_at d <= expires_at d'.

Record scene_ok (s : Scene) : Prop := {
  scene_tables : tables_ok s;
  deadlines_once : NoDup (deadlines s);
  deadlines_exact : ∀ d, d ∈ deadlines s ↔ timed s d;
  deadlines_sorted : Sorted before (deadlines s)
}.

(** What a locked step announces. *)
Definition announces (s s' : Scene) : Prop :=
  ∃ ds, pending_deltas s' = pending_deltas s ++ ds ∧
        mirror_deltas (mirror_of s) ds = Some (mirror_of s') ∧
        publication_cursor s' = publication_cursor s ∧ publishing s' = publishing s ∧
        sink s' = sink s.

Lemma announces_trans s1 s2 s3 : announces s1 s2 → announces s2 s3 → announces s1 s3.
Proof.
  intros (ds & P & M & C & B & K) (ds' & P' & M' & C' & B' & K').
  exists (ds ++ ds'). rewrite P', P, app_assoc.
  rewrite (mirror_deltas_app _ _ _ _ M). repeat split; congruence.
Qed.

Lemma announces_refl s : announces s s.
Proof. exists []. rewrite app_nil_r. done. Qed.

(** ** The map of the live entries *)

Lemma elem_of_live_pairs l id r :
  (id, r) ∈ live_pairs l ↔ ∃ i, holds l i r ∧ record_id r = id.
Proof.
  unfold live_pairs, holds. rewrite list_elem_of_fmap. split.
  - intros (e & E & Hin). simplify_eq. apply list_elem_of_filter in Hin as [Hl Hin].
    apply list_elem_of_lookup in Hin as [i Hi]. eauto 10.
  - intros (i & (e & Hi & Hl & <-) & <-). exists e. split; [done|].
    apply list_elem_of_filter. split; [done|]. by eapply list_elem_of_lookup_2.
Qed.

Lemma live_pairs_NoDup l :
  (∀ i j r r', holds l i r → holds l j r' → record_id r = record_id r' → i = j) →
  NoDup (live_pairs l).*1.
Proof.
  induction l as [|e l IH]; intros D; [constructor|].
  assert (NoDup (live_pairs l).*1) as N.
  { apply IH. intros i j r r' H1 H2 Er. specialize (D (S i) (S j) r r' H1 H2 Er). lia. }
  unfold live_pairs. rewrite filter_cons. case_decide as L; [|done].
  simpl. constructor; [|done]. rewrite list_elem_of_fmap. intros ([id r] & E & Hin). simpl in E. subst id.
  apply elem_of_live_pairs in Hin as (i & Hi & Er).
  specialize (D 0%nat (S i) (entry_record e) r). ospecialize* D; [by exists e|done|done|lia].
Qed.

Lemma shapes_of_lookup s id r :
  tables_ok s → shapes_of s !! id = Some r ↔ ∃ i, holds (entries s) i r ∧ record_id r = id.
Proof.
  intros T. unfold shapes_of. rewrite <-elem_of_live_pairs.
  rewrite elem_of_list_to_map; [done|]. apply live_pairs_NoDup, T.
Qed.

Lemma holds_fun l i r r' : holds l i r → holds l i r' → r = r'.
Proof. intros (e & H & ? & <-) (e' & H' & ? & <-). congruence. Qed.

Lemma holds_insert l i e j r :
  (i < length l)%nat →
  holds (<[i := e]> l) j r ↔ (i = j ∧ live e = true ∧ entry_record e = r) ∨ (i ≠ j ∧ holds l j r).
Proof.
  intros Hi. unfold holds. destruct (decide (i = j)) as [->|Hne].
  - rewrite list_lookup_insert_eq by done. naive_solver.
  - rewrite list_lookup_insert_ne by done. naive_solver.
Qed.

Lemma holds_snoc l e j r :
  holds (l ++ [e]) j r ↔ (j = length l ∧ live e = true ∧ entry_record e = r) ∨ holds l j r.
Proof.
  unfold holds. split.
  - intros (e' & H & L & R). apply lookup_app_Some in H as [H|[Hge H]]; [naive_solver|].
    apply list_lookup_singleton_Some in H as [Hj <-]. left. split; [lia|done].
  - intros [(-> & L & R)|(e' & H & L & R)].
    + exists e. rewrite lookup_app_r by lia. rewrite Nat.sub_diag. done.
    + exists e'. split; [|done]. by apply lookup_app_l_Some.
Qed.

Lemma holds_lt l i r : holds l i r → (i < length l)%nat.
Proof. intros (e & H & _). by eapply lookup_lt_Some. Qed.

Lemma shapes_of_eq s m :
  tables_ok s →
  (∀ i r, holds (entries s) i r → m !! record_id r = Some r) →
  (∀ id r, m !! id = Some r → record_id r = id ∧ ∃ i, holds (entries s) i r) →
  shapes_of s = m.
Proof.
  intros T H1 H2. apply map_eq. intros id. apply option_eq. intros r.
  rewrite shapes_of_lookup by done. split.
  - intros (i & H & <-). eauto.
  - intros H. apply H2 in H as (E & i & H). eauto.
Qed.

Lemma shapes_of_holds s i r : tables_ok s → holds (entries s) i r → shapes_of s !! record_id r = Some r.
Proof. intros T H. apply shapes_of_lookup; eauto. Qed.

Lemma shapes_of_inv s id r :
  tables_ok s → shapes_of s !! id = Some r → record_id r = id ∧ ∃ i, holds (entries s) i r.
Proof. intros T H. apply shapes_of_lookup in H as (i & H & E); eauto. Qed.

(** ** Ending an entry *)

(** The state after [put_entry slot dead_entry], [push_free slot] and the announcement,
    in any order. *)
Definition ended (s : Scene) (slot : nat) (id : ShapeId) : Scene :=
  MkScene (<[slot := dead_entry]> (entries s)) (free_slots s ++ [slot]) (deadlines s)
    (pending_deltas s ++ [MkDelta (epoch s) (revision s + 1) (Remove id)]) (publication_cursor s)
    (epoch s) (revision s + 1) (next_shape_slot s) (publishing s) (sink s).

Lemma holds_ended s slot id r i r' :
  holds (entries s) slot r →
  holds (entries (ended s slot id)) i r' ↔ i ≠ slot ∧ holds (entries s) i r'.
Proof.
  intros H. cbn [ended entries]. rewrite holds_insert by (by eapply holds_lt). cbn [live dead_entry].
  naive_solver.
Qed.

Lemma ended_tables s slot r :
  tables_ok s → (revision s < max_revision)%N → holds (entries s) slot r →
  tables_ok (ended s slot (record_id r)).
Proof.
  intros T Hrev H. pose proof (holds_lt _ _ _ H) as Hlt. split.
  - intros i j r1 r2. rewrite !holds_ended by done. intros [_ H1] [_ H2]. by eapply ids_differ.
  - intros i r1. rewrite holds_ended by done. intros [_ H1]. by apply (ids_given_out s T i).
  - cbn [ended free_slots]. apply NoDup_app. split; [apply T|]. split; [|apply NoDup_singleton].
    intros i Hi E%list_elem_of_singleton. subst i. apply (free_dead s T) in Hi as (e & He & L).
    destruct H as (e' & He' & L' & _). congruence.
  - intros i. cbn [ended free_slots entries]. rewrite elem_of_app, (free_dead s T), list_elem_of_singleton.
    destruct (decide (slot = i)) as [->|Hne].
    + rewrite list_lookup_insert_eq by done. split; [|by right]. intros _. by exists dead_entry.
    + rewrite list_lookup_insert_ne by done. naive_solver.
  - cbn [ended entries]. rewrite length_insert. apply T.
  - apply T.
  - cbn [ended revision]. lia.
Qed.

Lemma ended_shapes s slot r :
  tables_ok s → (revision s < max_revision)%N → holds (entries s) slot r →
  shapes_of (ended s slot (record_id r)) = delete (record_id r) (shapes_of s).
Proof.
  intros T Hrev H. apply shapes_of_eq; [by apply ended_tables|..].
  - intros i r'. rewrite holds_ended by done. intros [Hne Hi].
    rewrite lookup_delete_ne by (intros E; apply Hne; by eapply ids_differ).
    by eapply shapes_of_holds.
  - intros id r' [Hne Hl]%lookup_delete_Some. apply shapes_of_inv in Hl as [E [i Hi]]; [|done].
    split; [done|]. exists i. rewrite holds_ended by done. split; [|done].
    intros ->. pose proof (holds_fun _ _ _ _ Hi H). congruence.
Qed.

Lemma ended_announces s slot r :
  tables_ok s → (revision s < max_revision)%N → holds (entries s) slot r →
  announces s (ended s slot (record_id r)).
Proof.
  intros T Hrev H. eexists. split; [reflexivity|]. split; [|done].
  cbn [mirror_deltas]. unfold mirror_delta at 1. cbn [change delta_epoch delta_revision mirror_of mirror_epoch
    mirror_revision mirror_shapes].
  rewrite decide_True by (rewrite (shapes_of_holds _ _ _ T H); eauto). simpl.
  unfold mirror_of. rewrite ended_shapes by done. done.
Qed.

Lemma queue_change_eq s c :
  (revision s < max_revision)%N →
  queue_change c s =
    (inl (), MkScene (entries s) (free_slots s) (deadlines s)
       (pending_deltas s ++ [MkDelta (epoch s) (revision s + 1) c]) (publication_cursor s)
       (epoch s) (revision s + 1) (next_shape_slot s) (publishing s) (sink s)).
Proof. intros H. unfold queue_change. by rewrite decide_False by lia. Qed.

(** ** The deadlines *)

Lemma split_expired_app now l : l = (split_expired now l).1 ++ (split_expired now l).2.
Proof.
  induction l as [|d l IH]; simpl; [done|]. case_decide; [done|].
  destruct (split_expired now l). simpl in *. by rewrite IH at 1.
Qed.

Lemma split_expired_due now l d : d ∈ (split_expired now l).1 → expires_at d <= now.
Proof.
  induction l as [|d' l IH]; simpl; [by intros ?%elem_of_nil|]. case_decide; [by intros ?%elem_of_nil|].
  destruct (split_expired now l) as [a b]. simpl in *. intros [->|H']%elem_of_cons; [lia|auto].
Qed.

#[export] Instance before_trans : Transitive before.
Proof. intros a b c. unfold before. lia. Qed.

Lemma split_expired_rest now l d :
  Sorted before l → d ∈ (split_expired now l).2 → now < expires_at d.
Proof.
  intros S%Sorted_StronglySorted; [|apply _]. induction S as [|d' l S IH F]; simpl; [by intros ?%elem_of_nil|].
  case_decide as Hd.
  - simpl. intros [->|Hin]%elem_of_cons; [done|]. rewrite Forall_forall in F. specialize (F _ Hin).
    unfold before in F. lia.
  - destruct (split_expired now l) as [a b]. simpl in *. auto.
Qed.

Lemma insert_at_bound_perm d l : insert_at_bound d l ≡ₚ d :: l.
Proof.
  induction l as [|x l IH]; simpl; [done|]. destruct (deadline_less x d); [|done].
  rewrite IH. apply Permutation_swap.
Qed.

Lemma deadline_less_before d d' : deadline_less d d' = true → before d d'.
Proof.
  unfold deadline_less, before. rewrite orb_true_iff, andb_true_iff, !bool_decide_eq_true. lia.
Qed.

Lemma deadline_not_less d d' : deadline_less d d' = false → before d' d.
Proof. unfold deadline_less, before. rewrite orb_false_iff, bool_decide_eq_false. lia. Qed.

Lemma insert_at_bound_sorted d l : Sorted before l → Sorted before (insert_at_bound d l).
Proof.
  induction l as [|x l IH]; simpl; intros S; [by repeat constructor|].
  apply Sorted_inv in S as [S F]. destruct (deadline_less x d) eqn:L.
  - constructor; [by apply IH|]. apply deadline_less_before in L.
    destruct l as [|y l]; simpl; [by constructor|]. inversion F; subst.
    destruct (deadline_less y d); by constructor.
  - constructor; [by constructor|]. constructor. by apply deadline_not_less.
Qed.

Lemma timed_entry s d :
  timed s d →
  ∃ e, entry_at (entry_slot d) s = (inl e, s) ∧ is_current e d = true ∧
       record_id (entry_record e) = deadline_id d ∧ holds (entries s) (entry_slot d) (entry_record e).
Proof.
  intros (r & H & E & _). destruct H as (e & He & L & <-). exists e.
  unfold entry_at, is_current. rewrite He, L, bool_decide_eq_true_2 by done.
  repeat split; [done|by exists e].
Qed.

Lemma count_expired_ok expired c s :
  Forall (timed s) expired →
  count_expired expired c s = (inl (c + N.of_nat (length expired))%N, s).
Proof.
  intros F. revert c. induction F as [|d expired H F IH]; intros c; simpl.
  - by rewrite N.add_0_r.
  - destruct (timed_entry _ _ H) as (e & E & C & _). unfold mbind, locked_bind. rewrite E, C, IH.
    do 2 f_equal. lia.
Qed.

Lemma deadlines_ids_once s l :
  scene_ok s → l ⊆ deadlines s → NoDup l → NoDup (deadline_id <$> l).
Proof.
  intros K Sub. apply NoDup_fmap_2_strong. intros d d' H H' E.
  apply Sub, (deadlines_exact s K) in H as (r & Hr & Er & Dr).
  apply Sub, (deadlines_exact s K) in H' as (r' & Hr' & Er' & Dr').
  assert (entry_slot d = entry_slot d') as Es by (eapply (ids_differ s (scene_tables s K)); eauto; congruence).
  rewrite Es in Hr. pose proof (holds_fun _ _ _ _ Hr Hr'). subst r'.
  destruct d, d'; simpl in *. congruence.
Qed.

Definition drained (s : Scene) (ids : list ShapeId) (s' : Scene) : Prop :=
  tables_ok s' ∧ announces s s' ∧ deadlines s' = deadlines s ∧ epoch s' = epoch s ∧
  next_shape_slot s' = next_shape_slot s ∧
  revision s' = (revision s + N.of_nat (length ids))%N ∧
  ∀ i r, holds (entries s') i r ↔ holds (entries s) i r ∧ record_id r ∉ ids.

Lemma drain_each_ok expired s :
  tables_ok s → Forall (timed s) expired → NoDup (deadline_id <$> expired) →
  (revision s + N.of_nat (length expired) <= max_revision)%N →
  ∃ s', drain_each expired s = (inl (), s') ∧ drained s (deadline_id <$> expired) s'.
Proof.
  revert s. induction expired as [|d expired IH]; intros s T F N R.
  - exists s. split; [done|]. split_and!; [done|apply announces_refl|done..| |].
    + simpl. lia.
    + intros i r. simpl. set_solver.
  - apply Forall_cons in F as [Hd F]. rewrite fmap_cons in N. apply NoDup_cons in N as [Nd N].
    destruct (timed_entry _ _ Hd) as (e & E & C & Eid & Hh).
    assert (revision s < max_revision)%N as R1 by (cbn [length] in R; lia).
    destruct (IH (ended s (entry_slot d) (record_id (entry_record e)))) as
      (s' & E' & T' & A' & D' & Ep' & Nx' & R' & H').
    + by apply ended_tables.
    + rewrite Forall_forall in F |- *. intros d' Hin. destruct (F _ Hin) as (r & Hr & Er & Dr).
      exists r. split; [|done]. rewrite holds_ended by done. split; [|done].
      intros Es. rewrite Es in Hr. pose proof (holds_fun _ _ _ _ Hr Hh). subst r.
      apply Nd. rewrite <-Eid, Er. by apply list_elem_of_fmap_2.
    + done.
    + cbn [ended revision]. cbn [length] in R. lia.
    + exists s'. split.
      { cbn [drain_each]. unfold mbind, locked_bind in E' |- *. rewrite E, C. cbn [negb].
        unfold put_entry, push_free, alter_scene. rewrite queue_change_eq by done. done. }
      split_and!; [done|eapply announces_trans; [by apply ended_announces|done]|by rewrite D'|
                   by rewrite Ep'|by rewrite Nx'| |].
      * rewrite R'. cbn [ended revision]. rewrite !length_fmap. cbn [length]. lia.
      * intros i r. rewrite H', holds_ended by done. rewrite fmap_cons, not_elem_of_cons.
        split.
        -- intros [[Hne Hi] Hn]. split_and!; [done| |done]. rewrite <-Eid. intros Er.
           apply Hne. exact (ids_differ s T _ _ _ _ Hi Hh Er).
        -- intros (Hi & Hne & Hn). split_and!; [|done|done]. intros ->.
           pose proof (holds_fun _ _ _ _ Hi Hh). congruence.
Qed.

(** The number of deadlines [drain_expired] would end. *)
Definition due_count (now : Z) (s : Scene) : N := N.of_nat (length (split_expired now (deadlines s)).1).

(** A locked step that ends what is due and leaves the rest. *)
Definition expired_to (now : Z) (s s' : Scene) : Prop :=
  scene_ok s' ∧ announces s s' ∧ epoch s' = epoch s ∧ next_shape_slot s' = next_shape_slot s ∧
  revision s' = (revision s + due_count now s)%N ∧
  shapes_of s' = undue now (shapes_of s) ∧
  (∀ d, d ∈ deadlines s' → now < expires_at d).

Lemma due_in_deadlines s i r now :
  scene_ok s → holds (entries s) i r →
  deadline_is_due r now = true ↔ record_id r ∈ deadline_id <$> (split_expired now (deadlines s)).1.
Proof.
  intros K H. unfold deadline_is_due. rewrite list_elem_of_fmap. split.
  - destruct (deadline_for r) as [at_|] eqn:E; [|done]. intros D%bool_decide_eq_true.
    exists (MkDeadline at_ (record_id r) i). split; [done|].
    assert (MkDeadline at_ (record_id r) i ∈ deadlines s) as Hin
      by (apply (deadlines_exact s K); exists r; done).
    rewrite (split_expired_app now (deadlines s)) in Hin. apply elem_of_app in Hin as [|Hin]; [done|].
    apply split_expired_rest in Hin; [|apply K]. simpl in Hin. lia.
  - intros (d & E & Hin). pose proof (split_expired_due _ _ _ Hin) as Hd.
    assert (d ∈ deadlines s) as Hd' by (rewrite (split_expired_app now (deadlines s)); set_solver).
    apply (deadlines_exact s K) in Hd' as (r' & Hr' & Er' & Dr').
    assert (entry_slot d = i) as Es
      by (eapply (ids_differ s (scene_tables s K)); eauto; congruence).
    rewrite Es in Hr'. pose proof (holds_fun _ _ _ _ H Hr'). subst r'.
    rewrite Dr'. by apply bool_decide_eq_true.
Qed.

Lemma timed_due s d now : deadline_for s = Some (expires_at d) →
  deadline_is_due s now = bool_decide (expires_at d <= now).
Proof. unfold deadline_is_due. by intros ->. Qed.

Lemma shapes_of_undue now s s' :
  scene_ok s → tables_ok s' →
  (∀ i r, holds (entries s') i r ↔
     holds (entries s) i r ∧ record_id r ∉ deadline_id <$> (split_expired now (deadlines s)).1) →
  shapes_of s' = undue now (shapes_of s).
Proof.
  intros K T H. apply shapes_of_eq; [done|..].
  - intros i r [Hi Hn]%H. unfold undue. apply map_lookup_filter_Some. split.
    + by eapply shapes_of_holds; [apply K|].
    + simpl. rewrite <-(due_in_deadlines s i r now K Hi) in Hn. by apply not_true_is_false.
  - intros id r [Hl Hd]%map_lookup_filter_Some. simpl in Hd.
    apply shapes_of_inv in Hl as [E [i Hi]]; [|apply K]. split; [done|]. exists i. apply H. split; [done|].
    rewrite <-(due_in_deadlines s i r now K Hi). congruence.
Qed.

(** Dropping the ended deadlines restores the invariant. *)
Lemma drained_ok now s s' :
  scene_ok s → drained s (deadline_id <$> (split_expired now (deadlines s)).1) s' →
  expired_to now s (with_deadlines s' (split_expired now (deadlines s)).2).
Proof.
  intros K (T & A & D & Ep & Nx & R & H). set (l := split_expired now (deadlines s)) in *.
  assert (deadlines s = l.1 ++ l.2) as El by apply split_expired_app.
  assert (∀ d, d ∈ l.2 → now < expires_at d) as Hrest by (intros d; apply split_expired_rest, K).
  split_and!; [|exact A|done|done| |exact (shapes_of_undue now s s' K T H)|exact Hrest].
  2: { simpl. rewrite R, length_fmap. done. }
  pose proof (deadlines_once s K) as N. rewrite El in N. apply NoDup_app in N as (_ & N12 & N2).
  split; [by destruct T; constructor|done| |].
  - intros d. cbn [with_deadlines deadlines]. split.
    + intros Hd. assert (d ∈ deadlines s) as Hin by (rewrite El; set_solver).
      apply (deadlines_exact s K) in Hin as (r & Hr & Er & Dr). exists r. split; [|done].
      apply H. split; [done|]. unfold l. rewrite <-(due_in_deadlines s _ _ now K Hr).
      rewrite (timed_due _ _ _ Dr). specialize (Hrest _ Hd). rewrite bool_decide_eq_true. lia.
    + intros (r & [Hr Hn]%H & Er & Dr). assert (d ∈ deadlines s) as Hin
        by (apply (deadlines_exact s K); by exists r).
      rewrite El in Hin. apply elem_of_app in Hin as [Hin|]; [|done].
      exfalso. apply Hn. rewrite Er. by apply list_elem_of_fmap_2.
  - cbn [with_deadlines deadlines]. pose proof (deadlines_sorted s K) as S. rewrite El in S.
    apply Sorted_StronglySorted in S; [|apply _]. apply StronglySorted_app in S as (_ & _ & S).
    by apply StronglySorted_Sorted.
Qed.

Lemma drain_ok now s :
  scene_ok s →
  (drain_expired now s = (inr OverflowError, s) ∧ (max_revision - revision s < due_count now s)%N) ∨
  ∃ s', drain_expired now s = (inl (), s') ∧ expired_to now s s'.
Proof.
  intros K. set (l := split_expired now (deadlines s)).
  assert (l.1 ⊆ deadlines s) as Sub by (rewrite (split_expired_app now (deadlines s)); set_solver).
  assert (Forall (timed s) l.1) as F.
  { apply Forall_forall. intros d Hd. apply (deadlines_exact s K). by apply Sub. }
  assert (NoDup l.1) as N.
  { pose proof (deadlines_once s K) as N. rewrite (split_expired_app now (deadlines s)) in N.
    by apply NoDup_app in N as (N & _). }
  pose proof (revision_fits s (scene_tables s K)) as Rf.
  assert (drain_expired now s =
    if negb (revision_has_capacity s (due_count now s)) then (inr OverflowError, s)
    else match drain_each l.1 s with
         | (inl _, s') => (inl (), with_deadlines s' l.2) | (inr t, s') => (inr t, s') end) as ->.
  { unfold drain_expired, mbind, locked_bind, look. fold l. rewrite count_expired_ok by done.
    unfold due_count. fold l. rewrite N.add_0_l. destruct (revision_has_capacity _ _); [|done].
    simpl. by destruct (drain_each l.1 s) as [[[]|] ?]. }
  unfold revision_has_capacity. case_bool_decide as C; simpl.
  - right. unfold due_count in C. fold l in C.
    destruct (drain_each_ok l.1 s) as (s' & -> & D); [apply K|done|by eapply deadlines_ids_once|lia|].
    eexists. split; [done|]. by apply drained_ok.
  - left. split; [done|lia].
Qed.

(** ** Placing a record *)

Definition note_deadline (record : ShapeRecord) (slot : nat) (l : list SceneDeadline) : list SceneDeadline :=
  match deadline_for record with
  | None => l
  | Some at_ => insert_at_bound (MkDeadline at_ (record_id record) slot) l
  end.

Lemma elem_of_note_deadline record slot l d :
  d ∈ note_deadline record slot l ↔
  d ∈ l ∨ (deadline_for record = Some (expires_at d) ∧ deadline_id d = record_id record ∧ entry_slot d = slot).
Proof.
  unfold note_deadline. destruct (deadline_for record) as [at_|] eqn:E; [|naive_solver].
  rewrite insert_at_bound_perm, elem_of_cons. destruct d. naive_solver.
Qed.

(** The tables with a record placed in a slot and announced. *)
Definition placed (s : Scene) (l : list Entry) (free : list nat) (ds : list SceneDeadline)
    (record : ShapeRecord) (slot : nat) (next : N) : Scene :=
  MkScene l free (note_deadline record slot ds)
    (pending_deltas s ++ [MkDelta (epoch s) (revision s + 1) (Upsert record)]) (publication_cursor s)
    (epoch s) (revision s + 1) next (publishing s) (sink s).

Lemma publish_record_eq s record slot :
  (revision s < max_revision)%N →
  publish_record record slot s =
    (inl (), placed s (entries s) (free_slots s) (deadlines s) record slot (next_shape_slot s)).
Proof.
  intros R. unfold publish_record, insert_deadline, placed, note_deadline, mbind, locked_bind.
  destruct (deadline_for record); unfold alter_scene, mret, locked_ret; by rewrite queue_change_eq.
Qed.

Section placing.
Context (s : Scene) (l : list Entry) (free : list nat) (ds : list SceneDeadline).
Context (record : ShapeRecord) (slot : nat) (next : N).
Context (K : scene_ok s) (Hrev : (revision s < max_revision)%N).
Context (Hl : ∀ i r, holds l i r ↔ (i = slot ∧ r = record) ∨ (i ≠ slot ∧ holds (entries s) i r)).
Context (Hid : ∀ i r, holds (entries s) i r → record_id r = record_id record → i = slot).
Context (Hep : id_epoch (record_id record) = epoch s) (Hnext : (id_slot (record_id record) < next)%N).
Context (Hle : (next_shape_slot s <= next <= maximumSlot + 1)%N).
Context (Hfree : NoDup free) (Hdead : ∀ i, i ∈ free ↔ ∃ e, l !! i = Some e ∧ live e = false).
Context (Hfit : (N.of_nat (length l) <= maximumSlot + 1)%N).
Context (Hold : ∀ r, holds (entries s) slot r → record_id r = record_id record).
Context (Honce : NoDup ds) (Hsorted : Sorted before ds).
Context (Hds : ∀ d, d ∈ ds ↔ timed s d ∧ entry_slot d ≠ slot).

Lemma placed_tables : tables_ok (placed s l free ds record slot next).
Proof.
  pose proof (scene_tables s K) as T. split; [| |done|done|done|apply Hle|].
  3: { cbn [placed revision]. lia. }
  - intros i j r r' [[-> ->]|[Ni Hi]]%Hl [[-> ->]|[Nj Hj]]%Hl E; [done|..].
    + symmetry. by eapply Hid.
    + by eapply Hid.
    + by eapply (ids_differ s T).
  - intros i r [[-> ->]|[Ni Hi]]%Hl; [done|]. destruct (ids_given_out s T _ _ Hi) as [? ?].
    split; [done|]. simpl. lia.
Qed.

Lemma placed_shapes : shapes_of (placed s l free ds record slot next) = <[record_id record := record]> (shapes_of s).
Proof.
  pose proof (scene_tables s K) as T. apply shapes_of_eq; [apply placed_tables|..].
  - intros i r [[-> ->]|[Ni Hi]]%Hl; [by rewrite lookup_insert_eq|].
    rewrite lookup_insert_ne by (intros E; apply Ni; by eapply Hid). by eapply shapes_of_holds.
  - intros id r [[<- <-]|[Ne Hs]]%lookup_insert_Some.
    + split; [done|]. exists slot. apply Hl. by left.
    + apply shapes_of_inv in Hs as [E [i Hi]]; [|done]. split; [done|]. exists i. apply Hl. right.
      split; [|done]. intros ->. apply Hold in Hi. congruence.
Qed.

Lemma placed_announces : announces s (placed s l free ds record slot next).
Proof.
  eexists. split; [reflexivity|]. split; [|done]. cbn [mirror_deltas]. unfold mirror_delta at 1.
  cbn [change delta_epoch delta_revision mirror_of mirror_epoch mirror_revision mirror_shapes].
  rewrite decide_True by done. simpl. unfold mirror_of. by rewrite placed_shapes.
Qed.

Lemma placed_ok : scene_ok (placed s l free ds record slot next).
Proof.
  split; [apply placed_tables|..]; cbn [placed deadlines].
  - unfold note_deadline. destruct (deadline_for record) as [at_|]; [|done].
    rewrite insert_at_bound_perm. constructor; [|done]. intros [_ Hne]%Hds. done.
  - intros d. rewrite elem_of_note_deadline, Hds. unfold timed. cbn [placed entries]. split.
    + intros [[(r & Hr & Er) Hne]|(D & Ei & Es)].
      * exists r. split; [|done]. apply Hl. by right.
      * exists record. split; [|done]. apply Hl. by left.
    + intros (r & [[Es ->]|[Hne Hr]]%Hl & Er & Dr); [by right|left; split; [by exists r|done]].
  - unfold note_deadline. destruct (deadline_for record); [|done]. by apply insert_at_bound_sorted.
Qed.
End placing.

(** ** Ending what is due at once *)

Lemma undue_same now s :
  scene_ok s → (∀ d, d ∈ deadlines s → now < expires_at d) → undue now (shapes_of s) = shapes_of s.
Proof.
  intros K H. apply map_filter_id. intros id r Hr. simpl.
  apply shapes_of_inv in Hr as [_ [i Hi]]; [|apply K]. apply not_true_is_false.
  rewrite (due_in_deadlines s i r now K Hi). rewrite list_elem_of_fmap. intros (d & _ & Hd).
  pose proof (split_expired_due _ _ _ Hd).
  assert (d ∈ deadlines s) as Hd' by (rewrite (split_expired_app now (deadlines s)); set_solver).
  apply H in Hd'. lia.
Qed.

(** A locked step whose state has the shapes [m], none of them due. *)
Definition settled (now : Z) (s s' : Scene) (m : gmap ShapeId ShapeRecord) : Prop :=
  scene_ok s' ∧ announces s s' ∧ epoch s' = epoch s ∧ next_shape_slot s' = next_shape_slot s ∧
  shapes_of s' = undue now m ∧ (∀ d, d ∈ deadlines s' → now < expires_at d).

Lemma settle_ok now s record slot :
  scene_ok s →
  (∀ d, d ∈ deadlines s → now < expires_at d ∨
     (deadline_for record = Some (expires_at d) ∧ deadline_id d = record_id record ∧ entry_slot d = slot)) →
  (revision s + (if deadline_is_due record now then 1 else 0) <= max_revision)%N →
  ∃ s', (if deadline_is_due record now then drain_expired now else mret ()) s = (inl (), s') ∧
        settled now s s' (shapes_of s).
Proof.
  intros K D R. destruct (deadline_is_due record now) eqn:Due.
  - destruct (drain_ok now s K) as [[_ C]|(s' & E & X)].
    + exfalso. assert (due_count now s <= 1)%N; [|lia]. unfold due_count.
      pose proof (deadlines_once s K) as N. rewrite (split_expired_app now (deadlines s)) in N.
      apply NoDup_app in N as (N & _).
      assert (∀ d, d ∈ (split_expired now (deadlines s)).1 → deadline_for record = Some (expires_at d) ∧
        deadline_id d = record_id record ∧ entry_slot d = slot) as H.
      { intros d Hd. pose proof (split_expired_due _ _ _ Hd).
        destruct (D d) as [|?]; [|lia|done]. rewrite (split_expired_app now (deadlines s)). set_solver. }
      destruct (split_expired now (deadlines s)).1 as [|d [|d' t]]; simpl; [lia..|]. exfalso.
      destruct (H d) as (A & B & C'); [set_solver|]. destruct (H d') as (A' & B' & C''); [set_solver|].
      apply NoDup_cons in N as [N _]. apply N. destruct d, d'; simpl in *. simplify_eq. set_solver.
    + destruct X as (K' & A & Ep & Nx & _ & Sh & Dd). exists s'. by split_and!.
  - exists s. split; [done|]. assert (∀ d, d ∈ deadlines s → now < expires_at d) as D'.
    { intros d Hd. destruct (D d Hd) as [|(Hf & _)]; [done|].
      rewrite (timed_due _ _ _ Hf), bool_decide_eq_false in Due. lia. }
    split_and!; [done|apply announces_refl|done..| |done]. by rewrite undue_same.
Qed.

(** ** The calls *)

Lemma bind_returned {A B} (m : Locked A) (k : A → Locked B) s x s' :
  m s = (inl x, s') → (m ≫= k) s = k x s'.
Proof. unfold mbind, locked_bind. by intros ->. Qed.

Lemma bind_threw {A B} (m : Locked A) (k : A → Locked B) s t s' :
  m s = (inr t, s') → (m ≫= k) s = (inr t, s').
Proof. unfold mbind, locked_bind. by intros ->. Qed.

Lemma bind_look {A B} (f : Scene → A) (k : A → Locked B) s : (look f ≫= k) s = k (f s) s.
Proof. done. Qed.

Lemma slot_of_id_Some s id i :
  scene_ok s → slot_of_id s id = Some i → ∃ r, holds (entries s) i r ∧ record_id r = id.
Proof.
  intros K. unfold slot_of_id, live_entry_slot. case_decide; [|done].
  intros ([j e] & F & ->)%fmap_Some. apply list_find_Some in F as (Hj & [L E] & _). simpl.
  exists (entry_record e). split; [by exists e|done].
Qed.

Lemma slot_of_id_None s id :
  scene_ok s → slot_of_id s id = None → shapes_of s !! id = None.
Proof.
  intros K H. apply eq_None_not_Some. intros [r Hr]. apply shapes_of_lookup in Hr as (i & Hi & E); [|apply K].
  unfold slot_of_id in H. rewrite decide_True in H
    by (destruct (ids_given_out s (scene_tables s K) _ _ Hi); congruence).
  unfold live_entry_slot in H. apply fmap_None in H. rewrite list_find_None, Forall_forall in H.
  destruct Hi as (e & He & L & <-). apply (H e); [by eapply list_elem_of_lookup_2|done].
Qed.

Lemma slot_of_id_shape s id i r :
  scene_ok s → slot_of_id s id = Some i → holds (entries s) i r → shapes_of s !! id = Some r.
Proof.
  intros K H Hr. destruct (slot_of_id_Some _ _ _ K H) as (r' & Hr' & <-).
  pose proof (holds_fun _ _ _ _ Hr Hr'). subst r'. by eapply shapes_of_holds; [apply K|].
Qed.

(** A live entry for each id below [n] at most. *)
Lemma all_live_bounded s :
  tables_ok s → free_slots s = [] → (N.of_nat (length (entries s)) <= next_shape_slot s)%N.
Proof.
  intros T F. assert (∀ i e, entries s !! i = Some e → holds (entries s) i (entry_record e)) as H.
  { intros i e He. exists e. split; [done|]. split; [|done]. apply not_false_iff_true. intros L.
    assert (i ∈ free_slots s) as Hin by (apply (free_dead s T); by exists e). rewrite F in Hin.
    by apply elem_of_nil in Hin. }
  set (slots := (λ e, N.to_nat (id_slot (record_id (entry_record e)))) <$> entries s).
  assert (NoDup slots) as N.
  { apply NoDup_alt. intros i j x Hi Hj. unfold slots in Hi, Hj. rewrite list_lookup_fmap in Hi, Hj.
    apply fmap_Some in Hi as (e & He & ->), Hj as (e' & He' & E).
    apply H in He, He'. eapply (ids_differ s T); [done|done|].
    destruct (ids_given_out s T _ _ He), (ids_given_out s T _ _ He').
    destruct (record_id (entry_record e)), (record_id (entry_record e')); simpl in *.
    f_equal; [congruence|lia]. }
  assert (length slots <= length (seq 0 (N.to_nat (next_shape_slot s))))%nat as L.
  { apply NoDup_incl_length; [by apply NoDup_ListNoDup|]. intros x. rewrite <-!list_elem_of_In.
    unfold slots. rewrite list_elem_of_fmap. intros (e & -> & He). apply elem_of_seq.
    apply list_elem_of_lookup in He as [i He]. apply H in He.
    destruct (ids_given_out s T _ _ He). lia. }
  unfold slots in L. rewrite length_fmap, length_seq in L. lia.
Qed.

Lemma choose_slot_ok s slot reuses :
  scene_ok s → choose_slot s = Ok (slot, reuses) →
  (next_shape_slot s <= maximumSlot)%N ∧
  ((reuses = true ∧ free_slots s = pop_back (free_slots s) ++ [slot] ∧ (slot < length (entries s))%nat) ∨
   (reuses = false ∧ slot = length (entries s) ∧ (N.of_nat slot <= maximumSlot)%N)).
Proof.
  intros K. unfold choose_slot. case_decide; [done|].
  destruct (last (free_slots s)) as [x|] eqn:L.
  - intros [= -> <-]. split; [lia|]. left. split; [done|].
    apply last_Some in L as [f E]. split.
    + unfold pop_back. rewrite E, length_app. simpl. rewrite take_app_length' by lia. done.
    + assert (slot ∈ free_slots s) as Hin by (rewrite E; set_solver).
      apply (free_dead s (scene_tables s K)) in Hin as (e & He & _). by eapply lookup_lt_Some.
  - case_decide; [done|]. intros [= <- <-]. split; [lia|]. right. split; [done|]. split; [done|lia].
Qed.

Lemma choose_slot_exhausted s e :
  scene_ok s → choose_slot s = Err e →
  err_code e = ErrorCode.Overflowed ∧ (maximumSlot < next_shape_slot s)%N.
Proof.
  intros K. unfold choose_slot. case_decide; [by intros [= <-]|].
  destruct (last (free_slots s)) eqn:L; [done|]. case_decide; [|done]. intros [= <-].
  split; [done|]. apply last_None in L.
  pose proof (all_live_bounded s (scene_tables s K) L). lia.
Qed.

(** What an answered call does to the picture: shapes that are due go first. *)
Definition picture_spec (now : Z) (call : SceneCall) (s : Scene) (answer : SceneAnswer) (s' : Scene) : Prop :=
  let m := undue now (shapes_of s) in
  match call, answer with
  | CallAdd shape, AddAnswer (Ok id) =>
    let record := MkShapeRecord id shape now in
    shape_is_valid shape = true ∧ id = MkShapeId (epoch s) (next_shape_slot s) ∧
    (next_shape_slot s <= maximumSlot)%N ∧ m !! id = None ∧
    shapes_of s' = undue now (<[id := record]> m)
  | CallAdd shape, AddAnswer (Err e) =>
    shapes_of s' = m ∧
    (err_code e = ErrorCode.InvalidArgument ∧ shape_is_valid shape = false ∨
     err_code e = ErrorCode.Overflowed ∧ shape_is_valid shape = true ∧
     (maximumSlot < next_shape_slot s ∨ max_revision < revision s' + 2)%N)
  | CallUpdate id shape, UpdateAnswer (Ok _) =>
    ∃ old, m !! id = Some old ∧ shape_is_valid shape = true ∧
      let started :=
        if decide (lifetime_index (lifetime (record_shape old)) = lifetime_index (lifetime shape))
        then started_at old else now in
      shapes_of s' = undue now (<[id := MkShapeRecord id shape started]> m)
  | CallUpdate id shape, UpdateAnswer (Err e) =>
    shapes_of s' = m ∧
    (err_code e = ErrorCode.StaleShape ∧ m !! id = None ∨
     err_code e = ErrorCode.InvalidArgument ∧ is_Some (m !! id) ∧ shape_is_valid shape = false ∨
     err_code e = ErrorCode.Overflowed ∧ is_Some (m !! id) ∧ (max_revision < revision s' + 2)%N)
  | CallRemove id, RemoveAnswer (Ok _) => is_Some (m !! id) ∧ shapes_of s' = delete id m
  | CallRemove id, RemoveAnswer (Err e) =>
    shapes_of s' = m ∧
    (err_code e = ErrorCode.StaleShape ∧ m !! id = None ∨
     err_code e = ErrorCode.Overflowed ∧ is_Some (m !! id) ∧ revision s' = max_revision)
  | CallClear, ClearAnswer => shapes_of s' = ∅ ∧ epoch s' = (epoch s + 1)%N
  | CallSnapshot, SnapshotAnswer shown =>
    shapes_of s' = m ∧ snapshot_epoch shown = epoch s' ∧ through_revision shown = revision s' ∧
    snapshot_shapes shown ≡ₚ (map_to_list m).*2 ∧ Sorted draws_before (snapshot_shapes shown)
  | _, _ => False
  end.

(** The part of a call's outcome that does not depend on the call. *)
Definition kept (call : SceneCall) (answer : SceneAnswer) (s s' : Scene) : Prop :=
  scene_ok s' ∧ announces s s' ∧
  (call = CallClear ∨
   epoch s' = epoch s ∧
   next_shape_slot s' =
     match answer with AddAnswer (Ok _) => next_shape_slot s + 1 | _ => next_shape_slot s end)%N.

(** A call that throws leaves the scene as it was: its revisions, or its epochs, are used up. *)
Definition call_ok (now : Z) (call : SceneCall) : Prop :=
  ∀ s, scene_ok s →
  (call_locked now call s = (inr OverflowError, s) ∧
   (call = CallClear ∧ epoch s = max_revision ∨ max_revision - revision s < due_count now s)%N) ∨
  ∃ answer s', call_locked now call s = (inl answer, s') ∧
    kept call answer s s' ∧ picture_spec now call s answer s'.

Lemma fmap_threw {A B} (f : A → B) (m : Locked A) s t s' :
  m s = (inr t, s') → (f <$> m) s = (inr t, s').
Proof. unfold fmap, locked_fmap. by intros ->. Qed.

Lemma fmap_returned {A B} (f : A → B) (m : Locked A) s x s' :
  m s = (inl x, s') → (f <$> m) s = (inl (f x), s').
Proof. unfold fmap, locked_fmap. by intros ->. Qed.

(** The call has ended what is due and changes nothing more. *)
Lemma kept_expired now call answer s s1 :
  (∀ id, answer ≠ AddAnswer (Ok id)) → expired_to now s s1 → kept call answer s s1.
Proof.
  intros H (K & A & Ep & Nx & _). split_and!; [done|done|]. right. split; [done|]. rewrite Nx.
  destruct answer as [[id|]| | | |]; try done. by destruct (H id).
Qed.

(** Drains first, with a continuation. *)
Lemma after_drain {A} now s (k : unit → Locked A) :
  scene_ok s →
  ((drain_expired now ≫= k) s = (inr OverflowError, s) ∧ (max_revision - revision s < due_count now s)%N) ∨
  ∃ s1, expired_to now s s1 ∧ (drain_expired now ≫= k) s = k () s1.
Proof.
  intros K. destruct (drain_ok now s K) as [[E C]|(s1 & E & X)].
  - left. split; [|done]. by apply bind_threw.
  - right. exists s1. split; [done|]. by apply bind_returned.
Qed.

#[export] Instance draws_before_total : Total draws_before.
Proof.
  intros a b. unfold draws_before.
  destruct (decide (band (record_shape a) = band (record_shape b))) as [E|E].
  - rewrite E. destruct (Z.lt_trichotomy (z_order (record_shape a)) (z_order (record_shape b))) as [|[|]];
      [by eauto| |by eauto].
    destruct (N.le_ge_cases (id_slot (record_id a)) (id_slot (record_id b))); eauto 10.
  - destruct (band (record_shape a)), (band (record_shape b)); simpl; try done; [left|right]; left; lia.
Qed.

Lemma live_records_pairs s : live_records s = (live_pairs (entries s)).*2.
Proof. unfold live_records, live_pairs. rewrite <-list_fmap_compose. done. Qed.

Lemma snapshot_ok now : call_ok now CallSnapshot.
Proof.
  intros s K. cbn [call_locked].
  destruct (after_drain now s (λ _, look (λ s, MkSceneSnapshot (epoch s) (revision s)
    (merge_sort draws_before (live_records s)))) K) as [[E C]|(s1 & X & E)].
  - left. split; [by apply fmap_threw|by right].
  - right. eexists _, s1. split; [by apply fmap_returned|]. split; [by apply (kept_expired now)|].
    destruct X as (K1 & _ & _ & _ & _ & Sh & _). cbn [picture_spec]. split; [done|].
    cbn [snapshot_epoch through_revision snapshot_shapes]. split; [done|]. split; [done|]. split.
    + rewrite merge_sort_Permutation, live_records_pairs, <-Sh. unfold shapes_of.
      f_equiv. symmetry. apply map_to_list_to_map. apply live_pairs_NoDup, K1.
    + apply Sorted_merge_sort. apply _.
Qed.

(** After the drain, the rest of a call is a locked step from a state that is as
    [expired_to] says. *)
Lemma call_rest now call {A} (f : A → SceneAnswer) (k : unit → Locked A) :
  (∀ s, call_locked now call s = (f <$> (drain_expired now ≫= k)) s) →
  (∀ s s1, scene_ok s → expired_to now s s1 →
    ∃ x s', k () s1 = (inl x, s') ∧ kept call (f x) s s' ∧ picture_spec now call s (f x) s') →
  call_ok now call.
Proof.
  intros Eq H s K. rewrite Eq. destruct (after_drain now s k K) as [[E C]|(s1 & X & E)].
  - left. split; [by apply fmap_threw|by right].
  - right. destruct (H s s1 K X) as (x & s' & E' & O). exists (f x), s'. split; [|done].
    apply fmap_returned. by rewrite E.
Qed.

Lemma capacity s n : revision_has_capacity s n = false → (max_revision < revision s + n)%N.
Proof. unfold revision_has_capacity. rewrite bool_decide_eq_false. lia. Qed.

Lemma capacity_left s n :
  revision_has_capacity s n = true → (revision s <= max_revision)%N → (revision s + n <= max_revision)%N.
Proof. unfold revision_has_capacity. rewrite bool_decide_eq_true. lia. Qed.

Lemma entry_at_holds s slot r :
  holds (entries s) slot r →
  ∃ e, entry_at slot s = (inl e, s) ∧ entry_record e = r ∧ live e = true.
Proof. intros (e & He & L & R). exists e. unfold entry_at. by rewrite He. Qed.

(** Dropping an id's deadlines leaves those of the other slots. *)
Lemma other_deadlines s slot r :
  scene_ok s → holds (entries s) slot r →
  let ds := filter (λ d, deadline_id d ≠ record_id r) (deadlines s) in
  NoDup ds ∧ Sorted before ds ∧ ∀ d, d ∈ ds ↔ timed s d ∧ entry_slot d ≠ slot.
Proof.
  intros K H ds. split; [apply NoDup_filter, K|]. split.
  - apply StronglySorted_Sorted, StronglySorted_filter, Sorted_StronglySorted; [apply _|apply K].
  - intros d. unfold ds. rewrite list_elem_of_filter, (deadlines_exact s K). split; intros [H1 H2].
    + split; [done|]. intros <-. destruct H2 as (r' & Hr' & Er' & _).
      pose proof (holds_fun _ _ _ _ H Hr'). subst r'. done.
    + split; [|done]. intros E. apply H2. destruct H1 as (r' & Hr' & Er' & _).
      eapply (ids_differ s (scene_tables s K)); [done|done|]. congruence.
Qed.

Lemma ended_ok s slot r :
  scene_ok s → (revision s < max_revision)%N → holds (entries s) slot r →
  scene_ok (with_deadlines (ended s slot (record_id r))
              (filter (λ d, deadline_id d ≠ record_id r) (deadlines s))).
Proof.
  intros K R H. destruct (other_deadlines s slot r K H) as (N & S & D).
  pose proof (ended_tables s slot r (scene_tables s K) R H) as T.
  split; [by destruct T; constructor|done| |done].
  intros d. cbn [with_deadlines deadlines]. rewrite D. unfold timed. cbn [with_deadlines entries]. split.
  - intros [(r' & Hr' & Er') Hne]. exists r'. split; [|done]. by rewrite holds_ended.
  - intros (r' & Hr' & Er'). rewrite holds_ended in Hr' by done. destruct Hr' as [Hne Hr'].
    split; [by exists r'|done].
Qed.

Lemma remove_ok now id : call_ok now (CallRemove id).
Proof.
  eapply (call_rest now (CallRemove id) RemoveAnswer); [intros s; reflexivity|].
  intros s s1 K X. pose proof X as (K1 & A1 & Ep1 & Nx1 & R1 & Sh1 & D1). rewrite bind_look.
  cbn [picture_spec]. rewrite <-Sh1.
  destruct (slot_of_id s1 id) as [slot|] eqn:F.
  - destruct (slot_of_id_Some _ _ _ K1 F) as (r & Hr & <-).
    pose proof (slot_of_id_shape _ _ _ _ K1 F Hr) as Hm. rewrite bind_look.
    destruct (revision_has_capacity s1 1) eqn:C; simpl.
    + apply capacity_left in C; [|apply K1]. assert (revision s1 < max_revision)%N as Hlt by lia.
      destruct (entry_at_holds _ _ _ Hr) as (e & Ee & _). eexists _, _. split.
      { rewrite (bind_returned _ _ _ _ _ Ee). unfold put_entry, remove_deadline, push_free, alter_scene.
        unfold mbind, locked_bind. rewrite queue_change_eq by done. reflexivity. }
      split.
      * split_and!; [exact (ended_ok s1 slot r K1 Hlt Hr)| |right; by rewrite <-Ep1, <-Nx1].
        eapply announces_trans; [exact A1|]. exact (ended_announces s1 slot r (scene_tables s1 K1) Hlt Hr).
      * simpl. split; [by rewrite Hm|]. exact (ended_shapes s1 slot r (scene_tables s1 K1) Hlt Hr).
    + apply capacity in C. pose proof (revision_fits s1 (scene_tables s1 K1)).
      eexists _, s1. split; [reflexivity|]. split; [by apply (kept_expired now)|]. simpl.
      split; [done|]. right. split_and!; [done|by rewrite Hm|lia].
  - eexists _, s1. split; [reflexivity|]. split; [by apply (kept_expired now)|]. simpl.
    split; [done|]. left. split; [done|]. by apply slot_of_id_None.
Qed.

Lemma placed_deadline now s1 l free ds record slot next d :
  (∀ d, d ∈ deadlines s1 → now < expires_at d) → ds ⊆ deadlines s1 →
  d ∈ deadlines (placed s1 l free ds record slot next) →
  now < expires_at d ∨
  (deadline_for record = Some (expires_at d) ∧ deadline_id d = record_id record ∧ entry_slot d = slot).
Proof. intros D Sub [Hd|?]%elem_of_note_deadline; [left; by apply D, Sub|by right]. Qed.

Lemma mutation_count (due : bool) (r : N) :
  (r + revision_count_for_mutation due <= max_revision)%N →
  (r < max_revision)%N ∧ (r + 1 + (if due then 1 else 0) <= max_revision)%N.
Proof. destruct due; unfold revision_count_for_mutation; lia. Qed.

Lemma mutation_count_le due : (revision_count_for_mutation due <= 2)%N.
Proof. destruct due; unfold revision_count_for_mutation; lia. Qed.

(** The state after a live entry's record is replaced. *)
Definition replaced (s : Scene) (slot : nat) (record : ShapeRecord) : Scene :=
  placed s (<[slot := MkEntry record true]> (entries s)) (free_slots s)
    (filter (λ d, deadline_id d ≠ record_id record) (deadlines s)) record slot (next_shape_slot s).

Definition placement (s sp : Scene) (record : ShapeRecord) : Prop :=
  scene_ok sp ∧ announces s sp ∧ shapes_of sp = <[record_id record := record]> (shapes_of s).

Lemma replaced_ok s slot r record :
  scene_ok s → (revision s < max_revision)%N → holds (entries s) slot r →
  record_id record = record_id r → placement s (replaced s slot record) record.
Proof.
  intros K R Hr E. unfold replaced. rewrite E.
  destruct (other_deadlines s slot r K Hr) as (N & S & Hds).
  pose proof (holds_lt _ _ _ Hr) as Hs. pose proof (scene_tables s K) as T.
  destruct (ids_given_out s T _ _ Hr) as [Hep Hsl].
  set (l := <[slot := MkEntry record true]> (entries s)).
  assert (∀ i r', holds l i r' ↔ (i = slot ∧ r' = record) ∨ (i ≠ slot ∧ holds (entries s) i r')) as Hl.
  { intros i r'. unfold l. rewrite holds_insert by done. simpl. clear. naive_solver. }
  assert (∀ i, i ∈ free_slots s ↔ ∃ e, l !! i = Some e ∧ live e = false) as Hdead.
  { intros i. rewrite (free_dead s T). unfold l. destruct (decide (slot = i)) as [->|Hne].
    - rewrite list_lookup_insert_eq by done. destruct Hr as (e & He & L & _).
      split; intros (e0 & E0 & L0); [congruence|by injection E0 as <-].
    - by rewrite list_lookup_insert_ne. }
  assert (∀ i r', holds (entries s) i r' → record_id r' = record_id record → i = slot) as Hid
    by (intros i r' Hi Ei; eapply (ids_differ s T); [done|done|congruence]).
  assert (∀ r', holds (entries s) slot r' → record_id r' = record_id record) as Hold
    by (intros r' Hi; by rewrite (holds_fun _ _ _ _ Hi Hr)).
  assert (N.of_nat (length l) <= maximumSlot + 1)%N by (unfold l; rewrite length_insert; apply T).
  assert (next_shape_slot s <= next_shape_slot s <= maximumSlot + 1)%N by (split; [lia|apply T]).
  pose proof (free_once s T). rewrite <-E in Hep, Hsl.
  split; [|split]; [by apply placed_ok|by apply placed_announces|by apply placed_shapes].
Qed.

(** A placed record, settled, is what the picture of an addition or update says. *)
Lemma placed_settled now s1 sp record slot l free ds next :
  sp = placed s1 l free ds record slot next →
  (∀ d, d ∈ deadlines s1 → now < expires_at d) → ds ⊆ deadlines s1 →
  placement s1 sp record →
  (revision s1 + 1 + (if deadline_is_due record now then 1 else 0) <= max_revision)%N →
  ∃ s', (if deadline_is_due record now then drain_expired now else mret ()) sp = (inl (), s') ∧
    scene_ok s' ∧ announces s1 s' ∧ epoch s' = epoch s1 ∧ next_shape_slot s' = next ∧
    shapes_of s' = undue now (<[record_id record := record]> (shapes_of s1)).
Proof.
  intros -> D Sub (Kp & Ap & Shp) C.
  destruct (settle_ok now _ record slot Kp) as (s' & Es & K' & A' & Ep' & Nx' & Sh' & _).
  - intros d. by apply placed_deadline.
  - exact C.
  - exists s'. split_and!; [done|done|by eapply announces_trans|done|done|]. by rewrite Sh', Shp.
Qed.

Lemma update_ok now id shape : call_ok now (CallUpdate id shape).
Proof.
  eapply (call_rest now (CallUpdate id shape) UpdateAnswer); [intros s; reflexivity|].
  intros s s1 K X. pose proof X as (K1 & A1 & Ep1 & Nx1 & R1 & Sh1 & D1). rewrite bind_look.
  cbn [picture_spec]. rewrite <-Sh1.
  destruct (slot_of_id s1 id) as [slot|] eqn:F.
  2: { eexists _, s1. split; [reflexivity|]. split; [by apply (kept_expired now)|]. simpl.
       split; [done|]. left. split; [done|]. by apply slot_of_id_None. }
  destruct (slot_of_id_Some _ _ _ K1 F) as (r & Hr & <-).
  pose proof (slot_of_id_shape _ _ _ _ K1 F Hr) as Hm.
  destruct (shape_is_valid shape) eqn:V; cbn [negb].
  2: { eexists _, s1. split; [reflexivity|]. split; [by apply (kept_expired now)|]. simpl.
       split; [done|]. right; left. by rewrite Hm. }
  destruct (entry_at_holds _ _ _ Hr) as (e & Ee & Er & Le).
  rewrite (bind_returned _ _ _ _ _ Ee), bind_look, Er.
  set (started := if decide _ then _ else _). set (record := MkShapeRecord (record_id r) shape started).
  set (due := deadline_is_due record now).
  destruct (revision_has_capacity s1 _) eqn:C; cbn [negb].
  2: { apply capacity in C. pose proof (mutation_count_le due).
       eexists _, s1. split; [reflexivity|]. split; [by apply (kept_expired now)|]. simpl.
       split; [done|]. right; right. rewrite Hm. split_and!; [done|done|lia]. }
  apply capacity_left in C; [|apply K1]. apply mutation_count in C as [Hlt C].
  pose proof (replaced_ok s1 slot r record K1 Hlt Hr eq_refl) as P.
  eapply (placed_settled now) in P as (s' & Es & K' & A' & Ep' & Nx' & Sh');
    [|reflexivity|done|intros d [_ Hd]%list_elem_of_filter; done|done].
  eexists _, s'. split.
  { unfold remove_deadline, put_entry. rewrite Le. erewrite bind_returned by reflexivity.
    erewrite bind_returned by reflexivity. erewrite bind_returned by (by apply publish_record_eq).
    erewrite bind_returned by exact Es. reflexivity. }
  split.
  - split_and!; [done|by eapply announces_trans|]. right. rewrite Ep', Nx'. by rewrite Ep1, Nx1.
  - simpl. exists r. by split_and!.
Qed.

(** The tables after a record takes a free entry, or a new one. *)
Definition stored_entries (s : Scene) (slot : nat) (reuses : bool) (record : ShapeRecord) : list Entry :=
  if reuses then <[slot := MkEntry record true]> (entries s) else entries s ++ [MkEntry record true].

Definition stored_free (s : Scene) (reuses : bool) : list nat :=
  if reuses then pop_back (free_slots s) else free_slots s.

Definition stored (s : Scene) (slot : nat) (reuses : bool) (record : ShapeRecord) : Scene :=
  placed s (stored_entries s slot reuses record) (stored_free s reuses) (deadlines s) record slot
    (next_shape_slot s + 1).

Lemma store_new_eq s slot reuses record :
  scene_ok s → choose_slot s = Ok (slot, reuses) →
  store_new slot reuses record s =
    (inl (), with_free (with_entries s (stored_entries s slot reuses record)) (stored_free s reuses)).
Proof.
  intros K C. apply choose_slot_ok in C as (_ & [(-> & _ & L)|(-> & -> & _)]); [|..|done].
  - unfold store_new. erewrite bind_returned by reflexivity. rewrite bind_look. cbn [with_free entries].
    rewrite decide_False by lia. unfold entry_at, mbind, locked_bind. cbn [with_free entries].
    destruct (lookup_lt_is_Some_2 _ _ L) as [e ->]. done.
  - unfold store_new. erewrite bind_returned by reflexivity. rewrite bind_look.
    rewrite decide_True by done. by destruct s.
Qed.

Lemma stored_dead s slot reuses record :
  scene_ok s → choose_slot s = Ok (slot, reuses) →
  NoDup (stored_free s reuses) ∧
  (∀ i, i ∈ stored_free s reuses ↔
     ∃ e, stored_entries s slot reuses record !! i = Some e ∧ live e = false).
Proof.
  intros K C. pose proof (scene_tables s K) as T. pose proof (free_once s T) as N.
  pose proof (free_dead s T) as F.
  apply choose_slot_ok in C as (_ & [(-> & E & L)|(-> & -> & _)]); [|..|done]; simpl.
  - set (f := pop_back (free_slots s)) in *. rewrite E in N.
    apply NoDup_app in N as (N & Nx & _). split; [done|]. intros i.
    destruct (decide (slot = i)) as [->|Hne].
    + rewrite list_lookup_insert_eq by done. split.
      * intros Hi. exfalso. apply (Nx i Hi). set_solver.
      * intros (e & [= <-] & Hd). done.
    + rewrite list_lookup_insert_ne by done. rewrite <-F, E, elem_of_app, list_elem_of_singleton.
      split; [by left|]. intros [|]; congruence.
  - split; [done|]. intros i. rewrite F. split; intros (e & He & Hd).
    + exists e. split; [|done]. by apply lookup_app_l_Some.
    + exists e. split; [|done]. apply lookup_app_Some in He as [He|[_ He]]; [done|].
      apply list_lookup_singleton_Some in He as [_ <-]. done.
Qed.

Lemma stored_holds s slot reuses record :
  scene_ok s → choose_slot s = Ok (slot, reuses) →
  (∀ r, ¬ holds (entries s) slot r) ∧
  (N.of_nat (length (stored_entries s slot reuses record)) <= maximumSlot + 1)%N ∧
  ∀ i r, holds (stored_entries s slot reuses record) i r ↔
    (i = slot ∧ r = record) ∨ (i ≠ slot ∧ holds (entries s) i r).
Proof.
  intros K C. pose proof (scene_tables s K) as T. pose proof (slots_fit s T) as Fit.
  apply choose_slot_ok in C as (_ & [(-> & E & L)|(-> & -> & M)]); [|..|done]; simpl.
  - assert (slot ∈ free_slots s) as Hin by (rewrite E; set_solver).
    apply (free_dead s T) in Hin as (e & He & Hd).
    split; [intros r (e' & He' & Hl & _); congruence|]. split; [by rewrite length_insert|].
    intros i r. rewrite holds_insert by done. simpl. clear. naive_solver.
  - split; [intros r Hr%holds_lt; lia|]. split; [rewrite length_app; simpl; lia|].
    intros i r. rewrite holds_snoc. simpl. split.
    + intros [(-> & _ & <-)|Hi]; [by left|right]. pose proof (holds_lt _ _ _ Hi). split; [lia|done].
    + intros [[-> ->]|[_ Hi]]; [by left|by right].
Qed.

Lemma stored_ok s slot reuses shape now :
  scene_ok s → (revision s < max_revision)%N → choose_slot s = Ok (slot, reuses) →
  let record := MkShapeRecord (MkShapeId (epoch s) (next_shape_slot s)) shape now in
  placement s (stored s slot reuses record) record.
Proof.
  intros K R C record. pose proof (scene_tables s K) as T.
  destruct (stored_dead s slot reuses record K C) as [Nf Hd].
  destruct (stored_holds s slot reuses record K C) as (Hno & Hfit & Hl).
  pose proof (choose_slot_ok s slot reuses K C) as [Hmax _].
  assert (∀ i r', holds (entries s) i r' → record_id r' = record_id record → i = slot) as Hid.
  { intros i r' Hi E. destruct (ids_given_out s T _ _ Hi) as [_ Hs]. rewrite E in Hs. simpl in Hs. lia. }
  assert (∀ r', holds (entries s) slot r' → record_id r' = record_id record) as Hold
    by (intros r' Hi; by destruct (Hno r')).
  assert (∀ d, d ∈ deadlines s ↔ timed s d ∧ entry_slot d ≠ slot) as Hds.
  { intros d. rewrite (deadlines_exact s K). split; [|by intros [? _]]. intros Hd'. split; [done|].
    intros <-. destruct Hd' as (r & Hr & _). by apply Hno in Hr. }
  assert (next_shape_slot s <= next_shape_slot s + 1 <= maximumSlot + 1)%N by lia.
  assert (id_slot (record_id record) < next_shape_slot s + 1)%N by (simpl; lia).
  pose proof (deadlines_once s K). pose proof (deadlines_sorted s K).
  unfold stored. split; [|split]; [by apply placed_ok|by apply placed_announces|by apply placed_shapes].
Qed.

Lemma fresh_id s : tables_ok s → shapes_of s !! MkShapeId (epoch s) (next_shape_slot s) = None.
Proof.
  intros T. apply eq_None_not_Some. intros [r Hr]. apply shapes_of_inv in Hr as [E [i Hi]]; [|done].
  destruct (ids_given_out s T _ _ Hi) as [_ Hs]. rewrite E in Hs. simpl in Hs. lia.
Qed.

Lemma add_ok now shape : call_ok now (CallAdd shape).
Proof.
  eapply (call_rest now (CallAdd shape) AddAnswer); [intros s; reflexivity|].
  intros s s1 K X. pose proof X as (K1 & A1 & Ep1 & Nx1 & R1 & Sh1 & D1).
  cbn [picture_spec]. rewrite <-Sh1.
  destruct (shape_is_valid shape) eqn:V; cbn [negb].
  2: { eexists _, s1. split; [reflexivity|]. split; [by apply (kept_expired now)|]. simpl.
       split; [done|]. by left. }
  rewrite bind_look. destruct (choose_slot s1) as [[slot reuses]|err] eqn:Ch.
  2: { apply choose_slot_exhausted in Ch as [Ec Full]; [|done].
       eexists _, s1. split; [reflexivity|]. split; [by apply (kept_expired now)|]. simpl.
       split; [done|]. right. split_and!; [done|done|]. left. by rewrite <-Nx1. }
  rewrite bind_look. set (record := MkShapeRecord _ shape now). set (due := deadline_is_due record now).
  rewrite bind_look. destruct (revision_has_capacity s1 _) eqn:C; cbn [negb].
  2: { apply capacity in C. pose proof (mutation_count_le due).
       eexists _, s1. split; [reflexivity|]. split; [by apply (kept_expired now)|]. simpl.
       split; [done|]. right. split_and!; [done|done|]. right. lia. }
  apply capacity_left in C; [|apply K1]. apply mutation_count in C as [Hlt C].
  pose proof (stored_ok s1 slot reuses shape now K1 Hlt Ch) as P.
  pose proof (choose_slot_ok s1 slot reuses K1 Ch) as [Hmax _].
  eapply (placed_settled now) in P as (s' & Es & K' & A' & Ep' & Nx' & Sh');
    [|reflexivity|done|done|done].
  eexists _, s'. split.
  { rewrite (bind_returned _ _ _ _ _ (store_new_eq s1 slot reuses record K1 Ch)).
    erewrite bind_returned by (by apply publish_record_eq). erewrite bind_returned by reflexivity.
    erewrite bind_returned by exact Es. reflexivity. }
  split.
  - split_and!; [done|by eapply announces_trans|]. right. rewrite Ep', Nx'. by rewrite Ep1, Nx1.
  - simpl. rewrite <-Ep1, <-Nx1. split_and!; [done|done|done|apply fresh_id, K1|done].
Qed.

(** The tables [clear] leaves. *)
Definition cleared (s : Scene) : Scene :=
  MkScene (replicate (length (entries s)) dead_entry) (reverse (seq 0 (length (entries s)))) []
    (pending_deltas s ++ [MkDelta (epoch s + 1) 1 (Clear (epoch s + 1))]) (publication_cursor s)
    (epoch s + 1) 1 0 (publishing s) (sink s).

Lemma cleared_holds s i r : ¬ holds (entries (cleared s)) i r.
Proof. intros (e & He & L & _). apply lookup_replicate in He as [-> _]. done. Qed.

Lemma cleared_tables s : tables_ok s → tables_ok (cleared s).
Proof.
  intros T. split; [..|done|done].
  - intros i j r r' H. by apply cleared_holds in H.
  - intros i r H. by apply cleared_holds in H.
  - cbn [cleared free_slots]. rewrite reverse_Permutation. apply NoDup_seq.
  - intros i. cbn [cleared free_slots entries]. rewrite elem_of_reverse, elem_of_seq. split.
    + intros [_ L]. exists dead_entry. split; [|done]. apply lookup_replicate. split; [done|lia].
    + intros (e & He & _). apply lookup_replicate in He as [_ L]. lia.
  - cbn [cleared entries]. rewrite length_replicate. apply T.
Qed.

Lemma cleared_shapes s : tables_ok s → shapes_of (cleared s) = ∅.
Proof.
  intros T. apply shapes_of_eq; [by apply cleared_tables|..].
  - intros i r H. by apply cleared_holds in H.
  - intros id r. by rewrite lookup_empty.
Qed.

Lemma cleared_ok s : scene_ok s → scene_ok (cleared s) ∧ announces s (cleared s).
Proof.
  intros K. pose proof (scene_tables s K) as T. split.
  - split; [by apply cleared_tables|constructor| |constructor].
    intros d. split; [by intros ?%elem_of_nil|]. intros (r & H & _). by apply cleared_holds in H.
  - eexists. split; [reflexivity|]. split; [|done]. cbn [mirror_deltas]. unfold mirror_delta at 1.
    cbn [change delta_epoch delta_revision mirror_of mirror_epoch]. rewrite decide_True by done. simpl.
    unfold mirror_of. by rewrite cleared_shapes.
Qed.

Lemma clear_ok now : call_ok now CallClear.
Proof.
  intros s K. cbn [call_locked]. unfold clear_locked.
  destruct (decide (epoch s = max_revision)) as [Full|Left].
  { left. split; [|by left]. apply fmap_threw. rewrite bind_look. by rewrite bool_decide_eq_true_2. }
  match goal with |- context [look _ ≫= (λ full, if full then _ else (drain_expired now ≫= ?k))] =>
    destruct (after_drain now s k K) as [[E C]|(s1 & X & E)] end.
  - left. split; [|by right]. apply fmap_threw. rewrite bind_look. by rewrite bool_decide_eq_false_2.
  - right. destruct X as (K1 & A1 & Ep1 & _). exists ClearAnswer, (cleared s1). split.
    { apply (fmap_returned (λ _ : unit, ClearAnswer) _ _ ()). rewrite bind_look, bool_decide_eq_false_2 by done. exact E. }
    destruct (cleared_ok s1 K1) as [K2 A2]. split.
    + split_and!; [done|by eapply announces_trans|by left].
    + simpl. rewrite <-Ep1. split; [apply cleared_shapes, K1|done].
Qed.

Lemma every_call_ok now call : call_ok now call.
Proof.
  destruct call; [apply add_ok|apply update_ok|apply remove_ok|apply clear_ok|apply snapshot_ok].
Qed.
