(* ===== verification/SceneTheorems.v ===== *)
(** The scene and its hand-over of deltas, for every sequence of calls, hand-over steps
    and sink changes.

    [hand_over_ok] joins the scene's invariant of [ScenePicture] with that of the one
    publisher: nobody publishes only when nothing is pending, and what was handed over
    followed by what is pending rebuilds the scene. *)

From S2P Require Import Prelude Errors Geometry Json Scene ScenePicture.

Local Open Scope Z_scope.

(** ** The hand-over *)

Definition in_hand (w : SceneWorld) : list SceneDelta :=
  match publisher w with CallingSink d _ => [d] | _ => [] end.

Definition announced (w : SceneWorld) : list SceneDelta :=
  handed w ++ drop (publication_cursor (scene w)) (pending_deltas (scene w)).

Record hand_over_ok (w : SceneWorld) : Prop := {
  world_scene : scene_ok (scene w);
  cursor_within : (publication_cursor (scene w) <= length (pending_deltas (scene w)))%nat;
  publishing_is : publishing (scene w) = true ↔ publisher w ≠ NobodyPublishes;
  idle_is_empty : publisher w = NobodyPublishes → pending_deltas (scene w) = [];
  mirror_follows : mirror_deltas empty_mirror (announced w) = Some (mirror_of (scene w));
  delivered_in_order : (delivered w).*2 ++ in_hand w `sublist_of` handed w
}.

Lemma start_world_ok : hand_over_ok start_world.
Proof.
  assert (∀ i e, entries empty_scene !! i = Some e → False) as No
    by (intros i e; simpl; by rewrite lookup_nil).
  split; try done.
  - split; [split|..]; try done; try (by constructor).
    + intros i j r r' (e & []%No & _).
    + intros i r (e & []%No & _).
    + intros i. split; [by intros ?%elem_of_nil|]. intros (e & []%No & _).
    + intros d. split; [by intros ?%elem_of_nil|]. intros (r & (e & []%No & _) & _).
Qed.

(** What [call_step] makes of an answered call. *)
Lemma call_step_answered now call w answer s' :
  hand_over_ok w → call_locked now call (scene w) = (inl answer, s') → announces (scene w) s' →
  call_step now call w =
    (inl answer,
     MkSceneWorld
       (with_pending s' (pending_deltas s') (publication_cursor s')
          (publishing s' || negb (bool_decide (pending_deltas s' = []))))
       (match publisher w with
        | NobodyPublishes => if decide (pending_deltas s' = []) then NobodyPublishes else Looping
        | p => p end)
       (handed w) (delivered w) (publication_failures w)).
Proof.
  intros W E (ds & Ep & _ & Ec & Eb & _). unfold call_step.
  erewrite bind_returned by exact E. unfold begin_publication, mbind, locked_bind, mret, locked_ret.
  pose proof (publishing_is w W) as Hp. pose proof (cursor_within w W) as Hc. rewrite <-Eb in Hp.
  destruct (publishing s') eqn:B; simpl.
  - destruct (publisher w) eqn:P; [by destruct Hp as [Hp _]; destruct (Hp eq_refl)|..];
      destruct s'; simpl in *; subst; done.
  - assert (publisher w = NobodyPublishes) as P by (destruct (publisher w); [done|..]; destruct Hp as [_ Hp]; discriminate Hp; done).
    rewrite (idle_is_empty w W P) in Hc, Ep. simpl in Hc, Ep. rewrite P, Ec.
    assert (publication_cursor (scene w) = 0%nat) as E0 by lia. rewrite E0 in *.
    destruct (decide (pending_deltas s' = [])) as [Z|NZ].
    + rewrite (bool_decide_eq_true_2 (0%nat = length _)) by (by rewrite Z).
      rewrite (bool_decide_eq_true_2 _ Z). simpl. unfold with_pending. destruct s'; simpl in *. congruence.
    + rewrite (bool_decide_eq_false_2 (0%nat = length _))
        by (intros H; apply NZ; by apply nil_length_inv).
      by rewrite (bool_decide_eq_false_2 _ NZ).
Qed.

Lemma announced_more w s' ds :
  hand_over_ok w → pending_deltas s' = pending_deltas (scene w) ++ ds →
  publication_cursor s' = publication_cursor (scene w) →
  handed w ++ drop (publication_cursor s') (pending_deltas s') = announced w ++ ds.
Proof.
  intros W -> ->. unfold announced. rewrite drop_app_le by apply W. by rewrite app_assoc.
Qed.

Lemma scene_ok_pending s l cursor publishing :
  scene_ok s → scene_ok (with_pending s l cursor publishing).
Proof. intros [T ? ? ?]. split; [by destruct T; constructor|done..]. Qed.

Lemma call_step_ok now call w : hand_over_ok w → hand_over_ok (call_step now call w).2.
Proof.
  intros W. destruct (every_call_ok now call (scene w) (world_scene w W)) as
    [[E _]|(answer & s' & E & (K' & A & _) & _)].
  - unfold call_step. erewrite bind_threw by exact E. simpl. by destruct W.
  - rewrite (call_step_answered _ _ _ _ _ W E A). destruct A as (ds & Ep & M & Ec & Eb & _). simpl.
    pose proof (publishing_is w W) as Hp. rewrite <-Eb in Hp. split; simpl.
    + by apply scene_ok_pending.
    + rewrite Ec, Ep, length_app. pose proof (cursor_within w W). lia.
    + destruct (publisher w) eqn:P; [|destruct Hp as [_ ->]; done..].
      rewrite (idle_is_empty w W P) in Ep. assert (publishing s' = false) as ->
        by (apply not_true_is_false; intros H%Hp; done).
      destruct (decide (pending_deltas s' = [])) as [Z|NZ]; simpl.
      * by rewrite bool_decide_eq_true_2.
      * by rewrite bool_decide_eq_false_2.
    + destruct (publisher w); [|done..]. by case_decide.
    + unfold announced. simpl. rewrite (announced_more w s' ds W Ep Ec).
      rewrite (mirror_deltas_app _ _ _ _ (mirror_follows w W)). exact M.
    + pose proof (delivered_in_order w W) as D. unfold in_hand in *. simpl.
      destruct (publisher w); [|done..]. by case_decide.
Qed.

Lemma take_step_ok w : hand_over_ok w → publisher w = Looping → hand_over_ok (take_step w).
Proof.
  intros W P. unfold take_step. pose proof (cursor_within w W) as C.
  pose proof (mirror_follows w W) as M. pose proof (delivered_in_order w W) as D.
  unfold in_hand in D. rewrite P, app_nil_r in D. unfold announced in M. case_decide as Hc.
  - rewrite Hc, drop_all in M. split; simpl; [by apply scene_ok_pending, W|lia| |done|done|].
    + split; [done|]. by intros [].
    + by rewrite app_nil_r.
  - destruct (lookup_lt_is_Some_2 (pending_deltas (scene w)) (publication_cursor (scene w))) as [d Hd]; [lia|].
    rewrite Hd. rewrite (drop_S _ _ _ Hd) in M. split; simpl; [by apply scene_ok_pending, W|lia| | | |].
    + rewrite (publishing_is w W), P. by destruct (sink (scene w)).
    + by destruct (sink (scene w)).
    + unfold announced. simpl. rewrite <-app_assoc. by rewrite Nat.add_1_r.
    + unfold in_hand. simpl. destruct (sink (scene w)).
      * by apply sublist_app.
      * rewrite app_nil_r. by apply sublist_inserts_r.
Qed.

Lemma scene_step_ok w event : hand_over_ok w → hand_over_ok (scene_step w event).
Proof.
  intros W. destruct event as [now call| |throws|k]; simpl.
  - by apply call_step_ok.
  - destruct (publisher w) eqn:P; [done|by apply take_step_ok|done].
  - destruct (publisher w) as [| |d k] eqn:P; [done..|]. destruct W as [? ? Hp ? ? D]. split; simpl; try done.
    + rewrite Hp, P. done.
    + unfold in_hand in *. simpl. rewrite P in D. by rewrite app_nil_r, fmap_app.
  - destruct W as [[T ? ? ?] ? ? ? ? ?]. split; simpl; try done. split; [by destruct T; constructor|done..].
Qed.

Lemma scene_after_ok events : hand_over_ok (scene_after events).
Proof.
  unfold scene_after. generalize start_world, start_world_ok. induction events as [|e events IH]; simpl.
  - done.
  - intros w W. by apply IH, scene_step_ok.
Qed.

(** *** A sink that stays *)

Definition sets_no_sink (event : SceneEvent) : Prop :=
  match event with SetsSink _ => False | _ => True end.

(** With a sink that stays, every delta that was taken is with it, or has been. *)
Definition all_to_sink (k : N) (w : SceneWorld) : Prop :=
  sink (scene w) = Some k ∧ (delivered w).*2 ++ in_hand w = handed w ∧
  Forall (λ p, p.1 = k) (delivered w) ∧
  match publisher w with CallingSink _ k' => k' = k | _ => True end.

Lemma all_to_sink_step k w event :
  hand_over_ok w → sets_no_sink event → all_to_sink k w → all_to_sink k (scene_step w event).
Proof.
  intros W NS (S & D & F & P). unfold all_to_sink, in_hand in *. destruct event as [now call| |throws|k']; simpl.
  - destruct (every_call_ok now call (scene w) (world_scene w W)) as [[E _]|(answer & s' & E & (_ & A & _) & _)].
    + unfold call_step. erewrite bind_threw by exact E. done.
    + rewrite (call_step_answered _ _ _ _ _ W E A). destruct A as (_ & _ & _ & _ & _ & Es). simpl.
      split; [congruence|]. destruct (publisher w); [|done..]. by case_decide.
  - destruct (publisher w) eqn:E; [by rewrite E|..|by rewrite E]. unfold take_step. case_decide; [done|].
    destruct (_ !! _); [|by rewrite E]. simpl. rewrite S. split; [done|]. rewrite app_nil_r in D. by rewrite D.
  - destruct (publisher w) eqn:E; [by rewrite E..|]. simpl. split; [done|].
    rewrite fmap_app, app_nil_r. split; [done|]. split; [|done]. apply Forall_app. split; [done|]. by constructor.
  - done.
Qed.

Lemma all_to_sink_after k events :
  Forall sets_no_sink events → all_to_sink k (scene_after (SetsSink (Some k) :: events)).
Proof.
  unfold scene_after. simpl. set (w0 := MkSceneWorld _ _ _ _ _).
  assert (hand_over_ok w0) as W by (apply (scene_step_ok start_world (SetsSink (Some k))), start_world_ok).
  assert (all_to_sink k w0) as A by (split_and!; [done..|constructor|done]).
  generalize dependent w0. induction events as [|e events IH]; intros w0 W A F; [done|].
  apply Forall_cons in F as [Fe F]. simpl. apply IH; [by apply scene_step_ok|by apply all_to_sink_step|done].
Qed.

(** *** The publisher stops *)

(** What the publishing thread does next, when its sink does not throw. *)
Definition publisher_event (w : SceneWorld) : SceneEvent :=
  match publisher w with CallingSink _ _ => SinkReturns false | _ => TakesNext end.

Fixpoint publisher_runs (fuel : nat) (w : SceneWorld) : SceneWorld :=
  match fuel with
  | O => w
  | S fuel => publisher_runs fuel (scene_step w (publisher_event w))
  end.

(** Two steps for each delta left, and one to find there are none. *)
Definition steps_left (w : SceneWorld) : nat :=
  2 * (length (pending_deltas (scene w)) - publication_cursor (scene w)) +
  match publisher w with NobodyPublishes => 0 | Looping => 1 | CallingSink _ _ => 2 end.

Lemma publisher_event_idle w : publisher w = NobodyPublishes → scene_step w (publisher_event w) = w.
Proof. intros P. unfold publisher_event. rewrite P. simpl. by rewrite P. Qed.

Lemma publisher_event_progress w :
  hand_over_ok w → publisher w ≠ NobodyPublishes →
  (steps_left (scene_step w (publisher_event w)) < steps_left w)%nat ∧
  announced (scene_step w (publisher_event w)) = announced w.
Proof.
  intros W P. pose proof (cursor_within w W) as C. unfold publisher_event, steps_left, announced.
  destruct (publisher w) eqn:E; [done|..]; simpl; rewrite E; simpl.
  - unfold take_step. case_decide as Hc.
    + simpl. rewrite Hc, drop_all. split; [lia|done].
    + destruct (lookup_lt_is_Some_2 (pending_deltas (scene w)) (publication_cursor (scene w))) as [d Hd]; [lia|].
      rewrite Hd. simpl. rewrite (drop_S _ _ _ Hd), <-app_assoc, Nat.add_1_r.
      split; [|done]. destruct (sink (scene w)); lia.
  - split; [lia|done].
Qed.

Lemma publisher_runs_stop n w :
  hand_over_ok w → (steps_left w <= n)%nat →
  publisher (publisher_runs n w) = NobodyPublishes ∧ handed (publisher_runs n w) = announced w.
Proof.
  revert w. induction n as [|n IH]; intros w W L.
  - assert (publisher w = NobodyPublishes) as P
      by (unfold steps_left in L; destruct (publisher w); [done|lia..]).
    split; [done|]. unfold announced. rewrite (idle_is_empty w W P), drop_nil. simpl. by rewrite app_nil_r.
  - simpl. assert (publisher w = NobodyPublishes ∨ publisher w ≠ NobodyPublishes) as [P|P]
      by (destruct (publisher w); auto).
    + rewrite publisher_event_idle by done. apply IH; [done|].
      unfold steps_left. rewrite P, (idle_is_empty w W P). simpl. lia.
    + destruct (publisher_event_progress w W P) as [Lt <-].
      apply IH; [by apply scene_step_ok|lia].
Qed.

(** *** Ids *)

(** No call made so far has given this id. *)
Definition id_to_come (s : Scene) (id : ShapeId) : Prop :=
  (epoch s < id_epoch id)%N ∨ (id_epoch id = epoch s ∧ (next_shape_slot s <= id_slot id)%N).

Lemma call_ids now call w :
  hand_over_ok w →
  let given := match (call_step now call w).1 with inl (AddAnswer (Ok id)) => [id] | _ => [] end in
  let w' := (call_step now call w).2 in
  (∀ id, id_to_come (scene w') id → id_to_come (scene w) id ∧ id ∉ given) ∧
  (∀ id, id ∈ given → id_to_come (scene w) id) ∧ NoDup given.
Proof.
  intros W given w'. subst given w'.
  destruct (every_call_ok now call (scene w) (world_scene w W)) as [[E _]|(answer & s' & E & (_ & A & Q) & S)].
  - unfold call_step. erewrite bind_threw by exact E. simpl.
    split; [intros id H; split; [done|apply not_elem_of_nil]|]. split; [by intros id ?%elem_of_nil|constructor].
  - rewrite (call_step_answered _ _ _ _ _ W E A). simpl.
    set (given := match answer with AddAnswer (Ok id) => [id] | _ => [] end).
    assert (given = [] ∨ ∃ id, given = [id] ∧ id = MkShapeId (epoch (scene w)) (next_shape_slot (scene w)) ∧
      epoch s' = epoch (scene w) ∧ next_shape_slot s' = next_shape_slot (scene w) + 1)%N as G.
    { destruct answer as [[id|]| | | |]; [right|by left..]. destruct call; try done.
      destruct Q as [|[Ep Nx]]; [done|]. destruct S as (_ & -> & _). by eexists. }
    assert (epoch (scene w) < epoch s' ∨ epoch s' = epoch (scene w) ∧
      next_shape_slot (scene w) <= next_shape_slot s')%N as Mono.
    { destruct Q as [->|[Ep Nx]].
      - left. destruct answer; try done. destruct S as [_ ->]. lia.
      - right. split; [done|]. rewrite Nx. destruct answer as [[]| | | |]; lia. }
    split_and!.
    + intros id H. unfold id_to_come in *. simpl in H. split; [lia|].
      destruct G as [->|(id' & -> & -> & Ep & Nx)]; [apply not_elem_of_nil|].
      intros ->%list_elem_of_singleton. simpl in H. lia.
    + intros id H. destruct G as [G|(id' & G & -> & _)]; rewrite G in H; [by apply elem_of_nil in H|].
      apply list_elem_of_singleton in H as ->. right. split; [done|]. simpl. lia.
    + destruct G as [->|(id' & -> & _)]; [constructor|apply NoDup_singleton].
Qed.

Lemma scene_of_other w event :
  (∀ now call, event ≠ Calls now call) → ∀ id, id_to_come (scene (scene_step w event)) id →
  id_to_come (scene w) id.
Proof.
  intros N id. destruct event as [now call| |throws|k]; simpl; [by destruct (N now call)|..].
  - destruct (publisher w); [done| |done]. unfold take_step. case_decide; [done|]. by destruct (_ !! _).
  - by destruct (publisher w).
  - done.
Qed.

Lemma ids_given_fresh events w :
  hand_over_ok w →
  NoDup (ids_given w events) ∧ ∀ id, id ∈ ids_given w events → id_to_come (scene w) id.
Proof.
  revert w. induction events as [|event events IH]; intros w W; simpl.
  - split; [constructor|]. by intros id ?%elem_of_nil.
  - destruct (IH (scene_step w event)) as [N T]; [by apply scene_step_ok|].
    destruct event as [now call| |throws|k];
      [|split; [done|]; intros id H%T; eapply scene_of_other in H; [done|done]..].
    destruct (call_ids now call w W) as (H1 & H2 & H3). simpl in T. split.
    + apply NoDup_app. split_and!; [done| |done]. intros id Hid Hin. apply T, H1 in Hin as [_ Hn]. done.
    + intros id [H|H]%elem_of_app; [by apply H2|]. by apply T, H1 in H as [? _].
Qed.

(** ** The properties *)

(** C25: a reader of deltas can rebuild the scene.  Whatever calls, hand-over steps and
    sink changes came before, with whatever clock readings: the deltas handed over
    followed by those pending apply one after the other, epochs and revisions without a
    gap, and give the scene's epoch, revision and live shapes; those delivered are in
    that order; when nobody is publishing everything was handed over; and a sink that was
    set first and stayed got every delta that was taken. *)
Theorem deltas_rebuild_scene events :
  let w := scene_after events in
  mirror_deltas empty_mirror (announced w) = Some (mirror_of (scene w)) ∧
  (delivered w).*2 `sublist_of` handed w ∧
  (publisher w = NobodyPublishes → announced w = handed w) ∧
  (∀ k rest, events = SetsSink (Some k) :: rest → Forall sets_no_sink rest →
     (delivered w).*2 ++ in_hand w = handed w ∧ Forall (λ p, p.1 = k) (delivered w)).
Proof.
  intros w. pose proof (scene_after_ok events) as W. fold w in W. split_and!.
  - apply W.
  - etrans; [by apply sublist_inserts_r|apply W].
  - intros P. unfold announced. rewrite (idle_is_empty w W P), drop_nil. by rewrite app_nil_r.
  - intros k rest E F. destruct (all_to_sink_after k rest F) as (_ & D & Fk & _). rewrite <-E in D, Fk. done.
Qed.

(** C26: each call keeps the picture.  In every state a run can reach, a call made at any
    clock reading either throws an overflow and leaves the scene as it was, with its
    epochs or revisions used up, or answers; then the shapes that are due are gone, an
    added or updated shape is in the picture unless it is due itself, a removed one is
    not, a refused call changes nothing else and says why, and a snapshot shows exactly
    the picture, in drawing order. *)
Theorem calls_keep_picture events now call :
  let s := scene (scene_after events) in
  (call_locked now call s = (inr OverflowError, s) ∧
   (call = CallClear ∧ epoch s = max_revision ∨ (max_revision - revision s < due_count now s)%N)) ∨
  ∃ answer s', call_locked now call s = (inl answer, s') ∧ picture_spec now call s answer s'.
Proof.
  intros s. destruct (every_call_ok now call s) as [?|(answer & s' & E & _ & S)].
  - apply scene_after_ok.
  - by left.
  - right. by exists answer, s'.
Qed.

(** C27: no two calls of [add] are given the same id, whatever came between them: entries
    are used again after a removal and the slots are counted anew after a clear, but a
    slot is never given twice in an epoch and an epoch never comes back. *)
Theorem shape_ids_never_repeat events : NoDup (ids_given start_world events).
Proof. apply ids_given_fresh, start_world_ok. Qed.

(** The publishing thread stops.  From every state a run can reach, when no further
    call is made, it returns after at most two steps for each delta left and one more,
    and has then handed over every delta that was announced. *)
Theorem publisher_stops events :
  let w := scene_after events in
  let w' := publisher_runs (steps_left w) w in
  publisher w' = NobodyPublishes ∧ handed w' = announced w.
Proof. apply publisher_runs_stop; [apply scene_after_ok|lia]. Qed.
