(* ===== verification/Tiles.v ===== *)
(** What changed between two captures ([kernel/capture/tile_differ.cpp]), and whether the
    hints that were to tell it can be trusted ([damage_hint_auditor.cpp]).

    A 32-bit or 64-bit size is a number, with [wrap32] and [wrap64] where the code's
    arithmetic wraps.  A read is an option: [None] is a span outside its vector. *)

From Stdlib Require Import Floats.SpecFloat.
From S2P Require Import Prelude Errors Geometry Json Png.

Local Open Scope N_scope.

(** ** Data *)

Record Size := MkSize { size_width : N; size_height : N }.

Record Rectangle := MkRectangle { rect_x : Z; rect_y : Z; rect_width : N; rect_height : N }.

#[export] Instance Rectangle_eq_dec : EqDecision Rectangle.
Proof. solve_decision. Defined.

Inductive TileDiffKind := NoChange | DirtyTiles | FullInvalidation.

#[export] Instance TileDiffKind_eq_dec : EqDecision TileDiffKind.
Proof. solve_decision. Defined.

Record TileDiffResult := MkTileDiffResult {
  diff_kind : TileDiffKind; dirty_tiles : list Rectangle; diff_reason : string
}.

Definition full_invalidation (reason : string) : TileDiffResult :=
  MkTileDiffResult FullInvalidation [] reason.

Definition wrap32 (n : N) : N := n mod 2 ^ 32.

Definition wrap64 (n : N) : N := n mod 2 ^ 64.

Definition max_i32 : N := 2 ^ 31 - 1.

(** ** The differ *)

Definition has_valid_layout (image : Image) : bool :=
  let row_bytes := wrap64 (img_width image * bytes_per_pixel (img_format image)) in
  if decide (img_stride image < row_bytes) then false
  else if decide (img_height image = 0) then true
  else
    let last_row := img_height image - 1 in
    let stride := img_stride image in
    if decide (stride ≠ 0 ∧ (max_size - row_bytes) / stride < last_row) then false
    else bool_decide (wrap64 (wrap64 (last_row * stride) + row_bytes) <= size_of (img_pixels image)).

(** The bytes of one row of a tile. *)
Definition tile_row_bytes (image : Image) (x y width row : N) : option (list Byte) :=
  let pixel := bytes_per_pixel (img_format image) in
  let offset := wrap64 (wrap64 (wrap32 (y + row) * img_stride image) + wrap64 (x * pixel)) in
  subspan (img_pixels image) offset (wrap64 (width * pixel)).

(** The loop over a tile's rows, with [remaining] of them left. *)
Fixpoint rows_differ (previous current : Image) (x y width : N) (remaining : nat) (row : N) : option bool :=
  match remaining with
  | O => Some false
  | S remaining =>
    previous_row ← tile_row_bytes previous x y width row;
    current_row ← tile_row_bytes current x y width row;
    if bool_decide (previous_row = current_row) then
      rows_differ previous current x y width remaining (row + 1)
    else Some true
  end.

Definition tile_changed (previous current : Image) (x y width height : N) : option bool :=
  rows_differ previous current x y width (N.to_nat height) 0.

(** The inner loop.  [None] is a read outside an image, or the end of the fuel. *)
Fixpoint diff_row (fuel : nat) (previous current : Image) (tile_size : Size) (y height x : N) :
    option (list Rectangle) :=
  if decide (img_width current <= x) then Some []
  else
    match fuel with
    | O => None
    | S fuel =>
      let width := N.min (size_width tile_size) (img_width current - x) in
      changed ← tile_changed previous current x y width height;
      rest ← diff_row fuel previous current tile_size y height (wrap32 (x + width));
      Some (if changed : bool then MkRectangle (Z.of_N x) (Z.of_N y) width height :: rest else rest)
    end.

Fixpoint diff_rows (fuel : nat) (previous current : Image) (tile_size : Size) (y : N) :
    option (list Rectangle) :=
  if decide (img_height current <= y) then Some []
  else
    match fuel with
    | O => None
    | S fuel =>
      let height := N.min (size_height tile_size) (img_height current - y) in
      tiles ← diff_row (N.to_nat (img_width current)) previous current tile_size y height 0;
      rest ← diff_rows fuel previous current tile_size (wrap32 (y + height));
      Some (tiles ++ rest)
    end.

Definition diff (previous current : Image) (tile_size : Size) : option TileDiffResult :=
  if decide (img_width previous ≠ img_width current ∨ img_height previous ≠ img_height current ∨
             img_format previous ≠ img_format current) then
    Some (full_invalidation "image geometry or pixel format changed")
  else if decide (size_width tile_size = 0 ∨ size_height tile_size = 0) then
    Some (full_invalidation "tile dimensions must be non-zero")
  else if decide (max_i32 < img_width current ∨ max_i32 < img_height current) then
    Some (full_invalidation "image dimensions exceed rectangle coordinates")
  else if negb (has_valid_layout previous) || negb (has_valid_layout current) then
    Some (full_invalidation "image storage does not contain its active pixels")
  else
    tiles ← diff_rows (N.to_nat (img_height current)) previous current tile_size 0;
    Some (MkTileDiffResult (if decide (tiles = []) then NoChange else DirtyTiles) tiles "").

(** ** The auditor *)

Local Open Scope Z_scope.

Inductive DamageHintAction := UseHints | FullScan | InvalidateAll.

Record DamageHintAudit := MkAudit { action : DamageHintAction; miss_rate : double; audit_reason : string }.

Record DamageHintAuditor := MkAuditor {
  miss_threshold_ : double; degraded_ : bool; degradation_reason_ : string
}.

(** Coordinates are 32-bit and sums 64-bit: nothing wraps. *)
Definition intersects (lhs rhs : Rectangle) : bool :=
  if decide (rect_width lhs = 0%N ∨ rect_height lhs = 0%N ∨ rect_width rhs = 0%N ∨ rect_height rhs = 0%N)
  then false
  else
    bool_decide (rect_x lhs < rect_x rhs + Z.of_N (rect_width rhs)) &&
    bool_decide (rect_x rhs < rect_x lhs + Z.of_N (rect_width lhs)) &&
    bool_decide (rect_y lhs < rect_y rhs + Z.of_N (rect_height rhs)) &&
    bool_decide (rect_y rhs < rect_y lhs + Z.of_N (rect_height lhs)).

Definition misses (hints truth : list Rectangle) : list Rectangle :=
  filter (λ dirty, Forall (λ hint, intersects dirty hint = false) hints) truth.

Definition calculate_miss_rate (hints truth : list Rectangle) : double :=
  if decide (truth = []) then zero
  else SFdiv 53 1024 (double_of_integer (Z.of_nat (length (misses hints truth))))
         (double_of_integer (Z.of_nat (length truth))).

(** [std::clamp]. *)
Definition clamp (x low high : double) : double :=
  if SFltb x low then low else if SFltb high x then high else x.

Definition new_auditor (miss_threshold : double) : DamageHintAuditor :=
  MkAuditor (clamp miss_threshold zero one) false "".

Definition audit (hints : list Rectangle) (ground_truth : TileDiffResult) (overflowed : bool)
    (a : DamageHintAuditor) : DamageHintAudit * DamageHintAuditor :=
  if overflowed then
    let reason := "damage hint queue overflowed"%string in
    (MkAudit InvalidateAll one reason, MkAuditor (miss_threshold_ a) true reason)
  else if decide (diff_kind ground_truth = FullInvalidation) then
    (MkAudit InvalidateAll zero (diff_reason ground_truth), a)
  else
    let rate := calculate_miss_rate hints (dirty_tiles ground_truth) in
    let a :=
      if negb (degraded_ a) && SFltb (miss_threshold_ a) rate then
        MkAuditor (miss_threshold_ a) true "damage hint miss rate exceeded threshold"
      else a in
    if degraded_ a then (MkAudit FullScan rate (degradation_reason_ a), a)
    else (MkAudit UseHints rate "", a).

(** ** What the differ finds *)

Local Open Scope N_scope.

(** The fields of an image are of 32 bits. *)
Definition image_fits (image : Image) : Prop :=
  img_width image < 2 ^ 32 ∧ img_height image < 2 ^ 32 ∧ img_stride image < 2 ^ 32.

Definition stretch (bytes : list Byte) (offset count : N) : list Byte :=
  take (N.to_nat count) (drop (N.to_nat offset) bytes).

Definition pixel (image : Image) (px py : N) : list Byte :=
  let b := bytes_per_pixel (img_format image) in
  stretch (img_pixels image) (py * img_stride image + px * b) b.

Definition pixel_differs (previous current : Image) (px py : N) : Prop :=
  pixel previous px py ≠ pixel current px py.

Definition in_rectangle (r : Rectangle) (px py : N) : Prop :=
  (rect_x r <= Z.of_N px < rect_x r + Z.of_N (rect_width r))%Z ∧
  (rect_y r <= Z.of_N py < rect_y r + Z.of_N (rect_height r))%Z.

(** A row is no longer than the distance between two rows, and the bytes reach to the
    end of the last row, whose padding is not needed. *)
Definition holds_pixels (image : Image) : Prop :=
  let row := img_width image * bytes_per_pixel (img_format image) in
  row <= img_stride image ∧
  (img_height image = 0 ∨ (img_height image - 1) * img_stride image + row <= size_of (img_pixels image)).

(** The two images can be compared tile by tile: they have one size and format, the
    tiles are not empty, their corners fit signed coordinates, and no pixel is missing. *)
Definition comparable (previous current : Image) (tile_size : Size) : Prop :=
  (img_width previous = img_width current ∧ img_height previous = img_height current ∧
   img_format previous = img_format current) ∧
  (size_width tile_size ≠ 0 ∧ size_height tile_size ≠ 0) ∧
  (img_width current <= max_i32 ∧ img_height current <= max_i32) ∧
  holds_pixels previous ∧ holds_pixels current.

Lemma wrap32_id n : n < 2 ^ 32 → wrap32 n = n.
Proof. apply N.mod_small. Qed.

Lemma wrap64_id n : n < 2 ^ 64 → wrap64 n = n.
Proof. apply N.mod_small. Qed.

Lemma pixel_bytes format : 1 <= bytes_per_pixel format <= 4.
Proof. destruct format; simpl; lia. Qed.

Lemma mul_u32 a b : a < 2 ^ 32 → b < 2 ^ 32 → a * b < 2 ^ 64.
Proof. intros A B. change (2 ^ 64) with (2 ^ 32 * 2 ^ 32). by apply N.mul_lt_mono. Qed.

(** A product of sides, with a row, stays below the word. *)
Lemma storage_small image :
  image_fits image → img_width image * bytes_per_pixel (img_format image) <= img_stride image →
  (img_height image - 1) * img_stride image + img_width image * bytes_per_pixel (img_format image) <= max_size.
Proof.
  intros (W & H & S) L. set (row := img_width image * _) in *. unfold max_size.
  assert ((img_height image - 1) * img_stride image <= (2 ^ 32 - 1) * (2 ^ 32 - 1)) by (apply N.mul_le_mono; lia).
  lia.
Qed.

Lemma has_valid_layout_spec image : image_fits image → has_valid_layout image = true ↔ holds_pixels image.
Proof.
  intros F. pose proof (storage_small image F) as M. destruct F as (W & H & S).
  pose proof (pixel_bytes (img_format image)) as B. unfold has_valid_layout, holds_pixels.
  rewrite (wrap64_id (img_width image * _)) by (apply mul_u32; lia).
  set (row := img_width image * _) in *. set (last := img_height image - 1) in *.
  case_decide; [split; [done|lia]|]. case_decide; [split; [lia|done]|].
  specialize (M ltac:(lia)). case_decide as C.
  { destruct C as [NZ C]. exfalso. apply N.lt_nge in C. apply C. apply N.div_le_lower_bound; lia. }
  unfold max_size in M. rewrite (wrap64_id (last * _)), wrap64_id, bool_decide_eq_true by lia. lia.
Qed.

(** A row of an image that holds its pixels lies in its storage. *)
Lemma valid_layout_rows image y :
  image_fits image → holds_pixels image → y < img_height image →
  let bytes := y * img_stride image + img_width image * bytes_per_pixel (img_format image) in
  bytes <= size_of (img_pixels image) ∧ bytes <= max_size.
Proof.
  intros F (L & V) Hy bytes. pose proof (storage_small image F L) as M.
  set (row := img_width image * _) in *. set (last := img_height image - 1) in *.
  assert (y * img_stride image <= last * img_stride image) by (apply N.mul_le_mono_r; lia).
  unfold bytes. lia.
Qed.

Lemma subspan_stretch bytes offset count :
  offset + count <= size_of bytes → subspan bytes offset count = Some (stretch bytes offset count).
Proof. intros H. unfold subspan. by rewrite decide_True by lia. Qed.

Lemma tile_row_bytes_ok image x y width row :
  image_fits image → holds_pixels image →
  x + width <= img_width image → y + row < img_height image →
  let b := bytes_per_pixel (img_format image) in
  tile_row_bytes image x y width row =
    Some (stretch (img_pixels image) ((y + row) * img_stride image + x * b) (width * b)) ∧
  (y + row) * img_stride image + x * b + width * b <= size_of (img_pixels image).
Proof.
  intros F V Hx Hy b. destruct (valid_layout_rows image (y + row) F V Hy) as [L M].
  destruct F as (W & H & S). pose proof (pixel_bytes (img_format image)) as B. fold b in L, M, B.
  assert ((x + width) * b <= img_width image * b) as X by (by apply N.mul_le_mono_r).
  rewrite N.mul_add_distr_r in X. unfold max_size in M.
  split; [|lia]. unfold tile_row_bytes. fold b.
  rewrite (wrap32_id (y + row)) by lia. rewrite (wrap64_id (_ * img_stride image)) by lia.
  rewrite (wrap64_id (x * b)), (wrap64_id (width * b)) by lia. rewrite wrap64_id by lia.
  apply subspan_stretch. lia.
Qed.

(** Rows are equal exactly when their pixels are. *)
Lemma pixels_equal b n (l l' : list Byte) :
  (n * b <= length l)%nat → (n * b <= length l')%nat →
  take (n * b) l = take (n * b) l' ↔
  ∀ i, (i < n)%nat → take b (drop (i * b) l) = take b (drop (i * b) l').
Proof.
  revert l l'. induction n as [|n IH]; intros l l' H H'; [split; [intros _ i; lia|done]|].
  assert (∀ m : list Byte, take (S n * b) m = take b m ++ take (n * b) (drop b m)) as E
    by (intros m; by rewrite take_take_drop).
  rewrite !E. simpl in H, H'. split.
  - intros Eq. apply app_inj_1 in Eq as [E1 E2]; [|rewrite !length_take; lia].
    rewrite IH in E2 by (rewrite length_drop; lia). intros [|i] Hi; [done|].
    specialize (E2 i). rewrite !drop_drop in E2. apply E2. lia.
  - intros Eq. f_equal; [apply (Eq 0%nat); lia|]. apply IH; [rewrite length_drop; lia..|].
    intros i Hi. rewrite !drop_drop. apply (Eq (S i)). lia.
Qed.

Lemma stretches_equal b n o o' (l l' : list Byte) :
  o + n * b <= size_of l → o' + n * b <= size_of l' →
  stretch l o (n * b) = stretch l' o' (n * b) ↔
  ∀ i, i < n → stretch l (o + i * b) b = stretch l' (o' + i * b) b.
Proof.
  unfold size_of, stretch. intros H H'. rewrite !N2Nat.inj_mul, pixels_equal by (rewrite length_drop; lia).
  split; intros E i Hi.
  - specialize (E (N.to_nat i)). rewrite !drop_drop in E. rewrite !N2Nat.inj_add, !N2Nat.inj_mul. apply E. lia.
  - specialize (E (N.of_nat i)). rewrite !drop_drop. rewrite !N2Nat.inj_add, !N2Nat.inj_mul, !Nat2N.id in E.
    apply E. lia.
Qed.

Section differ.
Context (previous current : Image) (tile_size : Size).
Context (Fp : image_fits previous) (Fc : image_fits current).
Context (Hcmp : comparable previous current tile_size).

Lemma row_compared x y width row :
  x + width <= img_width current → y + row < img_height current →
  ∃ p c, tile_row_bytes previous x y width row = Some p ∧ tile_row_bytes current x y width row = Some c ∧
    (p = c ↔ ∀ i, i < width → ¬ pixel_differs previous current (x + i) (y + row)).
Proof.
  intros Hx Hy. destruct Hcmp as ((Ew & Eh & Ef) & _ & _ & Vp & Vc).
  destruct (tile_row_bytes_ok previous x y width row Fp Vp) as [Ep Lp]; [by rewrite Ew|by rewrite Eh|].
  destruct (tile_row_bytes_ok current x y width row Fc Vc) as [Ec Lc]; [done..|].
  rewrite Ef in Ep, Lp. eexists _, _. split; [exact Ep|]. split; [exact Ec|].
  rewrite stretches_equal by done. unfold pixel_differs, pixel. rewrite Ef.
  set (b := bytes_per_pixel _).
  assert (∀ n i, n + x * b + i * b = n + (x + i) * b) as Shift by (intros; ring).
  split; intros H i Hi; specialize (H i Hi); rewrite !Shift in *; [by intros []|by apply dec_stable].
Qed.

Lemma rows_differ_ok x y width remaining row :
  x + width <= img_width current → y + row + N.of_nat remaining <= img_height current →
  ∃ r, rows_differ previous current x y width remaining row = Some r ∧
    (r = true ↔ ∃ i j, i < width ∧ row <= j < row + N.of_nat remaining ∧
                       pixel_differs previous current (x + i) (y + j)).
Proof.
  intros Hx. revert row. induction remaining as [|n IH]; intros row Hy; cbn [rows_differ].
  - exists false. split; [done|]. split; [done|]. intros (i & j & _ & ? & _). lia.
  - destruct (row_compared x y width row Hx) as (p & c & -> & -> & E); [lia|]. simpl.
    destruct (IH (row + 1)) as (r & Er & Hr); [lia|]. case_bool_decide as C.
    + exists r. split; [done|]. rewrite Hr. split; intros (i & j & Hi & Hj & D); exists i, j;
        (split; [done|split; [|done]]); [lia|]. destruct (decide (j = row)) as [->|]; [|lia].
      by destruct (proj1 E C i Hi).
    + exists true. split; [done|]. split; [|done]. intros _.
      destruct (decide (Exists (λ i, pixel_differs previous current (x + N.of_nat i) (y + row))
                  (seq 0 (N.to_nat width)))) as [Ex|No].
      * apply Exists_exists in Ex as (i & Hi%elem_of_seq & D). exists (N.of_nat i), row.
        split; [lia|]. split; [lia|done].
      * destruct C. apply E. intros i Hi D. apply No, Exists_exists. exists (N.to_nat i).
        rewrite elem_of_seq, N2Nat.id. split; [lia|done].
Qed.

Definition differs_in (r : Rectangle) : Prop :=
  ∃ px py, in_rectangle r px py ∧ pixel_differs previous current px py.

Lemma tile_changed_ok x y width height :
  x + width <= img_width current → y + height <= img_height current →
  ∃ r, tile_changed previous current x y width height = Some r ∧
    (r = true ↔ differs_in (MkRectangle (Z.of_N x) (Z.of_N y) width height)).
Proof.
  intros Hx Hy. destruct (rows_differ_ok x y width (N.to_nat height) 0 Hx) as (r & Er & Hr); [lia|].
  exists r. split; [done|]. rewrite Hr. unfold differs_in, in_rectangle. simpl. split.
  - intros (i & j & Hi & Hj & D). exists (x + i), (y + j). split; [lia|done].
  - intros (px & py & H & D). exists (px - x), (py - y). split; [lia|]. split; [lia|].
    replace (x + (px - x)) with px by lia. by replace (y + (py - y)) with py by lia.
Qed.

(** The tile whose corner is at a place of the image. *)
Definition tile_at (x y : N) : Rectangle :=
  MkRectangle (Z.of_N x) (Z.of_N y) (N.min (size_width tile_size) (img_width current - x))
    (N.min (size_height tile_size) (img_height current - y)).

Lemma diff_row_ok fuel y x :
  y < img_height current → (N.to_nat (img_width current - x) <= fuel)%nat →
  ∃ l, diff_row fuel previous current tile_size y (N.min (size_height tile_size) (img_height current - y)) x
         = Some l ∧ NoDup l ∧
    ∀ t, t ∈ l ↔ ∃ i, x + i * size_width tile_size < img_width current ∧
                      t = tile_at (x + i * size_width tile_size) y ∧ differs_in t.
Proof.
  intros Hy. destruct Hcmp as (_ & (Tw & _) & (Mw & _) & _). set (tw := size_width tile_size) in *.
  revert x. induction fuel as [|fuel IH]; intros x Hf; cbn [diff_row]; case_decide as C; try lia.
  1, 2: exists []; split; [done|]; split; [constructor|]; intros t; split; [by intros ?%elem_of_nil|];
    intros (i & Hi & _); nia.
  fold tw. set (height := N.min _ (img_height current - y)) in *. set (width := N.min tw (img_width current - x)).
  destruct (tile_changed_ok x y width height) as (r & -> & Hr); [lia..|]. simpl.
  unfold max_i32 in Mw. rewrite wrap32_id by lia.
  destruct (IH (x + width)) as (l & -> & N & Hl); [lia|]. simpl.
  change (MkRectangle (Z.of_N x) (Z.of_N y) width height) with (tile_at x y) in *.
  assert (∀ t, t ∈ l ↔ ∃ i, 1 <= i ∧ x + i * tw < img_width current ∧ t = tile_at (x + i * tw) y ∧ differs_in t)
    as Hl'.
  { intros t. rewrite Hl. split.
    - intros (i & Hi & E). assert (width = tw) as Ew by lia. rewrite Ew in Hi, E. exists (i + 1).
      replace (x + (i + 1) * tw) with (x + tw + i * tw) by lia. split; [lia|done].
    - intros (i & H1 & Hi & E). assert (tw <= i * tw) by nia. assert (width = tw) as -> by lia.
      exists (i - 1). replace (x + tw + (i - 1) * tw) with (x + i * tw) by nia. done. }
  assert (tile_at x y ∉ l) as Nin.
  { intros (i & H1 & _ & E & _)%Hl'. apply (f_equal rect_x) in E. simpl in E. nia. }
  exists (if r then tile_at x y :: l else l). split; [by destruct r|]. split; [destruct r; by try constructor|].
  intros t. transitivity ((r = true ∧ t = tile_at x y) ∨ t ∈ l).
  { destruct r; rewrite ?elem_of_cons; naive_solver. }
  rewrite Hl', Hr. split.
  - intros [[D ->]|(i & _ & H)]; [|by exists i]. exists 0. rewrite N.mul_0_l, N.add_0_r. split; [lia|done].
  - intros (i & Hi & E & D). destruct (decide (i = 0)) as [->|].
    + left. rewrite N.mul_0_l, N.add_0_r in E. by subst.
    + right. exists i. split; [lia|done].
Qed.

Lemma diff_rows_ok fuel y :
  (N.to_nat (img_height current - y) <= fuel)%nat →
  ∃ l, diff_rows fuel previous current tile_size y = Some l ∧ NoDup l ∧
    ∀ t, t ∈ l ↔ ∃ i j, i * size_width tile_size < img_width current ∧
                        y + j * size_height tile_size < img_height current ∧
                        t = tile_at (i * size_width tile_size) (y + j * size_height tile_size) ∧ differs_in t.
Proof.
  destruct Hcmp as (_ & (_ & Th) & (_ & Mh) & _). set (th := size_height tile_size) in *.
  revert y. induction fuel as [|fuel IH]; intros y Hf; cbn [diff_rows]; case_decide as C; try lia.
  1, 2: exists []; split; [done|]; split; [constructor|]; intros t; split; [by intros ?%elem_of_nil|];
    intros (i & j & _ & Hj & _); nia.
  fold th. set (height := N.min th (img_height current - y)).
  destruct (diff_row_ok (N.to_nat (img_width current)) y 0) as (l & El & Nl & Hl); [lia..|].
  fold th height in El. rewrite El. simpl. unfold max_i32 in Mh. rewrite wrap32_id by lia.
  destruct (IH (y + height)) as (l' & -> & N' & Hl'); [lia|]. simpl.
  assert (∀ t, t ∈ l' ↔ ∃ i j, 1 <= j ∧ i * size_width tile_size < img_width current ∧
    y + j * th < img_height current ∧ t = tile_at (i * size_width tile_size) (y + j * th) ∧ differs_in t) as Hl2.
  { intros t. rewrite Hl'. split.
    - intros (i & j & Hi & Hj & E). assert (height = th) as Eh by lia. rewrite Eh in Hj, E. exists i, (j + 1).
      replace (y + (j + 1) * th) with (y + th + j * th) by lia. split; [lia|done].
    - intros (i & j & H1 & Hi & Hj & E). assert (th <= j * th) by nia. assert (height = th) as -> by lia.
      exists i, (j - 1). replace (y + th + (j - 1) * th) with (y + j * th) by nia. done. }
  exists (l ++ l'). split; [done|]. split.
  - apply NoDup_app. split; [done|]. split; [|done]. intros t (i & _ & E & _)%Hl (i' & j & H1 & _ & _ & E' & _)%Hl2.
    rewrite E' in E. apply (f_equal rect_y) in E. simpl in E. nia.
  - assert (∀ t, t ∈ l ↔ ∃ i, i * size_width tile_size < img_width current ∧
      t = tile_at (i * size_width tile_size) y ∧ differs_in t) as Hl0 by exact Hl.
    intros t. rewrite elem_of_app, Hl0, Hl2. split.
    + intros [(i & Hi & E & D)|(i & j & _ & H)]; [|by exists i, j].
      exists i, 0. rewrite N.mul_0_l, N.add_0_r. split; [done|split; [lia|done]].
    + intros (i & j & Hi & Hj & E & D). destruct (decide (j = 0)) as [->|].
      * left. exists i. by rewrite N.mul_0_l, N.add_0_r in E.
      * right. exists i, j. split; [lia|done].
Qed.
End differ.

(** A branch of [diff] that gives up. *)
Ltac refused :=
  right; split;
  [intros (? & ? & ? & ? & ?); first [congruence | naive_solver | lia]
  |eexists; split; [|reflexivity]; done].

Lemma comparable_dec previous current tile_size :
  image_fits previous → image_fits current →
  (comparable previous current tile_size ∧
   diff previous current tile_size =
     (tiles ← diff_rows (N.to_nat (img_height current)) previous current tile_size 0;
      Some (MkTileDiffResult (if decide (tiles = []) then NoChange else DirtyTiles) tiles ""))) ∨
  (¬ comparable previous current tile_size ∧
   ∃ reason, reason ≠ ""%string ∧ diff previous current tile_size = Some (full_invalidation reason)).
Proof.
  intros Fp Fc. unfold diff, comparable. case_decide; [refused|]. case_decide; [refused|]. case_decide; [refused|].
  rewrite <-(has_valid_layout_spec previous), <-(has_valid_layout_spec current) by done.
  destruct (has_valid_layout previous) eqn:Vp, (has_valid_layout current) eqn:Vc; simpl; [|refused..].
  left. split; [|done]. split_and!; try done; try lia; apply dec_stable; naive_solver.
Qed.

Lemma tile_unique current tile_size i j i' j' px py :
  in_rectangle (tile_at current tile_size (i * size_width tile_size) (j * size_height tile_size)) px py →
  in_rectangle (tile_at current tile_size (i' * size_width tile_size) (j' * size_height tile_size)) px py →
  i = i' ∧ j = j'.
Proof. unfold in_rectangle, tile_at. simpl. intros H H'. split; nia. Qed.

(** C32: the tile differ finds exactly what changed.  For any two images it answers, and
    never reads outside their storage.  When they cannot be compared - they differ in size or
    format, a tile is empty, a side exceeds a signed coordinate, or one does not hold all its
    pixels - it asks for a full invalidation and says why; otherwise each tile it lists is a tile of the grid with a
    pixel in which the images differ, every such pixel lies in exactly one of the listed
    tiles, and it reports no change exactly when it lists none. *)
Theorem tile_diff_exact previous current tile_size :
  image_fits previous → image_fits current →
  ∃ result, diff previous current tile_size = Some result ∧
  (¬ comparable previous current tile_size →
     diff_kind result = FullInvalidation ∧ dirty_tiles result = [] ∧ diff_reason result ≠ ""%string) ∧
  (comparable previous current tile_size →
     diff_kind result = (if decide (dirty_tiles result = []) then NoChange else DirtyTiles) ∧
     (∀ t, t ∈ dirty_tiles result → ∃ i j,
        t = tile_at current tile_size (i * size_width tile_size) (j * size_height tile_size) ∧
        ∃ px py, px < img_width current ∧ py < img_height current ∧ in_rectangle t px py ∧
                 pixel_differs previous current px py) ∧
     ∀ px py, px < img_width current → py < img_height current → pixel_differs previous current px py →
       exists! t, t ∈ dirty_tiles result ∧ in_rectangle t px py).
Proof.
  intros Fp Fc. destruct (comparable_dec previous current tile_size Fp Fc) as [[C E]|[C (reason & R & E)]].
  2: { eexists. split; [exact E|]. split; [done|]. by intros ?%C. }
  destruct (diff_rows_ok previous current tile_size Fp Fc C (N.to_nat (img_height current)) 0)
    as (l & El & N & Hl); [lia|].
  rewrite El in E. simpl in E. eexists. split; [exact E|]. split; [by intros []|]. intros _.
  cbn [diff_kind dirty_tiles]. split; [done|]. destruct C as (_ & (Tw & Th) & _). split.
  - intros t (i & j & Hi & Hj & -> & px & py & Hin & D)%Hl. exists i, j. split; [done|].
    exists px, py. split_and!; [..|done|done]; unfold in_rectangle, tile_at in Hin; simpl in Hin; lia.
  - intros px py Hx Hy D.
    pose proof (N.div_mod px _ Tw) as Dx. pose proof (N.mod_lt px _ Tw).
    pose proof (N.div_mod py _ Th) as Dy. pose proof (N.mod_lt py _ Th).
    generalize dependent (px mod size_width tile_size). intros rx Dx Rx.
    generalize dependent (py mod size_height tile_size). intros ry Dy Ry.
    set (i := px / _) in *. set (j := py / _) in *. clearbody i j.
    assert (in_rectangle (tile_at current tile_size (i * size_width tile_size) (j * size_height tile_size)) px py)
      as Hin.
    { unfold in_rectangle, tile_at. cbn [rect_x rect_y rect_width rect_height].
      lia. }
    exists (tile_at current tile_size (i * size_width tile_size) (j * size_height tile_size)). split.
    + split; [|done]. apply Hl. exists i, j. split; [lia|]. split; [lia|]. split; [done|]. by exists px, py.
    + intros t [(i' & j' & _ & _ & -> & _)%Hl Hin'].
      destruct (tile_unique _ _ _ _ _ _ _ _ Hin Hin') as [-> ->]. done.
Qed.

(** ** What the auditor trusts *)

(** One audit's arguments. *)
Definition Audited : Type := list Rectangle * TileDiffResult * bool.

Definition audit_one (a : DamageHintAuditor) (x : Audited) : DamageHintAuditor :=
  (audit x.1.1 x.1.2 x.2 a).2.

Definition after_audits (threshold : double) (l : list Audited) : DamageHintAuditor :=
  foldl audit_one (new_auditor threshold) l.

(** An audit that leaves the hints trusted. *)
Definition acceptable_audit (threshold : double) (x : Audited) : Prop :=
  x.2 = false ∧
  (diff_kind x.1.2 ≠ FullInvalidation →
   SFltb (clamp threshold zero one) (calculate_miss_rate x.1.1 (dirty_tiles x.1.2)) = false).

Lemma audit_one_threshold a x : miss_threshold_ (audit_one a x) = miss_threshold_ a.
Proof.
  unfold audit_one, audit. destruct x.2; [done|]. case_decide; [done|].
  destruct a as [threshold [] reason]; simpl; [done|]. by destruct (SFltb _ _).
Qed.

Lemma audit_threshold l threshold : miss_threshold_ (after_audits threshold l) = clamp threshold zero one.
Proof.
  induction l as [|x l IH] using rev_ind; [done|]. unfold after_audits in *.
  by rewrite foldl_snoc, audit_one_threshold.
Qed.

Lemma audit_step_degraded a x :
  degraded_ (audit_one a x) =
  degraded_ a || x.2 ||
  (bool_decide (diff_kind x.1.2 ≠ FullInvalidation) &&
   SFltb (miss_threshold_ a) (calculate_miss_rate x.1.1 (dirty_tiles x.1.2))).
Proof.
  unfold audit_one, audit. destruct x.2; [by rewrite orb_true_r|]. rewrite orb_false_r.
  destruct (decide (diff_kind x.1.2 = FullInvalidation)) as [F|F].
  - rewrite bool_decide_eq_false_2 by naive_solver. by rewrite orb_false_r.
  - rewrite bool_decide_eq_true_2 by done. destruct a as [threshold [] reason]; simpl; [done|]. by destruct (SFltb _ _).
Qed.

Lemma degraded_exactly l threshold :
  degraded_ (after_audits threshold l) = false ↔ Forall (acceptable_audit threshold) l.
Proof.
  induction l as [|x l IH] using rev_ind; [by split|]. rewrite Forall_app, Forall_singleton, <-IH.
  unfold after_audits at 1. rewrite foldl_snoc, audit_step_degraded. fold (after_audits threshold l).
  rewrite audit_threshold, !orb_false_iff, andb_false_iff, bool_decide_eq_false. unfold acceptable_audit.
  destruct (SFltb _ _); naive_solver.
Qed.

(** Hints are used exactly while they have been trustworthy.  Whatever was audited
    before, an audit says that hints are to be used exactly when neither it nor any
    audit before it saw an overflow or a miss rate above the threshold, and the images
    could be compared; an auditor never recovers. *)
Theorem hints_used_exactly threshold history hints truth overflowed :
  action (audit hints truth overflowed (after_audits threshold history)).1 = UseHints ↔
  Forall (acceptable_audit threshold) (history ++ [(hints, truth, overflowed)]) ∧
  diff_kind truth ≠ FullInvalidation.
Proof.
  rewrite <-degraded_exactly. unfold after_audits at 2. rewrite foldl_snoc. fold (after_audits threshold history).
  set (a := after_audits threshold history). unfold audit_one, audit. simpl.
  destruct overflowed; [simpl; naive_solver|]. case_decide; [simpl; naive_solver|].
  destruct (negb (degraded_ a) && _); [simpl; naive_solver|]. destruct (degraded_ a) eqn:D; simpl; rewrite ?D; naive_solver.
Qed.

(** ** A small case *)

Definition grey_row (pixels : list Byte) : Image := MkImage 3 1 3 PixelFormat.Gray pixels.

Lemma tile_diff_exact_witness :
  image_fits (grey_row [1; 2; 3]) ∧ comparable (grey_row [1; 2; 3]) (grey_row [1; 2; 4]) (MkSize 2 1) ∧
  exists! t, t ∈ [MkRectangle 2 0 1 1] ∧ in_rectangle t 2 0.
Proof.
  split; [by vm_compute|].
  assert (comparable (grey_row [1; 2; 3]) (grey_row [1; 2; 4]) (MkSize 2 1)) as C by (vm_compute; repeat split; try done; right; done).
  split; [exact C|].
  destruct (tile_diff_exact (grey_row [1; 2; 3]) (grey_row [1; 2; 4]) (MkSize 2 1)) as (r & E & _ & H);
    [by vm_compute..|].
  assert (Some (MkTileDiffResult DirtyTiles [MkRectangle 2 0 1 1] "") = Some r) as [= <-]
    by (by rewrite <-E).
  apply (H C); [done|done|]. by vm_compute.
Defined.

(** Overflow, then matching hints: no trust any more. *)
Example hints_lost_for_good :
  let truth := MkTileDiffResult DirtyTiles [MkRectangle 2 0 1 1] "" in
  let hints := [MkRectangle 2 0 1 1] in
  (action (audit hints truth false (after_audits one [])).1,
   action (audit hints truth false (after_audits one [(hints, truth, true)])).1) = (UseHints, FullScan).
Proof. reflexivity. Qed.
