(* ===== verification/Gesture.v ===== *)
(** From pointer events to gestures ([kernel/input/gesture_classifier.cpp]).

    The classifier is a state machine over the events of the pointer and the clock; every
    operation returns the gestures it emits and the next classifier.  [std::hypot] is an
    argument, since the language does not fix its rounding.  Milliseconds are of 64 bits, and
    an operation is an option: [None] is a time stamp whose conversion to milliseconds, or a
    difference of two times, that the language leaves undefined. *)

From Stdlib Require Import Floats.SpecFloat.
From S2P Require Import Prelude Geometry Json Event.

Local Open Scope Z_scope.

(** ** Data *)

Inductive Gesture := Move | Hold | HoldEnd | HoldCancel | Click | DoubleClick | Pause.

#[export] Instance Gesture_eq_dec : EqDecision Gesture.
Proof. solve_decision. Defined.

Record GestureEvent := MkGesture { gesture : Gesture; gesture_at : SpacePoint; gesture_button : N }.

Record GestureThresholds := MkThresholds {
  hold_after : Z; double_click_within : Z; pause_after : Z; slop_px : double
}.

(** [GestureThresholds{}]. *)
Definition default_thresholds : GestureThresholds :=
  MkThresholds 500 400 700 (double_of_integer 5).

Inductive GestureState := Idling | Moving | Pressed | Holding | AwaitDouble | PostDouble.

#[export] Instance GestureState_eq_dec : EqDecision GestureState.
Proof. solve_decision. Defined.

Record Classifier := MkClassifier {
  thresholds_ : GestureThresholds;
  state_ : GestureState;
  press_at_ : SpacePoint;
  press_time_ : Z;
  last_motion_at_ : SpacePoint;
  last_motion_time_ : Z;
  owner_button_ : N;
  buttons_down_ : N
}.

Definition noButton : N := 0.

(** [SpacePoint{}]. *)
Definition origin_point : SpacePoint := MkSpacePoint zero zero (MkSpace 0).

Definition reset (c : Classifier) : Classifier :=
  MkClassifier (thresholds_ c) Idling origin_point 0 origin_point 0 noButton 0.

Definition new_classifier (thresholds : GestureThresholds) : Classifier :=
  MkClassifier thresholds Idling origin_point 0 origin_point 0 noButton 0.

Definition with_state (c : Classifier) (s : GestureState) : Classifier :=
  MkClassifier (thresholds_ c) s (press_at_ c) (press_time_ c) (last_motion_at_ c)
    (last_motion_time_ c) (owner_button_ c) (buttons_down_ c).

Definition with_owner (c : Classifier) (owner : N) : Classifier :=
  MkClassifier (thresholds_ c) (state_ c) (press_at_ c) (press_time_ c) (last_motion_at_ c)
    (last_motion_time_ c) owner (buttons_down_ c).

Definition with_buttons (c : Classifier) (down : N) : Classifier :=
  MkClassifier (thresholds_ c) (state_ c) (press_at_ c) (press_time_ c) (last_motion_at_ c)
    (last_motion_time_ c) (owner_button_ c) down.

(** ** Buttons *)

Definition is_eligible_button (button : N) : bool := bool_decide (1 <= button <= 3)%N.

(** A byte. *)
Definition button_bit (button : N) : N := N.shiftl 1 (button - 1) mod 256.

Definition mark_button_down (button : N) (c : Classifier) : bool * Classifier :=
  let bit := button_bit button in
  (bool_decide (N.land (buttons_down_ c) bit = 0%N),
   with_buttons c (N.lor (buttons_down_ c) bit mod 256)).

Definition mark_button_up (button : N) (c : Classifier) : bool * Classifier :=
  let bit := button_bit button in
  (bool_decide (N.land (buttons_down_ c) bit ≠ 0%N),
   with_buttons c (N.land (buttons_down_ c) (N.lxor bit 255) mod 256)).

Definition button_is_down (button : N) (c : Classifier) : bool :=
  is_eligible_button button && bool_decide (N.land (buttons_down_ c) (button_bit button) ≠ 0%N).

(** ** Time *)

(** Conversion to a 64-bit integer, towards zero. *)
Definition truncate (x : double) : option Z :=
  match x with
  | S754_zero _ => Some 0
  | S754_finite s m e =>
    let n := if decide (0 <= e) then Z.pos m * 2 ^ e else Z.pos m / 2 ^ (- e) in
    let n := if s : bool then - n else n in
    if decide (- 2 ^ 63 <= n < 2 ^ 63) then Some n else None
  | _ => None
  end.

Definition event_time (timestamp : double) : option Z :=
  truncate (SFmul 53 1024 timestamp (double_of_integer 1000)).

(** [now - since], of 64 bits with a sign. *)
Definition milliseconds_since (now since : Z) : option Z :=
  if decide (- 2 ^ 63 <= now - since < 2 ^ 63) then Some (now - since) else None.

(** ** The machine *)

Section machine.
Context (hypot : double → double → double).

Definition exceeds_slop (from to : SpacePoint) (slop : double) : bool :=
  if decide (sp_space from ≠ sp_space to) then true
  else SFltb slop (hypot (SFsub 53 1024 (sp_x to) (sp_x from)) (SFsub 53 1024 (sp_y to) (sp_y from))).

Definition begin_press (button : N) (position : SpacePoint) (now : Z) (c : Classifier) : Classifier :=
  MkClassifier (thresholds_ c) Pressed position now (last_motion_at_ c) (last_motion_time_ c) button
    (buttons_down_ c).

Definition begin_moving (position : SpacePoint) (now : Z) (c : Classifier) : Classifier :=
  MkClassifier (thresholds_ c) Moving (press_at_ c) (press_time_ c) position now (owner_button_ c)
    (buttons_down_ c).

Definition process_deadline (now : Z) (c : Classifier) : option (list GestureEvent * Classifier) :=
  let t := thresholds_ c in
  match state_ c with
  | Pressed =>
    since ← milliseconds_since now (press_time_ c);
    Some (if decide (hold_after t <= since) then
            ([MkGesture Hold (press_at_ c) (owner_button_ c)], with_state c Holding)
          else ([], c))
  | Moving =>
    since ← milliseconds_since now (last_motion_time_ c);
    Some (if decide (pause_after t <= since) then
            ([MkGesture Pause (last_motion_at_ c) noButton], with_state c Idling)
          else ([], c))
  | AwaitDouble =>
    since ← milliseconds_since now (press_time_ c);
    Some (if decide (double_click_within t < since) then
            let idle := with_state c Idling in
            ([MkGesture Click (press_at_ c) (owner_button_ c)],
             if negb (button_is_down (owner_button_ idle) idle) then with_owner idle noButton else idle)
          else ([], c))
  | Idling | Holding | PostDouble => Some ([], c)
  end.

Definition advance (now : Z) (c : Classifier) : option (list GestureEvent * Classifier) :=
  process_deadline now c.

Definition handle_motion (position : SpacePoint) (now : Z) (c : Classifier) : list GestureEvent * Classifier :=
  let moved := MkGesture Move position noButton in
  let far := exceeds_slop (press_at_ c) position (slop_px (thresholds_ c)) in
  match state_ c with
  | Idling | Moving => ([moved], begin_moving position now c)
  | Pressed => if far then ([moved], begin_moving position now c) else ([], c)
  | Holding =>
    if far then
      ([MkGesture HoldCancel position (owner_button_ c); moved],
       begin_moving position now (with_state c Moving))
    else ([], c)
  | AwaitDouble =>
    if far then
      ([MkGesture Click (press_at_ c) (owner_button_ c); moved],
       begin_moving position now (with_owner c noButton))
    else ([], c)
  | PostDouble =>
    let c := if negb (button_is_down (owner_button_ c) c) then with_owner c noButton else c in
    ([moved], begin_moving position now c)
  end.

(** A press that takes the pointer, when no button has it. *)
Definition claim (owner_is_down : bool) (button : N) (position : option SpacePoint) (now : Z)
    (c : Classifier) : Classifier :=
  if owner_is_down then c
  else
    let c := with_owner c button in
    match position with Some p => begin_press button p now c | None => c end.

Definition handle_button_down (button : N) (position : option SpacePoint) (now : Z) (c : Classifier) :
    option (list GestureEvent * Classifier) :=
  if negb (is_eligible_button button) then Some ([], c)
  else
    let owner_is_down := button_is_down (owner_button_ c) c in
    let '(marked, c) := mark_button_down button c in
    if negb marked then Some ([], c)
    else
      match state_ c with
      | Idling | Moving | PostDouble => Some ([], claim owner_is_down button position now c)
      | Pressed | Holding => Some ([], c)
      | AwaitDouble =>
        match position with
        | None => Some ([], c)
        | Some p =>
          if decide (button ≠ owner_button_ c) then Some ([], c)
          else
            since ← milliseconds_since now (press_time_ c);
            Some (if decide (since <= double_click_within (thresholds_ c) ∧
                             exceeds_slop (press_at_ c) p (slop_px (thresholds_ c)) = false) then
                    ([MkGesture DoubleClick p button], with_state c PostDouble)
                  else
                    ([MkGesture Click (press_at_ c) (owner_button_ c)], begin_press button p now c))
        end
      end.

Definition handle_button_up (button : N) (position : option SpacePoint) (c : Classifier) :
    list GestureEvent * Classifier :=
  if negb (is_eligible_button button) then ([], c)
  else
    let '(marked, c) := mark_button_up button c in
    if negb marked || bool_decide (button ≠ owner_button_ c) then ([], c)
    else
      match state_ c with
      | Pressed =>
        if match position with
           | Some p => exceeds_slop (press_at_ c) p (slop_px (thresholds_ c))
           | None => false
           end
        then ([], with_owner (with_state c Idling) noButton)
        else ([], with_state c AwaitDouble)
      | Holding =>
        ([MkGesture HoldEnd (default (press_at_ c) position) (owner_button_ c)],
         with_owner (with_state c Idling) noButton)
      | Moving | Idling => ([], with_owner c noButton)
      | AwaitDouble | PostDouble => ([], c)
      end.

(** The switch of [feed]. *)
Definition handle (event : Event) (now : Z) (c : Classifier) : option (list GestureEvent * Classifier) :=
  match kind event, payload event with
  | EventKind.MouseMove, MouseMoveBy _ _ (Some position) => Some (handle_motion position now c)
  | EventKind.MouseButtonDown, MouseButton button _ position => handle_button_down button position now c
  | EventKind.MouseButtonUp, MouseButton button _ position => Some (handle_button_up button position c)
  | _, _ => Some ([], c)
  end.

Definition feed (event : Event) (c : Classifier) : option (list GestureEvent * Classifier) :=
  now ← event_time (timestamp event);
  '(due, c) ← process_deadline now c;
  '(output, c) ← handle event now c;
  Some (due ++ output, c).

(** A sequence of calls. *)
Inductive Input :=
  | Feeds (event : Event)
  | Advances (now : Z)
  | Resets.

Definition call (input : Input) (c : Classifier) : option (list GestureEvent * Classifier) :=
  match input with
  | Feeds event => feed event c
  | Advances now => advance now c
  | Resets => Some ([], reset c)
  end.

Fixpoint calls (inputs : list Input) (c : Classifier) : option (list GestureEvent * Classifier) :=
  match inputs with
  | [] => Some ([], c)
  | input :: inputs =>
    '(output, c) ← call input c;
    '(rest, c) ← calls inputs c;
    Some (output ++ rest, c)
  end.
End machine.

(** ** The buttons *)

Lemma eligible_cases b : is_eligible_button b = true → b = 1%N ∨ b = 2%N ∨ b = 3%N.
Proof. unfold is_eligible_button. rewrite bool_decide_eq_true. lia. Qed.

Lemma below_eight n : (n < 8)%N → n ∈ [0; 1; 2; 3; 4; 5; 6; 7]%N.
Proof. rewrite !elem_of_cons. lia. Qed.

(** What the mask says of each button after a press and after a release. *)
Lemma button_masks b o n :
  b ∈ [1; 2; 3]%N → o ∈ [1; 2; 3]%N → n ∈ [0; 1; 2; 3; 4; 5; 6; 7]%N →
  let down n o := bool_decide (N.land n (button_bit o) ≠ 0%N) in
  let pressed := (N.lor n (button_bit b) mod 256)%N in
  let released := (N.land n (N.lxor (button_bit b) 255) mod 256)%N in
  (pressed < 8 ∧ released < 8)%N ∧
  down pressed o = down n o || bool_decide (o = b) ∧
  down released o = down n o && negb (bool_decide (o = b)).
Proof.
  rewrite !elem_of_cons, !elem_of_nil. intros Hb Ho Hn.
  destruct_or! Hb; destruct_or! Ho; destruct_or! Hn; try done; subst; by vm_compute.
Qed.

Definition mask_ok (c : Classifier) : Prop := (buttons_down_ c < 8)%N.

Lemma mark_down_ok b c :
  is_eligible_button b = true → mask_ok c →
  let r := mark_button_down b c in
  r.1 = negb (button_is_down b c) ∧ mask_ok r.2 ∧
  ∀ o, button_is_down o r.2 = button_is_down o c || bool_decide (o = b).
Proof.
  intros E M r. assert (b ∈ [1; 2; 3]%N) as Hb by (rewrite !elem_of_cons; apply eligible_cases in E; naive_solver).
  pose proof (below_eight _ M) as Hn. split; [|split].
  - subst r. unfold mark_button_down, button_is_down. rewrite E. simpl.
    by destruct (decide (N.land (buttons_down_ c) (button_bit b) = 0%N)) as [->|];
      [|rewrite bool_decide_eq_false_2, bool_decide_eq_true_2].
  - apply (button_masks b b _ Hb Hb Hn).
  - intros o. unfold button_is_down. destruct (is_eligible_button o) eqn:Eo; simpl.
    + apply button_masks; [done| |done]. rewrite !elem_of_cons. apply eligible_cases in Eo. naive_solver.
    + by rewrite bool_decide_eq_false_2 by congruence.
Qed.

Lemma mark_up_ok b c :
  is_eligible_button b = true → mask_ok c →
  let r := mark_button_up b c in
  r.1 = button_is_down b c ∧ mask_ok r.2 ∧
  ∀ o, button_is_down o r.2 = button_is_down o c && negb (bool_decide (o = b)).
Proof.
  intros E M r. assert (b ∈ [1; 2; 3]%N) as Hb by (rewrite !elem_of_cons; apply eligible_cases in E; naive_solver).
  pose proof (below_eight _ M) as Hn. split; [|split].
  - subst r. unfold mark_button_up, button_is_down. by rewrite E.
  - apply (button_masks b b _ Hb Hb Hn).
  - intros o. unfold button_is_down. destruct (is_eligible_button o) eqn:Eo; simpl; [|done].
    apply button_masks; [done| |done]. rewrite !elem_of_cons. apply eligible_cases in Eo. naive_solver.
Qed.

(** ** The gestures *)

(** The language of the emitted gestures.  The state is the button of a hold that has
    begun and not ended. *)
Definition gesture_follows (held : option N) (g : GestureEvent) : option (option N) :=
  match gesture g, held with
  | (Move | Pause), None => if decide (gesture_button g = noButton) then Some None else None
  | (Click | DoubleClick), None => if is_eligible_button (gesture_button g) then Some None else None
  | Hold, None =>
    if is_eligible_button (gesture_button g) then Some (Some (gesture_button g)) else None
  | (HoldEnd | HoldCancel), Some b => if decide (gesture_button g = b) then Some None else None
  | _, _ => None
  end.

Fixpoint gestures_follow (held : option N) (l : list GestureEvent) : option (option N) :=
  match l with
  | [] => Some held
  | g :: l => held ← gesture_follows held g; gestures_follow held l
  end.

Definition held_of (c : Classifier) : option N :=
  if decide (state_ c = Holding) then Some (owner_button_ c) else None.

(** A press of one of the three buttons: which, where and when. *)
Record Press := MkPress { pressed_button : N; pressed_at : SpacePoint; pressed_when : Z }.

Definition press_of (event : Event) : option Press :=
  match kind event, payload event with
  | EventKind.MouseButtonDown, MouseButton button _ (Some position) =>
    if decide (1 <= button <= 3)%N then
      now ← event_time (timestamp event); Some (MkPress button position now)
    else None
  | _, _ => None
  end.

(** The presses among the inputs, in order. *)
Definition presses (inputs : list Input) : list Press :=
  omap (λ i, match i with Feeds event => press_of event | _ => None end) inputs.

(** The press that was taken and not told yet. *)
Definition pending (c : Classifier) : list Press :=
  match state_ c with
  | Pressed | AwaitDouble => [MkPress (owner_button_ c) (press_at_ c) (press_time_ c)]
  | _ => []
  end.

(** A time that an event or the clock can have. *)
Definition time_ok (now : Z) : Prop := 0 <= now < 2 ^ 63.

Lemma milliseconds_since_ok now since : time_ok now → time_ok since → milliseconds_since now since = Some (now - since).
Proof. unfold time_ok, milliseconds_since. intros. by rewrite decide_True by lia. Qed.

Lemma event_time_range x now : event_time x = Some now → now < 2 ^ 63.
Proof.
  unfold event_time, truncate. destruct (SFmul _ _ _ _); try done; [by intros [= <-]|].
  case_decide; [|done]. intros [= <-]. lia.
Qed.

Record classifier_ok (c : Classifier) : Prop := {
  ok_mask : mask_ok c;
  ok_owner : state_ c = Pressed ∨ state_ c = Holding ∨ state_ c = AwaitDouble →
             is_eligible_button (owner_button_ c) = true;
  ok_owner_down : state_ c = Pressed ∨ state_ c = Holding → button_is_down (owner_button_ c) c = true;
  ok_times : time_ok (press_time_ c) ∧ time_ok (last_motion_time_ c)
}.

Section machine_ok.
Context (hypot : double → double → double).

(** The presses a gesture tells.  A click or a hold tells one, by its button and its
    place; a double click tells two of its button, the second at its place, no further
    apart than the thresholds say. *)
Definition tells (t : GestureThresholds) (g : GestureEvent) (l : list Press) : Prop :=
  match gesture g with
  | Click | Hold => ∃ since, l = [MkPress (gesture_button g) (gesture_at g) since]
  | DoubleClick => ∃ first since now,
      l = [MkPress (gesture_button g) first since; MkPress (gesture_button g) (gesture_at g) now] ∧
      now - since <= double_click_within t ∧
      exceeds_slop hypot first (gesture_at g) (slop_px t) = false
  | Move | Pause | HoldEnd | HoldCancel => l = []
  end.

Definition all_tell (t : GestureThresholds) (gs : list GestureEvent) (l : list Press) : Prop :=
  ∃ ls, Forall2 (tells t) gs ls ∧ l = concat ls.

(** An operation that may take the presses [taken]: what it tells and what then waits was
    waiting before or is among them. *)
Definition step_ok (taken : list Press) (c : Classifier) (r : list GestureEvent * Classifier) : Prop :=
  classifier_ok r.2 ∧ thresholds_ r.2 = thresholds_ c ∧
  gestures_follow (held_of c) r.1 = Some (held_of r.2) ∧
  ∃ told, all_tell (thresholds_ c) r.1 told ∧ told ++ pending r.2 `sublist_of` pending c ++ taken.

Lemma gestures_follow_app l l' held held' :
  gestures_follow held l = Some held' → gestures_follow held (l ++ l') = gestures_follow held' l'.
Proof.
  revert held. induction l as [|g l IH]; simpl; intros held E; [by simplify_eq|].
  apply bind_Some in E as (h & -> & E). simpl. by apply IH.
Qed.

Lemma step_ok_then taken taken' c r r' :
  step_ok taken c r → step_ok taken' r.2 r' → step_ok (taken ++ taken') c (r.1 ++ r'.1, r'.2).
Proof.
  intros (K & T & G & told & (ls & F & ->) & S) (K' & T' & G' & told' & (ls' & F' & ->) & S').
  split; [done|]. split; [simpl; congruence|]. split.
  - simpl. by rewrite (gestures_follow_app _ _ _ _ G).
  - rewrite T in F'. exists (concat ls ++ concat ls'). split.
    + exists (ls ++ ls'). split; [by apply Forall2_app|by rewrite concat_app].
    + simpl. rewrite <-app_assoc, (app_assoc (pending c)).
      transitivity (concat ls ++ (pending r.2 ++ taken')); [by apply sublist_app|].
      rewrite app_assoc. by apply sublist_app.
Qed.

Lemma all_tell_nil t : all_tell t [] [].
Proof. exists []. done. Qed.

Lemma all_tell_one t g l : tells t g l → all_tell t [g] l.
Proof. intros H. exists [l]. split; [by repeat constructor|]. simpl. by rewrite app_nil_r. Qed.

Lemma all_tell_cons t g gs l l' : tells t g l → all_tell t gs l' → all_tell t (g :: gs) (l ++ l').
Proof. intros H (ls & F & ->). exists (l :: ls). split; [by constructor|done]. Qed.

Lemma step_ok_none taken c : classifier_ok c → step_ok taken c ([], c).
Proof.
  intros K. split_and!; [done..|]. exists []. split; [apply all_tell_nil|]. simpl. apply sublist_inserts_r. done.
Qed.

(** A state in which nothing is said of the owner. *)
Lemma ok_quiet c :
  mask_ok c → time_ok (press_time_ c) → time_ok (last_motion_time_ c) →
  state_ c = Idling ∨ state_ c = Moving ∨ state_ c = PostDouble → classifier_ok c.
Proof. intros M T1 T2 S. split; [done|..|done]; intros H; destruct_or! S; destruct_or! H; congruence. Qed.

Ltac quiet := apply ok_quiet; simpl; first [assumption | tauto].

(** The parts of [step_ok] for an operation that tells [l]. *)
Ltac telling l :=
  split; [try quiet|split; [try done|split; [unfold gesture_follows, held_of; simpl|exists l; split]]].

Lemma process_deadline_ok now c :
  time_ok now → classifier_ok c → ∃ r, process_deadline now c = Some r ∧ step_ok [] c r.
Proof.
  intros Hn K. pose proof K as [M O D [T1 T2]]. unfold process_deadline.
  destruct (state_ c) eqn:S; try (by eexists; split; [done|apply step_ok_none]);
    rewrite milliseconds_since_ok by done; simpl; (eexists; split; [done|]);
    case_decide; try (by apply step_ok_none); unfold step_ok, held_of, pending; rewrite S; simpl.
  - telling (@nil Press); [done|by apply all_tell_one|done].
  - telling [MkPress (owner_button_ c) (press_at_ c) (press_time_ c)].
    + split; simpl; [done|by auto|intros _; by apply D; auto|done].
    + by rewrite O by auto.
    + apply all_tell_one. by eexists.
    + done.
  - telling [MkPress (owner_button_ c) (press_at_ c) (press_time_ c)].
    + destruct (negb _); quiet.
    + by destruct (negb _).
    + rewrite O by auto. by destruct (negb _).
    + apply all_tell_one. by eexists.
    + by destruct (negb _).
Qed.

Lemma handle_motion_ok position now c :
  time_ok now → classifier_ok c → step_ok [] c (handle_motion hypot position now c).
Proof.
  intros Hn K. pose proof K as [M O D [T1 T2]]. unfold handle_motion.
  destruct (exceeds_slop _ _ _ _); destruct (state_ c) eqn:S; try (by apply step_ok_none);
    unfold step_ok, held_of, pending; rewrite S; simpl.
  1, 2, 3, 7, 8: telling (@nil Press); [done|by apply all_tell_one|by try apply sublist_nil_l].
  - telling (@nil Press); [by rewrite decide_True|by apply (all_tell_cons _ _ _ [] []), all_tell_one|done].
  - telling [MkPress (owner_button_ c) (press_at_ c) (press_time_ c)].
    + by rewrite O by auto.
    + apply (all_tell_cons _ _ _ [_] []); [by eexists|by apply all_tell_one].
    + done.
  - telling (@nil Press); [by destruct (negb _); quiet|by destruct (negb _)|done|by apply all_tell_one|done].
  - telling (@nil Press); [by destruct (negb _); quiet|by destruct (negb _)|done|by apply all_tell_one|done].
Qed.

(** The press that a button pressed at an optional place amounts to. *)
Definition press_here (button : N) (position : option SpacePoint) (now : Z) : list Press :=
  match position with Some p => [MkPress button p now] | None => [] end.

Lemma claim_ok owner_is_down button position now c :
  is_eligible_button button = true → button_is_down button c = true → time_ok now → mask_ok c →
  time_ok (press_time_ c) → time_ok (last_motion_time_ c) →
  state_ c = Idling ∨ state_ c = Moving ∨ state_ c = PostDouble →
  step_ok (press_here button position now) c ([], claim owner_is_down button position now c).
Proof.
  intros E Dn Hn M T1 T2 S. assert (pending c = []) as U by (unfold pending; destruct_or! S; by rewrite S).
  assert (held_of c = None) as Hh by (unfold held_of; destruct_or! S; by rewrite S).
  assert (classifier_ok c) as K by (by apply ok_quiet).
  unfold claim. destruct owner_is_down; [by apply step_ok_none|]. unfold step_ok. rewrite U, Hh. simpl.
  destruct position as [p|]; simpl.
  - split_and!; [split; simpl; [done|done|intros _; exact Dn|done]|done..|].
    exists []. split; [apply all_tell_nil|done].
  - split_and!; [by apply ok_quiet|done|unfold held_of; simpl; by destruct_or! S; rewrite S|].
    exists []. split; [apply all_tell_nil|]. unfold pending. simpl. by destruct_or! S; rewrite S.
Qed.

Lemma step_ok_from taken c c' r :
  state_ c' = state_ c → owner_button_ c' = owner_button_ c → press_at_ c' = press_at_ c →
  press_time_ c' = press_time_ c → thresholds_ c' = thresholds_ c → step_ok taken c' r → step_ok taken c r.
Proof. unfold step_ok, held_of, pending. by intros -> -> -> -> ->. Qed.

Lemma mark_down_keeps b c :
  classifier_ok c → is_eligible_button b = true → classifier_ok (mark_button_down b c).2.
Proof.
  intros [M O D T] E. destruct (mark_down_ok b c E M) as (_ & M' & H). split; [done|done| |done].
  intros S. rewrite H. simpl. by rewrite D.
Qed.

Lemma mark_up_keeps b c :
  classifier_ok c → is_eligible_button b = true → b ≠ owner_button_ c → classifier_ok (mark_button_up b c).2.
Proof.
  intros [M O D T] E Ne. destruct (mark_up_ok b c E M) as (_ & M' & H). split; [done|done| |done].
  intros S. rewrite H. simpl. rewrite D by done. by rewrite bool_decide_eq_false_2.
Qed.

Lemma handle_button_down_ok button position now c :
  time_ok now → classifier_ok c →
  ∃ r, handle_button_down hypot button position now c = Some r ∧
    step_ok (if is_eligible_button button then press_here button position now else []) c r.
Proof.
  intros Hn K. unfold handle_button_down.
  destruct (is_eligible_button button) eqn:E; cbn [negb]; [|by eexists; split; [|apply step_ok_none]].
  destruct (mark_down_ok button c E (ok_mask c K)) as (_ & M' & H).
  pose proof (mark_down_keeps button c K E) as K'.
  set (owner_down := button_is_down (owner_button_ c) c).
  assert (∃ m, mark_button_down button c = (m, (mark_button_down button c).2)) as [marked Em] by (by eexists).
  assert (button_is_down button (mark_button_down button c).2 = true) as Dn
    by (rewrite H, (bool_decide_eq_true_2 (button = button)) by done; apply orb_true_r).
  pose proof (λ taken r, step_ok_from taken c (mark_button_down button c).2 r eq_refl eq_refl eq_refl eq_refl eq_refl)
    as From.
  rewrite Em. clear Em. revert M' H K' Dn From. generalize (mark_button_down button c).2.
  intros c' M' H K' Dn From.
  pose proof K' as [_ O' D' [T1 T2]]. destruct marked; simpl; [|by eexists; split; [|apply From, step_ok_none]].
  destruct (state_ c') eqn:S;
    try (by eexists; split; [done|apply From, step_ok_none]);
    try (by eexists; split; [done|apply From, claim_ok; auto]).
  destruct position as [p|]; [|by eexists; split; [|apply From, step_ok_none]].
  case_decide as Co; [by eexists; split; [|apply From, step_ok_none]|].
  rewrite milliseconds_since_ok by done. simpl. eexists. split; [done|]. apply From. subst button.
  case_decide as Hw; unfold step_ok, held_of, pending; rewrite S; simpl.
  - telling [MkPress (owner_button_ c') (press_at_ c') (press_time_ c'); MkPress (owner_button_ c') p now].
    + by rewrite E.
    + apply all_tell_one. unfold tells. simpl. by eexists _, _, _.
    + done.
  - telling [MkPress (owner_button_ c') (press_at_ c') (press_time_ c')].
    + split; simpl; [done|done|intros _; exact Dn|done].
    + by rewrite E.
    + apply all_tell_one. by eexists.
    + done.
Qed.

Lemma handle_button_up_ok button position c :
  classifier_ok c → step_ok [] c (handle_button_up hypot button position c).
Proof.
  intros K. unfold handle_button_up. destruct (is_eligible_button button) eqn:E; cbn [negb]; [|by apply step_ok_none].
  destruct (mark_up_ok button c E (ok_mask c K)) as (_ & M' & H).
  pose proof (mark_up_keeps button c K E) as K'.
  destruct (mark_button_up button c) as [marked c'] eqn:Em. simpl in *.
  assert (marked = button_is_down button c) as Emk
    by (unfold mark_button_up in Em; simplify_eq; unfold button_is_down; by rewrite E).
  assert (state_ c' = state_ c ∧ owner_button_ c' = owner_button_ c ∧ press_at_ c' = press_at_ c ∧
    press_time_ c' = press_time_ c ∧ thresholds_ c' = thresholds_ c ∧ last_motion_time_ c' = last_motion_time_ c)
    as (Es & Eo & Ea & Et & Eth & El) by (unfold mark_button_up in Em; by simplify_eq).
  pose proof (ok_times c K) as [T1 T2]. rewrite <-Et in T1. rewrite <-El in T2.
  apply (step_ok_from _ _ c' _ Es Eo Ea Et Eth). case_bool_decide as Co.
  { rewrite orb_true_r. apply step_ok_none, K'. congruence. }
  rename Co into Eb. rewrite orb_false_r.
  destruct marked; simpl.
  2: { apply step_ok_none. split; [done| | |done]; intros S.
       - rewrite Es in S. rewrite Eo. by apply K.
       - rewrite Es in S. pose proof (ok_owner_down c K S) as D. rewrite <-Eo, <-Eb in D. congruence. }
  destruct (state_ c') eqn:S; unfold step_ok, held_of, pending; rewrite S; simpl; rewrite ?S.
  1, 2: (telling (@nil Press); [done|apply all_tell_nil|done]).
  - destruct (match position with Some p => _ | None => false end); simpl.
    + telling (@nil Press); [done|apply all_tell_nil|by apply sublist_nil_l].
    + telling (@nil Press); [|done|apply all_tell_nil|done].
      split; simpl; [done|intros _; congruence|intros [?|?]; done|done].
  - telling (@nil Press); [by rewrite decide_True|by apply all_tell_one|done].
  - telling (@nil Press); [|done|apply all_tell_nil|done].
    split; simpl; rewrite ?S; [done|intros _; congruence|intros [?|?]; done|done].
  - telling (@nil Press); [done|apply all_tell_nil|done].
Qed.

Lemma handle_ok event now c :
  event_time (timestamp event) = Some now → time_ok now → classifier_ok c →
  ∃ r, handle hypot event now c = Some r ∧ step_ok (option_list (press_of event)) c r.
Proof.
  intros En Hn K. unfold handle, press_of. rewrite En.
  destruct (kind event); try (by eexists; split; [|apply step_ok_none]);
    destruct (payload event); try (by eexists; split; [|apply step_ok_none]).
  - destruct position; (eexists; split; [done|]); [by apply handle_motion_ok|by apply step_ok_none].
  - destruct (handle_button_down_ok button position now c Hn K) as (r & -> & H). exists r. split; [done|].
    unfold is_eligible_button in H. destruct position; simpl in H; [|by case_bool_decide].
    by destruct (decide _); [rewrite bool_decide_eq_true_2 in H|rewrite bool_decide_eq_false_2 in H].
  - eexists. split; [done|]. by apply handle_button_up_ok.
Qed.

Lemma feed_ok event c now :
  event_time (timestamp event) = Some now → time_ok now → classifier_ok c →
  ∃ r, feed hypot event c = Some r ∧ step_ok (option_list (press_of event)) c r.
Proof.
  intros T Hn K. unfold feed. rewrite T. simpl.
  destruct (process_deadline_ok now c Hn K) as ([due c1] & -> & H). simpl.
  destruct (handle_ok event now c1 T Hn (proj1 H)) as ([out c2] & -> & H2). simpl.
  eexists. split; [done|]. exact (step_ok_then [] _ c (due, c1) (out, c2) H H2).
Qed.

(** Times are in range: the time stamp of an event converts to milliseconds, and no time
    is before zero. *)
Definition timed (input : Input) : Prop :=
  match input with
  | Feeds event => ∃ now, event_time (timestamp event) = Some now ∧ 0 <= now
  | Advances now => time_ok now
  | Resets => True
  end.

Definition is_reset (input : Input) : Prop := match input with Resets => True | _ => False end.

Lemma calls_ok inputs c :
  classifier_ok c → Forall timed inputs → Forall (λ i, ¬ is_reset i) inputs →
  ∃ r, calls hypot inputs c = Some r ∧ step_ok (presses inputs) c r.
Proof.
  revert c. induction inputs as [|input inputs IH]; intros c K T R.
  - eexists. split; [done|]. by apply step_ok_none.
  - apply Forall_cons in T as [T1 T]. apply Forall_cons in R as [R1 R]. cbn [calls].
    assert (∃ r, call hypot input c = Some r ∧
      step_ok (match input with Feeds event => option_list (press_of event) | _ => [] end) c r) as ([out c1] & -> & H1).
    { destruct input as [event|now|]; [|by apply process_deadline_ok|by destruct R1].
      destruct T1 as (now & E & Hn). apply (feed_ok event c now); [done|split; [done|by eapply event_time_range]|done]. }
    simpl. destruct (IH c1 (proj1 H1) T R) as ([rest c2] & -> & H2). simpl.
    eexists. split; [done|].
    pose proof (step_ok_then _ _ c (out, c1) (rest, c2) H1 H2) as H.
    unfold presses in *. simpl. by destruct input as [event| |]; [destruct (press_of event)|..].
Qed.

(** *** Which buttons are down *)

(** What an input does to a button. *)
Definition button_after (b : N) (down : bool) (input : Input) : bool :=
  match input with
  | Feeds event =>
    match kind event, payload event with
    | EventKind.MouseButtonDown, MouseButton b' _ _ => down || bool_decide (b = b')
    | EventKind.MouseButtonUp, MouseButton b' _ _ => down && negb (bool_decide (b = b'))
    | _, _ => down
    end
  | Advances _ => down
  | Resets => false
  end.

Lemma down_same b c c' : buttons_down_ c' = buttons_down_ c → button_is_down b c' = button_is_down b c.
Proof. unfold button_is_down. by intros ->. Qed.

Lemma process_deadline_buttons now c r :
  process_deadline now c = Some r → buttons_down_ r.2 = buttons_down_ c.
Proof.
  unfold process_deadline. destruct (state_ c); try (by intros [= <-]);
    intros (since & _ & [= <-])%bind_Some; case_decide; try done. simpl. by destruct (negb _).
Qed.

Lemma handle_motion_buttons position now c :
  buttons_down_ (handle_motion hypot position now c).2 = buttons_down_ c.
Proof.
  unfold handle_motion. destruct (exceeds_slop _ _ _ _), (state_ c); try done; simpl; by destruct (negb _).
Qed.

Lemma handle_button_down_buttons button position now c r :
  is_eligible_button button = true → handle_button_down hypot button position now c = Some r →
  buttons_down_ r.2 = buttons_down_ (mark_button_down button c).2.
Proof.
  intros E. unfold handle_button_down. rewrite E. cbn [negb].
  destruct (mark_button_down button c) as [[] c']; simpl; [|by intros [= <-]].
  assert (∀ o, buttons_down_ (claim o button position now c') = buttons_down_ c') as Cl
    by (intros []; [done|by destruct position]).
  destruct (state_ c'); simpl; try (by intros [= <-]); try (intros [= <-]; apply Cl).
  destruct position; [|by intros [= <-]]. case_decide; [by intros [= <-]|].
  intros (since & _ & [= <-])%bind_Some. by case_decide.
Qed.

Lemma handle_button_up_buttons button position c :
  is_eligible_button button = true →
  buttons_down_ (handle_button_up hypot button position c).2 = buttons_down_ (mark_button_up button c).2.
Proof.
  intros E. unfold handle_button_up. rewrite E. cbn [negb].
  destruct (mark_button_up button c) as [m c']; simpl. destruct (negb m || _); [done|].
  destruct (state_ c'); simpl; try done. by destruct (match position with Some p => _ | None => false end).
Qed.

Lemma handle_buttons event now c b r :
  is_eligible_button b = true → mask_ok c → handle hypot event now c = Some r →
  mask_ok r.2 ∧ button_is_down b r.2 = button_after b (button_is_down b c) (Feeds event).
Proof.
  intros E M. unfold handle, button_after, mask_ok.
  destruct (kind event); try (by intros [= <-]); destruct (payload event); try (by intros [= <-]).
  - destruct position; intros [= <-]; [|done]. rewrite handle_motion_buttons. split; [done|].
    apply down_same, handle_motion_buttons.
  - destruct (is_eligible_button button) eqn:Eb.
    + destruct (mark_down_ok button c Eb M) as (_ & M' & H).
      intros Er%handle_button_down_buttons; [|done]. rewrite Er. split; [done|].
      rewrite (down_same b _ _ Er). by rewrite H.
    + unfold handle_button_down. rewrite Eb. simpl. intros [= <-]. split; [done|].
      rewrite bool_decide_eq_false_2 by congruence. by rewrite orb_false_r.
  - intros [= <-]. destruct (is_eligible_button button) eqn:Eb.
    + destruct (mark_up_ok button c Eb M) as (_ & M' & H).
      rewrite handle_button_up_buttons by done. split; [done|].
      rewrite (down_same b _ _ (handle_button_up_buttons button position c Eb)). by rewrite H.
    + unfold handle_button_up. rewrite Eb. simpl. split; [done|].
      rewrite bool_decide_eq_false_2 by congruence. by rewrite andb_true_r.
Qed.

Lemma call_buttons input c r b :
  is_eligible_button b = true → mask_ok c → call hypot input c = Some r →
  mask_ok r.2 ∧ button_is_down b r.2 = button_after b (button_is_down b c) input.
Proof.
  intros E M. destruct input as [event|now|]; simpl.
  - unfold feed. intros (now & _ & ([due c1] & D1 & ([out c2] & H1 & [= <-])%bind_Some)%bind_Some)%bind_Some.
    apply process_deadline_buttons in D1. simpl in D1.
    assert (mask_ok c1) as M1 by (unfold mask_ok; by rewrite D1).
    apply (handle_buttons event now c1 b (out, c2) E M1) in H1. by rewrite (down_same b _ _ D1) in H1.
  - intros D%process_deadline_buttons. unfold mask_ok. rewrite D. split; [done|]. by apply down_same.
  - intros [= <-]. split; [done|]. unfold button_is_down. simpl. by rewrite andb_false_r.
Qed.

Lemma calls_buttons inputs c r b :
  is_eligible_button b = true → mask_ok c → calls hypot inputs c = Some r →
  button_is_down b r.2 = foldl (button_after b) (button_is_down b c) inputs.
Proof.
  intros E. revert c r. induction inputs as [|input inputs IH]; intros c r M; cbn [calls].
  - by intros [= <-].
  - intros ([out c1] & E1 & ([rest c2] & E2 & H)%bind_Some)%bind_Some. simplify_eq. simpl in *.
    destruct (call_buttons _ _ _ b E M E1) as [M1 D1]. rewrite <-D1. by apply (IH c1 (rest, c2)).
Qed.
(** *** Presses are told *)

(** Left alone for long enough, a press that waits is told, and none is left. *)
Lemma waiting_told now c out c' :
  classifier_ok c → advance now c = Some (out, c') →
  hold_after (thresholds_ c) <= now - press_time_ c →
  double_click_within (thresholds_ c) < now - press_time_ c →
  all_tell (thresholds_ c) out (pending c) ∧ pending c' = [].
Proof.
  intros K. unfold advance, process_deadline, pending, milliseconds_since.
  destruct (state_ c) eqn:S; try (intros [= <- <-]; rewrite S; split; [apply all_tell_nil|done]);
    intros (since & E & [= E'])%bind_Some H1 H2; case_decide; simplify_eq; case_decide; simplify_eq; simpl;
    rewrite ?S; try done; (split; [|by try destruct (negb _)]);
    try apply all_tell_nil; apply all_tell_one; try done; by eexists.
Qed.

(** With no button down and no press waiting, a press is taken. *)
Lemma press_taken event press c out c' :
  classifier_ok c → press_of event = Some press → pending c = [] →
  (∀ b, is_eligible_button b = true → button_is_down b c = false) →
  feed hypot event c = Some (out, c') → pending c' = [press].
Proof.
  intros K Ep P Up. unfold feed. intros (now & En & ([due c1] & E1 & ([o2 c2] & E2 & E)%bind_Some)%bind_Some)%bind_Some.
  injection E as <- <-. pose proof (process_deadline_buttons _ _ _ E1) as B1. simpl in B1.
  assert (state_ c1 = Idling ∨ state_ c1 = Moving ∨ state_ c1 = PostDouble) as S1.
  { unfold process_deadline in E1. unfold pending in P. destruct (state_ c) eqn:S; try done; try (by simplify_eq; auto).
    - apply bind_Some in E1 as (since & _ & [= E1]). case_decide; simplify_eq; auto.
    - pose proof (ok_owner_down c K (or_intror S)) as D. rewrite Up in D; [done|]. apply K. auto. }
  assert (∀ b, button_is_down b c1 = false) as Up1.
  { intros b. rewrite (down_same b _ _ B1). destruct (is_eligible_button b) eqn:Eb; [by apply Up|].
    unfold button_is_down. by rewrite Eb. }
  assert (mask_ok c1) as M1 by (unfold mask_ok; rewrite B1; apply K).
  unfold press_of in Ep. rewrite En in Ep. unfold handle in E2.
  destruct (kind event); try done; destruct (payload event); try done.
  destruct position as [p|]; [|done]. case_decide as Hb; [|done]. injection Ep as <-.
  unfold handle_button_down in E2. assert (is_eligible_button button = true) as Eb by (by apply bool_decide_eq_true_2).
  rewrite Eb in E2. cbn [negb] in E2. rewrite Up1 in E2.
  destruct (mark_down_ok button c1 Eb M1) as (F & _). rewrite Up1 in F.
  assert (state_ (mark_button_down button c1).2 = state_ c1) as S2 by done.
  destruct (mark_button_down button c1) as [m c3]. simpl in F, S2. subst m. cbn [negb] in E2.
  destruct_or! S1; rewrite S2, S1 in E2; by injection E2 as <- <-.
Qed.
End machine_ok.

Lemma new_classifier_ok thresholds : classifier_ok (new_classifier thresholds).
Proof. by apply ok_quiet; [vm_compute|..|left]. Qed.

(** ** The properties *)

(** C31: the gestures of a pointer are well formed.  Whatever is fed to a new classifier
    and however its clock is advanced, with times that are not negative and convert to
    milliseconds, and without a reset: it answers, and never overflows.  Each hold is ended
    or cancelled, for the same button, before any other gesture, and nothing is ended that
    was not held.  Every press that is told was made: a click or a hold tells one press, of
    its button at its place, a double click two of its button, the second at its place and
    the two as close as the thresholds ask; presses are told in the order in which they were
    made, none of them twice, and the one that still waits is after those.  A press made
    while none of the three buttons is down and none waits is taken, and a press that waits is told once
    the clock has passed both thresholds.  A reset leaves a new classifier. *)
Theorem gestures_well_formed hypot thresholds inputs :
  Forall timed inputs → Forall (λ i, ¬ is_reset i) inputs →
  ∃ output c, calls hypot inputs (new_classifier thresholds) = Some (output, c) ∧
    gestures_follow None output = Some (held_of c) ∧
    (∃ told, all_tell hypot thresholds output told ∧ told ++ pending c `sublist_of` presses inputs) ∧
    (∀ event press, timed (Feeds event) → press_of event = Some press → pending c = [] →
       (∀ b, is_eligible_button b = true → foldl (button_after b) false inputs = false) →
       ∃ out c', feed hypot event c = Some (out, c') ∧ pending c' = [press]) ∧
    (∀ now, time_ok now →
       hold_after thresholds <= now - press_time_ c → double_click_within thresholds < now - press_time_ c →
       ∃ out c', advance now c = Some (out, c') ∧ all_tell hypot thresholds out (pending c) ∧ pending c' = []) ∧
    reset c = new_classifier thresholds.
Proof.
  intros T R.
  destruct (calls_ok hypot inputs _ (new_classifier_ok thresholds) T R) as ([output c] & E & K & Th & G & P).
  simpl in K, Th. exists output, c. split_and!; [done|exact G|exact P| | |unfold reset; by rewrite Th].
  - intros event press (now & En & Hn) Ep W Up.
    destruct (feed_ok hypot event c now En) as ([out c'] & Ef & _);
      [split; [done|by eapply event_time_range]|done|].
    exists out, c'. split; [done|]. apply (press_taken hypot event press c out c'); try done.
    intros b Eb. pose proof (calls_buttons hypot inputs _ _ b Eb (ok_mask _ (new_classifier_ok thresholds)) E) as D.
    simpl in D. rewrite D. rewrite <-(Up b Eb). f_equal. unfold button_is_down. by rewrite andb_false_r.
  - rewrite <-Th. intros now Hn H1 H2.
    destruct (process_deadline_ok hypot now c Hn K) as ([out c'] & Ed & _). exists out, c'.
    split; [exact Ed|]. by apply (waiting_told hypot now c out c').
Qed.

(** The button mask is the pointer's.  After any inputs, resets included, a button is
    down for the classifier exactly when the last thing said of it since the last reset
    was a press. *)
Theorem buttons_are_tracked hypot thresholds inputs output c b :
  is_eligible_button b = true →
  calls hypot inputs (new_classifier thresholds) = Some (output, c) →
  button_is_down b c = foldl (button_after b) false inputs.
Proof.
  intros Eb E. assert (mask_ok (new_classifier thresholds)) as M by done.
  pose proof (calls_buttons hypot inputs _ _ b Eb M E) as H. simpl in H. rewrite H. f_equal.
  unfold button_is_down. by rewrite andb_false_r.
Qed.

(** *** A small case *)

(** The larger of two distances, for a [std::hypot]. *)
Definition larger (x y : double) : double :=
  let x := SFabs x in let y := SFabs y in if SFltb x y then y else x.

Definition pointer_event (seconds : Z) (k : EventKind) (b : N) (x : Z) : Input :=
  Feeds (MkEvent (double_of_integer seconds) 0 k EventCategory.Input
    (match k with
     | EventKind.MouseMove => MouseMoveBy "" zero (Some (MkSpacePoint (double_of_integer x) zero (MkSpace 0)))
     | _ => MouseButton b "" (Some (MkSpacePoint (double_of_integer x) zero (MkSpace 0)))
     end) EventOrigin.Physical None None None None).

(** Press, hold for two seconds, leave, release; then a click. *)
Definition held_then_clicked : list Input := [
  pointer_event 1 EventKind.MouseButtonDown 1 10; Advances 2000; pointer_event 3 EventKind.MouseMove 0 90;
  pointer_event 4 EventKind.MouseButtonUp 1 90; pointer_event 5 EventKind.MouseButtonDown 3 90;
  pointer_event 5 EventKind.MouseButtonUp 3 90; Advances 6000].

Lemma gestures_well_formed_witness :
  ∃ output c, calls larger held_then_clicked (new_classifier default_thresholds) = Some (output, c) ∧
    gesture <$> output = [Hold; HoldCancel; Move; Pause; Click] ∧ gestures_follow None output = Some None ∧
    ∃ told, all_tell larger default_thresholds output told ∧ told ++ pending c `sublist_of` presses held_then_clicked.
Proof.
  destruct (gestures_well_formed larger default_thresholds held_then_clicked) as (output & c & E & G & P & _).
  - repeat (apply Forall_cons_2; [first [by split | eexists; split; [vm_compute; reflexivity|done]]|]).
    apply Forall_nil_2.
  - repeat (apply Forall_cons_2; [by intros []|]). apply Forall_nil_2.
  - exists output, c. split; [exact E|]. split; [|split; [|exact P]]; revert E G; vm_compute; by intros [= <- <-].
Defined.

Lemma buttons_are_tracked_witness :
  ∃ output c, calls larger (take 2 held_then_clicked) (new_classifier default_thresholds) = Some (output, c) ∧
    button_is_down 1 c = true.
Proof.
  destruct (calls larger (take 2 held_then_clicked) (new_classifier default_thresholds)) as [[output c]|] eqn:E.
  - exists output, c. split; [done|].
    by rewrite (buttons_are_tracked larger default_thresholds (take 2 held_then_clicked) output c 1 eq_refl E).
  - exfalso. by vm_compute in E.
Defined.
