(* ===== verification/Routing.v ===== *)
(** Which provider serves a capability ([kernel/routing/], [include/grab/capability.hpp]).

    A provider is named by its place in the registry.  What it answers to a probe may
    change from one probe to the next, so [probe] is given the number of probes made
    before; a resolver keeps that count beside its cache.  The lock of [resolve] makes a
    call one step. *)

From S2P Require Import Prelude EnumTable Errors.

Local Open Scope Z_scope.

(** ** Data *)

Module AvailabilityState.

Inductive AvailabilityState : Type :=
  | Available | Degraded | NeedsPermission | Unavailable | Count.

End AvailabilityState.
Abbreviation AvailabilityState := AvailabilityState.AvailabilityState.

#[export] Instance AvailabilityState_eq_dec : EqDecision AvailabilityState.
Proof. solve_decision. Defined.

Module Capability.

Inductive Capability : Type :=
  | ScreenDisplayImage | ScreenDisplayVideo | ScreenWindowImage | ScreenActiveWindowImage
  | ScreenUserSelectedImage | EventKeyGlobal | EventMouseGlobal | EventWindowFocus
  | EventWindowList | WindowFind | WindowGeometry | MouseMove | MouseMoveAbsolute
  | MouseMoveRelative | MouseClick | MouseDrag | KeyText | KeyChord | Overlay | Count.

End Capability.
Abbreviation Capability := Capability.Capability.

#[export] Instance Capability_eq_dec : EqDecision Capability.
Proof. solve_decision. Defined.

Definition availabilityStateNames : list (AvailabilityState * string) := [
  (AvailabilityState.Available, "available"); (AvailabilityState.Degraded, "degraded");
  (AvailabilityState.NeedsPermission, "needs-permission");
  (AvailabilityState.Unavailable, "unavailable")]%string.

Definition capabilityNames : list (Capability * string) := [
  (Capability.ScreenDisplayImage, "screen.display.image");
  (Capability.ScreenDisplayVideo, "screen.display.video");
  (Capability.ScreenWindowImage, "screen.window.image");
  (Capability.ScreenActiveWindowImage, "screen.active_window.image");
  (Capability.ScreenUserSelectedImage, "screen.user_selected.image");
  (Capability.EventKeyGlobal, "event.key.global");
  (Capability.EventMouseGlobal, "event.mouse.global");
  (Capability.EventWindowFocus, "event.window.focus");
  (Capability.EventWindowList, "event.window.list");
  (Capability.WindowFind, "window.find");
  (Capability.WindowGeometry, "window.geometry");
  (Capability.MouseMove, "mouse.move");
  (Capability.MouseMoveAbsolute, "mouse.move.absolute");
  (Capability.MouseMoveRelative, "mouse.move.relative");
  (Capability.MouseClick, "mouse.click");
  (Capability.MouseDrag, "mouse.drag");
  (Capability.KeyText, "key.text");
  (Capability.KeyChord, "key.chord");
  (Capability.Overlay, "overlay")]%string.

Definition state_name (state : AvailabilityState) : string :=
  text_of availabilityStateNames state "unavailable".

Definition capability_name (capability : Capability) : string := text_of capabilityNames capability "".

Definition capability_from_string (id : string) : option Capability := value_of capabilityNames id.

(** The value of a name, the empty one included. *)
Definition named_capability (id : string) : option Capability :=
  if decide (id = ""%string) then Some Capability.Count else capability_from_string id.

Lemma named_capability_name c : named_capability (capability_name c) = Some c.
Proof. by destruct c. Qed.

#[export] Instance Capability_countable : Countable Capability :=
  inj_countable capability_name named_capability named_capability_name.

Record Availability := MkAvailability {
  av_state : AvailabilityState; av_reason : string; av_quality : Z
}.

Inductive SessionType := SessionUnknown | X11 | Wayland | Headless.

#[export] Instance SessionType_eq_dec : EqDecision SessionType.
Proof. solve_decision. Defined.

Record InputDeviceAccess := MkDevice { device_path : string; readable : bool }.

Record Environment := MkEnvironment {
  session : SessionType;
  xwayland_present : bool;
  compositor : string;
  desktop : string;
  input_devices : list InputDeviceAccess;
  uinput_writable : bool;
  generation : N
}.

Record ProviderInfo := MkInfo {
  provider_name : string; provider_capabilities : list Capability; provider_quality : Z
}.

(** ** The environment ([prober.cpp]) *)

Record SystemFacts := MkFacts {
  get_env : string → option string;
  path_readable : string → bool;
  path_writable : string → bool;
  list_input_devices : list string
}.

(** A variable that is set, and not to the empty string. *)
Definition has_text (value : option string) : bool :=
  match value with Some text => negb (bool_decide (text = ""%string)) | None => false end.

Definition probe_environment (facts : SystemFacts) : Environment :=
  let wayland := get_env facts "WAYLAND_DISPLAY" in
  let x11 := get_env facts "DISPLAY" in
  MkEnvironment
    (if has_text wayland then Wayland else if has_text x11 then X11 else Headless)
    (has_text wayland && has_text x11)
    ""
    (default ""%string (get_env facts "XDG_CURRENT_DESKTOP"))
    ((λ path, MkDevice path (path_readable facts path)) <$> list_input_devices facts)
    (path_writable facts "/dev/uinput")
    0.

(** ** The resolver ([registry.cpp], [resolver.cpp]) *)

Record CapabilityRequest := MkRequest {
  req_capability : Capability;
  target_class : string;
  target_key : string;
  prefer_permission_over_degraded : bool
}.

Record Resolution := MkResolution { chain : list nat; best : Availability }.

Record CacheKey := MkCacheKey {
  key_generation : N; key_capability : Capability; key_class : string; key_target : string;
  key_prefer : bool
}.

#[export] Instance CacheKey_eq_dec : EqDecision CacheKey.
Proof. solve_decision. Defined.
#[export] Program Instance CacheKey_countable : Countable CacheKey :=
  inj_countable' (λ k, (key_generation k, key_capability k, key_class k, key_target k, key_prefer k))
    (λ '(g, c, k, t, p), MkCacheKey g c k t p) _.
Next Obligation. by intros []. Qed.

Definition cache_key (request : CapabilityRequest) (env : Environment) : CacheKey :=
  MkCacheKey (generation env) (req_capability request) (target_class request) (target_key request)
    (prefer_permission_over_degraded request).

Definition rank (state : AvailabilityState) (prefer_permission : bool) : Z :=
  match state with
  | AvailabilityState.Available => 0
  | AvailabilityState.Degraded => if prefer_permission then 2 else 1
  | AvailabilityState.NeedsPermission => if prefer_permission then 1 else 2
  | AvailabilityState.Count | AvailabilityState.Unavailable => 3
  end.

Record Candidate := MkCandidate { cand_provider : nat; cand_availability : Availability }.

(** The comparison of [resolve]. *)
Definition candidate_before (prefer_permission : bool) (lhs rhs : Candidate) : bool :=
  let rank_lhs := rank (av_state (cand_availability lhs)) prefer_permission in
  let rank_rhs := rank (av_state (cand_availability rhs)) prefer_permission in
  if decide (rank_lhs ≠ rank_rhs) then bool_decide (rank_lhs < rank_rhs)
  else bool_decide (av_quality (cand_availability rhs) < av_quality (cand_availability lhs)).

Section stable_sort.
Context {A : Type} (less : A → A → bool).

Fixpoint stable_insert (x : A) (l : list A) : list A :=
  match l with
  | [] => [x]
  | y :: l => if less y x then y :: stable_insert x l else x :: y :: l
  end.

(** [std::ranges::stable_sort]. *)
Definition stable_sort (l : list A) : list A := foldr stable_insert [] l.
End stable_sort.

Record ResolverState := MkResolver { cache : gmap CacheKey Resolution; probes : nat }.

Definition new_resolver (probes : nat) : ResolverState := MkResolver ∅ probes.

Section resolver.
Context (registry : list ProviderInfo).
Context (probe : nat → nat → Environment → Availability).

Definition offers (capability : Capability) (provider : nat) : bool :=
  match registry !! provider with
  | Some info => bool_decide (capability ∈ provider_capabilities info)
  | None => false
  end.

Definition providers_for (capability : Capability) : list nat :=
  filter (λ provider, offers capability provider = true) (seq 0 (length registry)).

Definition name_of (provider : nat) : string :=
  from_option provider_name ""%string (registry !! provider).

(** The loop of [resolve]: the candidates, the rejected attempts and the count of probes. *)
Fixpoint probe_each (providers : list nat) (env : Environment) (n : nat) :
    list Candidate * list ProviderAttempt * nat :=
  match providers with
  | [] => ([], [], n)
  | provider :: providers =>
    let availability := probe n provider env in
    let '(candidates, rejected, n) := probe_each providers env (S n) in
    if decide (av_state availability = AvailabilityState.Unavailable) then
      (candidates, MkAttempt (name_of provider) (av_reason availability) :: rejected, n)
    else (MkCandidate provider availability :: candidates, rejected, n)
  end.

Definition unavailable (request : CapabilityRequest) (rejected : list ProviderAttempt) : Error :=
  let capability_id := capability_name (req_capability request) in
  MkError ErrorCode.CapabilityUnavailable ("no provider available for " +:+ capability_id) capability_id
    (if decide (target_key request = ""%string) then target_class request else target_key request)
    rejected ErrorDisposition.Fatal [].

Definition resolve (request : CapabilityRequest) (env : Environment) (r : ResolverState) :
    Result Resolution * ResolverState :=
  let key := cache_key request env in
  match cache r !! key with
  | Some resolution => (Ok resolution, r)
  | None =>
    let '(candidates, rejected, n) :=
      probe_each (providers_for (req_capability request)) env (probes r) in
    match stable_sort (candidate_before (prefer_permission_over_degraded request)) candidates with
    | [] => (Err (unavailable request rejected), MkResolver (cache r) n)
    | front :: rest =>
      let resolution := MkResolution (cand_provider <$> (front :: rest)) (cand_availability front) in
      (Ok resolution, MkResolver (<[key := resolution]> (cache r)) n)
    end
  end.

(** ** The doctor ([doctor.cpp]) *)

Record CapabilityReport := MkReport {
  rep_id : string; rep_provider : string; rep_state : AvailabilityState; rep_reason : string;
  remediation : string
}.

(** Inserting in a [std::set] ordered by name. *)
Fixpoint insert_by_name (c : Capability) (l : list Capability) : list Capability :=
  match l with
  | [] => [c]
  | x :: l =>
    match String.compare (capability_name c) (capability_name x) with
    | Lt => c :: x :: l
    | Eq => x :: l
    | Gt => x :: insert_by_name c l
    end
  end.

Definition capability_ids : list Capability :=
  foldl (λ ids info, foldl (λ ids c, insert_by_name c ids) ids (provider_capabilities info)) [] registry.

Definition report_one (id : Capability) (answer : Result Resolution) : CapabilityReport :=
  match answer with
  | Ok resolution =>
    MkReport (capability_name id) (name_of (default 0%nat (head (chain resolution))))
      (av_state (best resolution)) (av_reason (best resolution)) ""
  | Err e =>
    let first := head (err_attempts e) in
    MkReport (capability_name id) (from_option pa_provider ""%string first) AvailabilityState.Unavailable
      (from_option pa_reason ""%string first) (err_message e)
  end.

Fixpoint report_each (ids : list Capability) (env : Environment) (r : ResolverState) : list CapabilityReport :=
  match ids with
  | [] => []
  | id :: ids =>
    let '(answer, r) := resolve (MkRequest id "" "" true) env r in
    report_one id answer :: report_each ids env r
  end.

(** The list of the report; its [environment] is the argument. *)
Definition run_doctor (env : Environment) (n : nat) : list CapabilityReport :=
  report_each capability_ids env (new_resolver n).

Definition doctor_exit_code (report : list CapabilityReport) : Z :=
  if forallb (λ entry, bool_decide (rep_state entry = AvailabilityState.Available)) report then 0 else 1.
End resolver.

Definition sessionNames : list (SessionType * string) := [
  (X11, "x11"); (Wayland, "wayland"); (Headless, "headless"); (SessionUnknown, "unknown")]%string.

Definition session_name (s : SessionType) : string := text_of sessionNames s "unknown".

Definition newline : string := String (Ascii.ascii_of_nat 10) "".

Definition report_text (entry : CapabilityReport) : string :=
  (rep_id entry +:+ ": " +:+ state_name (rep_state entry) +:+
   (if decide (rep_provider entry = "") then "" else " via " +:+ rep_provider entry) +:+
   (if decide (rep_reason entry = "") then "" else " (" +:+ rep_reason entry +:+ ")") +:+ newline +:+
   (if decide (remediation entry = "") then "" else "  fix: " +:+ remediation entry +:+ newline))%string.

Definition to_text (env : Environment) (report : list CapabilityReport) : string :=
  ("session: " +:+ session_name (session env) +:+
   (if xwayland_present env then " (+xwayland)" +:+ newline else newline) +:+
   (if decide (length report = 0%nat) then "no capability providers registered" +:+ newline else "") +:+
   String.concat "" (report_text <$> report))%string.

(** ** Sorting *)

Section stable_sort_ok.
Context {A : Type} (less : A → A → bool).

Definition not_after (x y : A) : Prop := less y x = false.

Lemma stable_insert_perm x l : stable_insert less x l ≡ₚ x :: l.
Proof.
  induction l as [|y l IH]; simpl; [done|]. destruct (less y x); [|done].
  rewrite IH. apply Permutation_swap.
Qed.

Lemma stable_sort_perm l : stable_sort less l ≡ₚ l.
Proof. induction l as [|x l IH]; simpl; [done|]. by rewrite stable_insert_perm, IH. Qed.

Lemma stable_sort_sorted l :
  (∀ x y, less x y = true → less y x = false) → Sorted not_after (stable_sort less l).
Proof.
  intros Asym. induction l as [|x l IH]; simpl; [constructor|].
  generalize dependent (stable_sort less l). clear l. intros l S.
  induction l as [|y l IH]; simpl; [by repeat constructor|].
  apply Sorted_inv in S as [S F]. destruct (less y x) eqn:L.
  - constructor; [by apply IH|]. destruct l as [|z l]; simpl; [constructor; by apply Asym|].
    inversion F; subst. destruct (less z x); constructor; [done|by apply Asym].
  - constructor; [by constructor|]. by constructor.
Qed.

(** Elements none of which comes before another keep their order. *)
Lemma stable_sort_stable (P : A → Prop) `{!∀ x, Decision (P x)} l :
  (∀ x y, P x → P y → less y x = false) → filter P (stable_sort less l) = filter P l.
Proof.
  intros E. induction l as [|x l IH]; simpl; [done|]. rewrite filter_cons, <-IH.
  generalize (stable_sort less l). clear IH l. intros l. induction l as [|y l IH]; simpl.
  - rewrite filter_cons. done.
  - destruct (less y x) eqn:L; [|by rewrite filter_cons]. rewrite !filter_cons, IH.
    destruct (decide (P x)) as [Px|]; [|done]. destruct (decide (P y)) as [Py|]; [|done].
    by rewrite (E x y Px Py) in L.
Qed.
End stable_sort_ok.

(** What the order looks at. *)
Definition standing (prefer_permission : bool) (c : Candidate) : Z * Z :=
  (rank (av_state (cand_availability c)) prefer_permission, av_quality (cand_availability c)).

Lemma candidate_before_spec p x y :
  candidate_before p x y = true ↔
  (standing p x).1 < (standing p y).1 ∨
  ((standing p x).1 = (standing p y).1 ∧ (standing p y).2 < (standing p x).2).
Proof.
  unfold candidate_before, standing. simpl. case_decide; rewrite bool_decide_eq_true; lia.
Qed.

Lemma candidate_before_asym p x y : candidate_before p x y = true → candidate_before p y x = false.
Proof. rewrite candidate_before_spec. intros H. apply not_true_is_false. rewrite candidate_before_spec. lia. Qed.

(** ** Names in order *)

Lemma string_compare_irrefl s : String.compare s s ≠ Lt.
Proof. pose proof (String.compare_antisym s s) as H. by destruct (String.compare s s). Qed.

Lemma ascii_compare_lt a b : Ascii.compare a b = Lt ↔ (Ascii.N_of_ascii a < Ascii.N_of_ascii b)%N.
Proof. done. Qed.

Lemma string_compare_trans s1 s2 s3 :
  String.compare s1 s2 = Lt → String.compare s2 s3 = Lt → String.compare s1 s3 = Lt.
Proof.
  revert s2 s3. induction s1 as [|a s1 IH]; intros [|b s2] [|c s3]; simpl; try done.
  destruct (Ascii.compare a b) eqn:E1; [|intros _|done].
  - apply Ascii.compare_eq_iff in E1 as ->. destruct (Ascii.compare b c); [by apply IH|done|done].
  - destruct (Ascii.compare b c) eqn:E2; [|intros _|done].
    + apply Ascii.compare_eq_iff in E2 as ->. by rewrite E1.
    + apply ascii_compare_lt in E1, E2. assert (Ascii.compare a c = Lt) as -> by (apply ascii_compare_lt; by etrans). done.
Qed.

(** ** Resolving *)

Section resolver_ok.
Context (registry : list ProviderInfo).
Context (probe : nat → nat → Environment → Availability).

(** The answers a resolution collects, in the order of the registry. *)
Definition probed (capability : Capability) (env : Environment) (n : nat) : list Candidate :=
  imap (λ j provider, MkCandidate provider (probe (n + j) provider env)) (providers_for registry capability).

Definition usable (c : Candidate) : Prop := av_state (cand_availability c) ≠ AvailabilityState.Unavailable.

#[export] Instance usable_dec c : Decision (usable c).
Proof. unfold usable. apply _. Defined.

Definition attempt_of (c : Candidate) : ProviderAttempt :=
  MkAttempt (name_of registry (cand_provider c)) (av_reason (cand_availability c)).

Lemma probe_each_spec providers env n :
  let answers := imap (λ j provider, MkCandidate provider (probe (n + j) provider env)) providers in
  probe_each registry probe providers env n =
    (filter usable answers, attempt_of <$> filter (λ c, ¬ usable c) answers, (n + length providers)%nat).
Proof.
  revert n. induction providers as [|p providers IH]; intros n; simpl; [by rewrite Nat.add_0_r|].
  rewrite IH. rewrite !filter_cons, Nat.add_0_r.
  replace (imap ((λ j provider, MkCandidate provider (probe (n + j) provider env)) ∘ S) providers)
    with (imap (λ j provider, MkCandidate provider (probe (S n + j) provider env)) providers)
    by (apply imap_ext; intros i x _; simpl; by rewrite Nat.add_succ_r).
  replace (n + S (length providers))%nat with (S n + length providers)%nat by lia.
  case_decide as U; [rewrite (decide_False (P := usable _)), (decide_True (P := ¬ usable _))|
    rewrite (decide_True (P := usable _)), (decide_False (P := ¬ usable _))];
    unfold usable; simpl; try done; by intros [].
Qed.

(** Best first: by rank, then quality, then place in the registry. *)
Definition ordered (prefer_permission : bool) (answers sorted : list Candidate) : Prop :=
  sorted ≡ₚ answers ∧
  Sorted (λ x y, candidate_before prefer_permission y x = false) sorted ∧
  ∀ s, filter (λ c, standing prefer_permission c = s) sorted =
       filter (λ c, standing prefer_permission c = s) answers.

Lemma stable_sort_ordered p l : ordered p l (stable_sort (candidate_before p) l).
Proof.
  split; [apply stable_sort_perm|]. split.
  - apply stable_sort_sorted. intros x y. apply candidate_before_asym.
  - intros s. apply stable_sort_stable. intros x y Ex Ey. apply not_true_is_false.
    rewrite candidate_before_spec, Ex, Ey. lia.
Qed.

(** What a resolution that is not cached computes. *)
Lemma resolve_miss request env r :
  cache r !! cache_key request env = None →
  let answers := probed (req_capability request) env (probes r) in
  let after := (probes r + length (providers_for registry (req_capability request)))%nat in
  ∃ sorted, ordered (prefer_permission_over_degraded request) (filter usable answers) sorted ∧
    resolve registry probe request env r =
      match sorted with
      | [] => (Err (unavailable request (attempt_of <$> filter (λ c, ¬ usable c) answers)),
               MkResolver (cache r) after)
      | front :: rest =>
        let resolution := MkResolution (cand_provider <$> front :: rest) (cand_availability front) in
        (Ok resolution, MkResolver (<[cache_key request env := resolution]> (cache r)) after)
      end.
Proof.
  intros Miss answers after. eexists. split; [apply stable_sort_ordered|].
  unfold resolve. rewrite Miss, probe_each_spec.
  fold (probed (req_capability request) env (probes r)). fold answers after. by destruct (stable_sort _ _).
Qed.

(** *** The cache *)

Lemma resolve_cases request env r :
  cache r !! cache_key request env = None →
  let after := (probes r + length (providers_for registry (req_capability request)))%nat in
  (∃ e, resolve registry probe request env r = (Err e, MkResolver (cache r) after)) ∨
  ∃ resolution, resolve registry probe request env r =
    (Ok resolution, MkResolver (<[cache_key request env := resolution]> (cache r)) after).
Proof.
  intros Miss after. destruct (resolve_miss request env r Miss) as ([|front rest] & _ & E);
    [left|right]; by eexists.
Qed.

Lemma resolve_cached request env r res :
  cache r !! cache_key request env = Some res → resolve registry probe request env r = (Ok res, r).
Proof. unfold resolve. by intros ->. Qed.

Lemma resolve_keeps request env r key res :
  cache r !! key = Some res → cache (resolve registry probe request env r).2 !! key = Some res.
Proof.
  intros H. destruct (cache r !! cache_key request env) as [res'|] eqn:E; [by rewrite (resolve_cached _ _ _ _ E)|].
  destruct (resolve_cases request env r E) as [(e & ->)|(resolution & ->)]; simpl; [done|].
  rewrite lookup_insert_ne; [done|]. congruence.
Qed.

Definition resolve_later (r : ResolverState) (x : CapabilityRequest * Environment) : ResolverState :=
  (resolve registry probe x.1 x.2 r).2.

(** *** The doctor *)

Lemma candidate_order_trans p : Transitive (λ x y, candidate_before p y x = false).
Proof.
  intros x y z H1 H2. apply not_true_is_false. apply not_true_iff_false in H1, H2.
  rewrite candidate_before_spec in *. lia.
Qed.

(** The best of an ordered list has the least rank. *)
Lemma ordered_best p answers front rest c :
  ordered p answers (front :: rest) → c ∈ answers → (standing p front).1 <= (standing p c).1.
Proof.
  intros (P & S & _) Hc. rewrite <-P in Hc. apply Sorted_StronglySorted in S; [|apply candidate_order_trans].
  apply StronglySorted_inv in S as [_ F]. apply elem_of_cons in Hc as [->|Hc]; [lia|].
  rewrite Forall_forall in F. specialize (F _ Hc). apply not_true_iff_false in F.
  rewrite candidate_before_spec in F. lia.
Qed.

Lemma capability_name_inj c c' : capability_name c = capability_name c' → c = c'.
Proof. intros E. apply (inj Some). by rewrite <-!named_capability_name, E. Qed.

Definition name_before (c c' : Capability) : Prop :=
  String.compare (capability_name c) (capability_name c') = Lt.

Lemma elem_of_insert_by_name c l x : x ∈ insert_by_name c l ↔ x = c ∨ x ∈ l.
Proof.
  induction l as [|y l IH]; simpl; [set_solver|].
  destruct (String.compare _ _) eqn:E; [|set_solver|rewrite !elem_of_cons, IH; tauto].
  apply String.compare_eq_iff, capability_name_inj in E. set_solver.
Qed.

Lemma insert_by_name_sorted c l : Sorted name_before l → Sorted name_before (insert_by_name c l).
Proof.
  induction l as [|y l IH]; simpl; intros S; [by repeat constructor|].
  apply Sorted_inv in S as [S F]. destruct (String.compare _ _) eqn:E; [by constructor|by repeat constructor|].
  constructor; [by apply IH|]. assert (name_before y c) as H
    by (unfold name_before; rewrite String.compare_antisym, E; done).
  destruct l as [|z l]; simpl; [by constructor|]. inversion F; subst.
  destruct (String.compare (capability_name c) (capability_name z)); by constructor.
Qed.

Lemma insert_all_ok caps ids :
  Sorted name_before ids →
  let l := foldl (λ ids c, insert_by_name c ids) ids caps in
  Sorted name_before l ∧ ∀ x, x ∈ l ↔ x ∈ ids ∨ x ∈ caps.
Proof.
  revert ids. induction caps as [|c caps IH]; simpl; intros ids S; [set_solver|].
  destruct (IH (insert_by_name c ids)) as [S' H]; [by apply insert_by_name_sorted|]. split; [done|].
  intros x. rewrite H, elem_of_insert_by_name, elem_of_cons. tauto.
Qed.

Lemma capability_ids_ok :
  Sorted name_before (capability_ids registry) ∧
  ∀ c, c ∈ capability_ids registry ↔ ∃ info, info ∈ registry ∧ c ∈ provider_capabilities info.
Proof.
  unfold capability_ids. assert (∀ ids, Sorted name_before ids →
    let l := foldl (λ ids info, foldl (λ ids c, insert_by_name c ids) ids (provider_capabilities info)) ids registry in
    Sorted name_before l ∧ ∀ c, c ∈ l ↔ c ∈ ids ∨ ∃ info, info ∈ registry ∧ c ∈ provider_capabilities info) as H.
  { induction registry as [|info infos IH]; simpl; intros ids S; [set_solver|].
    destruct (insert_all_ok (provider_capabilities info) ids S) as [S1 H1].
    destruct (IH _ S1) as [S2 H2]. split; [done|]. intros c. rewrite H2, H1. set_solver. }
  destruct (H [] (Sorted_nil _)) as [S M]. split; [done|]. intros c. rewrite M. set_solver.
Qed.

Lemma offered_iff c :
  c ∈ capability_ids registry ↔ ∃ p, offers registry c p = true.
Proof.
  rewrite (proj2 capability_ids_ok). unfold offers. split.
  - intros (info & Hin & Hc). apply list_elem_of_lookup in Hin as [p Hp]. exists p. rewrite Hp.
    by apply bool_decide_eq_true.
  - intros [p H]. destruct (registry !! p) as [info|] eqn:E; [|done]. apply bool_decide_eq_true in H.
    exists info. split; [by eapply list_elem_of_lookup_2|done].
Qed.

Lemma name_before_NoDup l : Sorted name_before l → NoDup l.
Proof.
  intros S. assert (Transitive name_before) as Tr.
  { intros x y z. unfold name_before. intros H1 H2. by eapply string_compare_trans. }
  apply Sorted_StronglySorted in S; [|done]. induction S as [|c l S IH F]; constructor; [|done].
  intros Hin. rewrite Forall_forall in F. specialize (F _ Hin). unfold name_before in F.
  by apply string_compare_irrefl in F.
Qed.

(** C30: a resolution that is not cached asks every provider of the capability once, in
    the order of the registry.  When all are unavailable it is refused with each one's
    reason, and nothing is cached; otherwise the chain is exactly the providers that are
    not unavailable, best first by rank, then by quality, then by place in the registry,
    the answer names the best one's availability, and it is cached under the request and
    the generation of the environment. *)
Theorem resolution_exact request env r :
  cache r !! cache_key request env = None →
  let answers := probed (req_capability request) env (probes r) in
  let after := (probes r + length (providers_for registry (req_capability request)))%nat in
  (Forall (λ c, ¬ usable c) answers ∧
   ∃ e, resolve registry probe request env r = (Err e, MkResolver (cache r) after) ∧
        err_code e = ErrorCode.CapabilityUnavailable ∧ err_attempts e = attempt_of <$> answers) ∨
  ∃ front rest,
    ordered (prefer_permission_over_degraded request) (filter usable answers) (front :: rest) ∧
    let resolution := MkResolution (cand_provider <$> front :: rest) (cand_availability front) in
    resolve registry probe request env r =
      (Ok resolution, MkResolver (<[cache_key request env := resolution]> (cache r)) after).
Proof.
  intros Miss answers after. destruct (resolve_miss request env r Miss) as ([|front rest] & O & ->).
  - left. assert (filter usable answers = []) as E by (by apply Permutation_nil, O).
    assert (Forall (λ c, ¬ usable c) answers) as F.
    { apply Forall_forall. intros c Hc U. assert (c ∈ filter usable answers) as Hin
        by (by apply list_elem_of_filter). rewrite E in Hin. by apply elem_of_nil in Hin. }
    split; [done|]. eexists. split; [reflexivity|]. split; [done|]. simpl. f_equal. fold answers.
    clear -F. induction F as [|c l H F IH]; [done|]. by rewrite filter_cons_True, IH.
  - right. by exists front, rest.
Qed.

(** A resolution stays.  Once a request was answered in an environment, then after
    any requests in any environments, the same request in an environment of the same
    generation has the same answer and asks no provider, whatever a provider would say by
    now.  A refusal does not stay: it leaves the cache as it was, so that the same request
    asks its providers again. *)
Theorem resolutions_stay request env r answer r' :
  resolve registry probe request env r = (answer, r') →
  match answer with
  | Ok resolution =>
    ∀ later request' env', cache_key request' env' = cache_key request env →
      let r'' := foldl resolve_later r' later in
      resolve registry probe request' env' r'' = (Ok resolution, r'')
  | Err _ =>
    cache r' = cache r ∧ cache r' !! cache_key request env = None ∧
    probes r' = (probes r + length (providers_for registry (req_capability request)))%nat
  end.
Proof.
  intros E. destruct (cache r !! cache_key request env) as [res|] eqn:H.
  - rewrite (resolve_cached _ _ _ _ H) in E. injection E as <- <-.
    intros later request' env' K r''. apply resolve_cached. rewrite K. subst r''.
    clear K. revert r H. induction later as [|x later IH]; simpl; intros r H; [done|].
    by apply IH, resolve_keeps.
  - destruct (resolve_cases request env r H) as [(e & E')|(resolution & E')];
      rewrite E' in E; injection E as <- <-; [done|].
    intros later request' env' K r''. apply resolve_cached. rewrite K. subst r''.
    set (r1 := MkResolver _ _). assert (cache r1 !! cache_key request env = Some resolution) as H1
      by (unfold r1; simpl; by rewrite lookup_insert_eq).
    clearbody r1. clear K E'. revert r1 H1. induction later as [|x later IH]; simpl; intros r1 H1; [done|].
    by apply IH, resolve_keeps.
Qed.
Section steady.
(** Providers answer alike, however often they are asked. *)
Context (steady : ∀ n provider env, probe n provider env = probe 0 provider env).

Definition served (env : Environment) (c : Capability) : Prop :=
  ∃ p, offers registry c p = true ∧ av_state (probe 0 p env) = AvailabilityState.Available.

Lemma elem_of_probed c env n x :
  x ∈ probed c env n ↔ offers registry c (cand_provider x) = true ∧
                       cand_availability x = probe 0 (cand_provider x) env.
Proof.
  unfold probed. rewrite elem_of_lookup_imap. split.
  - intros (j & p & -> & Hp). simpl. rewrite steady. split; [|done].
    apply list_elem_of_lookup_2 in Hp. by apply list_elem_of_filter in Hp as [Hp _].
  - destruct x as [p a]. simpl. intros [Ho ->].
    assert (p ∈ providers_for registry c) as Hin.
    { apply list_elem_of_filter. split; [done|]. apply elem_of_seq. unfold offers in Ho.
      destruct (registry !! p) eqn:E; [|done]. apply lookup_lt_Some in E. lia. }
    apply list_elem_of_lookup in Hin as [j Hj]. exists j, p. by rewrite (steady (n + j)%nat).
Qed.

Lemma report_available request env r :
  cache r !! cache_key request env = None →
  rep_state (report_one registry (req_capability request) (resolve registry probe request env r).1) =
    AvailabilityState.Available ↔ served env (req_capability request).
Proof.
  intros Miss. destruct (resolve_miss request env r Miss) as ([|front rest] & O & ->); simpl.
  - split; [done|]. intros (p & Ho & Ha).
    assert (MkCandidate p (probe 0 p env) ∈ filter usable (probed (req_capability request) env (probes r))) as Hin.
    { apply list_elem_of_filter. split; [unfold usable; simpl; congruence|]. by apply elem_of_probed. }
    destruct O as (P & _). rewrite <-P in Hin. by apply elem_of_nil in Hin.
  - split.
    + intros Ha. assert (front ∈ filter usable (probed (req_capability request) env (probes r))) as Hin
        by (destruct O as (P & _); rewrite <-P; by left).
      apply list_elem_of_filter in Hin as [_ [Ho Ea]%elem_of_probed]. exists (cand_provider front).
      split; [done|]. by rewrite <-Ea.
    + intros (p & Ho & Ha).
      assert (MkCandidate p (probe 0 p env) ∈ filter usable (probed (req_capability request) env (probes r))) as Hin.
      { apply list_elem_of_filter. split; [unfold usable; simpl; congruence|]. by apply elem_of_probed. }
      pose proof (ordered_best _ _ _ _ _ O Hin) as L. unfold standing in L. simpl in L. rewrite Ha in L.
      destruct (av_state (cand_availability front)), (prefer_permission_over_degraded request); simpl in L; done || lia.
Qed.

Lemma report_each_ok ids env r :
  NoDup ids → (∀ key res, cache r !! key = Some res → key_capability key ∉ ids) →
  Forall2 (λ id entry, rep_id entry = capability_name id ∧
             (rep_state entry = AvailabilityState.Available ↔ served env id))
    ids (report_each registry probe ids env r).
Proof.
  revert r. induction ids as [|id ids IH]; simpl; intros r N H; [constructor|].
  apply NoDup_cons in N as [Nid N]. set (request := MkRequest id "" "" true).
  assert (cache r !! cache_key request env = None) as Miss.
  { apply eq_None_not_Some. intros [res E]. apply H in E. simpl in E. set_solver. }
  pose proof (report_available request env r Miss) as Av.
  destruct (resolve registry probe request env r) as [answer r'] eqn:E. constructor.
  - split; [by destruct answer|exact Av].
  - apply IH; [done|]. intros key res Hk. destruct (resolve_cases request env r Miss) as [(e & E')|(res' & E')];
      rewrite E' in E; injection E as <- <-; simpl in Hk.
    + apply H in Hk. set_solver.
    + apply lookup_insert_Some in Hk as [[<- _]|[_ Hk]]; [done|]. apply H in Hk. set_solver.
Qed.

(** The doctor tells the truth.  When providers answer alike however often they are
    asked, its report has exactly one entry for each capability some provider offers, in
    the order of their names, an entry is available exactly when some provider of the
    capability is, and its exit code is zero exactly when every offered capability is. *)
Theorem doctor_tells_truth env n :
  let report := run_doctor registry probe env n in
  Sorted name_before (capability_ids registry) ∧
  (∀ c, c ∈ capability_ids registry ↔ ∃ p, offers registry c p = true) ∧
  Forall2 (λ id entry, rep_id entry = capability_name id ∧
             (rep_state entry = AvailabilityState.Available ↔ served env id))
    (capability_ids registry) report ∧
  (doctor_exit_code report = 0 ↔ ∀ c p, offers registry c p = true → served env c).
Proof.
  intros report. destruct capability_ids_ok as [S _]. split; [done|]. split; [apply offered_iff|].
  assert (Forall2 (λ id entry, rep_id entry = capability_name id ∧
    (rep_state entry = AvailabilityState.Available ↔ served env id)) (capability_ids registry) report) as F
    by (apply report_each_ok; [by apply name_before_NoDup|intros key res; simpl; by rewrite lookup_empty]).
  split; [done|]. unfold doctor_exit_code.
  transitivity (Forall (λ entry, rep_state entry = AvailabilityState.Available) report).
  - destruct (forallb _ report) eqn:B; (split; [|]); try done; intros H.
    + apply Forall_forall. intros entry Hin. rewrite forallb_forall in B.
      apply list_elem_of_In, B in Hin. by apply bool_decide_eq_true_1 in Hin.
    + exfalso. apply not_true_iff_false in B. apply B, forallb_forall. intros entry Hin.
      apply bool_decide_eq_true. rewrite Forall_forall in H. by apply H, list_elem_of_In.
  - transitivity (Forall (served env) (capability_ids registry)).
    + clear -F. induction F as [|id entry ids l [_ H] F IH]; [done|]. by rewrite !Forall_cons, H, IH.
    + rewrite Forall_forall. split.
      * intros H c p Ho. apply H, offered_iff. by exists p.
      * intros H c [p Ho]%offered_iff. by apply (H c p).
Qed.
End steady.
End resolver_ok.

(** ** A small case *)

Definition two_providers : list ProviderInfo := [
  MkInfo "x11" [Capability.MouseMove; Capability.Overlay] 1;
  MkInfo "portal" [Capability.MouseMove] 5]%string.

(** The first is degraded; the second needs a permission, which it is given after a
    first probe. *)
Definition changing_probe (n provider : nat) (_ : Environment) : Availability :=
  match provider with
  | O => MkAvailability AvailabilityState.Degraded "slow" 9
  | _ => if decide (n <= 1)%nat then MkAvailability AvailabilityState.NeedsPermission "ask" 1
         else MkAvailability AvailabilityState.Available "" 1
  end%string.

Definition some_environment : Environment := MkEnvironment X11 false "" "" [] true 7.

Definition move_request : CapabilityRequest := MkRequest Capability.MouseMove "" "" true.

Abbreviation first_answer :=
  (resolve two_providers changing_probe move_request some_environment (new_resolver 0)).

Lemma first_answer_chain :
  match first_answer.1 with Ok resolution => chain resolution = [1; 0]%nat | Err _ => False end ∧
  probes first_answer.2 = 2%nat.
Proof. split; by vm_compute. Qed.

Lemma resolution_exact_witness :
  cache (new_resolver 0) !! cache_key move_request some_environment = None ∧
  ∃ resolution r, first_answer = (Ok resolution, r) ∧ chain resolution = [1; 0]%nat ∧ probes r = 2%nat.
Proof.
  split; [reflexivity|]. pose proof first_answer_chain as C.
  destruct (resolution_exact two_providers changing_probe move_request some_environment (new_resolver 0) eq_refl)
    as [(_ & e & E & _)|(front & rest & _ & E)]; rewrite E in C.
  - by destruct C as [[] _].
  - eexists _, _. split; [exact E|exact C].
Defined.

Lemma resolutions_stay_witness :
  ∃ resolution r, first_answer = (Ok resolution, r) ∧
  let later := [(MkRequest Capability.Overlay "" "" true, some_environment)] in
  let r' := foldl (resolve_later two_providers changing_probe) r later in
  resolve two_providers changing_probe move_request some_environment r' = (Ok resolution, r').
Proof.
  pose proof first_answer_chain as C. destruct first_answer as [[res|e] r] eqn:E.
  - exists res, r. split; [reflexivity|].
    exact (resolutions_stay two_providers changing_probe move_request some_environment (new_resolver 0) (Ok res) r E
             [(MkRequest Capability.Overlay "" "" true, some_environment)] move_request some_environment eq_refl).
  - by destruct C as [[] _].
Defined.

Definition steady_probe (_ provider : nat) (_ : Environment) : Availability :=
  match provider with
  | O => MkAvailability AvailabilityState.Degraded "slow" 9
  | _ => MkAvailability AvailabilityState.Available "" 1
  end%string.

(** The overlay has a degraded provider only. *)
Lemma doctor_tells_truth_witness :
  (∀ n provider env, steady_probe n provider env = steady_probe 0 provider env) ∧
  doctor_exit_code (run_doctor two_providers steady_probe some_environment 0) ≠ 0 ∧
  ¬ ∀ c p, offers two_providers c p = true → served two_providers steady_probe some_environment c.
Proof.
  split; [reflexivity|].
  destruct (doctor_tells_truth two_providers steady_probe (λ _ _ _, eq_refl) some_environment 0) as (_ & _ & _ & H).
  assert (doctor_exit_code (run_doctor two_providers steady_probe some_environment 0) ≠ 0) as N by (by vm_compute).
  split; [exact N|]. intros A. apply N, H, A.
Defined.
