(* ===== verification/Sessions.v ===== *)
(** Which provider hosts a session ([session/selection.cpp]) and the states a session goes
    through ([session/state_machine.cpp], [include/grab/workspace.hpp]).

    Providers are named by their place in the list; as in [Routing] a probe is given the
    number of probes made before. *)

From S2P Require Import Prelude EnumTable Errors Routing.

Local Open Scope Z_scope.

(** ** Data *)

Inductive WorkspaceMode := Shared | Offscreen.

#[export] Instance WorkspaceMode_eq_dec : EqDecision WorkspaceMode.
Proof. solve_decision. Defined.

Definition workspace_mode_names : list (WorkspaceMode * string) :=
  [(Shared, "shared"); (Offscreen, "offscreen")]%string.

Definition mode_name (mode : WorkspaceMode) : string := text_of workspace_mode_names mode "offscreen".

Module WorkspaceState.

Inductive WorkspaceState : Type :=
  | Starting | Ready | Draining | Stopped | Failed | Count.

End WorkspaceState.
Abbreviation WorkspaceState := WorkspaceState.WorkspaceState.

#[export] Instance WorkspaceState_eq_dec : EqDecision WorkspaceState.
Proof. solve_decision. Defined.

(** ** Selection *)

Record SessionModeReport := MkModeReport {
  mode_of : WorkspaceMode; mode_provider : string; mode_state : AvailabilityState; mode_reason : string
}.

Definition session_rank (state : AvailabilityState) : Z :=
  match state with
  | AvailabilityState.Available => 3
  | AvailabilityState.Degraded => 2
  | AvailabilityState.NeedsPermission => 1
  | AvailabilityState.Count | AvailabilityState.Unavailable => 0
  end.

Definition is_better (lhs rhs : Availability) : bool :=
  let lhs_rank := session_rank (av_state lhs) in
  let rhs_rank := session_rank (av_state rhs) in
  if decide (lhs_rank ≠ rhs_rank) then bool_decide (rhs_rank < lhs_rank)
  else bool_decide (av_quality rhs < av_quality lhs).

Section selection.
Context (providers : list ProviderInfo).
Context (probe : nat → nat → Environment → WorkspaceMode → Availability).

Definition session_name_of (provider : nat) : string :=
  from_option provider_name ""%string (providers !! provider).

Definition probe_providers (env : Environment) (mode : WorkspaceMode) (n : nat) : list Candidate :=
  imap (λ provider _, MkCandidate provider (probe (n + provider) provider env mode)) providers.

Definition attempts_for (candidates : list Candidate) : list ProviderAttempt :=
  (λ c, MkAttempt (session_name_of (cand_provider c)) (av_reason (cand_availability c))) <$> candidates.

Definition no_provider_message (mode : WorkspaceMode) (candidates : list Candidate) : string :=
  foldl (λ message c,
    message +:+ "; " +:+ session_name_of (cand_provider c) +:+ ": " +:+
    (if decide (av_reason (cand_availability c) = "") then state_name (av_state (cand_availability c))
     else av_reason (cand_availability c)))%string
    ("no session provider for mode " +:+ mode_name mode)%string candidates.

Definition best_candidate (candidates : list Candidate) : option Candidate :=
  match candidates with
  | [] => None
  | front :: rest =>
    Some (foldl (λ best c,
      if is_better (cand_availability c) (cand_availability best) then c else best) front rest)
  end.

Definition no_session_provider (mode : WorkspaceMode) (candidates : list Candidate) : Error :=
  MkError ErrorCode.CapabilityUnavailable (no_provider_message mode candidates) "" (mode_name mode)
    (attempts_for candidates) ErrorDisposition.Fatal [].

Definition select_session_provider (env : Environment) (mode : WorkspaceMode) (n : nat) : Result nat :=
  let candidates := probe_providers env mode n in
  match best_candidate candidates with
  | None => Err (no_session_provider mode candidates)
  | Some best =>
    if decide (session_rank (av_state (cand_availability best)) = 0) then
      Err (no_session_provider mode candidates)
    else Ok (cand_provider best)
  end.

Definition report_mode (env : Environment) (mode : WorkspaceMode) (n : nat) : SessionModeReport :=
  match best_candidate (probe_providers env mode n) with
  | None => MkModeReport mode "" AvailabilityState.Unavailable "no provider"
  | Some best =>
    MkModeReport mode (session_name_of (cand_provider best)) (av_state (cand_availability best))
      (av_reason (cand_availability best))
  end.

Definition session_availability_report (env : Environment) (n : nat) : list SessionModeReport :=
  [report_mode env Shared n; report_mode env Offscreen (n + length providers)].

(** *** The first of the best *)

Lemma is_better_spec a b :
  is_better a b = true ↔
  session_rank (av_state b) < session_rank (av_state a) ∨
  (session_rank (av_state a) = session_rank (av_state b) ∧ av_quality b < av_quality a).
Proof. unfold is_better. case_decide; rewrite bool_decide_eq_true; lia. Qed.

Definition better (x y : Candidate) : Prop := is_better (cand_availability x) (cand_availability y) = true.

(** [best] is in the list, none is better, and it is better than all before it. *)
Definition first_best (l : list Candidate) (best : Candidate) : Prop :=
  ∃ pre post, l = pre ++ best :: post ∧ Forall (better best) pre ∧ Forall (λ c, ¬ better c best) post.

Lemma better_trans x y z : better x y → ¬ better z y → better x z.
Proof. unfold better. rewrite !is_better_spec. lia. Qed.

Lemma better_better x y z : better x y → better y z → better x z.
Proof. unfold better. rewrite !is_better_spec. lia. Qed.

Lemma best_candidate_spec l :
  match best_candidate l with None => l = [] | Some best => first_best l best end.
Proof.
  destruct l as [|front rest]; [done|]. simpl.
  assert (∀ l best seen, first_best seen best →
    first_best (seen ++ l) (foldl (λ best c,
      if is_better (cand_availability c) (cand_availability best) then c else best) best l)) as H.
  { induction l as [|c l IH]; simpl; intros best seen F; [by rewrite app_nil_r|].
    replace (seen ++ c :: l) with ((seen ++ [c]) ++ l) by (by rewrite <-app_assoc). apply IH.
    destruct F as (pre & post & -> & F1 & F2). destruct (is_better _ _) eqn:B.
    - exists (pre ++ best :: post), []. split; [done|]. split; [|constructor].
      apply Forall_app. split; [eapply Forall_impl; [done|]; intros x Hx; by eapply better_better|].
      constructor; [done|]. eapply Forall_impl; [done|]. intros x Hx. by eapply better_trans.
    - exists pre, (post ++ [c]). split; [by rewrite <-app_assoc|]. split; [done|].
      apply Forall_app. split; [done|]. constructor; [|constructor]. unfold better. by rewrite B. }
  apply (H rest front [front]). by exists [], [].
Qed.

Lemma first_best_best l best c : first_best l best → c ∈ l → ¬ better c best.
Proof.
  intros (pre & post & -> & F1 & F2). rewrite Forall_forall in F1, F2.
  rewrite elem_of_app, elem_of_cons.
  unfold better in *. rewrite is_better_spec. intros [H|[->|H]]; [apply F1 in H|lia|apply F2 in H];
    rewrite is_better_spec in H; lia.
Qed.

(** A session goes to the best provider.  Each provider is asked once; the one
    selected can serve, none is better by state and then by quality, and it is the first
    of the equally good.  It is refused exactly when every provider is unavailable, and
    then names each one's reason.  The report of the modes names the same provider. *)
Theorem best_session_selected env mode n :
  let candidates := probe_providers env mode n in
  match select_session_provider env mode n with
  | Ok provider =>
    ∃ best, first_best candidates best ∧ cand_provider best = provider ∧
      0 < session_rank (av_state (cand_availability best)) ∧
      (∀ c, c ∈ candidates → ¬ better c best) ∧
      report_mode env mode n = MkModeReport mode (session_name_of provider)
        (av_state (cand_availability best)) (av_reason (cand_availability best))
  | Err e =>
    Forall (λ c, session_rank (av_state (cand_availability c)) = 0) candidates ∧
    err_code e = ErrorCode.CapabilityUnavailable ∧ err_attempts e = attempts_for candidates ∧
    length (err_attempts e) = length providers
  end.
Proof.
  intros candidates. unfold select_session_provider, report_mode. fold candidates.
  assert (length (attempts_for candidates) = length providers) as Len
    by (unfold attempts_for, candidates, probe_providers; by rewrite length_fmap, length_imap).
  pose proof (best_candidate_spec candidates) as B. destruct (best_candidate candidates) as [best|].
  2: { rewrite B in *. split; [constructor|done]. }
  assert (∀ a, 0 <= session_rank a) as Pos by (intros []; simpl; lia).
  case_decide as R.
  - split; [|done]. apply Forall_forall. intros c Hc. pose proof (first_best_best _ _ _ B Hc) as N.
    unfold better in N. rewrite is_better_spec in N. specialize (Pos (av_state (cand_availability c))). lia.
  - exists best. split; [done|]. split; [done|]. specialize (Pos (av_state (cand_availability best))).
    split; [lia|]. split; [|done]. intros c. by apply first_best_best.
Qed.
End selection.

(** ** States *)

Definition is_valid_transition (from to : WorkspaceState) : bool :=
  if decide (to = WorkspaceState.Failed) then
    bool_decide (from = WorkspaceState.Starting) || bool_decide (from = WorkspaceState.Ready) ||
    bool_decide (from = WorkspaceState.Draining)
  else
    match from with
    | WorkspaceState.Starting => bool_decide (to = WorkspaceState.Ready)
    | WorkspaceState.Ready => bool_decide (to = WorkspaceState.Draining)
    | WorkspaceState.Draining => bool_decide (to = WorkspaceState.Stopped)
    | WorkspaceState.Stopped | WorkspaceState.Failed | WorkspaceState.Count => false
    end.

(** A history of a session, newest state last. *)
Fixpoint valid_history (from : WorkspaceState) (l : list WorkspaceState) : bool :=
  match l with
  | [] => true
  | to :: l => is_valid_transition from to && valid_history to l
  end.

Definition is_final (s : WorkspaceState) : bool :=
  bool_decide (s = WorkspaceState.Stopped) || bool_decide (s = WorkspaceState.Failed).

(** Transitions left before a final state. *)
Definition transitions_left (s : WorkspaceState) : nat :=
  match s with
  | WorkspaceState.Starting => 3 | WorkspaceState.Ready => 2 | WorkspaceState.Draining => 1
  | _ => 0
  end.

Lemma transition_progress from to :
  is_valid_transition from to = true → (transitions_left to < transitions_left from)%nat ∧ to ≠ from.
Proof. destruct from, to; vm_compute; intros [=]; split; try done; lia. Qed.

(** Every session ends.  A history of valid transitions from the start has three at
    most, never repeats a state, and once it is stopped or failed nothing follows; and a
    session that was not drained did not stop. *)
Theorem session_history_bounded l :
  valid_history WorkspaceState.Starting l = true →
  (length l <= 3)%nat ∧ NoDup (WorkspaceState.Starting :: l) ∧
  (∀ pre s post, l = pre ++ s :: post → is_final s = true → post = []) ∧
  (WorkspaceState.Stopped ∈ l → WorkspaceState.Draining ∈ l).
Proof.
  assert (∀ l s, valid_history s l = true → (length l <= transitions_left s)%nat) as Len.
  { clear l. induction l as [|t l IH]; simpl; intros s H; [lia|]. apply andb_true_iff in H as [H1 H2].
    apply transition_progress in H1 as [H1 _]. apply IH in H2. lia. }
  intros H. pose proof (Len _ _ H) as L. split; [done|].
  destruct l as [|[] [|[] [|[] [|]]]]; simpl in L; try lia; vm_compute in H; try done; split.
  all: try (by repeat (constructor; [set_solver|]); constructor).
  all: split; [|set_solver].
  all: intros [|? [|? [|? [|? ?]]]] s post E F; simplify_eq/=; try done; by vm_compute in F.
Qed.
