(* ===== verification/Schedule.v ===== *)
(** When a watch captures and when its script steps ([config/schedule.cpp]).

    Times are nanoseconds, the interval and delays milliseconds.  An operation that uses
    [steps.at] is an option: [None] is an index outside the script. *)

From S2P Require Import Prelude.

Local Open Scope Z_scope.

Module StepAction.

Inductive StepAction : Type := Move | Click | ClickAt | Drag | Type_ | Key | Delay.

End StepAction.
Abbreviation StepAction := StepAction.StepAction.

#[export] Instance StepAction_eq_dec : EqDecision StepAction.
Proof. solve_decision. Defined.

(** The fields of a step the schedule reads. *)
Record ScriptStep := MkScriptStep { step_action : StepAction; delay_ms : N }.

Record ScriptSection := MkScript { script_loop : bool; script_steps : list ScriptStep }.

Inductive DueKind := CaptureDue | StepDue | IdleDue.

Record Due := MkDue { due_kind : DueKind; due_step : N; wake_at : Z }.

Record WatchSchedule := MkSchedule {
  interval_ : Z;
  script_ : option ScriptSection;
  capture_at_ : Z;
  step_at_ : Z;
  step_index_ : N;
  skipped_captures_ : N;
  initialized_ : bool;
  script_active_ : bool
}.

Definition new_schedule (interval : Z) (script : option ScriptSection) : WatchSchedule :=
  MkSchedule interval script 0 0 0 0 false
    (match script with Some s => negb (bool_decide (script_steps s = [])) | None => false end).

Definition ns_per_ms : Z := 1000000.

Definition steps_of (w : WatchSchedule) : list ScriptStep :=
  match script_ w with Some s => script_steps s | None => [] end.

Definition arm_step (now : Z) (w : WatchSchedule) : option WatchSchedule :=
  step ← steps_of w !! N.to_nat (step_index_ w);
  let at_ := if decide (step_action step = StepAction.Delay) then now + Z.of_N (delay_ms step) * ns_per_ms
             else now in
  Some (MkSchedule (interval_ w) (script_ w) (capture_at_ w) at_ (step_index_ w) (skipped_captures_ w)
          (initialized_ w) (script_active_ w)).

Definition with_capture (w : WatchSchedule) (at_ : Z) (skipped : N) (initialized : bool) : WatchSchedule :=
  MkSchedule (interval_ w) (script_ w) at_ (step_at_ w) (step_index_ w) skipped initialized (script_active_ w).

Definition with_script (w : WatchSchedule) (index : N) (active : bool) : WatchSchedule :=
  MkSchedule (interval_ w) (script_ w) (capture_at_ w) (step_at_ w) index (skipped_captures_ w)
    (initialized_ w) active.

Definition initialize (now : Z) (w : WatchSchedule) : option WatchSchedule :=
  if initialized_ w then Some w
  else
    let w := with_capture w now (skipped_captures_ w) false in
    w ← (if script_active_ w then arm_step now w else Some w);
    Some (with_capture w (capture_at_ w) (skipped_captures_ w) true).

Definition maximumSkippedCaptures : N := 2 ^ 64 - 1.

(** The quotient of two positive durations. *)
Definition account_for_overrun (now : Z) (w : WatchSchedule) : WatchSchedule :=
  if decide (interval_ w <= 0 ∨ now <= capture_at_ w) then w
  else
    let interval := interval_ w * ns_per_ms in
    let elapsed_intervals := Z.quot (now - capture_at_ w) interval in
    if decide (elapsed_intervals <= 0) then w
    else
      let at_ := capture_at_ w + interval * elapsed_intervals in
      let skipped := Z.to_N elapsed_intervals in
      if decide (maximumSkippedCaptures - skipped_captures_ w < skipped)%N then
        with_capture w at_ maximumSkippedCaptures (initialized_ w)
      else with_capture w at_ (skipped_captures_ w + skipped)%N (initialized_ w).

Definition next (now : Z) (w : WatchSchedule) : option (Due * WatchSchedule) :=
  w ← initialize now w;
  let w := account_for_overrun now w in
  if negb (script_active_ w) || bool_decide (capture_at_ w <= step_at_ w) then
    Some (MkDue CaptureDue 0 (capture_at_ w), w)
  else Some (MkDue StepDue (step_index_ w) (step_at_ w), w).

Definition capture_done (now : Z) (w : WatchSchedule) : option WatchSchedule :=
  w ← initialize now w;
  Some (with_capture w (now + interval_ w * ns_per_ms) (skipped_captures_ w) (initialized_ w)).

Definition step_done (now : Z) (w : WatchSchedule) : option WatchSchedule :=
  w ← initialize now w;
  if negb (script_active_ w) then Some w
  else
    let w := with_script w (step_index_ w + 1) (script_active_ w) in
    if decide (N.to_nat (step_index_ w) = length (steps_of w)) then
      if negb (match script_ w with Some s => script_loop s | None => false end) then
        Some (with_script w (step_index_ w) false)
      else arm_step now (with_script w 0 (script_active_ w))
    else arm_step now w.

Definition fail_script (w : WatchSchedule) : WatchSchedule := with_script w (step_index_ w) false.

Inductive ScheduleCall :=
  | AsksNext (now : Z)
  | CaptureDone (now : Z)
  | StepDone (now : Z)
  | ScriptFails.

Definition schedule_call (c : ScheduleCall) (w : WatchSchedule) : option WatchSchedule :=
  match c with
  | AsksNext now => snd <$> next now w
  | CaptureDone now => capture_done now w
  | StepDone now => step_done now w
  | ScriptFails => Some (fail_script w)
  end.

Fixpoint schedule_calls (l : list ScheduleCall) (w : WatchSchedule) : option WatchSchedule :=
  match l with
  | [] => Some w
  | c :: l => w ← schedule_call c w; schedule_calls l w
  end.

(** ** The invariant *)

(** An active script stands at one of its steps. *)
Record schedule_ok (w : WatchSchedule) : Prop := {
  index_within : script_active_ w = true → (N.to_nat (step_index_ w) < length (steps_of w))%nat;
  skips_fit : (skipped_captures_ w <= maximumSkippedCaptures)%N
}.

Lemma new_schedule_ok interval script : schedule_ok (new_schedule interval script).
Proof.
  split; [|done]. unfold new_schedule, steps_of. simpl. destruct script as [s|]; [|done].
  rewrite negb_true_iff, bool_decide_eq_false. by destruct (script_steps s); simpl; [|lia].
Qed.

(** What every operation leaves as it is. *)
Definition same_watch (w w' : WatchSchedule) : Prop :=
  interval_ w' = interval_ w ∧ script_ w' = script_ w.

Lemma arm_step_ok now w :
  (N.to_nat (step_index_ w) < length (steps_of w))%nat → (skipped_captures_ w <= maximumSkippedCaptures)%N →
  ∃ w', arm_step now w = Some w' ∧ schedule_ok w' ∧ same_watch w w' ∧ now <= step_at_ w' ∧
    capture_at_ w' = capture_at_ w ∧ skipped_captures_ w' = skipped_captures_ w ∧
    script_active_ w' = script_active_ w ∧ initialized_ w' = initialized_ w ∧ step_index_ w' = step_index_ w.
Proof.
  intros I S. destruct (lookup_lt_is_Some_2 _ _ I) as [step E]. unfold arm_step. rewrite E. simpl.
  eexists. split; [reflexivity|]. split; [by split|]. split; [done|]. simpl.
  split; [|done]. unfold ns_per_ms. case_decide; lia.
Qed.

Lemma initialize_ok now w :
  schedule_ok w →
  ∃ w', initialize now w = Some w' ∧ schedule_ok w' ∧ same_watch w w' ∧ initialized_ w' = true ∧
    script_active_ w' = script_active_ w ∧ skipped_captures_ w' = skipped_captures_ w ∧
    capture_at_ w' = (if initialized_ w then capture_at_ w else now) ∧ step_index_ w' = step_index_ w.
Proof.
  intros K. pose proof K as [I S]. unfold initialize. destruct (initialized_ w) eqn:E; [by exists w|].
  simpl. destruct (script_active_ w) eqn:A.
  - destruct (arm_step_ok now (with_capture w now (skipped_captures_ w) false)) as
      (w' & -> & K' & [W1 W2] & _ & C & Sk & Ac & _ & Ix); [by apply I|done|]. simpl.
    eexists. split; [reflexivity|]. simpl in *. split_and!; try done; [|by rewrite Ac].
    destruct K' as [I' S']. split; [|done]. simpl. exact I'.
  - simpl. eexists. split; [reflexivity|]. split_and!; try done. split; [|done]. simpl. by rewrite A.
Qed.

(** The grid of captures moves by whole intervals, to within one interval before now. *)
Lemma account_ok now w :
  schedule_ok w →
  let w' := account_for_overrun now w in
  schedule_ok w' ∧ same_watch w w' ∧ script_active_ w' = script_active_ w ∧ step_at_ w' = step_at_ w ∧
  step_index_ w' = step_index_ w ∧ initialized_ w' = initialized_ w ∧
  ∃ k, 0 <= k ∧ capture_at_ w' = capture_at_ w + k * (interval_ w * ns_per_ms) ∧
    skipped_captures_ w' = N.min maximumSkippedCaptures (skipped_captures_ w + Z.to_N k) ∧
    (0 < k → capture_at_ w' <= now) ∧
    (0 < interval_ w → now < capture_at_ w' + interval_ w * ns_per_ms).
Proof.
  intros K w'. pose proof K as [I S]. subst w'. unfold account_for_overrun.
  case_decide as C1.
  { split_and!; try done. exists 0. split_and!; [lia|lia|rewrite N.add_0_r; lia|lia|].
    unfold ns_per_ms. intros. destruct C1; [lia|nia]. }
  assert (0 < interval_ w ∧ capture_at_ w < now) as [C2 C2'] by lia. set (step := interval_ w * ns_per_ms).
  assert (0 < step) as Hstep by (unfold step, ns_per_ms; lia).
  rewrite Z.quot_div_nonneg by lia. set (k := (now - capture_at_ w) / step).
  pose proof (Z.div_mod (now - capture_at_ w) step) as Dm. fold k in Dm.
  pose proof (Z.mod_pos_bound (now - capture_at_ w) step Hstep) as Mb.
  assert (0 <= k) by (apply Z.div_pos; lia).
  case_decide as C3.
  { split_and!; try done. assert (k = 0) as E0 by lia. rewrite E0 in Dm.
    exists 0. split_and!; [lia|lia|rewrite N.add_0_r; lia|lia|intros _; lia]. }
  case_decide as C4; (split; [split; [exact I|simpl; lia]|]); do 5 (split; [done|]);
    exists k; simpl; fold step; split_and!; lia.
Qed.

(** What every call keeps. *)
Definition call_keeps (w w' : WatchSchedule) : Prop :=
  schedule_ok w' ∧ same_watch w w' ∧ (script_active_ w = false → script_active_ w' = false).

Lemma next_ok now w :
  schedule_ok w →
  ∃ due w', next now w = Some (due, w') ∧ call_keeps w w' ∧ initialized_ w' = true ∧
    (due = MkDue CaptureDue 0 (capture_at_ w') ∧ (script_active_ w' = false ∨ capture_at_ w' <= step_at_ w') ∨
     due = MkDue StepDue (step_index_ w') (step_at_ w') ∧ script_active_ w' = true ∧
       step_at_ w' < capture_at_ w') ∧
    ∃ k, 0 <= k ∧
      capture_at_ w' = (if initialized_ w then capture_at_ w else now) + k * (interval_ w * ns_per_ms) ∧
      skipped_captures_ w' = N.min maximumSkippedCaptures (skipped_captures_ w + Z.to_N k) ∧
      (0 < k → capture_at_ w' <= now) ∧ (0 < interval_ w → now < capture_at_ w' + interval_ w * ns_per_ms).
Proof.
  intros K. unfold next. destruct (initialize_ok now w K) as (w1 & -> & K1 & [Wi Ws] & In & Ac & Sk & C & Ix).
  simpl. destruct (account_ok now w1 K1) as (K2 & [Wi2 Ws2] & Ac2 & St2 & Ix2 & In2 & k & G).
  rewrite Wi, Sk, C in G. set (w2 := account_for_overrun now w1) in *.
  assert (call_keeps w w2) as Kp by (split; [done|split; [split; congruence|congruence]]).
  destruct (script_active_ w2) eqn:A; simpl; [case_bool_decide|]; (eexists _, w2; split; [reflexivity|]);
    (split; [done|]); (split; [congruence|]); (split; [|by exists k]); [left; auto|right|left; auto].
  split; [done|]. split; [done|lia].
Qed.

Lemma capture_done_ok now w :
  schedule_ok w → ∃ w', capture_done now w = Some w' ∧ call_keeps w w' ∧
    capture_at_ w' = now + interval_ w * ns_per_ms ∧ skipped_captures_ w' = skipped_captures_ w.
Proof.
  intros K. unfold capture_done. destruct (initialize_ok now w K) as (w1 & -> & [I S] & [Wi Ws] & _ & Ac & Sk & _).
  simpl. eexists. split; [reflexivity|]. simpl. rewrite Wi. split_and!; try done.
  split; [by split|]. split; [done|]. simpl. by rewrite Ac.
Qed.

Lemma step_done_ok now w : schedule_ok w → ∃ w', step_done now w = Some w' ∧ call_keeps w w'.
Proof.
  intros K. unfold step_done. destruct (initialize_ok now w K) as (w1 & -> & K1 & [Wi Ws] & _ & Ac & Sk & _).
  simpl. destruct (script_active_ w1) eqn:A; simpl.
  2: { exists w1. split; [done|]. by split. }
  pose proof (index_within w1 K1 A) as I. pose proof (skips_fit w1 K1) as S.
  assert (∀ index, (N.to_nat index < length (steps_of w1))%nat →
    ∃ w', arm_step now (with_script w1 index true) = Some w' ∧ call_keeps w w') as Arm.
  { intros index Hi. destruct (arm_step_ok now (with_script w1 index true) Hi S) as (w' & E & K' & [W1 W2] & _).
    exists w'. split; [done|]. split; [done|]. split; [split; [by rewrite W1|by rewrite W2]|]. congruence. }
  change (steps_of (with_script w1 (step_index_ w1 + 1) true)) with (steps_of w1).
  case_decide as E; simpl in E; [|apply Arm; lia].
  destruct (negb _); [|apply Arm; simpl; lia].
  eexists. split; [reflexivity|]. split; [by split|]. by split.
Qed.

Lemma schedule_call_ok c w : schedule_ok w → ∃ w', schedule_call c w = Some w' ∧ call_keeps w w'.
Proof.
  intros K. destruct c as [now|now|now|]; simpl.
  - destruct (next_ok now w K) as (due & w' & -> & Kp & _). by exists w'.
  - destruct (capture_done_ok now w K) as (w' & -> & Kp & _). by exists w'.
  - by apply step_done_ok.
  - eexists. split; [reflexivity|]. destruct K as [_ S]. split; [by split|]. by split.
Qed.

Lemma schedule_calls_ok l w : schedule_ok w → ∃ w', schedule_calls l w = Some w' ∧ call_keeps w w'.
Proof.
  revert w. induction l as [|c l IH]; intros w K; simpl; [by exists w|].
  destruct (schedule_call_ok c w K) as (w1 & -> & K1 & [W1 W2] & A1). simpl.
  destruct (IH w1 K1) as (w2 & -> & K2 & [W3 W4] & A2). exists w2. split; [done|].
  split; [done|]. split; [split; congruence|auto].
Qed.

(** The schedule of a watch.  Whatever was called before and whatever the clock read,
    every call answers, a step it calls due is a step of the script, and never before the
    capture that is due; the time of the next capture moves by whole intervals, counted
    as skipped captures up to the largest counter, never past the present by skipping,
    and is never a whole interval in the past; and a script that has ended or failed
    stays so. *)
Theorem watch_schedule_kept interval script calls now :
  ∃ w, schedule_calls calls (new_schedule interval script) = Some w ∧
  ∃ due w', next now w = Some (due, w') ∧
    (script_active_ w = false → script_active_ w' = false) ∧
    wake_at due <= capture_at_ w' ∧
    (due_kind due = CaptureDue ∧ wake_at due = capture_at_ w' ∨
     due_kind due = StepDue ∧ script_active_ w = true ∧
       (N.to_nat (due_step due) < length (steps_of (new_schedule interval script)))%nat) ∧
    ∃ k, 0 <= k ∧
      capture_at_ w' = (if initialized_ w then capture_at_ w else now) + k * (interval * ns_per_ms) ∧
      skipped_captures_ w' = N.min maximumSkippedCaptures (skipped_captures_ w + Z.to_N k) ∧
      (0 < k → capture_at_ w' <= now) ∧ (0 < interval → now < capture_at_ w' + interval * ns_per_ms).
Proof.
  destruct (schedule_calls_ok calls _ (new_schedule_ok interval script)) as (w & E & K & [Wi Ws] & _).
  exists w. split; [done|]. destruct (next_ok now w K) as (due & w' & E' & (K' & [_ Ws'] & A) & _ & D & G).
  exists due, w'. split; [done|]. split; [done|]. rewrite Wi in G. split; [|split; [|exact G]].
  - destruct D as [[-> _]|(-> & _ & L)]; simpl; lia.
  - destruct D as [[-> _]|(-> & Ac & L)]; [by left|right]. split; [done|]. split.
    + destruct (script_active_ w); [done|]. by rewrite A in Ac.
    + pose proof (index_within w' K' Ac) as I. unfold steps_of in *. by rewrite Ws', Ws in I.
Qed.
