(* ===== verification/Timer.v ===== *)
(** The timing authority ([kernel/scheduling/timer_thread.cpp], and the tally of
    [kernel/support/step_diag.hpp]).

    Threads interleave at the lock and at the descriptors: each locked block, each write
    to a descriptor and each call of the worker's loop is a step.  The descriptors are the
    kernel's: [EventFd] and [TimerFd] hold the operations the code uses and what their
    documentation promises.  Times are nanoseconds of the monotonic clock, which is
    positive and does not go back; a token is a number, and 2^64 of them are not given.
    The tallies that only a verbose build records are left out. *)

From S2P Require Import Prelude.

Local Open Scope Z_scope.

(** ** Descriptors *)

(** An event descriptor that does not block. *)
Class EventFd (F : Type) := {
  event_fd : F;
  written : F → F;
  emptied : F → F;
  readable : F → bool;
  readable_event_fd : readable event_fd = false;
  readable_written f : readable (written f) = true;
  readable_emptied f : readable (emptied f) = false
}.

(** A timer of the monotonic clock with absolute times: it is readable from the time it
    was set to until it is read or set again. *)
Class TimerFd (T : Type) := {
  timer_create : T;
  settime : option Z → T → T;
  timer_read : Z → T → T;
  expired_at : Z → T → bool;
  expired_create now : expired_at now timer_create = false;
  expired_settime now time t :
    expired_at now (settime time t) = match time with Some at_ => bool_decide (at_ <= now) | None => false end
}.

(** ** Tallies *)

Record Tally := MkTally { tally_calls : N; tally_total : Z; shortest : Z; longest : Z }.

Definition max_ns : Z := 2 ^ 63 - 1.

Definition new_tally : Tally := MkTally 0 0 max_ns 0.

Definition record (elapsed : Z) (t : Tally) : Tally :=
  MkTally (tally_calls t + 1) (tally_total t + elapsed) (Z.min (shortest t) elapsed)
    (Z.max (longest t) elapsed).

Definition mean (t : Tally) : Z :=
  if decide (tally_calls t = 0%N) then 0 else Z.quot (tally_total t) (Z.of_N (tally_calls t)).

Record ScheduleCounters := MkCounters {
  arms : N; cancels : N; fires : N; drains : N; spuriousDrains : N; nearerRearms : N;
  deepestArmed : nat; deepestDue : nat; armedDepthTotal : N; dueDepthTotal : N
}.

Definition new_counters : ScheduleCounters := MkCounters 0 0 0 0 0 0 0 0 0 0.

(** ** The state under the lock *)

Record Entry := MkEntry { token : N; deadline : Z }.

Record TimerState := MkTimer {
  armed_ : list Entry;
  due_ : list N;
  next_token_ : N;
  stopping_ : bool;
  wake_latency : Tally;
  counters_ : ScheduleCounters;
  timer_armed_for_ : option Z
}.

Definition new_timer : TimerState := MkTimer [] [] 1 false new_tally new_counters None.

(** [std::ranges::min_element] by deadline. *)
Definition earliest (l : list Entry) : option Z :=
  match l with
  | [] => None
  | e :: l => Some (foldl (λ t e, if decide (deadline e < t) then deadline e else t) (deadline e) l)
  end.

(** The locked block of [arm], and whether the caller goes on to signal. *)
Definition arm_locked (at_ : Z) (s : TimerState) : N * bool * TimerState :=
  let given := next_token_ s in
  let next := (next_token_ s + 1)%N in
  if stopping_ s then
    (given, false, MkTimer (armed_ s) (due_ s) next true (wake_latency s) (counters_ s) (timer_armed_for_ s))
  else
    let armed := armed_ s ++ [MkEntry given at_] in
    let depth := length armed in
    let nearer := match timer_armed_for_ s with Some t => bool_decide (at_ < t) | None => false end in
    let c := counters_ s in
    let c := MkCounters (arms c + 1) (cancels c) (fires c) (drains c) (spuriousDrains c)
               (if nearer then nearerRearms c + 1 else nearerRearms c) (Nat.max (deepestArmed c) depth)
               (deepestDue c) (armedDepthTotal c + N.of_nat depth) (dueDepthTotal c) in
    (given, true, MkTimer armed (due_ s) next false (wake_latency s) c (timer_armed_for_ s)).

Definition cancel_locked (t : N) (s : TimerState) : TimerState :=
  let c := counters_ s in
  MkTimer (filter (λ e, token e ≠ t) (armed_ s)) (filter (λ d, d ≠ t) (due_ s)) (next_token_ s) (stopping_ s)
    (wake_latency s)
    (MkCounters (arms c) (cancels c + 1) (fires c) (drains c) (spuriousDrains c) (nearerRearms c)
       (deepestArmed c) (deepestDue c) (armedDepthTotal c) (dueDepthTotal c)) (timer_armed_for_ s).

Definition drain_locked (s : TimerState) : list N * TimerState :=
  let depth := length (due_ s) in
  let c := counters_ s in
  (due_ s,
   MkTimer (armed_ s) [] (next_token_ s) (stopping_ s) (wake_latency s)
     (MkCounters (arms c) (cancels c) (fires c) (drains c + 1)
        (if decide (depth = 0%nat) then spuriousDrains c + 1 else spuriousDrains c) (nearerRearms c)
        (deepestArmed c) (Nat.max (deepestDue c) depth) (armedDepthTotal c) (dueDepthTotal c + N.of_nat depth))
     (timer_armed_for_ s)).

Definition stop_locked (s : TimerState) : TimerState :=
  MkTimer (armed_ s) (due_ s) (next_token_ s) true (wake_latency s) (counters_ s) (timer_armed_for_ s).

(** The predicate of [collect_due_locked], an entry at a time: latencies and tokens. *)
Definition collect_one (now : Z) (s : TimerState) (e : Entry) : TimerState :=
  if decide (now < deadline e) then
    MkTimer (armed_ s ++ [e]) (due_ s) (next_token_ s) (stopping_ s) (wake_latency s) (counters_ s)
      (timer_armed_for_ s)
  else
    let c := counters_ s in
    MkTimer (armed_ s) (due_ s ++ [token e]) (next_token_ s) (stopping_ s)
      (record (now - deadline e) (wake_latency s))
      (MkCounters (arms c) (cancels c) (fires c + 1) (drains c) (spuriousDrains c) (nearerRearms c)
         (deepestArmed c) (deepestDue c) (armedDepthTotal c) (dueDepthTotal c)) (timer_armed_for_ s).

(** [collect_due_locked]: whether it signals, and what it returns. *)
Definition collect_due_locked (now : Z) (s : TimerState) : bool * option Z * TimerState :=
  let cleared := MkTimer [] (due_ s) (next_token_ s) (stopping_ s) (wake_latency s) (counters_ s)
                   (timer_armed_for_ s) in
  let s' := foldl (collect_one now) cleared (armed_ s) in
  let next := earliest (armed_ s') in
  (negb (bool_decide (length (armed_ s') = length (armed_ s))), next,
   MkTimer (armed_ s') (due_ s') (next_token_ s') (stopping_ s') (wake_latency s') (counters_ s') next).

Definition worst_wake_latency (s : TimerState) : Z :=
  if decide (tally_calls (wake_latency s) = 0%N) then 0 else longest (wake_latency s).

(** ** Threads *)

Definition earliestArmableNanoseconds : Z := 1.

(** The time [absolute_spec] programs. *)
Definition absolute_spec (at_ : Z) : Z := Z.max at_ earliestArmableNanoseconds.

(** Where the worker is in its loop: before the lock, about to program the timer, waiting
    in [poll], about to read what was readable, or gone. *)
Inductive Worker :=
  | AtLock
  | Programming (next : option Z)
  | Waiting
  | Woken (timer control : bool)
  | Gone.

#[export] Instance Worker_eq_dec : EqDecision Worker.
Proof. solve_decision. Defined.

Inductive TimerEvent :=
  | Arms (at_ : Z)
  | Cancels (t : N)
  | Drains
  | Stops
  | Signals
  | ClockMoves (by_ : Z)
  | WorkerSteps
  | PollInterrupted
  | PollFails.

Section threads.
Context {F T : Type} `{!EventFd F, !TimerFd T}.

(** [signalling] callers have left the lock and not yet written to [control_fd_].  [given]
    and [delivered] are a record of the calls, which no code reads. *)
Record TimerWorld := MkTimerWorld {
  timer_state : TimerState;
  wake_fd_ : F;
  control_fd_ : F;
  timer_fd_ : T;
  worker : Worker;
  signalling : nat;
  clock : Z;
  given : list Entry;
  delivered : list N
}.

(** The constructor, when every descriptor and the thread were created. *)
Definition start_timer (clock : Z) : TimerWorld :=
  MkTimerWorld new_timer event_fd event_fd timer_create AtLock 0 clock [] [].

Definition with_worker (w : TimerWorld) (at_ : Worker) : TimerWorld :=
  MkTimerWorld (timer_state w) (wake_fd_ w) (control_fd_ w) (timer_fd_ w) at_ (signalling w) (clock w)
    (given w) (delivered w).

Definition poll_ready (w : TimerWorld) : bool := expired_at (clock w) (timer_fd_ w) || readable (control_fd_ w).

(** One step of [run]. *)
Definition worker_step (w : TimerWorld) : TimerWorld :=
  match worker w with
  | AtLock =>
    if stopping_ (timer_state w) then with_worker w Gone
    else
      let '(signal, next, s) := collect_due_locked (clock w) (timer_state w) in
      MkTimerWorld s (if signal : bool then written (wake_fd_ w) else wake_fd_ w) (control_fd_ w) (timer_fd_ w)
        (Programming next) (signalling w) (clock w) (given w) (delivered w)
  | Programming next =>
    MkTimerWorld (timer_state w) (wake_fd_ w) (control_fd_ w) (settime (absolute_spec <$> next) (timer_fd_ w))
      Waiting (signalling w) (clock w) (given w) (delivered w)
  | Waiting =>
    if poll_ready w then
      with_worker w (Woken (expired_at (clock w) (timer_fd_ w)) (readable (control_fd_ w)))
    else w
  | Woken timer control =>
    MkTimerWorld (timer_state w) (wake_fd_ w) (if control : bool then emptied (control_fd_ w) else control_fd_ w)
      (if timer : bool then timer_read (clock w) (timer_fd_ w) else timer_fd_ w) AtLock
      (signalling w) (clock w) (given w) (delivered w)
  | Gone => w
  end.

Definition timer_step (w : TimerWorld) (event : TimerEvent) : TimerWorld :=
  match event with
  | Arms at_ =>
    let '(t, signals, s) := arm_locked at_ (timer_state w) in
    MkTimerWorld s (wake_fd_ w) (control_fd_ w) (timer_fd_ w) (worker w)
      (if signals : bool then S (signalling w) else signalling w) (clock w) (given w ++ [MkEntry t at_])
      (delivered w)
  | Cancels t =>
    MkTimerWorld (cancel_locked t (timer_state w)) (wake_fd_ w) (control_fd_ w) (timer_fd_ w) (worker w)
      (S (signalling w)) (clock w) (given w) (delivered w)
  | Drains =>
    let '(taken, s) := drain_locked (timer_state w) in
    MkTimerWorld s (emptied (wake_fd_ w)) (control_fd_ w) (timer_fd_ w) (worker w) (signalling w) (clock w)
      (given w) (delivered w ++ taken)
  | Stops =>
    MkTimerWorld (stop_locked (timer_state w)) (wake_fd_ w) (control_fd_ w) (timer_fd_ w) (worker w)
      (S (signalling w)) (clock w) (given w) (delivered w)
  | Signals =>
    match signalling w with
    | O => w
    | S n =>
      MkTimerWorld (timer_state w) (wake_fd_ w) (written (control_fd_ w)) (timer_fd_ w) (worker w) n (clock w)
        (given w) (delivered w)
    end
  | ClockMoves by_ =>
    MkTimerWorld (timer_state w) (wake_fd_ w) (control_fd_ w) (timer_fd_ w) (worker w) (signalling w)
      (clock w + Z.max 0 by_) (given w) (delivered w)
  | WorkerSteps => worker_step w
  | PollInterrupted => match worker w with Waiting => with_worker w AtLock | _ => w end
  | PollFails => match worker w with Waiting => with_worker w Gone | _ => w end
  end.

Definition timer_after (events : list TimerEvent) (w : TimerWorld) : TimerWorld := foldl timer_step w events.
End threads.

(** ** Collecting *)

Lemma collect_fold now l s :
  let s' := foldl (collect_one now) s l in
  armed_ s' = armed_ s ++ filter (λ e, now < deadline e) l ∧
  due_ s' = due_ s ++ (token <$> filter (λ e, ¬ now < deadline e) l) ∧
  next_token_ s' = next_token_ s ∧ stopping_ s' = stopping_ s.
Proof.
  revert s. induction l as [|e l IH]; intros s; simpl; [by rewrite !app_nil_r|].
  destruct (IH (collect_one now s e)) as (A & D & N & S). rewrite A, D, N, S. unfold collect_one.
  destruct (decide (now < deadline e)) as [L|L].
  - rewrite !filter_cons_True by done. rewrite filter_cons_False by tauto. simpl.
    by rewrite <-!app_assoc.
  - rewrite filter_cons_False by done. rewrite filter_cons_True by done. simpl. by rewrite <-!app_assoc.
Qed.

Lemma earliest_spec l :
  match earliest l with
  | None => l = []
  | Some t => (∀ e, e ∈ l → t <= deadline e) ∧ ∃ e, e ∈ l ∧ deadline e = t
  end.
Proof.
  destruct l as [|e0 l]; [done|]. unfold earliest.
  assert (∀ seen t, (∀ e, e ∈ seen → t <= deadline e) → (∃ e, e ∈ seen ∧ deadline e = t) →
    let t' := foldl (λ t e, if decide (deadline e < t) then deadline e else t) t l in
    (∀ e, e ∈ seen ++ l → t' <= deadline e) ∧ ∃ e, e ∈ seen ++ l ∧ deadline e = t') as H.
  { induction l as [|e l IH]; intros seen t H1 H2; simpl; [by rewrite app_nil_r|].
    replace (seen ++ e :: l) with ((seen ++ [e]) ++ l) by (by rewrite <-app_assoc).
    destruct H2 as (m & Hm & <-). apply IH.
    - intros x [Hx| ->%list_elem_of_singleton]%elem_of_app; [apply H1 in Hx; case_decide; lia|case_decide; lia].
    - case_decide; [exists e|exists m]; (split; [set_solver|done]). }
  apply (H [e0]); [intros e ->%list_elem_of_singleton; lia|exists e0; set_solver].
Qed.

Lemma collect_spec now s signal next s' :
  collect_due_locked now s = (signal, next, s') →
  armed_ s' = filter (λ e, now < deadline e) (armed_ s) ∧
  due_ s' = due_ s ++ (token <$> filter (λ e, ¬ now < deadline e) (armed_ s)) ∧
  next_token_ s' = next_token_ s ∧ stopping_ s' = stopping_ s ∧ next = earliest (armed_ s') ∧
  (signal = false → due_ s' = due_ s).
Proof.
  unfold collect_due_locked. set (c := MkTimer [] _ _ _ _ _ _).
  destruct (collect_fold now (armed_ s) c) as (A & D & N & S). intros [= <- <- <-]. simpl.
  split_and!; try done. rewrite negb_false_iff, bool_decide_eq_true, A, D. simpl. intros L.
  assert (filter (λ e, ¬ now < deadline e) (armed_ s) = []) as ->; [|by rewrite app_nil_r].
  clear -L. induction (armed_ s) as [|e l IH]; [done|]. destruct (decide (now < deadline e)).
  - rewrite filter_cons_True in L by done. rewrite filter_cons_False by tauto. apply IH. by injection L.
  - rewrite filter_cons_False in L by done. pose proof (length_filter (λ e, now < deadline e) l). simpl in L. lia.
Qed.

(** ** The invariant *)

Section timer_ok.
Context {F T : Type} `{!EventFd F, !TimerFd T}.

Implicit Types w : TimerWorld (F := F) (T := T).

(** The tokens that were given and are not forgotten: armed, due or delivered. *)
Definition known (w : TimerWorld (F := F) (T := T)) : list N :=
  (token <$> armed_ (timer_state w)) ++ due_ (timer_state w) ++ delivered w.

(** What is waited for, or somebody is about to say that it changed. *)
Definition covered (next : option Z) (w : TimerWorld (F := F) (T := T)) : Prop :=
  (0 < signalling w)%nat ∨ readable (control_fd_ w) = true ∨
  (stopping_ (timer_state w) = false ∧
   ∀ e, e ∈ armed_ (timer_state w) → ∃ t, next = Some t ∧ t <= deadline e).

(** A token that was given for a deadline that has come. *)
Definition came (w : TimerWorld (F := F) (T := T)) (t : N) : Prop :=
  ∃ e, e ∈ given w ∧ token e = t ∧ deadline e <= clock w.

Record timer_ok (w : TimerWorld (F := F) (T := T)) : Prop := {
  clock_positive : 1 <= clock w;
  given_once : NoDup (token <$> given w);
  given_below : ∀ e, e ∈ given w → (token e < next_token_ (timer_state w))%N;
  armed_given : ∀ e, e ∈ armed_ (timer_state w) → e ∈ given w;
  known_once : NoDup (known w);
  due_came : ∀ t, t ∈ due_ (timer_state w) ∨ t ∈ delivered w → came w t;
  due_readable : due_ (timer_state w) ≠ [] → readable (wake_fd_ w) = true;
  wait_covered :
    match worker w with
    | Programming next => covered next w
    | Waiting => ∃ next t0, timer_fd_ w = settime (absolute_spec <$> next) t0 ∧ covered next w
    | _ => True
    end
}.

Lemma start_timer_ok clock : 1 <= clock → timer_ok (start_timer clock).
Proof.
  intros C. split; try done; simpl; try (by constructor).
  - by intros e ?%elem_of_nil.
  - by intros t [?%elem_of_nil|?%elem_of_nil].
Qed.

Lemma known_given w t : timer_ok w → t ∈ known w → ∃ e, e ∈ given w ∧ token e = t.
Proof.
  intros W. unfold known. rewrite !elem_of_app, list_elem_of_fmap.
  intros [(e & -> & He)|H]; [exists e; split; [by apply W|done]|].
  destruct (due_came w W t) as (e & He & E & _); [tauto|by exists e].
Qed.

Lemma known_below w t : timer_ok w → t ∈ known w → (t < next_token_ (timer_state w))%N.
Proof. intros W H. destruct (known_given w t W H) as (e & He & <-). by apply W. Qed.

Lemma came_mono w w' t :
  (∀ e, e ∈ given w → e ∈ given w') → clock w <= clock w' → came w t → came w' t.
Proof. intros G C (e & He & E & D). exists e. split_and!; [auto|done|lia]. Qed.

(** Only the descriptors and the worker change. *)
Lemma ok_same w w' :
  timer_ok w → timer_state w' = timer_state w → given w' = given w → delivered w' = delivered w →
  clock w <= clock w' → (readable (wake_fd_ w) = true → readable (wake_fd_ w') = true) →
  match worker w' with
  | Programming next => covered next w'
  | Waiting => ∃ next t0, timer_fd_ w' = settime (absolute_spec <$> next) t0 ∧ covered next w'
  | _ => True
  end → timer_ok w'.
Proof.
  intros [C G B A K D R _] Es Eg Ed Ec Er H. split; rewrite ?Es, ?Eg; try done; try lia.
  - unfold known in *. by rewrite Es, Ed.
  - intros t. rewrite Ed. intros Ht. apply (came_mono w); [by rewrite Eg|done|by apply D].
  - auto.
Qed.

Lemma worker_step_ok w : timer_ok w → timer_ok (worker_step w).
Proof.
  intros W. unfold worker_step. destruct (worker w) as [|next| |timer control|] eqn:E.
  - destruct (stopping_ (timer_state w)) eqn:St; [by apply (ok_same w); try done|].
    destruct (collect_due_locked (clock w) (timer_state w)) as [[signal next] s] eqn:Co.
    apply collect_spec in Co as (A & D & N & S & Nx & Sg). pose proof W as [C G B Ag K Du R _].
    assert ((token <$> armed_ s) ++ due_ s ++ delivered w ≡ₚ known w) as known_perm.
    { unfold known. rewrite A, D, <-!app_assoc.
      rewrite <-(filter_app_complement (λ e, clock w < deadline e) (armed_ (timer_state w))) at 3.
      rewrite fmap_app, <-!app_assoc. apply Permutation_app_head. rewrite !app_assoc. f_equiv.
      apply Permutation_app_comm. }
    split; simpl; try done.
    + by rewrite N.
    + intros e. rewrite A. intros [_ He]%list_elem_of_filter. by apply Ag.
    + unfold known. simpl. by rewrite known_perm.
    + intros t. rewrite D, elem_of_app, list_elem_of_fmap. intros [[Ht|(e & -> & He)]|Ht].
      * apply Du. by left.
      * apply list_elem_of_filter in He as [L He]. exists e. split; [by apply Ag|]. split; [done|]. simpl. lia.
      * apply Du. by right.
    + intros Ne. destruct signal; [apply readable_written|]. rewrite Sg in Ne by done. by apply R.
    + right; right. simpl. rewrite S. split; [done|]. intros e He. pose proof (earliest_spec (armed_ s)) as M.
      rewrite <-Nx in M. destruct next as [t|]; [exists t; split; [done|by apply M]|].
      rewrite M in He. by apply elem_of_nil in He.
  - apply (ok_same w); try done. simpl. pose proof (wait_covered w W) as H. rewrite E in H. by eexists _, _.
  - destruct (poll_ready w); [|done]. by apply (ok_same w).
  - by apply (ok_same w).
  - done.
Qed.
Lemma arms_ok at_ w : timer_ok w → timer_ok (timer_step w (Arms at_)).
Proof.
  intros W. pose proof W as [C G B A K D R H]. simpl. unfold arm_locked.
  set (t := next_token_ (timer_state w)).
  assert (t ∉ token <$> given w) as Fresh.
  { intros (e & E & He)%list_elem_of_fmap. apply B in He. lia. }
  assert (NoDup (token <$> given w ++ [MkEntry t at_])) as G'.
  { rewrite fmap_app. apply NoDup_app. split; [done|]. split; [|apply NoDup_singleton].
    intros x Hx E%list_elem_of_singleton. by subst. }
  assert (∀ e, e ∈ given w ++ [MkEntry t at_] → (token e < t + 1)%N) as B'.
  { intros e [He| ->%list_elem_of_singleton]%elem_of_app; [apply B in He; lia|simpl; lia]. }
  assert (∀ s' w', given w' = given w ++ [MkEntry t at_] → clock w' = clock w →
    s' ∈ due_ (timer_state w) ∨ s' ∈ delivered w → came w' s') as D'.
  { intros s' w' Eg Ec Hs. apply (came_mono w); [|by rewrite Ec|by apply D].
    intros e He. rewrite Eg. apply elem_of_app. by left. }
  destruct (stopping_ (timer_state w)) eqn:St.
  - split; simpl; try done; [set_solver|by intros s' Hs; eapply D'|].
    destruct (worker w); try done; unfold covered in *; rewrite St in H; simpl; naive_solver.
  - split; simpl; try done.
    + intros e [He| ->%list_elem_of_singleton]%elem_of_app; set_solver.
    + unfold known in *. simpl. rewrite fmap_app, <-app_assoc. simpl.
      rewrite <-Permutation_middle. constructor; [|done]. intros Hin.
      pose proof (known_below w t W Hin). unfold t in *. lia.
    + intros s' Hs. by eapply D'.
    + destruct (worker w); try done; [by left; simpl; lia|]. destruct H as (n & t0 & E & _).
      exists n, t0. split; [done|]. left. simpl. lia.
Qed.

Lemma cancels_ok t w : timer_ok w → timer_ok (timer_step w (Cancels t)).
Proof.
  intros W. pose proof W as [C G B A K D R H]. split; simpl; try done.
  - intros e [_ He]%list_elem_of_filter. by apply A.
  - unfold known in *. simpl. eapply sublist_NoDup; [exact K|].
    apply sublist_app; [apply fmap_sublist, sublist_filter|]. apply sublist_app; [apply sublist_filter|done].
  - intros x Hx. apply (came_mono w); [done..|]. apply D. destruct Hx as [[_ Hx]%list_elem_of_filter|Hx]; tauto.
  - intros Ne. apply R. intros E. by rewrite E in Ne.
  - destruct (worker w); try done; [by left; simpl; lia|]. destruct H as (n & t0 & E & _).
    exists n, t0. split; [done|]. left. simpl. lia.
Qed.

Lemma drains_ok w : timer_ok w → timer_ok (timer_step w Drains).
Proof.
  intros W. pose proof W as [C G B A K D R H]. split; simpl; try done.
  - unfold known in *. simpl. by rewrite (Permutation_app_comm (delivered w)).
  - intros x [Hx|Hx]; [by apply elem_of_nil in Hx|]. apply elem_of_app in Hx.
    apply (came_mono w); [done..|]. apply D. tauto.
Qed.

Lemma timer_step_ok w event : timer_ok w → timer_ok (timer_step w event).
Proof.
  intros W. destruct event as [at_|t| | | |by_| | |].
  - by apply arms_ok.
  - by apply cancels_ok.
  - by apply drains_ok.
  - destruct W as [C G B A K D R H]. split; simpl; try done.
    destruct (worker w); try done; [by left; simpl; lia|]. destruct H as (n & t0 & E & _).
    exists n, t0. split; [done|]. left. simpl. lia.
  - simpl. destruct (signalling w); [done|]. apply (ok_same w); try done. simpl.
    pose proof (wait_covered w W) as H. destruct (worker w); try done.
    + right; left. apply readable_written.
    + destruct H as (n' & t0 & E & _). exists n', t0. split; [done|]. right; left. apply readable_written.
  - apply (ok_same w); try done; simpl; [lia|]. apply W.
  - by apply worker_step_ok.
  - simpl. destruct (worker w); try done. by apply (ok_same w).
  - simpl. destruct (worker w); try done. by apply (ok_same w).
Qed.

Lemma timer_after_ok events w : timer_ok w → timer_ok (timer_after events w).
Proof. revert w. induction events as [|e events IH]; intros w W; [done|]. by apply IH, timer_step_ok. Qed.

(** *** Tokens that are forgotten *)

(** Nothing delivers a token again that was given and is not known. *)
Definition forgotten (t : N) (w : TimerWorld (F := F) (T := T)) : Prop :=
  (t < next_token_ (timer_state w))%N ∧ t ∉ token <$> armed_ (timer_state w) ∧ t ∉ due_ (timer_state w).

Lemma forgotten_step t w event :
  forgotten t w →
  forgotten t (timer_step w event) ∧
  ∃ rest, delivered (timer_step w event) = delivered w ++ rest ∧ t ∉ rest.
Proof.
  intros (B & A & D). assert (∃ rest, delivered w = delivered w ++ rest ∧ t ∉ rest) as Same
    by (exists []; rewrite app_nil_r; split; [done|apply not_elem_of_nil]).
  destruct event as [at_|c| | | |by_| | |]; simpl; try done.
  - unfold arm_locked. destruct (stopping_ (timer_state w)); (split; [|exact Same]); unfold forgotten; simpl.
    + split; [lia|done].
    + split; [lia|]. split; [|done]. rewrite fmap_app, elem_of_app. simpl. rewrite list_elem_of_singleton. intros [?|?]; [done|lia].
  - split; [|exact Same]. unfold forgotten. simpl. split; [done|]. split; [|by intros [_ ?]%list_elem_of_filter].
    intros (e & -> & [_ He]%list_elem_of_filter)%list_elem_of_fmap. apply A. by apply list_elem_of_fmap_2.
  - split; [unfold forgotten; simpl; split_and!; [done..|apply not_elem_of_nil]|]. by exists (due_ (timer_state w)).
  - destruct (signalling w); done.
  - unfold worker_step. destruct (worker w); [|done|by destruct (poll_ready w)|done..].
    destruct (stopping_ (timer_state w)) eqn:St; [done|].
      destruct (collect_due_locked (clock w) (timer_state w)) as [[signal next] s] eqn:Co.
      apply collect_spec in Co as (Ea & Ed & En & _). split; [|exact Same]. unfold forgotten. simpl.
      rewrite Ea, Ed, En. split; [done|]. split.
      * intros (e & -> & [_ He]%list_elem_of_filter)%list_elem_of_fmap. apply A. by apply list_elem_of_fmap_2.
      * rewrite elem_of_app. intros [?|(e & -> & [_ He]%list_elem_of_filter)%list_elem_of_fmap]; [done|].
        apply A. by apply list_elem_of_fmap_2.
  - by destruct (worker w).
  - by destruct (worker w).
Qed.

Lemma forgotten_after t events w :
  forgotten t w → ∃ rest, delivered (timer_after events w) = delivered w ++ rest ∧ t ∉ rest.
Proof.
  revert w. induction events as [|e events IH]; intros w H.
  - exists []. simpl. rewrite app_nil_r. split; [done|apply not_elem_of_nil].
  - destruct (forgotten_step t w e H) as (H' & r1 & E1 & N1). destruct (IH _ H') as (r2 & E2 & N2).
    exists (r1 ++ r2). change (timer_after (e :: events) w) with (timer_after events (timer_step w e)).
    rewrite E2, E1, app_assoc. split; [done|].
    rewrite elem_of_app. tauto.
Qed.

Lemma forgotten_cancelled t w :
  (t < next_token_ (timer_state w))%N → forgotten t (timer_step w (Cancels t)).
Proof.
  intros B. split; [done|]. simpl. split.
  - intros (e & -> & [Ne _]%list_elem_of_filter)%list_elem_of_fmap. done.
  - intros [Ne _]%list_elem_of_filter. done.
Qed.

(** *** The worker *)

Lemma waiting_nothing_due w :
  timer_ok w → worker w = Waiting → poll_ready w = false → signalling w = 0%nat →
  stopping_ (timer_state w) = false ∧ ∀ e, e ∈ armed_ (timer_state w) → clock w < deadline e.
Proof.
  intros W E P S. pose proof (wait_covered w W) as H. rewrite E in H. destruct H as (next & t0 & Et & Co).
  unfold poll_ready in P. apply orb_false_iff in P as [Px Pr].
  destruct Co as [Co|[Co|[St Co]]]; [lia|congruence|]. split; [done|].
  intros e He. destruct (Co e He) as (t & -> & L). rewrite Et, expired_settime in Px. simpl in Px.
  apply bool_decide_eq_false in Px. unfold absolute_spec, earliestArmableNanoseconds in Px.
  pose proof (clock_positive w W). lia.
Qed.

(** What the worker's own steps keep. *)
Definition worker_keeps (w w' : TimerWorld (F := F) (T := T)) : Prop :=
  signalling w' = signalling w ∧ clock w' = clock w ∧
  stopping_ (timer_state w') = stopping_ (timer_state w) ∧
  (∀ t, t ∈ due_ (timer_state w) → t ∈ due_ (timer_state w')) ∧
  ∀ e, e ∈ armed_ (timer_state w) → e ∈ armed_ (timer_state w') ∨ token e ∈ due_ (timer_state w').

#[local] Instance worker_keeps_refl : Reflexive worker_keeps.
Proof. intros w. split_and!; auto. Qed.

#[local] Instance worker_keeps_trans : Transitive worker_keeps.
Proof.
  intros w1 w2 w3 (A1 & B1 & C1 & D1 & E1) (A2 & B2 & C2 & D2 & E2).
  split_and!; [congruence|congruence|congruence|by auto|]. intros e [He|He]%E1; auto.
Qed.

Lemma worker_step_keeps w : worker_keeps w (worker_step w).
Proof.
  unfold worker_step. destruct (worker w); [|by split_and!; auto|destruct (poll_ready w); by split_and!; auto|by split_and!; auto|done].
  destruct (stopping_ (timer_state w)) eqn:St; [by split_and!; auto|].
  destruct (collect_due_locked (clock w) (timer_state w)) as [[signal next] s] eqn:Co.
  apply collect_spec in Co as (A & D & _ & S & _). split_and!; simpl; try done.
  - intros t Ht. rewrite D. apply elem_of_app. by left.
  - intros e He. rewrite A, D. destruct (decide (clock w < deadline e)) as [L|L].
    + left. by apply list_elem_of_filter.
    + right. apply elem_of_app. right. apply list_elem_of_fmap_2. by apply list_elem_of_filter.
Qed.

(** Gone because it was stopped, or waiting with nothing to wake it. *)
Definition at_rest (w : TimerWorld (F := F) (T := T)) : Prop :=
  worker w = Gone ∧ stopping_ (timer_state w) = true ∨ worker w = Waiting ∧ poll_ready w = false.

Definition settles (k : nat) (w : TimerWorld (F := F) (T := T)) : Prop :=
  ∃ n, (n <= k)%nat ∧ at_rest (Nat.iter n worker_step w).

Lemma settles_now k w : at_rest w → settles k w.
Proof. intros H. exists 0%nat. split; [lia|done]. Qed.

Lemma settles_step k w : settles k (worker_step w) → settles (S k) w.
Proof. intros (n & L & H). exists (S n). split; [lia|]. by rewrite Nat.iter_succ_r. Qed.

Lemma settles_from_lock w :
  timer_ok w → worker w = AtLock → readable (control_fd_ w) = false → settles 2 w.
Proof.
  intros W E Rd. destruct (stopping_ (timer_state w)) eqn:St.
  - apply settles_step, settles_now. left. unfold worker_step. by rewrite E, St.
  - apply settles_step, settles_step, settles_now. right. unfold worker_step at 2 4. rewrite E, St.
    destruct (collect_due_locked (clock w) (timer_state w)) as [[signal next] s] eqn:Co.
    apply collect_spec in Co as (Ea & _ & _ & _ & Nx & _).
    split; [done|]. unfold poll_ready, worker_step. simpl. rewrite Rd, expired_settime, orb_false_r.
    pose proof (earliest_spec (armed_ s)) as M. rewrite <-Nx in M. destruct next as [t|]; simpl; [|done].
    destruct M as [_ (e & He & <-)]. rewrite Ea in He. apply list_elem_of_filter in He as [L _].
    apply bool_decide_eq_false. unfold absolute_spec. lia.
Qed.

Lemma settles_woken w timer control :
  timer_ok w → worker w = Woken timer control → (control = false → readable (control_fd_ w) = false) →
  settles 3 w.
Proof.
  intros W E Rd. apply settles_step, settles_from_lock; [by apply worker_step_ok| |];
    unfold worker_step; rewrite E; [done|]. simpl. destruct control; [apply readable_emptied|by apply Rd].
Qed.

Lemma settles_waiting w : timer_ok w → worker w = Waiting → settles 4 w.
Proof.
  intros W E. destruct (poll_ready w) eqn:P; [|by apply settles_now; right].
  apply settles_step. eapply settles_woken; [by apply worker_step_ok|unfold worker_step; by rewrite E, P|].
  unfold worker_step. by rewrite E, P.
Qed.

Lemma settles_programming w next : timer_ok w → worker w = Programming next → settles 5 w.
Proof.
  intros W E. apply settles_step, settles_waiting; [by apply worker_step_ok|]. unfold worker_step. by rewrite E.
Qed.

Lemma settles_at_lock w : timer_ok w → worker w = AtLock → settles 6 w.
Proof.
  intros W E. apply settles_step. pose proof (worker_step_ok w W) as W'. revert W'.
  unfold worker_step. rewrite E. destruct (stopping_ (timer_state w)) eqn:St.
  - intros _. apply settles_now. by left.
  - destruct (collect_due_locked (clock w) (timer_state w)) as [[signal next] s]. intros W'.
    by apply (settles_programming _ next).
Qed.

Lemma worker_settles w : timer_ok w → worker w ≠ Gone → settles 7 w.
Proof.
  intros W Ne. destruct (worker w) as [|next| |timer control|] eqn:E; [..|done].
  - destruct (settles_at_lock w W E) as (n & L & H). exists n. split; [lia|done].
  - destruct (settles_programming w next W E) as (n & L & H). exists n. split; [lia|done].
  - destruct (settles_waiting w W E) as (n & L & H). exists n. split; [lia|done].
  - apply settles_step, settles_at_lock; [by apply worker_step_ok|]. unfold worker_step. by rewrite E.
Qed.

(** Unless [poll] fails, the worker goes only when it is stopped. *)
Lemma stopped_stays w event :
  stopping_ (timer_state w) = true → stopping_ (timer_state (timer_step w event)) = true.
Proof.
  intros St. destruct event as [at_|t| | | |by_| | |]; simpl; try done.
  - unfold arm_locked. by rewrite St.
  - by destruct (signalling w).
  - pose proof (worker_step_keeps w) as (_ & _ & -> & _). done.
  - by destruct (worker w).
  - by destruct (worker w).
Qed.

Lemma gone_is_stopped events w :
  PollFails ∉ events → (worker w = Gone → stopping_ (timer_state w) = true) →
  worker (timer_after events w) = Gone → stopping_ (timer_state (timer_after events w)) = true.
Proof.
  revert w. induction events as [|event events IH]; intros w No H; [exact H|].
  apply not_elem_of_cons in No as [Ne No]. apply IH; [done|]. intros G.
  destruct (decide (worker w = Gone)) as [Gw|Nw]; [by apply stopped_stays, H|].
  revert G. destruct event as [at_|t| | | |by_| | |]; simpl; try done.
  - unfold arm_locked. by destruct (stopping_ (timer_state w)).
  - by destruct (signalling w).
  - unfold worker_step. destruct (worker w) eqn:Ew; simpl; try done; [|destruct (poll_ready w); simpl; congruence].
    destruct (stopping_ (timer_state w)) eqn:St; [done|].
    by destruct (collect_due_locked (clock w) (timer_state w)) as [[signal next] s'].
  - destruct (worker w) eqn:Ew; simpl; congruence.
Qed.

Lemma worker_steps_ok n w : timer_ok w → timer_ok (Nat.iter n worker_step w) ∧ worker_keeps w (Nat.iter n worker_step w).
Proof.
  intros W. induction n as [|n [IH1 IH2]]; [by split|]. simpl.
  split; [by apply worker_step_ok|]. etrans; [exact IH2|]. apply worker_step_keeps.
Qed.
End timer_ok.

(** ** The theorems *)

(** C28: a deadline is told once, not before its time, and never after it was cancelled:
    after any calls, steps of the worker and movements of the clock, no token was given or
    delivered twice; what was delivered was armed for a time that has come; the descriptor
    clients wait on is readable while anything is due; and once a token is cancelled no
    later drain returns it. *)
Theorem deadlines_told_once {F T} `{!EventFd F, !TimerFd T} events start (C : 1 <= start) :
  let w : TimerWorld (F := F) (T := T) := timer_after events (start_timer start) in
  NoDup (token <$> given w) ∧ NoDup (delivered w) ∧
  (∀ t, t ∈ delivered w → ∃ e, e ∈ given w ∧ token e = t ∧ deadline e <= clock w) ∧
  (due_ (timer_state w) ≠ [] → readable (wake_fd_ w) = true) ∧
  ∀ t more, t ∈ token <$> given w →
    ∃ later, delivered (timer_after more (timer_step w (Cancels t))) = delivered w ++ later ∧ t ∉ later.
Proof.
  intros w. assert (timer_ok w) as W by (apply timer_after_ok, start_timer_ok; done). split_and!.
  - apply W.
  - pose proof (known_once w W) as K. unfold known in K.
    apply NoDup_app in K as (_ & _ & K). by apply NoDup_app in K as (_ & _ & K).
  - intros t Ht. apply (due_came w W). by right.
  - apply W.
  - intros t more (e & -> & He)%list_elem_of_fmap.
    destruct (forgotten_after (token e) more (timer_step w (Cancels (token e)))) as (later & E & Ne).
    + apply forgotten_cancelled. by apply W.
    + exists later. by rewrite E.
Qed.

(** C29: no wake-up is lost while the worker lives: whatever happened before, once every
    caller has written to the control descriptor the worker reaches its wait in at most
    seven steps (or is gone, stopped), and there every deadline that had come is due, the
    clients' descriptor says so, and what is still armed lies ahead.  The one exception is
    a worker that left because [poll] failed otherwise than by an interruption. *)
Theorem no_wake_up_lost {F T} `{!EventFd F, !TimerFd T} events start (C : 1 <= start) :
  let w : TimerWorld (F := F) (T := T) := timer_after events (start_timer start) in
  signalling w = 0%nat → (worker w = Gone → PollFails ∉ events) →
  ∃ n, (n <= 7)%nat ∧ let w' := Nat.iter n worker_step w in
    (worker w' = Gone ∧ stopping_ (timer_state w) = true) ∨
    (worker w' = Waiting ∧ poll_ready w' = false ∧ clock w' = clock w ∧
     (∀ e, e ∈ armed_ (timer_state w) → deadline e <= clock w →
       token e ∈ due_ (timer_state w') ∧ readable (wake_fd_ w') = true) ∧
     ∀ e, e ∈ armed_ (timer_state w') → clock w < deadline e).
Proof.
  intros w S Live. assert (timer_ok w) as W by (apply timer_after_ok, start_timer_ok; done).
  destruct (decide (worker w = Gone)) as [G|Ne].
  { exists 0%nat. split; [lia|]. left. split; [exact G|]. apply gone_is_stopped; [by apply Live|done|exact G]. }
  destruct (worker_settles w W Ne) as (n & L & H). exists n. split; [done|]. simpl.
  destruct (worker_steps_ok n w W) as [W' (K1 & K2 & K3 & K4 & K5)].
  set (w' := Nat.iter n worker_step w) in *.
  destruct H as [[E St]|[E P]]; [left; split; [done|congruence]|right].
  destruct (waiting_nothing_due w' W' E P) as [_ Ahead]; [congruence|]. rewrite K2 in Ahead.
  split_and!; try done. intros e He Due. destruct (K5 e He) as [He'|He']; [apply Ahead in He'; lia|].
  split; [done|]. apply W'. intros Nil. rewrite Nil in He'. by apply elem_of_nil in He'.
Qed.

(** Once [poll] has failed, a deadline is still accepted and never told, whatever steps
    the worker is given. *)
Theorem poll_failure_loses {F T} `{!EventFd F, !TimerFd T} (n : nat) :
  let w : TimerWorld (F := F) (T := T) :=
    timer_after [WorkerSteps; WorkerSteps; PollFails; Arms 50; Signals; ClockMoves 100] (start_timer 1) in
  let w' := Nat.iter n worker_step w in
  stopping_ (timer_state w') = false ∧ armed_ (timer_state w') = [MkEntry 1 50] ∧ due_ (timer_state w') = [] ∧
  50 <= clock w'.
Proof.
  intros w w'. assert (w' = w) as ->; [|by split_and!].
  unfold w'. induction n as [|n IH]; [done|]. rewrite Nat.iter_succ, IH. done.
Qed.

(** *** Witnesses: a descriptor that remembers whether it was written, a timer that
    remembers its time. *)

#[local] Instance flag_fd : EventFd bool.
Proof. by refine {| event_fd := false; written _ := true; emptied _ := false; readable f := f |}. Defined.

#[local] Instance option_timer : TimerFd (option Z).
Proof.
  refine {| timer_create := None; settime t _ := t;
    timer_read now t := match t with Some at_ => if decide (at_ <= now) then None else t | None => None end;
    expired_at now t := match t with Some at_ => bool_decide (at_ <= now) | None => false end |}; done.
Defined.

Definition timer_demo : list TimerEvent :=
  [Arms 50; Signals; WorkerSteps; WorkerSteps; Arms 20; ClockMoves 30; Arms 90; Signals; WorkerSteps; WorkerSteps;
   WorkerSteps; WorkerSteps; Drains; Cancels 1; Signals; Signals].

Example timer_demo_run :
  let w := timer_after (F := bool) (T := option Z) timer_demo (start_timer 1) in
  delivered w = [2%N] ∧ armed_ (timer_state w) = [MkEntry 3 90] ∧ signalling w = 0%nat.
Proof. by vm_compute. Qed.

Lemma deadlines_told_once_witness :
  let w := timer_after (F := bool) (T := option Z) timer_demo (start_timer 1) in
  NoDup (delivered w) ∧ delivered w = [2%N].
Proof.
  split; [|by vm_compute].
  exact (proj1 (proj2 (deadlines_told_once (F := bool) (T := option Z) timer_demo 1 ltac:(lia)))).
Defined.

Lemma no_wake_up_lost_witness :
  let w := timer_after (F := bool) (T := option Z) (timer_demo ++ [ClockMoves 100]) (start_timer 1) in
  ∃ n, (n <= 7)%nat ∧ worker (Nat.iter n worker_step w) = Waiting.
Proof.
  destruct (no_wake_up_lost (F := bool) (T := option Z) (timer_demo ++ [ClockMoves 100]) 1 ltac:(lia)) as (n & L & H).
  - by vm_compute.
  - intros H. by vm_compute in H.
  - exists n. split; [exact L|]. destruct H as [[_ H]|[H _]]; [by vm_compute in H|exact H].
Defined.
